(* ===== verification/_CoqProject ===== *)
-Q . S2P
Prelude.v
Interfaces.v
Buffer.v
CircularBuffer.v
IdleWheel.v
BufferPool.v
TimerQueue.v
ThreadPool.v
Ring.v
Scheduler.v
Completion.v
Offload.v
WorkerTimers.v
Lifecycle.v
Teardown.v
Signals.v
LogStream.v
LogFile.v
AsyncLogger.v
Fatal.v
Task.v
Strands.v
Coroutines.v
Ops.v
Tcp.v
Sockets.v
IdleServer.v
Server.v
Resources.v
EchoServer.v
Connection.v
Handlers.v
WheelCalls.v
Eviction.v
Conversation.v
EchoMain.v
MainLog.v
