(* ===== verification/Prelude.v ===== *)
(** * coro_net: a verification library

    coro_net is a C++20 network library: coroutines ([Task]) suspended on io_uring
    operations, one event loop per worker thread, a TCP server on top, and an
    asynchronous logger.  This library models its implementation files under [src/]
    and proves what makes each part correct, and the two together where they meet.

    ** The program and the files

    - [Prelude] (this file): outcomes of C++ code ([res]: a value, an exception, an
      abort or undefined behaviour), machine integers, vectors as lists, reachability,
      hints and tactics.
    - [Interfaces]: what components promise to each other, as classes: [Window] (the
      wheel's ring of buckets), [SlotPool] (the pool's slots), [LogSink] (the log file).
    - [Buffer] ([include/coro_net/buffer.hpp]): the byte buffer of a connection.
      [run_refines]: any calls behave as on a byte queue.
    - [CircularBuffer] ([src/util/circular_buffer.h]) implements [Window]:
      [push_keeps_last], [iteration_visits_contents].
    - [IdleWheel] ([src/net/idle_connection_wheel.cc]): idle connections are evicted by
      a wheel of buckets; [wheel_refines_countdown] gives every entry a countdown,
      [idle_eviction_time] says when it runs out.
    - [BufferPool] ([include/coro_net/registered_buffer_pool.hpp]) implements
      [SlotPool]; the slots tile the registered arena.
    - [TimerQueue] ([src/timer/timer_queue.cc], [include/coro_net/timer/]): timers as
      objects on an explicit heap, callbacks that call back into the queue.
      [expired_batch], [timer_queue_memory_safe], [queue_well_formed], [wakeup_armed].
    - [ThreadPool] ([src/thread_pool/coro_thread_pool.cc],
      [include/coro_net/submit_awaiter.hpp]): workers, the condition variable and [stop],
      interleaved.
    - [Ring] ([include/coro_net/io/io_uring.h], [src/scheduler/scheduler_pool.cc]): the
      flags tried for a ring, the grouping of rings around shared polling threads.
    - [Scheduler] ([src/scheduler/scheduler.cc], [src/coroutine/io_operation.cc]): the
      event loop as a state machine that interleaves with other threads and the
      kernel.  [no_lost_wakeup], [scheduler_fifo]; what goes wrong when [stop] comes
      before [run] or the submission queue is full.  [Completion] keeps the ledger of
      its operations: [operations_conserved].  [Offload] puts it together with
      [ThreadPool]: coroutines of the workers submit functions to the pool and come
      back to their own worker ([offload_roundtrip], [offload_resumes]).
    - [Resources] (the constructors and destructors of [IoUring], [TimerQueue],
      [RegisteredBufferPool], [Scheduler] and [SchedulerPool]): rings, descriptors,
      arenas and registrations come back, also when a constructor throws
      ([workers_give_back]), but for one eventfd ([eventfd_is_leaked]).
    - [WorkerTimers] ([run_after], [run_every], [cancel] of [scheduler.cc]): timer calls
      from any thread, on [TimerQueue]: [cross_thread_timers], [drained_cancel_final].
    - [Lifecycle] ([TcpServer::start], in steps, and [stop], [scheduler_pool.cc]): all the
      workers of a server, on [Scheduler].  [server_stop_reaches_workers]: a [stop] that
      finds the workers there reaches them; [stopping_worker_exits]: once it has, their
      threads leave [run], unless coroutines make each other ready for ever
      ([reposting_worker_stays]).  [Teardown] adds [wait] and the destructors, between
      whose steps the workers run on: [teardown_safe].  [Signals] is the main thread of
      the echo server ([main], [on_signal], [TcpServer::start] step by step) with the
      signals that stop it: [signal_ends_program], [signal_during_start_is_lost].
    - [LogStream] ([src/log/log_stream.cc], [logger.cc]), [LogFile] ([log_file.cc]),
      [AsyncLogger] ([async_logger.cc]): a log line is formatted into a bounded buffer,
      handed to the back-end thread and written to rolling files.  [log_line] has the line
      at every length, [log_file_keeps_lines] what the files hold of the lines whatever
      the C library answers.  [LogFile] implements [LogSink], against which the back end
      is proved, when those calls succeed.  [Fatal] ([fire_and_forget.cc]
      with [~Logger]) follows an exception that leaves a spawned coroutine to the abort
      of the process: [uncaught_exception_is_logged], unless buffers are thrown away.
    - [Task] ([include/coro_net/task.hpp], [fire_and_forget.hpp], [Scheduler::spawn]):
      coroutine frames, promises, symmetric transfer and coroutines that spawn others;
      [coroutines_are_calls] relates them to function calls, [frames_freed] says which
      frames are alive, [task_ownership] who owns them.  [Strands] reasons on the calls one
      coroutine at a time.
    - [Coroutines] puts [Task] on the event loop of [Scheduler]: the frames of a worker
      are resumed by its completions and by other threads' posts ([worker_runs_calls],
      [every_waiter_is_tracked], [idle_worker_has_no_frames]).
    - [Ops] ([include/coro_net/ops/], [inet_address.hpp]): what each awaiter asks the
      kernel, on [Scheduler]; addresses.
    - [Tcp] ([src/net/tcp_connection.cc], [tcp_server.cc]): sending, receiving, slots and
      descriptors of connections, listening sockets, the accept loop.  [Sockets] takes the opening of
      the listening sockets step by step, with the signals that come meanwhile:
      [sockets_closed_once], [signal_shuts_sockets], [opening_is_start].  [IdleServer] puts
      them under an [IdleWheel]: idle connections are shut down and everything they held
      comes back ([idle_connections_reclaimed]).  [Connection] is the whole object of a
      connection, context and pointer to the wheel included: [connection_lifetime],
      [data_renews].
    - [Server] ([include/coro_net/tcp_server.hpp], the constructor of [Scheduler]): from
      the settings to the rings and buffer pools of the workers: [handler_path].
    - [EchoServer] ([example/echo_server.cc]): the handler on its two paths, on [Tcp],
      [Buffer] and [BufferPool] ([echo_roundtrip], [fixed_path_equivalent],
      [fixed_io_in_slot]); the settings read from the environment.  [EchoMain]: from
      the command line to the settings ([main_settings_roundtrip]).  [MainLog]
      ([include/coro_net/log.hpp], the log lines of [main]): on [LogStream] and
      [AsyncLogger], what the main thread logs before and after [wait] is on disk when it
      returns ([main_log_is_kept]).
    - [Handlers] (the coroutines of [tcp_server.cc], [tcp_connection.cc],
      [idle_connection_wheel.cc] and [echo_server.cc]): their bodies, await by await, on
      the event loop of [Coroutines], any number of connections at a time:
      [echo_server_serves], [no_connection_forgotten].  [Conversation] shows that a body
      run by itself is the function of results that [EchoServer] and [Tcp] have for it:
      [handler_is_echo], [accept_is_loop].
    - [WheelCalls] and [Eviction] put [IdleWheel] under these coroutines: their calls of
      [register_conn], [refresh] and [push_back], in the order in which the event loop
      lets them happen, are played to the wheel ([coroutines_drive_wheel]), and the
      entries that die there are those [tick_coro] finds dead.  A connection on which
      nothing comes in for the idle timeout is shut down, by the wheel or by its own handler ([idle_connection_is_shut_down];
      [wheel_keeps_turning]: the seconds this takes do go by) and no other that is still
      in use ([only_idle_are_shut_down]).

    ** How the code is modelled

    A class is a [Record] of its members, with the source's names; a member function is
    a function on it.  A coroutine that awaits in a loop is a function of the results of
    its operations ([Tcp], [EchoServer]) or, where frames matter, a transition system
    ([Task]), for which a body is a function from a local state to what it does next
    ([Handlers]).  Threads are interleaved: the state has a program point per thread, each
    step is a critical section or an atomic access ([ThreadPool], [Scheduler],
    [AsyncLogger]), and memory is sequentially consistent.  Actions of user code are
    lists chosen by the step, or, for timer callbacks, programs that call the queue.

    Code outside the repository is a parameter: the kernel (results of system calls and
    completions, in any order), liburing, the allocators, the clock, [snprintf("%g")],
    [localtime_r], [inet_pton].  In [Handlers] so is what each peer will ever send, and
    what the components' own files determine: the values of the flags that other threads
    write, the slot a connection finds, the entries that die at a tick.  (In [Eviction]
    these are the wheel's; the times at which connections are destroyed are a parameter
    there, none before the end of its handler.)  Hypotheses state documented behaviour: an allocator returns fresh memory, the kernel accepts no more
    than it is offered and stores what the peer has sent, distinct setup flags are
    distinct bits, [inet_ntop] inverts [inet_pton].

    ** Bounds and fuel

    [size_t] sums are written with their wrap-around ([u64]); counts of nanoseconds,
    sequence numbers and rounds of clocks are unbounded.  Fuel is used where a loop is
    not structural and is enough by a lemma: 20 turns for the digits of a 64-bit number
    and 16 for its hexadecimal digits ([convert_loop_ok], [convertHex_loop_ok]), one turn
    per pending timer ([pop_expired]), one per character of the processor list
    ([cpus_loop_total]).  The writing loop of [AppendFile::append] has one turn
    per byte and one; if [fwrite] neither progresses nor reports an error the call does
    not return, which is its [None].

    ** Not modelled

    The text of the log lines other than those of [main] and of a fatal exception (the
    logger is proved for any text); the calls of one signal handler are one step, and that
    they are not async-signal-safe is not modelled; weak memory orders: the relaxed atomics of the source are sequentially
    consistent here; the destruction of coroutines still suspended when a worker leaves
    [run] (the source leaks them); a [stop] of the logger by another thread while
    [Fatal] aborts; the system calls that open the listening sockets, in [Signals] (they
    are in [Sockets]; there a step of [start] may fail); the result types of tasks other than
    the ones the bodies of [Handlers] use; the benchmark clients and the tests. *)
From stdpp Require Export base tactics option numbers list relations gmap sets.
From Stdlib Require Export ZArith Lia.
From Stdlib Require Export Init.Byte.
From Stdlib Require Import Permutation.

#[global] Open Scope Z_scope.

(** ** Outcomes of C++ code *)

(** The exceptions the modelled code can raise. *)
Inductive exn : Type :=
  | LengthError
  | UnderflowError
  | SystemError (code : Z).

(** A C++ operation returns a value, throws, aborts the process (a failed
    [assert], [std::abort]) or has undefined behaviour. *)
Inductive res (A : Type) : Type :=
  | Ok (a : A)
  | Throw (e : exn)
  | Abort
  | UB.
Arguments Ok {A} _.
Arguments Throw {A} _.
Arguments Abort {A}.
Arguments UB {A}.

#[export] Instance exn_eq_dec : EqDecision exn.
Proof. solve_decision. Defined.

#[export] Instance res_ret : MRet res := fun A a => Ok a.
#[export] Instance res_bind : MBind res := fun A B k m =>
  match m with
  | Ok a => k a
  | Throw e => Throw e
  | Abort => Abort
  | UB => UB
  end.

Lemma res_bind_ok {A B} (m : res A) (k : A → res B) b :
  (m ≫= k) = Ok b ↔ ∃ a, m = Ok a ∧ k a = Ok b.
Proof.
  split; [|by intros (a & -> & ?)].
  destruct m as [a| | |]; cbn; intros; try discriminate. by exists a.
Qed.

Lemma res_bind_assoc {A B C} (m : res A) (f : A → res B) (g : B → res C) :
  ((m ≫= f) ≫= g) = (m ≫= λ a, f a ≫= g).
Proof. by destruct m. Qed.

(** ** Machine integers *)

Definition u64_mod : Z := 2 ^ 64.
Definition u32_mod : Z := 2 ^ 32.
(** [size_t], [uint64_t] and [uintptr_t] arithmetic: reduce modulo 2^64. *)
Definition u64 (z : Z) : Z := z mod u64_mod.
(** [unsigned]/[uint32_t]: reduce modulo 2^32. *)
Definition u32 (z : Z) : Z := z mod u32_mod.
(** The largest [size()] a [std::vector<char>] or [std::string] can have. *)
Definition max_size : Z := 2 ^ 63 - 1.

Lemma u64_small z : 0 ≤ z < u64_mod → u64 z = z.
Proof. intros. by apply Z.mod_small. Qed.
Lemma u64_range z : 0 ≤ u64 z < u64_mod.
Proof. by apply Z.mod_pos_bound. Qed.
Lemma u64_wrap z : u64_mod ≤ z < 2 * u64_mod → u64 z = z - u64_mod.
Proof.
  intros. unfold u64. symmetry. apply (Z.mod_unique _ _ 1); [left|]; lia.
Qed.
Lemma u32_small z : 0 ≤ z < u32_mod → u32 z = z.
Proof. intros. by apply Z.mod_small. Qed.
Lemma u64_mod_val : u64_mod = 18446744073709551616.
Proof. reflexivity. Qed.
Lemma u32_mod_val : u32_mod = 4294967296.
Proof. reflexivity. Qed.
Lemma max_size_val : max_size = 9223372036854775807.
Proof. reflexivity. Qed.

#[global] Opaque u64_mod u32_mod max_size.

(** Expose the numeric value of the width constants, then call [lia]. *)
Ltac width_lia :=
  rewrite ?u64_mod_val, ?u32_mod_val, ?max_size_val in *; lia.

(** Remove [u64 z] wherever [z] is provably in range. *)
Ltac u64_simpl :=
  repeat match goal with
  | |- context [u64 ?z] => rewrite (u64_small z) by width_lia
  | H : context [u64 ?z] |- _ => rewrite (u64_small z) in H by width_lia
  end.

(** ** Vectors as lists, indexed by [Z] *)

(** [v.size()]. *)
Definition zlen {A} (l : list A) : Z := Z.of_nat (length l).

(** The [n] elements of [l] from offset [i]. *)
Definition slice {A} (l : list A) (i n : Z) : list A :=
  take (Z.to_nat n) (drop (Z.to_nat i) l).

(** Reading [n] elements at offset [i]: undefined outside the vector. *)
Definition read_at {A} (l : list A) (i n : Z) : res (list A) :=
  if decide (0 ≤ i ∧ 0 ≤ n ∧ i + n ≤ zlen l) then Ok (slice l i n) else UB.

(** [memcpy]/[memmove] of [xs] to offset [i]: undefined outside the vector. *)
Definition write_at {A} (l : list A) (i : Z) (xs : list A) : res (list A) :=
  if decide (0 ≤ i ∧ i + zlen xs ≤ zlen l)
  then Ok (slice l 0 i ++ xs ++ slice l (i + zlen xs) (zlen l - (i + zlen xs)))
  else UB.

(** [std::vector<char>::resize]: value-initialises new elements, throws
    beyond [max_size()]. *)
Definition vec_resize (l : list byte) (n : Z) : res (list byte) :=
  if decide (n ≤ max_size) then Ok (resize (Z.to_nat n) x00 l)
  else Throw LengthError.

Section vectors.
Context {A : Type}.
Implicit Types l xs : list A.

Lemma zlen_nil : zlen (@nil A) = 0.
Proof. reflexivity. Qed.
Lemma zlen_cons (x : A) l : zlen (x :: l) = 1 + zlen l.
Proof. unfold zlen. cbn [length]. lia. Qed.
Lemma zlen_app l xs : zlen (l ++ xs) = zlen l + zlen xs.
Proof. unfold zlen. rewrite length_app. lia. Qed.
Lemma zlen_nonneg l : 0 ≤ zlen l.
Proof. unfold zlen. lia. Qed.
Lemma zlen_slice l i n : 0 ≤ i → 0 ≤ n → i + n ≤ zlen l → zlen (slice l i n) = n.
Proof. unfold zlen, slice. rewrite length_take, length_drop. lia. Qed.
Lemma slice_all l : slice l 0 (zlen l) = l.
Proof. unfold slice, zlen. rewrite Nat2Z.id, firstn_all. done. Qed.
Lemma slice_nil l i n : n ≤ 0 → slice l i n = [].
Proof. intros. unfold slice. by replace (Z.to_nat n) with 0%nat by lia. Qed.
Lemma slice_app l i n m :
  0 ≤ i → 0 ≤ n → 0 ≤ m → slice l i (n + m) = slice l i n ++ slice l (i + n) m.
Proof.
  intros. unfold slice.
  rewrite !Z2Nat.inj_add, <-drop_drop, take_take_drop by lia. done.
Qed.
Lemma slice_app_l l xs i n :
  0 ≤ i → i + n ≤ zlen l → slice (l ++ xs) i n = slice l i n.
Proof.
  unfold slice, zlen. intros.
  destruct (decide (n ≤ 0)); [by replace (Z.to_nat n) with 0%nat by lia|].
  rewrite drop_app_le, take_app_le; rewrite ?length_drop; (done || lia).
Qed.
Lemma slice_app_r l xs i n :
  zlen l ≤ i → slice (l ++ xs) i n = slice xs (i - zlen l) n.
Proof.
  unfold slice, zlen. intros. rewrite drop_app_ge by lia. do 2 f_equal. lia.
Qed.
Lemma slice_lookup l i n (k : nat) :
  slice l i n !! k =
  if decide (k < Z.to_nat n)%nat then l !! (Z.to_nat i + k)%nat else None.
Proof. unfold slice. rewrite lookup_take. case_decide; [apply lookup_drop|done]. Qed.
Lemma slice_slice l i n j m :
  0 ≤ i → 0 ≤ j → j + m ≤ n → slice (slice l i n) j m = slice l (i + j) m.
Proof.
  intros. apply list_eq; intros k. rewrite !slice_lookup.
  repeat case_decide; try done; try lia. f_equal. lia.
Qed.

Lemma read_at_ok l i n :
  0 ≤ i → 0 ≤ n → i + n ≤ zlen l → read_at l i n = Ok (slice l i n).
Proof. intros. unfold read_at. by rewrite decide_True by done. Qed.

Lemma write_at_ok l i xs :
  0 ≤ i → i + zlen xs ≤ zlen l →
  ∃ l', write_at l i xs = Ok l' ∧ zlen l' = zlen l ∧
    slice l' i (zlen xs) = xs ∧
    (∀ j n, 0 ≤ j → j + n ≤ i → slice l' j n = slice l j n) ∧
    (∀ j n, i + zlen xs ≤ j → j + n ≤ zlen l → slice l' j n = slice l j n).
Proof.
  intros Hi Hl. unfold write_at. rewrite decide_True by done.
  pose proof (zlen_nonneg xs).
  assert (Hpre : zlen (slice l 0 i) = i) by (apply zlen_slice; lia).
  eexists; split_and!; [done|..].
  - rewrite !zlen_app, Hpre, zlen_slice; lia.
  - rewrite slice_app_r by lia. rewrite Hpre, Z.sub_diag.
    rewrite slice_app_l by lia. apply slice_all.
  - intros j n ??. rewrite slice_app_l by lia. rewrite slice_slice by lia.
    by rewrite Z.add_0_l.
  - intros j n ??. rewrite slice_app_r by lia. rewrite Hpre, slice_app_r by lia.
    rewrite slice_slice by lia. f_equal. lia.
Qed.
End vectors.

Lemma list_insert_snoc {A} (l : list A) x y :
  <[length l := y]> (l ++ [x]) = l ++ [y].
Proof. rewrite insert_app_r_alt by lia. by rewrite Nat.sub_diag. Qed.

Lemma vec_resize_grow (l : list byte) n :
  zlen l ≤ n → n ≤ max_size →
  ∃ l', vec_resize l n = Ok l' ∧ zlen l' = n ∧
    (∀ j m, 0 ≤ j → j + m ≤ zlen l → slice l' j m = slice l j m).
Proof.
  intros Hn Hm. unfold vec_resize. rewrite decide_True by done.
  eexists; split_and!; [done|..].
  - unfold zlen in *. rewrite length_resize. lia.
  - intros j m ??. unfold zlen in *. rewrite resize_ge by lia.
    apply slice_app_l; unfold zlen; lia.
Qed.

(** ** Permutations *)

Lemma permutation_count `{EqDecision A} (l1 l2 : list A) :
  l1 ≡ₚ l2 ↔ ∀ x, count_occ (decide_rel (=)) l1 x = count_occ (decide_rel (=)) l2 x.
Proof. apply Permutation_count_occ. Qed.

(** Lists put together from the same pieces are permutations: count, call [lia]. *)
Ltac permutation_lia :=
  repeat match goal with H : _ ≡ₚ _ |- _ => rewrite permutation_count in H end;
  apply permutation_count; let x := fresh in intros x;
  repeat match goal with
    H : ∀ y, count_occ _ _ y = count_occ _ _ y |- _ => specialize (H x) end;
  rewrite ?count_occ_app, ?count_occ_nil in *; lia.

(** ** Reachability *)

(** An invariant of the start state kept by every step holds in every
    reachable state. *)
Lemma rtc_invariant {S} (step : S → S → Prop) (I : S → Prop) s s' :
  (∀ a b, I a → step a b → I b) → I s → rtc step s s' → I s'.
Proof. intros Hstep Hs Hr. induction Hr; eauto. Qed.

(** ** Hints *)
Create HintDb coro.
Create Rewrite HintDb coro.
#[export] Hint Resolve zlen_nonneg u64_range : coro.
#[export] Hint Rewrite @zlen_nil @zlen_cons @zlen_app : coro.

(** Sizes of lists: compute them, use that they are not negative, call [lia]. *)
Ltac zlen_pose :=
  repeat match goal with
  | |- context [zlen ?l] =>
      lazymatch goal with _ : 0 ≤ zlen l |- _ => fail | _ => pose proof (zlen_nonneg l) end
  | _ : context [zlen ?l] |- _ =>
      lazymatch goal with _ : 0 ≤ zlen l |- _ => fail | _ => pose proof (zlen_nonneg l) end
  end.
Ltac zlen_lia := autorewrite with coro in *; zlen_pose; lia.
