(* ===== verification/Interfaces.v ===== *)
(** * Interfaces between components

    What one component promises to another, as classes: the clients' theorems
    are proved from the laws, the implementing component's file gives the
    instance that discharges them. *)
From Stdlib Require Import Ascii.
From S2P Require Import Prelude.

(** A bounded window of the [n] most recent elements: pushing into a full
    window hands back the element that falls out of it; the newest element can
    be modified in place. *)
Class Window (B R : Type) (d : B) := {
  win_new : Z → R;
  win_push : B → R → res (B * R);
  win_update_back : (B → B) → R → res R;
  win_wf : Z → R → Prop;
  win_list : R → list B;

  win_new_ok n :
    0 < n ≤ max_size → win_wf n (win_new n) ∧ win_list (win_new n) = [];
  win_bounded n r : win_wf n r → zlen (win_list r) ≤ n;
  win_push_filling n r x :
    win_wf n r → zlen (win_list r) < n →
    ∃ r', win_push x r = Ok (d, r') ∧ win_wf n r' ∧
      win_list r' = win_list r ++ [x];
  win_push_full n r x y l :
    win_wf n r → zlen (win_list r) = n → win_list r = y :: l →
    ∃ r', win_push x r = Ok (y, r') ∧ win_wf n r' ∧ win_list r' = l ++ [x];
  win_update_back_ok n r f l x :
    win_wf n r → win_list r = l ++ [x] →
    ∃ r', win_update_back f r = Ok r' ∧ win_wf n r' ∧ win_list r' = l ++ [f x];
}.

(** An allocator of numbered slots: [pool_inv held p] says that [p] has handed
    out exactly the slots of [held] and not got them back. *)
Class SlotPool (P : Type) := {
  pool_acquire : P → Z * P;
  pool_release : Z → P → P;
  pool_capacity : P → Z;
  pool_inv : list Z → P → Prop;

  pool_held_ok held p :
    pool_inv held p →
    NoDup held ∧ Forall (λ i, 0 ≤ i < pool_capacity p) held;
  pool_acquire_ok held p :
    pool_inv held p →
    let '(idx, p') := pool_acquire p in
    pool_capacity p' = pool_capacity p ∧
    ((0 ≤ idx ∧ pool_inv (idx :: held) p') ∨
     (idx = -1 ∧ pool_inv held p' ∧ zlen held = pool_capacity p));
  pool_release_ok held1 held2 idx p :
    pool_inv (held1 ++ idx :: held2) p →
    pool_inv (held1 ++ held2) (pool_release idx p) ∧
    pool_capacity (pool_release idx p) = pool_capacity p;
}.

(** Where the back end of the logger writes: text is accepted in order
    ([sink_text]) and is durable ([sink_disk]) once flushed.  [None] stands for a
    call that does not return.  A sink keeps this promise as long as the disk does:
    [LogFile.log_file_sink] is one when every call of the C library succeeds, and
    [LogFile.log_file_keeps_lines] is about the others. *)
Class LogSink (S : Type) := {
  sink_append : list ascii → S → option S;
  sink_flush : S → S;
  sink_ok : S → Prop;
  sink_text : S → list ascii;
  sink_disk : S → list ascii;

  sink_append_ok t s :
    sink_ok s → zlen t < 2 ^ 31 → ∃ s', sink_append t s = Some s' ∧ sink_ok s' ∧
      sink_text s' = sink_text s ++ t;
  sink_flush_ok s :
    sink_ok s → sink_ok (sink_flush s) ∧ sink_text (sink_flush s) = sink_text s ∧
      sink_disk (sink_flush s) = sink_text s;
}.
