(* ===== verification/Buffer.v ===== *)
(** * Buffer: the per-connection byte buffer

    Models [include/coro_net/buffer.hpp].  [Buffer] is the class's state; each
    member function is a [Definition] of the same name on it, with [size_t]
    arithmetic reduced modulo 2^64 where the code computes.  A pointer into
    [buffer_] is its offset.  [Spec] is the byte queue the class promises, and
    [run_refines] relates every sequence of calls to it. *)
From S2P Require Import Prelude.

Definition kCheapPrepend : Z := 8.
Definition kInitialSize : Z := 1024.

Record Buffer := mkBuffer {
  buffer_ : list byte;
  readerIndex_ : Z;
  writerIndex_ : Z;
}.

(** [Buffer(initialSize)]: [vector<char>(kCheapPrepend + initialSize)]. *)
Definition new_Buffer (initialSize : Z) : res Buffer :=
  data ← vec_resize [] (u64 (kCheapPrepend + initialSize));
  Ok (mkBuffer data kCheapPrepend kCheapPrepend).

Definition readableBytes (b : Buffer) : Z :=
  u64 (writerIndex_ b - readerIndex_ b).
Definition writableBytes (b : Buffer) : Z :=
  u64 (zlen (buffer_ b) - writerIndex_ b).
Definition prependableBytes (b : Buffer) : Z := readerIndex_ b.

(** [peek()] and [beginWrite()], as offsets from [begin()]. *)
Definition peek (b : Buffer) : Z := readerIndex_ b.
Definition beginWrite (b : Buffer) : Z := writerIndex_ b.

Definition retrieveAll (b : Buffer) : Buffer :=
  mkBuffer (buffer_ b) kCheapPrepend kCheapPrepend.

Definition retrieve (len : Z) (b : Buffer) : Buffer :=
  if len <? readableBytes b
  then mkBuffer (buffer_ b) (u64 (readerIndex_ b + len)) (writerIndex_ b)
  else retrieveAll b.

(** [std::string s(peek(), len)] throws when [len] exceeds the largest string
    and reads [len] bytes from [peek()] otherwise. *)
Definition retrieveAsString (len : Z) (b : Buffer) : res (list byte * Buffer) :=
  if max_size <? len then Throw LengthError else
  s ← read_at (buffer_ b) (peek b) len;
  Ok (s, retrieve len b).

Definition retrieveAllAsString (b : Buffer) : res (list byte * Buffer) :=
  retrieveAsString (readableBytes b) b.

Definition makeSpace (len : Z) (b : Buffer) : res Buffer :=
  if u64 (writableBytes b + prependableBytes b) <? u64 (len + kCheapPrepend)
  then
    data ← vec_resize (buffer_ b) (u64 (writerIndex_ b + len));
    Ok (mkBuffer data (readerIndex_ b) (writerIndex_ b))
  else
    let readable := readableBytes b in
    src ← read_at (buffer_ b) (readerIndex_ b) readable;
    data ← write_at (buffer_ b) kCheapPrepend src;
    Ok (mkBuffer data kCheapPrepend (u64 (kCheapPrepend + readable))).

Definition ensureWritableBytes (len : Z) (b : Buffer) : res Buffer :=
  if writableBytes b <? len then makeSpace len b else Ok b.

(** [append(data, len)]; the [std::string] and [void*] overloads forward to it. *)
Definition append (data : list byte) (b : Buffer) : res Buffer :=
  b ← ensureWritableBytes (zlen data) b;
  dst ← write_at (buffer_ b) (beginWrite b) data;
  Ok (mkBuffer dst (readerIndex_ b) (u64 (writerIndex_ b + zlen data))).

(** The [assert] is active: the build type defaults to Debug. *)
Definition hasWritten (n : Z) (b : Buffer) : res Buffer :=
  if n <=? writableBytes b
  then Ok (mkBuffer (buffer_ b) (readerIndex_ b) (u64 (writerIndex_ b + n)))
  else Abort.

(** ** Invariant and contents *)

Record inv (b : Buffer) : Prop := {
  inv_reader : kCheapPrepend ≤ readerIndex_ b;
  inv_order : readerIndex_ b ≤ writerIndex_ b;
  inv_writer : writerIndex_ b ≤ zlen (buffer_ b);
  inv_size : zlen (buffer_ b) ≤ max_size;
}.

(** The bytes between the two indices, oldest first. *)
Definition contents (b : Buffer) : list byte :=
  slice (buffer_ b) (readerIndex_ b) (writerIndex_ b - readerIndex_ b).

(** The byte queue a Buffer stands for. *)
Module Spec.
Definition t := list byte.
Definition put (xs : list byte) (q : t) : t := q ++ xs.
Definition drop_front (n : Z) (q : t) : t := drop (Z.to_nat n) q.
Definition take_front (n : Z) (q : t) : list byte := take (Z.to_nat n) q.
End Spec.

Ltac inv_unfold :=
  repeat match goal with
  | H : inv ?b |- _ =>
      lazymatch goal with
      | _ : kCheapPrepend ≤ readerIndex_ b |- _ => fail
      | _ => pose proof (inv_reader _ H); pose proof (inv_order _ H);
             pose proof (inv_writer _ H); pose proof (inv_size _ H)
      end
  end;
  unfold kCheapPrepend, readableBytes, writableBytes, prependableBytes,
    peek, beginWrite in *; cbn [buffer_ readerIndex_ writerIndex_] in *.
Ltac buf_lia := inv_unfold; u64_simpl; width_lia.

Section basic.
Context (b : Buffer) (Hb : inv b).

Lemma readableBytes_eq : readableBytes b = writerIndex_ b - readerIndex_ b.
Proof. buf_lia. Qed.
Lemma writableBytes_eq : writableBytes b = zlen (buffer_ b) - writerIndex_ b.
Proof. buf_lia. Qed.
Lemma zlen_contents : zlen (contents b) = writerIndex_ b - readerIndex_ b.
Proof. unfold contents. apply zlen_slice; buf_lia. Qed.
Lemma retrieveAll_inv : inv (retrieveAll b).
Proof. split; cbn; buf_lia. Qed.
Lemma retrieveAll_contents : contents (retrieveAll b) = [].
Proof. by apply slice_nil. Qed.

Lemma retrieve_inv n : 0 ≤ n → inv (retrieve n b).
Proof.
  intros. unfold retrieve. rewrite readableBytes_eq.
  destruct (Z.ltb_spec n (writerIndex_ b - readerIndex_ b));
    [|apply retrieveAll_inv].
  split; cbn; buf_lia.
Qed.
Lemma retrieve_contents n :
  0 ≤ n → contents (retrieve n b) = Spec.drop_front n (contents b).
Proof.
  intros. unfold retrieve, Spec.drop_front. rewrite readableBytes_eq.
  destruct (Z.ltb_spec n (writerIndex_ b - readerIndex_ b)).
  - unfold contents; cbn [buffer_ readerIndex_ writerIndex_].
    rewrite u64_small by buf_lia. unfold slice.
    rewrite skipn_firstn_comm, drop_drop. inv_unfold. do 2 f_equal; lia.
  - rewrite retrieveAll_contents, drop_ge; [done|].
    pose proof zlen_contents as Hl. unfold zlen in Hl. lia.
Qed.
Lemma retrieve_data n : buffer_ (retrieve n b) = buffer_ b.
Proof. unfold retrieve. by case_match. Qed.
End basic.

(** ** Growing and compacting *)

(** [len] more bytes can be made writable: by compacting, or by growing the
    vector within [max_size]. *)
Definition fits (b : Buffer) (len : Z) : Prop :=
  kCheapPrepend + zlen (contents b) + len ≤ zlen (buffer_ b) ∨
  writerIndex_ b + len ≤ max_size.

Section space.
Context (b : Buffer) (Hb : inv b).

(** Both branches of [makeSpace] keep the contents and leave room. *)
Lemma makeSpace_spec len :
  writableBytes b < len → fits b len →
  ∃ b', makeSpace len b = Ok b' ∧ inv b' ∧ contents b' = contents b ∧
    len ≤ writableBytes b' ∧
    writerIndex_ b' ≤ writerIndex_ b ∧
    zlen (buffer_ b') =
      (if decide (kCheapPrepend + zlen (contents b) + len ≤ zlen (buffer_ b))
       then zlen (buffer_ b) else writerIndex_ b + len).
Proof.
  unfold fits. rewrite zlen_contents by done. intros Hw Hmax.
  rewrite writableBytes_eq in Hw by done.
  unfold makeSpace. rewrite readableBytes_eq, writableBytes_eq by done.
  inv_unfold. u64_simpl.
  destruct (Z.ltb_spec (zlen (buffer_ b) - writerIndex_ b + readerIndex_ b)
              (len + 8)).
  - destruct (vec_resize_grow (buffer_ b) (writerIndex_ b + len))
      as (data & -> & Hlen & Hsl); [lia..|].
    rewrite decide_False by lia.
    eexists; split_and!; [done|..]; cbn; try done; try lia.
    + split; cbn; buf_lia.
    + unfold contents; cbn. apply Hsl; lia.
    + rewrite Hlen. u64_simpl. lia.
  - rewrite read_at_ok by lia. cbn.
    destruct (write_at_ok (buffer_ b) 8
      (slice (buffer_ b) (readerIndex_ b) (writerIndex_ b - readerIndex_ b)))
      as (data & -> & Hlen & Hsl & _); rewrite ?zlen_slice by lia; [lia..|].
    rewrite zlen_slice in Hsl by lia. rewrite decide_True by lia.
    eexists; split_and!; [done|..]; cbn; u64_simpl; try lia.
    + split; cbn; buf_lia.
    + unfold contents; cbn. u64_simpl.
      by replace (8 + _ - 8) with (writerIndex_ b - readerIndex_ b) by lia.
Qed.

Lemma ensureWritableBytes_spec len :
  0 ≤ len → fits b len →
  ∃ b', ensureWritableBytes len b = Ok b' ∧ inv b' ∧
    contents b' = contents b ∧ len ≤ writableBytes b' ∧
    writerIndex_ b' ≤ writerIndex_ b ∧
    (kCheapPrepend + zlen (contents b) + len ≤ zlen (buffer_ b) →
     zlen (buffer_ b') = zlen (buffer_ b)).
Proof.
  intros. unfold ensureWritableBytes.
  destruct (Z.ltb_spec (writableBytes b) len).
  - destruct (makeSpace_spec len) as (b' & ? & ? & ? & ? & ? & Hlen); [done..|].
    eexists; split_and!; [done..|]. intros. by rewrite decide_True in Hlen.
  - eexists; split_and!; done.
Qed.

(** What the kernel does between [ensureWritableBytes] and [hasWritten]:
    it stores the received bytes at [beginWrite()]. *)
Definition kernel_store (xs : list byte) (b : Buffer) : res Buffer :=
  dst ← write_at (buffer_ b) (beginWrite b) xs;
  Ok (mkBuffer dst (readerIndex_ b) (writerIndex_ b)).

Lemma store_spec xs :
  zlen xs ≤ writableBytes b →
  ∃ dst, write_at (buffer_ b) (beginWrite b) xs = Ok dst ∧
    zlen dst = zlen (buffer_ b) ∧
    let b' := mkBuffer dst (readerIndex_ b) (writerIndex_ b + zlen xs) in
    inv b' ∧ contents b' = contents b ++ xs.
Proof.
  rewrite writableBytes_eq by done. pose proof (zlen_nonneg xs). intros.
  inv_unfold. unfold beginWrite.
  destruct (write_at_ok (buffer_ b) (writerIndex_ b) xs)
    as (dst & -> & Hlen & Hxs & Hpre & _); [lia..|].
  eexists; split_and!; [done..| |]; cbn.
  - split; cbn; buf_lia.
  - unfold contents; cbn.
    replace (writerIndex_ b + zlen xs - readerIndex_ b)
      with ((writerIndex_ b - readerIndex_ b) + zlen xs) by lia.
    rewrite slice_app by lia. rewrite Hpre by lia. f_equal.
    by replace (readerIndex_ b + (writerIndex_ b - readerIndex_ b))
      with (writerIndex_ b) by lia.
Qed.
End space.

Lemma append_spec b xs :
  inv b → fits b (zlen xs) →
  ∃ b', append xs b = Ok b' ∧ inv b' ∧
    contents b' = Spec.put xs (contents b) ∧
    writerIndex_ b' ≤ writerIndex_ b + zlen xs ∧
    (kCheapPrepend + zlen (contents b) + zlen xs ≤ zlen (buffer_ b) →
     zlen (buffer_ b') = zlen (buffer_ b)).
Proof.
  intros Hb Hmax. pose proof (zlen_nonneg xs). unfold append.
  destruct (ensureWritableBytes_spec b Hb (zlen xs))
    as (b1 & -> & Hb1 & Hc & Hw & Hwi & Hcap); [done..|]. cbn.
  destruct (store_spec b1 Hb1 xs Hw) as (dst & -> & Hlen & Hi & Hcont). cbn.
  rewrite writableBytes_eq in Hw by done.
  assert (u64 (writerIndex_ b1 + zlen xs) = writerIndex_ b1 + zlen xs) as ->
    by (apply u64_small; buf_lia).
  eexists; split_and!; [done|done|..]; cbn.
  - by rewrite Hcont, Hc.
  - lia.
  - intros. by rewrite Hlen, Hcap.
Qed.

Lemma retrieveAsString_spec b n :
  inv b → 0 ≤ n → n ≤ zlen (contents b) →
  retrieveAsString n b = Ok (Spec.take_front n (contents b), retrieve n b).
Proof.
  intros Hb Hn Hle. rewrite zlen_contents in Hle by done.
  unfold retrieveAsString, peek.
  destruct (Z.ltb_spec max_size n); [buf_lia|].
  rewrite read_at_ok by buf_lia. cbn. do 2 f_equal.
  unfold Spec.take_front, contents, slice. rewrite take_take. f_equal. lia.
Qed.

Lemma hasWritten_after_store b xs :
  inv b → zlen xs ≤ writableBytes b →
  ∃ b', (kernel_store xs b ≫= hasWritten (zlen xs)) = Ok b' ∧ inv b' ∧
    contents b' = contents b ++ xs ∧
    writerIndex_ b' = writerIndex_ b + zlen xs.
Proof.
  intros Hb Hw. pose proof (zlen_nonneg xs).
  destruct (store_spec b Hb xs Hw) as (dst & Hst & Hlen & Hi & Hc).
  unfold kernel_store. rewrite Hst. cbn. unfold hasWritten.
  assert (writableBytes (mkBuffer dst (readerIndex_ b) (writerIndex_ b))
          = writableBytes b) as -> by (unfold writableBytes; cbn; by rewrite Hlen).
  rewrite writableBytes_eq in * by done.
  destruct (Z.leb_spec (zlen xs) (zlen (buffer_ b) - writerIndex_ b)); [|lia].
  eexists; split_and!; cbn; [|done..| ].
  - by rewrite u64_small by buf_lia.
  - done.
Qed.

(** ** Sequences of calls *)

(** One call on the buffer.  [ORecv n xs] is an [io_uring] receive: make [n]
    bytes writable, let the kernel store [xs], account for them. *)
Inductive op : Type :=
  | OAppend (xs : list byte)
  | ORetrieve (n : Z)
  | ORetrieveAll
  | ORetrieveAsString (n : Z)
  | ORetrieveAllAsString
  | OEnsure (n : Z)
  | ORecv (n : Z) (xs : list byte).

Definition exec (o : op) (b : Buffer) : res (list byte * Buffer) :=
  match o with
  | OAppend xs => b ← append xs b; Ok ([], b)
  | ORetrieve n => Ok ([], retrieve n b)
  | ORetrieveAll => Ok ([], retrieveAll b)
  | ORetrieveAsString n => retrieveAsString n b
  | ORetrieveAllAsString => retrieveAllAsString b
  | OEnsure n => b ← ensureWritableBytes n b; Ok ([], b)
  | ORecv n xs =>
      b ← ensureWritableBytes n b;
      b ← kernel_store xs b;
      b ← hasWritten (zlen xs) b;
      Ok ([], b)
  end.

Fixpoint run (os : list op) (b : Buffer) : res (list (list byte) * Buffer) :=
  match os with
  | [] => Ok ([], b)
  | o :: os =>
      '(out, b) ← exec o b;
      '(outs, b) ← run os b;
      Ok (out :: outs, b)
  end.

(** The same calls on the abstract queue. *)
Definition spec_exec (o : op) (q : Spec.t) : list byte * Spec.t :=
  match o with
  | OAppend xs | ORecv _ xs => ([], Spec.put xs q)
  | ORetrieve n => ([], Spec.drop_front n q)
  | ORetrieveAll => ([], [])
  | ORetrieveAsString n => (Spec.take_front n q, Spec.drop_front n q)
  | ORetrieveAllAsString => (q, [])
  | OEnsure _ => ([], q)
  end.

Fixpoint spec_run (os : list op) (q : Spec.t) : list (list byte) * Spec.t :=
  match os with
  | [] => ([], q)
  | o :: os =>
      let '(out, q) := spec_exec o q in
      let '(outs, q) := spec_run os q in
      (out :: outs, q)
  end.

(** A caller's obligations: sizes are unsigned, [retrieveAsString] takes no
    more than what is readable, the kernel stores no more than it was given. *)
Definition op_ok (o : op) (q : Spec.t) : Prop :=
  match o with
  | OAppend _ | ORetrieveAll | ORetrieveAllAsString => True
  | ORetrieve n | OEnsure n => 0 ≤ n
  | ORetrieveAsString n => 0 ≤ n ≤ zlen q
  | ORecv n xs => zlen xs ≤ n
  end.

Fixpoint ops_ok (os : list op) (q : Spec.t) : Prop :=
  match os with
  | [] => True
  | o :: os => op_ok o q ∧ ops_ok os (spec_exec o q).2
  end.

(** The bytes a call may ask the vector to hold. *)
Definition demand (o : op) : Z :=
  match o with
  | OAppend xs => zlen xs
  | OEnsure n | ORecv n _ => n
  | _ => 0
  end.
Definition total_demand (os : list op) : Z :=
  foldr (λ o acc, Z.max 0 (demand o) + acc) 0 os.

Lemma total_demand_nonneg os : 0 ≤ total_demand os.
Proof. induction os as [|o os IH]; cbn; [done|]. unfold total_demand in *. lia. Qed.

Lemma retrieve_writer b n : inv b → writerIndex_ (retrieve n b) ≤ writerIndex_ b.
Proof. intros. unfold retrieve. case_match; cbn; buf_lia. Qed.

Lemma exec_refines o b :
  inv b → op_ok o (contents b) →
  writerIndex_ b + Z.max 0 (demand o) ≤ max_size →
  ∃ b', exec o b = Ok ((spec_exec o (contents b)).1, b') ∧ inv b' ∧
    contents b' = (spec_exec o (contents b)).2 ∧
    writerIndex_ b' ≤ writerIndex_ b + Z.max 0 (demand o).
Proof.
  intros Hb Hok Hmax. destruct o as [xs|n| |n| |n|n xs]; cbn in *.
  - pose proof (zlen_nonneg xs).
    destruct (append_spec b xs) as (b' & -> & ? & ? & ? & _); [done|right; lia|].
    eexists; split_and!; [done..|lia].
  - eexists; split_and!; [done|by apply retrieve_inv|by apply retrieve_contents|].
    pose proof (retrieve_writer b n Hb). lia.
  - eexists; split_and!; [done|by apply retrieveAll_inv|apply retrieveAll_contents|].
    cbn. buf_lia.
  - destruct Hok. rewrite retrieveAsString_spec by done.
    eexists; split_and!; [done|by apply retrieve_inv|by apply retrieve_contents|].
    pose proof (retrieve_writer b n Hb). lia.
  - pose proof (zlen_contents b Hb). pose proof (zlen_nonneg (contents b)).
    unfold retrieveAllAsString. rewrite readableBytes_eq by done.
    assert (0 ≤ writerIndex_ b - readerIndex_ b) by lia.
    rewrite retrieveAsString_spec by (done || lia).
    eexists; split_and!; [|by apply retrieve_inv|..].
    + do 2 f_equal. unfold Spec.take_front. apply take_ge. unfold zlen in *. lia.
    + rewrite retrieve_contents by (done || lia).
      unfold Spec.drop_front. apply drop_ge. unfold zlen in *. lia.
    + pose proof (retrieve_writer b (writerIndex_ b - readerIndex_ b) Hb). lia.
  - destruct (ensureWritableBytes_spec b Hb n) as (b' & -> & ? & ? & ? & ? & _);
      [done|right; lia|].
    eexists; split_and!; [done..|lia].
  - pose proof (zlen_nonneg xs).
    destruct (ensureWritableBytes_spec b Hb n) as (b1 & -> & ? & Hc & ? & ? & _);
      [lia|right; lia|]. cbn.
    destruct (hasWritten_after_store b1 xs) as (b2 & Hst & ? & Hc2 & ?);
      [done|lia|].
    apply res_bind_ok in Hst as (b1' & Hst & Hw).
    rewrite Hst. cbn. rewrite Hw. cbn.
    eexists; split_and!; [done..| |lia]. by rewrite Hc2, Hc.
Qed.

Lemma run_refines_from os : ∀ b,
  inv b → ops_ok os (contents b) →
  writerIndex_ b + total_demand os ≤ max_size →
  ∃ b', run os b = Ok ((spec_run os (contents b)).1, b') ∧ inv b' ∧
    contents b' = (spec_run os (contents b)).2.
Proof.
  induction os as [|o os IH]; intros b Hb Hok Hmax.
  - by eexists.
  - destruct Hok as [Ho Hos]. cbn in Hmax. fold (total_demand os) in Hmax.
    pose proof (total_demand_nonneg os).
    destruct (exec_refines o b) as (b1 & Hex & Hb1 & Hc1 & Hw1); [done..|lia|].
    destruct (IH b1) as (b2 & Hrun & Hb2 & Hc2);
      [done|by rewrite Hc1|lia|].
    cbn [run spec_run]. rewrite Hex. cbn. rewrite Hrun, Hc1. cbn.
    destruct (spec_exec o (contents b)) as [out q]; cbn in *.
    rewrite Hc1 in Hc2. destruct (spec_run os q) as [outs q']; cbn in *.
    by eexists.
Qed.

Lemma new_Buffer_spec n :
  0 ≤ n → kCheapPrepend + n ≤ max_size →
  ∃ b, new_Buffer n = Ok b ∧ inv b ∧ contents b = [] ∧
    writerIndex_ b = kCheapPrepend ∧ zlen (buffer_ b) = kCheapPrepend + n.
Proof.
  intros Hn Hm. unfold new_Buffer, kCheapPrepend in *.
  rewrite u64_small by width_lia.
  destruct (vec_resize_grow [] (8 + n)) as (data & -> & Hlen & _);
    [zlen_lia|done|].
  eexists; split_and!; [done|..]; cbn; [|by apply slice_nil|done|lia].
  split; cbn; unfold kCheapPrepend; lia.
Qed.

Lemma run_appends chunks : ∀ q,
  spec_run (OAppend <$> chunks) q = ((λ _, []) <$> chunks, q ++ concat chunks).
Proof.
  induction chunks as [|x xs IH]; intros q; cbn; [by rewrite app_nil_r|].
  rewrite IH. cbn. unfold Spec.put. by rewrite <-app_assoc.
Qed.
Lemma appends_ok chunks os : ∀ q,
  ops_ok os (q ++ concat chunks) → ops_ok ((OAppend <$> chunks) ++ os) q.
Proof.
  induction chunks as [|x xs IH]; intros q Hos; cbn in *.
  - by rewrite app_nil_r in Hos.
  - split; [done|]. apply IH. unfold Spec.put. by rewrite <-app_assoc.
Qed.
Lemma spec_run_app os os' q :
  spec_run (os ++ os') q =
  (let '(o1, q1) := spec_run os q in
   let '(o2, q2) := spec_run os' q1 in (o1 ++ o2, q2)).
Proof.
  revert q. induction os as [|o os IH]; intros q; cbn; [by case_match|].
  destruct (spec_exec o q) as [out q0]. rewrite IH.
  destruct (spec_run os q0). by destruct (spec_run os' _).
Qed.
Lemma total_demand_app os os' :
  total_demand (os ++ os') = total_demand os + total_demand os'.
Proof.
  unfold total_demand. induction os as [|o os IH]; cbn; [done|]. rewrite IH. lia.
Qed.
Lemma total_demand_appends chunks :
  total_demand (OAppend <$> chunks) = zlen (concat chunks).
Proof.
  induction chunks as [|x xs IH]; cbn; [done|].
  fold (total_demand (OAppend <$> xs)). rewrite IH, zlen_app.
  zlen_lia.
Qed.

(** ** Properties *)

(** C21: A Buffer built by its constructor behaves as a byte queue: any sequence
    of calls that respects the callers' obligations and whose total demand fits
    a vector succeeds, returns exactly the bytes the queue returns, and leaves
    the queue's contents between valid indices. *)
Theorem run_refines n os :
  0 ≤ n → ops_ok os [] → kCheapPrepend + n + total_demand os ≤ max_size →
  ∃ b b', new_Buffer n = Ok b ∧
    run os b = Ok ((spec_run os []).1, b') ∧ inv b' ∧
    contents b' = (spec_run os []).2.
Proof.
  intros Hn Hok Hmax. pose proof (total_demand_nonneg os).
  destruct (new_Buffer_spec n) as (b & Hnew & Hb & Hc & Hw & _); [done|lia|].
  rewrite <-Hc in Hok |- *.
  destruct (run_refines_from os b) as (b' & ? & ? & ?); [done..|lia|].
  by eexists _, _.
Qed.

Lemma run_refines_witness :
  ∃ b b', new_Buffer 4 = Ok b ∧
    run [OAppend [x61; x62; x63]; ORetrieveAsString 2; ORecv 16 [x64; x65];
         ORetrieveAllAsString] b = Ok ([[]; [x61; x62]; []; [x63; x64; x65]], b') ∧
    inv b' ∧ contents b' = [].
Proof.
  apply (run_refines 4 [OAppend [x61; x62; x63]; ORetrieveAsString 2;
                        ORecv 16 [x64; x65]; ORetrieveAllAsString]).
  - lia.
  - cbn. repeat split; vm_compute; congruence.
  - vm_compute. congruence.
Defined.

(** Appending chunks to a fresh buffer and retrieving everything as a string
    gives the chunks back, concatenated in order, and empties the buffer. *)
Theorem append_retrieve_roundtrip n chunks :
  0 ≤ n → kCheapPrepend + n + zlen (concat chunks) ≤ max_size →
  ∃ b b', new_Buffer n = Ok b ∧
    run ((OAppend <$> chunks) ++ [ORetrieveAllAsString]) b =
      Ok (((λ _, []) <$> chunks) ++ [concat chunks], b') ∧
    contents b' = [] ∧ readableBytes b' = 0.
Proof.
  intros Hn Hmax. set (os := (OAppend <$> chunks) ++ [ORetrieveAllAsString]).
  destruct (new_Buffer_spec n) as (b & Hnew & Hb & Hc & Hw & _);
    [done|zlen_lia|].
  assert (total_demand os = zlen (concat chunks)) as Htd.
  { unfold os. rewrite total_demand_app, total_demand_appends. cbn. lia. }
  assert (spec_run os [] = (((λ _, []) <$> chunks) ++ [concat chunks], []))
    as Hsp by (unfold os; by rewrite spec_run_app, run_appends).
  destruct (run_refines_from os b) as (b' & Hrun & Hb' & Hc');
    [done|rewrite Hc; by apply appends_ok|lia|].
  rewrite Hc, Hsp in *. exists b, b'. split_and!; [done..|].
  rewrite readableBytes_eq, <-zlen_contents, Hc' by done. done.
Qed.

Lemma append_retrieve_roundtrip_witness :
  ∃ b b', new_Buffer 1 = Ok b ∧
    run ((OAppend <$> [[x01; x02]; []; [x03]]) ++ [ORetrieveAllAsString]) b =
      Ok ([[]; []; []; [x01; x02; x03]], b') ∧
    contents b' = [] ∧ readableBytes b' = 0.
Proof.
  apply (append_retrieve_roundtrip 1 [[x01; x02]; []; [x03]]);
    vm_compute; congruence.
Defined.

(** [append] never reallocates when prependable plus writable space suffices:
    it compacts in place instead, the vector keeps its size, the contents grow by
    exactly the appended bytes and the 8-byte prepend area is left free. *)
Theorem append_in_place b xs :
  inv b → kCheapPrepend + readableBytes b + zlen xs ≤ zlen (buffer_ b) →
  ∃ b', append xs b = Ok b' ∧ zlen (buffer_ b') = zlen (buffer_ b) ∧
    contents b' = contents b ++ xs ∧
    readableBytes b' = readableBytes b + zlen xs ∧
    kCheapPrepend ≤ prependableBytes b'.
Proof.
  intros Hb Hfit. rewrite readableBytes_eq, <-zlen_contents in * by done.
  destruct (append_spec b xs Hb) as (b' & Happ & Hb' & Hc & _ & Hcap);
    [by left|].
  exists b'. rewrite readableBytes_eq, <-zlen_contents, Hc by done.
  split_and!; [done|by apply Hcap|done|unfold Spec.put; by rewrite zlen_app|].
  apply Hb'.
Qed.

Lemma append_in_place_witness :
  let b := mkBuffer (replicate 16 x2e) 12 15 in
  inv b ∧ ∃ b', append [x31; x32; x33] b = Ok b' ∧ zlen (buffer_ b') = 16 ∧
    contents b' = [x2e; x2e; x2e; x31; x32; x33].
Proof.
  assert (inv (mkBuffer (replicate 16 x2e) 12 15)) as Hb
    by (split; vm_compute; congruence).
  split; [done|].
  destruct (append_in_place _ [x31; x32; x33] Hb) as (b' & ? & ? & ? & _);
    [vm_compute; congruence|].
  by exists b'.
Defined.

(** [retrieveAsString] does not clamp its length: asked for more than is
    readable (but inside the vector) it returns the readable bytes followed by
    whatever the vector holds behind them, and then empties the buffer. *)
Theorem retrieveAsString_overread b n :
  inv b → readableBytes b < n → peek b + n ≤ zlen (buffer_ b) →
  retrieveAsString n b =
    Ok (contents b ++
        slice (buffer_ b) (writerIndex_ b) (n - readableBytes b), retrieveAll b).
Proof.
  intros Hb. rewrite readableBytes_eq by done. intros Hlt Hin.
  unfold peek in Hin. unfold retrieveAsString, peek.
  destruct (Z.ltb_spec max_size n); [buf_lia|].
  rewrite read_at_ok by buf_lia. cbn. unfold retrieve.
  rewrite readableBytes_eq by done.
  destruct (Z.ltb_spec n (writerIndex_ b - readerIndex_ b)); [lia|].
  do 2 f_equal. unfold contents.
  replace n with ((writerIndex_ b - readerIndex_ b) +
                  (n - (writerIndex_ b - readerIndex_ b))) at 1 by lia.
  rewrite slice_app by buf_lia. do 2 f_equal. lia.
Qed.

Lemma retrieveAsString_overread_witness :
  let b := mkBuffer (replicate 12 x2e ++ [x73; x74]) 12 13 in
  inv b ∧ retrieveAsString 2 b = Ok ([x73; x74], retrieveAll b).
Proof.
  assert (inv (mkBuffer (replicate 12 x2e ++ [x73; x74]) 12 13)) as Hb
    by (split; vm_compute; congruence).
  split; [done|].
  rewrite (retrieveAsString_overread _ 2 Hb); [done|..]; vm_compute; congruence.
Defined.

(** [makeSpace] computes [len + kCheapPrepend] in [size_t]: for the eight
    largest lengths the sum wraps to at most 7, the test for growing fails, and
    [ensureWritableBytes] returns normally without making the space. *)
Theorem ensureWritableBytes_len_wraps b len :
  inv b → u64_mod - kCheapPrepend ≤ len < u64_mod →
  ∃ b', ensureWritableBytes len b = Ok b' ∧
    contents b' = contents b ∧ zlen (buffer_ b') = zlen (buffer_ b) ∧
    writableBytes b' < len.
Proof.
  intros Hb Hlen. unfold ensureWritableBytes, makeSpace.
  rewrite readableBytes_eq, !writableBytes_eq by done.
  destruct (Z.ltb_spec (zlen (buffer_ b) - writerIndex_ b) len); [|buf_lia].
  inv_unfold. rewrite (u64_wrap (len + 8)) by width_lia.
  rewrite (u64_small (_ + readerIndex_ b)) by width_lia.
  destruct (Z.ltb_spec (zlen (buffer_ b) - writerIndex_ b + readerIndex_ b)
              (len + 8 - u64_mod)); [lia|].
  rewrite read_at_ok by lia. cbn.
  destruct (write_at_ok (buffer_ b) 8
    (slice (buffer_ b) (readerIndex_ b) (writerIndex_ b - readerIndex_ b)))
    as (data & -> & Hsz & Hsl & _); rewrite ?zlen_slice by lia; [lia..|].
  rewrite zlen_slice in Hsl by lia.
  rewrite (u64_small (8 + _)) by width_lia.
  eexists; split_and!; [done| |done|]; cbn.
  - unfold contents; cbn.
    by replace (8 + _ - 8) with (writerIndex_ b - readerIndex_ b) by lia.
  - rewrite u64_small by width_lia. width_lia.
Qed.

Lemma ensureWritableBytes_len_wraps_witness :
  let b := mkBuffer (replicate 12 x2e) 8 10 in
  inv b ∧ ∃ b', ensureWritableBytes (2 ^ 64 - 1) b = Ok b' ∧ writableBytes b' < 2 ^ 64 - 1.
Proof.
  assert (inv (mkBuffer (replicate 12 x2e) 8 10)) as Hb
    by (split; vm_compute; congruence).
  split; [done|].
  destruct (ensureWritableBytes_len_wraps _ (2 ^ 64 - 1) Hb) as (b' & ? & _ & _ & ?);
    [split; vm_compute; congruence|].
  by exists b'.
Defined.
