(* ===== verification/CircularBuffer.v ===== *)
(** * CircularBuffer: the ring that holds the idle wheel's buckets

    Models [src/util/circular_buffer.h]: [CircularBuffer<T>] with its
    [push_back], [back] and forward iterator.  [contents] is the abstraction
    function (oldest element first); [circular_window] shows that the class
    implements [Interfaces.Window]. *)
From S2P Require Import Prelude Interfaces.

Section circular_buffer.
Context {T : Type} (d : T).

Record CircularBuffer := mkCB {
  buffer_ : list T;
  capacity_ : Z;
  size_ : Z;
  head_ : Z;
  tail_ : Z;
}.

(** The constructor: [buffer_.resize(capacity)] default-constructs the slots. *)
Definition new_CircularBuffer (capacity : Z) : CircularBuffer :=
  mkCB (replicate (Z.to_nat capacity) d) capacity 0 0 0.

Definition next (b : CircularBuffer) (index : Z) : Z :=
  u64 (index + 1) mod capacity_ b.
(** [index - 1] wraps to 2^64 - 1 for [index = 0]. *)
Definition prev (b : CircularBuffer) (index : Z) : Z :=
  u64 (u64 (index - 1) + capacity_ b) mod capacity_ b.

Definition empty (b : CircularBuffer) : bool := size_ b =? 0.

(** [buffer_[i]]: undefined out of range. *)
Definition at_ (b : CircularBuffer) (i : Z) : res T :=
  if decide (0 ≤ i) then
    match buffer_ b !! Z.to_nat i with Some x => Ok x | None => UB end
  else UB.

(** [push_back]: also returns the slot's previous value, which the assignment
    destroys. *)
Definition push_back (item : T) (b : CircularBuffer) : res (T * CircularBuffer) :=
  old ← at_ b (tail_ b);
  let buf := <[Z.to_nat (tail_ b) := item]> (buffer_ b) in
  let tail := next b (tail_ b) in
  if size_ b =? capacity_ b
  then Ok (old, mkCB buf (capacity_ b) (size_ b) tail tail)
  else Ok (old, mkCB buf (capacity_ b) (u64 (size_ b + 1)) (head_ b) tail).

(** [back()] returns a reference: the slot it designates. *)
Definition back_slot (b : CircularBuffer) : res Z :=
  if empty b then Throw UnderflowError else Ok (prev b (tail_ b)).
Definition back (b : CircularBuffer) : res T := i ← back_slot b; at_ b i.
(** Writing through the reference: [back() = f(back())]. *)
Definition update_back (f : T → T) (b : CircularBuffer) : res CircularBuffer :=
  i ← back_slot b;
  x ← at_ b i;
  Ok (mkCB (<[Z.to_nat i := f x]> (buffer_ b))
        (capacity_ b) (size_ b) (head_ b) (tail_ b)).

(** The forward iterator: [None] is [end()], i.e. [(nullptr, 0)]. *)
Definition iterator : Type := option Z.
Definition end_ : iterator := None.
Definition begin (b : CircularBuffer) : iterator :=
  if empty b then end_ else Some (head_ b).
Definition deref (b : CircularBuffer) (it : iterator) : res T :=
  match it with None => UB | Some pos => at_ b pos end.
Definition incr (b : CircularBuffer) (it : iterator) : res iterator :=
  match it with
  | None => UB
  | Some pos =>
      let pos := next b pos in
      if (pos =? tail_ b) || empty b then Ok end_ else Ok (Some pos)
  end.

(** [for (auto& x : buf)], collecting the elements; [None] when the fuel runs
    out before [end()]. *)
Fixpoint range_for (fuel : nat) (b : CircularBuffer) (it : iterator)
    : res (option (list T)) :=
  match it, fuel with
  | None, _ => Ok (Some [])
  | Some _, O => Ok None
  | Some _, S fuel =>
      x ← deref b it;
      it ← incr b it;
      r ← range_for fuel b it;
      Ok (option_map (cons x) r)
  end.

(** ** Invariant and contents *)

Record inv (n : Z) (b : CircularBuffer) : Prop := {
  inv_cap : capacity_ b = n ∧ 0 < n ≤ max_size;
  inv_len : zlen (buffer_ b) = n;
  inv_size : 0 ≤ size_ b ≤ n;
  inv_head : 0 ≤ head_ b < n;
  inv_filling : size_ b < n → head_ b = 0 ∧ tail_ b = size_ b ∧
    drop (Z.to_nat (size_ b)) (buffer_ b) = replicate (Z.to_nat (n - size_ b)) d;
  inv_full : size_ b = n → tail_ b = head_ b;
}.

(** The [size_] elements from [head_] on, wrapping around. *)
Definition contents (b : CircularBuffer) : list T :=
  slice (buffer_ b ++ buffer_ b) (head_ b) (size_ b).

Implicit Types b : CircularBuffer.

Lemma cb_next_eq n b i :
  inv n b → 0 ≤ i < n → next b i = if decide (i + 1 = n) then 0 else i + 1.
Proof.
  intros [[Hc ?] _ _ _ _ _] ?. unfold next. rewrite Hc, u64_small by width_lia.
  case_decide as He; [rewrite He; by apply Z.mod_same; lia|].
  apply Z.mod_small. lia.
Qed.

Lemma cb_prev_eq n b i :
  inv n b → 0 ≤ i < n → prev b i = if decide (i = 0) then n - 1 else i - 1.
Proof.
  intros [[Hc ?] _ _ _ _ _] ?. unfold prev. rewrite Hc.
  case_decide as He.
  - subst i. replace (u64 (0 - 1)) with (u64_mod - 1) by reflexivity.
    rewrite u64_wrap by width_lia. rewrite Z.mod_small; width_lia.
  - rewrite (u64_small (i - 1)), u64_small by width_lia.
    replace (i - 1 + n) with (i - 1 + 1 * n) by lia.
    rewrite Z.mod_add by lia. apply Z.mod_small. lia.
Qed.

Lemma cb_tail_range n b : inv n b → 0 ≤ tail_ b < n.
Proof.
  intros []. destruct (decide (size_ b = n)); [rewrite inv_full0 by done; lia|].
  destruct inv_filling0 as (_ & -> & _); lia.
Qed.

Lemma cb_at_lookup b i x :
  0 ≤ i → buffer_ b !! Z.to_nat i = Some x → at_ b i = Ok x.
Proof. intros ? Hx. unfold at_. by rewrite decide_True, Hx by done. Qed.

Lemma cb_at_in_range n b i : inv n b → 0 ≤ i < n →
  ∃ x, buffer_ b !! Z.to_nat i = Some x ∧ at_ b i = Ok x.
Proof.
  intros [_ Hl _ _ _ _] ?. unfold zlen in Hl.
  destruct (lookup_lt_is_Some_2 (buffer_ b) (Z.to_nat i)) as [x Hx]; [lia|].
  exists x. split; [done|]. by apply cb_at_lookup; [lia|].
Qed.

Lemma cb_contents_head0 n b :
  inv n b → head_ b = 0 → contents b = take (Z.to_nat (size_ b)) (buffer_ b).
Proof.
  intros [] Hh. unfold contents. rewrite Hh, slice_app_l by lia. done.
Qed.

Lemma cb_contents_full n b :
  inv n b → size_ b = n →
  contents b = drop (Z.to_nat (head_ b)) (buffer_ b) ++
               take (Z.to_nat (head_ b)) (buffer_ b).
Proof.
  intros [] Hs. unfold contents, slice, zlen in *.
  rewrite drop_app_le, take_app, length_drop by lia. f_equal.
  - apply take_ge. rewrite length_drop. lia.
  - f_equal. lia.
Qed.

Lemma cb_zlen_contents n b : inv n b → zlen (contents b) = size_ b.
Proof. intros []. apply zlen_slice; rewrite ?zlen_app; lia. Qed.

Lemma cb_empty_false n b : inv n b → contents b ≠ [] → empty b = false.
Proof.
  intros Hb Hne. unfold empty. apply Z.eqb_neq. intros Hs.
  apply Hne, nil_length_inv. pose proof (cb_zlen_contents n b Hb).
  unfold zlen in *. lia.
Qed.

(** ** The constructor *)

Lemma cb_new_inv n : 0 < n ≤ max_size → inv n (new_CircularBuffer n).
Proof.
  intros. split; cbn; try lia.
  - unfold zlen. rewrite length_replicate. lia.
  - intros. rewrite Z.sub_0_r. done.
Qed.

(** ** [push_back] *)

Lemma cb_push_back_filling n b x :
  inv n b → size_ b < n →
  ∃ b', push_back x b = Ok (d, b') ∧ inv n b' ∧ contents b' = contents b ++ [x].
Proof.
  intros Hb Hlt. pose proof Hb as []. destruct inv_cap0 as [Hc ?].
  destruct inv_filling0 as (Hh & Ht & Hrep); [done|]. unfold zlen in *.
  assert (drop (Z.to_nat (size_ b)) (buffer_ b) =
          d :: replicate (Z.to_nat (n - size_ b) - 1) d) as Hdr.
  { rewrite Hrep. by destruct (Z.to_nat (n - size_ b)) eqn:?; [lia|];
      cbn; rewrite Nat.sub_0_r. }
  assert (buffer_ b !! Z.to_nat (size_ b) = Some d) as Hd.
  { rewrite <-(Nat.add_0_r (Z.to_nat _)), <-lookup_drop, Hdr. done. }
  unfold push_back. rewrite (cb_at_lookup b _ d) by (rewrite Ht; done || lia).
  cbn. rewrite Hc. destruct (Z.eqb_spec (size_ b) n); [lia|].
  rewrite Ht, (cb_next_eq n) by (done || lia). rewrite u64_small by width_lia.
  assert (take (Z.to_nat (size_ b + 1))
            (<[Z.to_nat (size_ b):=x]> (buffer_ b)) =
          take (Z.to_nat (size_ b)) (buffer_ b) ++ [x]) as Htk.
  { replace (Z.to_nat (size_ b + 1)) with (S (Z.to_nat (size_ b))) by lia.
    erewrite take_S_r by (apply list_lookup_insert_eq; lia).
    by rewrite take_insert_ge by lia. }
  eexists; split; [done|].
  enough (inv n (mkCB (<[Z.to_nat (size_ b):=x]> (buffer_ b)) n (size_ b + 1)
     (head_ b) (if decide (size_ b + 1 = n) then 0 else size_ b + 1))) as Hb'.
  { split; [done|]. rewrite (cb_contents_head0 n) by done. cbn. rewrite Htk.
    by rewrite (cb_contents_head0 n) by done. }
  split; cbn; try lia.
  - unfold zlen. rewrite length_insert. lia.
  - intros. rewrite decide_False by lia. split_and!; [done..|].
    rewrite drop_insert_lt by lia.
    replace (Z.to_nat (size_ b + 1)) with (Z.to_nat (size_ b) + 1)%nat by lia.
    rewrite <-drop_drop, Hdr. cbn. rewrite drop_0. f_equal. lia.
  - intros ->. by rewrite decide_True by done.
Qed.

Lemma cb_push_back_full n b x y l :
  inv n b → size_ b = n → contents b = y :: l →
  ∃ b', push_back x b = Ok (y, b') ∧ inv n b' ∧ contents b' = l ++ [x].
Proof.
  intros Hb Hs. rewrite (cb_contents_full n) by done. intros Hc.
  pose proof Hb as []. destruct inv_cap0 as [Hcap ?].
  pose proof (inv_full0 Hs) as Ht. unfold zlen in *.
  set (h := Z.to_nat (head_ b)) in *.
  destruct (drop h (buffer_ b)) as [|y' q] eqn:Hdr.
  { apply (f_equal length) in Hdr. rewrite length_drop in Hdr. cbn in Hdr. lia. }
  injection Hc as -> Hl.
  assert (buffer_ b !! h = Some y) as Hy.
  { rewrite <-(Nat.add_0_r h), <-lookup_drop, Hdr. done. }
  assert (<[h:=x]> (buffer_ b) = take h (buffer_ b) ++ x :: q) as Hins.
  { rewrite insert_take_drop by lia. do 2 f_equal.
    replace (S h) with (h + 1)%nat by lia. by rewrite <-drop_drop, Hdr. }
  assert (length (take h (buffer_ b)) = h) as Hlt by (rewrite length_take; lia).
  unfold push_back. rewrite Ht, (cb_at_lookup b _ y) by (done || lia). cbn.
  fold h. rewrite Hcap, Hs, Z.eqb_refl, (cb_next_eq n) by done.
  eexists; split; [done|].
  set (h' := if decide (head_ b + 1 = n) then 0 else head_ b + 1).
  assert (inv n (mkCB (<[h:=x]> (buffer_ b)) n n h' h')) as Hb'.
  { split; cbn; try lia.
    - unfold zlen. rewrite length_insert. lia.
    - unfold h'. case_decide; lia. }
  split; [done|]. rewrite (cb_contents_full n) by done. cbn. rewrite <-Hl, Hins.
  unfold h'. case_decide as He.
  - assert (q = []) as ->.
    { apply nil_length_inv. apply (f_equal length) in Hdr.
      rewrite length_drop in Hdr. cbn in Hdr. lia. }
    cbn. by rewrite app_nil_r.
  - replace (Z.to_nat (head_ b + 1)) with (length (take h (buffer_ b)) + 1)%nat by lia.
    rewrite drop_app_add, take_app_add. cbn. rewrite drop_0. by rewrite app_assoc.
Qed.

(** ** [back] *)

Lemma cb_inv_insert n b i y :
  inv n b → (size_ b < n → i < size_ b) → 0 ≤ i →
  inv n (mkCB (<[Z.to_nat i := y]> (buffer_ b)) (capacity_ b) (size_ b)
           (head_ b) (tail_ b)).
Proof.
  intros [] Hi ?. split; cbn; try done.
  - unfold zlen in *. by rewrite length_insert.
  - intros Hlt. specialize (Hi Hlt). destruct inv_filling0 as (? & ? & <-); [done|].
    split_and!; [done..|]. apply drop_insert_lt. lia.
Qed.

Lemma cb_back_slot n b l x :
  inv n b → contents b = l ++ [x] →
  ∃ i, back_slot b = Ok i ∧ 0 ≤ i < n ∧ (size_ b < n → i < size_ b) ∧
    buffer_ b !! Z.to_nat i = Some x ∧
    ∀ y b', inv n b' → buffer_ b' = <[Z.to_nat i := y]> (buffer_ b) →
      size_ b' = size_ b → head_ b' = head_ b → contents b' = l ++ [y].
Proof.
  intros Hb Hc. pose proof Hb as []. destruct inv_cap0 as [Hcap ?].
  pose proof (cb_tail_range n b Hb). pose proof (cb_zlen_contents n b Hb) as Hsz.
  rewrite Hc, zlen_app, zlen_cons, zlen_nil in Hsz. unfold zlen in *.
  unfold back_slot.
  rewrite (cb_empty_false n) by (done || rewrite Hc; by destruct l).
  rewrite (cb_prev_eq n) by done. eexists; split; [done|].
  destruct (decide (head_ b = 0)) as [Hh|Hh].
  - assert (Z.to_nat (if decide (tail_ b = 0) then n - 1 else tail_ b - 1)
            = length l) as Hil by (case_decide; lia).
    rewrite (cb_contents_head0 n) in Hc by done.
    split_and!; [case_decide; lia..| |].
    + rewrite Hil. rewrite <-(lookup_take_lt _ (Z.to_nat (size_ b))), Hc by lia.
      by apply list_lookup_middle.
    + intros y b' Hb' Hbuf Hs' Hh'.
      rewrite (cb_contents_head0 n), Hbuf, Hs' by (done || lia).
      rewrite take_insert_lt, Hc, Hil by lia. apply list_insert_snoc.
  - destruct (decide (size_ b = n)) as [Hfull|];
      [|destruct inv_filling0 as (? & _); lia].
    rewrite (cb_contents_full n) in Hc by done.
    rewrite inv_full0, decide_False by lia.
    set (h := Z.to_nat (head_ b)) in *.
    replace (Z.to_nat (head_ b - 1)) with (h - 1)%nat by lia.
    assert (length (drop h (buffer_ b)) + (h - 1) = length l)%nat as Hil
      by (rewrite length_drop; lia).
    split_and!; [lia..| |].
    + rewrite <-(lookup_take_lt _ h) by lia.
      assert ((drop h (buffer_ b) ++ take h (buffer_ b)) !! length l = Some x) as Hx
        by (rewrite Hc; by apply list_lookup_middle).
      rewrite <-Hil, lookup_app_r in Hx by lia. rewrite <-Hx. f_equal. lia.
    + intros y b' Hb' Hbuf Hs' Hh'.
      rewrite (cb_contents_full n), Hbuf, Hh' by (done || lia). fold h.
      rewrite drop_insert_lt, take_insert_lt by lia.
      rewrite <-insert_app_r, Hc, Hil. apply list_insert_snoc.
Qed.

Lemma cb_back n b l x : inv n b → contents b = l ++ [x] → back b = Ok x.
Proof.
  intros Hb Hc. destruct (cb_back_slot n b l x) as (i & Hi & ? & _ & Hx & _); [done..|].
  unfold back. rewrite Hi. cbn. apply cb_at_lookup; [lia|done].
Qed.

Lemma cb_update_back n b f l x :
  inv n b → contents b = l ++ [x] →
  ∃ b', update_back f b = Ok b' ∧ inv n b' ∧ contents b' = l ++ [f x].
Proof.
  intros Hb Hc.
  destruct (cb_back_slot n b l x) as (i & Hi & ? & ? & Hx & Hset); [done..|].
  unfold update_back. rewrite Hi. cbn. rewrite (cb_at_lookup b i x) by (done || lia).
  cbn. pose proof (cb_inv_insert n b i (f x) Hb) as Hb'.
  eexists; split_and!; [done|apply Hb'; (done || lia)|].
  apply Hset; [apply Hb'; (done || lia)|done..].
Qed.

(** ** Iteration *)

Lemma cb_tail_mod n b : inv n b → tail_ b = (head_ b + size_ b) mod n.
Proof.
  intros []. destruct (decide (size_ b = n)) as [Hs|].
  - rewrite inv_full0, Hs by done.
    apply (Z.mod_unique _ _ 1); [left|]; lia.
  - destruct inv_filling0 as (-> & -> & _); [lia|]. rewrite Z.mod_small; lia.
Qed.

Lemma cb_next_mod n b a :
  inv n b → 0 ≤ a → next b (a mod n) = (a + 1) mod n.
Proof.
  intros Hb ?. pose proof (inv_cap n b Hb) as [Hc ?].
  pose proof (Z.mod_pos_bound a n).
  unfold next. rewrite Hc, u64_small by width_lia. by rewrite Zplus_mod_idemp_l.
Qed.

Lemma cb_contents_at n b j :
  inv n b → 0 ≤ j < size_ b →
  ∃ x, at_ b ((head_ b + j) mod n) = Ok x ∧ contents b !! Z.to_nat j = Some x.
Proof.
  intros Hb Hj. pose proof Hb as []. destruct inv_cap0 as [_ ?].
  pose proof (Z.mod_pos_bound (head_ b + j) n).
  destruct (cb_at_in_range n b ((head_ b + j) mod n) Hb) as (x & Hx & ->); [lia|].
  exists x. split; [done|]. unfold contents. rewrite slice_lookup.
  rewrite decide_True by lia. rewrite <-Hx. unfold zlen in *.
  destruct (decide (head_ b + j < n)).
  - rewrite Z.mod_small, lookup_app_l by lia. f_equal. lia.
  - rewrite lookup_app_r by lia. f_equal.
    rewrite <-(Z.mod_unique (head_ b + j) n 1 (head_ b + j - n)); [|left|]; lia.
Qed.

Lemma cb_mod_inj (n h a c : Z) :
  0 ≤ a < c → c - a < n → (h + a) mod n ≠ (h + c) mod n.
Proof.
  intros ? ? Heq.
  assert (n ≠ 0) as Hn by lia.
  pose proof (Z.div_mod (h + a) n Hn). pose proof (Z.div_mod (h + c) n Hn).
  assert (n * ((h + c) / n - (h + a) / n) = c - a) as Hd by lia.
  assert (0 < (h + c) / n - (h + a) / n) by nia. nia.
Qed.

Lemma cb_range_for_step fuel b pos x :
  at_ b pos = Ok x →
  range_for (S fuel) b (Some pos) =
    (it ← incr b (Some pos);
     r ← range_for fuel b it;
     Ok (option_map (cons x) r)).
Proof. intros Hx. cbn [range_for deref]. by rewrite Hx. Qed.

Lemma cb_range_for n b (k : nat) : inv n b → Z.of_nat k < size_ b →
  range_for (S k) b (Some ((head_ b + (size_ b - 1 - Z.of_nat k)) mod n)) =
    Ok (Some (drop (Z.to_nat (size_ b - 1 - Z.of_nat k)) (contents b))).
Proof.
  intros Hb. pose proof Hb as []. destruct inv_cap0 as [_ ?].
  induction k as [|k IH]; intros Hk;
    (match goal with |- context [(head_ b + ?e) mod n] => set (j := e) in * end);
    (destruct (cb_contents_at n b j Hb) as (x & Hx & Hcx); [lia|]);
    rewrite (cb_range_for_step _ _ _ x) by done; cbn [incr];
    rewrite (cb_next_mod n) by (done || lia);
    (assert (empty b = false) as -> by (unfold empty; apply Z.eqb_neq; lia));
    rewrite orb_false_r, (cb_tail_mod n) by done;
    rewrite (drop_S _ x) by done.
  - replace (head_ b + j + 1) with (head_ b + size_ b) by lia.
    rewrite Z.eqb_refl. cbn. do 3 f_equal. symmetry. apply drop_ge.
    pose proof (cb_zlen_contents n b Hb). unfold zlen in *. lia.
  - rewrite (proj2 (Z.eqb_neq _ _)).
    2:{ rewrite <-Z.add_assoc. apply cb_mod_inj; lia. }
    cbn [mbind res_bind].
    replace (head_ b + j + 1) with (head_ b + (size_ b - 1 - Z.of_nat k)) by lia.
    rewrite IH by lia. cbn. do 5 f_equal. lia.
Qed.

Lemma cb_range_for_fuel b fuel extra : ∀ it xs,
  range_for fuel b it = Ok (Some xs) → range_for (fuel + extra) b it = Ok (Some xs).
Proof.
  induction fuel as [|fuel IH]; intros [pos|] xs; cbn [Nat.add range_for deref];
    try done; [by destruct extra|].
  destruct (at_ b pos); cbn [mbind res_bind]; try done.
  destruct (incr b (Some pos)) as [it| | |]; cbn [mbind res_bind]; try done.
  destruct (range_for fuel b it) as [[ys|]| | |] eqn:Hr; try done.
  by rewrite (IH _ _ Hr).
Qed.

Lemma cb_iterate n b (extra : nat) : inv n b →
  range_for (Z.to_nat (size_ b) + extra) b (begin b) = Ok (Some (contents b)).
Proof.
  intros Hb. pose proof Hb as []. unfold begin.
  destruct (empty b) eqn:He; unfold empty in He.
  - apply Z.eqb_eq in He. rewrite He. cbn.
    pose proof (cb_zlen_contents n b Hb) as Hz. rewrite He in Hz.
    destruct (contents b); [by destruct extra|rewrite zlen_cons in Hz].
    zlen_lia.
  - apply Z.eqb_neq in He.
    pose proof (cb_range_for n b (Z.to_nat (size_ b) - 1) Hb) as Hit.
    replace (size_ b - 1 - Z.of_nat (Z.to_nat (size_ b) - 1)) with 0 in Hit by lia.
    rewrite Z.add_0_r, Z.mod_small, drop_0 in Hit by lia.
    apply cb_range_for_fuel. rewrite <-Hit by lia. f_equal. lia.
Qed.

(** ** Sequences of pushes *)

(** Push the elements in order, collecting the values that are overwritten. *)
Fixpoint push_all (xs : list T) (b : CircularBuffer) : res (list T * CircularBuffer) :=
  match xs with
  | [] => Ok ([], b)
  | x :: xs =>
      '(old, b) ← push_back x b;
      '(olds, b) ← push_all xs b;
      Ok (old :: olds, b)
  end.

Lemma cb_push_all n xs : ∀ b, inv n b →
  let all := contents b ++ xs in
  let over := (length all - Z.to_nat n)%nat in
  let free := Z.to_nat (n - size_ b) in
  ∃ b', push_all xs b = Ok (replicate (length xs `min` free) d ++ take over all, b') ∧
    inv n b' ∧ contents b' = drop over all.
Proof.
  induction xs as [|x xs IH]; intros b Hb; cbn zeta;
    pose proof (inv_size n b Hb) as Hs; pose proof (cb_zlen_contents n b Hb) as Hz;
    unfold zlen in Hz.
  - rewrite app_nil_r.
    replace (length (contents b) - Z.to_nat n)%nat with 0%nat by lia.
    by exists b.
  - destruct (decide (size_ b < n)) as [Hlt|Hge].
    + destruct (cb_push_back_filling n b x) as (b1 & Hp & Hb1 & Hc1); [done..|].
      destruct (IH b1 Hb1) as (b' & Hr & Hb' & Hc').
      pose proof (cb_zlen_contents n b1 Hb1) as Hz1. unfold zlen in Hz1.
      rewrite Hc1, length_app in Hz1. cbn in Hz1.
      cbn [push_all]. rewrite Hp. cbn [mbind res_bind]. rewrite Hr. cbn [mbind res_bind].
      rewrite Hc1, <-app_assoc in Hc' |- *. cbn [app] in *.
      exists b'. split_and!; [|done..]. do 2 f_equal.
      replace (Z.to_nat (n - size_ b)) with (S (Z.to_nat (n - size_ b1))) by lia.
      done.
    + destruct (contents b) as [|y l] eqn:Hc; [cbn in Hz; pose proof (inv_cap n b Hb); lia|].
      destruct (cb_push_back_full n b x y l) as (b1 & Hp & Hb1 & Hc1); [done|lia|done|].
      destruct (IH b1 Hb1) as (b' & Hr & Hb' & Hc').
      pose proof (cb_zlen_contents n b1 Hb1) as Hz1. unfold zlen in Hz1.
      rewrite Hc1, length_app in Hz1. cbn in Hz, Hz1.
      cbn [push_all]. rewrite Hp. cbn [mbind res_bind]. rewrite Hr. cbn [mbind res_bind].
      rewrite Hc1, <-app_assoc in Hc' |- *. cbn [app] in *.
      replace (length (y :: l ++ x :: xs) - Z.to_nat n)%nat
        with (S (length (l ++ x :: xs) - Z.to_nat n))
        by (cbn; rewrite length_app; cbn; lia).
      exists b'. split_and!; [|done..]. cbn [take].
      replace (Z.to_nat (n - size_ b)) with 0%nat by lia.
      replace (Z.to_nat (n - size_ b1)) with 0%nat by lia. by rewrite !Nat.min_0_r.
Qed.

Lemma cb_push_all_new n xs : 0 < n ≤ max_size →
  let over := (length xs - Z.to_nat n)%nat in
  ∃ b, push_all xs (new_CircularBuffer n) =
      Ok (replicate (length xs `min` Z.to_nat n) d ++ take over xs, b) ∧
    inv n b ∧ contents b = drop over xs.
Proof.
  intros Hn. destruct (cb_push_all n xs _ (cb_new_inv n Hn)) as (b & ? & ? & ?).
  cbn in *. rewrite Z.sub_0_r in *. by exists b.
Qed.

(** ** Properties *)

(** C29: Pushing any sequence into a fresh CircularBuffer of capacity n never
    fails: it keeps exactly the last n elements, oldest first, and the values the
    pushes overwrite are the n default-constructed slots and then the evicted
    elements in the order they were pushed. *)
Theorem push_keeps_last n xs :
  0 < n ≤ max_size →
  let over := (length xs - Z.to_nat n)%nat in
  ∃ b, push_all xs (new_CircularBuffer n) =
      Ok (replicate (length xs `min` Z.to_nat n) d ++ take over xs, b) ∧
    contents b = drop over xs ∧
    size_ b = Z.min n (zlen xs).
Proof.
  intros Hn over. destruct (cb_push_all_new n xs Hn) as (b & Hp & Hb & Hc).
  exists b. split_and!; [done..|].
  rewrite <-(cb_zlen_contents n b Hb), Hc. unfold zlen, over.
  rewrite length_drop. lia.
Qed.

(** A range-for over a CircularBuffer terminates after [size()] steps and
    visits the elements from oldest to newest, whatever the position of the head;
    [back()] is the element pushed last, and throws on an empty buffer. *)
Theorem iteration_visits_contents n xs :
  0 < n ≤ max_size →
  ∃ olds b, push_all xs (new_CircularBuffer n) = Ok (olds, b) ∧
    range_for (Z.to_nat (size_ b)) b (begin b) =
      Ok (Some (drop (length xs - Z.to_nat n) xs)) ∧
    back b = match last xs with Some x => Ok x | None => Throw UnderflowError end.
Proof.
  intros Hn. destruct (cb_push_all_new n xs Hn) as (b & Hp & Hb & Hc).
  eexists _, b. split_and!; [done| |].
  - rewrite <-Hc, <-(cb_iterate n b 0 Hb). f_equal. lia.
  - destruct (last xs) as [x|] eqn:Hl.
    + apply last_Some in Hl as [l ->].
      rewrite drop_app_le in Hc by (rewrite length_app; cbn; lia).
      by eapply (cb_back n b).
    + apply last_None in Hl as ->. cbn in Hp. injection Hp as <-. done.
Qed.

#[export, refine] Instance circular_window : Window T CircularBuffer d := {
  win_new := new_CircularBuffer;
  win_push := push_back;
  win_update_back := update_back;
  win_wf := inv;
  win_list := contents;
}.
Proof.
  - intros n Hn. split; [by apply cb_new_inv|]. by rewrite (cb_contents_head0 n) by (done || by apply cb_new_inv).
  - intros n r Hr. rewrite (cb_zlen_contents n r Hr). apply (inv_size n r Hr).
  - intros n r x Hr Hl. rewrite (cb_zlen_contents n r Hr) in Hl.
    by apply cb_push_back_filling.
  - intros n r x y l Hr Hl Hc. rewrite (cb_zlen_contents n r Hr) in Hl.
    by apply cb_push_back_full.
  - intros n r f l x Hr Hc. by apply cb_update_back.
Defined.
End circular_buffer.

Arguments CircularBuffer T : clear implicits.

Lemma push_keeps_last_witness :
  0 < 3 ≤ max_size ∧
  ∃ b, push_all [1; 2; 3; 4; 5] (new_CircularBuffer 0 3) =
      Ok ([0; 0; 0; 1; 2], b) ∧ contents b = [3; 4; 5] ∧ size_ b = 3.
Proof.
  assert (0 < 3 ≤ max_size) as Hn by (split; vm_compute; congruence).
  split; [done|]. destruct (push_keeps_last 0 3 [1; 2; 3; 4; 5] Hn) as (b & ? & ? & ?).
  by exists b.
Defined.

Lemma iteration_visits_contents_witness :
  0 < 3 ≤ max_size ∧
  ∃ olds b, push_all [1; 2; 3; 4] (new_CircularBuffer 0 3) = Ok (olds, b) ∧
    range_for (Z.to_nat (size_ b)) b (begin b) = Ok (Some [2; 3; 4]) ∧ back b = Ok 4.
Proof.
  assert (0 < 3 ≤ max_size) as Hn by (split; vm_compute; congruence).
  split; [done|]. by apply (iteration_visits_contents 0 3 [1; 2; 3; 4] Hn).
Defined.
