(* ===== verification/IdleWheel.v ===== *)
(** * IdleWheel: eviction of idle connections

    Models [include/coro_net/idle_connection_wheel.hpp],
    [src/net/idle_connection_wheel.cc] and [idle_entry.hpp].  A bucket is the set
    of the entries it holds a [shared_ptr] to; an [IdleEntry] is destroyed when a
    push drops the last bucket that holds it, and its destructor spawns the
    shutdown of its connection if that is still alive.

    The wheel is proved against [Interfaces.Window], which [CircularBuffer]
    implements.  [Spec] gives every entry a number of ticks left to live. *)
From S2P Require Import Prelude Interfaces CircularBuffer.

(** Entries and connections are named by numbers ([shared_ptr] identities). *)
Abbreviation entry := nat (only parsing).
Abbreviation conn := nat (only parsing).
Abbreviation Bucket := (gset entry).

(** The coroutine [tick_coro]: suspended on its one-second timeout, or done. *)
Inductive TickCoro : Type := TickWaiting | TickDone.

#[export] Instance TickCoro_eq_dec : EqDecision TickCoro.
Proof. solve_decision. Defined.

(** What the outside does to the wheel, in order. *)
Inductive event : Type :=
  | EvRegister (c : conn)   (* accepted: register_conn + install_idle *)
  | EvData (e : entry)      (* recv returned n > 0 on a connection holding e *)
  | EvTick                  (* the one-second timeout of tick_coro fires *)
  | EvClosed (c : conn)     (* the last shared_ptr to the connection is dropped *)
  | EvStop.                 (* IdleConnectionWheel::stop *)

Section wheel.
Context {R : Type} `{!Window Bucket R ∅}.

Record IdleConnectionWheel := mkWheel {
  buckets_ : R;
  running_ : bool;
  entries : gmap entry conn;   (* live IdleEntry objects and their wconn *)
  next_entry : entry;          (* identity of the next make_shared<IdleEntry> *)
}.

Definition slots (idle : Z) : Z := if 0 <? idle then idle else 1.

(** The prefilling loop of the constructor. *)
Fixpoint prefill (n : nat) (r : R) : res R :=
  match n with
  | O => Ok r
  | S n => '(_, r) ← win_push ∅ r; prefill n r
  end.

Definition new_wheel (idle : Z) : res IdleConnectionWheel :=
  r ← prefill (Z.to_nat (slots idle)) (win_new (slots idle));
  Ok (mkWheel r false ∅ 0%nat).

(** [register_conn]: allocate the entry, insert it into the newest bucket. *)
Definition register_conn (c : conn) (w : IdleConnectionWheel)
    : res (entry * IdleConnectionWheel) :=
  let e := next_entry w in
  r ← win_update_back ({[e]} ∪.) (buckets_ w);
  Ok (e, mkWheel r (running_ w) (<[e := c]> (entries w)) (S e)).

(** [refresh]: a null [shared_ptr] is ignored. *)
Definition refresh (e : option entry) (w : IdleConnectionWheel)
    : res IdleConnectionWheel :=
  match e with
  | None => Ok w
  | Some e =>
      r ← win_update_back ({[e]} ∪.) (buckets_ w);
      Ok (mkWheel r (running_ w) (entries w) (next_entry w))
  end.

(** [idle_entry_.lock()]: null once the entry has been destroyed. *)
Definition lock (e : entry) (w : IdleConnectionWheel) : option entry :=
  match entries w !! e with Some _ => Some e | None => None end.

(** [~IdleEntry] for each entry of [dead]: the connections it spawns a
    [shutdown()] on, [live] being those [wconn.lock()] still finds. *)
Definition destroy_entries (dead : Bucket) (live : gset conn)
    (w : IdleConnectionWheel) : gset conn * IdleConnectionWheel :=
  (set_omap (entries w !!.) dead ∩ live,
   mkWheel (buckets_ w) (running_ w)
     (filter (λ '(e, _), e ∉ dead) (entries w)) (next_entry w)).

Definition start (w : IdleConnectionWheel) : IdleConnectionWheel :=
  mkWheel (buckets_ w) true (entries w) (next_entry w).
Definition stop (w : IdleConnectionWheel) : IdleConnectionWheel :=
  mkWheel (buckets_ w) false (entries w) (next_entry w).

(** The [while (running_)] test of [tick_coro]. *)
Definition tick_loop (w : IdleConnectionWheel) : TickCoro :=
  if running_ w then TickWaiting else TickDone.

(** Resuming [tick_coro] after its timeout: one turn of the loop body.  The push
    destroys the entries that only the overwritten bucket held. *)
Definition tick_resume (live : gset conn) (w : IdleConnectionWheel)
    : res (gset conn * IdleConnectionWheel * TickCoro) :=
  if negb (running_ w) then Ok (∅, w, TickDone) else
  '(old, r) ← win_push ∅ (buckets_ w);
  let dead := old ∖ ⋃ (win_list r) in
  let w := mkWheel r (running_ w) (entries w) (next_entry w) in
  let '(out, w) := destroy_entries dead live w in
  Ok (out, w, tick_loop w).

(** The wheel together with the connections alive and the tick coroutine. *)
Record world := mkWorld {
  wheel : IdleConnectionWheel;
  live : gset conn;
  ticker : TickCoro;
}.

(** One event; the output is the set of connections shut down by it. *)
Definition handle (ev : event) (s : world) : res (gset conn * world) :=
  match ev with
  | EvRegister c =>
      '(_, w) ← register_conn c (wheel s);
      Ok (∅, mkWorld w ({[c]} ∪ live s) (ticker s))
  | EvData e =>
      w ← refresh (lock e (wheel s)) (wheel s);
      Ok (∅, mkWorld w (live s) (ticker s))
  | EvTick =>
      match ticker s with
      | TickDone => Ok (∅, s)
      | TickWaiting =>
          '(out, w, t) ← tick_resume (live s) (wheel s);
          Ok (out, mkWorld w (live s) t)
      end
  | EvClosed c => Ok (∅, mkWorld (wheel s) (live s ∖ {[c]}) (ticker s))
  | EvStop => Ok (∅, mkWorld (stop (wheel s)) (live s) (ticker s))
  end.

Fixpoint run (evs : list event) (s : world) : res (list (gset conn) * world) :=
  match evs with
  | [] => Ok ([], s)
  | ev :: evs =>
      '(out, s) ← handle ev s;
      '(outs, s) ← run evs s;
      Ok (out :: outs, s)
  end.

(** A wheel constructed and started, before any connection. *)
Definition boot (idle : Z) : res world :=
  w ← new_wheel idle;
  let w := start w in
  Ok (mkWorld w ∅ (tick_loop w)).
End wheel.
Arguments IdleConnectionWheel R : clear implicits.
Arguments world R : clear implicits.

(** Events that neither renew [e], nor close [c], nor stop the wheel. *)
Definition quiet (e : entry) (c : conn) (ev : event) : Prop :=
  match ev with
  | EvData e' => e' ≠ e
  | EvClosed c' => c' ≠ c
  | EvStop => False
  | _ => True
  end.

Fixpoint tick_count (evs : list event) : nat :=
  match evs with
  | [] => 0
  | EvTick :: evs => S (tick_count evs)
  | _ :: evs => tick_count evs
  end.

(** ** The contract: a countdown per entry *)

Module Spec.
Record t := mk {
  ttl : gmap entry (conn * nat);   (* ticks left before eviction, at least 1 *)
  next_id : entry;
  alive : gset conn;
  on : bool;
  ticking : TickCoro;
}.

Definition boot : t := mk ∅ 0%nat ∅ true TickWaiting.

(** The entries whose last tick this is. *)
Definition expired (s : t) : gset conn :=
  map_to_set (λ _ v, v.1) (filter (λ '(_, v), v.2 = 1%nat) (ttl s)).

Definition countdown (s : t) : gmap entry (conn * nat) :=
  prod_map id Nat.pred <$> filter (λ '(_, v), v.2 ≠ 1%nat) (ttl s).

Definition handle (N : nat) (ev : event) (s : t) : gset conn * t :=
  match ev with
  | EvRegister c =>
      (∅, mk (<[next_id s := (c, N)]> (ttl s)) (S (next_id s))
            ({[c]} ∪ alive s) (on s) (ticking s))
  | EvData e =>
      (∅, mk (alter (λ v, (v.1, N)) e (ttl s)) (next_id s)
            (alive s) (on s) (ticking s))
  | EvTick =>
      match ticking s, on s with
      | TickDone, _ => (∅, s)
      | TickWaiting, false => (∅, mk (ttl s) (next_id s) (alive s) (on s) TickDone)
      | TickWaiting, true =>
          (expired s ∩ alive s,
           mk (countdown s) (next_id s) (alive s) (on s) TickWaiting)
      end
  | EvClosed c => (∅, mk (ttl s) (next_id s) (alive s ∖ {[c]}) (on s) (ticking s))
  | EvStop => (∅, mk (ttl s) (next_id s) (alive s) false (ticking s))
  end.

Fixpoint run (N : nat) (evs : list event) (s : t) : list (gset conn) * t :=
  match evs with
  | [] => ([], s)
  | ev :: evs =>
      let '(out, s) := handle N ev s in
      let '(outs, s) := run N evs s in
      (out :: outs, s)
  end.
End Spec.

(** ** Life of an entry in a list of buckets *)

(** One more than the position of the newest bucket holding [e]. *)
Fixpoint life (bs : list Bucket) (e : entry) : option nat :=
  match bs with
  | [] => None
  | b :: bs =>
      match life bs e with
      | Some k => Some (S k)
      | None => if decide (e ∈ b) then Some 1%nat else None
      end
  end.

Lemma life_None bs e : life bs e = None ↔ e ∉ ⋃ bs.
Proof.
  induction bs as [|b bs IH]; cbn; [set_solver|].
  destruct (decide (e ∈ ⋃ bs)) as [He|He].
  - destruct (life bs e); [set_solver|]. by destruct (proj1 IH eq_refl).
  - rewrite (proj2 IH He). case_decide; set_solver.
Qed.

Lemma life_snoc bs b e :
  life (bs ++ [b]) e = if decide (e ∈ b) then Some (S (length bs)) else life bs e.
Proof.
  induction bs as [|b' bs IH]; cbn; [by case_decide|].
  rewrite IH. destruct (decide (e ∈ b)); [done|].
  by destruct (life bs e).
Qed.

Lemma life_replicate_empty n e : life (replicate n ∅) e = None.
Proof. induction n as [|n IH]; cbn; [done|]. rewrite IH. by case_decide; [set_solver|]. Qed.

(** Dropping the oldest bucket takes one tick from every entry. *)
Lemma life_tail b bs e :
  life bs e = match life (b :: bs) e with Some (S (S k)) => Some (S k) | _ => None end.
Proof.
  cbn. destruct (life bs e) as [[|k]|] eqn:Hl; [|done|].
  - exfalso. clear b. destruct bs as [|b bs]; cbn in Hl; [done|].
    destruct (life bs e); [done|by destruct (decide (e ∈ b))].
  - by destruct (decide (e ∈ b)).
Qed.

Lemma life_dying b bs e : e ∈ b ∖ ⋃ (bs ++ [∅]) ↔ life (b :: bs) e = Some 1%nat.
Proof.
  pose proof (life_None bs e) as Hn.
  assert (e ∈ ⋃ (bs ++ [∅]) ↔ e ∈ ⋃ bs) as Ha
    by (rewrite union_list_app; cbn; set_solver).
  rewrite elem_of_difference, Ha. cbn.
  destruct (life bs e) as [k|] eqn:Hl.
  - assert (¬ (e ∉ ⋃ bs)) by (intros Hni; by apply Hn in Hni).
    split; [naive_solver|]. intros [= ->]. exfalso. pose proof (life_tail ∅ bs e) as Ht. cbn in Ht.
    by rewrite Hl in Ht.
  - pose proof (proj1 Hn eq_refl). destruct (decide (e ∈ b)); naive_solver.
Qed.

(** ** The wheel implements the countdown *)

Section refinement.
Context {R : Type} `{!Window Bucket R ∅}.
Implicit Types s : world R.

Definition ticks (idle : Z) : nat := Z.to_nat (slots idle).

Record related (N : nat) (s : world R) (t : Spec.t) : Prop := {
  rel_wf : win_wf (Z.of_nat N) (buckets_ (wheel s));
  rel_pos : (0 < N)%nat;
  rel_full : length (win_list (buckets_ (wheel s))) = N;
  rel_ttl e : life (win_list (buckets_ (wheel s))) e = snd <$> Spec.ttl t !! e;
  rel_entries e : entries (wheel s) !! e = fst <$> Spec.ttl t !! e;
  rel_next : next_entry (wheel s) = Spec.next_id t;
  rel_live : live s = Spec.alive t;
  rel_on : running_ (wheel s) = Spec.on t;
  rel_ticker : ticker s = Spec.ticking t;
}.

Lemma update_back_life N r e :
  win_wf (Z.of_nat N) r → length (win_list r) = N → (0 < N)%nat →
  ∃ r', win_update_back ({[e]} ∪.) r = Ok r' ∧ win_wf (Z.of_nat N) r' ∧
    length (win_list r') = N ∧
    ∀ e', life (win_list r') e' =
      if decide (e' = e) then Some N else life (win_list r) e'.
Proof.
  intros Hwf Hlen HN.
  destruct (exists_last (l:=win_list r)) as (bs0 & b0 & Hl);
    [intros Hnil; rewrite Hnil in Hlen; cbn in Hlen; lia|].
  destruct (win_update_back_ok (Z.of_nat N) r ({[e]} ∪.) bs0 b0)
    as (r' & Hup & Hwf' & Hl'); [done..|].
  exists r'. rewrite Hl', Hl, !length_app in *. cbn in *. split_and!; [done..|].
  intros e'. rewrite !life_snoc.
  destruct (decide (e' = e)) as [->|].
  - rewrite decide_True by set_solver. f_equal. lia.
  - destruct (decide (e' ∈ b0)); [by rewrite decide_True by set_solver|].
    by rewrite decide_False by set_solver.
Qed.

Lemma life_pos (bs : list Bucket) e : life bs e ≠ Some 0%nat.
Proof.
  destruct bs as [|b bs]; cbn; [congruence|].
  destruct (life bs e); [congruence|].
  destruct (decide (e ∈ b)); congruence.
Qed.

Lemma countdown_lookup t e :
  Spec.countdown t !! e =
    match Spec.ttl t !! e with
    | Some (c, k) => if decide (k = 1%nat) then None else Some (c, Nat.pred k)
    | None => None
    end.
Proof.
  unfold Spec.countdown. rewrite lookup_fmap, map_lookup_filter.
  destruct (Spec.ttl t !! e) as [[c k]|]; cbn; [|done].
  destruct (decide (k = 1%nat)) as [->|].
  - by rewrite option_guard_False by naive_solver.
  - by rewrite option_guard_True by done.
Qed.

Lemma elem_of_expired t c :
  c ∈ Spec.expired t ↔ ∃ e, Spec.ttl t !! e = Some (c, 1%nat).
Proof.
  unfold Spec.expired. rewrite elem_of_map_to_set. split.
  - intros (e & [c' k] & He & <-). apply map_lookup_filter_Some in He as [He Hk].
    cbn in *. subst k. by exists e.
  - intros [e He]. exists e, (c, 1%nat). split; [|done].
    by apply map_lookup_filter_Some.
Qed.

(** One turn of the tick coroutine. *)
Lemma tick_related N s t :
  related N s t → running_ (wheel s) = true →
  ∃ w', tick_resume (live s) (wheel s) =
      Ok (Spec.expired t ∩ Spec.alive t, w', TickWaiting) ∧
    related N (mkWorld w' (live s) TickWaiting)
      (Spec.mk (Spec.countdown t) (Spec.next_id t) (Spec.alive t) (Spec.on t) TickWaiting).
Proof.
  intros [Hwf HN Hlen Httl Hent Hnext Hlive Hon Htick] Hrun.
  destruct (win_list (buckets_ (wheel s))) as [|y l] eqn:Hl; [cbn in Hlen; lia|].
  destruct (win_push_full (Z.of_nat N) (buckets_ (wheel s)) ∅ y l)
    as (r' & Hpush & Hwf' & Hl'); [done|unfold zlen; rewrite Hl; lia|done|].
  assert (∀ e, e ∈ y ∖ ⋃ win_list r' ↔ ∃ c, Spec.ttl t !! e = Some (c, 1%nat)) as Hdead.
  { intros e. rewrite Hl', life_dying, Httl.
    destruct (Spec.ttl t !! e) as [[c k]|]; cbn; naive_solver. }
  unfold tick_resume. rewrite Hrun, Hpush. cbn [negb mbind res_bind].
  unfold destroy_entries, tick_loop. cbn [entries running_ buckets_ next_entry].
  eexists. split.
  - do 3 f_equal. rewrite Hlive. f_equal. apply set_eq. intros c.
    rewrite elem_of_set_omap, elem_of_expired. split.
    + intros (e & [c' Hc']%Hdead & Hc). exists e.
      rewrite Hent, Hc' in Hc. cbn in Hc. naive_solver.
    + intros (e & He). exists e. split; [apply Hdead; by exists c|].
      by rewrite Hent, He.
  - split; cbn; try done; try congruence.
    + rewrite Hl', length_app. cbn in *. lia.
    + intros e. rewrite Hl', life_snoc, decide_False by set_solver.
      rewrite (life_tail y l), Httl, countdown_lookup.
      pose proof (life_pos (y :: l) e) as Hp. rewrite Httl in Hp.
      destruct (Spec.ttl t !! e) as [[c [|[|k]]]|]; cbn in *; naive_solver.
    + intros e. rewrite countdown_lookup, map_lookup_filter, Hent.
      pose proof (Hdead e) as Hd.
      destruct (Spec.ttl t !! e) as [[c k]|] eqn:He; cbn; [|done].
      destruct (decide (k = 1%nat)) as [->|Hk].
      * by rewrite option_guard_False by naive_solver.
      * by rewrite option_guard_True by naive_solver.
Qed.

Lemma handle_related N ev s t :
  related N s t →
  ∃ s', handle ev s = Ok ((Spec.handle N ev t).1, s') ∧
    related N s' (Spec.handle N ev t).2.
Proof.
  intros Hr. pose proof Hr as [Hwf HN Hlen Httl Hent Hnext Hlive Hon Htick].
  destruct ev as [c|e| |c|]; cbn.
  - destruct (update_back_life N (buckets_ (wheel s)) (next_entry (wheel s)))
      as (r' & Hup & Hwf' & Hlen' & Hlife); [done..|].
    unfold register_conn. rewrite Hup. cbn. eexists. split; [done|].
    split; cbn; try done; try by f_equal.
    + intros e. rewrite Hlife, <-Hnext. destruct (decide (e = next_entry (wheel s))) as [->|].
      * by rewrite lookup_insert_eq.
      * by rewrite lookup_insert_ne by done.
    + intros e. rewrite <-Hnext. destruct (decide (e = next_entry (wheel s))) as [->|].
      * by rewrite !lookup_insert_eq.
      * by rewrite !lookup_insert_ne by done.
  - unfold lock. rewrite Hent.
    destruct (Spec.ttl t !! e) as [[c k]|] eqn:He; cbn.
    + destruct (update_back_life N (buckets_ (wheel s)) e)
        as (r' & Hup & Hwf' & Hlen' & Hlife); [done..|].
      rewrite Hup. cbn. eexists. split; [done|]. split; cbn; try done.
      * intros e'. rewrite Hlife. destruct (decide (e' = e)) as [->|].
        -- by rewrite lookup_alter_eq, He.
        -- by rewrite lookup_alter_ne by done.
      * intros e'. rewrite Hent. destruct (decide (e' = e)) as [->|].
        -- by rewrite lookup_alter_eq, He.
        -- by rewrite lookup_alter_ne by done.
    + eexists. split; [done|]. destruct s as [w lv tk]. split; cbn in *; try done.
      all: intros e'; rewrite ?Httl, ?Hent; destruct (decide (e' = e)) as [->|];
        [by rewrite lookup_alter_eq, He|by rewrite lookup_alter_ne by done].
  - rewrite Htick. destruct (Spec.ticking t) eqn:Ht; [|by eexists].
    destruct (Spec.on t) eqn:Hton.
    + destruct (tick_related N s t) as (w' & -> & Hr'); [done|congruence|].
      cbn. eexists. split; [done|]. by rewrite Hton in Hr'.
    + unfold tick_resume. rewrite Hon. cbn. eexists. split; [done|].
      split; cbn; try done; congruence.
  - eexists. split; [done|]. split; cbn; try done. by rewrite Hlive.
  - eexists. split; [done|]. split; cbn; done.
Qed.

Lemma run_related N evs : ∀ s t,
  related N s t →
  ∃ s', run evs s = Ok ((Spec.run N evs t).1, s') ∧ related N s' (Spec.run N evs t).2.
Proof.
  induction evs as [|ev evs IH]; intros s t Hr; [by eexists|].
  destruct (handle_related N ev s t Hr) as (s1 & Hh & Hr1).
  destruct (IH _ _ Hr1) as (s2 & Hrun & Hr2).
  cbn [run Spec.run]. rewrite Hh. cbn [mbind res_bind]. rewrite Hrun.
  cbn [mbind res_bind].
  destruct (Spec.handle N ev t) as [out t1]; cbn in *.
  destruct (Spec.run N evs t1) as [outs t2]; cbn in *. by eexists.
Qed.

Lemma prefill_spec k : ∀ n r,
  win_wf (Z.of_nat n) r → (length (win_list r) + k = n)%nat →
  ∃ r', prefill k r = Ok r' ∧ win_wf (Z.of_nat n) r' ∧
    win_list r' = win_list r ++ replicate k ∅.
Proof.
  induction k as [|k IH]; intros n r Hwf Hlen; cbn.
  - exists r. by rewrite app_nil_r.
  - destruct (win_push_filling (Z.of_nat n) r ∅) as (r1 & -> & Hwf1 & Hl1);
      [done|unfold zlen; lia|]. cbn.
    destruct (IH n r1) as (r2 & -> & Hwf2 & Hl2);
      [done|rewrite Hl1, length_app; cbn; lia|].
    exists r2. split_and!; [done..|]. by rewrite Hl2, Hl1, <-app_assoc.
Qed.

Lemma slots_pos idle : 0 < slots idle.
Proof. unfold slots. destruct (Z.ltb_spec 0 idle); lia. Qed.

Lemma boot_related idle :
  idle ≤ max_size → ∃ s, boot idle = Ok s ∧ related (ticks idle) s Spec.boot.
Proof.
  intros Hmax. pose proof (slots_pos idle) as Hpos. unfold boot, new_wheel.
  destruct (win_new_ok (slots idle)) as [Hwf Hnil].
  { unfold slots in *. destruct (Z.ltb_spec 0 idle); width_lia. }
  assert (Z.of_nat (ticks idle) = slots idle) as HN by (unfold ticks; lia).
  rewrite <-HN in Hwf at 1.
  destruct (prefill_spec (ticks idle) (ticks idle) (win_new (slots idle)))
    as (r & Hpre & Hwf' & Hl); [done|by rewrite Hnil|].
  unfold ticks in Hpre. rewrite Hpre. cbn. eexists. split; [done|].
  rewrite Hnil in Hl. cbn in Hl. split; cbn; try done.
  - lia.
  - by rewrite Hl, length_replicate.
  - intros e. rewrite Hl, lookup_empty. apply life_replicate_empty.
Qed.

(** A running wheel in which [e] is alive with [k] ticks left. *)
Definition ticking_down (e : entry) (c : conn) (k : nat) (t : Spec.t) : Prop :=
  Spec.ttl t !! e = Some (c, k) ∧ (e < Spec.next_id t)%nat ∧
  c ∈ Spec.alive t ∧ Spec.on t = true ∧ Spec.ticking t = TickWaiting.

Lemma quiet_handle N e c k ev t :
  ticking_down e c k t → quiet e c ev → (tick_count [ev] < k)%nat →
  ticking_down e c (k - tick_count [ev]) (Spec.handle N ev t).2.
Proof.
  intros (He & Hlt & Hc & Hon & Htk) Hq Hk. unfold ticking_down.
  destruct ev as [c'|e'| |c'|]; cbn in *; rewrite ?Nat.sub_0_r.
  - split_and!; [by rewrite lookup_insert_ne by lia|lia|set_solver|done..].
  - split_and!; [by rewrite lookup_alter_ne by done|done..].
  - rewrite Hon, Htk. cbn. rewrite countdown_lookup, He, decide_False by lia.
    split_and!; [|done..]. do 2 f_equal. lia.
  - split_and!; [done..|set_solver|done|done].
  - done.
Qed.

Lemma quiet_run N e c evs : ∀ k t,
  ticking_down e c k t → Forall (quiet e c) evs → (tick_count evs < k)%nat →
  ticking_down e c (k - tick_count evs) (Spec.run N evs t).2.
Proof.
  induction evs as [|ev evs IH]; intros k t Ht Hq Hk; cbn [Spec.run].
  - by rewrite Nat.sub_0_r.
  - inversion Hq as [|?? Hev Hevs]; subst.
    assert (tick_count (ev :: evs) = (tick_count [ev] + tick_count evs)%nat) as Hs
      by (by destruct ev).
    pose proof (quiet_handle N e c k ev t Ht Hev) as Ht1.
    destruct (Spec.handle N ev t) as [out t1]; cbn [snd] in Ht1.
    specialize (IH (k - tick_count [ev])%nat t1).
    destruct (Spec.run N evs t1) as [outs t2]; cbn [snd] in *.
    rewrite Hs in *. rewrite Nat.sub_add_distr. apply IH; [apply Ht1|..]; (done || lia).
Qed.

Lemma spec_run_snoc N evs ev t :
  Spec.run N (evs ++ [ev]) t =
    ((Spec.run N evs t).1 ++ [(Spec.handle N ev (Spec.run N evs t).2).1],
     (Spec.handle N ev (Spec.run N evs t).2).2).
Proof.
  revert t. induction evs as [|ev' evs IH]; intros t; cbn.
  - by destruct (Spec.handle N ev t).
  - destruct (Spec.handle N ev' t) as [o t1]. rewrite IH.
    by destruct (Spec.run N evs t1).
Qed.

Lemma spec_next_id N evs : ∀ t,
  (∀ e, is_Some (Spec.ttl t !! e) → (e < Spec.next_id t)%nat) →
  ∀ e, is_Some (Spec.ttl (Spec.run N evs t).2 !! e) →
       (e < Spec.next_id (Spec.run N evs t).2)%nat.
Proof.
  induction evs as [|ev evs IH]; intros t Ht; [done|]. cbn [Spec.run].
  assert (∀ e, is_Some (Spec.ttl (Spec.handle N ev t).2 !! e) →
            (e < Spec.next_id (Spec.handle N ev t).2)%nat) as Ht1.
  { destruct ev as [c|e'| |c|]; cbn; intros e He; try by apply Ht.
    - destruct (decide (e = Spec.next_id t)) as [->|]; [lia|].
      rewrite lookup_insert_ne in He by done. specialize (Ht e He). lia.
    - apply Ht. rewrite lookup_alter in He. case_decide; subst; [|done].
      by destruct (Spec.ttl t !! e); [|destruct He].
    - destruct (Spec.ticking t); [|by apply Ht].
      destruct (Spec.on t); cbn in *; [|by apply Ht].
      rewrite countdown_lookup in He. apply Ht.
      by destruct (Spec.ttl t !! e); [|destruct He]. }
  specialize (IH _ Ht1).
  destruct (Spec.handle N ev t) as [o t1]; cbn [snd] in *.
  by destruct (Spec.run N evs t1).
Qed.

(** A reachable running wheel in which [e] belongs to the live connection [c]. *)
Lemma reached_ticking idle pre e c s0 s1 outs :
  idle ≤ max_size → boot idle = Ok s0 → run pre s0 = Ok (outs, s1) →
  running_ (wheel s1) = true → ticker s1 = TickWaiting →
  entries (wheel s1) !! e = Some c → c ∈ live s1 →
  ∃ t, related (ticks idle) s1 t ∧
    ticking_down e c (ticks idle) (Spec.handle (ticks idle) (EvData e) t).2.
Proof.
  intros Hmax Hboot Hrun Hon Htk He Hc.
  destruct (boot_related idle Hmax) as (s & Hs & Hr0). rewrite Hboot in Hs.
  injection Hs as ->.
  destruct (run_related (ticks idle) pre _ _ Hr0) as (s' & Hs' & Hr1).
  rewrite Hrun in Hs'. injection Hs' as -> ->.
  eexists. split; [done|]. set (t := (Spec.run _ _ _).2) in *.
  assert (∃ k, Spec.ttl t !! e = Some (c, k)) as [k Hk].
  { destruct Hr1. rewrite rel_entries0 in He.
    destruct (Spec.ttl t !! e) as [[c' k]|]; cbn in He; naive_solver. }
  assert (e < Spec.next_id t)%nat.
  { apply spec_next_id; [|by exists (c, k)]. cbn. intros e' He'.
    rewrite lookup_empty in He'. by destruct He'. }
  destruct Hr1. unfold ticking_down. cbn. rewrite lookup_alter_eq, Hk.
  split_and!; [done|done|congruence..].
Qed.

(** ** Properties *)

(** C14: The wheel of buckets implements a countdown: started with any idle
    timeout and driven by any sequence of registrations, data, ticks, closes and
    stop, it never fails and shuts down, at each event, exactly the live
    connections whose entry has seen N ticks since it was registered or last
    renewed, where N is the number of buckets. *)
Theorem wheel_refines_countdown idle evs :
  idle ≤ max_size →
  ∃ s0 s', boot idle = Ok s0 ∧
    run evs s0 = Ok ((Spec.run (ticks idle) evs Spec.boot).1, s') ∧
    ∀ e, entries (wheel s') !! e =
         fst <$> Spec.ttl (Spec.run (ticks idle) evs Spec.boot).2 !! e.
Proof.
  intros Hmax. destruct (boot_related idle Hmax) as (s0 & ? & Hr0).
  destruct (run_related (ticks idle) evs _ _ Hr0) as (s' & ? & Hr').
  exists s0, s'. split_and!; [done..|apply Hr'].
Qed.

(** Data on a connection buys it N ticks, N being the idle timeout in seconds
    (1 if it is not positive): its entry survives any events with fewer than N
    ticks that do not renew it, and the N-th tick destroys the entry and shuts
    the connection down.  The first of these ticks may follow the data at once. *)
Theorem idle_eviction_time idle pre mid e c s0 s1 outs :
  idle ≤ max_size → boot idle = Ok s0 → run pre s0 = Ok (outs, s1) →
  running_ (wheel s1) = true → ticker s1 = TickWaiting →
  entries (wheel s1) !! e = Some c → c ∈ live s1 → Forall (quiet e c) mid →
  ((tick_count mid < ticks idle)%nat →
     ∃ outs2 s2, run (EvData e :: mid) s1 = Ok (outs2, s2) ∧
       entries (wheel s2) !! e = Some c) ∧
  (S (tick_count mid) = ticks idle →
     ∃ outs2 out s2, run ((EvData e :: mid) ++ [EvTick]) s1 = Ok (outs2 ++ [out], s2) ∧
       c ∈ out ∧ entries (wheel s2) !! e = None).
Proof.
  intros Hmax Hboot Hrun Hon Htk He Hc Hq.
  destruct (reached_ticking idle pre e c s0 s1 outs) as (t & Hr & Ht); [done..|].
  set (N := ticks idle) in *.
  assert (Spec.run N (EvData e :: mid) t =
    (∅ :: (Spec.run N mid (Spec.handle N (EvData e) t).2).1,
     (Spec.run N mid (Spec.handle N (EvData e) t).2).2)) as Hsp.
  { cbn. by destruct (Spec.run N mid _). }
  split; intros Hk.
  - destruct (run_related N (EvData e :: mid) _ _ Hr) as (s2 & Hs2 & Hr2).
    eexists _, s2. split; [done|]. rewrite (rel_entries _ _ _ Hr2), Hsp. cbn [snd].
    by rewrite (proj1 (quiet_run N e c mid N _ Ht Hq Hk)).
  - pose proof (quiet_run N e c mid N _ Ht Hq ltac:(lia)) as Hend.
    replace (N - tick_count mid)%nat with 1%nat in Hend by lia.
    destruct (run_related N ((EvData e :: mid) ++ [EvTick]) _ _ Hr) as (s2 & Hs2 & Hr2).
    rewrite spec_run_snoc, Hsp in Hs2, Hr2. cbn [fst snd] in *.
    destruct Hend as (Hend & _ & Hlive & Hon' & Htk').
    set (t2 := (Spec.run N mid _).2) in *.
    cbn [Spec.handle] in Hs2, Hr2. rewrite Htk', Hon' in Hs2, Hr2. cbn [fst snd] in *.
    eexists _, _, s2. split_and!; [done| |].
    + apply elem_of_intersection. split; [|done]. apply elem_of_expired. by exists e.
    + rewrite (rel_entries _ _ _ Hr2). cbn. by rewrite countdown_lookup, Hend.
Qed.
End refinement.

(** ** Witnesses: the wheel over [CircularBuffer] *)

#[local] Instance bucket_ring : Window Bucket (CircularBuffer Bucket) ∅ :=
  circular_window ∅.

Lemma wheel_refines_countdown_witness :
  ∃ s0 s' : world (CircularBuffer Bucket), boot 2 = Ok s0 ∧
    run [EvRegister 7%nat; EvTick; EvData 0%nat; EvTick; EvTick] s0 =
      Ok ([∅; ∅; ∅; ∅; {[7%nat]}], s').
Proof.
  destruct (wheel_refines_countdown (R:=CircularBuffer Bucket) 2
    [EvRegister 7%nat; EvTick; EvData 0%nat; EvTick; EvTick])
    as (s0 & s' & ? & ? & _); [vm_compute; congruence|].
  by exists s0, s'.
Defined.

Lemma idle_eviction_time_witness :
  ∃ s0 s1 outs2 out s2,
    boot (R:=CircularBuffer Bucket) 1 = Ok s0 ∧ run [EvRegister 7%nat] s0 = Ok ([∅], s1) ∧
    run [EvData 0%nat; EvTick] s1 = Ok (outs2 ++ [out], s2) ∧ 7%nat ∈ out.
Proof.
  eexists _, _.
  destruct (idle_eviction_time (R:=CircularBuffer Bucket) 1 [EvRegister 7%nat] []
    0%nat 7%nat _ _ _ ltac:(vm_compute; congruence) eq_refl eq_refl eq_refl eq_refl
    eq_refl ltac:(set_solver) (List.Forall_nil _)) as [_ Hev].
  destruct (Hev eq_refl) as (outs2 & out & s2 & Hrun & Hout & _).
  exists outs2, out, s2. by split_and!.
Defined.
