(* ===== verification/BufferPool.v ===== *)
(** * BufferPool: the registered buffer pool of a worker

    Models [include/coro_net/registered_buffer_pool.hpp].  The arena is a range
    of addresses from offset 0; [posix_memalign] and [io_uring_register_buffers]
    are parameters of the constructor, whose outcome they decide.  The free list
    is a stack whose top is the back of the vector.  [buffer_pool_slots] shows
    that an enabled pool implements [Interfaces.SlotPool]. *)
From S2P Require Import Prelude Interfaces.

Definition kMaxRegBuffers : Z := Z.shiftl 1 14.

Record RegisteredBufferPool := mkPool {
  arena_ : bool;           (* non-null *)
  slot_size_ : Z;
  capacity_ : Z;
  free_list_ : list Z;
  enabled_ : bool;
  reg_errno_ : Z;
}.

(** An [iovec]: base, as an offset from the arena, and length. *)
Definition iovec : Type := Z * Z.

(** The byte offset of slot [idx], computed in [size_t]. *)
Definition slot_off (slot_size idx : Z) : Z := u64 (idx * slot_size).
Definition slot_ptr (p : RegisteredBufferPool) (idx : Z) : Z :=
  slot_off (slot_size_ p) idx.

(** [for (i = 0; i < capacity_; ++i) iovs[i] = ...]. *)
Definition iovs (capacity slot_size : Z) : list iovec :=
  (λ i, (slot_off slot_size i, slot_size)) <$> seqZ 0 capacity.

(** [for (int i = n - 1; i >= 0; --i) free_list_.push_back(i)]. *)
Fixpoint fill_free_list (n : nat) (free : list Z) : list Z :=
  match n with
  | O => free
  | S i => fill_free_list i (free ++ [Z.of_nat i])
  end.

(** The constructor.  [memalign total] tells whether the allocation succeeds,
    [register v] is the return value of [io_uring_register_buffers]. *)
Definition new_pool (memalign : Z → bool) (register : list iovec → Z)
    (capacity slot_size : Z) : RegisteredBufferPool :=
  let off c := mkPool false slot_size c [] false 0 in
  if (capacity =? 0) || (slot_size =? 0) then off capacity else
  let cap := if kMaxRegBuffers <? capacity then kMaxRegBuffers else capacity in
  let total := u64 (cap * slot_size) in
  if negb (memalign total) then off cap else
  let ret := register (iovs cap slot_size) in
  if ret <? 0 then mkPool false slot_size cap [] false (- ret) else
  mkPool true slot_size cap (fill_free_list (Z.to_nat cap) []) true 0.

Definition acquire (p : RegisteredBufferPool) : Z * RegisteredBufferPool :=
  if negb (enabled_ p) then (-1, p) else
  match last (free_list_ p) with
  | None => (-1, p)
  | Some idx =>
      (idx, mkPool (arena_ p) (slot_size_ p) (capacity_ p)
              (removelast (free_list_ p)) (enabled_ p) (reg_errno_ p))
  end.

Definition release (idx : Z) (p : RegisteredBufferPool) : RegisteredBufferPool :=
  if idx <? 0 then p else
  mkPool (arena_ p) (slot_size_ p) (capacity_ p)
    (free_list_ p ++ [idx]) (enabled_ p) (reg_errno_ p).

(** ** Invariant: the slots are split between the free list and the holders *)

Definition inv (held : list Z) (p : RegisteredBufferPool) : Prop :=
  enabled_ p = true ∧ free_list_ p ++ held ≡ₚ seqZ 0 (capacity_ p) ∧ 0 < capacity_ p.

Lemma fill_free_list_perm n : ∀ free,
  fill_free_list n free ≡ₚ free ++ seqZ 0 (Z.of_nat n).
Proof.
  induction n as [|n IH]; intros free; [cbn; by rewrite app_nil_r|].
  cbn [fill_free_list]. rewrite IH.
  replace (Z.of_nat (S n)) with (Z.of_nat n + 1) by lia.
  rewrite seqZ_app by lia. cbn. rewrite <-app_assoc.
  apply Permutation_app_head, Permutation_app_comm.
Qed.

Lemma bp_held_ok held p :
  inv held p → NoDup held ∧ Forall (λ i, 0 ≤ i < capacity_ p) held.
Proof.
  intros (_ & Hperm & _). split.
  - assert (NoDup (free_list_ p ++ held)) as Hnd
      by (rewrite Hperm; apply NoDup_seqZ).
    by apply NoDup_app in Hnd as (_ & _ & ?).
  - apply Forall_forall. intros i Hi.
    assert (i ∈ free_list_ p ++ held) as Hin by (apply elem_of_app; by right).
    rewrite Hperm in Hin. apply elem_of_seqZ in Hin. lia.
Qed.

Lemma bp_acquire_ok held p :
  inv held p →
  let '(idx, p') := acquire p in
  capacity_ p' = capacity_ p ∧
  ((0 ≤ idx ∧ inv (idx :: held) p') ∨
   (idx = -1 ∧ inv held p' ∧ zlen held = capacity_ p)).
Proof.
  intros Hinv. pose proof Hinv as (Hen & Hperm & Hcap). unfold acquire. rewrite Hen.
  cbn [negb]. destruct (last (free_list_ p)) as [idx|] eqn:Hl.
  - apply last_Some in Hl as [l Hl]. rewrite Hl, removelast_last in *.
    assert (inv (idx :: held) (mkPool (arena_ p) (slot_size_ p) (capacity_ p) l
              (enabled_ p) (reg_errno_ p))) as Hinv'.
    { split_and!; cbn; [done| |done]. rewrite <-Hperm, <-app_assoc. done. }
    split; [done|]. left. split; [|by rewrite Hen in Hinv'].
    pose proof (bp_held_ok _ _ Hinv') as [_ Hin].
    inversion Hin; subst. cbn in *. lia.
  - split; [done|]. right. split_and!; [done..|].
    apply last_None in Hl. rewrite Hl in Hperm. cbn in Hperm.
    unfold zlen. rewrite Hperm, length_seqZ. lia.
Qed.

Lemma bp_release_ok held1 held2 idx p :
  inv (held1 ++ idx :: held2) p →
  inv (held1 ++ held2) (release idx p) ∧ capacity_ (release idx p) = capacity_ p.
Proof.
  intros Hinv. pose proof (bp_held_ok _ _ Hinv) as [_ Hin].
  apply Forall_app in Hin as [_ Hin]. inversion Hin; subst.
  destruct Hinv as (Hen & Hperm & Hcap). unfold release.
  destruct (Z.ltb_spec idx 0); [lia|]. split; [|done].
  split_and!; cbn; [done| |done]. rewrite <-Hperm, <-app_assoc. cbn.
  apply Permutation_app_head, Permutation_middle.
Qed.

#[export] Instance buffer_pool_slots : SlotPool RegisteredBufferPool := {
  pool_acquire := acquire;
  pool_release := release;
  pool_capacity := capacity_;
  pool_inv := inv;
  pool_held_ok := bp_held_ok;
  pool_acquire_ok := bp_acquire_ok;
  pool_release_ok := bp_release_ok;
}.

(** ** The constructor and the arena *)

(** The slot count after the clamp to [kMaxRegBuffers]. *)
Definition clamped (capacity : Z) : Z := Z.min capacity kMaxRegBuffers.

Lemma clamped_bounds capacity : 0 < capacity → 0 < clamped capacity ≤ 16384.
Proof.
  unfold clamped. replace kMaxRegBuffers with 16384 by reflexivity. lia.
Qed.

Lemma new_pool_enabled memalign register capacity slot_size :
  0 < capacity → 0 < slot_size →
  let v := iovs (clamped capacity) slot_size in
  memalign (u64 (clamped capacity * slot_size)) = true → 0 ≤ register v →
  let p := new_pool memalign register capacity slot_size in
  inv [] p ∧ capacity_ p = clamped capacity ∧ slot_size_ p = slot_size.
Proof.
  intros Hc Hs v Hm Hr. unfold new_pool.
  assert ((if kMaxRegBuffers <? capacity then kMaxRegBuffers else capacity)
          = clamped capacity) as ->
    by (unfold clamped; destruct (Z.ltb_spec kMaxRegBuffers capacity); lia).
  rewrite (proj2 (Z.eqb_neq capacity 0)), (proj2 (Z.eqb_neq slot_size 0)) by lia.
  cbn [orb]. rewrite Hm. cbn [negb].
  destruct (Z.ltb_spec (register v) 0) as [|_]; [lia|]. fold v.
  destruct (Z.ltb_spec (register v) 0); [lia|].
  pose proof (clamped_bounds capacity Hc).
  split_and!; [|done..]. unfold inv. split_and!; cbn; [done| |lia].
  rewrite fill_free_list_perm, app_nil_r. cbn. by rewrite Z2Nat.id by lia.
Qed.

Lemma new_pool_disabled memalign register capacity slot_size :
  let p := new_pool memalign register capacity slot_size in
  enabled_ p = false → acquire p = (-1, p).
Proof. intros p Hp. unfold acquire. by rewrite Hp. Qed.

(** Offsets do not wrap, and the registered vectors are the slots. *)
Lemma slot_off_exact cap slot_size i :
  0 ≤ cap ≤ 16384 → 0 < slot_size < u32_mod → 0 ≤ i ≤ cap →
  slot_off slot_size i = i * slot_size.
Proof.
  intros Hc Hs Hi. unfold slot_off. apply u64_small.
  rewrite u64_mod_val. rewrite u32_mod_val in Hs. nia.
Qed.

Lemma iovs_lookup cap slot_size i :
  0 ≤ i < cap → iovs cap slot_size !! Z.to_nat i = Some (slot_off slot_size i, slot_size).
Proof.
  intros Hi. unfold iovs. rewrite list_lookup_fmap, lookup_seqZ_lt by lia. cbn.
  do 3 f_equal. lia.
Qed.

Lemma acquire_slot_size p : slot_size_ (acquire p).2 = slot_size_ p.
Proof. unfold acquire. by destruct (enabled_ p), (last (free_list_ p)). Qed.
Lemma release_slot_size i p : slot_size_ (release i p) = slot_size_ p.
Proof. unfold release. by destruct (i <? 0). Qed.

(** ** Clients that release only what they hold *)

Inductive client_op : Type := CAcquire | CRelease (idx : Z).

(** One call of a client holding [held]; [None] if it breaks the discipline. *)
Definition client_step (o : client_op) (s : list Z * RegisteredBufferPool)
    : option (Z * (list Z * RegisteredBufferPool)) :=
  let '(held, p) := s in
  match o with
  | CAcquire =>
      let '(idx, p) := acquire p in
      Some (idx, (if idx <? 0 then held else idx :: held, p))
  | CRelease idx =>
      if decide (idx ∈ held)
      then Some (idx, (filter (.≠ idx) held, release idx p)) else None
  end.

Fixpoint client_run (os : list client_op) (s : list Z * RegisteredBufferPool)
    : option (list Z * RegisteredBufferPool) :=
  match os with
  | [] => Some s
  | o :: os => '(_, s) ← client_step o s; client_run os s
  end.

Lemma filter_ne_notin (l : list Z) i : i ∉ l → filter (.≠ i) l = l.
Proof.
  induction l as [|x l IH]; intros Hi; [done|].
  rewrite filter_cons_True by set_solver. by rewrite IH by set_solver.
Qed.

Lemma client_step_inv o held p idx held' p' :
  inv held p → client_step o (held, p) = Some (idx, (held', p')) →
  inv held' p' ∧ capacity_ p' = capacity_ p ∧
  (o = CAcquire → if decide (zlen held = capacity_ p) then idx = -1
                  else 0 ≤ idx < capacity_ p ∧ idx ∉ held).
Proof.
  intros Hinv. destruct o as [|i]; cbn.
  - pose proof (bp_acquire_ok held p Hinv) as Hacq.
    destruct (acquire p) as [idx0 p0]. intros [= -> <- <-].
    destruct Hacq as [Hcap [[Hi Hinv']|(-> & Hinv' & Hz)]].
    + destruct (Z.ltb_spec idx 0); [lia|]. split_and!; [done..|]. intros _.
      pose proof (bp_held_ok _ _ Hinv') as [Hnd Hin].
      apply NoDup_cons in Hnd as [Hni _]. apply Forall_cons in Hin as [? _].
      rewrite decide_False; [split; [lia|done]|]. intros Hz.
      destruct Hinv' as (_ & Hperm & _). apply Permutation_length in Hperm.
      rewrite length_app, length_seqZ in Hperm. unfold zlen in Hz. cbn in Hperm. lia.
    + cbn. split_and!; [done..|]. intros _. by rewrite decide_True.
  - case_decide as Hi; [|done]. intros [= <- <- <-].
    apply list_elem_of_split in Hi as (h1 & h2 & ->).
    pose proof (bp_held_ok _ _ Hinv) as [Hnd _].
    apply NoDup_app in Hnd as (Hnd1 & Hdis & Hnd2). apply NoDup_cons in Hnd2 as [Hn2 _].
    rewrite filter_app, filter_cons_False by naive_solver.
    rewrite !filter_ne_notin by (set_solver).
    destruct (bp_release_ok h1 h2 i p Hinv) as [? ?]. by split_and!.
Qed.

Lemma client_run_inv os : ∀ held p held' p',
  inv held p → client_run os (held, p) = Some (held', p') →
  inv held' p' ∧ capacity_ p' = capacity_ p.
Proof.
  induction os as [|o os IH]; intros held p held' p' Hinv; cbn.
  - by intros [= -> ->].
  - intros ([idx [h1 p1]] & Hs & Hr)%bind_Some. destruct (client_step_inv _ _ _ _ _ _ Hinv Hs) as (Hinv1 & Hc1 & _).
    destruct (IH _ _ _ _ Hinv1 Hr) as [? ?]. split; [done|congruence].
Qed.

(** ** Properties *)

(** Once registration succeeds, whatever sequence of acquires and releases
    (of held slots) the clients perform, the slots held are pairwise distinct,
    held and free slots together are all the slots, and the next acquire returns
    -1 exactly when every slot is held and otherwise a slot nobody holds. *)
Theorem pool_hands_out_distinct_slots memalign register capacity slot_size os held p :
  0 < capacity → 0 < slot_size →
  memalign (u64 (clamped capacity * slot_size)) = true →
  0 ≤ register (iovs (clamped capacity) slot_size) →
  client_run os ([], new_pool memalign register capacity slot_size) = Some (held, p) →
  NoDup held ∧ zlen held + zlen (free_list_ p) = clamped capacity ∧
  if decide (zlen held = clamped capacity) then acquire p = (-1, p)
  else 0 ≤ (acquire p).1 < clamped capacity ∧ (acquire p).1 ∉ held.
Proof.
  intros Hc Hs Hm Hr Hrun.
  destruct (new_pool_enabled memalign register capacity slot_size)
    as (Hinv0 & Hcap & _); [done..|].
  destruct (client_run_inv _ _ _ _ _ Hinv0 Hrun) as [Hinv Hcap'].
  rewrite Hcap in Hcap'. pose proof (bp_held_ok _ _ Hinv) as [Hnd _].
  pose proof Hinv as (Hen & Hperm & ?). apply Permutation_length in Hperm.
  rewrite length_app, length_seqZ in Hperm.
  split_and!; [done|unfold zlen; lia|].
  destruct (acquire p) as [idx p'] eqn:Hacq.
  assert (client_step CAcquire (held, p) =
    Some (idx, (if idx <? 0 then held else idx :: held, p'))) as Hstep
    by (cbn; by rewrite Hacq).
  destruct (client_step_inv _ _ _ _ _ _ Hinv Hstep) as (_ & _ & Hi).
  specialize (Hi eq_refl). rewrite Hcap' in Hi.
  case_decide; [|done]. unfold acquire in Hacq. rewrite Hen in Hacq. cbn in Hacq.
  subst idx. unfold zlen in *.
  destruct (free_list_ p) eqn:Hf; [by cbn in Hacq|cbn in Hperm; lia].
Qed.

Lemma pool_hands_out_distinct_slots_witness :
  let p0 := new_pool (λ _, true) (λ _, 0) 3 16 in
  ∃ held p, client_run [CAcquire; CAcquire; CRelease 0; CAcquire] ([], p0) = Some (held, p) ∧
    NoDup held ∧ (acquire p).1 ∉ held.
Proof.
  eexists _, _. split; [reflexivity|].
  destruct (pool_hands_out_distinct_slots (λ _, true) (λ _, 0) 3 16
    [CAcquire; CAcquire; CRelease 0; CAcquire] _ _ ltac:(lia) ltac:(lia) eq_refl
    ltac:(lia) eq_refl) as (Hnd & _ & Hacq).
  split; [exact Hnd|]. exact (proj2 Hacq).
Defined.

(** The slots tile the arena: the address computed for a slot is the one that
    was registered under its index, no [size_t] product wraps, every slot lies
    inside the allocation and two different slots share no byte. *)
Theorem slots_tile_arena memalign register capacity slot_size i j :
  0 < capacity → 0 < slot_size < u32_mod →
  let cap := clamped capacity in
  memalign (u64 (cap * slot_size)) = true → 0 ≤ register (iovs cap slot_size) →
  0 ≤ i < cap → 0 ≤ j < cap → i ≠ j →
  let p := new_pool memalign register capacity slot_size in
  iovs cap slot_size !! Z.to_nat i = Some (slot_ptr p i, slot_size_ p) ∧
  0 ≤ slot_ptr p i ∧ slot_ptr p i + slot_size_ p ≤ u64 (cap * slot_size) ∧
  (slot_ptr p i + slot_size_ p ≤ slot_ptr p j ∨
   slot_ptr p j + slot_size_ p ≤ slot_ptr p i).
Proof.
  intros Hc Hs cap Hm Hr Hi Hj Hij p.
  destruct (new_pool_enabled memalign register capacity slot_size)
    as (_ & Hcap & Hss); [lia|lia|done..|]. fold p in Hcap, Hss.
  pose proof (clamped_bounds capacity Hc). fold cap in H.
  unfold slot_ptr. rewrite Hss.
  rewrite !(slot_off_exact cap) by lia. change (u64 (cap * slot_size)) with (slot_off slot_size cap).
  rewrite (slot_off_exact cap) by lia.
  split_and!; [|nia..|nia]. by rewrite iovs_lookup, (slot_off_exact cap) by lia.
Qed.

Lemma slots_tile_arena_witness :
  let p := new_pool (λ _, true) (λ _, 0) 8 4096 in
  iovs 8 4096 !! 6%nat = Some (slot_ptr p 6, slot_size_ p) ∧
  slot_ptr p 6 + slot_size_ p ≤ slot_ptr p 7.
Proof.
  destruct (slots_tile_arena (λ _, true) (λ _, 0) 8 4096 6 7) as (H1 & _ & _ & [H|H]);
    try (vm_compute; intuition congruence);
    split; try exact H1; revert H; vm_compute; intuition congruence.
Defined.
