(* ===== verification/TimerQueue.v ===== *)
(** * TimerQueue: the per-worker timers

    Models [include/coro_net/timer/] and [src/timer/timer_queue.cc]: the ordered
    set [timers_], the index [active_], the batch run by [handle_expired] with
    callbacks that call back into the queue, and the arming of the timerfd.

    [Timer] objects live on an explicit heap: dereferencing or deleting a
    pointer that is not allocated is [UB].  Addresses are reused freely: the
    allocator is any function that returns an unallocated address.  A callback is
    a [prog]: the calls it makes on the queue, each continuation depending on the
    result, and the state [W] that the callbacks share.  Time points and
    intervals are nanosecond counts in [Z]; sequence numbers are not wrapped (a
    64-bit counter does not wrap within 2^64 timers). *)
From Stdlib Require Import Sorted.
From S2P Require Import Prelude.

Abbreviation addr := Z (only parsing).
Abbreviation seqno := Z (only parsing).

(** [TimerId]: a pointer, null for the default one, and a sequence number. *)
Record TimerId := mkTimerId { timer_ : option addr; seq_ : seqno }.
Definition null_id : TimerId := mkTimerId None 0.
Definition valid (id : TimerId) : bool :=
  match timer_ id with Some _ => true | None => false end.

(** The timerfd: disarmed, or armed at a clock reading with a relative
    [it_value]. *)
Inductive timerfd : Type :=
  | Disarmed
  | Armed (now tv_sec tv_nsec : Z).

(** What can be observed of a run: timers created, cancelled and fired. *)
Inductive obs : Type :=
  | Added (s : seqno)
  | Cancelled (s : seqno)
  | Fired (s : seqno).

#[export] Instance obs_eq_dec : EqDecision obs.
Proof. solve_decision. Defined.

Section timer_queue.
(** The callbacks, the state they share, the clock and the allocator. *)
Context {Cb W : Type}.

Inductive prog : Type :=
  | Ret (w : W)
  | Raise (w : W)
  | CallAdd (cb : Cb) (delay : Z) (k : TimerId → prog)
  | CallAddPeriodic (cb : Cb) (interval : Z) (k : TimerId → prog)
  | CallCancel (id : TimerId) (k : prog).

Record Timer := mkTimer {
  callback_ : Cb;
  expiration_ : Z;
  interval_ : Z;
  repeat_ : bool;
  sequence_ : seqno;
}.

(** The constructor of [Timer]. *)
Definition new_Timer (cb : Cb) (when interval : Z) (seq : seqno) : Timer :=
  mkTimer cb when interval (0 <? interval) seq.

Definition restart (now : Z) (t : Timer) : Timer :=
  mkTimer (callback_ t) (now + interval_ t) (interval_ t) (repeat_ t) (sequence_ t).

Record TimerQueue := mkTQ {
  heap : gmap addr Timer;           (* the Timer objects allocated *)
  timers_ : list (Z * addr);        (* std::set<Entry>, in order *)
  active_ : gmap seqno addr;
  next_seq_ : seqno;
  calling_expired_ : bool;
  canceling_seqs_ : list seqno;
  timerfd_ : timerfd;
  reads : nat;                      (* steady_clock::now() calls so far *)
}.

Context (steady : nat → Z) (malloc : gmap addr Timer → addr) (body : Cb → W → prog).

Definition empty_queue : TimerQueue := mkTQ ∅ [] ∅ 1 false [] Disarmed 0.

(** [steady_clock::now()]: the next reading. *)
Definition now (q : TimerQueue) : Z := steady (reads q).
Definition tick (q : TimerQueue) : TimerQueue :=
  mkTQ (heap q) (timers_ q) (active_ q) (next_seq_ q) (calling_expired_ q)
    (canceling_seqs_ q) (timerfd_ q) (S (reads q)).
Definition set_timerfd (f : timerfd) (q : TimerQueue) : TimerQueue :=
  mkTQ (heap q) (timers_ q) (active_ q) (next_seq_ q) (calling_expired_ q)
    (canceling_seqs_ q) f (reads q).
Definition set_calling (b : bool) (q : TimerQueue) : TimerQueue :=
  mkTQ (heap q) (timers_ q) (active_ q) (next_seq_ q) b
    (canceling_seqs_ q) (timerfd_ q) (reads q).
Definition set_canceling (l : list seqno) (q : TimerQueue) : TimerQueue :=
  mkTQ (heap q) (timers_ q) (active_ q) (next_seq_ q) (calling_expired_ q)
    l (timerfd_ q) (reads q).
Definition set_index (ts : list (Z * addr)) (ac : gmap seqno addr) (q : TimerQueue)
    : TimerQueue :=
  mkTQ (heap q) ts ac (next_seq_ q) (calling_expired_ q)
    (canceling_seqs_ q) (timerfd_ q) (reads q).
Definition set_heap (h : gmap addr Timer) (q : TimerQueue) : TimerQueue :=
  mkTQ h (timers_ q) (active_ q) (next_seq_ q) (calling_expired_ q)
    (canceling_seqs_ q) (timerfd_ q) (reads q).

(** Dereferencing and deleting a [Timer*]. *)
Definition deref (p : addr) (q : TimerQueue) : res Timer :=
  match heap q !! p with Some t => Ok t | None => UB end.
Definition free (p : addr) (q : TimerQueue) : res TimerQueue :=
  match heap q !! p with
  | Some _ => Ok (set_heap (delete p (heap q)) q)
  | None => UB
  end.

(** [std::pair]'s lexicographic [<], [std::set]'s [insert] and [erase]. *)
Definition entry_ltb (a b : Z * addr) : bool :=
  (a.1 <? b.1) || ((a.1 =? b.1) && (a.2 <? b.2)).
Fixpoint set_insert (x : Z * addr) (l : list (Z * addr)) : list (Z * addr) :=
  match l with
  | [] => [x]
  | y :: l' => if entry_ltb x y then x :: l
               else if entry_ltb y x then y :: set_insert x l' else l
  end.
Fixpoint set_erase (x : Z * addr) (l : list (Z * addr)) : list (Z * addr) :=
  match l with
  | [] => []
  | y :: l' => if entry_ltb x y then l
               else if entry_ltb y x then y :: set_erase x l' else l'
  end.

(** [reset_timerfd(when)]: relative, clamped to at least one nanosecond because
    the kernel reads a zero [it_value] as a disarm. *)
Definition reset_timerfd (when : Z) (q : TimerQueue) : TimerQueue :=
  let n := now q in
  let delta := when - n in
  let ns := if delta <=? 0 then 1 else delta in
  set_timerfd (Armed n (Z.quot ns 1000000000) (Z.rem ns 1000000000)) (tick q).
Definition disarm_timerfd (q : TimerQueue) : TimerQueue := set_timerfd Disarmed q.

(** [if (timers_.empty()) disarm_timerfd(); else reset_timerfd(begin()->first)]. *)
Definition rearm (q : TimerQueue) : TimerQueue :=
  match timers_ q with
  | [] => disarm_timerfd q
  | (when, _) :: _ => reset_timerfd when q
  end.

(** The common body of [add] and [add_periodic], which differ only in the
    interval given to the [Timer]. *)
Definition add_timer (cb : Cb) (delay interval : Z) (q : TimerQueue)
    : TimerId * TimerQueue :=
  let when := now q + delay in
  let q := tick q in
  let seq := next_seq_ q in
  let t := malloc (heap q) in
  let new_top :=
    match timers_ q with [] => true | (first, _) :: _ => when <? first end in
  let q := mkTQ (<[t := new_Timer cb when interval seq]> (heap q))
             (set_insert (when, t) (timers_ q)) (<[seq := t]> (active_ q))
             (seq + 1) (calling_expired_ q) (canceling_seqs_ q)
             (timerfd_ q) (reads q) in
  (mkTimerId (Some t) seq, if new_top then reset_timerfd when q else q).

Definition add (cb : Cb) (delay : Z) (q : TimerQueue) : TimerId * TimerQueue :=
  add_timer cb delay 0 q.
Definition add_periodic (cb : Cb) (interval : Z) (q : TimerQueue)
    : TimerId * TimerQueue :=
  add_timer cb interval interval q.

Definition cancel (id : TimerId) (q : TimerQueue) : res TimerQueue :=
  let note q :=
    if calling_expired_ q then set_canceling (canceling_seqs_ q ++ [seq_ id]) q
    else q in
  if negb (valid id) then Ok q else
  match active_ q !! seq_ id with
  | None => Ok (note q)
  | Some t =>
      let was_top := match timers_ q with [] => false | (_, p) :: _ => p =? t end in
      tm ← deref t q;
      let q := set_index (set_erase (expiration_ tm, t) (timers_ q))
                 (delete (seq_ id) (active_ q)) q in
      let q := note q in
      q ← free t q;
      Ok (if was_top then rearm q else q)
  end.

(** A callback's run: an exception ends it and is caught by [handle_expired]. *)
Fixpoint run_prog (p : prog) (q : TimerQueue) : res (list obs * W * TimerQueue) :=
  match p with
  | Ret w | Raise w => Ok ([], w, q)
  | CallAdd cb delay k =>
      let '(id, q) := add cb delay q in
      '(o, w, q) ← run_prog (k id) q;
      Ok (Added (seq_ id) :: o, w, q)
  | CallAddPeriodic cb interval k =>
      let '(id, q) := add_periodic cb interval q in
      '(o, w, q) ← run_prog (k id) q;
      Ok (Added (seq_ id) :: o, w, q)
  | CallCancel id k =>
      q ← cancel id q;
      '(o, w, q) ← run_prog k q;
      Ok (if valid id then Cancelled (seq_ id) :: o else o, w, q)
  end.

(** The first loop of [handle_expired]: pop the due timers.  Each turn removes
    one entry, so [length (timers_ q)] turns are enough. *)
Fixpoint pop_expired (fuel : nat) (now : Z) (q : TimerQueue)
    : res (list addr * TimerQueue) :=
  match fuel, timers_ q with
  | O, _ | _, [] => Ok ([], q)
  | S fuel, (when, p) :: rest =>
      if now <? when then Ok ([], q) else
      t ← deref p q;
      '(expired, q) ← pop_expired fuel now
        (set_index rest (delete (sequence_ t) (active_ q)) q);
      Ok (p :: expired, q)
  end.

(** The second loop: run the callbacks. *)
Fixpoint run_callbacks (expired : list addr) (w : W) (q : TimerQueue)
    : res (list obs * W * TimerQueue) :=
  match expired with
  | [] => Ok ([], w, q)
  | p :: expired =>
      t ← deref p q;
      '(o1, w, q) ← run_prog (body (callback_ t) w) q;
      '(o2, w, q) ← run_callbacks expired w q;
      Ok (Fired (sequence_ t) :: o1 ++ o2, w, q)
  end.

(** The third loop: reinsert the repeating timers that were not cancelled,
    delete the others. *)
Fixpoint reinsert (expired : list addr) (now : Z) (q : TimerQueue) : res TimerQueue :=
  match expired with
  | [] => Ok q
  | p :: expired =>
      t ← deref p q;
      let was_canceled := bool_decide (sequence_ t ∈ canceling_seqs_ q) in
      if repeat_ t && negb was_canceled then
        let t := restart now t in
        let q := set_heap (<[p := t]> (heap q)) q in
        reinsert expired now
          (set_index (set_insert (expiration_ t, p) (timers_ q))
             (<[sequence_ t := p]> (active_ q)) q)
      else
        q ← free p q;
        reinsert expired now q
  end.

Definition handle_expired (w : W) (q : TimerQueue) : res (list obs * W * TimerQueue) :=
  let n := now q in
  let q := tick q in
  '(expired, q) ← pop_expired (length (timers_ q)) n q;
  '(o, w, q) ← run_callbacks expired w (set_calling true q);
  q ← reinsert expired n (set_calling false q);
  Ok (o, w, rearm (set_canceling [] q)).

(** [~TimerQueue]: [for (auto& e : timers_) delete e.second]. *)
Fixpoint delete_all (l : list (Z * addr)) (q : TimerQueue) : res TimerQueue :=
  match l with
  | [] => Ok q
  | (_, p) :: l => q ← free p q; delete_all l q
  end.
Definition destroy (q : TimerQueue) : res TimerQueue := delete_all (timers_ q) q.
End timer_queue.

(** ** The ordered set *)

Definition entry_lt (a b : Z * addr) : Prop :=
  a.1 < b.1 ∨ (a.1 = b.1 ∧ a.2 < b.2).

Lemma entry_ltb_spec a b : reflect (entry_lt a b) (entry_ltb a b).
Proof.
  apply iff_reflect. unfold entry_lt, entry_ltb.
  rewrite orb_true_iff, andb_true_iff, !Z.ltb_lt, Z.eqb_eq. done.
Qed.

Lemma entry_lt_eq a b : ¬ entry_lt a b → ¬ entry_lt b a → a = b.
Proof.
  destruct a as [a1 a2], b as [b1 b2]. unfold entry_lt; cbn. intros ??.
  f_equal; lia.
Qed.

#[export] Instance entry_lt_trans : Transitive entry_lt.
Proof. intros a b c. unfold entry_lt. lia. Qed.
#[export] Instance entry_lt_irrefl : Irreflexive entry_lt.
Proof. intros a. unfold complement, entry_lt. lia. Qed.

Section ordered_set.
Implicit Types l : list (Z * addr).
Implicit Types x y : Z * addr.

Lemma elem_of_set_insert x y l : y ∈ set_insert x l ↔ y = x ∨ y ∈ l.
Proof.
  induction l as [|z l IH]; cbn [set_insert]; [set_solver|].
  destruct (entry_ltb_spec x z) as [|H1]; [set_solver|].
  destruct (entry_ltb_spec z x) as [|H2]; [set_solver|].
  rewrite (entry_lt_eq x z H1 H2). set_solver.
Qed.

Lemma set_insert_sorted x l :
  StronglySorted entry_lt l → StronglySorted entry_lt (set_insert x l).
Proof.
  induction 1 as [|z l Hs IH Hz]; cbn [set_insert]; [by repeat constructor|].
  destruct (entry_ltb_spec x z).
  - constructor; [by constructor|]. constructor; [done|].
    eapply Forall_impl; [done|]. intros y ?. by etrans.
  - destruct (entry_ltb_spec z x); [|by constructor].
    constructor; [done|]. apply Forall_forall. intros y Hy.
    apply elem_of_set_insert in Hy as [->|Hy]; [done|].
    by apply (proj1 (Forall_forall _ _) Hz).
Qed.

Lemma sorted_head_notin x l : StronglySorted entry_lt (x :: l) → x ∉ l.
Proof.
  intros Hs Hx. apply StronglySorted_inv in Hs as [_ Hall].
  rewrite Forall_forall in Hall. by apply (irreflexivity entry_lt x), Hall.
Qed.

Lemma elem_of_set_erase x y l :
  StronglySorted entry_lt l → y ∈ set_erase x l ↔ y ∈ l ∧ y ≠ x.
Proof.
  induction l as [|z l IH]; cbn [set_erase]; intros Hs; [set_solver|].
  pose proof (sorted_head_notin z l Hs) as Hnz.
  apply StronglySorted_inv in Hs as [Hs Hz]. specialize (IH Hs).
  rewrite Forall_forall in Hz.
  destruct (entry_ltb_spec x z) as [Hxz|H1].
  - split; [|naive_solver]. intros Hy. split; [done|]. intros ->.
    apply (irreflexivity entry_lt x).
    apply elem_of_cons in Hy as [->|Hy]; [done|]. etrans; [done|by apply Hz].
  - destruct (entry_ltb_spec z x) as [Hzx|H2].
    + rewrite !elem_of_cons, IH. split; [|naive_solver].
      intros [->|?]; [|naive_solver]. split; [by left|].
      intros ->. by apply (irreflexivity entry_lt x).
    + rewrite (entry_lt_eq x z H1 H2). rewrite elem_of_cons.
      split; [|naive_solver]. intros Hy. split; [by right|]. by intros ->.
Qed.

Lemma set_erase_sorted x l :
  StronglySorted entry_lt l → StronglySorted entry_lt (set_erase x l).
Proof.
  intros Hs. induction Hs as [|z l Hs IH Hz]; cbn [set_erase]; [constructor|].
  destruct (entry_ltb_spec x z); [by constructor|].
  destruct (entry_ltb_spec z x); [|done].
  constructor; [done|]. rewrite Forall_forall in *. intros y Hy.
  apply elem_of_set_erase in Hy as [? _]; [|done]. by apply Hz.
Qed.
End ordered_set.

(** ** Invariant *)

Section invariant.
Context {Cb W : Type} (steady : nat → Z) (malloc : gmap addr (@Timer Cb) → addr)
  (body : Cb → W → @prog Cb W).
Hypothesis malloc_fresh : ∀ h, h !! malloc h = None.
Implicit Types q : @TimerQueue Cb.
Implicit Types E : list addr.

(** [E] are the timers of the batch being run: allocated, but neither in
    [timers_] nor in [active_], which hold exactly the others. *)
Record inv E q : Prop := {
  i_sorted : StronglySorted entry_lt (timers_ q);
  i_entry when p :
    ((when, p) ∈ timers_ q) ↔
    ((p ∉ E) ∧ ∃ t, heap q !! p = Some t ∧ expiration_ t = when);
  i_active s p :
    (active_ q !! s = Some p) ↔
    ((p ∉ E) ∧ ∃ t, heap q !! p = Some t ∧ sequence_ t = s);
  i_batch p : p ∈ E → is_Some (heap q !! p);
  i_nodup : NoDup E;
  i_seq p t : heap q !! p = Some t → sequence_ t < next_seq_ q;
  i_inj p1 p2 t1 t2 :
    heap q !! p1 = Some t1 → heap q !! p2 = Some t2 →
    sequence_ t1 = sequence_ t2 → p1 = p2;
}.

(** What a run leaves alone: everything but the timers it cancels and those it
    adds. *)
Record frame E q (o : list obs) q' : Prop := {
  f_batch p : p ∈ E → heap q' !! p = heap q !! p;
  f_next : next_seq_ q ≤ next_seq_ q';
  f_canceling s : s ∈ canceling_seqs_ q → s ∈ canceling_seqs_ q';
  f_canceling_only s :
    s ∈ canceling_seqs_ q' → s ∈ canceling_seqs_ q ∨ Cancelled s ∈ o;
  f_calling : calling_expired_ q' = calling_expired_ q;
  f_old p t : heap q' !! p = Some t → sequence_ t < next_seq_ q → heap q !! p = Some t;
  f_keep p t : heap q !! p = Some t → Cancelled (sequence_ t) ∉ o → heap q' !! p = Some t;
  f_cancelled s :
    Cancelled s ∈ o → s < next_seq_ q →
    (calling_expired_ q = true → s ∈ canceling_seqs_ q') ∧
    ∀ p t, heap q' !! p = Some t → p ∉ E → sequence_ t ≠ s;
}.

Lemma inv_perm E E' q : E ≡ₚ E' → inv E q → inv E' q.
Proof.
  intros HE []. split; try done.
  - intros when p. by rewrite <-HE.
  - intros s p. by rewrite <-HE.
  - intros p. rewrite <-HE. auto.
  - by rewrite <-HE.
Qed.

#[export] Instance inv_proper : Proper ((≡ₚ) ==> (=) ==> iff) inv.
Proof. intros E E' HE q ? <-. by split; apply inv_perm. Qed.

(** Only these fields matter to the invariant. *)
Lemma inv_eq E q q' :
  inv E q → heap q' = heap q → timers_ q' = timers_ q → active_ q' = active_ q →
  next_seq_ q' = next_seq_ q → inv E q'.
Proof. intros [] Hh Ht Ha Hn. split; rewrite ?Hh, ?Ht, ?Ha, ?Hn; done. Qed.

Lemma frame_refl E q q' :
  heap q' = heap q → next_seq_ q' = next_seq_ q →
  canceling_seqs_ q' = canceling_seqs_ q → calling_expired_ q' = calling_expired_ q →
  frame E q [] q'.
Proof. intros Hh Hn Hc Hca.
  split; rewrite ?Hh, ?Hn, ?Hc; try done; try set_solver.
Qed.

Lemma frame_trans E q1 o1 q2 o2 q3 :
  frame E q1 o1 q2 → frame E q2 o2 q3 → frame E q1 (o1 ++ o2) q3.
Proof.
  intros H1 H2.
  pose proof (f_next _ _ _ _ H1). pose proof (f_next _ _ _ _ H2).
  split.
  - intros p Hp. by rewrite (f_batch _ _ _ _ H2), (f_batch _ _ _ _ H1).
  - lia.
  - intros s Hs. by eapply f_canceling, f_canceling.
  - intros s Hs. apply (f_canceling_only _ _ _ _ H2) in Hs as [Hs|Hs]; [|set_solver].
    apply (f_canceling_only _ _ _ _ H1) in Hs. set_solver.
  - by rewrite (f_calling _ _ _ _ H2), (f_calling _ _ _ _ H1).
  - intros p t Hp Hs. apply (f_old _ _ _ _ H1), Hs.
    apply (f_old _ _ _ _ H2); [done|lia].
  - intros p t Hp Hs. apply (f_keep _ _ _ _ H2); [|set_solver].
    apply (f_keep _ _ _ _ H1); set_solver.
  - intros s Hs Hlt. apply elem_of_app in Hs as [Hs|Hs].
    + destruct (f_cancelled _ _ _ _ H1 s Hs Hlt) as [Hc Hgone]. split.
      * intros Hca. by eapply f_canceling, Hc.
      * intros p t Hp HE Heq. apply (Hgone p t); [|done..].
        apply (f_old _ _ _ _ H2); [done|lia].
    + destruct (f_cancelled _ _ _ _ H2 s Hs ltac:(lia)) as [Hc Hgone].
      split; [|done]. intros Hca. apply Hc. by rewrite (f_calling _ _ _ _ H1).
Qed.

Lemma frame_obs E q o o' q' :
  frame E q o q' → (∀ s, Cancelled s ∈ o' ↔ Cancelled s ∈ o) → frame E q o' q'.
Proof.
  intros [] Ho. split; try done.
  - intros s Hs. rewrite Ho. auto.
  - intros p t ?. rewrite Ho. auto.
  - intros s. rewrite Ho. auto.
Qed.

(** The invariant and the frame do not see the clock, the timerfd and the
    batch's bookkeeping. *)
Lemma frame_shift E q o q' q2 :
  frame E q o q' → heap q2 = heap q' → next_seq_ q2 = next_seq_ q' →
  canceling_seqs_ q2 = canceling_seqs_ q' → calling_expired_ q2 = calling_expired_ q' →
  frame E q o q2.
Proof. intros [] Hh Hn Hc Hca. split; rewrite ?Hh, ?Hn, ?Hc, ?Hca; done. Qed.

Lemma malloc_notin E q : inv E q → malloc (heap q) ∉ E.
Proof.
  intros Hq Hin. destruct (i_batch _ _ Hq _ Hin). by rewrite malloc_fresh in *.
Qed.

Lemma heap_insert_fresh q p t t' :
  <[malloc (heap q) := t]> (heap q) !! p = Some t' ↔
  (p = malloc (heap q) ∧ t' = t) ∨ heap q !! p = Some t'.
Proof.
  rewrite lookup_insert_Some. split; [naive_solver|].
  intros [[-> ->]|Hp]; [by left|]. right. split; [|done].
  intros <-. by rewrite malloc_fresh in Hp.
Qed.

(** The queue after the insertion of [add], before the timerfd is touched. *)
Lemma insert_inv E q t when q' :
  inv E q → sequence_ t = next_seq_ q → expiration_ t = when →
  heap q' = <[malloc (heap q) := t]> (heap q) →
  timers_ q' = set_insert (when, malloc (heap q)) (timers_ q) →
  active_ q' = <[next_seq_ q := malloc (heap q)]> (active_ q) →
  next_seq_ q' = next_seq_ q + 1 → inv E q'.
Proof.
  intros Hq Hs Hw Hh Ht Ha Hn. pose proof (malloc_notin _ _ Hq) as HE.
  split; rewrite ?Hh, ?Ht, ?Ha, ?Hn; try setoid_rewrite heap_insert_fresh.
  - by apply set_insert_sorted, i_sorted with E.
  - intros w p. rewrite elem_of_set_insert, (i_entry _ _ Hq). naive_solver.
  - intros s p. rewrite lookup_insert_Some, (i_active _ _ Hq). split.
    + intros [[<- <-]|(? & ? & t' & ? & ?)]; naive_solver.
    + intros (HpE & t' & [[-> ->]|Hp] & Hst); [naive_solver|].
      right. pose proof (i_seq _ _ Hq _ _ Hp). split; [lia|]. naive_solver.
  - intros p Hp. destruct (i_batch _ _ Hq _ Hp) as [t' Ht'].
    exists t'. apply heap_insert_fresh. by right.
  - apply (i_nodup _ _ Hq).
  - intros p t' [[-> ->]|Hp]; [lia|]. pose proof (i_seq _ _ Hq _ _ Hp). lia.
  - intros p1 p2 t1 t2 [[-> ->]|H1] [[-> ->]|H2] Heq; [done|..].
    + pose proof (i_seq _ _ Hq _ _ H2). lia.
    + pose proof (i_seq _ _ Hq _ _ H1). lia.
    + by apply (i_inj _ _ Hq _ _ _ _ H1 H2).
Qed.

Lemma insert_frame E q t q' :
  inv E q → sequence_ t = next_seq_ q →
  heap q' = <[malloc (heap q) := t]> (heap q) → next_seq_ q' = next_seq_ q + 1 →
  canceling_seqs_ q' = canceling_seqs_ q → calling_expired_ q' = calling_expired_ q →
  frame E q [] q'.
Proof.
  intros Hq Hs Hh Hn Hc Hca. split; rewrite ?Hh, ?Hn, ?Hc; try set_solver by lia.
  - intros p Hp. apply lookup_insert_ne. intros <-. by apply (malloc_notin _ _ Hq).
  - intros p t'. rewrite heap_insert_fresh. intros [[_ ->]|?]; [lia|done].
  - intros p t' ? _. apply heap_insert_fresh. by right.
Qed.

Lemma add_timer_ok E cb delay interval q :
  inv E q →
  let '(id, q') := add_timer steady malloc cb delay interval q in
  inv E q' ∧ frame E q [Added (seq_ id)] q' ∧ seq_ id = next_seq_ q ∧
  next_seq_ q' = next_seq_ q + 1 ∧
  heap q' = <[malloc (heap q) :=
    new_Timer cb (now steady q + delay) interval (next_seq_ q)]> (heap q).
Proof.
  intros Hq. unfold add_timer; cbn.
  match goal with |- context [if ?b then reset_timerfd _ _ ?q1 else _] =>
    assert (Hi : inv E q1 ∧ frame E q [Added (next_seq_ q)] q1); [|
    destruct b] end.
  - set (t := new_Timer cb (now steady q + delay) interval (next_seq_ q)).
    split; [by apply (insert_inv E q t (expiration_ t))|].
    eapply frame_obs; [by apply (insert_frame E q t)|set_solver].
  - destruct Hi as [Hi Hf]. split_and!; try done.
    + by eapply inv_eq.
    + by eapply frame_shift.
  - by destruct Hi.
Qed.

(** The queue after the removal of a timer that is not in the batch. *)
Lemma remove_inv E q p t q' :
  inv E q → p ∉ E → heap q !! p = Some t → heap q' = delete p (heap q) →
  timers_ q' = set_erase (expiration_ t, p) (timers_ q) →
  active_ q' = delete (sequence_ t) (active_ q) → next_seq_ q' = next_seq_ q →
  inv E q'.
Proof.
  intros Hq HpE Hp Hh Ht Ha Hn. split; rewrite ?Hh, ?Ht, ?Ha, ?Hn.
  - by apply set_erase_sorted, i_sorted with E.
  - intros w p'. rewrite elem_of_set_erase by (by apply i_sorted with E).
    rewrite (i_entry _ _ Hq). setoid_rewrite lookup_delete_Some. naive_solver.
  - intros s p'. rewrite lookup_delete_Some, (i_active _ _ Hq).
    setoid_rewrite lookup_delete_Some. split; [naive_solver|].
    intros (? & t' & [? Hp'] & <-). split; [|naive_solver]. intros Heq.
    pose proof (i_inj _ _ Hq _ _ _ _ Hp Hp' Heq). naive_solver.
  - intros p' Hp'. destruct (i_batch _ _ Hq _ Hp') as [t' Ht'].
    exists t'. apply lookup_delete_Some. split; [naive_solver|done].
  - apply (i_nodup _ _ Hq).
  - intros p' t'. rewrite lookup_delete_Some. intros [_ ?]. by eapply i_seq.
  - intros p1 p2 t1 t2. rewrite !lookup_delete_Some. intros [_ ?] [_ ?].
    by eapply i_inj.
Qed.

(** [rearm] and [reset_timerfd] only touch the timerfd and the clock. *)
Lemma rearm_fields q :
  heap (rearm steady q) = heap q ∧ timers_ (rearm steady q) = timers_ q ∧
  active_ (rearm steady q) = active_ q ∧ next_seq_ (rearm steady q) = next_seq_ q ∧
  canceling_seqs_ (rearm steady q) = canceling_seqs_ q ∧
  calling_expired_ (rearm steady q) = calling_expired_ q.
Proof. unfold rearm. destruct (timers_ q) as [|[]] eqn:Ht; cbn; auto 10. Qed.

Lemma cancel_ok E id q :
  inv E q →
  ∃ q', cancel steady id q = Ok q' ∧ inv E q' ∧
    frame E q (if valid id then [Cancelled (seq_ id)] else []) q'.
Proof.
  intros Hq. unfold cancel. destruct (valid id); cbn [negb];
    [|by exists q; split_and!; [| |apply frame_refl]].
  destruct (active_ q !! seq_ id) as [p|] eqn:Hact.
  - apply (i_active _ _ Hq) in Hact as (HpE & t & Hp & Hst).
    unfold deref. rewrite Hp. cbn [mbind res_bind].
    match goal with |- context [free p (if ?b then ?a else ?c)] =>
      set (q1 := if b then a else c) end.
    assert (Hq1 : heap q1 = heap q ∧ timers_ q1 = set_erase (expiration_ t, p) (timers_ q) ∧
      active_ q1 = delete (seq_ id) (active_ q) ∧ next_seq_ q1 = next_seq_ q ∧
      calling_expired_ q1 = calling_expired_ q ∧
      canceling_seqs_ q1 = canceling_seqs_ q ++
        (if calling_expired_ q then [seq_ id] else [])).
    { unfold q1. cbn. destruct (calling_expired_ q) eqn:?; cbn; rewrite ?app_nil_r; auto 10. }
    clearbody q1. destruct Hq1 as (Hh & Ht & Ha & Hn & Hca & Hc).
    unfold free. rewrite Hh, Hp. cbn [mbind res_bind].
    set (q2 := set_heap (delete p (heap q)) q1).
    assert (inv E q2).
    { apply (remove_inv E q p t); try done. unfold q2; cbn. by rewrite Ha, Hst. }
    assert (frame E q [Cancelled (seq_ id)] q2).
    { split; unfold q2; cbn; rewrite ?Hn, ?Hc, ?Hca; try done.
      - intros p' Hp'. apply lookup_delete_ne. naive_solver.
      - set_solver.
      - intros s. destruct (calling_expired_ q); set_solver.
      - intros p' t'. rewrite lookup_delete_Some. naive_solver.
      - intros p' t' Hp' Hs. apply lookup_delete_Some. split; [|done].
        intros <-. apply Hs. rewrite Hp in Hp'. injection Hp' as <-. rewrite Hst. by left.
      - intros s Hs _. apply list_elem_of_singleton in Hs as [= ->]. split.
        + intros ->. set_solver.
        + intros p' t' Hp' HE Heq. apply lookup_delete_Some in Hp' as [Hne Hp'].
          rewrite <-Hst in Heq. by apply Hne, (i_inj _ _ Hq _ _ _ _ Hp Hp'). }
    eexists; split; [done|].
    match goal with |- context [if ?b then rearm _ _ else _] => destruct b end; [|done].
    destruct (rearm_fields q2) as (?&?&?&?&?&?).
    split; [by eapply inv_eq|by eapply frame_shift].
  - eexists; split; [done|]. split; [case_match; [by eapply inv_eq|done]|].
    split; try (by case_match); try (case_match; cbn; set_solver).
    intros s Hs _. apply list_elem_of_singleton in Hs as [= ->].
    split; [intros ->; cbn; set_solver|].
    intros p t Hp HpE Hst.
    assert (active_ q !! seq_ id = Some p); [|congruence].
    apply (i_active _ _ Hq). split; [done|]. exists t. split; [|done].
    revert Hp. by case_match.
Qed.

(** ** The three loops of [handle_expired] *)

Definition fired (o : list obs) : list seqno :=
  omap (λ e, match e with Fired s => Some s | _ => None end) o.

Lemma fired_app o1 o2 : fired (o1 ++ o2) = fired o1 ++ fired o2.
Proof. apply omap_app. Qed.

Lemma run_prog_ok E (p : @prog Cb W) q :
  inv E q →
  ∃ o w q', run_prog steady malloc p q = Ok (o, w, q') ∧ inv E q' ∧
    frame E q o q' ∧ fired o = [].
Proof.
  revert q.
  induction p as [w|w|cb d k IH|cb i k IH|id k IH]; intros q Hq; cbn [run_prog].
  - eexists [], w, q. split_and!; try done. by apply frame_refl.
  - eexists [], w, q. split_and!; try done. by apply frame_refl.
  - unfold add. pose proof (add_timer_ok E cb d 0 q Hq) as Hadd.
    destruct (add_timer _ _ _ _ _ q) as [id q1]. destruct Hadd as (Hq1 & Hf & _).
    destruct (IH id q1 Hq1) as (o & w & q2 & -> & ? & ? & ?).
    eexists _, w, q2. split_and!; [done..| |done].
    by apply (frame_trans E q [Added (seq_ id)] q1).
  - unfold add_periodic. pose proof (add_timer_ok E cb i i q Hq) as Hadd.
    destruct (add_timer _ _ _ _ _ q) as [id q1]. destruct Hadd as (Hq1 & Hf & _).
    destruct (IH id q1 Hq1) as (o & w & q2 & -> & ? & ? & ?).
    eexists _, w, q2. split_and!; [done..| |done].
    by apply (frame_trans E q [Added (seq_ id)] q1).
  - destruct (cancel_ok E id q Hq) as (q1 & -> & Hq1 & Hf). cbn [mbind res_bind].
    destruct (IH q1 Hq1) as (o & w & q2 & -> & ? & ? & ?).
    eexists _, w, q2. split_and!; [done|done|..].
    + pose proof (frame_trans _ _ _ _ _ _ Hf ltac:(done)) as Hf2.
      by destruct (valid id).
    + by destruct (valid id).
Qed.

(** Popping the first entry moves its timer to the batch. *)
Lemma pop_inv E q when p rest t :
  inv E q → timers_ q = (when, p) :: rest → heap q !! p = Some t →
  inv (p :: E) (set_index rest (delete (sequence_ t) (active_ q)) q).
Proof.
  intros Hq Ht Hp.
  pose proof (i_sorted _ _ Hq) as Hs. rewrite Ht in Hs.
  pose proof (sorted_head_notin _ _ Hs) as Hnotin.
  assert (He : ∀ w p', ((w, p') ∈ (when, p) :: rest) ↔
    ((p' ∉ E) ∧ ∃ t, heap q !! p' = Some t ∧ expiration_ t = w)).
  { rewrite <-Ht. apply (i_entry _ _ Hq). }
  assert (HpE : (p ∉ E) ∧ expiration_ t = when).
  { destruct (proj1 (He when p)) as (? & t' & Ht' & ?); [by left|].
    by replace t with t' by congruence. }
  destruct HpE as [HpE Hw].
  split; cbn; try apply Hq.
  - by apply StronglySorted_inv in Hs as [].
  - intros w p'. rewrite not_elem_of_cons. split.
    + intros Hin. destruct (proj1 (He w p')) as (? & t' & Ht' & ?); [by right|].
      split; [|naive_solver]. split; [|done]. intros ->.
      apply Hnotin. by replace when with w by congruence.
    + intros ([??] & ?). assert (Hin : (w, p') ∈ (when, p) :: rest) by (apply He; naive_solver).
      apply elem_of_cons in Hin as [[= ??]|?]; [done|done].
  - intros s p'. rewrite lookup_delete_Some, (i_active _ _ Hq), not_elem_of_cons.
    split.
    + intros (? & ? & t' & ? & ?). split; [|naive_solver]. split; [|done]. naive_solver.
    + intros ([Hne ?] & t' & Ht' & <-). split; [|naive_solver]. intros Heq.
      by apply Hne, (i_inj _ _ Hq _ _ _ _ Ht' Hp).
  - intros p' [->|?]%elem_of_cons; [done|]. by apply (i_batch _ _ Hq).
  - constructor; [done|apply (i_nodup _ _ Hq)].
Qed.

Lemma sorted_later (x : Z * addr) l n :
  StronglySorted entry_lt (x :: l) → n < x.1 → Forall (λ e, n < e.1) (x :: l).
Proof.
  intros [_ Hall]%StronglySorted_inv Hx. constructor; [done|].
  eapply Forall_impl; [done|]. intros y. unfold entry_lt. lia.
Qed.

Lemma set_index_id q : set_index (timers_ q) (active_ q) q = q.
Proof. by destruct q. Qed.

Lemma pop_expired_ok fuel n E q :
  inv E q → (length (timers_ q) ≤ fuel)%nat →
  ∃ pre ts ac, pop_expired fuel n q = Ok (pre.*2, set_index ts ac q) ∧
    inv (pre.*2 ++ E) (set_index ts ac q) ∧ timers_ q = pre ++ ts ∧
    Forall (λ e, e.1 ≤ n) pre ∧ Forall (λ e, n < e.1) ts.
Proof.
  revert E q. induction fuel as [|fuel IH]; intros E q Hq Hlen; cbn [pop_expired].
  { eexists [], (timers_ q), (active_ q). rewrite set_index_id.
    destruct (timers_ q) as [|e l] eqn:Ht; [|cbn in Hlen; lia].
    by split_and!. }
  destruct (timers_ q) as [|[when p] rest] eqn:Ht.
  { eexists [], (timers_ q), (active_ q). rewrite set_index_id, Ht. by split_and!. }
  destruct (Z.ltb_spec n when) as [Hlt|Hle].
  { eexists [], (timers_ q), (active_ q). rewrite set_index_id, Ht.
    split_and!; try done. apply sorted_later; [|done].
    rewrite <-Ht. apply (i_sorted _ _ Hq). }
  destruct (proj1 (i_entry _ _ Hq when p)) as (HpE & t & Hp & Hw).
  { rewrite Ht. by left. }
  unfold deref. rewrite Hp. cbn [mbind res_bind].
  destruct (IH (p :: E) (set_index rest (delete (sequence_ t) (active_ q)) q))
    as (pre & ts & ac & -> & Hi & Hts & ? & ?).
  { by eapply pop_inv. }
  { cbn in *. lia. }
  eexists ((when, p) :: pre), ts, ac. split_and!; [done|..|done].
  - eapply inv_perm; [|exact Hi]. cbn. by rewrite Permutation_middle.
  - cbn in Hts. by rewrite Hts.
  - by constructor.
Qed.

(** The sequence number of an allocated timer. *)
Definition seq_at q (p : addr) : seqno :=
  match heap q !! p with Some t => sequence_ t | None => 0 end.

Lemma run_callbacks_ok ex E w q :
  inv E q → ex ⊆ E →
  ∃ o w' q', run_callbacks steady malloc body ex w q = Ok (o, w', q') ∧
    inv E q' ∧ frame E q o q' ∧ fired o = seq_at q <$> ex.
Proof.
  revert w q. induction ex as [|p ex IH]; intros w q Hq Hsub; cbn [run_callbacks].
  { eexists [], w, q. split_and!; try done. by apply frame_refl. }
  destruct (i_batch _ _ Hq p) as [t Ht]; [set_solver|].
  unfold deref. rewrite Ht. cbn [mbind res_bind].
  destruct (run_prog_ok E (body (callback_ t) w) q Hq)
    as (o1 & w1 & q1 & -> & Hq1 & Hf1 & Ho1). cbn [mbind res_bind].
  destruct (IH w1 q1 Hq1) as (o2 & w2 & q2 & -> & Hq2 & Hf2 & Ho2); [set_solver|].
  cbn [mbind res_bind]. eexists _, w2, q2. split_and!; [done|done|..].
  - eapply frame_obs; [by eapply frame_trans|]. set_solver.
  - cbn [fired omap list_omap]. change (omap _ ?l) with (fired l).
    rewrite fired_app, Ho1, Ho2. cbn. unfold seq_at at 2. rewrite Ht. f_equal.
    apply list_fmap_ext. intros i p' Hp'. unfold seq_at.
    rewrite (f_batch _ _ _ _ Hf1); [done|]. apply Hsub. right.
    by eapply list_elem_of_lookup_2.
Qed.

(** A timer of the batch goes back into the queue, or is deleted. *)
Lemma reinsert_inv E q p t t' q' :
  inv (p :: E) q → heap q !! p = Some t → sequence_ t' = sequence_ t →
  heap q' = <[p := t']> (heap q) →
  timers_ q' = set_insert (expiration_ t', p) (timers_ q) →
  active_ q' = <[sequence_ t' := p]> (active_ q) → next_seq_ q' = next_seq_ q →
  inv E q'.
Proof.
  intros Hq Hp Hseq Hh Ht Ha Hn.
  assert (HpE : p ∉ E) by (pose proof (i_nodup _ _ Hq) as Hnd; by inversion Hnd).
  assert (Hold : ∀ p' t1, <[p := t']> (heap q) !! p' = Some t1 →
    ∃ t0, heap q !! p' = Some t0 ∧ sequence_ t0 = sequence_ t1).
  { intros p' t1 [[<- <-]|[? ?]]%lookup_insert_Some; eauto. }
  split; rewrite ?Hh, ?Ht, ?Ha, ?Hn.
  - by apply set_insert_sorted, i_sorted with (p :: E).
  - intros w p'. rewrite elem_of_set_insert, (i_entry _ _ Hq), not_elem_of_cons.
    setoid_rewrite lookup_insert_Some. split; [naive_solver|].
    intros (? & t1 & [[<- <-]|[? ?]] & <-); [by left|right]. naive_solver.
  - intros s p'. rewrite lookup_insert_Some, (i_active _ _ Hq), not_elem_of_cons.
    setoid_rewrite lookup_insert_Some. split; [naive_solver|].
    intros (? & t1 & [[<- <-]|[? Hp1]] & <-); [by left|right].
    split; [|naive_solver]. rewrite Hseq. intros Heq.
    pose proof (i_inj _ _ Hq _ _ _ _ Hp Hp1 Heq). naive_solver.
  - intros p' Hp'. rewrite lookup_insert_ne by naive_solver.
    apply (i_batch _ _ Hq). by right.
  - by pose proof (i_nodup _ _ Hq) as [_ ?]%NoDup_cons.
  - intros p' t1 (t0 & Ht0 & <-)%Hold. by eapply i_seq.
  - intros p1 p2 t1 t2 (t3 & ? & <-)%Hold (t4 & ? & <-)%Hold. by eapply i_inj.
Qed.

Lemma free_inv E q p q' :
  inv (p :: E) q → heap q' = delete p (heap q) → timers_ q' = timers_ q →
  active_ q' = active_ q → next_seq_ q' = next_seq_ q → inv E q'.
Proof.
  intros Hq Hh Ht Ha Hn.
  pose proof (i_nodup _ _ Hq) as [HpE Hnd]%NoDup_cons.
  split; rewrite ?Hh, ?Ht, ?Ha, ?Hn; try apply Hq.
  - intros w p'. rewrite (i_entry _ _ Hq), not_elem_of_cons.
    setoid_rewrite lookup_delete_Some. naive_solver.
  - intros s p'. rewrite (i_active _ _ Hq), not_elem_of_cons.
    setoid_rewrite lookup_delete_Some. naive_solver.
  - intros p' Hp'. rewrite lookup_delete_ne by naive_solver.
    apply (i_batch _ _ Hq). by right.
  - done.
  - intros p' t1 [_ ?]%lookup_delete_Some. by eapply i_seq.
  - intros p1 p2 t1 t2 [_ ?]%lookup_delete_Some [_ ?]%lookup_delete_Some.
    by eapply i_inj.
Qed.

(** What becomes of a timer of the batch, given the cancelled ones. *)
Definition after (n : Z) (cancelled : list seqno) (t : @Timer Cb) : option Timer :=
  if repeat_ t && negb (bool_decide (sequence_ t ∈ cancelled))
  then Some (restart n t) else None.

Lemma reinsert_ok ex n q :
  inv ex q →
  ∃ q', reinsert ex n q = Ok q' ∧ inv [] q' ∧ next_seq_ q' = next_seq_ q ∧
    calling_expired_ q' = calling_expired_ q ∧
    (∀ p, p ∉ ex → heap q' !! p = heap q !! p) ∧
    (∀ p t, p ∈ ex → heap q !! p = Some t → heap q' !! p = after n (canceling_seqs_ q) t).
Proof.
  revert q. induction ex as [|p ex IH]; intros q Hq; cbn [reinsert].
  { exists q. split_and!; try done. set_solver. }
  pose proof (i_nodup _ _ Hq) as [HpE Hnd]%NoDup_cons.
  destruct (i_batch _ _ Hq p) as [t Ht]; [by left|].
  unfold deref. rewrite Ht. cbn [mbind res_bind].
  assert (Hstep : ∀ q1 (r : res (@TimerQueue Cb)), inv ex q1 → next_seq_ q1 = next_seq_ q →
    calling_expired_ q1 = calling_expired_ q → canceling_seqs_ q1 = canceling_seqs_ q →
    heap q1 = partial_alter (λ _, after n (canceling_seqs_ q) t) p (heap q) →
    reinsert ex n q1 = r →
    ∃ q2, r = Ok q2 ∧ inv [] q2 ∧ next_seq_ q2 = next_seq_ q ∧
    calling_expired_ q2 = calling_expired_ q ∧
    (∀ p', p' ∉ p :: ex → heap q2 !! p' = heap q !! p') ∧
    (∀ p' t, p' ∈ p :: ex → heap q !! p' = Some t →
       heap q2 !! p' = after n (canceling_seqs_ q) t)).
  { intros q1 ? Hq1 Hn Hca Hc Hh <-.
    destruct (IH q1 Hq1) as (q2 & -> & ? & ? & ? & Hkeep & Hafter).
    exists q2. split_and!; try done; [congruence..|idtac|].
    - intros p' [??]%not_elem_of_cons. rewrite Hkeep, Hh by done.
      by apply lookup_partial_alter_ne.
    - intros p' t' [->|Hp']%elem_of_cons Ht'.
      + rewrite Hkeep, Hh, lookup_partial_alter_eq by done. congruence.
      + rewrite <-Hc. apply Hafter; [done|]. rewrite Hh.
        rewrite lookup_partial_alter_ne; [done|]. intros ->. done. }
  unfold after in Hstep. destruct (repeat_ t && _) eqn:Hr.
  - eapply Hstep; [| | | | |reflexivity]; try done.
    by eapply (reinsert_inv ex q p t (restart n t)).
  - unfold free. rewrite Ht. cbn [mbind res_bind].
    eapply Hstep; [| | | | |reflexivity]; try done. by eapply free_inv.
Qed.

(** ** Invariant between the calls of the event loop *)

Definition armed q : Prop :=
  match timers_ q with
  | [] => timerfd_ q = Disarmed
  | (when, _) :: _ =>
      ∃ n s ns, timerfd_ q = Armed n s ns ∧ 0 ≤ s ∧ 0 ≤ ns < 1000000000 ∧
        n + (s * 1000000000 + ns) = Z.max when (n + 1)
  end.

Record good q : Prop := {
  g_inv : inv [] q;
  g_calling : calling_expired_ q = false;
  g_canceling : canceling_seqs_ q = [];
  g_armed : armed q;
}.

Lemma reset_armed q when p l :
  timers_ q = (when, p) :: l → armed (reset_timerfd steady when q).
Proof.
  unfold armed. cbn. intros ->. eexists _, _, _. split; [done|].
  set (d := if when - now steady q <=? 0 then 1 else when - now steady q).
  assert (Hd : 0 < d ∧ now steady q + d = Z.max when (now steady q + 1)).
  { unfold d. destruct (Z.leb_spec (when - now steady q) 0); lia. }
  clearbody d.
  rewrite Z.quot_div_nonneg, Z.rem_mod_nonneg by lia.
  pose proof (Z.div_mod d 1000000000). pose proof (Z.mod_pos_bound d 1000000000).
  pose proof (Z.div_pos d 1000000000). lia.
Qed.

Lemma rearm_armed q : armed (rearm steady q).
Proof.
  unfold rearm. destruct (timers_ q) as [|[when p] l] eqn:Ht.
  - unfold armed. cbn. by rewrite Ht.
  - by eapply reset_armed.
Qed.

Lemma armed_same q q' :
  armed q → timers_ q ≠ [] → fst <$> head (timers_ q') = fst <$> head (timers_ q) →
  timerfd_ q' = timerfd_ q → armed q'.
Proof.
  unfold armed. intros Ha Hne Hh Hf. rewrite Hf.
  destruct (timers_ q) as [|[w p] l]; [done|].
  destruct (timers_ q') as [|[w' p'] l']; [done|]. cbn in Hh. by injection Hh as ->.
Qed.

Lemma set_insert_head w p w1 p1 l :
  fst <$> head (set_insert (w, p) ((w1, p1) :: l)) = Some (if w <? w1 then w else w1).
Proof.
  cbn [set_insert]. unfold entry_ltb; cbn. destruct (Z.ltb_spec w w1); [done|].
  destruct (Z.eqb_spec w w1) as [->|]; cbn; repeat case_match; done.
Qed.

Lemma set_erase_head x y l :
  x.2 ≠ y.2 → set_erase x (y :: l) = y :: (if entry_ltb x y then l else set_erase x l).
Proof.
  intros Hne. cbn [set_erase]. destruct (entry_ltb_spec x y) as [|H1]; [done|].
  destruct (entry_ltb_spec y x) as [|H2]; [done|]. by rewrite (entry_lt_eq x y) in Hne.
Qed.

Lemma add_good cb delay interval q :
  good q → good (add_timer steady malloc cb delay interval q).2.
Proof.
  intros [Hi Hca Hc Ha].
  pose proof (add_timer_ok [] cb delay interval q Hi) as Hok.
  pose proof (f_calling [] q) as Hfc. revert Hok.
  destruct (add_timer _ _ _ _ _ q) as [id q'] eqn:Hadd; cbn. intros (Hq' & Hf & _).
  split; [done|by rewrite (Hfc _ _ Hf)|..].
  - apply elem_of_nil_inv. intros s [Hs|Hs]%(f_canceling_only _ _ _ _ Hf); [|set_solver].
    rewrite Hc in Hs. set_solver.
  - revert Hadd. unfold add_timer; cbn. intros [= _ <-].
    destruct (timers_ q) as [|[w1 p1] l] eqn:Ht; cbn [set_insert].
    + eapply reset_armed. reflexivity.
    + pose proof (set_insert_head (now steady q + delay) (malloc (heap q)) w1 p1 l) as Hh.
      destruct (Z.ltb_spec (now steady q + delay) w1).
      * destruct (set_insert _ _) as [|[w2 p2] l2] eqn:Hs; [done|].
        cbn in Hh. injection Hh as ->. by eapply reset_armed.
      * eapply armed_same; [exact Ha|by rewrite Ht|by rewrite Ht|done].
Qed.

Lemma cancel_good id q :
  good q →
  ∃ q', cancel steady id q = Ok q' ∧ good q' ∧
    frame [] q (if valid id then [Cancelled (seq_ id)] else []) q'.
Proof.
  intros [Hi Hca Hc Ha].
  destruct (cancel_ok [] id q Hi) as (q' & Hcan & Hq' & Hf).
  exists q'. split_and!; [done| |done].
  assert (Hmid : canceling_seqs_ q' = [] ∧ armed q').
  2: { split; try done; [|apply Hmid..]. by rewrite (f_calling _ _ _ _ Hf). }
  revert Hcan. unfold cancel. rewrite Hca. destruct (valid id); cbn [negb];
    [|by intros [= <-]].
  destruct (active_ q !! seq_ id) as [p|] eqn:Hact; [|by intros [= <-]].
  apply (i_active _ _ Hi) in Hact as (_ & t & Hp & Hst).
  unfold deref, free. rewrite Hp. cbn. rewrite Hca. cbn. rewrite Hp. cbn. intros [= <-].
  destruct (timers_ q) as [|[w1 p1] l] eqn:Ht.
  { exfalso. eapply (not_elem_of_nil (expiration_ t, p)). rewrite <-Ht.
    apply (i_entry _ _ Hi). split; [set_solver|by exists t]. }
  destruct (Z.eqb_spec p1 p) as [->|Hne].
  - match goal with |- context [rearm _ ?q2] =>
      destruct (rearm_fields q2) as (_ & _ & _ & _ & -> & _) end.
    split; [done|apply rearm_armed].
  - split; [done|]. eapply armed_same; [exact Ha|by rewrite Ht| |done].
    rewrite Ht, set_erase_head by (cbn; congruence). done.
Qed.

Lemma filter_split (P : Z * addr → Prop) `{!∀ e, Decision (P e)} pre ts :
  Forall P pre → Forall (λ e, ¬ P e) ts → filter P (pre ++ ts) = pre.
Proof.
  intros Hpre Hts. induction Hpre; cbn [app].
  - induction Hts; [done|]. by rewrite filter_cons_False.
  - rewrite filter_cons_True by done. by f_equal.
Qed.

(** The entries due at time [n], in order. *)
Definition due n q : list (Z * addr) := filter (λ e, e.1 ≤ n) (timers_ q).

Lemma handle_expired_ok w q :
  good q →
  let ex := (due (now steady q) q).*2 in
  ∃ o w' q' q1 q2, handle_expired steady malloc body w q = Ok (o, w', q') ∧ good q' ∧
    fired o = seq_at q <$> ex ∧ next_seq_ q' = next_seq_ q2 ∧
    inv ex q1 ∧ heap q1 = heap q ∧ next_seq_ q1 = next_seq_ q ∧
    calling_expired_ q1 = true ∧ canceling_seqs_ q1 = [] ∧ frame ex q1 o q2 ∧
    (∀ p, p ∉ ex → heap q' !! p = heap q2 !! p) ∧
    (∀ p t, p ∈ ex → heap q !! p = Some t →
       heap q' !! p = after (now steady q) (canceling_seqs_ q2) t).
Proof.
  intros [Hi Hca Hc Ha]. cbn zeta. unfold handle_expired.
  assert (Hi0 : inv [] (tick q)) by (by eapply inv_eq).
  destruct (pop_expired_ok (length (timers_ (tick q))) (now steady q) [] (tick q))
    as (pre & ts & ac & -> & Hi1 & Hts & Hpre & Hpost); [done..|].
  cbn [mbind res_bind]. rewrite app_nil_r in Hi1.
  assert (Hdue : due (now steady q) q = pre).
  { unfold due. change (timers_ q) with (timers_ (tick q)). rewrite Hts.
    apply filter_split; [done|]. eapply Forall_impl; [done|]. cbn. lia. }
  rewrite Hdue. set (q1 := set_calling true (set_index ts ac (tick q))).
  assert (Hi1' : inv pre.*2 q1) by (by eapply inv_eq).
  destruct (run_callbacks_ok pre.*2 pre.*2 w q1 Hi1') as (o & w' & q2 & -> & Hi2 & Hf & Ho);
    [done|]. cbn [mbind res_bind].
  destruct (reinsert_ok pre.*2 (now steady q) (set_calling false q2))
    as (q3 & -> & Hi3 & Hn3 & Hca3 & Hkeep & Hafter); [by eapply inv_eq|].
  cbn [mbind res_bind].
  set (q4 := set_canceling [] q3).
  destruct (rearm_fields q4) as (Hh & Ht & Hac & Hn & Hcs & Hcal).
  eexists o, w', _, q1, q2. split_and!; try done.
  - split; rewrite ?Hcal, ?Hcs; try done; [|apply rearm_armed].
    by eapply (inv_eq [] q3).
  - by rewrite Hn.
  - intros p Hp. rewrite Hh. by apply (Hkeep p).
  - intros p t Hp Hpt. rewrite Hh. apply (Hafter p t Hp).
    cbn. by rewrite (f_batch _ _ _ _ Hf).
Qed.

(** ** Operations *)

Inductive op : Type :=
  | OpAdd (cb : Cb) (delay : Z)
  | OpAddPeriodic (cb : Cb) (interval : Z)
  | OpCancel (id : TimerId)
  | OpExpire.

(** One call made by the event loop. *)
Definition exec (o : op) (w : W) q : res (list obs * W * TimerQueue) :=
  match o with
  | OpAdd cb delay =>
      let '(id, q) := add steady malloc cb delay q in Ok ([Added (seq_ id)], w, q)
  | OpAddPeriodic cb interval =>
      let '(id, q) := add_periodic steady malloc cb interval q in
      Ok ([Added (seq_ id)], w, q)
  | OpCancel id =>
      q ← cancel steady id q;
      Ok (if valid id then [Cancelled (seq_ id)] else [], w, q)
  | OpExpire => handle_expired steady malloc body w q
  end.

Fixpoint run (os : list op) (w : W) q : res (list obs * W * TimerQueue) :=
  match os with
  | [] => Ok ([], w, q)
  | o :: os =>
      '(o1, w, q) ← exec o w q;
      '(o2, w, q) ← run os w q;
      Ok (o1 ++ o2, w, q)
  end.

(** The queue as its users see it: the pending timers by sequence number. *)
Definition timer_of q (s : seqno) : option (@Timer Cb) :=
  active_ q !! s ≫= λ p, heap q !! p.

Lemma timer_of_Some q s t :
  inv [] q →
  timer_of q s = Some t ↔ ∃ p, heap q !! p = Some t ∧ sequence_ t = s.
Proof.
  intros Hq. unfold timer_of. rewrite bind_Some. setoid_rewrite (i_active _ _ Hq).
  split.
  - intros (p & (_ & t' & Hp & Hs) & Ht). exists p. by replace t with t' by congruence.
  - intros (p & Hp & Hs). exists p. split; [|done]. split; [set_solver|by exists t].
Qed.

Lemma timer_of_None q s :
  inv [] q → (∀ p t, heap q !! p = Some t → sequence_ t ≠ s) → timer_of q s = None.
Proof.
  intros Hq Hno. apply eq_None_not_Some. intros [t Ht].
  apply timer_of_Some in Ht as (p & Hp & Hs); [|done]. by apply (Hno p t).
Qed.

(** The specification of a batch: what becomes of a pending timer [t] when the
    queue expires at time [n] and the calls [o] are made meanwhile. *)
Definition survivor (n : Z) (o : list obs) (t : @Timer Cb) : option Timer :=
  if bool_decide (Cancelled (sequence_ t) ∈ o) then None
  else if expiration_ t <=? n
  then if repeat_ t then Some (restart n t) else None
  else Some t.

Lemma due_spec n p q t :
  inv [] q → heap q !! p = Some t → p ∈ (due n q).*2 ↔ expiration_ t ≤ n.
Proof.
  intros Hq Hp. unfold due. rewrite list_elem_of_fmap. split.
  - intros ([w p'] & -> & [Hle Hin]%list_elem_of_filter).
    apply (i_entry _ _ Hq) in Hin as (_ & t' & Ht' & <-). cbn in *.
    by replace t with t' by congruence.
  - intros Hle. exists (expiration_ t, p). split; [done|].
    apply list_elem_of_filter. split; [done|]. apply (i_entry _ _ Hq).
    split; [set_solver|by exists t].
Qed.

(** Where the timers of the queue after a batch come from. *)
Lemma batch_origin ex n q q1 o q2 q' p t :
  inv ex q1 → heap q1 = heap q → next_seq_ q1 = next_seq_ q → frame ex q1 o q2 →
  (∀ p, p ∉ ex → heap q' !! p = heap q2 !! p) →
  (∀ p t, p ∈ ex → heap q !! p = Some t →
     heap q' !! p = after n (canceling_seqs_ q2) t) →
  heap q' !! p = Some t → sequence_ t < next_seq_ q →
  ((p ∉ ex) ∧ heap q2 !! p = Some t ∧ heap q !! p = Some t) ∨
  (p ∈ ex ∧ ∃ t0, heap q !! p = Some t0 ∧ sequence_ t0 = sequence_ t ∧
    after n (canceling_seqs_ q2) t0 = Some t).
Proof.
  intros Hi Hh Hn Hf Hkeep Hafter Hp Hlt. destruct (decide (p ∈ ex)) as [Hex|Hex].
  - right. split; [done|]. destruct (i_batch _ _ Hi p Hex) as [t0 Ht0].
    rewrite Hh in Ht0. exists t0. rewrite (Hafter p t0 Hex Ht0) in Hp.
    split_and!; [done| |done]. revert Hp. unfold after. by case_match; intros [= <-].
  - left. rewrite (Hkeep p Hex) in Hp. split_and!; try done.
    rewrite <-Hh. apply (f_old _ _ _ _ Hf); [done|lia].
Qed.

Lemma handle_expired_survivors w q o w' q' s t :
  good q → handle_expired steady malloc body w q = Ok (o, w', q') →
  timer_of q s = Some t → timer_of q' s = survivor (now steady q) o t.
Proof.
  intros Hg Hrun Hs. pose proof (g_inv _ Hg) as Hi.
  destruct (handle_expired_ok w q Hg) as (o1 & w1 & q1' & q1 & q2 & Hrun' & Hg' & _ &
    Hn & Hi1 & Hh1 & Hn1 & Hca1 & Hc1 & Hf & Hkeep & Hafter).
  rewrite Hrun' in Hrun. injection Hrun as -> -> ->. pose proof (g_inv _ Hg') as Hi'.
  apply timer_of_Some in Hs as (p & Hp & <-); [|done].
  pose proof (i_seq _ _ Hi _ _ Hp) as Hlt.
  pose proof (due_spec (now steady q) p q t Hi Hp) as Hdue.
  assert (Horig : ∀ p' t', heap q' !! p' = Some t' → sequence_ t' = sequence_ t →
    p' = p ∧ (((p ∉ (due (now steady q) q).*2) ∧ heap q2 !! p = Some t) ∨
      (p ∈ (due (now steady q) q).*2 ∧
       after (now steady q) (canceling_seqs_ q2) t = Some t'))).
  { intros p' t' Hp' Heq.
    destruct (batch_origin _ (now steady q) q q1 o q2 q' p' t' Hi1 Hh1 Hn1 Hf Hkeep Hafter Hp')
      as [(? & H2 & H0)|(? & t0 & H0 & Hst & ?)]; [lia|..].
    - assert (p' = p) as -> by (by apply (i_inj _ _ Hi _ _ _ _ H0 Hp)).
      split; [done|left]. split; [done|]. by rewrite H2, <-H0.
    - assert (p' = p) as -> by (apply (i_inj _ _ Hi _ _ _ _ H0 Hp); congruence).
      split; [done|right]. by replace t with t0 by congruence. }
  unfold survivor. case_bool_decide as Hcan.
  - destruct (f_cancelled _ _ _ _ Hf _ Hcan ltac:(lia)) as [Hc Hgone].
    apply timer_of_None; [done|]. intros p' t' Hp' Heq.
    destruct (Horig p' t' Hp' Heq) as [-> [[Hex H2]|[Hex Haf]]]; [by eapply Hgone|].
    revert Haf. unfold after. rewrite bool_decide_eq_true_2 by auto.
    by rewrite andb_false_r.
  - destruct (Z.leb_spec (expiration_ t) (now steady q)) as [Hle|Hgt].
    + pose proof (Hafter p t (proj2 Hdue Hle) Hp) as Hp'. unfold after in Hp'.
      rewrite bool_decide_eq_false_2, andb_true_r in Hp'; cycle 1.
      { intros [Hin|]%(f_canceling_only _ _ _ _ Hf); [|done].
        rewrite Hc1 in Hin. set_solver. }
      destruct (repeat_ t).
      * apply timer_of_Some; [done|]. by exists p.
      * apply timer_of_None; [done|]. intros p' t' Hp1 Heq.
        destruct (Horig p' t' Hp1 Heq) as [-> _]. congruence.
    + assert (Hex : p ∉ (due (now steady q) q).*2) by (rewrite Hdue; lia).
      apply timer_of_Some; [done|]. exists p. split; [|done].
      rewrite (Hkeep p Hex). apply (f_keep _ _ _ _ Hf); [by rewrite Hh1|done].
Qed.

Lemma handle_expired_origin w q o w' q' s t :
  good q → handle_expired steady malloc body w q = Ok (o, w', q') →
  timer_of q' s = Some t → s < next_seq_ q → timer_of q s ≠ None.
Proof.
  intros Hg Hrun Hs Hlt. pose proof (g_inv _ Hg) as Hi.
  destruct (handle_expired_ok w q Hg) as (o1 & w1 & q1' & q1 & q2 & Hrun' & Hg' & _ &
    Hn & Hi1 & Hh1 & Hn1 & Hca1 & Hc1 & Hf & Hkeep & Hafter).
  rewrite Hrun' in Hrun. injection Hrun as -> -> ->.
  apply timer_of_Some in Hs as (p & Hp & <-); [|by apply g_inv].
  assert (∃ t0, timer_of q (sequence_ t) = Some t0) as [t0 ->]; [|done].
  destruct (batch_origin _ (now steady q) q q1 o q2 q' p t Hi1 Hh1 Hn1 Hf Hkeep Hafter Hp)
    as [(? & ? & ?)|(? & t0 & ? & ? & ?)]; [done|..];
    eexists; apply timer_of_Some; eauto.
Qed.

Lemma fired_spec o s : s ∈ fired o ↔ Fired s ∈ o.
Proof.
  unfold fired. rewrite list_elem_of_omap. split.
  - intros ([] & ? & [= ->]). done.
  - intros ?. by exists (Fired s).
Qed.

Lemma handle_expired_fired w q o w' q' s :
  good q → handle_expired steady malloc body w q = Ok (o, w', q') →
  Fired s ∈ o → timer_of q s ≠ None.
Proof.
  intros Hg Hrun Hs%fired_spec. pose proof (g_inv _ Hg) as Hi.
  destruct (handle_expired_ok w q Hg) as (o1 & w1 & q1' & q1 & q2 & Hrun' & Hg' & Ho & _ &
    Hi1 & Hh1 & _).
  rewrite Hrun' in Hrun. injection Hrun as -> -> ->. rewrite Ho in Hs.
  apply list_elem_of_fmap in Hs as (p & -> & Hp).
  destruct (i_batch _ _ Hi1 _ Hp) as [t Ht]. rewrite Hh1 in Ht.
  unfold seq_at. rewrite Ht.
  enough (timer_of q (sequence_ t) = Some t) as -> by done.
  apply timer_of_Some; [done|]. by exists p.
Qed.

Lemma exec_ok o w q :
  good q →
  ∃ tr w' q', exec o w q = Ok (tr, w', q') ∧ good q' ∧ next_seq_ q ≤ next_seq_ q'.
Proof.
  intros Hg. pose proof (g_inv _ Hg) as Hi. destruct o as [cb d|cb i|id|]; cbn [exec].
  - unfold add. pose proof (add_good cb d 0 q Hg) as Hg'.
    pose proof (add_timer_ok [] cb d 0 q Hi) as Hok.
    destruct (add_timer _ _ _ _ _ q) as [id q']. destruct Hok as (_ & Hf & _).
    eexists _, w, q'. split_and!; [done..|]. by eapply f_next.
  - unfold add_periodic. pose proof (add_good cb i i q Hg) as Hg'.
    pose proof (add_timer_ok [] cb i i q Hi) as Hok.
    destruct (add_timer _ _ _ _ _ q) as [id q']. destruct Hok as (_ & Hf & _).
    eexists _, w, q'. split_and!; [done..|]. by eapply f_next.
  - destruct (cancel_good id q Hg) as (q' & -> & Hg' & Hf). cbn [mbind res_bind].
    eexists _, w, q'. split_and!; [done..|]. by eapply f_next.
  - destruct (handle_expired_ok w q Hg)
      as (o & w' & q' & q1 & q2 & -> & Hg' & _ & Hn & _ & _ & Hn1 & _ & _ & Hf & _).
    exists o, w', q'. split_and!; [done..|]. rewrite Hn, <-Hn1. by eapply f_next.
Qed.

Lemma run_good os w q :
  good q →
  ∃ tr w' q', run os w q = Ok (tr, w', q') ∧ good q' ∧ next_seq_ q ≤ next_seq_ q'.
Proof.
  revert w q. induction os as [|o os IH]; intros w q Hg; cbn [run].
  { by exists [], w, q. }
  destruct (exec_ok o w q Hg) as (o1 & w1 & q1 & -> & Hg1 & ?). cbn [mbind res_bind].
  destruct (IH w1 q1 Hg1) as (o2 & w2 & q2 & -> & Hg2 & ?). cbn [mbind res_bind].
  eexists _, w2, q2. split_and!; [done|done|lia].
Qed.

Lemma empty_good : good (empty_queue : @TimerQueue Cb).
Proof.
  split; [|done..]. split; cbn; try set_solver by done; try constructor.
  all: intros; rewrite ?lookup_empty; naive_solver.
Qed.

Lemma reachable_good os w o w' q :
  run os w empty_queue = Ok (o, w', q) → good q.
Proof.
  intros Hrun. destruct (run_good os w empty_queue empty_good) as (?&?&?&Hrun'&?&_).
  congruence.
Qed.

Lemma add_timer_of cb delay interval q s :
  good q →
  timer_of (add_timer steady malloc cb delay interval q).2 s =
  if decide (s = next_seq_ q)
  then Some (new_Timer cb (now steady q + delay) interval (next_seq_ q))
  else timer_of q s.
Proof.
  intros Hg. pose proof (g_inv _ Hg) as Hi.
  pose proof (add_timer_ok [] cb delay interval q Hi) as Hok.
  destruct (add_timer _ _ _ _ _ q) as [id q'].
  destruct Hok as (Hi' & _ & _ & _ & Hh). cbn.
  set (t0 := new_Timer cb (now steady q + delay) interval (next_seq_ q)) in *.
  apply option_eq. intros t. rewrite timer_of_Some, Hh by done.
  setoid_rewrite heap_insert_fresh. destruct (decide (s = next_seq_ q)) as [->|Hne].
  - split; [|intros [= <-]; naive_solver].
    intros (p & [[-> ->]|Hp] & Hs); [done|].
    pose proof (i_seq _ _ Hi _ _ Hp). lia.
  - rewrite timer_of_Some by done. split; [|naive_solver].
    intros (p & [[-> ->]|Hp] & Hs); [by destruct Hne|naive_solver].
Qed.

Lemma cancel_next id q q' : cancel steady id q = Ok q' → next_seq_ q' = next_seq_ q.
Proof.
  unfold cancel, deref, free. destruct (valid id); cbn [negb]; [|congruence].
  destruct (active_ q !! _) as [p|]; [|case_match; intros [= <-]; done].
  destruct (heap q !! p); cbn; [|done].
  intros (q1 & Hq1 & [= <-])%res_bind_ok.
  assert (next_seq_ q1 = next_seq_ q).
  { revert Hq1. destruct (calling_expired_ q); cbn; case_match; intros [= <-]; done. }
  match goal with |- context [if ?b then rearm _ _ else _] => destruct b end; [|done].
  destruct (rearm_fields q1) as (_ & _ & _ & -> & _). done.
Qed.

Lemma cancel_timer_of id q q' s :
  good q → cancel steady id q = Ok q' →
  timer_of q' s = if valid id && (s =? seq_ id) then None else timer_of q s.
Proof.
  intros Hg Hcan. pose proof (g_inv _ Hg) as Hi.
  pose proof (cancel_next _ _ _ Hcan) as Hn.
  destruct (cancel_good id q Hg) as (q1 & Hcan1 & Hg1 & Hf).
  rewrite Hcan1 in Hcan. injection Hcan as ->. pose proof (g_inv _ Hg1) as Hi1.
  assert (Hother : ∀ t, Cancelled s ∉ (if valid id then [Cancelled (seq_ id)] else []) →
    timer_of q' s = Some t ↔ timer_of q s = Some t).
  { intros t Hs. rewrite !timer_of_Some by done. split; intros (p & Hp & <-);
      exists p; (split; [|done]).
    - apply (f_old _ _ _ _ Hf); [done|]. rewrite <-Hn. by eapply i_seq.
    - by apply (f_keep _ _ _ _ Hf). }
  destruct (valid id) eqn:Hv; cbn [andb].
  2: { apply option_eq. intros t. apply Hother. set_solver. }
  destruct (Z.eqb_spec s (seq_ id)) as [->|Hne].
  2: { apply option_eq. intros t. apply Hother. set_unfold. naive_solver. }
  apply eq_None_not_Some. intros [t Ht].
  apply timer_of_Some in Ht as (p & Hp & Hs); [|done].
  apply (f_cancelled _ _ _ _ Hf (seq_ id)) in Hp; [done|by left| |set_solver].
  rewrite <-Hs, <-Hn. by eapply i_seq.
Qed.

(** A timer that is gone stays gone. *)
Lemma gone_forever os w q o w' q' s :
  good q → s < next_seq_ q → timer_of q s = None → run os w q = Ok (o, w', q') →
  (Fired s ∉ o) ∧ timer_of q' s = None.
Proof.
  revert w q o. induction os as [|e os IH]; intros w q o Hg Hlt Hs; cbn [run].
  { intros [= <- _ <-]. split; [set_solver|done]. }
  destruct (exec_ok e w q Hg) as (o1 & w1 & q1 & Hex & Hg1 & Hle). rewrite Hex.
  cbn [mbind res_bind]. destruct (run_good os w1 q1 Hg1) as (o2 & w2 & q2 & Hrun & _ & _).
  rewrite Hrun. cbn [mbind res_bind]. intros [= <- <- <-].
  assert (Hone : (Fired s ∉ o1) ∧ timer_of q1 s = None).
  2: { destruct (IH w1 q1 o2 Hg1 ltac:(lia) (proj2 Hone) Hrun). set_solver. }
  split.
  - intros Hf. destruct e; cbn [exec] in Hex.
    + revert Hex. unfold add. destruct (add_timer _ _ _ _ _ q). intros [= <- _ _]. set_solver.
    + revert Hex. unfold add_periodic. destruct (add_timer _ _ _ _ _ q).
      intros [= <- _ _]. set_solver.
    + apply res_bind_ok in Hex as (? & _ & [= <- _ _]). destruct (valid id); set_solver.
    + by apply (handle_expired_fired w q o1 w1 q1 s) in Hf.
  - destruct e; cbn [exec] in Hex.
    + pose proof (add_timer_of cb delay 0 q s Hg) as Hadd. revert Hex. unfold add.
      destruct (add_timer _ _ _ _ _ q). intros [= _ _ <-].
      rewrite decide_False in Hadd by lia. by etrans.
    + pose proof (add_timer_of cb interval interval q s Hg) as Hadd. revert Hex.
      unfold add_periodic. destruct (add_timer _ _ _ _ _ q). intros [= _ _ <-].
      rewrite decide_False in Hadd by lia. by etrans.
    + apply res_bind_ok in Hex as (q3 & Hcan & [= _ _ <-]).
      rewrite (cancel_timer_of _ _ _ s Hg Hcan). by case_match.
    + destruct (timer_of q1 s) as [t|] eqn:Ht; [|done].
      by destruct (handle_expired_origin w q o1 w1 q1 s t Hg Hex Ht Hlt).
Qed.

Lemma delete_all_ok l q :
  NoDup l.*2 → (∀ p, p ∈ l.*2 ↔ is_Some (heap q !! p)) →
  ∃ q', delete_all l q = Ok q' ∧ heap q' = ∅.
Proof.
  revert q. induction l as [|[w p] l IH]; intros q Hnd Hdom; cbn [delete_all].
  - exists q. split; [done|]. apply map_eq. intros p. rewrite lookup_empty.
    apply eq_None_not_Some. rewrite <-Hdom. set_solver.
  - apply NoDup_cons in Hnd as [Hp Hnd].
    destruct (proj1 (Hdom p)) as [t Ht]; [by left|].
    unfold free. rewrite Ht. cbn [mbind res_bind]. apply IH; [done|]. intros p'.
    cbn. destruct (decide (p' = p)) as [->|Hne].
    + rewrite lookup_delete_eq. split; [done|]. by intros [].
    + rewrite lookup_delete_ne by done. rewrite <-Hdom. cbn. set_solver.
Qed.

(** The entries are exactly the allocated timers. *)
Lemma timers_dom q p : inv [] q → p ∈ (timers_ q).*2 ↔ is_Some (heap q !! p).
Proof.
  intros Hq. rewrite list_elem_of_fmap. split.
  - intros ([w p'] & -> & Hin). apply (i_entry _ _ Hq) in Hin as (_ & t & ? & _). by exists t.
  - intros [t Ht]. exists (expiration_ t, p). split; [done|].
    apply (i_entry _ _ Hq). split; [set_solver|by exists t].
Qed.

Lemma entries_nodup l q :
  (∀ w p, (w, p) ∈ l → ∃ t, heap q !! p = Some t ∧ expiration_ t = w) →
  StronglySorted entry_lt l → NoDup l.*2.
Proof.
  intros Hent Hs. apply NoDup_fmap_2_strong.
  - intros [w1 p1] [w2 p2] H1 H2. cbn. intros ->.
    apply Hent in H1 as (? & ? & <-). apply Hent in H2 as (? & ? & <-). congruence.
  - clear Hent. induction l as [|x l IH]; constructor; [by apply sorted_head_notin|].
    apply IH. by apply StronglySorted_inv in Hs as [].
Qed.

Lemma entries_alloc q w p :
  inv [] q → (w, p) ∈ timers_ q → ∃ t, heap q !! p = Some t ∧ expiration_ t = w.
Proof. intros Hq Hin. by apply (i_entry _ _ Hq) in Hin as [_ ?]. Qed.

Lemma due_alloc q n w p :
  inv [] q → (w, p) ∈ due n q → ∃ t, heap q !! p = Some t ∧ expiration_ t = w.
Proof. intros Hq [_ Hin]%list_elem_of_filter. by apply entries_alloc. Qed.

(** The timers of a batch, in the order in which they run. *)
Definition batch q : list (@Timer Cb) :=
  omap (λ p, heap q !! p) (due (now steady q) q).*2.

Lemma heap_omap q l :
  Forall (λ p, is_Some (heap q !! p)) l →
  seq_at q <$> l = sequence_ <$> omap (λ p, heap q !! p) l.
Proof.
  induction 1 as [|p l [t Ht] _ IH]; [done|]. cbn.
  unfold seq_at at 1. rewrite Ht. cbn. by f_equal.
Qed.

Lemma batch_sorted l q :
  (∀ w p, (w, p) ∈ l → ∃ t, heap q !! p = Some t ∧ expiration_ t = w) →
  StronglySorted entry_lt l →
  StronglySorted (λ t1 t2, expiration_ t1 ≤ expiration_ t2)
    (omap (λ p, heap q !! p) l.*2).
Proof.
  intros Hent. induction 1 as [|[w p] l Hs IH Hall]; [constructor|]. cbn.
  destruct (Hent w p) as (t & Ht & Hw); [by left|]. rewrite Ht.
  constructor; [apply IH; intros; apply Hent; by right|].
  apply Forall_forall. intros t2 (p2 & Hp2 & Ht2)%list_elem_of_omap.
  apply list_elem_of_fmap in Hp2 as ([w2 p2'] & -> & Hin). cbn in Ht2.
  destruct (Hent w2 p2') as (t3 & Ht3 & Hw2); [by right|].
  rewrite Forall_forall in Hall. specialize (Hall _ Hin). unfold entry_lt in Hall.
  cbn in Hall. assert (t3 = t2) as -> by congruence. lia.
Qed.

Lemma filter_sorted n l :
  StronglySorted entry_lt l → StronglySorted entry_lt (filter (λ e, e.1 ≤ n) l).
Proof.
  induction 1 as [|x l Hs IH Hall]; [constructor|].
  destruct (decide (x.1 ≤ n)); [rewrite filter_cons_True|rewrite filter_cons_False]; try done.
  constructor; [done|]. rewrite Forall_forall in *.
  intros y [_ Hy]%list_elem_of_filter. by apply Hall.
Qed.

Lemma due_is_Some q n : inv [] q → Forall (λ p, is_Some (heap q !! p)) (due n q).*2.
Proof.
  intros Hq. apply Forall_forall. intros p ([w ?] & -> & Hin)%list_elem_of_fmap.
  destruct (due_alloc q n w _ Hq Hin) as (t & ? & _). by exists t.
Qed.

Lemma batch_spec q :
  inv [] q →
  StronglySorted (λ t1 t2, expiration_ t1 ≤ expiration_ t2) (batch q) ∧
  NoDup (sequence_ <$> batch q) ∧
  ∀ t, t ∈ batch q ↔ (timer_of q (sequence_ t) = Some t ∧ expiration_ t ≤ now steady q).
Proof.
  intros Hq. pose proof (due_is_Some q (now steady q) Hq) as Hsome.
  assert (Hs : StronglySorted entry_lt (due (now steady q) q))
    by (apply filter_sorted, (i_sorted _ _ Hq)).
  unfold batch. split_and!.
  - apply batch_sorted; [|done]. intros w p. by apply due_alloc.
  - rewrite <-heap_omap by done. apply NoDup_fmap_2_strong.
    + rewrite Forall_forall in Hsome. unfold seq_at.
      intros p1 p2 [t1 H1]%Hsome [t2 H2]%Hsome. rewrite H1, H2. by apply (i_inj _ _ Hq).
    + eapply entries_nodup; [|done]. intros w p. by apply due_alloc.
  - intros t. rewrite list_elem_of_omap, timer_of_Some by done. split.
    + intros (p & Hin & Hp). split; [by exists p|]. by apply (due_spec _ p q).
    + intros [(p & Hp & _) Hle]. exists p. split; [|done]. by apply (due_spec _ p q t).
Qed.

(** ** Properties *)

(** C22: No sequence of calls, whatever the callbacks do with the queue while
    they run, dereferences or deletes a freed timer; every timer still allocated
    is pending, and the destructor then frees each of them exactly once. *)
Theorem timer_queue_memory_safe os w :
  ∃ o w' q q', run os w empty_queue = Ok (o, w', q) ∧
    (∀ p t, heap q !! p = Some t → timer_of q (sequence_ t) = Some t) ∧
    destroy q = Ok q' ∧ heap q' = ∅.
Proof.
  destruct (run_good os w empty_queue empty_good) as (o & w' & q & Hrun & Hg & _).
  pose proof (g_inv _ Hg) as Hi.
  destruct (delete_all_ok (timers_ q) q) as (q' & Hdel & Hh).
  { eapply entries_nodup; [|apply (i_sorted _ _ Hi)]. intros ??. by apply entries_alloc. }
  { intros p. by apply timers_dom. }
  exists o, w', q, q'. split_and!; [done| |done..].
  intros p t Hp. apply timer_of_Some; [done|]. by exists p.
Qed.

(** C2: A wake-up of a reachable queue fires exactly the timers that are due,
    each once, by increasing deadline, whatever their callbacks do; afterwards a
    cancelled timer is gone, a due one-shot timer is gone, a due repeating timer
    is pending again one interval later, and any other timer is as before. *)
Theorem expired_batch os w0 o0 w q :
  run os w0 empty_queue = Ok (o0, w, q) →
  ∃ o w' q', handle_expired steady malloc body w q = Ok (o, w', q') ∧
    fired o = sequence_ <$> batch q ∧
    StronglySorted (λ t1 t2, expiration_ t1 ≤ expiration_ t2) (batch q) ∧
    NoDup (sequence_ <$> batch q) ∧
    (∀ t, t ∈ batch q ↔
       (timer_of q (sequence_ t) = Some t ∧ expiration_ t ≤ now steady q)) ∧
    (∀ s t, timer_of q s = Some t → timer_of q' s = survivor (now steady q) o t).
Proof.
  intros Hg%reachable_good. pose proof (g_inv _ Hg) as Hi.
  destruct (handle_expired_ok w q Hg)
    as (o & w' & q' & _ & _ & Hrun & _ & Hf & _).
  exists o, w', q'. split_and!; [done|..].
  - rewrite Hf. by apply heap_omap, due_is_Some.
  - by apply batch_spec.
  - by apply batch_spec.
  - by apply batch_spec.
  - intros s t. by eapply handle_expired_survivors.
Qed.

(** Once [cancel] has been called outside a batch, the timer never fires
    again, whatever calls follow, even if its memory has been given to another
    timer. *)
Theorem cancelled_never_fires os w0 o0 w q id os' o w' q' :
  run os w0 empty_queue = Ok (o0, w, q) →
  valid id = true → seq_ id < next_seq_ q →
  run (OpCancel id :: os') w q = Ok (o, w', q') →
  (Fired (seq_ id) ∉ o) ∧ timer_of q' (seq_ id) = None.
Proof.
  intros Hg%reachable_good Hv Hlt. cbn [run exec].
  destruct (cancel_good id q Hg) as (q1 & Hcan & Hg1 & _). rewrite Hcan, Hv.
  cbn [mbind res_bind]. intros ([[o2 w2] q2] & Hrun & [= <- <- <-])%res_bind_ok.
  destruct (gone_forever os' w q1 o2 w2 q2 (seq_ id) Hg1) as [Hnf Hno].
  - by rewrite (cancel_next _ _ _ Hcan).
  - rewrite (cancel_timer_of _ _ _ _ Hg Hcan), Hv. by rewrite Z.eqb_refl.
  - done.
  - split; [set_solver|done].
Qed.

(** [cancel] removes the timer with that sequence number and leaves every
    other one alone; a stale or default identifier is harmless, even when its
    pointer is that of a live timer. *)
Theorem cancel_exact os w0 o0 w q id :
  run os w0 empty_queue = Ok (o0, w, q) →
  ∃ q', cancel steady id q = Ok q' ∧
    ∀ s, timer_of q' s = if valid id && (s =? seq_ id) then None else timer_of q s.
Proof.
  intros Hg%reachable_good. destruct (cancel_good id q Hg) as (q' & Hcan & _).
  exists q'. split; [done|]. intros s. by apply cancel_timer_of.
Qed.

(** C36: The queue is well formed whenever no batch runs: the set is strictly
    ordered, it and the index hold exactly the allocated timers, each under its
    own deadline and sequence number, sequence numbers are unique and below the
    next one to be given out, and nothing is left of the last batch. *)
Theorem queue_well_formed os w0 o0 w q :
  run os w0 empty_queue = Ok (o0, w, q) →
  StronglySorted entry_lt (timers_ q) ∧
  (∀ when p, (when, p) ∈ timers_ q ↔ ∃ t, heap q !! p = Some t ∧ expiration_ t = when) ∧
  (∀ s p, active_ q !! s = Some p ↔ ∃ t, heap q !! p = Some t ∧ sequence_ t = s) ∧
  (∀ p1 p2 t1 t2, heap q !! p1 = Some t1 → heap q !! p2 = Some t2 →
     sequence_ t1 = sequence_ t2 → p1 = p2) ∧
  (∀ p t, heap q !! p = Some t → sequence_ t < next_seq_ q) ∧
  calling_expired_ q = false ∧ canceling_seqs_ q = [].
Proof.
  intros [Hi Hca Hc _]%reachable_good. pose proof (not_elem_of_nil (A := addr)) as Hnil.
  split_and!; try by apply Hi.
  - intros when p. rewrite (i_entry _ _ Hi). naive_solver.
  - intros s p. rewrite (i_active _ _ Hi). naive_solver.
  - done.
  - done.
Qed.

(** Between two calls the timerfd is disarmed exactly when no timer is
    pending; otherwise it is armed, with a valid nonzero [it_value], for the
    earliest deadline, or one nanosecond ahead if that one has passed. *)
Theorem wakeup_armed os w0 o0 w q :
  run os w0 empty_queue = Ok (o0, w, q) →
  match timerfd_ q with
  | Disarmed => ∀ s, timer_of q s = None
  | Armed n sec ns =>
      0 ≤ sec ∧ 0 ≤ ns < 1000000000 ∧ 0 < sec * 1000000000 + ns ∧
      ∃ s0 t0, timer_of q s0 = Some t0 ∧
        (∀ s t, timer_of q s = Some t → expiration_ t0 ≤ expiration_ t) ∧
        n + (sec * 1000000000 + ns) = Z.max (expiration_ t0) (n + 1)
  end.
Proof.
  intros Hg%reachable_good. pose proof (g_inv _ Hg) as Hi.
  pose proof (g_armed _ Hg) as Ha. unfold armed in Ha.
  pose proof (i_sorted _ _ Hi) as Hs.
  destruct (timers_ q) as [|[w1 p1] l] eqn:Ht.
  - rewrite Ha. intros s. apply timer_of_None; [done|]. intros p t Hp _.
    assert (Hin : (expiration_ t, p) ∈ timers_ q).
    { apply (i_entry _ _ Hi). split; [set_solver|by exists t]. }
    rewrite Ht in Hin. set_solver.
  - destruct Ha as (n & sec & ns & -> & ? & ? & Heq). split_and!; try lia.
    destruct (entries_alloc q w1 p1 Hi) as (t0 & Ht0 & <-); [rewrite Ht; by left|].
    exists (sequence_ t0), t0. split_and!.
    + apply timer_of_Some; [done|]. by exists p1.
    + intros s t (p & Hp & _)%timer_of_Some; [|done].
      assert (Hin : (expiration_ t, p) ∈ timers_ q).
      { apply (i_entry _ _ Hi). split; [set_solver|by exists t]. }
      rewrite Ht in Hin. apply elem_of_cons in Hin as [[= -> _]|Hin]; [lia|].
      apply StronglySorted_inv in Hs as [_ Hall]. rewrite Forall_forall in Hall.
      apply Hall in Hin. unfold entry_lt in Hin. cbn in Hin. lia.
    + done.
Qed.
End invariant.

(** ** Witnesses *)

(** An allocator that reuses addresses: one past the highest address in use. *)
Definition next_addr {Cb} (h : gmap addr (@Timer Cb)) : addr :=
  1 + foldr Z.max 0 (map_to_list h).*1.

Lemma foldr_max_le (l : list Z) x : x ∈ l → x ≤ foldr Z.max 0 l.
Proof. induction 1; cbn; lia. Qed.

Lemma next_addr_fresh {Cb} (h : gmap addr (@Timer Cb)) : h !! next_addr h = None.
Proof.
  apply eq_None_not_Some. intros [t Ht%elem_of_map_to_list].
  assert (Hin : next_addr h ∈ (map_to_list h).*1).
  { apply list_elem_of_fmap. by exists (next_addr h, t). }
  apply foldr_max_le in Hin. unfold next_addr in Hin. lia.
Qed.

Module Demo.
(** Callback 0 cancels timer 2 and adds a timer; any other throws. *)
Definition body (cb : nat) (w : unit) : @prog nat unit :=
  match cb with
  | O => CallCancel (mkTimerId (Some 2) 2) (CallAdd 1%nat 7 (λ _, Ret tt))
  | S _ => Raise tt
  end.
Definition clock (n : nat) : Z := 10 * Z.of_nat n.
Definition ops : list (@op nat) :=
  [OpAdd 0%nat 5; OpAddPeriodic 1%nat 30; OpAddPeriodic 2%nat 8; OpAdd 3%nat 1000].
Definition queue : @TimerQueue nat :=
  match run clock next_addr body ops tt empty_queue with
  | Ok (_, _, q) => q
  | _ => empty_queue
  end.

Lemma run_ops :
  run clock next_addr body ops tt empty_queue =
  Ok ([Added 1; Added 2; Added 3; Added 4], tt, queue).
Proof. vm_compute. reflexivity. Qed.

(** Cancel timer 3 (through an identifier whose pointer is another timer's), add
    a timer, wake up. *)
Definition later : list op :=
  [OpCancel (mkTimerId (Some 1) 3); OpAdd 1%nat 0; OpExpire].
Definition queue' : @TimerQueue nat :=
  match run clock next_addr body later tt queue with
  | Ok (_, _, q) => q
  | _ => empty_queue
  end.

Lemma run_later :
  run clock next_addr body later tt queue =
  Ok ([Cancelled 3; Added 5; Fired 1; Cancelled 2; Added 6; Fired 2; Fired 5],
      tt, queue').
Proof. vm_compute. reflexivity. Qed.
End Demo.

Lemma timer_queue_memory_safe_witness :
  ∃ o w' q q',
    run Demo.clock next_addr Demo.body (Demo.ops ++ [OpExpire]) tt empty_queue
      = Ok (o, w', q) ∧
    (∀ p t, heap q !! p = Some t → timer_of q (sequence_ t) = Some t) ∧
    destroy q = Ok q' ∧ heap q' = ∅.
Proof.
  exact (timer_queue_memory_safe Demo.clock next_addr Demo.body next_addr_fresh
    (Demo.ops ++ [OpExpire]) tt).
Defined.

Lemma expired_batch_witness :
  ∃ o w' q', handle_expired Demo.clock next_addr Demo.body tt Demo.queue = Ok (o, w', q') ∧
    fired o = sequence_ <$> batch Demo.clock Demo.queue ∧
    (∀ s t, timer_of Demo.queue s = Some t →
       timer_of q' s = survivor (now Demo.clock Demo.queue) o t).
Proof.
  destruct (expired_batch Demo.clock next_addr Demo.body next_addr_fresh
    Demo.ops tt [Added 1; Added 2; Added 3; Added 4] tt Demo.queue Demo.run_ops)
    as (o & w' & q' & H1 & H2 & _ & _ & _ & H3).
  exists o, w', q'. split; [exact H1|]. split; [exact H2|exact H3].
Defined.

Lemma cancelled_never_fires_witness :
  (Fired 3 ∉ [Cancelled 3; Added 5; Fired 1; Cancelled 2; Added 6; Fired 2; Fired 5]) ∧
  timer_of Demo.queue' 3 = None.
Proof.
  apply (cancelled_never_fires Demo.clock next_addr Demo.body next_addr_fresh
    Demo.ops tt [Added 1; Added 2; Added 3; Added 4] tt Demo.queue
    (mkTimerId (Some 1) 3) [OpAdd 1%nat 0; OpExpire] _ tt Demo.queue' Demo.run_ops).
  - reflexivity.
  - vm_compute. reflexivity.
  - exact Demo.run_later.
Defined.

Lemma cancel_exact_witness :
  ∃ q', cancel Demo.clock (mkTimerId (Some 1) 3) Demo.queue = Ok q' ∧
    ∀ s, timer_of q' s = if s =? 3 then None else timer_of Demo.queue s.
Proof.
  exact (cancel_exact Demo.clock next_addr Demo.body next_addr_fresh
    Demo.ops tt [Added 1; Added 2; Added 3; Added 4] tt Demo.queue
    (mkTimerId (Some 1) 3) Demo.run_ops).
Defined.

Lemma wakeup_armed_witness :
  match timerfd_ Demo.queue with
  | Disarmed => ∀ s, timer_of Demo.queue s = None
  | Armed n sec ns =>
      0 ≤ sec ∧ 0 ≤ ns < 1000000000 ∧ 0 < sec * 1000000000 + ns ∧
      ∃ s0 t0, timer_of Demo.queue s0 = Some t0 ∧
        (∀ s t, timer_of Demo.queue s = Some t → expiration_ t0 ≤ expiration_ t) ∧
        n + (sec * 1000000000 + ns) = Z.max (expiration_ t0) (n + 1)
  end.
Proof.
  exact (wakeup_armed Demo.clock next_addr Demo.body next_addr_fresh
    Demo.ops tt [Added 1; Added 2; Added 3; Added 4] tt Demo.queue Demo.run_ops).
Defined.

Lemma queue_well_formed_witness :
  StronglySorted entry_lt (timers_ Demo.queue) ∧ calling_expired_ Demo.queue = false.
Proof.
  destruct (queue_well_formed Demo.clock next_addr Demo.body next_addr_fresh
    Demo.ops tt [Added 1; Added 2; Added 3; Added 4] tt Demo.queue Demo.run_ops)
    as (H1 & _ & _ & _ & _ & H2 & _).
  split; [exact H1|exact H2].
Defined.
