(* ===== verification/ThreadPool.v ===== *)
(** * ThreadPool: the business thread pool and the awaiter of [submit]

    Models [include/coro_net/thread_pool.hpp], [submit_awaiter.hpp] and
    [src/thread_pool/coro_thread_pool.cc] as a state machine whose steps
    interleave: the worker threads, any number of [enqueue] calls and the thread
    that calls [start] and [stop].  A critical section of [mu_] in which no other
    thread can see an intermediate state is one step; [stopping_] is atomic and
    is stored without the mutex, as the code does.

    [cv_.wait(lk, pred)] is three states: the worker evaluates the predicate
    holding the mutex ([WEval]); when false it is about to wait, still holding
    the mutex ([WWait]); then it releases the mutex and joins the waiting set in
    one step ([WBlocked]).  A notification wakes members of the waiting set only;
    a spurious wake-up is a step of its own. *)
From S2P Require Import Prelude.

Section thread_pool.
(** The values and exceptions of submitted functions. *)
Context {V X : Type}.

(** [SubmitAwaiter]'s [result_]: index 0, 1 or 2 of the variant. *)
Inductive result : Type :=
  | Pending
  | Value (v : V)
  | Exception (x : X).

(** What a call of [fn_] does: return or throw. *)
Inductive outcome : Type :=
  | Returns (v : V)
  | Throws (x : X).

(** The closure that [await_suspend] enqueues: its awaiter, the suspended
    coroutine and the scheduler of the submitting thread (null outside one). *)
Record task := mkTask {
  awaiter : nat;
  handle_ : nat;
  src_sched_ : option nat;
}.

(** Where a worker is in [worker_loop]. *)
Inductive worker : Type :=
  | WLock                 (* about to lock [mu_], or woken and relocking it *)
  | WEval                 (* holds [mu_], evaluates the predicate *)
  | WWait                 (* holds [mu_], saw it false, about to wait *)
  | WBlocked              (* in the waiting set of [cv_] *)
  | WRun (t : task)       (* runs [fn_] *)
  | WPost (t : task)      (* [result_] written, about to post the handle *)
  | WNull (t : task)      (* dereferenced a null [src_sched_] *)
  | WDone.                (* returned *)

(** Where the owner is in [stop]. *)
Inductive stopper : Type :=
  | SIdle
  | SNotify               (* [stopping_] stored, about to [notify_all] *)
  | SJoin.                (* joining the threads *)

Record pool := mkPool {
  target_threads_ : nat;
  threads_ : list worker;
  mu_ : option nat;                 (* the worker that holds the mutex *)
  queue_ : list task;
  stopping_ : bool;
  started_ : bool;
  owner : stopper;
  to_notify : nat;                  (* [enqueue] calls before their [notify_one] *)
  results : gmap nat result;        (* [result_] of each awaiter *)
  posted : list (nat * nat);        (* handles posted: scheduler, handle *)
  (* history *)
  enqueued : list task;
  taken : list task;
  finished : list task;
  at_stop : list task;              (* [enqueued] when [stopping_] was last stored *)
}.

(** The constructor: at least one thread. *)
Definition new_pool (threads : nat) : pool :=
  mkPool (if decide (threads = 0%nat) then 1%nat else threads) [] None [] false false
    SIdle 0 ∅ [] [] [] [] [].

Definition set_threads (ws : list worker) (s : pool) : pool :=
  mkPool (target_threads_ s) ws (mu_ s) (queue_ s) (stopping_ s) (started_ s) (owner s)
    (to_notify s) (results s) (posted s) (enqueued s) (taken s) (finished s) (at_stop s).
Definition set_mu (m : option nat) (s : pool) : pool :=
  mkPool (target_threads_ s) (threads_ s) m (queue_ s) (stopping_ s) (started_ s) (owner s)
    (to_notify s) (results s) (posted s) (enqueued s) (taken s) (finished s) (at_stop s).
Definition move (i : nat) (w : worker) (s : pool) : pool :=
  set_threads (<[i := w]> (threads_ s)) s.

Context (fn : nat → outcome).

(** The two [emplace]s of the closure. *)
Definition store (o : outcome) : result :=
  match o with Returns v => Value v | Throws x => Exception x end.

(** [await_resume]: rethrow, or move the value out. *)
Definition await_resume (r : result) : option (V + X) :=
  match r with
  | Exception x => Some (inr x)
  | Value v => Some (inl v)
  | Pending => None
  end.

(** [enqueue]: push under the lock; [notify_one] is a later step. *)
Definition enqueue (t : task) (s : pool) : pool :=
  mkPool (target_threads_ s) (threads_ s) (mu_ s) (queue_ s ++ [t]) (stopping_ s)
    (started_ s) (owner s) (S (to_notify s)) (results s) (posted s)
    (enqueued s ++ [t]) (taken s) (finished s) (at_stop s).

(** [cv_.notify_one()] of an [enqueue]. *)
Definition notified (s : pool) : pool :=
  mkPool (target_threads_ s) (threads_ s) (mu_ s) (queue_ s) (stopping_ s)
    (started_ s) (owner s) (pred (to_notify s)) (results s) (posted s)
    (enqueued s) (taken s) (finished s) (at_stop s).

(** The pop of [worker_loop], which also releases the mutex. *)
Definition pop (i : nat) (t : task) (rest : list task) (s : pool) : pool :=
  mkPool (target_threads_ s) (<[i := WRun t]> (threads_ s)) None rest (stopping_ s)
    (started_ s) (owner s) (to_notify s) (results s) (posted s)
    (enqueued s) (taken s ++ [t]) (finished s) (at_stop s).

(** [result_.emplace] of the closure. *)
Definition emplace (i : nat) (t : task) (s : pool) : pool :=
  mkPool (target_threads_ s) (<[i := WPost t]> (threads_ s)) (mu_ s) (queue_ s)
    (stopping_ s) (started_ s) (owner s) (to_notify s)
    (<[awaiter t := store (fn (awaiter t))]> (results s)) (posted s)
    (enqueued s) (taken s) (finished s) (at_stop s).

(** [src_sched_->post(handle_)], after which the worker loops. *)
Definition post (i : nat) (t : task) (sched : nat) (s : pool) : pool :=
  mkPool (target_threads_ s) (<[i := WLock]> (threads_ s)) (mu_ s) (queue_ s)
    (stopping_ s) (started_ s) (owner s) (to_notify s) (results s)
    (posted s ++ [(sched, handle_ t)])
    (enqueued s) (taken s) (finished s ++ [t]) (at_stop s).

Definition start (s : pool) : pool :=
  if started_ s then s else
  mkPool (target_threads_ s) (replicate (target_threads_ s) WLock) None (queue_ s) false
    true SIdle (to_notify s) (results s) (posted s)
    (enqueued s) (taken s) (finished s) (at_stop s).

(** [stop]'s store, its [notify_all] and its end once every thread is joined. *)
Definition store_stopping (s : pool) : pool :=
  mkPool (target_threads_ s) (threads_ s) (mu_ s) (queue_ s) true (started_ s) SNotify
    (to_notify s) (results s) (posted s) (enqueued s) (taken s) (finished s) (enqueued s).
Definition wake (w : worker) : worker :=
  match w with WBlocked => WLock | _ => w end.
Definition notify_all (s : pool) : pool :=
  mkPool (target_threads_ s) (wake <$> threads_ s) (mu_ s) (queue_ s) (stopping_ s)
    (started_ s) SJoin (to_notify s) (results s) (posted s)
    (enqueued s) (taken s) (finished s) (at_stop s).
Definition joined (s : pool) : pool :=
  mkPool (target_threads_ s) [] (mu_ s) (queue_ s) (stopping_ s) false SIdle
    (to_notify s) (results s) (posted s) (enqueued s) (taken s) (finished s) (at_stop s).

Definition is_done (w : worker) : bool := match w with WDone => true | _ => false end.
Definition is_blocked (w : worker) : bool := match w with WBlocked => true | _ => false end.

Inductive event : Type :=
  | EvLock (i : nat)
  | EvEval (i : nat)
  | EvBlock (i : nat)
  | EvSpurious (i : nat)
  | EvRun (i : nat)
  | EvPost (i : nat)
  | EvEnqueue (t : task)
  | EvNotifyOne (i : option nat)
  | EvStart
  | EvStop
  | EvNotifyAll
  | EvJoined.

(** One step of [worker_loop], by where the worker is. *)
Definition eval (i : nat) (s : pool) : pool :=
  match queue_ s with
  | t :: rest => pop i t rest s
  | [] => if stopping_ s then set_mu None (move i WDone s) else move i WWait s
  end.

Definition exec (e : event) (s : pool) : option pool :=
  match e with
  | EvLock i =>
      match threads_ s !! i, mu_ s with
      | Some WLock, None => Some (set_mu (Some i) (move i WEval s))
      | _, _ => None
      end
  | EvEval i => match threads_ s !! i with Some WEval => Some (eval i s) | _ => None end
  | EvBlock i =>
      match threads_ s !! i with
      | Some WWait => Some (set_mu None (move i WBlocked s))
      | _ => None
      end
  | EvSpurious i =>
      match threads_ s !! i with Some WBlocked => Some (move i WLock s) | _ => None end
  | EvRun i =>
      match threads_ s !! i with Some (WRun t) => Some (emplace i t s) | _ => None end
  | EvPost i =>
      match threads_ s !! i with
      | Some (WPost t) =>
          match src_sched_ t with
          | Some sched => Some (post i t sched s)
          | None => Some (move i (WNull t) s)
          end
      | _ => None
      end
  | EvEnqueue t => match mu_ s with None => Some (enqueue t s) | Some _ => None end
  | EvNotifyOne None =>
      if (0 <? to_notify s)%nat && negb (existsb is_blocked (threads_ s))
      then Some (notified s) else None
  | EvNotifyOne (Some i) =>
      match threads_ s !! i with
      | Some WBlocked =>
          if (0 <? to_notify s)%nat then Some (move i WLock (notified s)) else None
      | _ => None
      end
  | EvStart => Some (start s)
  | EvStop =>
      match owner s with
      | SIdle => Some (if started_ s then store_stopping s else s)
      | _ => None
      end
  | EvNotifyAll => match owner s with SNotify => Some (notify_all s) | _ => None end
  | EvJoined =>
      match owner s with
      | SJoin => if forallb is_done (threads_ s) then Some (joined s) else None
      | _ => None
      end
  end.

(** [size()], and the part of [~CoroThreadPool] that precedes the joins of [stop]. *)
Definition size (s : pool) : nat := length (threads_ s).
Definition destroy (s : pool) : pool :=
  if started_ s then default s (exec EvStop s) else s.

Definition step (s s' : pool) : Prop := ∃ e, exec e s = Some s'.
Definition reachable (threads : nat) (s : pool) : Prop := rtc step (new_pool threads) s.

Fixpoint run (es : list event) (s : pool) : option pool :=
  match es with
  | [] => Some s
  | e :: es => s ← exec e s; run es s
  end.
End thread_pool.

(** ** Counting workers *)

Section workers.
Context {V X : Type} (fn : nat → @outcome V X).
Implicit Types s : @pool V X.
Implicit Types ws : list worker.

(** The tasks that workers hold. *)
Definition holding (w : worker) : list task :=
  match w with WRun t | WPost t | WNull t => [t] | _ => [] end.
Definition running ws : list task := ws ≫= holding.

(** The workers on their way to the queue. *)
Definition is_awake (w : worker) : bool :=
  match w with WLock | WEval => true | _ => false end.
Definition awake ws : nat := sum_list_with (λ w, Nat.b2n (is_awake w)) ws.

Lemma sum_list_with_insert {A} (f : A → nat) (l : list A) i x y :
  l !! i = Some x →
  (sum_list_with f (<[i := y]> l) + f x = sum_list_with f l + f y)%nat.
Proof.
  revert i. induction l as [|z l IH]; intros [|i] Hi; try done.
  - injection Hi as ->. cbn. lia.
  - specialize (IH i Hi). change (f z + sum_list_with f (<[i:=y]> l) + f x = f z + sum_list_with f l + f y)%nat. lia.
Qed.

Lemma awake_insert ws i x y :
  ws !! i = Some x →
  (awake (<[i := y]> ws) + Nat.b2n (is_awake x) = awake ws + Nat.b2n (is_awake y))%nat.
Proof. apply (sum_list_with_insert (λ w, Nat.b2n (is_awake w))). Qed.

Lemma running_insert ws i x y :
  ws !! i = Some x → holding x ++ running (<[i := y]> ws) ≡ₚ holding y ++ running ws.
Proof.
  unfold running.
  revert i. induction ws as [|z ws IH]; intros [|i] Hi; try done.
  - injection Hi as ->. cbn. rewrite !app_assoc. apply Permutation_app_tail, Permutation_app_comm.
  - specialize (IH i Hi). cbn. rewrite (Permutation_app_swap_app (holding x)), (Permutation_app_swap_app (holding y)).
    by rewrite IH.
Qed.

Lemma running_same ws i x y :
  ws !! i = Some x → holding x = holding y → running (<[i := y]> ws) ≡ₚ running ws.
Proof.
  intros Hi Hh. pose proof (running_insert ws i x y Hi) as Hp. rewrite Hh in Hp.
  by apply Permutation_app_inv_l in Hp.
Qed.

Lemma awake_wake ws : (awake ws ≤ awake (wake <$> ws))%nat.
Proof.
  unfold awake. induction ws as [|w ws IH]; [done|].
  rewrite fmap_cons. cbn [sum_list_with]. destruct w; cbn; lia.
Qed.

Lemma running_wake ws : running (wake <$> ws) = running ws.
Proof. unfold running. induction ws as [|[] ws IH]; cbn; by rewrite ?IH. Qed.

Lemma wake_not_blocked ws i : (wake <$> ws) !! i ≠ Some WBlocked.
Proof. rewrite list_lookup_fmap. by destruct (ws !! i) as [[]|]. Qed.

(** ** Invariant *)

Definition ok (i : nat) (w : worker) s : Prop :=
  match w with
  | WEval => mu_ s = Some i
  | WWait => mu_ s = Some i ∧ queue_ s = []
  | WBlocked => (length (queue_ s) ≤ to_notify s + awake (threads_ s))%nat
  | WPost t => results s !! awaiter t = Some (store (fn (awaiter t)))
  | WNull t => src_sched_ t = None
  | WDone => stopping_ s = true ∧ at_stop s `prefix_of` taken s
  | _ => True
  end.

Definition posted_for (t : task) (p : nat * nat) : Prop :=
  src_sched_ t = Some p.1 ∧ handle_ t = p.2.

Record inv s : Prop := {
  v_enq : enqueued s = taken s ++ queue_ s;
  v_taken : taken s ≡ₚ finished s ++ running (threads_ s);
  v_posted : Forall2 posted_for (finished s) (posted s);
  v_results t : t ∈ finished s → results s !! awaiter t = Some (store (fn (awaiter t)));
  v_worker i w : threads_ s !! i = Some w → ok i w s;
  v_mu i : mu_ s = Some i → threads_ s !! i = Some WEval ∨ threads_ s !! i = Some WWait;
  v_stop : at_stop s `prefix_of` enqueued s;
  v_started : started_ s = false → threads_ s = [] ∧ owner s = SIdle;
  v_target : target_threads_ s ≠ 0%nat;
  v_threads : started_ s = true → length (threads_ s) = target_threads_ s;
  v_stopping : started_ s = true → stopping_ s = match owner s with SIdle => false | _ => true end;
}.

Lemma new_pool_inv n : inv (new_pool n).
Proof.
  split; cbn; try done.
  - set_solver.
  - by case_decide.
Qed.

(** A worker moves without taking or giving back a task. *)
Lemma move_inv s i x y m :
  inv s → threads_ s !! i = Some x → holding x = holding y →
  (∀ j w, (<[i := y]> (threads_ s)) !! j = Some w → ok j w (set_mu m (move i y s))) →
  (∀ j, m = Some j → (<[i := y]> (threads_ s)) !! j = Some WEval ∨
                     (<[i := y]> (threads_ s)) !! j = Some WWait) →
  inv (set_mu m (move i y s)).
Proof.
  intros Hs Hi Hh Hok Hm.
  split; cbn; try apply Hs; try done.
  - rewrite (running_same _ _ _ _ Hi Hh). apply Hs.
  - intros Hst. apply (v_started _ Hs) in Hst as [-> ?]. done.
  - intros Hst. rewrite length_insert. by apply Hs.
Qed.

Ltac pool_simpl :=
  cbn [ok threads_ mu_ queue_ to_notify results stopping_ at_stop taken enqueued finished
    posted started_ owner target_threads_ set_mu set_threads move pop emplace post enqueue
    notified notify_all store_stopping is_awake holding Nat.b2n] in *.

(** Case analysis on a lookup in the updated worker list. *)
Ltac other_worker Hs :=
  let j := fresh "j" in let w := fresh "w" in let Hj := fresh "Hj" in
  intros j w Hj;
  apply list_lookup_insert_Some in Hj as [(<- & <- & _)|[? Hj]];
  [pool_simpl; try done|pose proof (v_worker _ Hs j w Hj); destruct w; pool_simpl; try done; try (exfalso; intuition congruence); try lia].

Lemma lock_inv s i :
  inv s → threads_ s !! i = Some WLock → mu_ s = None →
  inv (set_mu (Some i) (move i WEval s)).
Proof.
  intros Hs Hi Hmu. pose proof (awake_insert _ _ _ WEval Hi) as Hc. pool_simpl.
  pose proof (lookup_lt_Some _ _ _ Hi).
  apply (move_inv s i WLock WEval); try done.
  - other_worker Hs.
  - intros j [= <-]. left. by apply list_lookup_insert_eq.
Qed.

Lemma block_inv s i :
  inv s → threads_ s !! i = Some WWait → inv (set_mu None (move i WBlocked s)).
Proof.
  intros Hs Hi. pose proof (awake_insert _ _ _ WBlocked Hi) as Hc. pool_simpl.
  pose proof (v_worker _ Hs _ _ Hi) as [Hmu Hq].
  apply (move_inv s i WWait WBlocked); try done.
  other_worker Hs; rewrite ?Hq; cbn [length]; lia.
Qed.

Lemma wake_inv s i :
  inv s → threads_ s !! i = Some WBlocked → inv (move i WLock s).
Proof.
  intros Hs Hi. pose proof (awake_insert _ _ _ WLock Hi) as Hc. pool_simpl.
  change (move i WLock s) with (set_mu (mu_ s) (move i WLock s)).
  apply (move_inv s i WBlocked WLock); try done.
  - other_worker Hs.
  - intros j Hj. destruct (v_mu _ Hs _ Hj) as [Hw|Hw]; [left|right];
      rewrite list_lookup_insert_ne; congruence.
Qed.

Lemma eval_inv s i : inv s → threads_ s !! i = Some WEval → inv (eval i s).
Proof.
  intros Hs Hi. pose proof (v_worker _ Hs _ _ Hi) as Hmu. pool_simpl.
  pose proof (lookup_lt_Some _ _ _ Hi). unfold eval.
  destruct (queue_ s) as [|t rest] eqn:Hq; [destruct (stopping_ s) eqn:Hst|].
  - apply (move_inv s i WEval WDone); try done.
    other_worker Hs; [|rewrite ?Hq; cbn [length]; lia].
    split; [done|]. pose proof (v_stop _ Hs) as Hpre.
    by rewrite (v_enq _ Hs), Hq, app_nil_r in Hpre.
  - change (move i WWait s) with (set_mu (mu_ s) (move i WWait s)).
    apply (move_inv s i WEval WWait); try done.
    + other_worker Hs; rewrite ?Hq; cbn [length]; lia.
    + intros j. rewrite Hmu. intros [= <-]. right. by apply list_lookup_insert_eq.
  - pose proof (awake_insert _ _ _ (WRun t) Hi) as Hc. pool_simpl.
    pose proof (running_insert _ _ _ (WRun t) Hi) as Hr. pool_simpl.
    split; pool_simpl; try apply Hs; try done.
    + rewrite (v_enq _ Hs), Hq, <-app_assoc. done.
    + rewrite (v_taken _ Hs), <-app_assoc. apply Permutation_app_head.
      rewrite Permutation_app_comm. symmetry. exact Hr.
    + other_worker Hs; rewrite ?Hq in *; cbn [length] in *; try lia; try intuition congruence.
      split; [intuition|]. apply prefix_app_r. intuition.
    + intros Hst. apply (v_started _ Hs) in Hst as [Hw _]. by rewrite Hw in Hi.
    + intros Hst. rewrite length_insert. by apply Hs.
Qed.

Lemma emplace_inv s i t :
  inv s → threads_ s !! i = Some (WRun t) → inv (emplace fn i t s).
Proof.
  intros Hs Hi. pose proof (awake_insert _ _ _ (WPost t) Hi) as Hc. pool_simpl.
  assert (Hres : ∀ a, results s !! a = Some (store (fn a)) →
    <[awaiter t := store (fn (awaiter t))]> (results s) !! a = Some (store (fn a))).
  { intros a Ha. destruct (decide (a = awaiter t)) as [->|];
      [by rewrite lookup_insert_eq|by rewrite lookup_insert_ne]. }
  split; pool_simpl; try apply Hs; try done.
  - rewrite (running_same _ _ _ (WPost t) Hi); [apply Hs|done].
  - intros t' Ht'. by apply Hres, Hs.
  - other_worker Hs; [by rewrite lookup_insert_eq|by apply Hres].
  - intros j Hj. destruct (v_mu _ Hs _ Hj) as [Hw|Hw]; [left|right];
      rewrite list_lookup_insert_ne; congruence.
  - intros Hst. apply (v_started _ Hs) in Hst as [Hw _]. by rewrite Hw in Hi.
  - intros Hst. rewrite length_insert. by apply Hs.
Qed.

Lemma post_inv s i t sched :
  inv s → threads_ s !! i = Some (WPost t) → src_sched_ t = Some sched →
  inv (post i t sched s).
Proof.
  intros Hs Hi Hsrc. pose proof (awake_insert _ _ _ WLock Hi) as Hc. pool_simpl.
  pose proof (running_insert _ _ _ WLock Hi) as Hr. pool_simpl.
  pose proof (v_worker _ Hs _ _ Hi) as Hres. pool_simpl.
  split; pool_simpl; try apply Hs; try done.
  - rewrite (v_taken _ Hs), <-app_assoc. apply Permutation_app_head. symmetry. exact Hr.
  - apply Forall2_app; [apply Hs|]. by repeat constructor.
  - intros t' [?|Ht']%elem_of_app; [by apply Hs|].
    by apply list_elem_of_singleton in Ht' as ->.
  - other_worker Hs.
  - intros j Hj. destruct (v_mu _ Hs _ Hj) as [Hw|Hw]; [left|right];
      rewrite list_lookup_insert_ne; congruence.
  - intros Hst. apply (v_started _ Hs) in Hst as [Hw _]. by rewrite Hw in Hi.
  - intros Hst. rewrite length_insert. by apply Hs.
Qed.

(** The steps that do not touch the worker list keep most of the invariant. *)
Lemma enqueue_inv s t : inv s → mu_ s = None → inv (enqueue t s).
Proof.
  intros Hs Hmu. split; pool_simpl; try apply Hs.
  - by rewrite (v_enq _ Hs), app_assoc.
  - intros j w Hj. pose proof (v_worker _ Hs j w Hj) as Hok.
    destruct w; pool_simpl; try done; try (exfalso; intuition congruence).
    rewrite length_app. cbn [length]. lia.
  - apply prefix_app_r, Hs.
Qed.

Lemma notified_none_inv s :
  inv s → existsb is_blocked (threads_ s) = false → inv (notified s).
Proof.
  intros Hs Hb. split; pool_simpl; try apply Hs.
  intros j w Hj. pose proof (v_worker _ Hs j w Hj) as Hok.
  destruct w; pool_simpl; try done. exfalso.
  assert (existsb is_blocked (threads_ s) = true); [|congruence].
  apply existsb_exists. exists WBlocked. split; [|done].
  apply list_elem_of_In. by eapply list_elem_of_lookup_2.
Qed.

Lemma notified_some_inv s i :
  inv s → threads_ s !! i = Some WBlocked → (0 < to_notify s)%nat →
  inv (move i WLock (notified s)).
Proof.
  intros Hs Hi Hn. pose proof (wake_inv s i Hs Hi) as Hw.
  pose proof (awake_insert _ _ _ WLock Hi) as Hc. pool_simpl.
  split; pool_simpl; try apply Hw.
  other_worker Hs.
Qed.

Lemma start_inv s : inv s → inv (start s).
Proof.
  intros Hs. unfold start. destruct (started_ s) eqn:Hst; [done|].
  destruct (v_started _ Hs Hst) as [Hw Ho].
  split; pool_simpl; try apply Hs; try done.
  - rewrite (v_taken _ Hs), Hw. f_equiv. generalize (target_threads_ s).
    induction n; [done|]. by cbn.
  - intros j w Hj. apply lookup_replicate in Hj as [-> _]. done.
  - intros _. by rewrite length_replicate.
Qed.

Lemma store_stopping_inv s :
  inv s → started_ s = true → owner s = SIdle → inv (store_stopping s).
Proof.
  intros Hs Hst Ho. split; pool_simpl; try apply Hs; try done; try congruence.
  intros j w Hj. pose proof (v_worker _ Hs j w Hj) as Hok.
  destruct w; pool_simpl; try done.
  pose proof (v_stopping _ Hs Hst) as Hstop. rewrite Ho in Hstop. intuition congruence.
Qed.

Lemma notify_all_inv s : inv s → owner s = SNotify → inv (notify_all s).
Proof.
  intros Hs Ho. pose proof (awake_wake (threads_ s)).
  split; pool_simpl; try apply Hs; try done.
  - rewrite running_wake. apply Hs.
  - intros j w Hj. rewrite list_lookup_fmap in Hj.
    destruct (threads_ s !! j) as [w'|] eqn:Hj'; [|done]. injection Hj as <-.
    pose proof (v_worker _ Hs j w' Hj'). by destruct w'.
  - intros j Hj. rewrite list_lookup_fmap.
    destruct (v_mu _ Hs _ Hj) as [-> | ->]; [by left|by right].
  - intros Hst. destruct (v_started _ Hs Hst). congruence.
  - intros Hst. rewrite length_fmap. by apply Hs.
  - intros Hst. rewrite (v_stopping _ Hs Hst). by rewrite Ho.
Qed.

Lemma all_done ws i w : forallb is_done ws = true → ws !! i = Some w → w = WDone.
Proof.
  intros Hd Hi. rewrite forallb_forall in Hd.
  specialize (Hd w). destruct w; try done;
    exfalso; discriminate Hd; apply list_elem_of_In; by eapply list_elem_of_lookup_2.
Qed.

Lemma running_done ws : forallb is_done ws = true → running ws = [].
Proof. induction ws as [|[] ws IH]; cbn; intros; try done. by apply IH. Qed.

Lemma joined_inv s :
  inv s → forallb is_done (threads_ s) = true → inv (joined s).
Proof.
  intros Hs Hd. split; pool_simpl; try apply Hs; try done.
  - by rewrite (v_taken _ Hs), running_done.
  - intros i Hi. destruct (v_mu _ Hs _ Hi) as [Hw|Hw];
      by apply (all_done _ _ _ Hd) in Hw.
Qed.

Lemma null_inv s i t :
  inv s → threads_ s !! i = Some (WPost t) → src_sched_ t = None → inv (move i (WNull t) s).
Proof.
  intros Hs Hi Hsrc. pose proof (awake_insert _ _ _ (WNull t) Hi) as Hc. pool_simpl.
  change (move i (WNull t) s) with (set_mu (mu_ s) (move i (WNull t) s)).
  apply (move_inv s i (WPost t) (WNull t)); try done.
  - other_worker Hs.
  - intros j Hj. destruct (v_mu _ Hs _ Hj) as [Hw|Hw]; [left|right];
      rewrite list_lookup_insert_ne; congruence.
Qed.

Lemma pool_exec_inv e s s' : inv s → exec fn e s = Some s' → inv s'.
Proof.
  intros Hs. destruct e as [i|i|i|i|i|i|t|[i|]| | | |]; cbn [exec].
  - destruct (threads_ s !! i) as [[]|] eqn:Hi; try done.
    destruct (mu_ s) eqn:Hmu; [done|]. intros [= <-]. by apply lock_inv.
  - destruct (threads_ s !! i) as [[]|] eqn:Hi; try done.
    intros [= <-]. by apply eval_inv.
  - destruct (threads_ s !! i) as [[]|] eqn:Hi; try done.
    intros [= <-]. by apply block_inv.
  - destruct (threads_ s !! i) as [[]|] eqn:Hi; try done.
    intros [= <-]. by apply wake_inv.
  - destruct (threads_ s !! i) as [[]|] eqn:Hi; try done.
    intros [= <-]. by apply emplace_inv.
  - destruct (threads_ s !! i) as [[]|] eqn:Hi; try done.
    destruct (src_sched_ t) eqn:Hsrc; intros [= <-]; [by apply post_inv|by apply null_inv].
  - destruct (mu_ s) eqn:Hmu; [done|]. intros [= <-]. by apply enqueue_inv.
  - destruct (threads_ s !! i) as [[]|] eqn:Hi; try done.
    destruct (Nat.ltb_spec 0 (to_notify s)); [|done]. intros [= <-].
    by apply notified_some_inv.
  - destruct (existsb is_blocked (threads_ s)) eqn:Hb; [by rewrite andb_false_r|].
    case_match; [|done]. intros [= <-]. by apply notified_none_inv.
  - intros [= <-]. by apply start_inv.
  - destruct (owner s) eqn:Ho; try done. intros [= <-].
    destruct (started_ s) eqn:Hst; [|done]. by apply store_stopping_inv.
  - destruct (owner s) eqn:Ho; try done. intros [= <-]. by apply notify_all_inv.
  - destruct (owner s) eqn:Ho; try done.
    destruct (forallb is_done (threads_ s)) eqn:Hd; [|done].
    intros [= <-]. by apply joined_inv.
Qed.

Lemma pool_reachable_inv n s : reachable fn n s → inv s.
Proof.
  intros Hr. eapply (rtc_invariant (step fn) inv); [|apply new_pool_inv|exact Hr].
  intros a b Ha [e He]. by eapply pool_exec_inv.
Qed.

(** ** Termination of [stop] *)

(** What happens without new calls and without spurious wake-ups. *)
Definition internal (e : @event) : bool :=
  match e with EvEnqueue _ | EvSpurious _ | EvStart | EvStop => false | _ => true end.
Definition istep s s' : Prop := ∃ e, internal e = true ∧ exec fn e s = Some s'.

Definition weight (w : worker) : nat :=
  match w with WRun _ => 4 | WPost _ => 3 | WLock => 2 | WEval => 1 | _ => 0 end.
Definition measure s : nat :=
  sum_list_with weight (threads_ s) + 5 * length (queue_ s) + to_notify s +
  (match owner s with SJoin => 1 | _ => 0 end).

(** No worker waits on [cv_] or dereferenced null. *)
Definition lively (w : worker) : Prop :=
  match w with WWait | WBlocked | WNull _ => False | _ => True end.

Record draining s : Prop := {
  d_inv : inv s;
  d_lively i w : threads_ s !! i = Some w → lively w;
  d_sched t : t ∈ enqueued s → src_sched_ t ≠ None;
  d_owner : (owner s = SJoin ∧ started_ s = true) ∨ (owner s = SIdle ∧ started_ s = false);
}.

Lemma draining_stopping s i w :
  draining s → threads_ s !! i = Some w →
  stopping_ s = true ∧ owner s = SJoin ∧ started_ s = true.
Proof.
  intros Hd Hi. pose proof (d_inv _ Hd) as Hs.
  destruct (d_owner _ Hd) as [[Ho Hst]|[Ho Hst]].
  - split_and!; try done. rewrite (v_stopping _ Hs Hst). by rewrite Ho.
  - destruct (v_started _ Hs Hst) as [Hw _]. by rewrite Hw in Hi.
Qed.

Lemma running_elem ws i w t : ws !! i = Some w → t ∈ holding w → t ∈ running ws.
Proof.
  intros Hi Ht. apply list_elem_of_bind. exists w. split; [done|].
  by eapply list_elem_of_lookup_2.
Qed.

Lemma held_enqueued s i w t :
  inv s → threads_ s !! i = Some w → t ∈ holding w → t ∈ enqueued s.
Proof.
  intros Hs Hi Ht. rewrite (v_enq _ Hs). apply elem_of_app. left.
  rewrite (v_taken _ Hs). apply elem_of_app. right. by eapply running_elem.
Qed.

(** A worker of a draining pool that moves stays lively and lowers the measure. *)
Lemma draining_move s s' i x y :
  draining s → inv s' → threads_ s !! i = Some x → threads_ s' = <[i := y]> (threads_ s) →
  lively y → enqueued s' = enqueued s → owner s' = owner s → started_ s' = started_ s →
  to_notify s' = to_notify s →
  (weight y + 5 * length (queue_ s') < weight x + 5 * length (queue_ s))%nat →
  draining s' ∧ (measure s' < measure s)%nat.
Proof.
  intros Hd Hs' Hi Ht Hy He Ho Hst Hn Hw. split.
  - split; rewrite ?He, ?Ho, ?Hst; try apply Hd; [done|].
    intros j w. rewrite Ht, list_lookup_insert_Some.
    intros [(_ & <- & _)|[_ Hj]]; [done|by eapply d_lively].
  - unfold measure. rewrite Ht, Ho, Hn.
    pose proof (sum_list_with_insert weight _ _ _ y Hi). lia.
Qed.

Lemma draining_istep s s' :
  draining s → istep s s' → draining s' ∧ (measure s' < measure s)%nat.
Proof.
  intros Hd (e & Hint & He). pose proof (d_inv _ Hd) as Hs.
  pose proof (pool_exec_inv _ _ _ Hs He) as Hs'.
  destruct e as [i|i|i|i|i|i|t|[i|]| | | |]; try done; cbn [exec] in He.
  - destruct (threads_ s !! i) as [[]|] eqn:Hi; try done.
    destruct (mu_ s); [done|]. injection He as <-.
    eapply (draining_move s _ i WLock WEval); try done. pool_simpl. cbn. lia.
  - destruct (threads_ s !! i) as [[]|] eqn:Hi; try done. injection He as <-.
    destruct (draining_stopping s i _ Hd Hi) as (Hstop & _). unfold eval in *.
    destruct (queue_ s) as [|t rest] eqn:Hq.
    + rewrite Hstop in *. eapply (draining_move s _ i WEval WDone); try done.
      pool_simpl. rewrite Hq. cbn. lia.
    + eapply (draining_move s _ i WEval (WRun t)); try done.
      pool_simpl. rewrite Hq. cbn. lia.
  - destruct (threads_ s !! i) as [[]|] eqn:Hi; try done.
    by destruct (d_lively _ Hd _ _ Hi).
  - destruct (threads_ s !! i) as [[]|] eqn:Hi; try done. injection He as <-.
    eapply (draining_move s _ i (WRun _) (WPost _)); try done. pool_simpl. cbn. lia.
  - destruct (threads_ s !! i) as [[]|] eqn:Hi; try done.
    destruct (src_sched_ t) eqn:Hsrc.
    + injection He as <-.
      eapply (draining_move s _ i (WPost _) WLock); try done. pool_simpl. cbn. lia.
    + destruct (d_sched _ Hd t); [|done]. eapply held_enqueued; [done|exact Hi|by left].
  - destruct (threads_ s !! i) as [[]|] eqn:Hi; try done.
    by destruct (d_lively _ Hd _ _ Hi).
  - case_match eqn:Hn; [|done]. injection He as <-.
    apply andb_true_iff in Hn as [Hn%Nat.ltb_lt _].
    split; [split; try apply Hd; done|]. unfold measure. pool_simpl. lia.
  - destruct (d_owner _ Hd) as [[Ho _]|[Ho _]]; by rewrite Ho in He.
  - destruct (owner s) eqn:Ho; try done.
    destruct (forallb is_done (threads_ s)) eqn:Hdone; [|done]. injection He as <-.
    split.
    + split; cbn; try done; [apply Hd|by right].
    + unfold measure. cbn. rewrite Ho. lia.
Qed.

Lemma draining_sn s : draining s → sn istep s.
Proof.
  remember (measure s) as m eqn:Hm. revert s Hm.
  induction (lt_wf m) as [m _ IH]. intros s -> Hd.
  constructor. intros s' Hstep.
  destruct (draining_istep s s' Hd Hstep). by eapply IH.
Qed.

Lemma draining_progress s : draining s → nf istep s → owner s = SIdle ∧ started_ s = false.
Proof.
  intros Hd Hnf. pose proof (d_inv _ Hd) as Hs.
  destruct (d_owner _ Hd) as [[Ho Hst]|?]; [|done]. exfalso. apply Hnf.
  destruct (forallb is_done (threads_ s)) eqn:Hdone.
  { eexists _, EvJoined. split; [done|]. cbn. by rewrite Ho, Hdone. }
  assert (∃ i w, threads_ s !! i = Some w ∧ is_done w = false) as (i & w & Hi & Hw).
  { clear -Hdone. induction (threads_ s) as [|w ws IH]; [done|]. cbn in Hdone.
    destruct (is_done w) eqn:Hw; [|by exists 0%nat, w].
    destruct (IH Hdone) as (i & w' & ? & ?). by exists (S i), w'. }
  pose proof (d_lively _ Hd _ _ Hi).
  destruct w; try done.
  - destruct (mu_ s) as [j|] eqn:Hmu.
    + destruct (v_mu _ Hs j Hmu) as [Hj|Hj]; [|by destruct (d_lively _ Hd _ _ Hj)].
      eexists _, (EvEval j). split; [done|]. cbn. by rewrite Hj.
    + eexists _, (EvLock i). split; [done|]. cbn. by rewrite Hi, Hmu.
  - eexists _, (EvEval i). split; [done|]. cbn. by rewrite Hi.
  - eexists _, (EvRun i). split; [done|]. cbn. by rewrite Hi.
  - destruct (src_sched_ t) eqn:Hsrc.
    + eexists _, (EvPost i). split; [done|]. cbn. by rewrite Hi, Hsrc.
    + destruct (d_sched _ Hd t); [|done]. eapply held_enqueued; [done|exact Hi|by left].
Qed.

Lemma pool_run_reachable n es s : run fn es (new_pool n) = Some s → reachable fn n s.
Proof.
  unfold reachable. generalize (@new_pool V X n).
  induction es as [|e es IH]; intros s0; cbn [run]; [by intros [= ->]|].
  intros (s1 & He & Hrun)%bind_Some. eapply rtc_l; [by exists e|by apply IH].
Qed.

(** ** Properties *)

(** C19: Whatever the interleaving, tasks are started in the order of their
    [enqueue] and each once; each task started and not finished is held by one
    worker; a finished task has posted its coroutine to the scheduler it was
    submitted from, in the order of finishing and once per task; and by then
    [await_resume] returns what the function returned, or rethrows its exception. *)
Theorem pool_runs_each_task_once n s :
  reachable fn n s →
  enqueued s = taken s ++ queue_ s ∧
  taken s ≡ₚ finished s ++ running (threads_ s) ∧
  Forall2 posted_for (finished s) (posted s) ∧
  (∀ t, t ∈ finished s →
     (results s !! awaiter t ≫= await_resume) =
     Some (match fn (awaiter t) with Returns v => inl v | Throws x => inr x end)).
Proof.
  intros Hs%pool_reachable_inv. split_and!; [apply Hs..|].
  intros t Ht. rewrite (v_results _ Hs t Ht). cbn. by destruct (fn (awaiter t)).
Qed.

(** No [enqueue] is lost on a sleeping worker: while a worker sleeps, every
    queued task has a [notify_one] still to come or a worker awake and on its way
    to the queue. *)
Theorem pool_no_lost_task n s i :
  reachable fn n s → threads_ s !! i = Some WBlocked →
  (length (queue_ s) ≤ to_notify s + awake (threads_ s))%nat.
Proof. intros Hs%pool_reachable_inv Hi. apply (v_worker _ Hs _ _ Hi). Qed.

(** When [stop] returns, every task enqueued before it stored [stopping_]
    has been run to its end. *)
Theorem stop_drains n s s' t :
  reachable fn n s → exec fn EvJoined s = Some s' → t ∈ at_stop s → t ∈ finished s.
Proof.
  intros Hs%pool_reachable_inv. cbn. destruct (owner s) eqn:Ho; try done.
  destruct (forallb is_done (threads_ s)) eqn:Hd; [|done]. intros _ Ht.
  destruct (started_ s) eqn:Hst; [|by destruct (v_started _ Hs Hst); congruence].
  pose proof (v_threads _ Hs Hst) as Hlen. pose proof (v_target _ Hs).
  destruct (threads_ s !! 0%nat) as [w|] eqn:H0;
    [|apply lookup_ge_None in H0; lia].
  pose proof (all_done _ _ _ Hd H0) as ->.
  destruct (v_worker _ Hs _ _ H0) as [_ [rest Hpre]].
  pose proof (v_taken _ Hs) as Hperm. rewrite (running_done _ Hd), app_nil_r in Hperm.
  rewrite <-Hperm, Hpre. apply elem_of_app. by left.
Qed.

(** C33: [stop] returns if no worker is between its test of the predicate and its
    wait when [notify_all] is called: from there on, with no further call and
    even without spurious wake-ups, every execution is finite and can only end
    with [stop] returned (tasks being submitted from scheduler threads). *)
Theorem stop_terminates n s s' :
  reachable fn n s → exec fn EvNotifyAll s = Some s' →
  (∀ i, threads_ s !! i ≠ Some WWait) →
  (∀ t, t ∈ enqueued s → src_sched_ t ≠ None) →
  sn istep s' ∧
  ∀ s'', rtc istep s' s'' → nf istep s'' → owner s'' = SIdle ∧ started_ s'' = false.
Proof.
  intros Hs%pool_reachable_inv He Hw Hsched.
  assert (Hd : draining s').
  { pose proof (pool_exec_inv _ _ _ Hs He) as Hs'. cbn in He.
    destruct (owner s) eqn:Ho; try done. injection He as <-.
    split; [done| |done|].
    - intros i w Hi. unfold notify_all in Hi. cbn in Hi.
      rewrite list_lookup_fmap in Hi.
      destruct (threads_ s !! i) as [w'|] eqn:Hi'; [|done]. injection Hi as <-.
      destruct w'; try done; [by destruct (Hw i)|].
      pose proof (v_worker _ Hs _ _ Hi') as Hsrc. cbn in Hsrc.
      destruct (Hsched t); [|done]. eapply held_enqueued; [done|exact Hi'|by left].
    - left. cbn. split; [done|].
      destruct (started_ s) eqn:Hst; [done|]. destruct (v_started _ Hs Hst); congruence. }
  split; [by apply draining_sn|]. intros s'' Hr Hnf.
  apply draining_progress; [|done].
  eapply (rtc_invariant istep draining); [|exact Hd|exact Hr].
  intros a b Ha Hab. by apply (draining_istep a b).
Qed.
End workers.

(** C40: [stop] can hang: [stopping_] is stored and [notify_all] called without
    the mutex, so a worker that has just found the predicate false misses both,
    goes to sleep, and [join] waits for it for ever: only a spurious wake-up or
    a new [enqueue] could change anything. *)
Theorem stop_can_hang {V X} (fn : nat → @outcome V X) :
  ∃ s, reachable fn 2 s ∧ owner s = SJoin ∧ threads_ s = [WBlocked; WDone] ∧
    queue_ s = [] ∧
    ∀ e s', exec fn e s = Some s' →
      (∃ i, e = EvSpurious i) ∨ (∃ t, e = EvEnqueue t) ∨ s' = s.
Proof.
  exists (mkPool 2 [WBlocked; WDone] None [] true true SJoin 0 ∅ [] [] [] [] []).
  split; [|split_and!].
  - apply (pool_run_reachable fn 2 [EvStart; EvLock 0; EvEval 0; EvStop; EvNotifyAll; EvBlock 0;
      EvLock 1; EvEval 1]). vm_compute. reflexivity.
  - reflexivity.
  - reflexivity.
  - reflexivity.
  - intros e s'. destruct e as [i|i|i|i|i|i|t|[i|]| | | |]; cbn; try naive_solver.
    all: destruct i as [|[|i]]; cbn; naive_solver.
Qed.

(** ** After [stop] *)

Section stopped.
Context {V X : Type} (fn : nat → @outcome V X).
Implicit Types s : @pool V X.

(** The destructor stops a pool that runs, and nothing else. *)
Lemma destroy_is_stop s : owner s = SIdle → exec fn EvStop s = Some (destroy fn s).
Proof.
  intros Ho. unfold destroy. destruct (started_ s) eqn:Hs; cbn [exec]; rewrite !Ho, ?Hs; reflexivity.
Qed.

(** Without threads, only the queue moves, and it only grows. *)
Lemma no_threads_step e s s' :
  threads_ s = [] → e ≠ EvStart → exec fn e s = Some s' →
  threads_ s' = [] ∧ queue_ s `prefix_of` queue_ s' ∧ taken s' = taken s ∧
  results s' = results s ∧ posted s' = posted s.
Proof.
  intros Hth Hne Hex. destruct e as [i|i|i|i|i|i|t|[i|]| | | |]; try done; cbn [exec] in Hex;
    rewrite ?Hth in Hex; try done.
  - destruct (mu_ s); [done|]. injection Hex as <-. cbn. split_and!; try done. by eexists.
  - destruct (_ && _); [|done]. by injection Hex as <-.
  - destruct (owner s); try done. injection Hex as <-. by destruct (started_ s).
  - destruct (owner s); try done. injection Hex as <-. cbn. by rewrite Hth.
  - destruct (owner s); try done. cbn in Hex. by injection Hex as <-.
Qed.

(** A function submitted to a pool that is not running is never called: unless the
    pool is started again its task stays in the queue, its result is never written and
    the coroutine that awaits it is never posted. *)
Theorem submit_after_stop_waits n t s s1 es s' :
  reachable fn n s → started_ s = false → t ∉ enqueued s →
  exec fn (EvEnqueue t) s = Some s1 → EvStart ∉ es → run fn es s1 = Some s' →
  t ∈ queue_ s' ∧ (t ∉ taken s') ∧ results s' = results s ∧ posted s' = posted s ∧ size s' = 0%nat.
Proof.
  intros Hr Hst Hnew Hex Hes Hrun. pose proof (pool_reachable_inv fn n s Hr) as Hs.
  destruct (v_started _ _ Hs Hst) as [Hth _].
  assert (Hnt : t ∉ taken s) by (rewrite (v_enq _ _ Hs) in Hnew; set_solver).
  destruct (no_threads_step (EvEnqueue t) s s1 Hth ltac:(done) Hex) as (Hth1 & _ & Ht1 & Hr1 & Hp1).
  assert (Hq1 : t ∈ queue_ s1).
  { cbn [exec] in Hex. destruct (mu_ s); [done|]. injection Hex as <-. cbn. set_solver. }
  assert (Hgen : ∀ s2, threads_ s2 = [] → run fn es s2 = Some s' →
    threads_ s' = [] ∧ queue_ s2 `prefix_of` queue_ s' ∧ taken s' = taken s2 ∧
    results s' = results s2 ∧ posted s' = posted s2).
  { clear -Hes. induction es as [|e es IH]; intros s2 Hth2; cbn; [by intros [= <-]|].
    intros (s3 & Hex & Hrun)%bind_Some. apply not_elem_of_cons in Hes as [Hne Hes].
    destruct (no_threads_step e s2 s3 Hth2 ltac:(congruence) Hex) as (Hth3 & Hq & Ht & Hre & Hp).
    destruct (IH Hes s3 Hth3 Hrun) as (? & ? & ? & ? & ?).
    split_and!; [done|by etrans|congruence..]. }
  destruct (Hgen s1 Hth1 Hrun) as (Hth' & [l Hq] & Ht & Hre & Hp). unfold size. rewrite Hth'.
  split_and!; [rewrite Hq; set_solver|congruence..|done].
Qed.
End stopped.

(** ** Witnesses *)

Module Demo.
Definition fn (a : nat) : @outcome nat nat := if Nat.even a then Returns a else Throws a.
Definition t1 : task := mkTask 1 10 (Some 0%nat).
Definition t2 : task := mkTask 2 20 (Some 0%nat).
Definition t3 : task := mkTask 3 30 (Some 0%nat).
(** Two workers; one sleeps, the other takes the first of two tasks. *)
Definition prefix : list (@event) :=
  [EvStart; EvLock 0; EvEval 0; EvBlock 0; EvEnqueue t1; EvLock 1; EvEval 1; EvEnqueue t2;
   EvRun 1].
Definition busy : @pool nat nat := default (new_pool 0) (run fn prefix (new_pool 2)).
(** The owner then stops the pool. *)
Definition stopping : list (@event) :=
  prefix ++ [EvPost 1; EvNotifyOne (Some 0%nat); EvStop].
Definition notifying : @pool nat nat := default (new_pool 0) (run fn stopping (new_pool 2)).
Definition ending : list (@event) :=
  stopping ++ [EvNotifyAll; EvLock 1; EvEval 1; EvRun 1; EvPost 1; EvLock 0; EvEval 0;
    EvLock 1; EvEval 1].
Definition ended : @pool nat nat := default (new_pool 0) (run fn ending (new_pool 2)).

Lemma busy_reachable : reachable fn 2 busy.
Proof. apply (pool_run_reachable fn 2 prefix). vm_compute. reflexivity. Qed.
Lemma notifying_reachable : reachable fn 2 notifying.
Proof. apply (pool_run_reachable fn 2 stopping). vm_compute. reflexivity. Qed.
Lemma ended_reachable : reachable fn 2 ended.
Proof. apply (pool_run_reachable fn 2 ending). vm_compute. reflexivity. Qed.
End Demo.

Lemma pool_runs_each_task_once_witness :
  finished Demo.notifying = [Demo.t1] ∧
  enqueued Demo.notifying = taken Demo.notifying ++ queue_ Demo.notifying ∧
  Forall2 posted_for (finished Demo.notifying) (posted Demo.notifying).
Proof.
  destruct (pool_runs_each_task_once Demo.fn 2 Demo.notifying Demo.notifying_reachable)
    as (H1 & _ & H2 & _).
  split; [vm_compute; reflexivity|]. split; [exact H1|exact H2].
Defined.

Lemma pool_no_lost_task_witness :
  queue_ Demo.busy = [Demo.t2] ∧
  (length (queue_ Demo.busy) ≤ to_notify Demo.busy + awake (threads_ Demo.busy))%nat.
Proof.
  split; [vm_compute; reflexivity|].
  apply (pool_no_lost_task Demo.fn 2 Demo.busy 0 Demo.busy_reachable).
  vm_compute. reflexivity.
Defined.

Lemma stop_drains_witness : Demo.t2 ∈ finished Demo.ended.
Proof.
  apply (stop_drains Demo.fn 2 Demo.ended (joined Demo.ended) Demo.t2 Demo.ended_reachable).
  - vm_compute. reflexivity.
  - vm_compute. right. left.
Defined.

Lemma stop_terminates_witness :
  sn (istep Demo.fn) (notify_all Demo.notifying).
Proof.
  apply (stop_terminates Demo.fn 2 Demo.notifying (notify_all Demo.notifying)
    Demo.notifying_reachable).
  - vm_compute. reflexivity.
  - intros [|[|i]]; vm_compute; discriminate.
  - intros t Ht. vm_compute in Ht.
    repeat (apply elem_of_cons in Ht as [->|Ht]; [discriminate|]).
    by apply not_elem_of_nil in Ht.
Defined.

Lemma submit_after_stop_waits_witness :
  let s := default Demo.ended (run Demo.fn [EvEnqueue Demo.t3; EvStop] (joined Demo.ended)) in
  Demo.t3 ∈ queue_ s ∧ size s = 0%nat.
Proof.
  destruct (submit_after_stop_waits Demo.fn 2 Demo.t3 (joined Demo.ended)
    (enqueue Demo.t3 (joined Demo.ended)) [EvStop]
    (default Demo.ended (run Demo.fn [EvEnqueue Demo.t3; EvStop] (joined Demo.ended))))
    as (H1 & _ & _ & _ & H2).
  - eapply rtc_r; [exact Demo.ended_reachable|]. exists EvJoined. vm_compute. reflexivity.
  - reflexivity.
  - vm_compute. intros Ht.
    repeat (apply elem_of_cons in Ht as [Heq|Ht]; [discriminate Heq|]). by apply not_elem_of_nil in Ht.
  - vm_compute. reflexivity.
  - intros Hin. by apply list_elem_of_singleton in Hin.
  - vm_compute. reflexivity.
  - split; [exact H1|exact H2].
Defined.
