(* ===== verification/Ring.v ===== *)
(** * Ring: the construction of the rings of a worker pool

    Models the constructor of [IoUring] in [include/coro_net/io/io_uring.h], which
    tries setup flags in decreasing order of ambition, and [SchedulerPool] in
    [src/scheduler/scheduler_pool.cc]: the grouping of the workers' rings around
    shared SQPOLL threads and the round robin of [next].

    The kernel is a parameter: [init] is the return value of
    [io_uring_queue_init_params], [ring_fd] the descriptor of each ring.  The
    setup flags are distinct single bits, whose positions are parameters. *)
From S2P Require Import Prelude.

(** [IoUringParams]. *)
Record IoUringParams := mkParams {
  entries : Z;
  sqpoll : bool;
  sq_thread_idle_ms : Z;
  wq_fd : Z;
  sq_thread_cpu : Z;
}.

(** The [io_uring_params] passed to the kernel. *)
Record io_uring_params := mkSetup {
  flags : Z;
  sq_thread_idle : Z;
  params_wq_fd : Z;
  params_cpu : Z;
}.

Record IoUring := mkRing { features_ : Z; sqpoll_active_ : bool; setup_flags : Z }.

Definition EINVAL : Z := 22.

Section io_uring.
Context (bSQPOLL bSQ_AFF bATTACH_WQ bCOOP_TASKRUN : Z).
Context (init features : Z → io_uring_params → Z).

Definition IORING_SETUP_SQPOLL : Z := Z.shiftl 1 bSQPOLL.
Definition IORING_SETUP_SQ_AFF : Z := Z.shiftl 1 bSQ_AFF.
Definition IORING_SETUP_ATTACH_WQ : Z := Z.shiftl 1 bATTACH_WQ.
Definition IORING_SETUP_COOP_TASKRUN : Z := Z.shiftl 1 bCOOP_TASKRUN.

(** [(f & mask) != 0]. *)
Definition has (f mask : Z) : bool := negb (Z.land f mask =? 0).

Definition full_flags (p : IoUringParams) : Z :=
  let full := IORING_SETUP_COOP_TASKRUN in
  let full := if sqpoll p then Z.lor full IORING_SETUP_SQPOLL else full in
  let full := if 0 <=? wq_fd p then Z.lor full IORING_SETUP_ATTACH_WQ else full in
  if sqpoll p && (0 <=? sq_thread_cpu p) then Z.lor full IORING_SETUP_SQ_AFF else full.

Definition candidates (p : IoUringParams) : list Z :=
  let full := full_flags p in
  [full] ++
  (if has full IORING_SETUP_SQ_AFF then [Z.ldiff full IORING_SETUP_SQ_AFF] else []) ++
  (if has full IORING_SETUP_COOP_TASKRUN
   then [Z.ldiff (Z.ldiff full IORING_SETUP_SQ_AFF) IORING_SETUP_COOP_TASKRUN] else []) ++
  [IORING_SETUP_COOP_TASKRUN; 0].

(** The [io_uring_params] of one attempt; unset fields are zero. *)
Definition setup (p : IoUringParams) (f : Z) : io_uring_params :=
  mkSetup f
    (if has f IORING_SETUP_SQPOLL then sq_thread_idle_ms p else 0)
    (if has f IORING_SETUP_ATTACH_WQ then u32 (wq_fd p) else 0)
    (if has f IORING_SETUP_SQ_AFF then u32 (sq_thread_cpu p) else 0).

(** The loop over the candidates; [ret] is that of the last attempt. *)
Fixpoint try_candidates (p : IoUringParams) (ret : Z) (fs : list Z) : res IoUring :=
  match fs with
  | [] => Throw (SystemError (- ret))
  | f :: fs =>
      let params := setup p f in
      let ret := init (entries p) params in
      if ret =? 0
      then Ok (mkRing (features (entries p) params) (has f IORING_SETUP_SQPOLL) f)
      else try_candidates p ret fs
  end.

Definition new_IoUring (p : IoUringParams) : res IoUring :=
  try_candidates p (- EINVAL) (candidates p).
End io_uring.

(** ** SchedulerPool *)

(** [SchedulerConfig], as far as the rings go. *)
Record SchedulerConfig := mkConfig {
  cfg_sqpoll : bool;
  cfg_wq_fd : Z;
  cfg_cpu : Z;
}.

Section pool.
(** The descriptor of the ring of the [i]-th [Scheduler]. *)
Context (ring_fd : Z → Z).

(** [schedulers_]: the configurations of those constructed, in order. *)
Abbreviation schedulers := (list SchedulerConfig) (only parsing).

(** [size_t] division by a constant group size: [ceil(n / M)]. *)
Definition group_size (grouping : bool) (n M : Z) : Z :=
  if grouping then u64 (n + M - 1) / M else 1.

(** [sqpoll_cpus[g]] when in range. *)
Definition cpu_of (cpus : list Z) (g : Z) : Z :=
  if g <? zlen cpus then default (-1) (cpus !! Z.to_nat g) else -1.

(** The configuration of ring [i], given those before it. *)
Definition ring_config (grouping : bool) (gsz : Z) (cpus : list Z) (base : SchedulerConfig)
    (built : schedulers) (i : Z) : res SchedulerConfig :=
  if negb grouping then Ok (mkConfig (cfg_sqpoll base) (-1) (-1)) else
  if gsz =? 0 then UB else
  let g := i / gsz in
  let leader := u64 (g * gsz) in
  if i =? leader
  then Ok (mkConfig (cfg_sqpoll base) (-1) (cpu_of cpus g))
  else match built !! Z.to_nat leader with
       | Some _ => Ok (mkConfig (cfg_sqpoll base) (ring_fd leader) (-1))
       | None => UB
       end.

(** The loop of the constructor, [k] more rings after [built]. *)
Fixpoint build (grouping : bool) (gsz : Z) (cpus : list Z) (base : SchedulerConfig)
    (k : nat) (built : schedulers) : res schedulers :=
  match k with
  | O => Ok built
  | S k =>
      c ← ring_config grouping gsz cpus base built (zlen built);
      build grouping gsz cpus base k (built ++ [c])
  end.

Definition new_SchedulerPool (n : Z) (base : SchedulerConfig) (M : Z) (cpus : list Z)
    : res schedulers :=
  let grouping := cfg_sqpoll base && (0 <? M) in
  build grouping (group_size grouping n M) cpus base (Z.to_nat n) [].

(** [next()]: the index chosen and the counter after the call; the remainder by
    zero is undefined. *)
Definition next (size next_idx : Z) : res (Z * Z) :=
  if size =? 0 then UB else Ok (next_idx mod size, u64 (next_idx + 1)).

Fixpoint nexts (k : nat) (size next_idx : Z) : res (list Z) :=
  match k with
  | O => Ok []
  | S k =>
      '(i, next_idx) ← next size next_idx;
      rest ← nexts k size next_idx;
      Ok (i :: rest)
  end.
End pool.

(** ** Flags *)

Lemma has_testbit f b : 0 ≤ b → has f (Z.shiftl 1 b) = Z.testbit f b.
Proof.
  intros Hb. unfold has.
  assert (Hm : ∀ j, 0 ≤ j → Z.testbit (Z.shiftl 1 b) j = (j =? b)).
  { intros j Hj. rewrite Z.shiftl_1_l, Z.pow2_bits_eqb by lia.
    destruct (Z.eqb_spec j b), (Z.eqb_spec b j); congruence. }
  destruct (Z.testbit f b) eqn:Hf.
  - destruct (Z.eqb_spec (Z.land f (Z.shiftl 1 b)) 0) as [H0|]; [|done].
    assert (Hbit : Z.testbit (Z.land f (Z.shiftl 1 b)) b = true).
    { rewrite Z.land_spec, Hf, Hm by done. by rewrite Z.eqb_refl. }
    by rewrite H0, Z.bits_0 in Hbit.
  - apply negb_false_iff, Z.eqb_eq. apply Z.bits_inj'. intros j Hj.
    rewrite Z.land_spec, Hm, Z.bits_0 by done.
    destruct (Z.eqb_spec j b) as [->|]; [by rewrite Hf|by rewrite andb_false_r].
Qed.

Section ring_facts.
Context (bSQPOLL bSQ_AFF bATTACH_WQ bCOOP_TASKRUN : Z).
Context (init features : Z → io_uring_params → Z).
(** The setup flags are distinct bits. *)
Hypothesis bits : Forall (λ b, 0 ≤ b) [bSQPOLL; bSQ_AFF; bATTACH_WQ; bCOOP_TASKRUN].
Hypothesis distinct : NoDup [bSQPOLL; bSQ_AFF; bATTACH_WQ; bCOOP_TASKRUN].

Lemma bits_nonneg : 0 ≤ bSQPOLL ∧ 0 ≤ bSQ_AFF ∧ 0 ≤ bATTACH_WQ ∧ 0 ≤ bCOOP_TASKRUN.
Proof. rewrite !Forall_cons in bits. tauto. Qed.

Lemma bits_distinct :
  bSQPOLL ≠ bSQ_AFF ∧ bSQPOLL ≠ bATTACH_WQ ∧ bSQPOLL ≠ bCOOP_TASKRUN ∧
  bSQ_AFF ≠ bATTACH_WQ ∧ bSQ_AFF ≠ bCOOP_TASKRUN ∧ bATTACH_WQ ≠ bCOOP_TASKRUN.
Proof.
  rewrite !NoDup_cons in distinct. rewrite !not_elem_of_cons in distinct. tauto.
Qed.

Lemma mask_testbit b c : 0 ≤ b → 0 ≤ c → Z.testbit (Z.shiftl 1 b) c = (c =? b).
Proof.
  intros. rewrite Z.shiftl_1_l, Z.pow2_bits_eqb by lia.
  destruct (Z.eqb_spec c b), (Z.eqb_spec b c); congruence.
Qed.

Abbreviation full := (full_flags bSQPOLL bSQ_AFF bATTACH_WQ bCOOP_TASKRUN).
Abbreviation cands := (candidates bSQPOLL bSQ_AFF bATTACH_WQ bCOOP_TASKRUN).
Abbreviation has_sqpoll := (λ f, has f (IORING_SETUP_SQPOLL bSQPOLL)).
Abbreviation has_aff := (λ f, has f (IORING_SETUP_SQ_AFF bSQ_AFF)).

(** The bits of the full request. *)
Lemma full_bits p :
  Z.testbit (full p) bSQPOLL = sqpoll p ∧
  Z.testbit (full p) bSQ_AFF = sqpoll p && (0 <=? sq_thread_cpu p) ∧
  Z.testbit (full p) bATTACH_WQ = (0 <=? wq_fd p) ∧
  Z.testbit (full p) bCOOP_TASKRUN = true.
Proof.
  pose proof bits_nonneg. pose proof bits_distinct.
  unfold full_flags, IORING_SETUP_SQPOLL, IORING_SETUP_SQ_AFF, IORING_SETUP_ATTACH_WQ,
    IORING_SETUP_COOP_TASKRUN.
  destruct (sqpoll p), (0 <=? wq_fd p), (0 <=? sq_thread_cpu p); cbn [andb];
    rewrite ?Z.lor_spec, !mask_testbit by tauto;
    repeat match goal with |- context [?a =? ?b] => destruct (Z.eqb_spec a b);
      try (exfalso; lia) end;
    split_and!; done.
Qed.

(** If one of the first candidates is accepted, one of them is used. *)
Lemma try_candidates_prefix p ret fs1 fs2 f :
  f ∈ fs1 → init (entries p) (setup bSQPOLL bSQ_AFF bATTACH_WQ p f) = 0 →
  ∃ r, try_candidates bSQPOLL bSQ_AFF bATTACH_WQ init features p ret (fs1 ++ fs2) = Ok r ∧
    setup_flags r ∈ fs1 ∧ sqpoll_active_ r = has_sqpoll (setup_flags r).
Proof.
  intros Hin H0. revert ret.
  induction fs1 as [|g fs IH]; intros ret; [by apply not_elem_of_nil in Hin|].
  cbn [app try_candidates].
  destruct (Z.eqb_spec (init (entries p) (setup bSQPOLL bSQ_AFF bATTACH_WQ p g)) 0)
    as [|Hne].
  - eexists. split_and!; [done|by left|done].
  - apply elem_of_cons in Hin as [->|Hin]; [done|].
    destruct (IH Hin (init (entries p) (setup bSQPOLL bSQ_AFF bATTACH_WQ p g)))
      as (r & -> & ? & ?).
    exists r. split_and!; [done|by right|done].
Qed.

Lemma ldiff_bit f b c :
  0 ≤ b → 0 ≤ c → Z.testbit (Z.ldiff f (Z.shiftl 1 b)) c = Z.testbit f c && negb (c =? b).
Proof. intros. by rewrite Z.ldiff_spec, mask_testbit. Qed.

Lemma ldiff_id f b : 0 ≤ b → Z.testbit f b = false → Z.ldiff f (Z.shiftl 1 b) = f.
Proof.
  intros Hb Hf. apply Z.bits_inj'. intros j Hj. rewrite ldiff_bit by done.
  destruct (Z.eqb_spec j b) as [->|]; [by rewrite Hf|by rewrite andb_true_r].
Qed.

(** The candidates that ask for SQPOLL when the full request does. *)
Definition ambitious (p : IoUringParams) : list Z :=
  [full p] ++
  (if has_aff (full p) then [Z.ldiff (full p) (IORING_SETUP_SQ_AFF bSQ_AFF)] else []) ++
  [Z.ldiff (Z.ldiff (full p) (IORING_SETUP_SQ_AFF bSQ_AFF))
     (IORING_SETUP_COOP_TASKRUN bCOOP_TASKRUN)].

Lemma candidates_split p :
  cands p = ambitious p ++ [IORING_SETUP_COOP_TASKRUN bCOOP_TASKRUN; 0].
Proof.
  pose proof bits_nonneg. destruct (full_bits p) as (_ & _ & _ & Hc).
  unfold candidates, ambitious. rewrite (has_testbit _ bCOOP_TASKRUN), Hc by tauto.
  by rewrite <-!app_assoc.
Qed.

Lemma ambitious_sqpoll p f : f ∈ ambitious p → has_sqpoll f = sqpoll p.
Proof.
  pose proof bits_nonneg as Hnn. pose proof bits_distinct as Hd.
  destruct (full_bits p) as (Hs & _ & _ & _).
  assert (Hne : ∀ b, bSQPOLL ≠ b → negb (bSQPOLL =? b) = true).
  { intros b Hb. apply negb_true_iff. by apply Z.eqb_neq. }
  intros [Hin|[Hin|Hin]%elem_of_app]%elem_of_app; rewrite has_testbit by tauto.
  - by apply list_elem_of_singleton in Hin as ->.
  - destruct (has_aff (full p)); [|by apply not_elem_of_nil in Hin].
    apply list_elem_of_singleton in Hin as ->.
    unfold IORING_SETUP_SQ_AFF. rewrite ldiff_bit, Hne, andb_true_r by tauto. done.
  - apply list_elem_of_singleton in Hin as ->.
    unfold IORING_SETUP_SQ_AFF, IORING_SETUP_COOP_TASKRUN.
    rewrite !ldiff_bit, !Hne, !andb_true_r by tauto. done.
Qed.

(** If SQPOLL is asked for and the kernel accepts it without pinning, with or
    without [COOP_TASKRUN], the ring is built and SQPOLL is active, whatever else
    the kernel refuses. *)
Theorem sqpoll_is_kept p :
  sqpoll p = true →
  init (entries p) (setup bSQPOLL bSQ_AFF bATTACH_WQ p
    (Z.ldiff (full p) (IORING_SETUP_SQ_AFF bSQ_AFF))) = 0 ∨
  init (entries p) (setup bSQPOLL bSQ_AFF bATTACH_WQ p
    (Z.ldiff (Z.ldiff (full p) (IORING_SETUP_SQ_AFF bSQ_AFF))
       (IORING_SETUP_COOP_TASKRUN bCOOP_TASKRUN))) = 0 →
  ∃ r, new_IoUring bSQPOLL bSQ_AFF bATTACH_WQ bCOOP_TASKRUN init features p = Ok r ∧
    sqpoll_active_ r = true.
Proof.
  intros Hp Hacc. pose proof bits_nonneg as Hnn.
  assert (∃ f, f ∈ ambitious p ∧
    init (entries p) (setup bSQPOLL bSQ_AFF bATTACH_WQ p f) = 0) as (f & Hin & H0).
  { destruct Hacc as [H0|H0]; eexists; (split; [|exact H0]); unfold ambitious.
    - destruct (has_aff (full p)) eqn:Ha; [set_solver|].
      rewrite has_testbit in Ha by tauto.
      unfold IORING_SETUP_SQ_AFF. rewrite ldiff_id by tauto. set_solver.
    - set_solver. }
  destruct (try_candidates_prefix p (- EINVAL) (ambitious p)
    [IORING_SETUP_COOP_TASKRUN bCOOP_TASKRUN; 0] f Hin H0) as (r & Hr & Hin' & Hact).
  exists r. unfold new_IoUring. rewrite candidates_split. split; [done|].
  by rewrite Hact, (ambitious_sqpoll p), Hp.
Qed.

(** Construction throws only if the kernel refuses even a ring without any
    flag, and then with the error of that last attempt. *)
Theorem ring_throws_only_if_plain_refused p :
  match new_IoUring bSQPOLL bSQ_AFF bATTACH_WQ bCOOP_TASKRUN init features p with
  | Ok r => init (entries p) (setup bSQPOLL bSQ_AFF bATTACH_WQ p (setup_flags r)) = 0
  | Throw e =>
      init (entries p) (setup bSQPOLL bSQ_AFF bATTACH_WQ p 0) ≠ 0 ∧
      e = SystemError (- init (entries p) (setup bSQPOLL bSQ_AFF bATTACH_WQ p 0))
  | _ => False
  end.
Proof.
  unfold new_IoUring. rewrite candidates_split.
  generalize (- EINVAL) as ret. generalize (ambitious p) as fs.
  assert (Hmain : ∀ fs ret,
    match try_candidates bSQPOLL bSQ_AFF bATTACH_WQ init features p ret (fs ++ [0]) with
    | Ok r => init (entries p) (setup bSQPOLL bSQ_AFF bATTACH_WQ p (setup_flags r)) = 0
    | Throw e =>
        init (entries p) (setup bSQPOLL bSQ_AFF bATTACH_WQ p 0) ≠ 0 ∧
        e = SystemError (- init (entries p) (setup bSQPOLL bSQ_AFF bATTACH_WQ p 0))
    | _ => False
    end).
  { induction fs as [|f fs IH]; intros ret; cbn [app try_candidates].
    - destruct (Z.eqb_spec (init (entries p) (setup bSQPOLL bSQ_AFF bATTACH_WQ p 0)) 0);
        done.
    - destruct (Z.eqb_spec (init (entries p) (setup bSQPOLL bSQ_AFF bATTACH_WQ p f)) 0);
        [done|apply IH]. }
  intros fs ret. pose proof (Hmain (fs ++ [IORING_SETUP_COOP_TASKRUN bCOOP_TASKRUN]) ret) as H.
  by rewrite <-app_assoc in H.
Qed.
End ring_facts.

(** ** The pool's groups *)

Section pool_facts.
Context (ring_fd : Z → Z).
Implicit Types built : list SchedulerConfig.

(** What the configuration of ring [i] should be. *)
Definition group_config (grouping : bool) (gsz : Z) (cpus : list Z)
    (base : SchedulerConfig) (i : Z) : SchedulerConfig :=
  mkConfig (cfg_sqpoll base)
    (if grouping && negb (i mod gsz =? 0) then ring_fd (i - i mod gsz) else -1)
    (if grouping && (i mod gsz =? 0) then cpu_of cpus (i / gsz) else -1).

Lemma ring_config_ok grouping gsz cpus base built :
  0 < gsz → zlen built < u64_mod →
  ring_config ring_fd grouping gsz cpus base built (zlen built) =
  Ok (group_config grouping gsz cpus base (zlen built)).
Proof.
  intros Hg Hlen. unfold ring_config, group_config. pose proof (zlen_nonneg built).
  destruct grouping; cbn [negb andb]; [|done].
  rewrite (proj2 (Z.eqb_neq gsz 0)) by lia.
  pose proof (Z.div_mod (zlen built) gsz ltac:(lia)) as Hdm.
  pose proof (Z.mod_pos_bound (zlen built) gsz Hg).
  pose proof (Z.div_pos (zlen built) gsz ltac:(lia) Hg).
  replace (zlen built / gsz * gsz) with (zlen built - zlen built mod gsz) by lia.
  rewrite u64_small by lia.
  destruct (Z.eqb_spec (zlen built) (zlen built - zlen built mod gsz)),
    (Z.eqb_spec (zlen built mod gsz) 0); try lia; cbn [negb]; [done|].
  destruct (built !! Z.to_nat _) as [c|] eqn:Hc; [done|].
  apply lookup_ge_None in Hc. unfold zlen in *. lia.
Qed.

Lemma build_ok grouping gsz cpus base k built :
  0 < gsz → zlen built + Z.of_nat k ≤ u64_mod →
  build ring_fd grouping gsz cpus base k built =
  Ok (built ++ (group_config grouping gsz cpus base <$> seqZ (zlen built) (Z.of_nat k))).
Proof.
  revert built. induction k as [|k IH]; intros built Hg Hlen; cbn [build].
  { cbn. by rewrite app_nil_r. }
  rewrite ring_config_ok by lia. cbn [mbind res_bind].
  rewrite IH, zlen_app, zlen_cons, zlen_nil; [|done|zlen_lia].
  rewrite <-app_assoc. do 2 f_equal.
  replace (Z.of_nat (S k)) with (Z.succ (Z.of_nat k)) by lia.
  rewrite (seqZ_cons _ (Z.succ (Z.of_nat k))) by lia. cbn. do 2 f_equal; f_equal; lia.
Qed.

(** The rings that start a polling thread of their own. *)
Definition leads (c : SchedulerConfig) : bool := cfg_wq_fd c =? -1.

Lemma group_size_bounds n M :
  0 < n < 2 ^ 63 → 0 < M < u32_mod →
  0 < group_size true n M ∧ n ≤ group_size true n M * M.
Proof.
  intros Hn HM. unfold group_size. rewrite u64_small by width_lia.
  pose proof (Z.div_mod (n + M - 1) M ltac:(lia)).
  pose proof (Z.mod_pos_bound (n + M - 1) M ltac:(lia)). nia.
Qed.

Lemma filter_none {A} (P : A → Prop) `{!∀ x, Decision (P x)} l :
  (∀ x, x ∈ l → ¬ P x) → filter P l = [].
Proof.
  intros Hl. destruct (filter P l) as [|x k] eqn:Hf; [done|].
  assert (Hx : x ∈ filter P l) by (rewrite Hf; by left).
  apply list_elem_of_filter in Hx as [? ?]. by destruct (Hl x).
Qed.

(** The multiples of [g] below [g * m]. *)
Lemma multiples g m :
  0 < g →
  length (filter (λ i, i mod g = 0) (seqZ 0 (g * Z.of_nat m))) = m.
Proof.
  intros Hg. induction m as [|m IH]; [by rewrite Z.mul_0_r|].
  replace (g * Z.of_nat (S m)) with (g * Z.of_nat m + g) by lia.
  rewrite seqZ_app, filter_app, length_app, IH by lia.
  rewrite (seqZ_cons _ g) by lia.
  rewrite filter_cons_True by (rewrite Z.add_0_l, Z.mul_comm, Z.mod_mul; lia).
  cbn [length]. rewrite filter_none; [cbn; lia|].
  intros i Hi%elem_of_seqZ. replace i with (Z.of_nat m * g + (i - Z.of_nat m * g)) by lia.
  rewrite Z.add_comm, Z.mod_add, Z.mod_small by lia. lia.
Qed.

Lemma filter_fmap_length {A B} (f : A → B) (P : B → Prop) (Q : A → Prop)
    `{!∀ x, Decision (P x)} `{!∀ x, Decision (Q x)} l :
  (∀ x, x ∈ l → P (f x) ↔ Q x) →
  length (filter P (f <$> l)) = length (filter Q l).
Proof.
  induction l as [|x l IH]; intros Hl; [done|]. rewrite fmap_cons.
  specialize (IH (λ y Hy, Hl y (list_elem_of_further _ _ _ Hy))).
  pose proof (Hl x (list_elem_of_here _ _)) as Hx.
  destruct (decide (Q x)).
  - rewrite !filter_cons_True by tauto. cbn. by rewrite IH.
  - by rewrite !filter_cons_False by tauto.
Qed.

Lemma new_pool_configs n base M cpus :
  0 < n < 2 ^ 63 → 0 < M < u32_mod → cfg_sqpoll base = true →
  new_SchedulerPool ring_fd n base M cpus =
  Ok (group_config true (group_size true n M) cpus base <$> seqZ 0 n).
Proof.
  intros Hn HM Hs. unfold new_SchedulerPool. rewrite Hs, (proj2 (Z.ltb_lt 0 M)) by lia.
  cbn [andb]. pose proof (group_size_bounds n M Hn HM).
  rewrite build_ok; [|tauto|autorewrite with coro; width_lia].
  cbn [app]. by rewrite zlen_nil, Z2Nat.id by lia.
Qed.

(** With SQPOLL and [M] polling threads asked for, a pool of [n] workers has
    at most [M] rings that start a polling thread; each other ring attaches to
    the descriptor of an earlier ring that does, and is not pinned; the leader of
    group [g] is pinned to [sqpoll_cpus[g]] when that exists. *)
Theorem pool_groups n base M cpus :
  0 < n < 2 ^ 63 → 0 < M < u32_mod → cfg_sqpoll base = true → (∀ i, 0 ≤ ring_fd i) →
  ∃ l, new_SchedulerPool ring_fd n base M cpus = Ok l ∧ zlen l = n ∧
    zlen (filter (λ c, leads c = true) l) ≤ M ∧
    ∀ i c, l !! i = Some c →
      if leads c
      then ∃ g, Z.of_nat i = g * group_size true n M ∧ cfg_cpu c = cpu_of cpus g
      else cfg_cpu c = -1 ∧
        ∃ j c', (j < i)%nat ∧ l !! j = Some c' ∧ leads c' = true ∧
          cfg_wq_fd c = ring_fd (Z.of_nat j).
Proof.
  intros Hn HM Hs Hfd. rewrite new_pool_configs by done.
  destruct (group_size_bounds n M Hn HM) as [Hg HgM].
  set (gsz := group_size true n M) in *. clearbody gsz.
  assert (Hleads : ∀ i, leads (group_config true gsz cpus base i) = (i mod gsz =? 0)).
  { intros i. unfold leads, group_config. cbn.
    destruct (i mod gsz =? 0); cbn; [done|]. apply Z.eqb_neq. specialize (Hfd (i - i mod gsz)). lia. }
  eexists. split_and!; [done| | |].
  - unfold zlen. rewrite length_fmap, length_seqZ. lia.
  - unfold zlen. rewrite (filter_fmap_length _ _ (λ i, i mod gsz = 0)).
    2: { intros i _. rewrite Hleads. apply Z.eqb_eq. }
    pose proof (multiples gsz (Z.to_nat M) Hg) as Hm. rewrite Z2Nat.id in Hm by lia.
    replace (gsz * M) with (n + (gsz * M - n)) in Hm by lia.
    rewrite seqZ_app, filter_app, length_app in Hm by lia. lia.
  - intros i c Hi. apply list_lookup_fmap_Some in Hi as (z & -> & Hz).
    apply lookup_seqZ in Hz as [-> Hlt]. rewrite Z.add_0_l in *. rewrite Hleads.
    pose proof (Z.div_mod (Z.of_nat i) gsz ltac:(lia)) as Hdm.
    pose proof (Z.mod_pos_bound (Z.of_nat i) gsz Hg).
    pose proof (Z.div_pos (Z.of_nat i) gsz ltac:(lia) Hg).
    destruct (Z.eqb_spec (Z.of_nat i mod gsz) 0) as [Hz|Hz].
    + exists (Z.of_nat i / gsz). split; [lia|]. cbn. by rewrite (proj2 (Z.eqb_eq _ _) Hz).
    + cbn. rewrite (proj2 (Z.eqb_neq _ _) Hz). split; [done|].
      set (j := Z.of_nat i - Z.of_nat i mod gsz).
      exists (Z.to_nat j), (group_config true gsz cpus base j).
      split_and!; [lia| | |].
      * apply list_lookup_fmap_Some. exists j. split; [done|].
        apply lookup_seqZ. lia.
      * rewrite Hleads. apply Z.eqb_eq. unfold j.
        replace (Z.of_nat i - Z.of_nat i mod gsz) with (Z.of_nat i / gsz * gsz) by lia.
        apply Z.mod_mul. lia.
      * cbn. by rewrite Z2Nat.id by lia.
Qed.

(** Fewer groups than asked for: with five workers and four polling threads
    the groups have two rings each, so only three polling threads run. *)
Theorem pool_fewer_pollers base cpus :
  cfg_sqpoll base = true →
  (list_fmap _ _ cfg_wq_fd <$> match new_SchedulerPool ring_fd 5 base 4 cpus with
                  | Ok l => Some l | _ => None end) =
  Some [-1; ring_fd 0; -1; ring_fd 2; -1].
Proof. intros Hs. rewrite new_pool_configs by (done || width_lia). reflexivity. Qed.

(** [next] is fair: as long as the counter does not wrap, any [n] consecutive
    calls on a pool of [n] workers choose each worker exactly once; on an empty
    pool it divides by zero. *)
Theorem next_round_robin n k :
  0 ≤ n → 0 ≤ k → k + n < u64_mod →
  if n =? 0 then next n k = UB
  else ∃ l, nexts (Z.to_nat n) n k = Ok l ∧ l ≡ₚ seqZ 0 n.
Proof.
  intros Hn Hk Hw. destruct (Z.eqb_spec n 0) as [->|Hne]; [done|].
  assert (Hmain : ∀ m j, 0 ≤ j → j + Z.of_nat m < u64_mod →
    nexts m n j = Ok ((λ i, i mod n) <$> seqZ j (Z.of_nat m))).
  { induction m as [|m IH]; intros j Hj Hjm; [done|]. cbn [nexts]. unfold next.
    rewrite (proj2 (Z.eqb_neq n 0)) by done. cbn [mbind res_bind].
    rewrite u64_small by lia. rewrite IH by lia. cbn [mbind res_bind].
    rewrite (seqZ_cons j) by lia. cbn. do 4 f_equal; lia. }
  exists ((λ i, i mod n) <$> seqZ k n). split.
  { rewrite Hmain by lia. by rewrite Z2Nat.id by lia. }
  apply submseteq_length_Permutation.
  - apply NoDup_submseteq.
    + apply NoDup_fmap_2_strong; [|apply NoDup_seqZ].
      intros a b Ha%elem_of_seqZ Hb%elem_of_seqZ Hab.
      pose proof (Z.div_mod a n Hne). pose proof (Z.div_mod b n Hne).
      assert (n * (a / n - b / n) = a - b) by lia.
      assert (a / n - b / n = 0) by nia. lia.
    + intros x (a & -> & _)%list_elem_of_fmap. apply elem_of_seqZ.
      pose proof (Z.mod_pos_bound a n). lia.
  - rewrite length_fmap, !length_seqZ. lia.
Qed.
End pool_facts.

(** ** Witnesses *)

Module Demo.
(** A kernel that refuses [SQ_AFF], with the flag bits of Linux. *)
Definition init (n : Z) (p : io_uring_params) : Z :=
  if Z.testbit (flags p) 2 then - EINVAL else 0.
Definition features (n : Z) (p : io_uring_params) : Z := 7.
Definition params : IoUringParams := mkParams 8192 true 1000 (-1) 3.
Lemma bits : Forall (λ b, 0 ≤ b) [1; 2; 5; 8].
Proof. repeat constructor; lia. Qed.
Lemma distinct : NoDup [1; 2; 5; 8].
Proof. by apply (bool_decide_unpack _). Qed.
End Demo.

Lemma sqpoll_is_kept_witness :
  ∃ r, new_IoUring 1 2 5 8 Demo.init Demo.features Demo.params = Ok r ∧
    sqpoll_active_ r = true.
Proof.
  apply (sqpoll_is_kept 1 2 5 8 Demo.init Demo.features Demo.bits Demo.distinct Demo.params).
  - reflexivity.
  - left. vm_compute. reflexivity.
Defined.

Lemma ring_throws_only_if_plain_refused_witness :
  match new_IoUring 1 2 5 8 (λ _ _, -1) Demo.features Demo.params with
  | Ok r => -1 = 0
  | Throw e => -1 ≠ 0 ∧ e = SystemError 1
  | _ => False
  end.
Proof.
  exact (ring_throws_only_if_plain_refused 1 2 5 8 (λ _ _, -1) Demo.features
    Demo.bits Demo.distinct Demo.params).
Defined.

Lemma pool_groups_witness :
  ∃ l, new_SchedulerPool (λ i, 10 + Z.abs i) 8 (mkConfig true (-1) (-1)) 2 [4; 6] = Ok l ∧
    zlen l = 8 ∧ zlen (filter (λ c, leads c = true) l) ≤ 2.
Proof.
  destruct (pool_groups (λ i, 10 + Z.abs i) 8 (mkConfig true (-1) (-1)) 2 [4; 6])
    as (l & H1 & H2 & H3 & _); [lia|width_lia|reflexivity|lia|].
  exists l. split; [exact H1|]. split; [exact H2|exact H3].
Defined.

Lemma pool_fewer_pollers_witness :
  (list_fmap _ _ cfg_wq_fd <$>
    match new_SchedulerPool (λ i, 10 + i) 5 (mkConfig true (-1) (-1)) 4 [] with
    | Ok l => Some l | _ => None end) = Some [-1; 10; -1; 12; -1].
Proof. exact (pool_fewer_pollers (λ i, 10 + i) (mkConfig true (-1) (-1)) [] eq_refl). Defined.

Lemma next_round_robin_witness :
  ∃ l, nexts 3 3 7 = Ok l ∧ l ≡ₚ seqZ 0 3.
Proof. apply (next_round_robin 3 7); [lia|lia|width_lia]. Defined.
