(* ===== verification/Scheduler.v ===== *)
(** * Scheduler: the event loop of a worker

    Models [include/coro_net/scheduler.hpp], [src/scheduler/scheduler.cc] and the
    completion path of [src/coroutine/io_operation.cc] as a state machine that
    interleaves the thread in [run] with other threads ([post], [post_task],
    [stop]) and with the kernel.

    The submission queue [sq] has a capacity; [submit_and_wait] hands its entries
    to the kernel ([inflight]), which completes them in any order into [cq].  With SQPOLL
    the entries handed over occupy the queue until the polling thread has read them.  The
    eventfd is a counter; a write is a step separate from the critical section
    that precedes it ([writers] counts the threads in between).  What user code
    does when a coroutine is resumed, a task run or a timer fired is any list of
    [action]s, chosen by the step.  Memory is sequentially consistent. *)
From S2P Require Import Prelude.

Abbreviation handle := nat (only parsing).

(** [-EINTR] is the one error of [submit_and_wait] that [run] tolerates. *)
Definition EINTR : Z := 4.
Definition kBatch : nat := 64.
(** The largest value of an eventfd counter. *)
Definition efd_max : Z := 2 ^ 64 - 2.

(** The entries of the submission and completion queues, by their [user_data]:
    null (the [NOP] of [stop]), the eventfd watcher, the timerfd watcher, or an
    [IoOperationBase] of a suspended coroutine. *)
Inductive sqe : Type := SNop | SWatch | STimer | SOp (op : nat).
Record cqe := mkCqe { user_data : sqe; res : Z; flags : Z }.

(** [IoOperationBase]. *)
Record IoOperation := mkOp { op_handle_ : option handle; result_ : Z; cqe_flags_ : Z }.

(** The queue shared with the other threads, the stop flag and the eventfd. *)
Record Cross := mkCross {
  handles : list handle;
  tasks : list nat;
  stopping_ : bool;
  efd : Z;
  writers : nat;        (* threads about to write to the eventfd *)
}.

(** [sq]: entries not submitted yet; [inflight]: submitted and not completed, of which
    the kernel has not read the last [unread] from the queue. *)
Record Ring := mkRing {
  sq : list sqe;
  inflight : list sqe;
  unread : nat;
  cq : list cqe;
}.

(** Where the thread is in [run]. *)
Inductive point : Type :=
  | LInit                 (* [run] not entered *)
  | LTop                  (* at the test of the [while] *)
  | LTasks (ts : list nat)  (* runs the drained tasks *)
  | LReady                (* at the test of the inner [while] *)
  | LSubmit               (* about to submit and wait *)
  | LWait                 (* blocked in [submit_and_wait] *)
  | LPeek                 (* about to [peek_batch_cqe] *)
  | LCq (i n : nat)       (* dispatches entry [i] of [n] *)
  | LExit                 (* returned *)
  | LThrow (code : Z)     (* [std::system_error] *)
  | LUB.                  (* a null [io_uring_sqe*] was dereferenced *)

Record Scheduler := mkSched {
  pc : point;
  ready_ : list handle;
  cross_ : Cross;
  ring_ : Ring;
  ops : gmap nat IoOperation;
  final : gset handle;         (* coroutines at their final suspension point *)
  lost_watch : bool;          (* the watcher could not be re-armed *)
  (* history *)
  pushed : list handle;       (* to [ready_], in order *)
  popped : list handle;       (* from [ready_], in order *)
  remote : list handle;       (* to [cross_.handles], in order *)
  drained : list handle;      (* from [cross_.handles], in order *)
}.

Definition new_scheduler : Scheduler :=
  mkSched LInit [] (mkCross [] [] false 0 0) (mkRing [] [] 0 []) ∅ ∅ false [] [] [] [].

Definition set_pc (p : point) (s : Scheduler) : Scheduler :=
  mkSched p (ready_ s) (cross_ s) (ring_ s) (ops s) (final s) (lost_watch s)
    (pushed s) (popped s) (remote s) (drained s).
Definition set_ring (r : Ring) (s : Scheduler) : Scheduler :=
  mkSched (pc s) (ready_ s) (cross_ s) r (ops s) (final s) (lost_watch s)
    (pushed s) (popped s) (remote s) (drained s).
Definition set_cross (c : Cross) (s : Scheduler) : Scheduler :=
  mkSched (pc s) (ready_ s) c (ring_ s) (ops s) (final s) (lost_watch s)
    (pushed s) (popped s) (remote s) (drained s).
Definition set_ops (o : gmap nat IoOperation) (s : Scheduler) : Scheduler :=
  mkSched (pc s) (ready_ s) (cross_ s) (ring_ s) o (final s) (lost_watch s)
    (pushed s) (popped s) (remote s) (drained s).
Definition set_final (d : gset handle) (s : Scheduler) : Scheduler :=
  mkSched (pc s) (ready_ s) (cross_ s) (ring_ s) (ops s) d (lost_watch s)
    (pushed s) (popped s) (remote s) (drained s).

Section scheduler.
(** [cfg.ring_entries], as the kernel rounded it; whether SQPOLL is active. *)
Context (entries : nat) (sqpoll : bool).

(** [io_uring_get_sqe] and the preparation of the entry: fails when the queue is
    full. *)
Definition get_sqe (e : sqe) (s : Scheduler) : option Scheduler :=
  let r := ring_ s in
  if (length (sq r) + unread r <? entries)%nat
  then Some (set_ring (mkRing (sq r ++ [e]) (inflight r) (unread r) (cq r)) s)
  else None.

(** [io_uring_submit]: the kernel reads the queue at once, or its SQPOLL thread does,
    later. *)
Definition submit (s : Scheduler) : Scheduler :=
  let r := ring_ s in
  set_ring (mkRing [] (inflight r ++ sq r) (if sqpoll then unread r + length (sq r) else 0)%nat (cq r)) s.
(** The SQPOLL thread reads an entry. *)
Definition poll (s : Scheduler) : Scheduler :=
  let r := ring_ s in set_ring (mkRing (sq r) (inflight r) (pred (unread r)) (cq r)) s.

Definition push_ready (h : handle) (s : Scheduler) : Scheduler :=
  mkSched (pc s) (ready_ s ++ [h]) (cross_ s) (ring_ s) (ops s) (final s) (lost_watch s)
    (pushed s ++ [h]) (popped s) (remote s) (drained s).

(** [if (sqe) rearm(sqe);] of the two watchers. *)
Definition rearm_watch (s : Scheduler) : Scheduler :=
  match get_sqe SWatch s with
  | Some s => s
  | None => mkSched (pc s) (ready_ s) (cross_ s) (ring_ s) (ops s) (final s) true
      (pushed s) (popped s) (remote s) (drained s)
  end.
Definition rearm_timer (s : Scheduler) : Scheduler := default s (get_sqe STimer s).

(** [IoOperationBase::on_complete]. *)
Definition complete_op (o : nat) (r f : Z) (s : Scheduler) : Scheduler :=
  match ops s !! o with
  | None => s
  | Some op =>
      let s := set_ops (<[o := mkOp (op_handle_ op) r f]> (ops s)) s in
      match op_handle_ op with
      | Some h => if decide (h ∈ final s) then s else push_ready h s
      | None => s
      end
  end.

(** [stop()] on the scheduler's own thread. *)
Definition stop_local (s : Scheduler) : Scheduler :=
  if stopping_ (cross_ s) then s else
  let c := cross_ s in
  let s := set_cross (mkCross (handles c) (tasks c) true (efd c) (writers c)) s in
  match get_sqe SNop s with Some s => submit s | None => s end.

(** What user code does on the scheduler's thread: [post] of a handle, an
    operation's [await_suspend] (which does not test for a null [sqe]), [stop],
    the end of a coroutine.  [post_task] on this thread runs the task at once. *)
Inductive action : Type :=
  | APost (h : handle)
  | AAwait (o : nat) (h : handle)
  | AStop
  | ADone (h : handle).

#[export] Instance action_eq_dec : EqDecision action.
Proof. solve_decision. Defined.

Definition act (a : action) (s : Scheduler) : option Scheduler :=
  match a with
  | APost h => Some (push_ready h s)
  | AAwait o h =>
      s ← get_sqe (SOp o) s;
      Some (set_ops (<[o := mkOp (Some h) 0 0]> (ops s)) s)
  | AStop => Some (stop_local s)
  | ADone h => Some (set_final ({[h]} ∪ final s) s)
  end.

Fixpoint acts (l : list action) (s : Scheduler) : option Scheduler :=
  match l with
  | [] => Some s
  | a :: l => s ← act a s; acts l s
  end.

(** Continue at [p], unless the actions dereferenced null. *)
Definition user (l : list action) (p : point) (s : Scheduler) : Scheduler :=
  match acts l s with Some s => set_pc p s | None => set_pc LUB s end.

(** Entry of [run]. *)
Definition enter (s : Scheduler) : Scheduler :=
  let c := cross_ s in
  let s := set_cross (mkCross (handles c) (tasks c) false (efd c) (writers c)) s in
  set_pc LTop (rearm_timer (rearm_watch s)).

(** [drain_cross_queue]: the live handles go to [ready_], the tasks are to run. *)
Definition drain_cross_queue (s : Scheduler) : Scheduler :=
  let c := cross_ s in
  let hs := filter (.∉ final s) (handles c) in
  mkSched (LTasks (tasks c)) (ready_ s ++ hs)
    (mkCross [] [] (stopping_ c) (efd c) (writers c)) (ring_ s) (ops s) (final s)
    (lost_watch s) (pushed s ++ hs) (popped s) (remote s) (drained s ++ handles c).

(** One turn of the inner loop. *)
Definition resume (h : handle) (rest : list handle) (l : list action) (s : Scheduler)
    : Scheduler :=
  let s := mkSched (pc s) rest (cross_ s) (ring_ s) (ops s) (final s) (lost_watch s)
             (pushed s) (popped s ++ [h]) (remote s) (drained s) in
  if decide (h ∈ final s) then s else user l LReady s.

(** Dispatch of one completion; [l] is what the timer callbacks do. *)
Definition on_complete (e : cqe) (l : list action) (p : point) (s : Scheduler) : Scheduler :=
  match user_data e with
  | SNop => set_pc p s
  | SWatch => set_pc p (rearm_watch s)
  | STimer =>
      if res e <? 0 then set_pc p (rearm_timer s) else
      match acts l s with Some s => set_pc p (rearm_timer s) | None => set_pc LUB s end
  | SOp o => set_pc p (complete_op o (res e) (flags e) s)
  end.

(** [post] and [post_task] from another thread: the push, under the mutex. *)
Definition post_remote (h : handle) (s : Scheduler) : Scheduler :=
  let c := cross_ s in
  mkSched (pc s) (ready_ s)
    (mkCross (handles c ++ [h]) (tasks c) (stopping_ c) (efd c) (S (writers c)))
    (ring_ s) (ops s) (final s) (lost_watch s)
    (pushed s) (popped s) (remote s ++ [h]) (drained s).
Definition post_task_remote (t : nat) (s : Scheduler) : Scheduler :=
  let c := cross_ s in
  set_cross (mkCross (handles c) (tasks c ++ [t]) (stopping_ c) (efd c) (S (writers c))) s.
Definition queue_boot_task (t : nat) (s : Scheduler) : Scheduler :=
  let c := cross_ s in
  set_cross (mkCross (handles c) (tasks c ++ [t]) (stopping_ c) (efd c) (writers c)) s.
(** [wake_remote]: the write; at the maximum it fails and the counter stays. *)
Definition wake_remote (s : Scheduler) : Scheduler :=
  let c := cross_ s in
  set_cross (mkCross (handles c) (tasks c) (stopping_ c)
    (if efd c <? efd_max then efd c + 1 else efd c) (pred (writers c))) s.
Definition stop_remote (s : Scheduler) : Scheduler :=
  let c := cross_ s in
  if stopping_ c then s else
  set_cross (mkCross (handles c) (tasks c) true (efd c) (S (writers c))) s.

(** The kernel completes entry [k] of [inflight], which it has read: the read of the eventfd
    succeeds only on a nonzero counter, which it clears. *)
Definition kernel (k : nat) (r f : Z) (s : Scheduler) : option Scheduler :=
  let c := cross_ s in
  let q := ring_ s in
  e ← take (length (inflight q) - unread q) (inflight q) !! k;
  let s' := set_ring (mkRing (sq q) (delete k (inflight q)) (unread q) (cq q ++ [mkCqe e r f])) s in
  match e with
  | SWatch =>
      if 0 <? efd c then
        Some (set_cross (mkCross (handles c) (tasks c) (stopping_ c) 0 (writers c)) s')
      else if r <? 0 then Some s' else None
  | _ => Some s'
  end.

Inductive event : Type :=
  (* other threads *)
  | EvBoot (t : nat)
  | EvPost (h : handle)
  | EvPostTask (t : nat)
  | EvStop
  | EvWrite
  (* the kernel *)
  | EvKernel (k : nat) (r f : Z)
  | EvSqPoll
  (* the thread in [run] *)
  | EvRun
  | EvTop
  | EvTask (l : list action)
  | EvTasksDone
  | EvResume (l : list action)
  | EvReadyDone
  | EvSubmit
  | EvReturn (r : Z)
  | EvPeek
  | EvCqe (l : list action)
  | EvAdvance.

Definition exec (e : event) (s : Scheduler) : option Scheduler :=
  match e, pc s with
  | EvBoot t, LInit => Some (queue_boot_task t s)
  | EvPost h, _ => Some (post_remote h s)
  | EvPostTask t, _ => Some (post_task_remote t s)
  | EvStop, _ => Some (stop_remote s)
  | EvWrite, _ => if decide (writers (cross_ s) = 0%nat) then None else Some (wake_remote s)
  | EvKernel k r f, _ => kernel k r f s
  | EvSqPoll, _ => if decide (unread (ring_ s) = 0%nat) then None else Some (poll s)
  | EvRun, (LInit | LExit) => Some (enter s)
  | EvTop, LTop =>
      Some (if stopping_ (cross_ s) then set_pc LExit s else drain_cross_queue s)
  | EvTask l, LTasks (_ :: ts) => Some (user l (LTasks ts) s)
  | EvTasksDone, LTasks [] => Some (set_pc LReady s)
  | EvResume l, LReady =>
      match ready_ s with [] => None | h :: rest => Some (resume h rest l s) end
  | EvReadyDone, LReady =>
      match ready_ s with
      | [] => Some (set_pc (if stopping_ (cross_ s) then LExit else LSubmit) s)
      | _ => None
      end
  | EvSubmit, LSubmit => Some (set_pc LWait (submit s))
  | EvReturn r, LWait =>
      if 0 <=? r then
        match cq (ring_ s) with [] => None | _ => Some (set_pc LPeek s) end
      else Some (set_pc (if r =? - EINTR then LPeek else LThrow (- r)) s)
  | EvPeek, LPeek => Some (set_pc (LCq 0 (min kBatch (length (cq (ring_ s))))) s)
  | EvCqe l, LCq i n =>
      if (i <? n)%nat then
        e ← cq (ring_ s) !! i; Some (on_complete e l (LCq (S i) n) s)
      else None
  | EvAdvance, LCq i n =>
      if (i <? n)%nat then None else
      Some (set_pc LTop (set_ring (mkRing (sq (ring_ s)) (inflight (ring_ s)) (unread (ring_ s))
                                     (drop n (cq (ring_ s)))) s))
  | _, _ => None
  end.

Definition step (s s' : Scheduler) : Prop := ∃ e, exec e s = Some s'.
Definition reachable (s : Scheduler) : Prop := rtc step new_scheduler s.

Fixpoint run (es : list event) (s : Scheduler) : option Scheduler :=
  match es with
  | [] => Some s
  | e :: es => s ← exec e s; run es s
  end.
End scheduler.

(** ** Invariant *)

#[global] Opaque kBatch.

Section invariant.
Context (entries : nat) (sqpoll : bool).
Implicit Types s : Scheduler.

(** A completed read of the eventfd is in the completion queue. *)
Definition woken (l : list cqe) : Prop := ∃ e, e ∈ l ∧ user_data e = SWatch.

(** The thread has been, or is about to be, signalled. *)
Definition signal s : Prop :=
  (0 < writers (cross_ s))%nat ∨ 0 < efd (cross_ s) ∨ woken (cq (ring_ s)).

(** The thread will drain the shared queue before it blocks, or never again. *)
Definition predrain (p : point) : bool :=
  match p with LTasks _ | LReady | LSubmit | LWait => false | _ => true end.
(** The thread blocks before it next tests [stopping_]. *)
Definition blocking (p : point) : bool :=
  match p with LSubmit | LWait => true | _ => false end.
(** The completions dispatched already. *)
Definition cursor (p : point) : nat := match p with LCq i _ => i | _ => 0 end.
(** Points at which [run] has not armed the watcher, or never uses it again. *)
Definition unarmed (p : point) : bool :=
  match p with LInit | LUB => true | _ => false end.

Definition armed s : Prop :=
  SWatch ∈ sq (ring_ s) ∨ SWatch ∈ inflight (ring_ s) ∨
  woken (drop (cursor (pc s)) (cq (ring_ s))).

Definition in_batch s : Prop :=
  match pc s with
  | LCq i n => (i ≤ n ∧ n ≤ length (cq (ring_ s)) ∧ n ≤ kBatch)%nat
  | LWait => sq (ring_ s) = []
  | _ => True
  end.

Record inv s : Prop := {
  n_cross :
    handles (cross_ s) ≠ [] ∨ tasks (cross_ s) ≠ [] → predrain (pc s) = true ∨ signal s;
  n_stop : stopping_ (cross_ s) = true → blocking (pc s) = false ∨ signal s;
  n_watch : lost_watch s = false → unarmed (pc s) = true ∨ armed s;
  n_batch : in_batch s;
  n_ready : pushed s = popped s ++ ready_ s;
  n_remote : remote s = drained s ++ handles (cross_ s);
  n_efd : 0 ≤ efd (cross_ s);
}.

Lemma new_scheduler_inv : inv new_scheduler.
Proof. split; cbn; try done; auto. Qed.

(** What the thread's own actions may change. *)
Record acted s s' : Prop := {
  a_pc : pc s' = pc s;
  a_handles : handles (cross_ s') = handles (cross_ s);
  a_tasks : tasks (cross_ s') = tasks (cross_ s);
  a_efd : efd (cross_ s') = efd (cross_ s);
  a_writers : writers (cross_ s') = writers (cross_ s);
  a_cq : cq (ring_ s') = cq (ring_ s);
  a_watch : SWatch ∈ sq (ring_ s) ++ inflight (ring_ s) →
            SWatch ∈ sq (ring_ s') ++ inflight (ring_ s');
  a_lost : lost_watch s' = lost_watch s;
  a_popped : popped s' = popped s;
  a_remote : remote s' = remote s;
  a_drained : drained s' = drained s;
  a_ready : ∃ l, pushed s' = pushed s ++ l ∧ ready_ s' = ready_ s ++ l;
}.

#[export] Instance acted_preorder : PreOrder acted.
Proof.
  split.
  - intros s. split; try done. exists []. by rewrite !app_nil_r.
  - intros s1 s2 s3 H1 H2. destruct H1 as [????????????], H2 as [????????????].
    split; try congruence; [auto|].
    destruct a_ready0 as (l1 & ? & ?), a_ready1 as (l2 & ? & ?).
    exists (l1 ++ l2). rewrite !app_assoc. split; congruence.
Qed.

Lemma get_sqe_acted e s s' : get_sqe entries e s = Some s' → acted s s'.
Proof.
  unfold get_sqe. case_match; [|done]. intros [= <-].
  split; cbn; try done; [set_solver|]. exists []. by rewrite !app_nil_r.
Qed.

Lemma submit_acted s : acted s (submit sqpoll s).
Proof. split; cbn; try done; [set_solver|]. exists []. by rewrite !app_nil_r. Qed.

Lemma push_ready_acted h s : acted s (push_ready h s).
Proof. split; cbn; try done. by exists [h]. Qed.

Lemma set_ops_acted o s : acted s (set_ops o s).
Proof. split; cbn; try done. exists []. by rewrite !app_nil_r. Qed.

Lemma stop_local_acted s : acted s (stop_local entries sqpoll s).
Proof.
  unfold stop_local. destruct (stopping_ _); [reflexivity|].
  match goal with |- context [get_sqe _ SNop ?x] => set (s1 := x) end.
  assert (H1 : acted s s1).
  { split; cbn; try done. exists []. by rewrite !app_nil_r. }
  destruct (get_sqe entries SNop s1) as [s2|] eqn:He; [|done].
  etrans; [exact H1|]. etrans; [by eapply get_sqe_acted|apply submit_acted].
Qed.

Lemma act_acted a s s' : act entries sqpoll a s = Some s' → acted s s'.
Proof.
  destruct a as [h|o h| |h]; cbn.
  - intros [= <-]. apply push_ready_acted.
  - intros (s1 & He & [= <-])%bind_Some.
    etrans; [by eapply get_sqe_acted|apply set_ops_acted].
  - intros [= <-]. apply stop_local_acted.
  - intros [= <-]. split; cbn; try done. exists []. by rewrite !app_nil_r.
Qed.

Lemma acts_acted l s s' : acts entries sqpoll l s = Some s' → acted s s'.
Proof.
  revert s. induction l as [|a l IH]; intros s; cbn [acts]; [by intros [= <-]|].
  intros (s1 & H1 & H2)%bind_Some. etrans; [by eapply act_acted|by apply IH].
Qed.

Lemma complete_op_acted o r f s : acted s (complete_op o r f s).
Proof.
  unfold complete_op. destruct (ops s !! o) as [op|]; [|reflexivity].
  destruct (op_handle_ op) as [h|]; [|apply set_ops_acted].
  cbn. case_decide; [apply set_ops_acted|].
  etrans; [apply set_ops_acted|apply push_ready_acted].
Qed.

Lemma rearm_timer_acted s : acted s (rearm_timer entries s).
Proof.
  unfold rearm_timer. destruct (get_sqe entries STimer s) as [s'|] eqn:He; cbn;
    [by eapply get_sqe_acted|reflexivity].
Qed.

Lemma elem_of_armed s :
  armed s ↔ SWatch ∈ sq (ring_ s) ++ inflight (ring_ s) ∨
            woken (drop (cursor (pc s)) (cq (ring_ s))).
Proof. unfold armed. rewrite elem_of_app. tauto. Qed.

Lemma acted_signal s s' : acted s s' → signal s' ↔ signal s.
Proof. intros []. unfold signal. by rewrite a_efd0, a_writers0, a_cq0. Qed.

(** The thread acts, then moves on to [p]. *)
Lemma acted_inv s s' p :
  inv s → acted s s' →
  (predrain (pc s) = true → predrain p = true) →
  blocking p = false →
  unarmed (pc s) = false →
  (woken (drop (cursor (pc s)) (cq (ring_ s))) →
     woken (drop (cursor p) (cq (ring_ s))) ∨ SWatch ∈ sq (ring_ s') ++ inflight (ring_ s')) →
  in_batch (set_pc p s') →
  inv (set_pc p s').
Proof.
  intros Hs Ha Hp Hb Hu Hw Hbatch. pose proof (acted_signal _ _ Ha) as Hsig.
  destruct Ha. split; cbn; try done.
  - rewrite a_handles0, a_tasks0. intros Hne.
    destruct (n_cross _ Hs Hne); [left; auto|right; by apply Hsig].
  - intros _. by left.
  - rewrite a_lost0. intros Hl. right. apply elem_of_armed. cbn.
    destruct (n_watch _ Hs Hl) as [?|Harm%elem_of_armed]; [congruence|].
    rewrite a_cq0. destruct Harm as [?|?%Hw]; [left; auto|tauto].
  - destruct a_ready0 as (l & -> & ->).
    by rewrite a_popped0, app_assoc, (n_ready _ Hs).
  - by rewrite a_remote0, a_drained0, a_handles0, (n_remote _ Hs).
  - rewrite a_efd0. apply Hs.
Qed.

(** A move of the thread that changes nothing else. *)
Lemma set_pc_inv s p :
  inv s → (predrain (pc s) = true → predrain p = true) → blocking p = false →
  unarmed (pc s) = false → cursor p = cursor (pc s) → in_batch (set_pc p s) →
  inv (set_pc p s).
Proof.
  intros Hs Hp Hb Hu Hc Hbatch. apply (acted_inv s s p); try done.
  rewrite Hc. auto.
Qed.

Lemma ub_inv s : inv s → inv (set_pc LUB s).
Proof.
  intros Hs. split; cbn; try apply Hs; try done; auto.
Qed.

(** User code run between two points of the loop. *)
Lemma user_inv s l p :
  inv s → (predrain (pc s) = true → predrain p = true) → blocking p = false →
  unarmed (pc s) = false → cursor p = cursor (pc s) →
  (∀ s', acted s s' → in_batch (set_pc p s')) →
  inv (user entries sqpoll l p s).
Proof.
  intros Hs Hp Hb Hu Hc Hbatch. unfold user.
  destruct (acts entries sqpoll l s) as [s'|] eqn:Hl; [|by apply ub_inv].
  pose proof (acts_acted _ _ _ Hl) as Ha.
  apply (acted_inv s s' p); auto. rewrite Hc. auto.
Qed.

Lemma rearm_watch_or s :
  (acted s (rearm_watch entries s) ∧
   SWatch ∈ sq (ring_ (rearm_watch entries s)) ++ inflight (ring_ (rearm_watch entries s))) ∨
  (lost_watch (rearm_watch entries s) = true ∧ pc (rearm_watch entries s) = pc s ∧
   cross_ (rearm_watch entries s) = cross_ s ∧ ring_ (rearm_watch entries s) = ring_ s ∧
   pushed (rearm_watch entries s) = pushed s ∧ popped (rearm_watch entries s) = popped s ∧
   ready_ (rearm_watch entries s) = ready_ s ∧ remote (rearm_watch entries s) = remote s ∧
   drained (rearm_watch entries s) = drained s).
Proof.
  unfold rearm_watch. destruct (get_sqe entries SWatch s) as [s'|] eqn:He.
  - left. split; [by eapply get_sqe_acted|].
    unfold get_sqe in He. case_match; [|done]. injection He as <-. cbn. set_solver.
  - by right.
Qed.

(** The invariant speaks of these parts of the state only. *)
Lemma inv_lost s s' p :
  inv s → lost_watch s' = true → cross_ s' = cross_ s → ring_ s' = ring_ s →
  pushed s' = pushed s → popped s' = popped s → ready_ s' = ready_ s →
  remote s' = remote s → drained s' = drained s →
  (predrain (pc s) = true → predrain p = true) → blocking p = false →
  in_batch (set_pc p s) → inv (set_pc p s').
Proof.
  intros Hs Hl Hc Hr Hpu Hpo Hre Hrm Hd Hp Hb Hbatch.
  split; unfold signal, in_batch in *; cbn; rewrite ?Hc, ?Hr, ?Hpu, ?Hpo, ?Hre, ?Hrm, ?Hd;
    try apply Hs; try done; [|by left|congruence].
  intros Hne. destruct (n_cross _ Hs Hne); [left; auto|by right].
Qed.

Lemma rearm_watch_inv s p :
  inv s → (predrain (pc s) = true → predrain p = true) → blocking p = false →
  unarmed (pc s) = false → in_batch (set_pc p s) → inv (set_pc p (rearm_watch entries s)).
Proof.
  intros Hs Hp Hb Hu Hbatch.
  destruct (rearm_watch_or s) as [[Ha Hw]|(Hl & _ & Hc & Hr & Hpu & Hpo & Hre & Hrm & Hd)].
  - apply (acted_inv s _ p); auto. unfold in_batch in *. cbn in *.
    rewrite (a_cq _ _ Ha). by destruct p.
  - by apply (inv_lost s _ p).
Qed.

Lemma woken_drop_S (l : list cqe) i e :
  l !! i = Some e → user_data e ≠ SWatch → woken (drop i l) → woken (drop (S i) l).
Proof.
  intros Hi He (e' & Hin & He'). rewrite (drop_S l e i Hi) in Hin.
  apply elem_of_cons in Hin as [->|Hin]; [done|]. by exists e'.
Qed.

Lemma on_complete_inv s i n e l :
  inv s → pc s = LCq i n → (i < n)%nat → cq (ring_ s) !! i = Some e →
  inv (on_complete entries sqpoll e l (LCq (S i) n) s).
Proof.
  intros Hs Hpc Hlt He. pose proof (n_batch _ Hs) as Hb. unfold in_batch in Hb.
  rewrite Hpc in Hb.
  assert (Hacted : ∀ s', acted s s' → user_data e ≠ SWatch → inv (set_pc (LCq (S i) n) s')).
  { intros s' Ha Hne. apply (acted_inv s s' (LCq (S i) n)); rewrite ?Hpc; auto.
    - cbn. intros Hw. left. by eapply woken_drop_S.
    - unfold in_batch. cbn. rewrite (a_cq _ _ Ha). lia. }
  unfold on_complete. destruct (user_data e) eqn:Hu.
  - by apply Hacted.
  - apply rearm_watch_inv; rewrite ?Hpc; try done. unfold in_batch. cbn. lia.
  - destruct (res e <? 0); [by apply Hacted; [apply rearm_timer_acted|]|].
    destruct (acts entries sqpoll l s) as [s'|] eqn:Hl; [|by apply ub_inv].
    apply Hacted; [|done]. etrans; [by eapply acts_acted|apply rearm_timer_acted].
  - apply Hacted; [|done]. apply complete_op_acted.
Qed.

Lemma drain_inv s :
  inv s → pc s = LTop → stopping_ (cross_ s) = false → inv (drain_cross_queue s).
Proof.
  intros Hs Hpc Hst. split; cbn; try done.
  - intros [?|?]; done.
  - rewrite Hst. done.
  - intros Hl. destruct (n_watch _ Hs Hl) as [Hu|Ha]; [by rewrite Hpc in Hu|].
    right. unfold armed in *. by rewrite Hpc in Ha.
  - by rewrite app_assoc, (n_ready _ Hs).
  - by rewrite app_nil_r, (n_remote _ Hs).
  - apply Hs.
Qed.

Lemma resume_inv s h rest l :
  inv s → pc s = LReady → ready_ s = h :: rest → inv (resume entries sqpoll h rest l s).
Proof.
  intros Hs Hpc Hr. unfold resume.
  match goal with |- context [user _ _ _ _ ?x] => set (s1 := x) end.
  assert (inv s1).
  { destruct Hs. split; cbn; try done.
    - by rewrite <-app_assoc, n_ready0, Hr. }
  case_decide; [done|].
  apply user_inv; cbn; rewrite ?Hpc; try done.
Qed.

Lemma enter_inv s : inv s → pc s = LInit ∨ pc s = LExit → inv (enter entries s).
Proof.
  intros Hs Hpc. unfold enter.
  match goal with |- context [rearm_watch _ ?x] => set (s1 := x) end.
  pose proof (rearm_timer_acted (rearm_watch entries s1)) as Ht.
  destruct (rearm_watch_or s1) as [[Ha Hw]|(Hl & Hp & Hc & Hr & Hpu & Hpo & Hre & Hrm & Hd)].
  - assert (Ha2 : acted s1 (rearm_timer entries (rearm_watch entries s1))) by (by etrans).
    apply (a_watch _ _ Ht) in Hw. destruct Ha2. split; cbn; try done; auto.
    + intros _. right. apply elem_of_armed. by left.
    + destruct a_ready0 as (l & -> & ->). rewrite a_popped0, app_assoc.
      f_equal. apply (n_ready _ Hs).
    + rewrite a_remote0, a_drained0, a_handles0. apply Hs.
    + rewrite a_efd0. apply Hs.
  - destruct Ht. split; cbn; try done; auto.
    + rewrite a_lost0, Hl. done.
    + destruct a_ready0 as (l & -> & ->). rewrite a_popped0, Hpu, Hpo, Hre, app_assoc.
      f_equal. apply (n_ready _ Hs).
    + rewrite a_remote0, a_drained0, a_handles0, Hrm, Hd, Hc. apply Hs.
    + rewrite a_efd0, Hc. apply Hs.
Qed.

(** The other threads change the shared queue and the eventfd only, and whoever
    adds to the queue or stores the flag is then about to write. *)
Lemma remote_inv s s' :
  inv s → pc s' = pc s → ring_ s' = ring_ s → lost_watch s' = lost_watch s →
  pushed s' = pushed s → popped s' = popped s → ready_ s' = ready_ s →
  drained s' = drained s → remote s' = drained s ++ handles (cross_ s') →
  (0 ≤ efd (cross_ s')) →
  (0 < writers (cross_ s'))%nat ∨ 0 < efd (cross_ s') ∨
    (pc s = LInit ∧ stopping_ (cross_ s') = stopping_ (cross_ s)) → inv s'.
Proof.
  intros Hs Hpc Hr Hl Hpu Hpo Hre Hd Hrm Hefd Hsig.
  assert (Hsig' : signal s' ∨ pc s = LInit) by (unfold signal; tauto).
  split; unfold in_batch; rewrite ?Hpc, ?Hr, ?Hl, ?Hpu, ?Hpo, ?Hre, ?Hd; try apply Hs; try done.
  - intros _. destruct Hsig' as [?| ->]; [by right|by left].
  - intros _. destruct Hsig' as [?| ->]; [by right|by left].
  - intros Hlost. destruct (n_watch _ Hs Hlost) as [?|Ha]; [by left|right].
    unfold armed in *. by rewrite Hpc, Hr.
Qed.

(** Only the queues of the ring change, and no watcher is lost from view. *)
Lemma ring_inv s s' p :
  inv s → ready_ s' = ready_ s → pushed s' = pushed s → popped s' = popped s →
  remote s' = remote s → drained s' = drained s → lost_watch s' = lost_watch s →
  handles (cross_ s') = handles (cross_ s) → tasks (cross_ s') = tasks (cross_ s) →
  stopping_ (cross_ s') = stopping_ (cross_ s) → 0 ≤ efd (cross_ s') →
  (signal s → signal s' ∨ predrain p = true) →
  (armed s → armed (set_pc p s')) →
  (predrain (pc s) = true → predrain p = true) →
  (blocking p = true → blocking (pc s) = true ∨ stopping_ (cross_ s) = false) →
  (unarmed (pc s) = true → unarmed p = true) →
  in_batch (set_pc p s') → inv (set_pc p s').
Proof.
  intros Hs Hre Hpu Hpo Hrm Hd Hl Hh Ht Hst Hefd Hsig Harm Hp Hb Hu Hbatch.
  assert (Hsig2 : signal s → signal (set_pc p s') ∨ predrain p = true) by done.
  split; cbn; rewrite ?Hre, ?Hpu, ?Hpo, ?Hrm, ?Hd, ?Hl, ?Hh, ?Ht, ?Hst; try apply Hs; try done.
  - intros Hne. destruct (n_cross _ Hs Hne); tauto.
  - intros Hs1. destruct (blocking p) eqn:Hbl; [|by left].
    destruct (Hb eq_refl) as [Hb1|Hb1]; [|congruence].
    destruct (n_stop _ Hs Hs1) as [?|Hsg]; [congruence|].
    destruct (Hsig2 Hsg) as [?|Hpr]; [by right|]. by destruct p.
  - intros Hlost. destruct (n_watch _ Hs Hlost); [left; auto|right; auto].
Qed.

Lemma set_pc_id s : set_pc (pc s) s = s.
Proof. by destruct s. Qed.

Lemma woken_app (l1 l2 : list cqe) : woken (l1 ++ l2) ↔ woken l1 ∨ woken l2.
Proof. unfold woken. set_solver. Qed.

Lemma kernel_read s k e :
  take (length (inflight (ring_ s)) - unread (ring_ s)) (inflight (ring_ s)) !! k = Some e →
  inflight (ring_ s) !! k = Some e.
Proof. by intros [? _]%lookup_take_Some. Qed.

Lemma kernel_inv s s' k r f : inv s → kernel k r f s = Some s' → inv s'.
Proof.
  intros Hs Hk. pose proof (n_batch _ Hs) as Hb. unfold in_batch in Hb.
  unfold kernel in Hk. apply bind_Some in Hk as (e & He%kernel_read & Hk).
  assert (Hfields : ready_ s' = ready_ s ∧ pushed s' = pushed s ∧ popped s' = popped s ∧
    remote s' = remote s ∧ drained s' = drained s ∧ lost_watch s' = lost_watch s ∧
    handles (cross_ s') = handles (cross_ s) ∧ tasks (cross_ s') = tasks (cross_ s) ∧
    stopping_ (cross_ s') = stopping_ (cross_ s) ∧ 0 ≤ efd (cross_ s') ∧ pc s' = pc s ∧
    ring_ s' = mkRing (sq (ring_ s)) (delete k (inflight (ring_ s))) (unread (ring_ s))
                (cq (ring_ s) ++ [mkCqe e r f]) ∧
    (signal s → signal s')).
  { clear Hb. pose proof (n_efd _ Hs).
    destruct e; repeat case_match; simplify_eq/=; split_and!; try done;
      unfold signal; cbn; rewrite woken_app; try tauto.
    intros _. right; right; right. eexists. split; [by left|done]. }
  destruct Hfields as (?&?&?&?&?&?&?&?&?&?&Hpc&Hr&?).
  rewrite <-(set_pc_id s'), Hpc.
  apply (ring_inv s s' (pc s)); try tauto.
  - unfold armed. cbn. rewrite Hr. cbn. intros [?|[Hin|Hw]]; [by left| |].
    + right. apply list_elem_of_lookup in Hin as [j Hj].
      destruct (decide (j = k)) as [->|Hne].
      * right. exists (mkCqe e r f). split; [|cbn; congruence].
        apply list_elem_of_lookup. exists (length (cq (ring_ s)) - cursor (pc s))%nat.
        rewrite lookup_drop, lookup_app_r; [|destruct (pc s); cbn; lia].
        replace (_ - _)%nat with 0%nat; [done|]. destruct (pc s); cbn; lia.
      * left. apply list_elem_of_lookup. destruct (decide (j < k)%nat).
        { exists j. rewrite list_lookup_delete_lt by done. done. }
        { exists (pred j). rewrite list_lookup_delete_ge by lia.
          replace (S (pred j)) with j by lia. done. }
    + right. right. destruct Hw as (e' & Hin & He'). exists e'. split; [|done].
      destruct (decide (cursor (pc s) ≤ length (cq (ring_ s)))%nat).
      * rewrite drop_app_le by done. set_solver.
      * rewrite drop_ge in Hin by lia. set_solver.
  - unfold in_batch. cbn. rewrite Hr. cbn. rewrite length_app. destruct (pc s); try done. lia.
Qed.

(** The steps of other threads and of the kernel. *)
Definition outside (e : event) : bool :=
  match e with
  | EvBoot _ | EvPost _ | EvPostTask _ | EvStop | EvWrite | EvKernel _ _ _ | EvSqPoll => true
  | _ => false
  end.

Lemma outside_inv e s s' :
  outside e = true → inv s → exec entries sqpoll e s = Some s' → inv s'.
Proof.
  intros He Hs. pose proof (n_efd _ Hs). pose proof (n_remote _ Hs) as Hrem.
  pose proof (n_batch _ Hs) as Hb. unfold in_batch in Hb.
  destruct e as [t|h|t| | |k r f| | | | | | | | | | | |]; try done; cbn [exec].
  - destruct (pc s) eqn:Hpc; try done. intros [= <-]. by apply (remote_inv s); auto.
  - intros [= <-]. apply (remote_inv s); cbn; auto with lia.
    by rewrite Hrem, app_assoc.
  - intros [= <-]. apply (remote_inv s); cbn; auto with lia.
  - intros [= <-]. unfold stop_remote. destruct (stopping_ (cross_ s)) eqn:Hst; [done|].
    apply (remote_inv s); cbn; auto with lia.
  - case_decide; [done|]. intros [= <-]. apply (remote_inv s); cbn; auto.
    + destruct (Z.ltb_spec (efd (cross_ s)) efd_max); lia.
    + right. left. unfold efd_max.
      destruct (Z.ltb_spec (efd (cross_ s)) (2 ^ 64 - 2)); lia.
  - by apply kernel_inv.
  - case_decide; [done|]. intros [= <-]. rewrite <-(set_pc_id (poll s)).
    apply (ring_inv s); auto; cbn; try done; try tauto.
Qed.

Lemma exec_inv e s s' : inv s → exec entries sqpoll e s = Some s' → inv s'.
Proof.
  intros Hs. destruct (outside e) eqn:He; [by apply outside_inv|].
  pose proof (n_efd _ Hs). pose proof (n_remote _ Hs) as Hrem. pose proof (n_batch _ Hs) as Hb. unfold in_batch in Hb.
  destruct e as [t|h|t| | |k r f| | | |l| |l| | |r| |l|]; try done; cbn [exec].
  - destruct (pc s) eqn:Hpc; try done; intros [= <-]; apply enter_inv; auto.
  - destruct (pc s) eqn:Hpc; try done. intros [= <-].
    destruct (stopping_ (cross_ s)) eqn:Hst; [|by apply drain_inv].
    apply set_pc_inv; rewrite ?Hpc; done.
  - destruct (pc s) as [| |[|t ts]| | | | | | | |] eqn:Hpc; try done. intros [= <-].
    apply user_inv; rewrite ?Hpc; done.
  - destruct (pc s) as [| |[|t ts]| | | | | | | |] eqn:Hpc; try done. intros [= <-].
    apply set_pc_inv; rewrite ?Hpc; done.
  - destruct (pc s) eqn:Hpc; try done. destruct (ready_ s) eqn:Hr; [done|].
    intros [= <-]. by apply resume_inv.
  - destruct (pc s) eqn:Hpc; try done. destruct (ready_ s) eqn:Hr; [|done].
    intros [= <-]. destruct (stopping_ (cross_ s)) eqn:Hst.
    + apply set_pc_inv; rewrite ?Hpc; done.
    + apply (ring_inv s); auto; rewrite ?Hpc; try done.
      unfold armed. by rewrite Hpc.
  - destruct (pc s) eqn:Hpc; try done. intros [= <-].
    apply (ring_inv s); auto; rewrite ?Hpc; cbn; try done; try tauto.
    unfold armed. rewrite Hpc. cbn. set_solver.
  - destruct (pc s) eqn:Hpc; try done. intros Hret.
    assert (Hp : ∃ p, s' = set_pc p s ∧ predrain p = true ∧ blocking p = false ∧
      cursor p = 0%nat ∧ in_batch (set_pc p s)).
    { repeat case_match; simplify_eq/=; by eexists; split_and!. }
    destruct Hp as (p & -> & ? & ? & ? & ?). apply set_pc_inv; rewrite ?Hpc; done.
  - destruct (pc s) eqn:Hpc; try done. intros [= <-].
    assert (Hn : (min kBatch (length (cq (ring_ s))) ≤ length (cq (ring_ s)) ∧
      min kBatch (length (cq (ring_ s))) ≤ kBatch)%nat) by lia.
    apply set_pc_inv; rewrite ?Hpc; try done. unfold in_batch. cbn [pc set_pc ring_]. lia.
  - destruct (pc s) eqn:Hpc; try done.
    destruct (Nat.ltb_spec i n); [|done].
    intros (e & Hcq & [= <-])%bind_Some. by apply on_complete_inv.
  - destruct (pc s) eqn:Hpc; try done.
    destruct (Nat.ltb_spec i n); [done|]. intros [= <-].
    apply (ring_inv s); auto; rewrite ?Hpc; cbn; try done; try tauto.
    assert (i = n) as -> by lia. unfold armed. rewrite Hpc. cbn. by rewrite drop_0.
Qed.

Lemma reachable_inv s : reachable entries sqpoll s → inv s.
Proof.
  intros Hr. eapply (rtc_invariant (step entries sqpoll) inv);
    [|apply new_scheduler_inv|exact Hr].
  intros a b Ha [e He]. by eapply exec_inv.
Qed.

Lemma woken_nonempty (l : list cqe) : woken l → l ≠ [].
Proof. intros (e & He & _) ->. by apply not_elem_of_nil in He. Qed.

Lemma run_reachable es s :
  run entries sqpoll es new_scheduler = Some s → reachable entries sqpoll s.
Proof.
  unfold reachable. generalize new_scheduler.
  induction es as [|e es IH]; intros s0; cbn [run]; [by intros [= ->]|].
  intros (s1 & He & Hrun)%bind_Some. eapply rtc_l; [by exists e|by apply IH].
Qed.

(** ** Runs without a call to [stop] *)

Definition stops_action (a : action) : bool := match a with AStop => true | _ => false end.
Definition stops (e : event) : bool :=
  match e with
  | EvStop => true
  | EvTask l | EvResume l | EvCqe l => existsb stops_action l
  | _ => false
  end.

Definition not_stopped s : Prop := stopping_ (cross_ s) = false ∧ pc s ≠ LExit.

Lemma get_sqe_stopping e s s' :
  get_sqe entries e s = Some s' → cross_ s' = cross_ s ∧ pc s' = pc s.
Proof. unfold get_sqe. case_match; [|done]. by intros [= <-]. Qed.

Lemma acts_not_stopped l s s' :
  existsb stops_action l = false → acts entries sqpoll l s = Some s' →
  cross_ s' = cross_ s ∧ pc s' = pc s.
Proof.
  revert s. induction l as [|a l IH]; intros s; cbn; [by intros _ [= ->]|].
  intros [Ha Hl]%orb_false_iff (s1 & H1 & H2)%bind_Some.
  destruct (IH s1 Hl H2) as [-> ->]. destruct a as [h|o h| |h]; cbn in *; try done.
  - by injection H1 as <-.
  - apply bind_Some in H1 as (s2 & He & [= <-]). cbn. by eapply get_sqe_stopping.
  - by injection H1 as <-.
Qed.

Lemma rearm_watch_cross s : cross_ (rearm_watch entries s) = cross_ s.
Proof.
  unfold rearm_watch. destruct (get_sqe _ _ s) eqn:He; [|done].
  by apply get_sqe_stopping in He as [].
Qed.

Lemma rearm_timer_cross s : cross_ (rearm_timer entries s) = cross_ s.
Proof.
  unfold rearm_timer. destruct (get_sqe _ _ s) eqn:He; [|done].
  by apply get_sqe_stopping in He as [].
Qed.

Lemma user_not_stopped l p s :
  existsb stops_action l = false → p ≠ LExit → not_stopped s →
  not_stopped (user entries sqpoll l p s).
Proof.
  intros Hl Hp [Hs _]. unfold user. destruct (acts entries sqpoll l s) as [s'|] eqn:Ha; [|done].
  apply (acts_not_stopped _ _ _ Hl) in Ha as [Hc _]. split; [|done]. cbn. by rewrite Hc.
Qed.

Lemma on_complete_not_stopped e l i n s :
  existsb stops_action l = false → not_stopped s →
  not_stopped (on_complete entries sqpoll e l (LCq i n) s).
Proof.
  intros Hl [Hs _]. unfold on_complete. destruct (user_data e); (split; [|try done]); cbn.
  - done.
  - by rewrite rearm_watch_cross.
  - destruct (res e <? 0); cbn; [by rewrite rearm_timer_cross|].
    destruct (acts entries sqpoll l s) as [s'|] eqn:Ha; cbn; [|done].
    rewrite rearm_timer_cross. by apply (acts_not_stopped _ _ _ Hl) in Ha as [-> _].
  - destruct (res e <? 0); [done|]. by destruct (acts entries sqpoll l s).
  - unfold complete_op. destruct (ops s !! op) as [o|]; [|done].
    destruct (op_handle_ o); [|done]. by destruct (decide _).
Qed.

Lemma exec_not_stopped e s s' :
  stops e = false → not_stopped s → exec entries sqpoll e s = Some s' → not_stopped s'.
Proof.
  intros He Hs Hex. pose proof Hs as [Hst Hpc].
  destruct e as [t|h|t| | |k r f| | | |l| |l| | |r| |l|]; try done; cbn [exec] in Hex.
  - destruct (pc s) eqn:Hp; simplify_eq. split; [done|]. cbn. by rewrite Hp.
  - by simplify_eq.
  - by simplify_eq.
  - case_decide; by simplify_eq.
  - unfold kernel in Hex. apply bind_Some in Hex as (e & _ & Hex).
    repeat case_match; by simplify_eq/=.
  - case_decide; by simplify_eq.
  - destruct (pc s) eqn:Hp; simplify_eq. split; [|done]. cbn.
    by rewrite rearm_timer_cross, rearm_watch_cross.
  - destruct (pc s) eqn:Hp; simplify_eq. by rewrite Hst.
  - destruct (pc s) as [| |[|t ts]| | | | | | | |]; simplify_eq. by apply user_not_stopped.
  - destruct (pc s) as [| |[|t ts]| | | | | | | |]; by simplify_eq.
  - destruct (pc s) eqn:Hp; try done. destruct (ready_ s); simplify_eq.
    unfold resume. case_decide; [|by apply user_not_stopped].
    split; [done|]. cbn. by rewrite Hp.
  - destruct (pc s); try done. destruct (ready_ s); simplify_eq. by rewrite Hst.
  - destruct (pc s); by simplify_eq.
  - destruct (pc s); try done. repeat case_match; by simplify_eq.
  - destruct (pc s); by simplify_eq.
  - destruct (pc s); try done. destruct (_ <? _)%nat; [|done].
    apply bind_Some in Hex as (e & _ & [= <-]). by apply on_complete_not_stopped.
  - destruct (pc s); try done. destruct (_ <? _)%nat; by simplify_eq.
Qed.

(** The wake-up of a blocked thread that has something to do. *)
Lemma blocked_signalled s :
  inv s → lost_watch s = false → pc s = LWait →
  handles (cross_ s) ≠ [] ∨ tasks (cross_ s) ≠ [] ∨ stopping_ (cross_ s) = true →
  (0 < writers (cross_ s))%nat ∨ cq (ring_ s) ≠ [] ∨
  (0 < efd (cross_ s) ∧ SWatch ∈ inflight (ring_ s)).
Proof.
  intros Hs Hl Hpc Hw.
  assert (Hsig : signal s).
  { destruct Hw as [Hw|[Hw|Hw]].
    - destruct (n_cross _ Hs); [by left| |done]. by rewrite Hpc in *.
    - destruct (n_cross _ Hs); [by right| |done]. by rewrite Hpc in *.
    - destruct (n_stop _ Hs Hw); [|done]. by rewrite Hpc in *. }
  destruct Hsig as [?|[?|?]]; [by left| |right; left; by apply woken_nonempty].
  destruct (n_watch _ Hs Hl) as [Hu|[Hsq|[Hin|Hw2]]].
  - by rewrite Hpc in Hu.
  - pose proof (n_batch _ Hs) as Hb. unfold in_batch in Hb. rewrite Hpc in Hb.
    rewrite Hb in Hsq. by apply not_elem_of_nil in Hsq.
  - by right; right.
  - right; left. rewrite Hpc in Hw2. by apply woken_nonempty.
Qed.

(** ** Properties *)

(** C20: No lost wake-up.  Whenever the thread is blocked in [submit_and_wait]
    although a coroutine or a task has been posted from another thread, or [stop]
    called, then the poster is about to write to the eventfd, or a completion is
    there to end the wait, or the kernel holds the read of the now nonzero
    eventfd (provided no re-arming found the submission queue full). *)
Theorem no_lost_wakeup s :
  reachable entries sqpoll s → lost_watch s = false → pc s = LWait →
  handles (cross_ s) ≠ [] ∨ tasks (cross_ s) ≠ [] ∨ stopping_ (cross_ s) = true →
  (0 < writers (cross_ s))%nat ∨ cq (ring_ s) ≠ [] ∨
  (0 < efd (cross_ s) ∧ SWatch ∈ inflight (ring_ s)).
Proof. intros Hs%reachable_inv. by apply blocked_signalled. Qed.

(** The loop is first in, first out: coroutines are taken from [ready_] in
    the order in which they were pushed, those posted by other threads are
    drained in the order of their posts, none is dropped or duplicated on the
    way, and a batch of completions has at most 64 entries, all of them in the
    queue. *)
Theorem scheduler_fifo s :
  reachable entries sqpoll s →
  pushed s = popped s ++ ready_ s ∧
  remote s = drained s ++ handles (cross_ s) ∧
  ∀ i n, pc s = LCq i n → (i ≤ n ∧ n ≤ length (cq (ring_ s)) ∧ n ≤ kBatch)%nat.
Proof.
  intros Hs%reachable_inv. split_and!; [apply Hs..|]. intros i n Hpc.
  pose proof (n_batch _ Hs) as Hb. unfold in_batch in Hb. by rewrite Hpc in Hb.
Qed.

(** A [stop] that precedes [run] is lost: [run] clears [stopping_] on entry,
    and then never returns unless [stop] is called again, whatever happens. *)
Theorem stop_before_run_is_lost s s1 es s2 :
  reachable entries sqpoll s → pc s = LInit → stopping_ (cross_ s) = true →
  exec entries sqpoll EvRun s = Some s1 →
  forallb (λ e, negb (stops e)) es = true → run entries sqpoll es s1 = Some s2 →
  stopping_ (cross_ s2) = false ∧ pc s2 ≠ LExit.
Proof.
  intros _ Hpc _ Hrun Hes.
  assert (Hs1 : not_stopped s1).
  { cbn in Hrun. rewrite Hpc in Hrun. injection Hrun as <-. split; [|done]. cbn.
    by rewrite rearm_timer_cross, rearm_watch_cross. }
  clear Hrun Hpc. revert s1 Hs1. induction es as [|e es IH]; intros s1 Hs1; cbn.
  { by intros [= <-]. }
  cbn in Hes. apply andb_true_iff in Hes as [He%negb_true_iff Hes].
  intros (s3 & Hex & Hrun)%bind_Some. apply (IH Hes s3); [|done].
  by eapply exec_not_stopped.
Qed.

(** A completion of an operation stores its result where [await_resume]
    reads it, pushes the suspended coroutine once at the back of the ready queue
    unless it has finished, and touches nothing else. *)
Theorem completion_resumes_awaiter s s' l i n o h r0 f0 r f :
  pc s = LCq i n → (i < n)%nat → cq (ring_ s) !! i = Some (mkCqe (SOp o) r f) →
  ops s !! o = Some (mkOp (Some h) r0 f0) → exec entries sqpoll (EvCqe l) s = Some s' →
  ops s' = <[o := mkOp (Some h) r f]> (ops s) ∧
  ready_ s' = ready_ s ++ (if decide (h ∈ final s) then [] else [h]) ∧
  pc s' = LCq (S i) n ∧ ring_ s' = ring_ s ∧ cross_ s' = cross_ s.
Proof.
  intros Hpc Hi Hcq Ho. cbn [exec]. rewrite Hpc, (proj2 (Nat.ltb_lt i n) Hi), Hcq. cbn.
  unfold complete_op. rewrite Ho. cbn. intros [= <-].
  destruct (decide (h ∈ final s)); cbn; by rewrite ?app_nil_r.
Qed.

Lemma awaits_overflow os h s :
  (entries < length os + (length (sq (ring_ s)) + unread (ring_ s)))%nat → os ≠ [] →
  acts entries sqpoll ((λ o, AAwait o h) <$> os) s = None.
Proof.
  revert s. induction os as [|o os IH]; intros s Hlen Hne; [done|].
  cbn. unfold get_sqe.
  destruct (Nat.ltb_spec (length (sq (ring_ s)) + unread (ring_ s)) entries); [|done].
  cbn. destruct os as [|o' os]; [cbn in Hlen; lia|].
  apply IH; cbn in *; rewrite ?length_app; cbn; [lia|done].
Qed.
End invariant.

(** The awaiters do not test for a full submission queue: whatever the size
    of the queue, a task that starts one operation more than the queue has
    entries dereferences a null [io_uring_sqe*]. *)
Theorem full_queue_is_undefined entries : ∃ s, reachable entries false s ∧ pc s = LUB.
Proof.
  set (s0 := queue_boot_task 0 new_scheduler). set (s1 := enter entries s0).
  assert (Hc : cross_ s1 = mkCross [] [0%nat] false 0 0).
  { unfold s1, enter. cbn. by rewrite rearm_timer_cross, rearm_watch_cross. }
  set (os := seq 0 (S entries)).
  exists (user entries false ((λ o, AAwait o 0%nat) <$> os) (LTasks []) (drain_cross_queue s1)).
  split.
  - apply (rtc_l _ _ s0); [by exists (EvBoot 0)|].
    apply (rtc_l _ _ s1); [by exists EvRun|].
    apply (rtc_l _ _ (drain_cross_queue s1)).
    { exists EvTop. cbn [exec pc s1 enter set_pc]. by rewrite Hc. }
    apply rtc_once. eexists (EvTask _). unfold drain_cross_queue. rewrite Hc. reflexivity.
  - unfold user. rewrite awaits_overflow; [done| |done].
    unfold os. rewrite length_seq. lia.
Qed.

(** ** Witnesses *)

Module Demo.
(** Enter the loop with nothing to do and block. *)
Definition idle : list event := [EvRun; EvTop; EvTasksDone; EvReadyDone; EvSubmit].
Definition blocked : Scheduler := default new_scheduler (run 8 false idle new_scheduler).
(** Then a coroutine is posted from another thread. *)
Definition posted : Scheduler := post_remote 7 blocked.
(** A connection's operation is awaited and completed. *)
Definition io : list event :=
  [EvBoot 0; EvRun; EvTop; EvTask [AAwait 3 5]; EvTasksDone; EvReadyDone; EvSubmit;
   EvKernel 2 42 0; EvReturn 1; EvPeek].
Definition dispatching : Scheduler := default new_scheduler (run 8 false io new_scheduler).
Definition dispatched : Scheduler :=
  default new_scheduler (run 8 false (io ++ [EvCqe []]) new_scheduler).
(** [stop] called before [run]. *)
Definition stopped : Scheduler := stop_remote new_scheduler.
Definition started : Scheduler := default new_scheduler (exec 8 false EvRun stopped).
Definition later : list event :=
  [EvWrite; EvTop; EvTasksDone; EvReadyDone; EvSubmit; EvKernel 0 8 0; EvReturn 1; EvPeek;
   EvCqe []; EvAdvance; EvTop; EvTasksDone; EvReadyDone; EvSubmit].
Definition waiting : Scheduler := default new_scheduler (run 8 false later started).

Lemma blocked_reachable : reachable 8 false blocked.
Proof. apply (run_reachable 8 false idle). vm_compute. reflexivity. Qed.
Lemma posted_reachable : reachable 8 false posted.
Proof. eapply rtc_r; [exact blocked_reachable|]. by exists (EvPost 7). Qed.
Lemma stopped_reachable : reachable 8 false stopped.
Proof. apply rtc_once. by exists EvStop. Qed.
End Demo.

Lemma no_lost_wakeup_witness :
  handles (cross_ Demo.posted) = [7%nat] ∧
  ((0 < writers (cross_ Demo.posted))%nat ∨ cq (ring_ Demo.posted) ≠ [] ∨
   (0 < efd (cross_ Demo.posted) ∧ SWatch ∈ inflight (ring_ Demo.posted))).
Proof.
  split; [vm_compute; reflexivity|].
  apply (no_lost_wakeup 8 false Demo.posted Demo.posted_reachable).
  - vm_compute. reflexivity.
  - vm_compute. reflexivity.
  - left. vm_compute. discriminate.
Defined.

Lemma scheduler_fifo_witness :
  pushed Demo.posted = popped Demo.posted ++ ready_ Demo.posted ∧
  remote Demo.posted = drained Demo.posted ++ handles (cross_ Demo.posted) ∧
  ∀ i n, pc Demo.posted = LCq i n →
    (i ≤ n ∧ n ≤ length (cq (ring_ Demo.posted)) ∧ n ≤ kBatch)%nat.
Proof. exact (scheduler_fifo 8 false Demo.posted Demo.posted_reachable). Defined.

Lemma stop_before_run_is_lost_witness :
  pc Demo.waiting = LWait ∧
  stopping_ (cross_ Demo.waiting) = false ∧ pc Demo.waiting ≠ LExit.
Proof.
  split; [vm_compute; reflexivity|].
  apply (stop_before_run_is_lost 8 false Demo.stopped Demo.started Demo.later Demo.waiting
    Demo.stopped_reachable); vm_compute; reflexivity.
Defined.

Lemma completion_resumes_awaiter_witness :
  ready_ Demo.dispatched = [5%nat] ∧
  ready_ Demo.dispatched = ready_ Demo.dispatching ++
    (if decide (5%nat ∈ final Demo.dispatching) then [] else [5%nat]).
Proof.
  split; [vm_compute; reflexivity|].
  destruct (completion_resumes_awaiter 8 false Demo.dispatching Demo.dispatched [] 0 1 3 5 0 0 42 0)
    as (_ & H & _); [vm_compute; reflexivity|lia|vm_compute; reflexivity..|exact H].
Defined.
