(* ===== verification/Completion.v ===== *)
(** * Completion: no operation is lost

    A ledger over the machine of [Scheduler.v]: which operations user code has
    started ([await_suspend] in a task, a coroutine or a timer callback), which
    have been completed ([on_complete] called by [Scheduler::run]), and which are
    on their way: in the submission queue, with the kernel, or in the part of the
    completion queue that [run] has not dispatched. *)
From S2P Require Import Prelude Scheduler.

Section completion.
Context (entries : nat) (sqpoll : bool).
Implicit Types s : Scheduler.

(** The operations an action list starts. *)
Definition awaited (l : list action) : list nat :=
  omap (λ a, match a with AAwait o _ => Some o | _ => None end) l.

Definition op_of (e : sqe) : option nat := match e with SOp o => Some o | _ => None end.

(** The completion that [run] dispatches in a step. *)
Definition dispatched (e : event) s : option cqe :=
  match e, pc s with
  | EvCqe _, LCq i n => if (i <? n)%nat then cq (ring_ s) !! i else None
  | _, _ => None
  end.

(** The operations started by a step, if it does not end in undefined behaviour. *)
Definition started (e : event) s : list nat :=
  match e, pc s with
  | EvTask l, LTasks (_ :: _) => awaited l
  | EvResume l, LReady =>
      match ready_ s with
      | h :: _ => if decide (h ∈ final s) then [] else awaited l
      | [] => []
      end
  | EvCqe l, LCq _ _ =>
      match dispatched e s with
      | Some c => match user_data c with STimer => if res c <? 0 then [] else awaited l | _ => [] end
      | None => []
      end
  | _, _ => []
  end.
Definition completed (e : event) s : list nat :=
  match dispatched e s with Some c => option_list (op_of (user_data c)) | None => [] end.

(** The ledger of a run. *)
Fixpoint all_started (es : list event) s : list nat :=
  match es with
  | [] => []
  | e :: es =>
      started e s ++
      match exec entries sqpoll e s with Some s => all_started es s | None => [] end
  end.
Fixpoint all_completed (es : list event) s : list nat :=
  match es with
  | [] => []
  | e :: es =>
      completed e s ++
      match exec entries sqpoll e s with Some s => all_completed es s | None => [] end
  end.

(** The operations on their way, when [k] entries of the completion queue have been
    dispatched. *)
Definition on_their_way (k : nat) s : list nat :=
  omap op_of (sq (ring_ s) ++ inflight (ring_ s) ++ (user_data <$> drop k (cq (ring_ s)))).
Definition outstanding s : list nat := on_their_way (cursor (pc s)) s.

#[export] Instance omap_op_proper : Proper ((≡ₚ) ==> (≡ₚ)) (omap op_of).
Proof. intros l1 l2 Hl. by rewrite Hl. Qed.

(** *** What the thread's own actions add *)

Lemma get_sqe_way k e s s' :
  get_sqe entries e s = Some s' → on_their_way k s' ≡ₚ on_their_way k s ++ option_list (op_of e).
Proof.
  unfold get_sqe. case_match; [|done]. intros [= <-]. unfold on_their_way. cbn.
  rewrite <-app_assoc, (Permutation_app_comm [e]), app_assoc, app_assoc, omap_app.
  rewrite <-app_assoc. by destruct e.
Qed.

Lemma stop_local_way k s : on_their_way k (stop_local entries sqpoll s) ≡ₚ on_their_way k s.
Proof.
  unfold stop_local. destruct (stopping_ (cross_ s)); [done|].
  match goal with |- context [get_sqe _ SNop ?x] => set (s1 := x) end.
  destruct (get_sqe entries SNop s1) as [s2|] eqn:He; [|done].
  apply (get_sqe_way k) in He. cbn in He. rewrite app_nil_r in He.
  change (on_their_way k s1) with (on_their_way k s) in He. rewrite <-He.
  unfold on_their_way. cbn. apply omap_op_proper.
  rewrite !app_assoc. apply Permutation_app_tail, Permutation_app_comm.
Qed.

Lemma act_way k a s s' :
  act entries sqpoll a s = Some s' → on_their_way k s' ≡ₚ on_their_way k s ++ awaited [a].
Proof.
  destruct a as [h|o h| |h]; cbn [act].
  - intros [= <-]. by rewrite app_nil_r.
  - intros (s1 & He%(get_sqe_way k) & [= <-])%bind_Some. exact He.
  - intros [= <-]. by rewrite app_nil_r, stop_local_way.
  - intros [= <-]. by rewrite app_nil_r.
Qed.

Lemma acts_way k l s s' :
  acts entries sqpoll l s = Some s' → on_their_way k s' ≡ₚ on_their_way k s ++ awaited l.
Proof.
  revert s. induction l as [|a l IH]; intros s; cbn [acts].
  { intros [= <-]. by rewrite app_nil_r. }
  intros (s1 & Ha%(act_way k) & Hl%IH)%bind_Some.
  rewrite Hl, Ha, <-app_assoc. unfold awaited. by rewrite <-omap_app.
Qed.

Lemma user_way k l p s :
  pc (user entries sqpoll l p s) ≠ LUB →
  on_their_way k (user entries sqpoll l p s) ≡ₚ on_their_way k s ++ awaited l.
Proof.
  unfold user. destruct (acts entries sqpoll l s) as [s'|] eqn:Ha; [|done]. intros _.
  exact (acts_way k l s s' Ha).
Qed.

Lemma rearm_timer_way k s : on_their_way k (rearm_timer entries s) ≡ₚ on_their_way k s.
Proof.
  unfold rearm_timer. destruct (get_sqe entries STimer s) as [s1|] eqn:He; [|done].
  apply (get_sqe_way k) in He. by rewrite app_nil_r in He.
Qed.

Lemma rearm_watch_way k s : on_their_way k (rearm_watch entries s) ≡ₚ on_their_way k s.
Proof.
  unfold rearm_watch. destruct (get_sqe entries SWatch s) as [s1|] eqn:He; [|done].
  apply (get_sqe_way k) in He. by rewrite app_nil_r in He.
Qed.

(** *** Steps *)

Lemma on_complete_way k c l p s :
  pc (on_complete entries sqpoll c l p s) ≠ LUB →
  on_their_way k (on_complete entries sqpoll c l p s) ≡ₚ on_their_way k s ++
    (match user_data c with STimer => if res c <? 0 then [] else awaited l | _ => [] end).
Proof.
  unfold on_complete. destruct (user_data c) as [| | |o].
  - by rewrite app_nil_r.
  - intros _. rewrite app_nil_r. apply rearm_watch_way.
  - destruct (res c <? 0); [intros _; rewrite app_nil_r; apply rearm_timer_way|].
    destruct (acts entries sqpoll l s) as [s'|] eqn:Ha; [|done]. intros _.
    etrans; [apply rearm_timer_way|exact (acts_way k l s s' Ha)].
  - intros _. rewrite app_nil_r. unfold complete_op.
    destruct (ops s !! o) as [[[h|] r0 f0]|]; cbn; [case_decide|..]; done.
Qed.

Lemma user_cursor l p s : pc (user entries sqpoll l p s) ≠ LUB → pc (user entries sqpoll l p s) = p.
Proof. unfold user. by destruct (acts entries sqpoll l s). Qed.

Lemma on_complete_cursor c l p s :
  pc (on_complete entries sqpoll c l p s) ≠ LUB → pc (on_complete entries sqpoll c l p s) = p.
Proof.
  unfold on_complete. destruct (user_data c); try done.
  destruct (res c <? 0); [done|]. by destruct (acts entries sqpoll l s).
Qed.

(** A completion moves on from the kernel to the completion queue. *)
Lemma kernel_way k j r f s s' :
  (k ≤ length (cq (ring_ s)))%nat → kernel j r f s = Some s' →
  on_their_way k s' ≡ₚ on_their_way k s.
Proof.
  intros Hk (e & He%kernel_read & Hs)%bind_Some.
  assert (Hr : ring_ s' = mkRing (sq (ring_ s)) (delete j (inflight (ring_ s))) (unread (ring_ s))
    (cq (ring_ s) ++ [mkCqe e r f])).
  { destruct e; [by injection Hs as <-| |by injection Hs as <-..].
    repeat case_match; try done; by injection Hs as <-. }
  unfold on_their_way. rewrite Hr. cbn. apply omap_op_proper, Permutation_app_head.
  rewrite drop_app_le, fmap_app, app_assoc by done. cbn.
  pose proof (delete_Permutation (inflight (ring_ s)) j e He) as Hd.
  etrans; [|apply Permutation_app_tail; symmetry; exact Hd].
  symmetry. apply (Permutation_cons_append (delete j (inflight (ring_ s)) ++ _)).
Qed.

Lemma dispatch_way i s c :
  cq (ring_ s) !! i = Some c →
  on_their_way i s ≡ₚ on_their_way (S i) s ++ option_list (op_of (user_data c)).
Proof.
  intros Hc. unfold on_their_way. rewrite (drop_S _ _ _ Hc), fmap_cons.
  rewrite <-(Permutation_middle (inflight (ring_ s))), <-Permutation_middle. cbn.
  destruct (user_data c); cbn; rewrite ?app_nil_r; [done..|]. apply Permutation_cons_append.
Qed.

(** *** The ledger *)

Lemma outside_ledger e s s' :
  outside e = true → inv s → exec entries sqpoll e s = Some s' →
  pc s' = pc s ∧ outstanding s' ≡ₚ outstanding s.
Proof.
  intros He Hs Hex. pose proof (n_batch _ Hs) as Hb. unfold in_batch in Hb.
  assert (Hcur : (cursor (pc s) ≤ length (cq (ring_ s)))%nat) by (destruct (pc s); cbn; lia).
  unfold outstanding. destruct e; try done; cbn [exec] in Hex.
  - destruct (pc s) eqn:Hp; try done. injection Hex as <-. cbn. by rewrite Hp.
  - by injection Hex as <-.
  - by injection Hex as <-.
  - injection Hex as <-. unfold stop_remote. by destruct (stopping_ (cross_ s)).
  - case_decide; [done|]. by injection Hex as <-.
  - assert (Hpc : pc s' = pc s).
    { apply bind_Some in Hex as (x & _ & Hex).
      destruct x; [by injection Hex as <-| |by injection Hex as <-..].
      repeat case_match; try done; by injection Hex as <-. }
    rewrite Hpc. split; [done|]. by eapply kernel_way.
  - case_decide; [done|]. by injection Hex as <-.
Qed.

Lemma enter_way s : on_their_way 0 (enter entries s) ≡ₚ on_their_way 0 s.
Proof.
  unfold enter. match goal with |- context [rearm_watch _ ?x] => set (s1 := x) end.
  etrans; [exact (rearm_timer_way 0 (rearm_watch entries s1))|].
  exact (rearm_watch_way 0 s1).
Qed.

Lemma own_ledger e s s' :
  outside e = false → inv s → exec entries sqpoll e s = Some s' → pc s' ≠ LUB →
  outstanding s' ++ completed e s ≡ₚ outstanding s ++ started e s.
Proof.
  intros He Hs Hex Hub. pose proof (n_batch _ Hs) as Hb. unfold in_batch in Hb.
  unfold outstanding, completed, started, dispatched.
  destruct e as [t|h|t| | |k r f| | | |l| |l| | |r| |l|]; try done; cbn [exec] in Hex;
    destruct (pc s) as [| |[|t ts]| | | | |i n| | |] eqn:Hp; try done; rewrite ?app_nil_r.
  - injection Hex as <-. apply enter_way.
  - injection Hex as <-. apply enter_way.
  - injection Hex as <-. by destruct (stopping_ (cross_ s)).
  - injection Hex as <-. rewrite (user_cursor _ _ _ Hub). by apply user_way.
  - by injection Hex as <-.
  - destruct (ready_ s) as [|h rest]; [done|]. injection Hex as <-. unfold resume in *.
    cbn [final] in *. destruct (decide (h ∈ final s)).
    + cbn [pc]. by rewrite Hp, app_nil_r.
    + rewrite (user_cursor _ _ _ Hub). by rewrite user_way by done.
  - destruct (ready_ s); [|done]. injection Hex as <-. by destruct (stopping_ (cross_ s)).
  - injection Hex as <-. cbn. apply omap_op_proper. rewrite !app_assoc.
    apply Permutation_app_tail, Permutation_app_comm.
  - repeat case_match; simplify_eq; done.
  - by injection Hex as <-.
  - destruct (i <? n)%nat; [|done]. apply bind_Some in Hex as (c & Hc & [= <-]).
    rewrite Hc. rewrite (on_complete_cursor _ _ _ _ Hub). cbn [cursor].
    rewrite on_complete_way by done. rewrite (dispatch_way i s c Hc), <-!app_assoc.
    apply Permutation_app_head, Permutation_app_comm.
  - destruct (Nat.ltb_spec i n); [done|]. injection Hex as <-. unfold on_their_way. cbn.
    assert (i = n) as -> by lia. by rewrite drop_0.
Qed.

Lemma step_ledger e s s' :
  inv s → exec entries sqpoll e s = Some s' → pc s' ≠ LUB →
  outstanding s' ++ completed e s ≡ₚ outstanding s ++ started e s.
Proof.
  intros Hs Hex Hub. destruct (outside e) eqn:He; [|by apply own_ledger].
  destruct (outside_ledger e s s' He Hs Hex) as [_ Hp].
  assert (completed e s = [] ∧ started e s = []) as [-> ->].
  { unfold completed, started, dispatched. by destruct e. }
  by rewrite !app_nil_r.
Qed.

(** Undefined behaviour is for ever. *)
Lemma ub_stays e s s' : exec entries sqpoll e s = Some s' → pc s = LUB → pc s' = LUB.
Proof.
  intros Hex Hp. destruct e; cbn [exec] in Hex; rewrite ?Hp in Hex; try done;
    try by injection Hex as <-.
  - injection Hex as <-. unfold stop_remote. by destruct (stopping_ (cross_ s)).
  - case_decide; [done|]. by injection Hex as <-.
  - apply bind_Some in Hex as (x & _ & Hex). destruct x; [by injection Hex as <-| |by injection Hex as <-..].
    repeat case_match; try done; by injection Hex as <-.
  - case_decide; [done|]. by injection Hex as <-.
Qed.

Lemma run_ub es s s' : run entries sqpoll es s = Some s' → pc s = LUB → pc s' = LUB.
Proof.
  revert s. induction es as [|e es IH]; intros s; cbn; [by intros [= ->]|].
  intros (s1 & Hex & Hrun)%bind_Some Hp. eapply IH; [done|by eapply ub_stays].
Qed.

Lemma run_ledger es s s' :
  inv s → run entries sqpoll es s = Some s' → pc s' ≠ LUB →
  all_completed es s ++ outstanding s' ≡ₚ outstanding s ++ all_started es s.
Proof.
  revert s. induction es as [|e es IH]; intros s Hs; cbn.
  { intros [= ->] _. by rewrite app_nil_r. }
  intros (s1 & Hex & Hrun)%bind_Some Hub. rewrite Hex.
  assert (Hub1 : pc s1 ≠ LUB) by (intros Hp; by apply Hub, (run_ub es s1)).
  pose proof (step_ledger e s s1 Hs Hex Hub1) as Hstep.
  pose proof (IH s1 (exec_inv entries sqpoll e s s1 Hs Hex) Hrun Hub) as Hrest.
  rewrite <-app_assoc, Hrest, !app_assoc.
  rewrite (Permutation_app_comm (completed e s)), Hstep. done.
Qed.

(** ** Properties *)

(** C24: No operation is lost or completed twice: at any point of any run without
    undefined behaviour, the operations that coroutines have started are exactly
    those whose completion has been dispatched to them, together with those still in
    the submission queue, with the kernel or in the completion queue, each counted
    as often as it was started. *)
Theorem operations_conserved es s :
  run entries sqpoll es new_scheduler = Some s → pc s ≠ LUB →
  all_started es new_scheduler ≡ₚ all_completed es new_scheduler ++ outstanding s.
Proof.
  intros Hrun Hub. pose proof (run_ledger es new_scheduler s new_scheduler_inv Hrun Hub) as H.
  by rewrite H.
Qed.
End completion.

(** ** Witnesses *)

Module Demo.
(** Two operations are started, one completes and its coroutine starts a third. *)
Definition es : list event :=
  [EvBoot 0; EvRun; EvTop; EvTask [AAwait 3 5; AAwait 4 6]; EvTasksDone; EvReadyDone; EvSubmit;
   EvKernel 3 42 0; EvReturn 1; EvPeek; EvCqe []; EvAdvance; EvTop; EvTasksDone;
   EvResume [AAwait 9 6]].
Definition s : Scheduler := default new_scheduler (run 8 false es new_scheduler).
Lemma run_es : run 8 false es new_scheduler = Some s.
Proof. vm_compute. reflexivity. Qed.
End Demo.

Lemma operations_conserved_witness :
  outstanding Demo.s = [9%nat; 3%nat] ∧
  [3%nat; 4%nat; 9%nat] ≡ₚ [4%nat] ++ outstanding Demo.s.
Proof.
  split; [vm_compute; reflexivity|].
  apply (operations_conserved 8 false Demo.es Demo.s Demo.run_es).
  vm_compute. discriminate.
Defined.
