(* ===== verification/Offload.v ===== *)
(** * Offload: the business pool and the workers together

    Composes the machine of [ThreadPool.v] with those of [Scheduler.v]: coroutines
    that run on a worker submit functions to the pool
    ([SubmitAwaiter::await_suspend] in [include/coro_net/thread_pool.hpp]), and the
    pool's threads give the coroutines back with [Scheduler::post]
    ([src/scheduler/scheduler.cc]).

    A submission is a step of its own, taken where the worker runs user code.  What
    C++ says of coroutines restricts the steps: a coroutine that is suspended in a
    submission neither submits again nor finishes.  The posts of the pool are the
    only calls of [Scheduler::post] from other threads, as in the source. *)
From S2P Require Import Prelude ThreadPool Scheduler.

Section offload.
(** The submitted functions; the rings of the workers. *)
Context {V X : Type} (fn : nat → @outcome V X) (entries : nat) (sqpoll : bool).

Record system := mkSystem { workers : list Scheduler; business : @pool V X }.

Definition new_system (n threads : nat) : system :=
  mkSystem (replicate n new_scheduler) (new_pool threads).

(** The coroutines of worker [i] that await the functions of [l]. *)
Definition from (i : nat) (t : task) : bool := bool_decide (src_sched_ t = Some i).
Definition handles_of (i : nat) (l : list task) : list handle := handle_ <$> filter (from i) l.

(** The coroutines of worker [i] with the pool, and those suspended in a submission. *)
Definition in_pool (i : nat) (p : @pool V X) : list handle :=
  handles_of i (queue_ p ++ running (threads_ p)).
Definition away (i : nat) (w : Scheduler) (p : @pool V X) : list handle :=
  in_pool i p ++ handles (cross_ w).

(** The points at which the thread runs user code. *)
Definition in_user (p : point) : bool :=
  match p with LTasks _ | LReady | LCq _ _ => true | _ => false end.

(** The coroutines that finish in a step. *)
Definition ends (l : list action) : list handle :=
  omap (λ a, match a with ADone h => Some h | _ => None end) l.
Definition finishing (e : Scheduler.event) : list handle :=
  match e with EvTask l | EvResume l | EvCqe l => ends l | _ => [] end.
Definition is_post (e : Scheduler.event) : bool :=
  match e with EvPost _ => true | _ => false end.

(** Steps of a worker, a submission, steps of the pool, and the post that ends a task. *)
Inductive sys_event : Type :=
  | OfWorker (i : nat) (e : Scheduler.event)
  | OfSubmit (i a h : nat)
  | OfPool (e : ThreadPool.event)
  | OfPost (k : nat).

(** [await_suspend]: [src_sched_] is [Scheduler::current()]. *)
Definition await_suspend (i a h : nat) (s : system) : option system :=
  w ← workers s !! i;
  if in_user (pc w) && bool_decide (h ∉ final w) && bool_decide (h ∉ away i w (business s))
  then
    p ← ThreadPool.exec fn (EvEnqueue (mkTask a h (Some i))) (business s);
    Some (mkSystem (workers s) p)
  else None.

(** The end of the closure: [src_sched_->post(handle_)]. *)
Definition post_back (k : nat) (s : system) : option system :=
  match threads_ (business s) !! k with
  | Some (WPost t) =>
      p ← ThreadPool.exec fn (ThreadPool.EvPost k) (business s);
      match src_sched_ t with
      | Some i =>
          w ← workers s !! i;
          w ← Scheduler.exec entries sqpoll (EvPost (handle_ t)) w;
          Some (mkSystem (<[i := w]> (workers s)) p)
      | None => Some (mkSystem (workers s) p)
      end
  | _ => None
  end.

Definition sys_exec (e : sys_event) (s : system) : option system :=
  match e with
  | OfWorker i e =>
      w ← workers s !! i;
      if negb (is_post e) &&
         forallb (λ h, bool_decide (h ∉ away i w (business s))) (finishing e)
      then w ← Scheduler.exec entries sqpoll e w;
           Some (mkSystem (<[i := w]> (workers s)) (business s))
      else None
  | OfSubmit i a h => await_suspend i a h s
  | OfPool e =>
      match e with
      | ThreadPool.EvPost _ | EvEnqueue _ => None
      | _ => p ← ThreadPool.exec fn e (business s); Some (mkSystem (workers s) p)
      end
  | OfPost k => post_back k s
  end.

Definition sys_step (s s' : system) : Prop := ∃ e, sys_exec e s = Some s'.
Definition sys_reachable (n threads : nat) (s : system) : Prop :=
  rtc sys_step (new_system n threads) s.

Fixpoint sys_run (es : list sys_event) (s : system) : option system :=
  match es with
  | [] => Some s
  | e :: es => s ← sys_exec e s; sys_run es s
  end.

(** ** What a worker's step does to its queue and its coroutines *)

Record mild (d : list handle) (w w' : Scheduler) : Prop := {
  m_remote : remote w' = remote w;
  m_handles : handles (cross_ w') = handles (cross_ w) ∨ handles (cross_ w') = [];
  m_final h : h ∈ final w' → h ∈ final w ∨ h ∈ d;
}.

(** Steps that leave the three parts alone. *)
Definition still (w w' : Scheduler) : Prop :=
  remote w' = remote w ∧ handles (cross_ w') = handles (cross_ w) ∧ final w' = final w.

#[export] Instance still_preorder : PreOrder still.
Proof. split; [by intros s|]. intros s1 s2 s3 (? & ? & ?) (? & ? & ?). split_and!; congruence. Qed.

Lemma still_mild d w w' : still w w' → mild d w w'.
Proof. intros (? & ? & Hf). split; [done|by left|]. rewrite Hf. by left. Qed.

Lemma get_sqe_still e w w' : get_sqe entries e w = Some w' → still w w'.
Proof. unfold get_sqe. case_match; [|done]. by intros [= <-]. Qed.

Lemma rearm_timer_still w : still w (rearm_timer entries w).
Proof.
  unfold rearm_timer. destruct (get_sqe entries STimer w) eqn:He; cbn; [|done].
  by eapply get_sqe_still.
Qed.

Lemma rearm_watch_still w : still w (rearm_watch entries w).
Proof.
  unfold rearm_watch. destruct (get_sqe entries SWatch w) eqn:He; [|done].
  by eapply get_sqe_still.
Qed.

Lemma stop_local_still w : still w (stop_local entries sqpoll w).
Proof.
  unfold stop_local. destruct (stopping_ _); [done|].
  match goal with |- context [get_sqe _ SNop ?x] => set (w1 := x) end.
  destruct (get_sqe entries SNop w1) as [w2|] eqn:He; [|done].
  apply get_sqe_still in He as (Hr & Hh & Hf). by split_and!.
Qed.

Lemma act_mild a w w' : act entries sqpoll a w = Some w' → mild (ends [a]) w w'.
Proof.
  destruct a as [h|o h| |h]; cbn [act].
  - intros [= <-]. by apply still_mild.
  - intros (w1 & He%get_sqe_still & [= <-])%bind_Some. by apply still_mild.
  - intros [= <-]. apply still_mild, stop_local_still.
  - intros [= <-]. split; [done|by left|]. cbn. set_solver.
Qed.

Lemma mild_trans d1 d2 w1 w2 w3 : mild d1 w1 w2 → mild d2 w2 w3 → mild (d1 ++ d2) w1 w3.
Proof.
  intros [Hr1 Hh1 Hf1] [Hr2 Hh2 Hf2]. split; [congruence| |].
  - destruct Hh2 as [->|?]; auto.
  - intros h Hh. rewrite elem_of_app. naive_solver.
Qed.

Lemma acts_mild l w w' : acts entries sqpoll l w = Some w' → mild (ends l) w w'.
Proof.
  revert w. induction l as [|a l IH]; intros w; cbn [acts].
  { intros [= <-]. by apply still_mild. }
  intros (w1 & Ha%act_mild & Hl%IH)%bind_Some.
  change (a :: l) with ([a] ++ l). unfold ends. rewrite omap_app. by eapply mild_trans.
Qed.

Lemma user_mild l p w : mild (ends l) w (user entries sqpoll l p w).
Proof.
  unfold user. destruct (acts entries sqpoll l w) as [w'|] eqn:Ha; [|by apply still_mild].
  apply acts_mild in Ha as [Hr Hh Hf]. by split.
Qed.

Lemma on_complete_mild e l p w : mild (ends l) w (on_complete entries sqpoll e l p w).
Proof.
  unfold on_complete. destruct (user_data e) as [| | |o].
  - by apply still_mild.
  - apply still_mild, (rearm_watch_still w).
  - case_match; [apply still_mild, (rearm_timer_still w)|].
    destruct (acts entries sqpoll l w) as [w'|] eqn:Ha; [|by apply still_mild].
    apply acts_mild in Ha. rewrite <-(app_nil_r (ends l)). eapply mild_trans; [exact Ha|].
    apply still_mild, (rearm_timer_still w').
  - apply still_mild. unfold complete_op. destruct (ops w !! o) as [[[h|] r f]|]; [|done..].
    cbn. by case_decide.
Qed.

Lemma worker_mild e w w' :
  is_post e = false → Scheduler.exec entries sqpoll e w = Some w' → mild (finishing e) w w'.
Proof.
  destruct e as [t|h|t| | |k r f| | | |l| |l| | |r| |l|]; try done; intros _; cbn [exec finishing].
  - destruct (pc w); try done. intros [= <-]. by apply still_mild.
  - intros [= <-]. by apply still_mild.
  - intros [= <-]. apply still_mild. unfold stop_remote. by case_match.
  - case_decide; [done|]. intros [= <-]. by apply still_mild.
  - unfold kernel. intros (e & _ & He)%bind_Some. apply still_mild.
    repeat case_match; try done; by injection He as <-.
  - case_decide; [done|]. intros [= <-]. by apply still_mild.
  - assert (still w (enter entries w)) as Hs.
    { unfold enter. match goal with |- context [rearm_watch _ ?x] => set (w1 := x) end.
      trans w1; [done|]. etrans; [apply rearm_watch_still|]. apply rearm_timer_still. }
    destruct (pc w); try done; intros [= <-]; by apply still_mild.
  - destruct (pc w); try done. intros [= <-]. case_match; [by apply still_mild|].
    split; [done|by right|by left].
  - destruct (pc w) as [| |[|t ts]| | | | | | | |]; try done. intros [= <-]. apply user_mild.
  - destruct (pc w) as [| |[|t ts]| | | | | | | |]; try done. intros [= <-]. by apply still_mild.
  - destruct (pc w); try done. destruct (ready_ w) as [|h rest]; [done|]. intros [= <-].
    unfold resume. case_decide; [by apply still_mild|].
    match goal with |- mild _ _ (user _ _ _ _ ?x) => set (w1 := x) end.
    apply (mild_trans [] (ends l) w w1); [by apply still_mild|apply user_mild].
  - destruct (pc w); try done. destruct (ready_ w); [|done]. intros [= <-]. by apply still_mild.
  - destruct (pc w); try done. intros [= <-]. by apply still_mild.
  - destruct (pc w); try done. intros He. apply still_mild.
    repeat case_match; try done; by injection He as <-.
  - destruct (pc w); try done. intros [= <-]. by apply still_mild.
  - destruct (pc w); try done. case_match; [|done].
    intros (e & _ & [= <-])%bind_Some. apply on_complete_mild.
  - destruct (pc w); try done. case_match; [done|]. intros [= <-]. by apply still_mild.
Qed.

(** ** What a step of the pool does to its tasks *)

Lemma handles_of_app i l1 l2 : handles_of i (l1 ++ l2) = handles_of i l1 ++ handles_of i l2.
Proof. unfold handles_of. by rewrite filter_app, fmap_app. Qed.

#[export] Instance handles_of_proper i : Proper ((≡ₚ) ==> (≡ₚ)) (handles_of i).
Proof. intros l1 l2 Hl. unfold handles_of. by apply fmap_Permutation, filter_Permutation. Qed.

Lemma handles_of_own i a h : handles_of i [mkTask a h (Some i)] = [h].
Proof. unfold handles_of, from. by rewrite filter_cons_True by (cbn; by apply bool_decide_pack). Qed.

Lemma handles_of_other i t : src_sched_ t ≠ Some i → handles_of i [t] = [].
Proof.
  intros Ht. unfold handles_of, from. rewrite filter_cons_False; [done|].
  intros Hb. by apply bool_decide_unpack in Hb.
Qed.

(** Every task submitted has been finished or is still with the pool. *)
Lemma pool_balance i (p : @pool V X) :
  ThreadPool.inv fn p →
  handles_of i (enqueued p) ≡ₚ handles_of i (finished p) ++ in_pool i p.
Proof.
  intros Hp. rewrite (v_enq _ _ Hp), handles_of_app, (v_taken _ _ Hp), handles_of_app.
  unfold in_pool. rewrite handles_of_app, <-app_assoc. apply Permutation_app_head, Permutation_app_comm.
Qed.

Definition quiet (e : ThreadPool.event) : bool :=
  match e with ThreadPool.EvPost _ | EvEnqueue _ => false | _ => true end.

Lemma pool_quiet e p p' :
  quiet e = true → ThreadPool.exec fn e p = Some p' →
  enqueued p' = enqueued p ∧ finished p' = finished p.
Proof.
  destruct e as [k|k|k|k|k|k|t|[k|]| | | |]; try done; intros _; cbn [ThreadPool.exec];
    intros He; unfold eval, start in He; repeat case_match; try done; by injection He as <-.
Qed.

Lemma in_pool_quiet i (p p' : @pool V X) :
  ThreadPool.inv fn p → ThreadPool.inv fn p' →
  enqueued p' = enqueued p → finished p' = finished p → in_pool i p' ≡ₚ in_pool i p.
Proof.
  intros Hp Hp' He Hf. pose proof (pool_balance i p Hp) as H. pose proof (pool_balance i p' Hp') as H'.
  rewrite He, Hf, H in H'. symmetry. by apply Permutation_app_inv_l in H'.
Qed.

Lemma in_pool_submit i t (p p' : @pool V X) :
  ThreadPool.exec fn (EvEnqueue t) p = Some p' → in_pool i p' ≡ₚ handles_of i [t] ++ in_pool i p.
Proof.
  cbn. destruct (mu_ p); [done|]. intros [= <-]. unfold in_pool. cbn [enqueue queue_ threads_].
  rewrite !handles_of_app, <-app_assoc. apply Permutation_app_swap_app.
Qed.

Lemma in_pool_post i k t (p p' : @pool V X) :
  ThreadPool.inv fn p → ThreadPool.inv fn p' →
  threads_ p !! k = Some (WPost t) → src_sched_ t ≠ None →
  ThreadPool.exec fn (ThreadPool.EvPost k) p = Some p' →
  enqueued p' = enqueued p ∧ finished p' = finished p ++ [t] ∧
  in_pool i p ≡ₚ in_pool i p' ++ handles_of i [t].
Proof.
  intros Hp Hp' Hk Hsrc. cbn [ThreadPool.exec]. rewrite Hk.
  destruct (src_sched_ t) as [j|]; [|done]. intros Hex.
  assert (Heq : enqueued p' = enqueued p ∧ finished p' = finished p ++ [t])
    by (by injection Hex as <-).
  destruct Heq as [He Hf]. split_and!; [done..|].
  pose proof (pool_balance i p Hp) as H. pose proof (pool_balance i p' Hp') as H'.
  rewrite He, Hf, handles_of_app, H, <-app_assoc in H'. apply Permutation_app_inv_l in H'.
  by rewrite H', Permutation_app_comm.
Qed.

(** ** Invariant *)

Record sys_inv (s : system) : Prop := {
  o_pool : ThreadPool.inv fn (business s);
  o_workers : Forall Scheduler.inv (workers s);
  o_src t : t ∈ enqueued (business s) →
    ∃ i, src_sched_ t = Some i ∧ (i < length (workers s))%nat;
  o_remote i w : workers s !! i = Some w → remote w = handles_of i (finished (business s));
  o_once i w : workers s !! i = Some w → NoDup (away i w (business s));
  o_alive i w h : workers s !! i = Some w → h ∈ away i w (business s) → h ∉ final w;
}.

Lemma new_system_inv n threads : sys_inv (new_system n threads).
Proof.
  assert (Hw : ∀ i w, replicate n new_scheduler !! i = Some w → w = new_scheduler)
    by (by intros i w [? _]%lookup_replicate).
  split; cbn.
  - apply new_pool_inv.
  - apply Forall_replicate, new_scheduler_inv.
  - intros t Ht. by apply not_elem_of_nil in Ht.
  - by intros i w ->%Hw.
  - intros i w ->%Hw. constructor.
  - intros i w h ->%Hw Hh. by apply not_elem_of_nil in Hh.
Qed.

(** A step of a worker. *)
Lemma worker_sys_inv s i w w' e :
  sys_inv s → workers s !! i = Some w → is_post e = false →
  forallb (λ h, bool_decide (h ∉ away i w (business s))) (finishing e) = true →
  Scheduler.exec entries sqpoll e w = Some w' →
  sys_inv (mkSystem (<[i := w']> (workers s)) (business s)).
Proof.
  intros Hs Hi Hpost Hfin Hex.
  destruct (worker_mild e w w' Hpost Hex) as [Hr Hh Hf].
  assert (Hsub : ∀ h, h ∈ away i w' (business s) → h ∈ away i w (business s)).
  { intros h. unfold away. rewrite !elem_of_app. destruct Hh as [->| ->]; [done|].
    intros [?|?%not_elem_of_nil]; [by left|done]. }
  split; cbn.
  - apply Hs.
  - apply Forall_insert; [apply Hs|]. eapply exec_inv; [|exact Hex].
    by eapply Forall_lookup_1; [apply Hs|].
  - rewrite length_insert. apply Hs.
  - intros j v [(<- & <- & _)|[? Hj]]%list_lookup_insert_Some; [|by apply Hs].
    rewrite Hr. by apply Hs.
  - intros j v [(<- & <- & _)|[? Hj]]%list_lookup_insert_Some; [|by apply Hs].
    pose proof (o_once _ Hs _ _ Hi) as Hnd. unfold away in *.
    destruct Hh as [->| ->]; [done|]. rewrite app_nil_r. by apply NoDup_app in Hnd as [? _].
  - intros j v h [(<- & <- & _)|[? Hj]]%list_lookup_insert_Some; [|by apply Hs].
    intros Ha%Hsub [Hin|Hin]%Hf; [by eapply (o_alive _ Hs)|].
    rewrite forallb_forall in Hfin. apply list_elem_of_In in Hin.
    by apply Hfin, bool_decide_eq_true in Hin.
Qed.

(** A step of the pool that does not touch the workers. *)
Lemma pool_sys_inv s p :
  sys_inv s → ThreadPool.inv fn p → finished p = finished (business s) →
  (∀ t, t ∈ enqueued p → ∃ i, src_sched_ t = Some i ∧ (i < length (workers s))%nat) →
  (∀ i w, workers s !! i = Some w →
     NoDup (in_pool i p ++ handles (cross_ w)) ∧
     ∀ h, h ∈ in_pool i p → h ∈ in_pool i (business s) ∨ h ∉ final w) →
  sys_inv (mkSystem (workers s) p).
Proof.
  intros Hs Hp Hf Hsrc Haway. split; cbn; [done|apply Hs|done| | |].
  - rewrite Hf. apply Hs.
  - intros i w Hi. by apply Haway.
  - intros i w h Hi Hh. destruct (Haway i w Hi) as [_ Hin]. unfold away in Hh.
    apply elem_of_app in Hh as [Hh|Hh].
    + destruct (Hin h Hh) as [?|?]; [|done]. apply (o_alive _ Hs i w h Hi).
      apply elem_of_app. by left.
    + apply (o_alive _ Hs i w h Hi). apply elem_of_app. by right.
Qed.

Lemma quiet_sys_inv s e p :
  sys_inv s → quiet e = true → ThreadPool.exec fn e (business s) = Some p →
  sys_inv (mkSystem (workers s) p).
Proof.
  intros Hs Hq Hex. destruct (pool_quiet e _ p Hq Hex) as [He Hf].
  pose proof (pool_exec_inv fn e _ p (o_pool _ Hs) Hex) as Hp.
  apply pool_sys_inv; [done..| |].
  - rewrite He. apply Hs.
  - intros i w Hi. pose proof (in_pool_quiet i _ p (o_pool _ Hs) Hp He Hf) as Heq. split.
    + rewrite Heq. by apply (o_once _ Hs).
    + intros h. rewrite Heq. by left.
Qed.

Lemma submit_sys_inv s i a h s' :
  sys_inv s → await_suspend i a h s = Some s' → sys_inv s'.
Proof.
  intros Hs. unfold await_suspend. intros (w & Hi & Hex)%bind_Some.
  destruct (in_user (pc w)); [|done]. cbn [andb] in Hex.
  destruct (bool_decide (h ∉ final w)) eqn:Hfin; [|done]. cbn [andb] in Hex.
  destruct (bool_decide (h ∉ away i w (business s))) eqn:Haway; [|done].
  apply bool_decide_eq_true in Hfin, Haway.
  apply bind_Some in Hex as (p & Hex & [= <-]).
  pose proof (pool_exec_inv fn _ _ p (o_pool _ Hs) Hex) as Hp.
  assert (Hep : enqueued p = enqueued (business s) ++ [mkTask a h (Some i)] ∧
    finished p = finished (business s)).
  { cbn in Hex. destruct (mu_ (business s)); [done|]. by injection Hex as <-. }
  destruct Hep as [He Hf]. apply pool_sys_inv; [done..| |].
  - intros t. rewrite He. intros [Ht| ->%list_elem_of_singleton]%elem_of_app; [by apply Hs|].
    exists i. split; [done|]. by eapply lookup_lt_Some.
  - intros j v Hj. pose proof (in_pool_submit j _ _ _ Hex) as Heq.
    pose proof (o_once _ Hs j v Hj) as Hnd. destruct (decide (j = i)) as [->|Hne].
    + rewrite handles_of_own in Heq. rewrite Hi in Hj. injection Hj as <-. split.
      * rewrite Heq. cbn. apply NoDup_cons. by split.
      * intros h'. rewrite Heq. cbn. rewrite elem_of_cons. intros [->|?]; auto.
    + rewrite handles_of_other in Heq by (cbn; congruence). split; [by rewrite Heq|].
      intros h'. rewrite Heq. by left.
Qed.

(** Every post finds the scheduler it is for. *)
Lemma post_target s k t :
  sys_inv s → threads_ (business s) !! k = Some (WPost t) →
  ∃ i w, src_sched_ t = Some i ∧ workers s !! i = Some w ∧
    post_back k s = Some (mkSystem (<[i := post_remote (handle_ t) w]> (workers s))
                            (post k t i (business s))).
Proof.
  intros Hs Hk.
  destruct (o_src _ Hs t) as (i & Hsrc & Hi).
  { eapply (held_enqueued fn); [apply Hs|exact Hk|by left]. }
  apply lookup_lt_is_Some in Hi as [w Hw]. exists i, w. split_and!; [done..|].
  unfold post_back. rewrite Hk. cbn [ThreadPool.exec]. rewrite Hk, Hsrc. cbn. by rewrite Hw.
Qed.

Lemma post_sys_inv s k s' : sys_inv s → post_back k s = Some s' → sys_inv s'.
Proof.
  intros Hs Hex. destruct (threads_ (business s) !! k) as [wk|] eqn:Hk;
    [|unfold post_back in Hex; by rewrite Hk in Hex].
  destruct wk as [| | | | |t| |]; try (unfold post_back in Hex; by rewrite Hk in Hex).
  destruct (post_target s k t Hs Hk) as (i & w & Hsrc & Hi & Heq).
  rewrite Heq in Hex. injection Hex as <-. clear Heq.
  assert (Hex : ThreadPool.exec fn (ThreadPool.EvPost k) (business s) =
    Some (post k t i (business s))) by (cbn; by rewrite Hk, Hsrc).
  pose proof (pool_exec_inv fn _ _ _ (o_pool _ Hs) Hex) as Hp.
  assert (Hpool : ∀ j, in_pool j (business s) ≡ₚ
      in_pool j (post k t i (business s)) ++ handles_of j [t]).
  { intros j. by eapply in_pool_post; [apply Hs|exact Hp|exact Hk|congruence|exact Hex]. }
  assert (Hown : handles_of i [t] = [handle_ t]).
  { destruct t as [a h o]. cbn in Hsrc. subst o. apply handles_of_own. }
  assert (Haway : away i (post_remote (handle_ t) w) (post k t i (business s)) ≡ₚ
      away i w (business s)).
  { unfold away. rewrite (Hpool i), Hown. cbn. rewrite <-app_assoc.
    apply Permutation_app_head, Permutation_app_comm. }
  assert (Hother : ∀ j, j ≠ i → in_pool j (business s) ≡ₚ in_pool j (post k t i (business s))).
  { intros j Hne. rewrite (Hpool j), handles_of_other by congruence. by rewrite app_nil_r. }
  split; cbn [workers business]; [done| | | | |].
  - apply Forall_insert; [apply Hs|]. eapply (outside_inv entries sqpoll (EvPost (handle_ t)) w);
      [done| |done]. by eapply Forall_lookup_1; [apply Hs|].
  - intros u Hu. rewrite length_insert. by apply Hs.
  - intros j v Hj. cbn [finished post]. rewrite handles_of_app.
    apply list_lookup_insert_Some in Hj as [(<- & <- & _)|[Hne Hj]].
    + cbn [post_remote remote]. by rewrite (o_remote _ Hs i w Hi), Hown.
    + rewrite handles_of_other by congruence. rewrite app_nil_r. by apply Hs.
  - intros j v [(<- & <- & _)|[Hne Hj]]%list_lookup_insert_Some.
    + rewrite Haway. by apply Hs.
    + unfold away. rewrite <-Hother by done. by apply Hs.
  - intros j v h [(<- & <- & _)|[Hne Hj]]%list_lookup_insert_Some.
    + rewrite Haway. cbn. by apply Hs.
    + unfold away. rewrite <-Hother by done. by apply Hs.
Qed.

Lemma sys_exec_inv e s s' : sys_inv s → sys_exec e s = Some s' → sys_inv s'.
Proof.
  intros Hs. destruct e as [i e|i a h|e|k]; cbn [sys_exec].
  - intros (w & Hi & Hex)%bind_Some. destruct (is_post e) eqn:Hp; [done|]. cbn [negb andb] in Hex.
    destruct (forallb _ _) eqn:Hf; [|done]. apply bind_Some in Hex as (w' & Hex & [= <-]).
    by eapply worker_sys_inv.
  - by apply submit_sys_inv.
  - intros Hex. destruct (quiet e) eqn:Hq; [|by destruct e].
    assert (Hb : ∃ p, ThreadPool.exec fn e (business s) = Some p ∧ s' = mkSystem (workers s) p).
    { destruct e; try done; apply bind_Some in Hex as (p & Hex & [= <-]); by exists p. }
    destruct Hb as (p & Hb & ->). by eapply quiet_sys_inv.
  - by apply post_sys_inv.
Qed.

Lemma sys_reachable_inv n threads s : sys_reachable n threads s → sys_inv s.
Proof.
  apply rtc_invariant; [|apply new_system_inv]. intros s1 s2 Hs [e He]. by eapply sys_exec_inv.
Qed.

Lemma sys_run_reachable n threads es s :
  sys_run es (new_system n threads) = Some s → sys_reachable n threads s.
Proof.
  unfold sys_reachable. generalize (new_system n threads).
  induction es as [|e es IH]; intros s0; cbn [sys_run]; [by intros [= ->]|].
  intros (s1 & He & Hrun)%bind_Some. eapply rtc_l; [by exists e|by apply IH].
Qed.

Lemma filter_keeps (f : gset handle) (l : list handle) : (∀ h, h ∈ l → h ∉ f) → filter (.∉ f) l = l.
Proof.
  induction l as [|h l IH]; intros Hl; [done|].
  rewrite filter_cons_True by (apply Hl; by left). rewrite IH; [done|].
  intros h' Hh'. apply Hl. by right.
Qed.

Lemma handles_of_elem i l h :
  h ∈ handles_of i l → ∃ t, t ∈ l ∧ handle_ t = h ∧ src_sched_ t = Some i.
Proof.
  intros (t & -> & [Ht Hin]%list_elem_of_filter)%list_elem_of_fmap.
  apply bool_decide_unpack in Ht. by exists t.
Qed.

(** ** Properties *)

(** C5: A submission comes back to its own worker, once and with its result.  Of the
    coroutines of a worker that have submitted a function, each is with the pool, or
    queued for the worker, or has been drained by it; they come back in the order in
    which the functions end, none is away twice at the same time, and for each that
    is back [await_resume] returns what its function returned, or rethrows what it
    threw. *)
Theorem offload_roundtrip n threads s i w :
  sys_reachable n threads s → workers s !! i = Some w →
  handles_of i (enqueued (business s)) ≡ₚ
    in_pool i (business s) ++ handles (cross_ w) ++ drained w ∧
  drained w ++ handles (cross_ w) = handles_of i (finished (business s)) ∧
  NoDup (in_pool i (business s) ++ handles (cross_ w)) ∧
  ∀ h, h ∈ drained w ++ handles (cross_ w) →
    ∃ t, t ∈ finished (business s) ∧ handle_ t = h ∧ src_sched_ t = Some i ∧
      (results (business s) !! awaiter t ≫= await_resume) =
      Some (match fn (awaiter t) with Returns v => inl v | Throws x => inr x end).
Proof.
  intros Hs%sys_reachable_inv Hi.
  pose proof (o_remote _ Hs i w Hi) as Hrem.
  assert (Hw : Scheduler.inv w) by (eapply Forall_lookup_1; [apply Hs|exact Hi]).
  rewrite (n_remote _ Hw) in Hrem. split_and!; [|done|by apply (o_once _ Hs)|].
  - rewrite (pool_balance i _ (o_pool _ Hs)), <-Hrem, Permutation_app_comm.
    apply Permutation_app_head, Permutation_app_comm.
  - rewrite Hrem. intros h (t & Ht & Hh & Hsrc)%handles_of_elem. exists t. split_and!; [done..|].
    rewrite (v_results _ _ (o_pool _ Hs) t Ht). cbn. by destruct (fn (awaiter t)).
Qed.

(** The way back is always open: a thread of the pool never dereferences a null
    scheduler; when a function has ended, the post reaches the worker it was submitted
    from; a worker blocked with a coroutine to take back has a wake-up under way; and
    the next time round its loop it makes all of them ready, in order, none dropped. *)
Theorem offload_resumes n threads s i w :
  sys_reachable n threads s → workers s !! i = Some w →
  (∀ k t, threads_ (business s) !! k ≠ Some (WNull t)) ∧
  (∀ k t, threads_ (business s) !! k = Some (WPost t) → src_sched_ t = Some i →
     ∃ s', sys_exec (OfPost k) s = Some s' ∧
       workers s' !! i = Some (post_remote (handle_ t) w)) ∧
  (pc w = LWait → lost_watch w = false → handles (cross_ w) ≠ [] →
     (0 < writers (cross_ w))%nat ∨ cq (ring_ w) ≠ [] ∨
     (0 < efd (cross_ w) ∧ SWatch ∈ inflight (ring_ w))) ∧
  (pc w = LTop → Scheduler.stopping_ (cross_ w) = false →
     ∃ s' w', sys_exec (OfWorker i EvTop) s = Some s' ∧ workers s' !! i = Some w' ∧
       ready_ w' = ready_ w ++ handles (cross_ w) ∧ handles (cross_ w') = []).
Proof.
  intros Hs%sys_reachable_inv Hi.
  assert (Hw : Scheduler.inv w) by (eapply Forall_lookup_1; [apply Hs|exact Hi]).
  pose proof (lookup_lt_Some _ _ _ Hi) as Hlt. split_and!.
  - intros k t Hk. pose proof (v_worker _ _ (o_pool _ Hs) k _ Hk) as Hnull. cbn in Hnull.
    destruct (o_src _ Hs t) as (j & Hj & _); [|congruence].
    eapply (held_enqueued fn); [apply Hs|exact Hk|by left].
  - intros k t Hk Hsrc. destruct (post_target s k t Hs Hk) as (j & v & Hj & Hv & Heq).
    assert (j = i) as -> by congruence. assert (v = w) as -> by congruence.
    eexists. split; [exact Heq|]. cbn. by rewrite list_lookup_insert_eq.
  - intros Hp Hl Hh. apply blocked_signalled; auto.
  - intros Hp Hst. eexists _, (drain_cross_queue w). cbn [sys_exec].
    rewrite Hi. cbn [mbind option_bind is_post negb finishing forallb andb exec].
    rewrite Hp, Hst. split; [done|]. cbn [workers]. rewrite list_lookup_insert_eq by done.
    split_and!; [done| |done]. cbn. f_equal. apply filter_keeps.
    intros h Hh. apply (o_alive _ Hs i w h Hi). apply elem_of_app. by right.
Qed.
End offload.

(** ** Witnesses *)

Module Demo.
Definition fn (a : nat) : @outcome nat nat := if Nat.even a then Returns a else Throws a.
(** Two workers and one thread.  A task of worker 1 starts coroutine 7, which submits
    function 4; meanwhile worker 1 blocks. *)
Definition submits : list sys_event :=
  [OfPool EvStart; OfWorker 1 (EvBoot 0); OfWorker 1 EvRun; OfWorker 1 EvTop;
   OfWorker 1 (EvTask []); OfSubmit 1 4 7; OfWorker 1 EvTasksDone; OfWorker 1 EvReadyDone;
   OfWorker 1 EvSubmit; OfPool (EvLock 0); OfPool (EvEval 0); OfPool (ThreadPool.EvRun 0)].
Definition ran : system :=
  default (new_system 0 0) (sys_run fn 8 false submits (new_system 2 1)).
Definition waiting : Scheduler := default new_scheduler (workers ran !! 1%nat).
(** The coroutine is posted, and the worker wakes up. *)
Definition returns : list sys_event :=
  submits ++ [OfPost 0; OfWorker 1 EvWrite; OfWorker 1 (EvKernel 0 8 0);
    OfWorker 1 (EvReturn 1); OfWorker 1 EvPeek; OfWorker 1 (EvCqe []); OfWorker 1 EvAdvance;
    OfWorker 1 EvTop].
Definition back : system :=
  default (new_system 0 0) (sys_run fn 8 false returns (new_system 2 1)).
Definition resumed : Scheduler := default new_scheduler (workers back !! 1%nat).

Lemma ran_reachable : sys_reachable fn 8 false 2 1 ran.
Proof. apply (sys_run_reachable fn 8 false 2 1 submits). vm_compute. reflexivity. Qed.
Lemma back_reachable : sys_reachable fn 8 false 2 1 back.
Proof. apply (sys_run_reachable fn 8 false 2 1 returns). vm_compute. reflexivity. Qed.
Lemma ran_worker : workers ran !! 1%nat = Some waiting.
Proof. vm_compute. reflexivity. Qed.
Lemma back_worker : workers back !! 1%nat = Some resumed.
Proof. vm_compute. reflexivity. Qed.
Lemma resumed_view : drained resumed ++ handles (cross_ resumed) = [7%nat].
Proof. vm_compute. reflexivity. Qed.
End Demo.

Lemma offload_roundtrip_witness :
  ∃ t, t ∈ finished (business Demo.back) ∧ handle_ t = 7%nat ∧ src_sched_ t = Some 1%nat ∧
    (results (business Demo.back) !! awaiter t ≫= await_resume) =
    Some (match Demo.fn (awaiter t) with Returns v => inl v | Throws x => inr x end).
Proof.
  destruct (offload_roundtrip Demo.fn 8 false 2 1 Demo.back 1 Demo.resumed
    Demo.back_reachable Demo.back_worker) as (_ & _ & _ & H).
  apply H. rewrite Demo.resumed_view. by left.
Defined.

Lemma offload_resumes_witness :
  ∃ s', sys_exec Demo.fn 8 false (OfPost 0) Demo.ran = Some s' ∧
    workers s' !! 1%nat = Some (post_remote 7 Demo.waiting).
Proof.
  destruct (offload_resumes Demo.fn 8 false 2 1 Demo.ran 1 Demo.waiting
    Demo.ran_reachable Demo.ran_worker) as (_ & H & _).
  apply (H 0%nat (mkTask 4 7 (Some 1%nat))); vm_compute; reflexivity.
Defined.
