(* ===== verification/WorkerTimers.v ===== *)
(** * WorkerTimers: timers set from any thread

    Models [Scheduler::run_after], [run_every] and [cancel] of
    [src/scheduler/scheduler.cc] with the tasks they post and
    [drain_cross_queue], on top of the worker's queue of [TimerQueue.v].

    On the worker's own thread a call goes straight to the queue; from another
    thread it is posted as a task and returns a null [TimerId].  A task posted by
    other code is known here by the timer calls it makes when it runs.  A post
    touches only [cross_.tasks], which [drain_cross_queue] has swapped out before
    it runs the first task: a post during the loop is the same as one after it,
    so the loop is one step. *)
From S2P Require Import Prelude TimerQueue.

Section worker_timers.
Context {Cb W : Type} (steady : nat → Z) (malloc : gmap addr (@Timer Cb) → addr)
  (body : Cb → W → @prog Cb W).

(** The calls of the façade; also the closures it posts. *)
Inductive request : Type :=
  | RunAfter (delay : Z) (fn : Cb)
  | RunEvery (interval : Z) (fn : Cb)
  | Cancel (id : TimerId).

Record worker := mkWorker {
  timer_queue_ : @TimerQueue Cb;
  tasks : list (list request);      (* [cross_.tasks] *)
}.
Definition new_worker : worker := mkWorker empty_queue [].

(** [post_task] from another thread. *)
Definition post_task (f : list request) (s : worker) : worker :=
  mkWorker (timer_queue_ s) (tasks s ++ [f]).

(** [own] tells whether [tls_current_ == this]. *)
Definition run_after (own : bool) (delay : Z) (fn : Cb) (s : worker) : TimerId * worker :=
  if own then
    let '(id, q) := add steady malloc fn delay (timer_queue_ s) in (id, mkWorker q (tasks s))
  else (null_id, post_task [RunAfter delay fn] s).
Definition run_every (own : bool) (interval : Z) (fn : Cb) (s : worker) : TimerId * worker :=
  if own then
    let '(id, q) := add_periodic steady malloc fn interval (timer_queue_ s) in
    (id, mkWorker q (tasks s))
  else (null_id, post_task [RunEvery interval fn] s).
Definition cancel_timer (own : bool) (id : TimerId) (s : worker) : res worker :=
  if own then q ← cancel steady id (timer_queue_ s); Ok (mkWorker q (tasks s))
  else Ok (post_task [Cancel id] s).

(** A call, with the timers it creates or cancels at once. *)
Definition call (own : bool) (r : request) (s : worker) : res (list obs * worker) :=
  match r with
  | RunAfter delay fn =>
      let '(id, s) := run_after own delay fn s in
      Ok (if own then [Added (seq_ id)] else [], s)
  | RunEvery interval fn =>
      let '(id, s) := run_every own interval fn s in
      Ok (if own then [Added (seq_ id)] else [], s)
  | Cancel id =>
      s ← cancel_timer own id s;
      Ok (if own && valid id then [Cancelled (seq_ id)] else [], s)
  end.

(** The loop [for (auto& f : t_tmp) f();]: every task calls on the own thread. *)
Fixpoint run_tasks (t_tmp : list request) (s : worker) : res (list obs * worker) :=
  match t_tmp with
  | [] => Ok ([], s)
  | r :: t_tmp =>
      '(o1, s) ← call true r s;
      '(o2, s) ← run_tasks t_tmp s;
      Ok (o1 ++ o2, s)
  end.
Definition drain_cross_queue (s : worker) : res (list obs * worker) :=
  run_tasks (mjoin (tasks s)) (mkWorker (timer_queue_ s) []).

Inductive event : Type :=
  | Own (r : request)
  | Other (r : request)
  | OtherTask (f : list request)
  | Drain
  | Wake.                           (* the timerfd has fired *)

Definition exec (e : event) (w : W) (s : worker) : res (list obs * W * worker) :=
  match e with
  | Own r => '(o, s) ← call true r s; Ok (o, w, s)
  | Other r => '(o, s) ← call false r s; Ok (o, w, s)
  | OtherTask f => Ok ([], w, post_task f s)
  | Drain => '(o, s) ← drain_cross_queue s; Ok (o, w, s)
  | Wake =>
      '(o, w, q) ← handle_expired steady malloc body w (timer_queue_ s);
      Ok (o, w, mkWorker q (tasks s))
  end.

Fixpoint run (es : list event) (w : W) (s : worker) : res (list obs * W * worker) :=
  match es with
  | [] => Ok ([], w, s)
  | e :: es =>
      '(o1, w, s) ← exec e w s;
      '(o2, w, s) ← run es w s;
      Ok (o1 ++ o2, w, s)
  end.

(** ** The calls as operations of the queue *)

Definition op_of (r : request) : @op Cb :=
  match r with
  | RunAfter delay fn => OpAdd fn delay
  | RunEvery interval fn => OpAddPeriodic fn interval
  | Cancel id => OpCancel id
  end.

(** What the own thread does to the queue, and what the others ask for. *)
Definition own_op (e : event) : option op :=
  match e with Own r => Some (op_of r) | Wake => Some OpExpire | _ => None end.
Definition asked (e : event) : list op :=
  match e with Other r => [op_of r] | OtherTask f => op_of <$> f | _ => [] end.
Definition pending_ops (s : worker) : list op := op_of <$> mjoin (tasks s).

(** [os] as an interleaving: operations of the own thread, and those of tasks. *)
Definition owned (los : list (bool * @op Cb)) : list op :=
  omap (λ '(own, o), if own : bool then Some o else None) los.
Definition posted (los : list (bool * @op Cb)) : list op :=
  omap (λ '(own, o), if own : bool then None else Some o) los.

Abbreviation run_queue := (TimerQueue.run steady malloc body) (only parsing).

Lemma run_queue_app os1 os2 w q :
  run_queue (os1 ++ os2) w q =
  '(o1, w, q) ← run_queue os1 w q; '(o2, w, q) ← run_queue os2 w q; Ok (o1 ++ o2, w, q).
Proof.
  revert w q. induction os1 as [|o os1 IH]; intros w q; cbn [app TimerQueue.run].
  - cbn. destruct (run_queue os2 w q) as [[[??]?]| | |]; done.
  - rewrite res_bind_assoc. destruct (TimerQueue.exec _ _ _ o w q) as [[[o1 w1] q1]| | |];
      cbn; [|done..].
    rewrite IH, !res_bind_assoc. destruct (run_queue os1 w1 q1) as [[[o2 w2] q2]| | |];
      cbn; [|done..].
    destruct (run_queue os2 w2 q2) as [[[o3 w3] q3]| | |]; cbn; [|done..]. by rewrite app_assoc.
Qed.

Lemma run_queue_one o w q :
  run_queue [o] w q = TimerQueue.exec steady malloc body o w q.
Proof.
  cbn. destruct (TimerQueue.exec _ _ _ o w q) as [[[??]?]| | |]; cbn; [|done..].
  by rewrite app_nil_r.
Qed.

(** A call on the own thread is the operation on the queue. *)
Lemma call_own r w s :
  ('(o, s) ← call true r s; Ok (o, w, s)) =
  '(o, w, q) ← TimerQueue.exec steady malloc body (op_of r) w (timer_queue_ s);
  Ok (o, w, mkWorker q (tasks s)).
Proof.
  destruct r as [d f|i f|id]; cbn.
  - by destruct (add steady malloc f d (timer_queue_ s)).
  - by destruct (add_periodic steady malloc f i (timer_queue_ s)).
  - by destruct (cancel steady id (timer_queue_ s)).
Qed.

Lemma call_other r s : call false r s = Ok ([], post_task [r] s).
Proof. by destruct r. Qed.

Lemma run_tasks_queue l w s :
  ('(o, s) ← run_tasks l s; Ok (o, w, s)) =
  '(o, w, q) ← run_queue (op_of <$> l) w (timer_queue_ s); Ok (o, w, mkWorker q (tasks s)).
Proof.
  revert s. induction l as [|r l IH]; intros [q ts]; [done|].
  cbn [run_tasks fmap list_fmap TimerQueue.run]. rewrite !res_bind_assoc.
  pose proof (call_own r w (mkWorker q ts)) as Hc. cbn [timer_queue_ tasks] in *.
  destruct (call true r _) as [[o1 s1]| | |]; cbn in Hc |- *;
    destruct (TimerQueue.exec _ _ _ _ w q) as [[[o2 w2] q2]| | |]; cbn in Hc |- *; try done.
  injection Hc as <- <- ->. specialize (IH (mkWorker q2 ts)). cbn [timer_queue_ tasks] in IH.
  destruct (run_tasks l _) as [[o3 s3]| | |]; cbn in IH |- *;
    destruct (run_queue _ w q2) as [[[o4 w4] q4]| | |]; cbn in IH |- *; try done.
  by injection IH as <- <- ->.
Qed.

(** An event does to the queue a list of operations: what the own thread calls, or
    everything asked for since the last drain. *)
Lemma exec_queue e w s :
  ∃ los ts,
    exec e w s = ('(o, w, q) ← run_queue los.*2 w (timer_queue_ s); Ok (o, w, mkWorker q ts)) ∧
    owned los = option_list (own_op e) ∧
    posted los ++ (op_of <$> mjoin ts) = pending_ops s ++ asked e.
Proof.
  destruct e as [r|r|f| |]; cbn [exec own_op asked option_list].
  - exists [(true, op_of r)], (tasks s). cbn [fmap list_fmap snd].
    rewrite call_own, run_queue_one. by rewrite app_nil_r.
  - exists [], (tasks s ++ [[r]]). rewrite call_other. split_and!; [done|done|]. cbn.
    unfold pending_ops. by rewrite join_app, fmap_app.
  - exists [], (tasks s ++ [f]). split_and!; [done|done|]. cbn.
    unfold pending_ops. by rewrite join_app, fmap_app; cbn; rewrite app_nil_r.
  - exists ((false,.) <$> pending_ops s), []. unfold drain_cross_queue.
    rewrite run_tasks_queue. unfold pending_ops. cbn [timer_queue_ tasks].
    rewrite <-list_fmap_compose. cbn. rewrite list_fmap_id. split_and!; [done| |].
    + unfold owned. by induction (op_of <$> mjoin (tasks s)).
    + rewrite !app_nil_r. unfold posted.
      induction (op_of <$> mjoin (tasks s)) as [|x l IH]; [done|]. cbn. by f_equal.
  - exists [(true, OpExpire)], (tasks s). cbn [fmap list_fmap snd].
    rewrite run_queue_one. cbn. by rewrite app_nil_r.
Qed.

Lemma owned_app l1 l2 : owned (l1 ++ l2) = owned l1 ++ owned l2.
Proof. apply omap_app. Qed.
Lemma posted_app l1 l2 : posted (l1 ++ l2) = posted l1 ++ posted l2.
Proof. apply omap_app. Qed.

Lemma run_interleaves es w s :
  ∃ los ts,
    run es w s = ('(o, w, q) ← run_queue los.*2 w (timer_queue_ s); Ok (o, w, mkWorker q ts)) ∧
    owned los = omap own_op es ∧
    posted los ++ (op_of <$> mjoin ts) = pending_ops s ++ (es ≫= asked).
Proof.
  revert w s. induction es as [|e es IH]; intros w s.
  { exists [], (tasks s). rewrite app_nil_r. by destruct s. }
  destruct (exec_queue e w s) as (l1 & ts1 & Hex & Hown1 & Hp1). cbn [run]. rewrite Hex.
  destruct (run_queue l1.*2 w (timer_queue_ s)) as [[[o1 w1] q1]| | |] eqn:H1.
  1: destruct (IH w1 (mkWorker q1 ts1)) as (l2 & ts2 & Hrun & Hown2 & Hp2).
  2-4: destruct (IH w (mkWorker (timer_queue_ s) ts1)) as (l2 & ts2 & _ & Hown2 & Hp2).
  all: exists (l1 ++ l2), ts2; split_and!;
    [| rewrite owned_app, Hown1, Hown2; cbn; by destruct (own_op e)
     | rewrite posted_app, <-app_assoc, Hp2; unfold pending_ops at 1; cbn [tasks mbind list_bind];
       by rewrite app_assoc, Hp1, <-app_assoc].
  all: rewrite fmap_app, run_queue_app, H1; cbn; try done.
  rewrite Hrun. cbn [timer_queue_]. by destruct (run_queue l2.*2 w1 q1) as [[[??]?]| | |].
Qed.

Hypothesis malloc_fresh : ∀ h, h !! malloc h = None.

(** Draining fires nothing. *)
Lemma requests_fire_nothing l w q o w' q' n :
  run_queue (op_of <$> l) w q = Ok (o, w', q') → Fired n ∉ o.
Proof.
  revert w q o. induction l as [|r l IH]; intros w q o; cbn [fmap list_fmap TimerQueue.run].
  { intros [= <- _ _]. set_solver. }
  intros ([[o1 w1] q1] & Hex & ([[o2 w2] q2] & Hrun & [= <- <- <-])%res_bind_ok)%res_bind_ok.
  specialize (IH w1 q1 o2 Hrun). enough (Fired n ∉ o1) by set_solver.
  destruct r as [d f|i f|id]; cbn in Hex.
  - injection Hex as <- _ _. set_solver.
  - injection Hex as <- _ _. set_solver.
  - apply res_bind_ok in Hex as (? & _ & [= <- _ _]). destruct (valid id); set_solver.
Qed.

Lemma run_from_queue es w s o w' s' :
  run es w s = Ok (o, w', s') →
  ∃ os, run_queue os w (timer_queue_ s) = Ok (o, w', timer_queue_ s').
Proof.
  destruct (run_interleaves es w s) as (los & ts & -> & _).
  intros ([[??]?] & Hq & [= <- <- <-])%res_bind_ok. by exists los.*2.
Qed.

(** A cancelled timer is gone when all the operations around the call are done. *)
Lemma cancel_among l1 id l2 w q o w' q' :
  good q → valid id = true → seq_ id < next_seq_ q →
  run_queue (l1 ++ OpCancel id :: l2) w q = Ok (o, w', q') →
  good q' ∧ seq_ id < next_seq_ q' ∧ timer_of q' (seq_ id) = None.
Proof.
  intros Hg Hv Hlt. rewrite run_queue_app. cbn [TimerQueue.run TimerQueue.exec].
  destruct (run_good steady malloc body malloc_fresh l1 w q Hg)
    as (o1 & w1 & q1 & -> & Hg1 & ?). cbn [mbind res_bind].
  destruct (cancel_good steady malloc malloc_fresh id q1 Hg1) as (q2 & Hcan & Hg2 & _). rewrite Hcan, Hv.
  cbn [mbind res_bind].
  destruct (run_good steady malloc body malloc_fresh l2 w1 q2 Hg2)
    as (o3 & w3 & q3 & Hrun & Hg3 & ?). rewrite Hrun. cbn [mbind res_bind].
  intros [= <- <- <-].
  pose proof (cancel_next steady id q1 q2 Hcan).
  destruct (gone_forever steady malloc body malloc_fresh l2 w1 q2 o3 w3 q3 (seq_ id) Hg2)
    as [_ Hnone]; [lia| |done|].
  - rewrite (cancel_timer_of steady malloc malloc_fresh id q1 q2 (seq_ id) Hg1 Hcan), Hv. by rewrite Z.eqb_refl.
  - split_and!; [done|lia|done].
Qed.

(** ** Properties *)

(** C26: Setting and cancelling timers from any thread is safe and in order:
    whatever the calls, posts, drains and wake-ups, the worker's queue goes through
    an interleaving of the calls made on its own thread, in their order, with the
    calls made by other threads, in the order in which they were posted; those not
    executed yet are the ones still posted. *)
Theorem cross_thread_timers (es : list event) (w : W) :
  ∃ o w' s' los,
    run es w new_worker = Ok (o, w', s') ∧
    TimerQueue.run steady malloc body los.*2 w empty_queue = Ok (o, w', timer_queue_ s') ∧
    owned los = omap own_op es ∧
    posted los ++ pending_ops s' = es ≫= asked.
Proof.
  destruct (run_interleaves es w new_worker) as (los & ts & Hrun & Hown & Hp).
  destruct (run_good steady malloc body malloc_fresh los.*2 w empty_queue (empty_good malloc malloc_fresh))
    as (o & w' & q & Hq & _). cbn [new_worker timer_queue_] in Hrun. rewrite Hq in Hrun.
  by exists o, w', (mkWorker q ts), los.
Qed.

(** A cancellation asked for by another thread is final once the worker has
    drained its tasks: the timer is gone and never fires again. *)
Theorem drained_cancel_final es w0 o0 w s id es' o w' s' :
  run es w0 new_worker = Ok (o0, w, s) →
  Cancel id ∈ mjoin (tasks s) → valid id = true → seq_ id < next_seq_ (timer_queue_ s) →
  run (Drain :: es') w s = Ok (o, w', s') →
  (Fired (seq_ id) ∉ o) ∧ timer_of (timer_queue_ s') (seq_ id) = None.
Proof.
  intros Hrun (l1 & l2 & Htasks)%list_elem_of_split Hv Hlt Hdrain.
  assert (Hg : good (timer_queue_ s)).
  { apply run_from_queue in Hrun as [os Hrun]. by eapply reachable_good. }
  cbn [run exec] in Hdrain. unfold drain_cross_queue in Hdrain.
  rewrite run_tasks_queue, Htasks, fmap_app, fmap_cons in Hdrain.
  cbn [op_of timer_queue_ tasks] in Hdrain.
  apply res_bind_ok in Hdrain as ([[o1 w1] s1] & Hq1 & Hdrain).
  apply res_bind_ok in Hdrain as ([[o2 w2] s2] & Hlater & [= <- <- <-]).
  apply res_bind_ok in Hq1 as ([[o3 w3] q1] & Hq1 & [= <- <- <-]).
  destruct (cancel_among (op_of <$> l1) id (op_of <$> l2) w (timer_queue_ s) o3 w3 q1)
    as (Hg1 & Hlt1 & Hnone); [done..|].
  apply run_from_queue in Hlater as [os Hlater]. cbn [timer_queue_] in Hlater.
  destruct (gone_forever steady malloc body malloc_fresh os w3 q1 o2 w2 (timer_queue_ s2) (seq_ id))
    as [Hnf Hnone2]; [done..|].
  change (OpCancel id) with (op_of (Cancel id)) in Hq1.
  rewrite <-fmap_cons, <-fmap_app in Hq1. apply requests_fire_nothing with (n := seq_ id) in Hq1.
  split; [set_solver|done].
Qed.
End worker_timers.

(** ** Witnesses *)

Module Demo.
Definition events : list (@event nat) :=
  [Other (RunAfter 15 1%nat); Own (RunEvery 30 2%nat); Drain; Other (Cancel (mkTimerId (Some 1) 1));
   OtherTask [RunAfter 5 3%nat]].
Definition s : @worker nat :=
  match run TimerQueue.Demo.clock next_addr TimerQueue.Demo.body events tt new_worker with
  | Ok (_, _, s) => s
  | _ => new_worker
  end.
Definition s' : @worker nat :=
  match run TimerQueue.Demo.clock next_addr TimerQueue.Demo.body [Drain; Wake; Wake] tt s with
  | Ok (_, _, s) => s
  | _ => new_worker
  end.
Lemma run_events :
  run TimerQueue.Demo.clock next_addr TimerQueue.Demo.body events tt new_worker =
  Ok ([Added 1; Added 2], tt, s).
Proof. vm_compute. reflexivity. Qed.
Lemma run_drained :
  run TimerQueue.Demo.clock next_addr TimerQueue.Demo.body [Drain; Wake; Wake] tt s =
  Ok ([Cancelled 1; Added 3; Fired 2; Fired 3], tt, s').
Proof. vm_compute. reflexivity. Qed.
End Demo.

Lemma cross_thread_timers_witness :
  ∃ o w' s' los,
    run TimerQueue.Demo.clock next_addr TimerQueue.Demo.body Demo.events tt new_worker =
      Ok (o, w', s') ∧
    TimerQueue.run TimerQueue.Demo.clock next_addr TimerQueue.Demo.body los.*2 tt empty_queue =
      Ok (o, w', timer_queue_ s') ∧
    owned los = [OpAddPeriodic 2%nat 30] ∧
    posted los ++ pending_ops s' =
      [OpAdd 1%nat 15; OpCancel (mkTimerId (Some 1) 1); OpAdd 3%nat 5].
Proof.
  exact (cross_thread_timers TimerQueue.Demo.clock next_addr TimerQueue.Demo.body
    next_addr_fresh Demo.events tt).
Defined.

Lemma drained_cancel_final_witness :
  (Fired 1 ∉ [Cancelled 1; Added 3; Fired 2; Fired 3]) ∧
  timer_of (timer_queue_ Demo.s') 1 = None.
Proof.
  apply (drained_cancel_final TimerQueue.Demo.clock next_addr TimerQueue.Demo.body
    next_addr_fresh Demo.events tt [Added 1; Added 2] tt Demo.s (mkTimerId (Some 1) 1)
    [Wake; Wake] _ tt Demo.s' Demo.run_events).
  - vm_compute. by left.
  - reflexivity.
  - vm_compute. reflexivity.
  - exact Demo.run_drained.
Defined.
