(* ===== verification/Lifecycle.v ===== *)
(** * Lifecycle: starting and stopping the workers of a server

    Models the part of [TcpServer::start] and [stop] in [src/net/tcp_server.cc]
    that concerns the workers, with [start] and [stop_all] of
    [src/scheduler/scheduler_pool.cc]: a server is a list of the machines of
    [Scheduler.v], whose steps interleave.  [start] is not one step: [running_] is set,
    the workers are constructed and their tasks queued one after the other, and a [stop]
    may come in between.

    [stop] posts to every worker a task that calls the worker's own
    [Scheduler::stop]; the posts of one loop are independent of each other and are
    one step here, the writes to the eventfds that follow them are not.  A worker
    is run by one thread, once. *)
From S2P Require Import Prelude Scheduler.

Section lifecycle.
Context (entries : nat) (sqpoll : bool).

(** The tasks queued by [start]: the wheel's coroutine and the accept loop; and
    the task posted by [stop]. *)
Definition wheel_task : nat := 0.
Definition accept_task : nat := 1.
Definition stop_task : nat := 2.

Record server := mkServer { running_ : bool; pool_ : list Scheduler }.
Definition new_server : server := mkServer false [].

(** [start]: [running_.exchange], ... *)
Definition mark (sv : server) : server := mkServer true (pool_ sv).
(** ... the construction of [pool_], ... *)
Definition make_pool (n : nat) (sv : server) : server :=
  mkServer (running_ sv) (replicate n new_scheduler).
(** ... and the tasks of each worker, in the loop that follows. *)
Definition queue_tasks (idle : Z) (w : Scheduler) : Scheduler :=
  let w := if 0 <? idle then queue_boot_task wheel_task w else w in
  queue_boot_task accept_task w.
Definition queue_for (i : nat) (idle : Z) (sv : server) : server :=
  mkServer (running_ sv) (alter (queue_tasks idle) i (pool_ sv)).

(** [w->post_task([w] { w->stop(); })] for every worker. *)
Definition stop (sv : server) : server :=
  if negb (running_ sv) then sv else
  mkServer false (post_task_remote stop_task <$> pool_ sv).

(** [SchedulerPool::stop_all]: [stop] of every [Scheduler], from outside. *)
Definition stop_all (sv : server) : server :=
  mkServer (running_ sv) (stop_remote <$> pool_ sv).

(** What a worker may do: the stop task calls [stop] and nothing else, and no
    second thread runs a worker. *)
Definition allowed (e : event) (w : Scheduler) : bool :=
  match e, pc w with
  | EvTask l, LTasks (t :: _) => bool_decide (t = stop_task → l = [AStop])
  | EvRun, LExit => false
  | _, _ => true
  end.

Inductive server_event : Type :=
  | SvMark
  | SvPool (n : nat)
  | SvQueue (i : nat) (idle : Z)
  | SvStop
  | SvStopAll
  | SvWorker (i : nat) (e : event).

(** Between two steps of [start] anything else may happen, a [stop] included.  [start]
    constructs the pool anew and is not called twice; the threads run after it has
    queued their tasks. *)
Definition server_exec (e : server_event) (sv : server) : option server :=
  match e with
  | SvMark => match pool_ sv with [] => Some (mark sv) | _ => None end
  | SvPool n => match pool_ sv with [] => Some (make_pool n sv) | _ => None end
  | SvQueue i idle =>
      w ← pool_ sv !! i; match pc w with LInit => Some (queue_for i idle sv) | _ => None end
  | SvStop => Some (stop sv)
  | SvStopAll => Some (stop_all sv)
  | SvWorker i e =>
      w ← pool_ sv !! i;
      if allowed e w then
        w ← exec entries sqpoll e w; Some (mkServer (running_ sv) (<[i := w]> (pool_ sv)))
      else None
  end.

Definition server_step (s s' : server) : Prop := ∃ e, server_exec e s = Some s'.
Definition server_reachable (s : server) : Prop := rtc server_step new_server s.

Fixpoint server_run (es : list server_event) (s : server) : option server :=
  match es with
  | [] => Some s
  | e :: es => s ← server_exec e s; server_run es s
  end.

(** ** The stop task *)

(** The task has run, and the thread is on its way out. *)
Definition leaving (p : point) : bool :=
  match p with LTasks _ | LReady => true | _ => false end.
(** [run] is over, in whatever way. *)
Definition over (p : point) : bool :=
  match p with LExit | LThrow _ | LUB => true | _ => false end.

Definition will_stop (w : Scheduler) : Prop :=
  stop_task ∈ tasks (cross_ w) ∨
  (∃ ts, pc w = LTasks ts ∧ stop_task ∈ ts) ∨
  (leaving (pc w) = true ∧ stopping_ (cross_ w) = true) ∨
  over (pc w) = true.

(** The thread's own actions keep the posted tasks and a set flag. *)
Record kept (s s' : Scheduler) : Prop := {
  k_tasks : tasks (cross_ s') = tasks (cross_ s);
  k_stop : stopping_ (cross_ s) = true → stopping_ (cross_ s') = true;
}.

#[export] Instance kept_preorder : PreOrder kept.
Proof.
  split; [by intros s; split|].
  intros s1 s2 s3 [??] [??]. split; [congruence|auto].
Qed.

Lemma get_sqe_cross e s s' : get_sqe entries e s = Some s' → cross_ s' = cross_ s.
Proof. unfold get_sqe. case_match; [|done]. by intros [= <-]. Qed.

Lemma stop_local_kept s :
  kept s (stop_local entries sqpoll s) ∧ stopping_ (cross_ (stop_local entries sqpoll s)) = true.
Proof.
  unfold stop_local. destruct (stopping_ (cross_ s)) eqn:Hst; [done|].
  match goal with |- context [get_sqe _ SNop ?x] => set (s1 := x) end.
  destruct (get_sqe entries SNop s1) as [s2|] eqn:He; [|done].
  apply get_sqe_cross in He. split; [split|]; cbn; by rewrite He.
Qed.

Lemma act_kept a s s' : act entries sqpoll a s = Some s' → kept s s'.
Proof.
  destruct a as [h|o h| |h]; cbn.
  - by intros [= <-].
  - intros (s1 & He%get_sqe_cross & [= <-])%bind_Some. split; cbn; by rewrite He.
  - intros [= <-]. apply stop_local_kept.
  - by intros [= <-].
Qed.

Lemma acts_kept l s s' : acts entries sqpoll l s = Some s' → kept s s'.
Proof.
  revert s. induction l as [|a l IH]; intros s; cbn [acts]; [by intros [= <-]|].
  intros (s1 & Ha%act_kept & Hl%IH)%bind_Some. by etrans.
Qed.

(** A step of user code ends at its next point or in undefined behaviour. *)
Lemma user_kept l p s :
  (pc (user entries sqpoll l p s) = p ∨ pc (user entries sqpoll l p s) = LUB) ∧ kept s (user entries sqpoll l p s).
Proof.
  unfold user. destruct (acts entries sqpoll l s) as [s'|] eqn:Ha; cbn; [|by split; [right|]].
  apply acts_kept in Ha. split; [auto|]. by destruct Ha; split.
Qed.

Lemma on_complete_tasks e l p s :
  tasks (cross_ (on_complete entries sqpoll e l p s)) = tasks (cross_ s).
Proof.
  unfold on_complete. destruct (user_data e) as [| | |o]; cbn; [done| | |].
  - by rewrite rearm_watch_cross.
  - destruct (res e <? 0); [cbn; by rewrite rearm_timer_cross|].
    destruct (acts entries sqpoll l s) as [s'|] eqn:Ha; [|done]. cbn. rewrite rearm_timer_cross.
    by apply acts_kept in Ha as [].
  - unfold complete_op. destruct (ops s !! o) as [[[h|] r f]|]; [|done..].
    cbn. by case_decide.
Qed.

(** *** Every step keeps the promise *)

Lemma will_stop_grow w w' :
  pc w' = pc w → (∀ t, t ∈ tasks (cross_ w) → t ∈ tasks (cross_ w')) →
  (stopping_ (cross_ w) = true → stopping_ (cross_ w') = true) → will_stop w → will_stop w'.
Proof. unfold will_stop. intros -> Ht Hs. naive_solver. Qed.

Lemma will_stop_posted w :
  leaving (pc w) = false → over (pc w) = false → will_stop w → stop_task ∈ tasks (cross_ w).
Proof.
  intros Hl Ho [?|[(ts & Hp & _)|[[Hl' _]|Ho']]]; [done| |congruence..].
  by rewrite Hp in Hl.
Qed.

Lemma user_will_stop l p s :
  stop_task ∈ tasks (cross_ s) ∨ (leaving p = true ∧ stopping_ (cross_ s) = true) ∨
    (∃ ts, p = LTasks ts ∧ stop_task ∈ ts) →
  will_stop (user entries sqpoll l p s).
Proof.
  destruct (user_kept l p s) as [[Hp|Hp] [Ht Hs]]; intros Hcase; unfold will_stop.
  - rewrite Hp, Ht. naive_solver.
  - rewrite Hp. by do 3 right.
Qed.

Lemma task_will_stop l t ts w :
  pc w = LTasks (t :: ts) → allowed (EvTask l) w = true → will_stop w →
  will_stop (user entries sqpoll l (LTasks ts) w).
Proof.
  unfold allowed. intros Hp Hal Hw. rewrite Hp in Hal. apply bool_decide_eq_true in Hal.
  destruct Hw as [Hw|[(ts' & Hp' & Hin)|[[_ Hst]|Ho]]].
  - apply user_will_stop. by left.
  - rewrite Hp in Hp'. injection Hp' as <-. apply elem_of_cons in Hin as [Heq|Hin].
    + rewrite (Hal (eq_sym Heq)). unfold user. cbn.
      destruct (stop_local_kept w) as [_ Hst]. do 2 right. left. cbn. done.
    + apply user_will_stop. right. right. by exists ts.
  - apply user_will_stop. by right; left.
  - by rewrite Hp in Ho.
Qed.

Lemma ready_will_stop h rest l w :
  pc w = LReady → will_stop w → will_stop (resume entries sqpoll h rest l w).
Proof.
  intros Hp Hw. unfold resume. case_decide; [by apply (will_stop_grow w)|].
  apply user_will_stop. cbn. destruct Hw as [Hw|[(ts & Hp' & _)|[[_ Hst]|Ho]]].
  - by left.
  - by rewrite Hp in Hp'.
  - by right; left.
  - by rewrite Hp in Ho.
Qed.

Lemma outside_will_stop e w w' :
  outside e = true →
  exec entries sqpoll e w = Some w' → will_stop w → will_stop w'.
Proof.
  intros He Hex. assert (pc w' = pc w ∧ (∀ t, t ∈ tasks (cross_ w) → t ∈ tasks (cross_ w')) ∧
    (stopping_ (cross_ w) = true → stopping_ (cross_ w') = true)) as (? & ? & ?).
  2: by apply will_stop_grow.
  destruct e; try done; cbn [exec] in Hex.
  - destruct (pc w) eqn:Hp; try done. injection Hex as <-.
    split_and!; [done| |done]. intros u Hu. apply elem_of_app. by left.
  - by injection Hex as <-.
  - injection Hex as <-. split_and!; [done| |done]. intros u Hu. apply elem_of_app. by left.
  - injection Hex as <-. unfold stop_remote. by destruct (stopping_ (cross_ w)) eqn:?.
  - case_decide; [done|]. by injection Hex as <-.
  - unfold kernel in Hex. apply bind_Some in Hex as (x & _ & Hex).
    destruct x; [by injection Hex as <-| |by injection Hex as <-..].
    repeat case_match; try done; by injection Hex as <-.
  - case_decide; [done|]. by injection Hex as <-.
Qed.

Lemma exec_will_stop e w w' :
  allowed e w = true → exec entries sqpoll e w = Some w' → will_stop w → will_stop w'.
Proof.
  intros Hal Hex Hw.
  destruct e; try (by eapply outside_will_stop; [..|exact Hex|exact Hw]); cbn [exec] in Hex.
  - destruct (pc w) eqn:Hp; try done; [|unfold allowed in Hal; by rewrite Hp in Hal].
    injection Hex as <-. left. unfold enter. cbn. rewrite rearm_timer_cross, rearm_watch_cross.
    cbn. apply will_stop_posted; by rewrite ?Hp.
  - destruct (pc w) eqn:Hp; try done. apply will_stop_posted in Hw; [|by rewrite Hp..].
    injection Hex as <-. destruct (stopping_ (cross_ w)); [by do 3 right|].
    right. left. by exists (tasks (cross_ w)).
  - destruct (pc w) as [| |[|t ts]| | | | | | | |] eqn:Hp; try done. injection Hex as <-.
    by eapply task_will_stop.
  - destruct (pc w) as [| |[|t ts]| | | | | | | |] eqn:Hp; try done. injection Hex as <-.
    destruct Hw as [Hw|[(ts & Hp' & Hin)|[[_ Hst]|Ho]]]; [by left| | |by rewrite Hp in Ho].
    + rewrite Hp in Hp'. injection Hp' as <-. by apply not_elem_of_nil in Hin.
    + do 2 right. by left.
  - destruct (pc w) eqn:Hp; try done. destruct (ready_ w); [done|]. injection Hex as <-.
    by apply ready_will_stop.
  - destruct (pc w) eqn:Hp; try done. destruct (ready_ w); [|done]. injection Hex as <-.
    destruct (stopping_ (cross_ w)) eqn:Hst; [by do 3 right|].
    destruct Hw as [Hw|[(ts & Hp' & Hin)|[[_ Hst']|Ho]]]; [by left|congruence..|by rewrite Hp in Ho].
  - destruct (pc w) eqn:Hp; try done. apply will_stop_posted in Hw; [|by rewrite Hp..].
    injection Hex as <-. by left.
  - destruct (pc w) eqn:Hp; try done. apply will_stop_posted in Hw; [|by rewrite Hp..].
    repeat case_match; try done; injection Hex as <-; by left.
  - destruct (pc w) eqn:Hp; try done. apply will_stop_posted in Hw; [|by rewrite Hp..].
    injection Hex as <-. by left.
  - destruct (pc w) eqn:Hp; try done. apply will_stop_posted in Hw; [|by rewrite Hp..].
    destruct (_ <? _)%nat; [|done]. apply bind_Some in Hex as (x & _ & [= <-]).
    left. by rewrite on_complete_tasks.
  - destruct (pc w) eqn:Hp; try done. apply will_stop_posted in Hw; [|by rewrite Hp..].
    destruct (_ <? _)%nat; [done|]. injection Hex as <-. by left.
Qed.

(** *** The server *)

Lemma reachable_exec e w w' :
  reachable entries sqpoll w → exec entries sqpoll e w = Some w' → reachable entries sqpoll w'.
Proof. intros Hw He. eapply rtc_r; [exact Hw|]. by exists e. Qed.

(** The tasks that [start] queues do not stop a worker, and do not unstop one. *)
Lemma queue_tasks_kept idle w :
  pc (queue_tasks idle w) = pc w ∧ stopping_ (cross_ (queue_tasks idle w)) = stopping_ (cross_ w) ∧
  lost_watch (queue_tasks idle w) = lost_watch w ∧
  (stop_task ∈ tasks (cross_ (queue_tasks idle w)) ↔ stop_task ∈ tasks (cross_ w)).
Proof.
  unfold queue_tasks. destruct (0 <? idle); cbn; (do 3 (split; [done|]));
    rewrite !elem_of_app, ?list_elem_of_singleton; unfold stop_task, wheel_task, accept_task; naive_solver.
Qed.

Lemma queue_tasks_reachable idle w :
  pc w = LInit → reachable entries sqpoll w → reachable entries sqpoll (queue_tasks idle w).
Proof.
  intros Hp Hw. unfold queue_tasks. destruct (0 <? idle).
  - apply (reachable_exec (EvBoot accept_task) (queue_boot_task wheel_task w)); [|by cbn; rewrite ?Hp].
    apply (reachable_exec (EvBoot wheel_task) w); [done|by cbn; rewrite ?Hp].
  - apply (reachable_exec (EvBoot accept_task) w); [done|by cbn; rewrite ?Hp].
Qed.

Lemma queue_tasks_will_stop idle w : will_stop w → will_stop (queue_tasks idle w).
Proof.
  destruct (queue_tasks_kept idle w) as (Hp & Hs & _ & Ht). unfold will_stop. rewrite Hp, Hs, Ht. done.
Qed.

Lemma Forall_alter_at {A} (P : A → Prop) f i (l : list A) :
  Forall P l → (∀ x, l !! i = Some x → P x → P (f x)) → Forall P (alter f i l).
Proof.
  intros Hl Hf. apply Forall_lookup. intros j x Hx. rewrite Forall_lookup in Hl.
  rewrite list_lookup_alter in Hx. case_decide as Hij; [|eauto]. subst j.
  destruct (l !! i) as [y|] eqn:Hy; [|done]. injection Hx as <-. eauto.
Qed.

(** The workers are machines of [Scheduler.v]; every one of them will stop. *)
Definition sound (sv : server) : Prop := Forall (reachable entries sqpoll) (pool_ sv).
Definition stopping (sv : server) : Prop := Forall will_stop (pool_ sv).

Lemma server_exec_sound e sv sv' : sound sv → server_exec e sv = Some sv' → sound sv'.
Proof.
  intros Hr. unfold sound in *. destruct e as [|n|i idle| | |i e]; cbn [server_exec].
  - destruct (pool_ sv) eqn:Hp; [|done]. intros [= <-]. cbn. by rewrite Hp.
  - destruct (pool_ sv); [|done]. intros [= <-]. apply Forall_replicate, rtc_refl.
  - intros (w & Hw & Hex)%bind_Some. destruct (pc w) eqn:Hp; try done. injection Hex as <-.
    apply Forall_alter_at; [done|]. intros x Hx Hrx. apply queue_tasks_reachable; congruence.
  - intros [= <-]. unfold stop. destruct (negb _); [done|]. apply Forall_fmap.
    eapply Forall_impl; [exact Hr|]. intros w Hw. by apply (reachable_exec (EvPostTask stop_task) w).
  - intros [= <-]. apply Forall_fmap. eapply Forall_impl; [exact Hr|]. intros w Hw.
    by apply (reachable_exec EvStop w).
  - intros (w & Hw & Hex)%bind_Some. destruct (allowed e w) eqn:Hal; [|done].
    apply bind_Some in Hex as (w' & Hex & [= <-]). apply Forall_insert; [done|].
    rewrite Forall_lookup in Hr. eapply reachable_exec; eauto.
Qed.

(** A [stop] that finds the workers there reaches all of them. *)
Lemma stop_stops sv : running_ sv = true → stopping (stop sv).
Proof.
  intros Hrun. unfold stopping, stop. rewrite Hrun. apply Forall_fmap, Forall_true. intros w. left.
  cbn. apply elem_of_app. right. by left.
Qed.

(** Workers that will stop still do after any step that does not construct them anew. *)
Lemma server_exec_stopping e sv sv' :
  pool_ sv ≠ [] ∨ ¬ (∃ n, e = SvPool n) → stopping sv → server_exec e sv = Some sv' →
  stopping sv' ∧ length (pool_ sv') = length (pool_ sv).
Proof.
  intros Hne Hs. unfold stopping in *. destruct e as [|n|i idle| | |i e]; cbn [server_exec].
  - destruct (pool_ sv) eqn:Hp; [|done]. intros [= <-]. cbn. by rewrite Hp.
  - destruct (pool_ sv); [|done]. destruct Hne as [?|Hn]; [done|]. by destruct Hn; exists n.
  - intros (w & Hw & Hex)%bind_Some. destruct (pc w); try done. injection Hex as <-. cbn. split.
    + apply Forall_alter_at; [done|]. intros x _. apply queue_tasks_will_stop.
    + apply length_alter.
  - intros [= <-]. unfold stop. destruct (running_ sv) eqn:Hrun; [|done]. split; [|apply length_fmap].
    pose proof (stop_stops sv Hrun) as Hst. unfold stopping, stop in Hst. by rewrite Hrun in Hst.
  - intros [= <-]. split; [|apply length_fmap]. apply Forall_fmap. eapply Forall_impl; [exact Hs|]. intros w Hw.
    by apply (outside_will_stop EvStop w).
  - intros (w & Hw & Hex)%bind_Some. destruct (allowed e w) eqn:Hal; [|done].
    apply bind_Some in Hex as (w' & Hex & [= <-]). split; [|apply length_insert].
    apply Forall_insert; [done|]. rewrite Forall_lookup in Hs. eapply exec_will_stop; eauto.
Qed.

Lemma stopping_stays sv sv' :
  pool_ sv ≠ [] → stopping sv → rtc server_step sv sv' → stopping sv'.
Proof.
  intros Hne Hs Hd. induction Hd as [|sv sv1 sv' [e He] _ IH]; [done|].
  destruct (server_exec_stopping e sv sv1 (or_introl Hne) Hs He) as [Hs1 Hlen].
  apply IH; [|done]. intros Hnil. rewrite Hnil in Hlen. by destruct (pool_ sv).
Qed.

(** A server that is started without a [stop] in between. *)
Record server_inv (sv : server) : Prop := {
  v_reachable : sound sv;
  v_stop : running_ sv = false → stopping sv;
}.

Lemma server_exec_inv e sv sv' :
  running_ sv = true ∨ ¬ (∃ n, e = SvPool n) →
  server_inv sv → server_exec e sv = Some sv' → server_inv sv'.
Proof.
  intros Hrun [Hr Hs] Hex. split; [by eapply server_exec_sound|]. intros Hoff.
  assert (running_ sv = false ∨ e = SvStop ∧ running_ sv = true) as [Hno|[-> Hyes]].
  { destruct (running_ sv) eqn:Hr'; [right|by left].
    destruct e as [|n|i idle| | |i e]; cbn [server_exec] in Hex; [..|done| |].
    - destruct (pool_ sv); [|done]. by injection Hex as <-.
    - destruct (pool_ sv); [|done]. injection Hex as <-. cbn in Hoff. congruence.
    - apply bind_Some in Hex as (w & _ & Hex). destruct (pc w); try done. injection Hex as <-. cbn in Hoff. congruence.
    - injection Hex as <-. cbn in Hoff. congruence.
    - apply bind_Some in Hex as (w & _ & Hex). destruct (allowed e w); [|done].
      apply bind_Some in Hex as (w' & _ & [= <-]). cbn in Hoff. congruence. }
  - eapply (server_exec_stopping e sv); [|by apply Hs|done]. right. destruct Hrun; [congruence|done].
  - injection Hex as <-. by apply stop_stops.
Qed.

Lemma server_reachable_sound sv : server_reachable sv → sound sv.
Proof.
  apply rtc_invariant; [|by constructor]. intros s1 s2 Hs [e He]. by eapply server_exec_sound.
Qed.

Lemma server_run_steps es : ∀ s s', server_run es s = Some s' → rtc server_step s s'.
Proof.
  induction es as [|e es IH]; intros s s'; cbn [server_run]; [by intros [= ->]|].
  intros (s1 & He & Hr)%bind_Some. eapply rtc_l; [by exists e|by apply IH].
Qed.

Lemma server_run_reachable es sv : server_run es new_server = Some sv → server_reachable sv.
Proof. apply server_run_steps. Qed.

(** *** Leaving [run] *)

(** The steps of the thread itself. *)
Definition own (e : event) : bool :=
  match e with
  | EvTop | EvTask _ | EvTasksDone | EvResume _ | EvReadyDone | EvSubmit | EvReturn _ | EvPeek
  | EvCqe _ | EvAdvance => true
  | _ => false
  end.

(** Steps left, beside one for every coroutine that is ready. *)
Definition steps_left (p : point) : nat :=
  match p with LTasks ts => length ts + 2 | LReady => 1 | _ => 0 end.
Definition stops_soon (w : Scheduler) : Prop :=
  leaving (pc w) = true ∧
  (stopping_ (cross_ w) = true ∨ ∃ ts, pc w = LTasks ts ∧ stop_task ∈ ts).

(** The coroutines that user code makes ready. *)
Definition posted_by (a : action) : list handle := match a with APost h => [h] | _ => [] end.
Definition posts (e : event) : nat :=
  match e with EvTask l | EvResume l => length (l ≫= posted_by) | _ => 0 end.

Lemma act_ready a s s' : act entries sqpoll a s = Some s' → ready_ s' = ready_ s ++ posted_by a.
Proof.
  destruct a as [h|o h| |h]; cbn [act posted_by]; rewrite ?app_nil_r.
  - by intros [= <-].
  - intros (s1 & Hs & [= <-])%bind_Some. cbn. unfold get_sqe in Hs. case_match; [|done].
    by injection Hs as <-.
  - intros [= <-]. unfold stop_local, get_sqe. repeat case_match; by simplify_eq/=.
  - by intros [= <-].
Qed.

Lemma acts_ready l s s' : acts entries sqpoll l s = Some s' → ready_ s' = ready_ s ++ (l ≫= posted_by).
Proof.
  revert s. induction l as [|a l IH]; intros s; cbn [acts].
  { intros [= <-]. by rewrite app_nil_r. }
  intros (s1 & Ha%act_ready & Hl%IH)%bind_Some. by rewrite Hl, Ha, <-app_assoc.
Qed.

Lemma user_ready l p s :
  pc (user entries sqpoll l p s) = LUB ∨
  (pc (user entries sqpoll l p s) = p ∧ ready_ (user entries sqpoll l p s) = ready_ s ++ (l ≫= posted_by)).
Proof.
  unfold user. destruct (acts entries sqpoll l s) as [s'|] eqn:Ha; [|by left]. right. split; [done|].
  exact (acts_ready _ _ _ Ha).
Qed.

Lemma task_stops l t ts w :
  pc w = LTasks (t :: ts) → allowed (EvTask l) w = true → stops_soon w →
  stopping_ (cross_ (user entries sqpoll l (LTasks ts) w)) = true ∨ stop_task ∈ ts.
Proof.
  unfold allowed. intros Hp Hal [_ Hst]. rewrite Hp in Hal. apply bool_decide_eq_true in Hal.
  destruct (user_kept l (LTasks ts) w) as [_ [_ Hk]].
  destruct Hst as [Hst|(ts' & Hp' & Hin)]; [by left; apply Hk|].
  rewrite Hp in Hp'. injection Hp' as <-. apply elem_of_cons in Hin as [Heq|?]; [|by right].
  left. rewrite (Hal (eq_sym Heq)). apply (stop_local_kept w).
Qed.

Lemma own_step_leaves e w w' :
  own e = true → allowed e w = true → stops_soon w → exec entries sqpoll e w = Some w' →
  over (pc w') = true ∨
  (stops_soon w' ∧
   (S (steps_left (pc w') + length (ready_ w')) ≤
    steps_left (pc w) + length (ready_ w) + posts e)%nat).
Proof.
  intros Ho Hal Hs Hex. pose proof Hs as [Hl Hst].
  destruct e; try done; cbn [exec] in Hex; destruct (pc w) as [| |[|t ts]| | | | | | | |] eqn:Hp;
    try done.
  - injection Hex as <-. pose proof (task_stops l t ts w Hp Hal Hs) as Hsoon.
    destruct (user_ready l (LTasks ts) w) as [Hub|[Hp' Hr]]; [left; by rewrite Hub|].
    right. split.
    + split; [by rewrite Hp'|]. destruct Hsoon; [by left|]. right. by exists ts.
    + rewrite Hp', Hr, length_app. cbn [posts steps_left length]. lia.
  - injection Hex as <-. right. split.
    + split; [done|]. left. destruct Hst as [?|(ts & [= <-] & Hin)]; [done|].
      by apply not_elem_of_nil in Hin.
    + cbn. lia.
  - destruct Hst as [Hst|(ts & ? & _)]; [|done].
    destruct (ready_ w) as [|h rest] eqn:Hr; [done|]. injection Hex as <-. unfold resume.
    case_decide.
    + right. split; [by split; [rewrite <-Hp in Hl|left]|]. cbn. rewrite Hp. cbn. lia.
    + match goal with |- context [user entries sqpoll l LReady ?x] => set (s1 := x) end.
      destruct (user_ready l LReady s1) as [Hub|[Hp' Hr']]; [left; by rewrite Hub|].
      right. destruct (user_kept l LReady s1) as [_ [_ Hkept]]. split.
      * split; [by rewrite Hp'|]. left. by apply Hkept.
      * rewrite Hp', Hr', length_app. cbn [posts steps_left length ready_ s1]. lia.
  - destruct Hst as [Hst|(ts & ? & _)]; [|done]. destruct (ready_ w); [|done].
    injection Hex as <-. rewrite Hst. by left.
Qed.

(** The next step, with user code that makes no coroutine ready. *)
Lemma stops_soon_quietly w :
  stops_soon w → ∃ e w', own e = true ∧ allowed e w = true ∧ exec entries sqpoll e w = Some w' ∧
    posts e = 0%nat ∧ (leaving (pc w') = true ∨ pc w' = LExit).
Proof.
  intros [Hl Hst]. destruct (pc w) as [| |[|t ts]| | | | | | | |] eqn:Hp; try done.
  - eexists EvTasksDone, _. cbn [exec allowed]. rewrite Hp. split_and!; [done..|by left].
  - exists (EvTask (if decide (t = stop_task) then [AStop] else [])).
    eexists. cbn [exec allowed]. rewrite Hp. split_and!; [done| |done|by case_decide|].
    + apply bool_decide_eq_true. intros ->. by rewrite decide_True.
    + left. unfold user. by case_decide.
  - destruct (ready_ w) eqn:Hr.
    + eexists EvReadyDone, _. cbn [exec allowed]. rewrite Hp, Hr. split_and!; [done..|].
      right. destruct Hst as [->|(? & ? & _)]; done.
    + eexists (EvResume []), _. cbn [exec allowed]. rewrite Hp, Hr. split_and!; [done..|].
      left. unfold resume, user. cbn. case_decide; [cbn; by rewrite Hp|done].
Qed.

(** A run of the thread's own steps. *)
Fixpoint own_run (es : list event) (w : Scheduler) : option Scheduler :=
  match es with
  | [] => Some w
  | e :: es =>
      if own e && allowed e w then w ← exec entries sqpoll e w; own_run es w else None
  end.
(** The coroutines that become ready during it. *)
Definition posting (es : list event) : nat := sum_list (posts <$> es).

Lemma own_run_cons e es w w' :
  own_run (e :: es) w = Some w' ↔
  own e = true ∧ allowed e w = true ∧ ∃ w1, exec entries sqpoll e w = Some w1 ∧ own_run es w1 = Some w'.
Proof.
  cbn [own_run]. destruct (own e), (allowed e w); cbn [andb]; rewrite ?bind_Some; naive_solver.
Qed.

Lemma over_own_run es w w' : over (pc w) = true → own_run es w = Some w' → es = [].
Proof.
  destruct es as [|e es]; [done|]. intros Ho (He & _ & w1 & Hex & _)%own_run_cons. exfalso.
  destruct e; try done; cbn [exec] in Hex; by destruct (pc w).
Qed.

Lemma own_run_leaves es w w' :
  stops_soon w → own_run es w = Some w' →
  (over (pc w') = true ∨ stops_soon w') ∧
  (length es ≤ steps_left (pc w) + length (ready_ w) + posting es)%nat.
Proof.
  revert w. induction es as [|e es IH]; intros w Hw Hrun.
  { injection Hrun as <-. split; [by right|cbn; lia]. }
  apply own_run_cons in Hrun as (Ho & Hal & w1 & Hex & Hrun).
  change (posting (e :: es)) with (posts e + posting es)%nat. cbn [length].
  destruct (own_step_leaves e w w1 Ho Hal Hw Hex) as [Hover|[Hs Hle]].
  - rewrite (over_own_run es w1 w' Hover Hrun) in Hrun |- *. injection Hrun as <-. split; [by left|].
    cbn. destruct Hw as [Hl _]. destruct (pc w); try done; cbn; lia.
  - destruct (IH w1 Hs Hrun) as [Hout Hn]. split; [done|lia].
Qed.

Lemma stops_soon_exits n : ∀ w,
  stops_soon w → (steps_left (pc w) + length (ready_ w) ≤ n)%nat →
  ∃ es w', own_run es w = Some w' ∧ pc w' = LExit ∧ posting es = 0%nat.
Proof.
  induction n as [|n IH]; intros w Hw Hn.
  { destruct Hw as [Hl _]. destruct (pc w); try done; cbn in Hn; lia. }
  destruct (stops_soon_quietly w Hw) as (e & w1 & Ho & Hal & Hex & Hq & Hp).
  assert (∃ es w', own_run es w1 = Some w' ∧ pc w' = LExit ∧ posting es = 0%nat)
    as (es & w' & Hr & ? & Hz).
  { destruct (own_step_leaves e w w1 Ho Hal Hw Hex) as [Hover|[Hs Hle]]; [|apply IH; [done|lia]].
    exists [], w1. split_and!; [done| |done]. destruct Hp as [Hp|?]; [|done]. by destruct (pc w1). }
  exists (e :: es), w'. split_and!; [|done|].
  - apply own_run_cons. eauto.
  - change (posts e + posting es = 0)%nat. lia.
Qed.

(** A coroutine that makes itself ready again keeps its thread in the inner loop of
    [run], stopped or not. *)
Lemma reposting_worker_stays n h w :
  pc w = LReady → ready_ w = [h] → h ∉ final w →
  ∃ w', own_run (replicate n (EvResume [APost h])) w = Some w' ∧ pc w' = LReady ∧ ready_ w' = [h].
Proof.
  revert w. induction n as [|n IH]; intros w Hp Hr Hf; [by exists w|].
  set (w1 := mkSched LReady [h] (cross_ w) (ring_ w) (ops w) (final w) (lost_watch w)
    (pushed w ++ [h]) (popped w ++ [h]) (remote w) (drained w)).
  destruct (IH w1) as (w' & Hrun & ? & ?); [done..|]. exists w'. split; [|done].
  cbn [replicate]. apply own_run_cons. split_and!; [done|done|]. exists w1. split; [|done].
  cbn [exec]. rewrite Hp, Hr. unfold resume. rewrite decide_False by done. done.
Qed.

(** ** Properties *)

(** C12: A [TcpServer::stop] that finds the server running and its workers constructed is
    not lost, even if they have not entered [run] yet and [start] is still queueing their
    tasks: at every later moment every worker still has the stop task queued (and if it
    is blocked, a wake-up is under way), or is about to run it, or has run it and cannot
    block any more, or has left [run].  (One that comes before the workers exist is lost:
    [signal_during_start_is_lost].) *)
Theorem server_stop_reaches_workers sv sv' w :
  server_reachable sv → running_ sv = true → pool_ sv ≠ [] →
  rtc server_step (stop sv) sv' → w ∈ pool_ sv' →
  (stop_task ∈ tasks (cross_ w) ∧
     (pc w = LWait → lost_watch w = false →
      (0 < writers (cross_ w))%nat ∨ cq (ring_ w) ≠ [] ∨
      (0 < efd (cross_ w) ∧ SWatch ∈ inflight (ring_ w)))) ∨
  (∃ ts, pc w = LTasks ts ∧ stop_task ∈ ts) ∨
  (leaving (pc w) = true ∧ stopping_ (cross_ w) = true) ∨
  over (pc w) = true.
Proof.
  intros Hsv Hrun Hne Hd Hw.
  assert (Hs : stopping sv').
  { eapply stopping_stays; [|by apply stop_stops|done]. unfold stop. rewrite Hrun.
    cbn. by destruct (pool_ sv). }
  assert (Hr : server_reachable sv').
  { unfold server_reachable in *. etrans; [exact Hsv|]. eapply rtc_l; [by exists SvStop|done]. }
  apply server_reachable_sound in Hr. unfold sound, stopping in *. rewrite Forall_forall in Hr, Hs.
  specialize (Hr w Hw). destruct (Hs w Hw) as [Ht|Hrest]; [left|by right].
  split; [done|]. intros Hp Hl. apply reachable_inv in Hr.
  apply blocked_signalled; [done..|]. right. left. intros Hnil.
  rewrite Hnil in Ht. by apply not_elem_of_nil in Ht.
Qed.

(** C31: A worker that has drained the stop task never blocks again: its thread makes at
    most one step per task drained and per coroutine that is ready or that the code it
    runs makes ready meanwhile, and two more; until it is out of [run] there is always a
    step to make; and it leaves [run] if its coroutines make none ready.  (Only
    coroutines that go on making others, or themselves, ready for ever keep it there:
    [reposting_worker_stays].) *)
Theorem stopping_worker_exits w :
  stops_soon w →
  (∀ es w', own_run es w = Some w' →
    (length es ≤ steps_left (pc w) + length (ready_ w) + posting es)%nat ∧
    (over (pc w') = true ∨
     ∃ e w'', own e = true ∧ allowed e w' = true ∧ exec entries sqpoll e w' = Some w'')) ∧
  (∃ es w', own_run es w = Some w' ∧ pc w' = LExit ∧ posting es = 0%nat).
Proof.
  intros Hw. split; [|by eapply stops_soon_exits]. intros es w' Hrun.
  destruct (own_run_leaves es w w' Hw Hrun) as [[?|Hs] Hn]; (split; [done|]); [by left|right].
  destruct (stops_soon_quietly w' Hs) as (e & w'' & ? & ? & ? & _). by exists e, w''.
Qed.
End lifecycle.

(** ** Witnesses *)

Module Demo.
(** Two workers, stopped before the first one enters [run] and while the second
    one is blocked. *)
Definition before : list server_event :=
  [SvMark; SvPool 2; SvQueue 0 60; SvQueue 1 60] ++
  (SvWorker 1 <$> [EvRun; EvTop; EvTask []; EvTask []; EvTasksDone; EvReadyDone; EvSubmit]).
Definition running : server := default new_server (server_run 8 false before new_server).
Definition stopped : server := stop running.
(** The second worker wakes up and drains its tasks. *)
Definition woken : list server_event :=
  SvWorker 1 <$> [EvWrite; EvKernel 0 8 0; EvReturn 1; EvPeek; EvCqe []; EvAdvance; EvTop].
Definition draining : server :=
  default new_server (server_run 8 false woken stopped).
Definition worker : Scheduler := default new_scheduler (pool_ draining !! 1%nat).

Lemma server_running_reachable : server_reachable 8 false running.
Proof. apply (server_run_reachable 8 false before). vm_compute. reflexivity. Qed.
Lemma draining_after : rtc (server_step 8 false) stopped draining.
Proof. apply (server_run_steps 8 false woken). vm_compute. reflexivity. Qed.
Lemma draining_worker : stops_soon worker.
Proof. split; [reflexivity|]. right. exists [stop_task]. split; [reflexivity|by left]. Qed.
End Demo.

Lemma server_stop_reaches_workers_witness :
  let w := Demo.worker in
  pc w = LTasks [stop_task] ∧
  ((stop_task ∈ tasks (cross_ w) ∧
     (pc w = LWait → lost_watch w = false →
      (0 < writers (cross_ w))%nat ∨ cq (ring_ w) ≠ [] ∨
      (0 < efd (cross_ w) ∧ SWatch ∈ inflight (ring_ w)))) ∨
   (∃ ts, pc w = LTasks ts ∧ stop_task ∈ ts) ∨
   (leaving (pc w) = true ∧ stopping_ (cross_ w) = true) ∨
   over (pc w) = true).
Proof.
  split; [vm_compute; reflexivity|].
  apply (server_stop_reaches_workers 8 false Demo.running Demo.draining).
  - exact Demo.server_running_reachable.
  - vm_compute. reflexivity.
  - vm_compute. discriminate.
  - exact Demo.draining_after.
  - vm_compute. right. by left.
Defined.

Lemma stopping_worker_exits_witness :
  (∀ es w', own_run 8 false es Demo.worker = Some w' →
    (length es ≤ 3 + posting es)%nat ∧
    (over (pc w') = true ∨
     ∃ e w'', own e = true ∧ allowed e w' = true ∧ exec 8 false e w' = Some w'')) ∧
  (∃ es w', own_run 8 false es Demo.worker = Some w' ∧ pc w' = LExit ∧ posting es = 0%nat).
Proof. exact (stopping_worker_exits 8 false Demo.worker Demo.draining_worker). Defined.
