(* ===== verification/Teardown.v ===== *)
(** * Teardown: waiting for a server and destroying it

    Models [TcpServer::wait] and [~TcpServer] ([src/net/tcp_server.cc]) with
    [SchedulerPool::wait] and [~SchedulerPool] ([src/scheduler/scheduler_pool.cc])
    over the servers of [Lifecycle.v].  The destructor's body and the destruction of
    the members, in the reverse order of [include/coro_net/tcp_server.hpp]
    ([wheels_] before [pool_]), are separate steps, between which the threads of
    the workers go on.

    [start] is one step of the owner here, made of the steps of [Lifecycle.v]: nothing
    stops a server that its owner is still starting.  [Signals.v] interleaves a signal
    handler with them. *)
From S2P Require Import Prelude Scheduler Lifecycle.

(** Where the owner is: still using the server, or in the destructor. *)
Inductive teardown : Type :=
  | TAlive
  | TStop                 (* [running_] was set, about to call [stop] *)
  | TJoin                 (* in [wait], joining *)
  | TClose                (* about to close [listen_fds_] *)
  | TWheels               (* about to destroy [wheels_] *)
  | TPool                 (* about to destroy [pool_] *)
  | TPoolJoin             (* in the [wait] of [~SchedulerPool] *)
  | TFreed.

#[export] Instance teardown_eq_dec : EqDecision teardown.
Proof. solve_decision. Defined.

Section teardown.
Context (entries : nat) (sqpoll : bool).

Record owned := mkOwned {
  sv : server;
  started_ : bool;        (* of [SchedulerPool]: threads not joined yet *)
  wheels_ : bool;         (* not destroyed yet *)
  phase : teardown;
  asked : bool;           (* history: the destructor found [running_] set, or no thread *)
}.

Definition new_owned : owned := mkOwned new_server false true TAlive false.

(** [join] of every thread returns once each worker has returned from [run]. *)
Definition exited (w : Scheduler) : bool := match pc w with LExit => true | _ => false end.
Definition joinable (o : owned) : bool := started_ o && negb (forallb exited (pool_ (sv o))).
(** [SchedulerPool::wait]. *)
Definition wait (p : teardown) (o : owned) : option owned :=
  if joinable o then None else Some (mkOwned (sv o) false (wheels_ o) p (asked o)).

Definition set_phase (p : teardown) (o : owned) : owned :=
  mkOwned (sv o) (started_ o) (wheels_ o) p (asked o).
Definition set_sv (s : server) (o : owned) : owned :=
  mkOwned s (started_ o) (wheels_ o) (phase o) (asked o).

(** The call of [~TcpServer]: its first test. *)
Definition destroy (o : owned) : owned :=
  mkOwned (sv o) (started_ o) (wheels_ o) (if running_ (sv o) then TStop else TClose)
    (running_ (sv o) || negb (started_ o)).

(** [~SchedulerPool]: it waits only for threads that nobody has waited for. *)
Definition destroy_pool (o : owned) : owned :=
  if started_ o then set_phase TPoolJoin (set_sv (stop_all (sv o)) o) else set_phase TFreed o.

(** The next step of the destructor. *)
Definition destroy_step (o : owned) : option owned :=
  match phase o with
  | TStop => Some (set_phase TJoin (set_sv (stop (sv o)) o))
  | TJoin => wait TClose o
  | TClose => Some (set_phase TWheels o)
  | TWheels => Some (mkOwned (sv o) (started_ o) false TPool (asked o))
  | TPool => Some (destroy_pool o)
  | TPoolJoin => wait TFreed o
  | TAlive | TFreed => None
  end.

(** [TcpServer::start]. *)
Definition start (n : nat) (idle : Z) (s : server) : option server :=
  server_run entries sqpoll (SvMark :: SvPool n :: ((λ i, SvQueue i idle) <$> seq 0 n)) s.

Inductive owned_event : Type :=
  | TdStart (n : nat) (idle : Z)
  | TdStop
  | TdWait
  | TdDestroy
  | TdStep
  | TdWorker (i : nat) (e : event).

Definition alive (o : owned) : bool := bool_decide (phase o = TAlive).

(** The members are not called once the destructor has been; the threads run on. *)
Definition owned_exec (e : owned_event) (o : owned) : option owned :=
  match e with
  | TdStart n idle =>
      if alive o then
        s ← start n idle (sv o);
        Some (mkOwned s true (wheels_ o) (phase o) (asked o))
      else None
  | TdStop => if alive o then Some (set_sv (stop (sv o)) o) else None
  | TdWait => if alive o then wait TAlive o else None
  | TdDestroy => if alive o then Some (destroy o) else None
  | TdStep => destroy_step o
  | TdWorker i e =>
      s ← server_exec entries sqpoll (SvWorker i e) (sv o); Some (set_sv s o)
  end.

Definition owned_step (o o' : owned) : Prop := ∃ e, owned_exec e o = Some o'.
Definition owned_reachable (o : owned) : Prop := rtc owned_step new_owned o.

Fixpoint owned_run (es : list owned_event) (o : owned) : option owned :=
  match es with
  | [] => Some o
  | e :: es => o ← owned_exec e o; owned_run es o
  end.

(** ** Invariant *)

(** Phases that follow the [wait] of a destructor that was asked to wait. *)
Definition past_wait (p : teardown) : bool :=
  match p with TAlive | TStop | TJoin => false | _ => true end.
Definition past_wheels (p : teardown) : bool :=
  match p with TPool | TPoolJoin | TFreed => true | _ => false end.

Record owned_inv (o : owned) : Prop := {
  w_server : server_inv entries sqpoll (sv o);
  w_joined : started_ o = false → Forall (λ w, pc w = LExit) (pool_ (sv o));
  w_wait : asked o = true → past_wait (phase o) = true → started_ o = false;
  w_wheels : wheels_ o = false → past_wheels (phase o) = true;
  w_freed : phase o = TFreed → started_ o = false;
  w_running : phase o ≠ TAlive → phase o ≠ TStop → running_ (sv o) = false;
}.

Lemma new_owned_inv : owned_inv new_owned.
Proof. split; try done. split; constructor. Qed.

(** A worker that has left [run] stays out of it. *)
Lemma exit_stays e w w' :
  allowed e w = true → exec entries sqpoll e w = Some w' → pc w = LExit → pc w' = LExit.
Proof.
  intros Hal Hex Hp. unfold allowed in Hal.
  destruct e; cbn [exec] in Hex; rewrite ?Hp in Hex; rewrite ?Hp in Hal; try done;
    try (by injection Hex as <-).
  - injection Hex as <-. unfold stop_remote. by case_match.
  - case_decide; [done|]. by injection Hex as <-.
  - unfold kernel in Hex. apply bind_Some in Hex as (x & _ & Hex).
    repeat case_match; try done; by injection Hex as <-.
  - case_decide; [done|]. by injection Hex as <-.
Qed.

Lemma forallb_exited l : forallb exited l = true → Forall (λ w, pc w = LExit) l.
Proof.
  intros Hl. apply Forall_forall. intros w Hw%list_elem_of_In.
  rewrite forallb_forall in Hl. specialize (Hl w Hw). unfold exited in Hl. by destruct (pc w).
Qed.

Lemma wait_joined p o o' :
  owned_inv o → wait p o = Some o' →
  o' = mkOwned (sv o) false (wheels_ o) p (asked o) ∧
  Forall (λ w, pc w = LExit) (pool_ (sv o)).
Proof.
  intros Ho. unfold wait, joinable. destruct (started_ o) eqn:Hst; cbn [andb].
  - destruct (forallb exited _) eqn:Hf; [|done]. intros [= <-]. split; [done|].
    by apply forallb_exited.
  - intros [= <-]. split; [done|]. by apply (w_joined _ Ho).
Qed.

Lemma stop_keeps_exit s :
  Forall (λ w, pc w = LExit) (pool_ s) → Forall (λ w, pc w = LExit) (pool_ (stop s)).
Proof. unfold stop. case_match; [done|]. intros Hs. cbn. by apply Forall_fmap. Qed.

Lemma stop_not_running s : running_ (stop s) = false.
Proof. unfold stop. by destruct (running_ s) eqn:Hr; cbn. Qed.

Lemma set_sv_inv s o :
  owned_inv o → server_inv entries sqpoll s →
  (started_ o = false → Forall (λ w, pc w = LExit) (pool_ s)) →
  (running_ (sv o) = false → running_ s = false) → owned_inv (set_sv s o).
Proof. intros [??????] Hs Hj Hr. split; cbn; auto. Qed.

Lemma destroy_step_inv o o' : owned_inv o → destroy_step o = Some o' → owned_inv o'.
Proof.
  intros Ho. pose proof Ho as [Hs Hj Hw Hh Hf Hr]. unfold destroy_step.
  destruct (phase o) eqn:Hp; try done.
  - intros [= <-]. split; cbn; try done.
    + eapply (server_exec_inv entries sqpoll SvStop); [|done..]. right. by intros (? & [=]).
    + intros ?%Hj. by apply stop_keeps_exit.
    + intros _ _. apply stop_not_running.
  - intros (-> & Hall)%wait_joined; [|done]. split; cbn; auto; done.
  - intros [= <-]. split; cbn; auto; done.
  - intros [= <-]. split; cbn; auto; done.
  - intros [= <-]. unfold destroy_pool. destruct (started_ o) eqn:Hst; split; cbn; rewrite ?Hst; auto; try done.
    eapply (server_exec_inv entries sqpoll SvStopAll); [|done..]. right. by intros (? & [=]).
  - intros (-> & Hall)%wait_joined; [|done]. split; cbn; auto; done.
Qed.

Lemma queue_run_inv idle l : ∀ s s',
  server_inv entries sqpoll s → server_run entries sqpoll ((λ i, SvQueue i idle) <$> l) s = Some s' →
  server_inv entries sqpoll s'.
Proof.
  induction l as [|i l IH]; intros s s' Hs; [by intros [= <-]|].
  cbn [fmap list_fmap server_run]. intros (s1 & He & Hr)%bind_Some. eapply IH; [|exact Hr].
  eapply server_exec_inv; [|exact Hs|exact He]. right. by intros (? & [=]).
Qed.

Lemma start_server_inv n idle s s' :
  server_inv entries sqpoll s → start n idle s = Some s' → server_inv entries sqpoll s'.
Proof.
  intros Hs (s1 & Hm & (s2 & Hp & Hr)%bind_Some)%bind_Some.
  assert (Hrun : running_ s1 = true).
  { cbn in Hm. destruct (pool_ s); [|done]. by injection Hm as <-. }
  eapply queue_run_inv; [|exact Hr]. eapply server_exec_inv; [by left| |exact Hp].
  eapply server_exec_inv; [|exact Hs|exact Hm]. right. by intros (? & [=]).
Qed.

Lemma owned_exec_inv e o o' : owned_inv o → owned_exec e o = Some o' → owned_inv o'.
Proof.
  intros Ho. destruct e as [n idle| | | | |i e]; cbn [owned_exec].
  - destruct (alive o) eqn:Ha; [|done]. apply bool_decide_eq_true in Ha.
    intros (s & Hs & [= <-])%bind_Some. destruct Ho as [Hsv Hj Hw Hh Hf Hr].
    split; cbn; rewrite ?Ha in *; auto; try done.
    by eapply start_server_inv.
  - destruct (alive o) eqn:Ha; [|done]. intros [= <-]. apply set_sv_inv; [done| | |].
    + eapply (server_exec_inv entries sqpoll SvStop); [|apply Ho|done]. right. by intros (? & [=]).
    + intros Hst. apply stop_keeps_exit. by apply (w_joined _ Ho).
    + intros _. apply stop_not_running.
  - destruct (alive o) eqn:Ha; [|done]. apply bool_decide_eq_true in Ha.
    intros (-> & Hall)%wait_joined; [|done]. destruct Ho as [Hsv Hj Hw Hh Hf Hr].
    split; cbn; rewrite ?Ha in *; auto; done.
  - destruct (alive o) eqn:Ha; [|done]. apply bool_decide_eq_true in Ha.
    intros [= <-]. destruct Ho as [Hsv Hj Hw Hh Hf Hr]. rewrite Ha in *.
    split; cbn; destruct (running_ (sv o)) eqn:Hrun; cbn; auto; try done.
    intros Hst _. by apply negb_true_iff.
  - by apply destroy_step_inv.
  - intros (s & Hs & [= <-])%bind_Some. pose proof Hs as Hex. cbn [server_exec] in Hex.
    apply bind_Some in Hex as (w & Hi & Hex). destruct (allowed e w) eqn:Hal; [|done].
    apply bind_Some in Hex as (w' & Hex & [= Heq]). apply set_sv_inv; [done| | |].
    + eapply server_exec_inv; [|apply Ho|exact Hs]. right. by intros (? & [=]).
    + intros Hst. rewrite <-Heq. cbn. pose proof (w_joined _ Ho Hst) as Hall.
      apply Forall_insert; [done|]. eapply exit_stays; [exact Hal|exact Hex|].
      by eapply Forall_lookup_1 in Hall.
    + by rewrite <-Heq.
Qed.

Lemma owned_reachable_inv o : owned_reachable o → owned_inv o.
Proof.
  apply rtc_invariant; [|apply new_owned_inv]. intros o1 o2 Ho [e He]. by eapply owned_exec_inv.
Qed.

Lemma owned_run_reachable es o : owned_run es new_owned = Some o → owned_reachable o.
Proof.
  unfold owned_reachable. generalize new_owned.
  induction es as [|e es IH]; intros o0; cbn [owned_run]; [by intros [= ->]|].
  intros (o1 & He & Hrun)%bind_Some. eapply rtc_l; [by exists e|by apply IH].
Qed.

(** ** Properties *)

(** C13: The order of teardown.  If the destructor found the server running, or
    [wait] had returned before, the idle wheels are destroyed only after every worker
    has left [run]; the schedulers themselves are in any case; and whenever the
    destructor waits for the workers, each of them still has the stop task queued, is
    about to run it, or is on its way out. *)
Theorem teardown_safe o :
  owned_reachable o →
  (asked o = true → wheels_ o = false → Forall (λ w, pc w = LExit) (pool_ (sv o))) ∧
  (phase o = TFreed → Forall (λ w, pc w = LExit) (pool_ (sv o))) ∧
  (phase o = TJoin ∨ phase o = TPoolJoin → Forall will_stop (pool_ (sv o))).
Proof.
  intros [Hsv Hj Hw Hh Hf Hr]%owned_reachable_inv. split_and!.
  - intros Ha Hwh. apply Hj, Hw; [done|]. specialize (Hh Hwh). by destruct (phase o).
  - intros Hp. by apply Hj, Hf.
  - intros Hp. apply (v_stop _ _ _ Hsv), Hr; by destruct Hp as [-> | ->].
Qed.
End teardown.

(** ** Witnesses *)

Module Demo.
(** One worker, in the inner loop of [run] with a ready coroutine. *)
Definition busy : list owned_event :=
  TdStart 1 60 :: (TdWorker 0 <$> [EvRun; EvTop; EvTask [APost 5]; EvTask []; EvTasksDone]).
(** Destroyed while running: the destructor stops it and waits. *)
Definition stopping : owned :=
  default new_owned (owned_run 8 false (busy ++ [TdDestroy; TdStep]) new_owned).
(** Stopped, not waited for, destroyed up to the wheels. *)
Definition early : list owned_event := busy ++ [TdStop; TdDestroy; TdStep; TdStep].
Definition freed : owned := default new_owned (owned_run 8 false early new_owned).

Lemma stopping_owned_reachable : owned_reachable 8 false stopping.
Proof.
  apply (owned_run_reachable 8 false (busy ++ [TdDestroy; TdStep])). vm_compute. reflexivity.
Qed.
Lemma freed_reachable : owned_reachable 8 false freed.
Proof. apply (owned_run_reachable 8 false early). vm_compute. reflexivity. Qed.
End Demo.

Lemma teardown_safe_witness : Forall will_stop (pool_ (sv Demo.stopping)).
Proof.
  apply (teardown_safe 8 false Demo.stopping Demo.stopping_owned_reachable).
  left. vm_compute. reflexivity.
Defined.

(** A server that was stopped but not waited for is destroyed under its workers:
    the idle wheels are gone while a worker is in its loop with a coroutine to
    resume. *)
Theorem wheels_freed_early :
  ∃ o w, owned_reachable 8 false o ∧ wheels_ o = false ∧ pool_ (sv o) = [w] ∧
    pc w = LReady ∧ ready_ w = [5%nat] ∧
    ∃ o', owned_exec 8 false (TdWorker 0 (EvResume [])) o = Some o'.
Proof.
  exists Demo.freed, (default new_scheduler (pool_ (sv Demo.freed) !! 0%nat)).
  split; [apply Demo.freed_reachable|].
  split; [vm_compute; reflexivity|]. split; [vm_compute; reflexivity|].
  split; [vm_compute; reflexivity|]. split; [vm_compute; reflexivity|].
  eexists. vm_compute. reflexivity.
Qed.

