(* ===== verification/Signals.v ===== *)
(** * Signals: the main thread of the echo server and the signals that stop it

    Models [on_signal] and the rest of [main] in [example/echo_server.cc], from the
    installation of the signal handlers to the return of [server.wait()]:
    [TcpServer::start] in the steps between which a signal makes a difference, with
    [SchedulerPool::start] ([src/scheduler/scheduler_pool.cc]) thread by thread, over
    the workers of [Scheduler.v] and [TcpServer::stop] of [Lifecycle.v].

    A signal is handled between two steps of the main thread, by any thread; the calls
    of one handler are one step, as in [Lifecycle.v].  The handlers of the echo server
    do not stop anything themselves. *)
From S2P Require Import Prelude Scheduler Lifecycle Teardown.

(** Where the main thread is. *)
Inductive main_point : Type :=
  | MInstalled            (* about to call [start] *)
  | MMarked               (* [running_] is set; about to construct [pool_] *)
  | MListen               (* about to open the sockets *)
  | MBoot (i : nat)       (* about to queue the tasks of worker [i] *)
  | MThreads (i : nat)    (* about to start the thread of worker [i] *)
  | MWait                 (* in [wait] *)
  | MLeft                 (* [wait] has returned *)
  | MTerminated.          (* an exception has left [main] *)

#[export] Instance main_point_eq_dec : EqDecision main_point.
Proof. solve_decision. Defined.

Section signals.
Context (entries : nat) (sqpoll : bool).
Context (threads : nat) (idle : Z).       (* [worker_threads_], [idle_] *)

Record program := mkProgram {
  at_ : main_point;
  sv : server;
  heard : option bool;    (* history: [pool_] was there when [stop] found [running_] set *)
}.
Definition new_program : program := mkProgram MInstalled new_server None.

Definition pool_made (m : main_point) : bool :=
  match m with MInstalled | MMarked => false | _ => true end.
Definition started (p : program) : nat :=
  match at_ p with
  | MThreads i => i
  | MWait | MLeft => length (pool_ (sv p))
  | _ => 0
  end.

(** [on_signal]. *)
Definition on_signal (p : program) : program :=
  mkProgram (at_ p) (stop (sv p))
    (if running_ (sv p) then Some (pool_made (at_ p)) else heard p).

Abbreviation queue_tasks := (queue_tasks idle).

(** The main thread. *)
Definition main_step (p : program) : option program :=
  let s := sv p in
  match at_ p with
  | MInstalled =>
      Some (if running_ s then mkProgram MWait s (heard p)
            else mkProgram MMarked (mark s) (heard p))
  | MMarked =>
      Some (mkProgram MListen (make_pool threads s) (heard p))
  | MListen => Some (mkProgram (MBoot 0) s (heard p))
  | MBoot i =>
      Some (if (i <? threads)%nat
            then mkProgram (MBoot (S i)) (queue_for i idle s) (heard p)
            else mkProgram (MThreads 0) s (heard p))
  | MThreads i =>
      Some (mkProgram (if (i <? threads)%nat then MThreads (S i) else MWait) s (heard p))
  | MWait => if forallb exited (pool_ s) then Some (mkProgram MLeft s (heard p)) else None
  | MLeft | MTerminated => None
  end.
(** A constructor, a socket or a thread fails: nobody catches it. *)
Definition main_throws (p : program) : option program :=
  match at_ p with
  | MMarked | MListen | MBoot _ | MThreads _ => Some (mkProgram MTerminated (sv p) (heard p))
  | _ => None
  end.

(** What a worker may do, and its surroundings: only [TcpServer::stop] stops it. *)
Definition served (e : event) (w : Scheduler) : bool :=
  match e, pc w with
  | (EvStop | EvBoot _), _ => false
  | EvPostTask t, _ => negb (t =? stop_task)%nat
  | EvTask l, LTasks (t :: _) => (t =? stop_task)%nat || negb (stops e)
  | _, _ => negb (stops e)
  end.

Inductive program_event : Type :=
  | PgMain
  | PgThrow
  | PgSignal
  | PgWorker (i : nat) (e : event).

Definition program_exec (e : program_event) (p : program) : option program :=
  match at_ p, e with
  | MTerminated, _ => None
  | _, PgMain => main_step p
  | _, PgThrow => main_throws p
  | _, PgSignal => Some (on_signal p)
  | _, PgWorker i e =>
      w ← pool_ (sv p) !! i;
      if served e w && (outside e || (i <? started p)%nat) then
        s ← server_exec entries sqpoll (SvWorker i e) (sv p); Some (mkProgram (at_ p) s (heard p))
      else None
  end.

Definition program_step (p p' : program) : Prop := ∃ e, program_exec e p = Some p'.
Definition program_reachable (p : program) : Prop := rtc program_step new_program p.
Fixpoint program_run (es : list program_event) (p : program) : option program :=
  match es with
  | [] => Some p
  | e :: es => p ← program_exec e p; program_run es p
  end.

(** ** Invariant *)

(** A worker that nobody has asked to stop. *)
Definition unstopped (w : Scheduler) : Prop :=
  not_stopped w ∧ (stop_task ∉ tasks (cross_ w)) ∧
  (∀ ts, pc w = LTasks ts → stop_task ∉ ts).

Record program_inv (p : program) : Prop := {
  g_reachable : Forall (reachable entries sqpoll) (pool_ (sv p));
  g_early : pool_made (at_ p) = false → pool_ (sv p) = [];
  g_size : pool_made (at_ p) = true → at_ p ≠ MTerminated → length (pool_ (sv p)) = threads;
  g_running : at_ p ≠ MInstalled → heard p = None → running_ (sv p) = true;
  g_stopped : heard p ≠ None → running_ (sv p) = false;
  g_first : at_ p = MInstalled → running_ (sv p) = false ∧ heard p = None;
  g_heard : heard p = Some true → pool_made (at_ p) = true ∧ Forall will_stop (pool_ (sv p));
  g_deaf : heard p ≠ Some true → Forall unstopped (pool_ (sv p));
  g_init : ∀ i w, pool_ (sv p) !! i = Some w → (started p ≤ i)%nat → at_ p ≠ MTerminated → pc w = LInit;
  g_left : at_ p = MLeft → Forall (λ w, pc w = LExit) (pool_ (sv p));
}.

Lemma outside_kept e w w' :
  outside e = true → served e w = true → exec entries sqpoll e w = Some w' →
  pc w' = pc w ∧ (stop_task ∈ tasks (cross_ w') → stop_task ∈ tasks (cross_ w)).
Proof.
  intros He Hs Hex. destruct e; try done; cbn [exec] in Hex.
  - by injection Hex as <-.
  - injection Hex as <-. split; [done|]. cbn in *. intros [?|Ht]%elem_of_app; [done|].
    apply list_elem_of_singleton in Ht. subst t. done.
  - case_decide; [done|]. by injection Hex as <-.
  - unfold kernel in Hex. apply bind_Some in Hex as (x & _ & Hex).
    repeat case_match; try done; by injection Hex as <-.
  - case_decide; [done|]. by injection Hex as <-.
Qed.

Lemma user_unstopped l ts w :
  existsb stops_action l = false → unstopped w → stop_task ∉ ts →
  unstopped (user entries sqpoll l (LTasks ts) w).
Proof.
  intros Hl (Hs & Ht & _) Hts. split; [by apply user_not_stopped|].
  destruct (user_kept entries sqpoll l (LTasks ts) w) as [Hp [-> _]]. split; [done|].
  intros ts' Hts'. destruct Hp as [Hp|Hp]; rewrite Hp in Hts'; [by injection Hts' as <-|done].
Qed.

Lemma exec_unstopped e w w' :
  served e w = true → exec entries sqpoll e w = Some w' → unstopped w → unstopped w'.
Proof.
  intros Hser Hex Hw. pose proof Hw as (Hns & Ht & Hts). destruct (outside e) eqn:Hout.
  { destruct (outside_kept e w w' Hout Hser Hex) as [Hp Hin]. split; [|split; [tauto|by rewrite Hp]].
    eapply exec_not_stopped; [|done|exact Hex]. by destruct e. }
  assert (He : stops e = false).
  { destruct e; cbn [served] in Hser; try done; cbn [exec] in Hex;
      destruct (pc w) as [| |[|t ts]| | | | | | | |] eqn:Hp; try done;
      try by apply negb_true_iff in Hser.
    apply orb_true_iff in Hser as [->%Nat.eqb_eq|Hser]; [|by apply negb_true_iff].
    destruct (Hts _ eq_refl). by left. }
  assert (Hns' : not_stopped w') by by eapply exec_not_stopped.
  cut ((tasks (cross_ w') = tasks (cross_ w) ∧ ∀ ts, pc w' = LTasks ts → pc w = LTasks ts) ∨
       (stop_task ∉ tasks (cross_ w')) ∧ (∀ ts, pc w' = LTasks ts → stop_task ∉ ts)).
  { intros [[Htk Hp]|Hboth]; (split; [done|]); [|exact Hboth]. rewrite Htk. split; [done|]. intros ts ?%Hp. auto. }
  destruct e; try done; cbn [exec] in Hex.
  - destruct (pc w) eqn:Hp; try done; injection Hex as <-; left; unfold enter; cbn;
      by rewrite rearm_timer_cross, rearm_watch_cross.
  - destruct (pc w) eqn:Hp; try done. injection Hex as <-. destruct Hns as [-> _]. right.
    split; [apply not_elem_of_nil|]. by intros ts [= <-].
  - destruct (pc w) as [| |[|t ts]| | | | | | | |] eqn:Hp; try done. injection Hex as <-. right.
    destruct (user_unstopped l ts w) as (_ & ? & ?); [done|done| |by split].
    intros Hin. eapply Hts; [done|by right].
  - destruct (pc w) as [| |[|t ts]| | | | | | | |] eqn:Hp; try done. injection Hex as <-. left.
    split; [done|]. by intros ? [=].
  - destruct (pc w) eqn:Hp; try done. destruct (ready_ w); [done|]. injection Hex as <-. left.
    unfold resume. case_decide; [by rewrite <-Hp|].
    match goal with |- context [user entries sqpoll l LReady ?x] => set (s1 := x) end.
    destruct (user_kept entries sqpoll l LReady s1) as [Hp' [-> _]]. split; [done|].
    intros ts Hts'. destruct Hp' as [Hp'|Hp']; by rewrite Hp' in Hts'.
  - destruct (pc w) eqn:Hp; try done. destruct (ready_ w); [|done]. injection Hex as <-. left.
    split; [done|]. by destruct (stopping_ (cross_ w)).
  - destruct (pc w) eqn:Hp; try done. injection Hex as <-. by left.
  - destruct (pc w) eqn:Hp; try done. repeat case_match; try done; injection Hex as <-; by left.
  - destruct (pc w) eqn:Hp; try done. injection Hex as <-. by left.
  - destruct (pc w) eqn:Hp; try done. destruct (_ <? _)%nat; [|done].
    apply bind_Some in Hex as (x & _ & [= <-]). left. rewrite on_complete_tasks. split; [done|].
    intros ts. unfold on_complete. repeat case_match; done.
  - destruct (pc w) eqn:Hp; try done. destruct (_ <? _)%nat; [done|]. injection Hex as <-. by left.
Qed.

Lemma new_unstopped : unstopped new_scheduler.
Proof. split; [done|]. split; [apply not_elem_of_nil|done]. Qed.

Lemma queue_tasks_unstopped w : unstopped w → unstopped (queue_tasks w).
Proof.
  destruct (queue_tasks_kept idle w) as (Hp & Hs & _ & Ht). unfold unstopped, not_stopped.
  rewrite Hp, Hs, Ht. done.
Qed.

Lemma new_program_inv : program_inv new_program.
Proof. by split; try constructor. Qed.

Lemma signal_inv p : program_inv p → at_ p ≠ MTerminated → program_inv (on_signal p).
Proof.
  intros [Hr Hearly Hsize Hrun Hst Hfirst Hheard Hdeaf Hinit Hleft] Hnt.
  unfold on_signal, stop. destruct (running_ (sv p)) eqn:Hrunning; cbn [negb].
  2: { split; cbn; rewrite ?Hrunning; auto. }
  assert (Hno : at_ p ≠ MInstalled). { intros Hp. destruct (Hfirst Hp). congruence. }
  split; cbn; try done.
  - apply Forall_fmap. eapply Forall_impl; [exact Hr|]. intros w Hw.
    by apply (reachable_exec _ _ (EvPostTask stop_task) w).
  - intros Hm. by rewrite (Hearly Hm).
  - rewrite length_fmap. auto.
  - intros [= Hm]. split; [done|]. apply Forall_fmap, Forall_true. intros w. left. cbn.
    apply elem_of_app. right. by left.
  - intros Hm. destruct (pool_made (at_ p)) eqn:Hpm; [done|]. rewrite (Hearly eq_refl). constructor.
  - intros i w. rewrite list_lookup_fmap. intros Hi Hle _.
    destruct (pool_ (sv p) !! i) as [w0|] eqn:Hw0; [|done]. injection Hi as <-. cbn.
    eapply Hinit; [exact Hw0| |done]. unfold started in *. cbn in Hle.
    by rewrite length_fmap in Hle.
  - intros Hm. by apply Forall_fmap, Hleft.
Qed.

Lemma main_inv p p' : program_inv p → main_step p = Some p' → program_inv p'.
Proof.
  intros [Hr Hearly Hsize Hrun Hst Hfirst Hheard Hdeaf Hinit Hleft] Hstep.
  unfold main_step in Hstep. unfold started in Hinit. destruct (at_ p) as [| | |i|i| | |] eqn:Hp; try done.
  - destruct (Hfirst eq_refl) as [Hrn Hh]. rewrite Hrn, Hh in Hstep. injection Hstep as <-.
    specialize (Hearly eq_refl). split; cbn in *; rewrite ?Hearly; try done; by auto.
  - injection Hstep as <-. specialize (Hearly eq_refl). split; cbn in *; try done.
    + apply Forall_replicate, rtc_refl.
    + intros _ _. apply length_replicate.
    + by auto.
    + intros Hh. by destruct (Hheard Hh).
    + intros _. apply Forall_replicate, new_unstopped.
    + intros i w [-> _]%lookup_replicate. done.
  - injection Hstep as <-. split; cbn in *; try done; eauto with lia.
  - destruct (Nat.ltb_spec i threads) as [Hi|Hi]; injection Hstep as <-; [|split; cbn in *; try done; eauto; intros k w Hk _ _; by eapply Hinit; [|lia|]].
    split; cbn in *; try done; eauto.
    + apply Forall_alter_at; [done|]. intros w Hw Hrw. apply queue_tasks_reachable; [|done].
      eapply Hinit; [done|lia|done].
    + intros _ _. rewrite length_alter. by auto.
    + intros Hh. destruct (Hheard Hh) as [_ Hws]. split; [done|].
      apply Forall_alter_at; [done|]. intros w _. apply queue_tasks_will_stop.
    + intros Hh. apply Forall_alter_at; [by auto|]. intros w _. apply queue_tasks_unstopped.
    + intros k w Hk _ _. rewrite list_lookup_alter in Hk. case_decide; [subst k|by eapply Hinit; [|lia|]].
      destruct (pool_ (sv p) !! i) as [y|] eqn:Hy; [|done]. injection Hk as <-.
      destruct (queue_tasks_kept idle y) as [-> _]. by eapply Hinit; [|lia|].
  - injection Hstep as <-. destruct (Nat.ltb_spec i threads) as [Hi|Hi]; split; cbn in *; try done; eauto.
    + intros k w Hk Hle _. eapply Hinit; [done|lia|done].
    + intros k w Hk Hle _. apply lookup_lt_Some in Hk. cbn in Hle. lia.
  - destruct (forallb exited (pool_ (sv p))) eqn:Hall; [|done]. injection Hstep as <-.
    split; cbn in *; try done; eauto. intros _. by apply forallb_exited.
Qed.

Lemma throw_inv p p' : program_inv p → main_throws p = Some p' → program_inv p'.
Proof.
  intros [Hr Hearly Hsize Hrun Hst Hfirst Hheard Hdeaf Hinit Hleft] Hstep.
  unfold main_throws in Hstep. unfold started in Hinit. destruct (at_ p) as [| | |i|i| | |] eqn:Hp; try done;
    injection Hstep as <-; split; cbn in *; try done; eauto; naive_solver.
Qed.

Lemma worker_inv i e p p' :
  program_inv p → at_ p ≠ MTerminated → program_exec (PgWorker i e) p = Some p' → program_inv p'.
Proof.
  intros Hinv Hnt Hex. unfold program_exec in Hex.
  assert (∃ w w', pool_ (sv p) !! i = Some w ∧ served e w = true ∧
    (outside e = true ∨ (i < started p)%nat) ∧ allowed e w = true ∧ exec entries sqpoll e w = Some w' ∧
    p' = mkProgram (at_ p) (mkServer (running_ (sv p)) (<[i := w']> (pool_ (sv p)))) (heard p))
    as (w & w' & Hi & Hser & Hcase & Hal & Hw & ->).
  { destruct (at_ p) eqn:Hp; try done; apply bind_Some in Hex as (w & Hi & Hex); exists w;
      destruct (served e w) eqn:Hser; try done; cbn [andb] in Hex;
      destruct (outside e || (i <? started p)%nat) eqn:Hst; try done;
      apply bind_Some in Hex as (s & Hs & [= <-]); cbn [server_exec] in Hs;
      rewrite Hi in Hs; cbn [mbind option_bind] in Hs; destruct (allowed e w) eqn:Hal; try done;
      apply bind_Some in Hs as (w' & Hw & [= <-]); exists w'; (do 2 (split; [done|]));
      (split; [|done]); apply orb_true_iff in Hst as [?|?%Nat.ltb_lt]; auto. }
  clear Hex. destruct Hinv as [Hr Hearly Hsize Hrun Hst Hfirst Hheard Hdeaf Hinit Hleft].
  assert (Hin : ∀ P : Scheduler → Prop, Forall P (pool_ (sv p)) → (P w → P w') →
    Forall P (<[i:=w']> (pool_ (sv p)))).
  { intros P HP Hkeep. apply Forall_insert; [done|]. apply Hkeep. by eapply Forall_lookup_1 in HP. }
  split; cbn; try done.
  - apply Hin; [done|]. intros ?. by eapply reachable_exec.
  - intros Hm. by rewrite (Hearly Hm) in Hi.
  - rewrite length_insert. auto.
  - intros Hm. destruct (Hheard Hm) as [? Hws]. split; [done|]. apply Hin; [done|].
    by apply (exec_will_stop entries sqpoll e).
  - intros Hm. apply Hin; [by auto|]. by apply (exec_unstopped e w).
  - intros k v Hk Hle _.
    assert (Hlek : (started p ≤ k)%nat) by (unfold started in *; cbn in Hle; by rewrite length_insert in Hle).
    destruct (decide (i = k)) as [->|Hne]; [|rewrite list_lookup_insert_ne in Hk by done; eauto].
    rewrite list_lookup_insert_eq in Hk by (by eapply lookup_lt_Some). injection Hk as <-.
    destruct Hcase as [Hout|?]; [|lia].
    destruct (outside_kept e w w' Hout Hser Hw) as [-> _]. eauto.
  - intros Hm. apply Hin; [by auto|]. by apply (exit_stays entries sqpoll e).
Qed.

Lemma program_exec_inv e p p' : program_inv p → program_exec e p = Some p' → program_inv p'.
Proof.
  intros Hp Hex. assert (at_ p ≠ MTerminated). { intros Ht. unfold program_exec in Hex. by rewrite Ht in Hex. }
  destruct e as [| | |i e]; [..|by eapply worker_inv]; unfold program_exec in Hex.
  - eapply main_inv; [exact Hp|]. by destruct (at_ p).
  - eapply throw_inv; [exact Hp|]. by destruct (at_ p).
  - assert (p' = on_signal p) as -> by (destruct (at_ p); by simplify_eq). by apply signal_inv.
Qed.

Lemma program_reachable_inv p : program_reachable p → program_inv p.
Proof.
  apply rtc_invariant; [|apply new_program_inv]. intros p1 p2 Hp [e He]. by eapply program_exec_inv.
Qed.

(** ** A worker that has been asked can always leave *)

Definition drive_step (w w' : Scheduler) : Prop :=
  ∃ e, served e w = true ∧ allowed e w = true ∧ exec entries sqpoll e w = Some w'.

Lemma drive e w w' z :
  served e w = true → allowed e w = true → exec entries sqpoll e w = Some w' →
  rtc drive_step w' z → rtc drive_step w z.
Proof. intros ????. eapply rtc_l; [by exists e|done]. Qed.

Lemma drive_reachable w w' :
  rtc drive_step w w' → reachable entries sqpoll w → reachable entries sqpoll w'.
Proof. induction 1 as [|w w1 w' (e & _ & _ & He) _ IH]; [done|]. intros Hw. by eapply IH, reachable_exec. Qed.

(** Some way to leave [run]. *)
Definition leaves (w : Scheduler) : Prop := ∃ w', rtc drive_step w w' ∧ pc w' = LExit.
Lemma leaves_by e w w' :
  served e w = true → allowed e w = true → exec entries sqpoll e w = Some w' → leaves w' → leaves w.
Proof. intros ??? (z & Hz & Hp). exists z. split; [by eapply drive|done]. Qed.
Lemma leaves_after w w' : rtc drive_step w w' → leaves w' → leaves w.
Proof. intros Hd (z & Hz & Hp). exists z. split; [by etrans|done]. Qed.

(** The coroutines that are ready do nothing. *)
Lemma drain_ready w : pc w = LReady →
  ∃ w', rtc drive_step w w' ∧ pc w' = LReady ∧ ready_ w' = [] ∧ cross_ w' = cross_ w ∧
    lost_watch w' = lost_watch w.
Proof.
  remember (ready_ w) as l eqn:Hl. revert w Hl. induction l as [|h l IH]; intros w Hl Hp.
  { exists w. by split. }
  set (w1 := mkSched (pc w) l (cross_ w) (ring_ w) (ops w) (final w) (lost_watch w) (pushed w)
    (popped w ++ [h]) (remote w) (drained w)).
  destruct (IH (set_pc LReady w1)) as (w' & Hd & Hp' & Hr & Hc & Hlw); [done|done|].
  exists w'. split; [|done]. eapply (drive (EvResume [])); [| | |exact Hd].
  - cbn. by rewrite ?Hp.
  - cbn. by rewrite ?Hp.
  - cbn. rewrite Hp, <-Hl. unfold resume, user. cbn. case_decide; [|by rewrite Hp].
    do 2 f_equal. unfold w1, set_pc. cbn. by rewrite ?Hp.
Qed.

Lemma ready_leaves w : pc w = LReady → stopping_ (cross_ w) = true → leaves w.
Proof.
  intros Hp Hs. destruct (drain_ready w Hp) as (w' & Hd & Hp' & Hr & Hc & _).
  eapply leaves_after; [exact Hd|].
  eapply (leaves_by EvReadyDone); [by cbn; rewrite ?Hp'|by cbn; rewrite ?Hp'|cbn; by rewrite Hp', Hr|].
  eexists. split; [apply rtc_refl|]. cbn. by rewrite Hc, Hs.
Qed.

Lemma tasks_leave ts : ∀ w, pc w = LTasks ts → stop_task ∈ ts ∨ stopping_ (cross_ w) = true → leaves w.
Proof.
  induction ts as [|t ts IH]; intros w Hp Hs.
  { destruct Hs as [Hs%not_elem_of_nil|Hs]; [done|].
    eapply (leaves_by EvTasksDone); [by cbn; rewrite ?Hp|by cbn; rewrite ?Hp|cbn; by rewrite Hp|].
    by apply ready_leaves. }
  set (l := if decide (t = stop_task) then [AStop] else []).
  eapply (leaves_by (EvTask l)).
  - cbn. rewrite Hp. unfold l. case_decide; [subst t|apply orb_true_r]. done.
  - cbn. rewrite Hp. apply bool_decide_eq_true. intros ->. unfold l. by rewrite decide_True.
  - cbn. by rewrite ?Hp.
  - unfold l, user. case_decide as Ht; cbn.
    + apply IH; [done|]. right. by apply stop_local_kept.
    + apply IH; [done|]. destruct Hs as [[Hs|Hs]%elem_of_cons|Hs]; [by destruct Ht|by left|by right].
Qed.

Lemma top_leaves w : pc w = LTop → stop_task ∈ tasks (cross_ w) → leaves w.
Proof.
  intros Hp Ht. eapply (leaves_by EvTop); [by cbn; rewrite ?Hp|by cbn; rewrite ?Hp|by cbn; rewrite ?Hp|].
  destruct (stopping_ (cross_ w)); [by eexists; split; [apply rtc_refl|]|].
  eapply tasks_leave; [done|]. by left.
Qed.

Lemma init_leaves w : pc w = LInit → stop_task ∈ tasks (cross_ w) → leaves w.
Proof.
  intros Hp Ht. eapply (leaves_by EvRun); [by cbn; rewrite ?Hp|by cbn; rewrite ?Hp|by cbn; rewrite ?Hp|].
  apply top_leaves; [done|]. unfold enter. cbn. by rewrite rearm_timer_cross, rearm_watch_cross.
Qed.

(** Dispatching a batch. *)
Lemma batch_leaves n : ∀ w i m, pc w = LCq i m → (m - i = n)%nat → reachable entries sqpoll w →
  stop_task ∈ tasks (cross_ w) → leaves w.
Proof.
  induction n as [|n IH]; intros w i m Hp Hn Hr Ht.
  - eapply (leaves_by EvAdvance); [by cbn; rewrite ?Hp|by cbn; rewrite ?Hp| |].
    { cbn [exec]. rewrite Hp, (proj2 (Nat.ltb_ge i m)) by lia. done. }
    by apply top_leaves.
  - pose proof (reachable_inv _ _ _ Hr) as Hinv. pose proof (n_batch _ Hinv) as Hb.
    unfold in_batch in Hb. rewrite Hp in Hb.
    destruct (cq (ring_ w) !! i) as [x|] eqn:Hx.
    2: { apply lookup_ge_None in Hx. lia. }
    assert (Hex : exec entries sqpoll (EvCqe []) w = Some (on_complete entries sqpoll x [] (LCq (S i) m) w)).
    { cbn [exec]. rewrite Hp, (proj2 (Nat.ltb_lt i m)) by lia. by rewrite Hx. }
    eapply (leaves_by (EvCqe [])); [by cbn; rewrite ?Hp|by cbn; rewrite ?Hp|exact Hex|].
    apply (IH _ (S i) m); [|lia|by eapply reachable_exec|by rewrite on_complete_tasks].
    unfold on_complete. destruct (user_data x); cbn; try done. by destruct (res x <? 0).
Qed.

(** Blocked, with something in the queue; and without. *)
Lemma completed_leaves w : pc w = LWait → cq (ring_ w) ≠ [] → reachable entries sqpoll w →
  stop_task ∈ tasks (cross_ w) → leaves w.
Proof.
  intros Hp Hcq Hr Ht. destruct (cq (ring_ w)) as [|x l] eqn:Hx; [done|].
  assert (He1 : exec entries sqpoll (EvReturn 1) w = Some (set_pc LPeek w)).
  { cbn. by rewrite Hp, Hx. }
  eapply (leaves_by (EvReturn 1)); [by cbn; rewrite ?Hp|by cbn; rewrite ?Hp|exact He1|].
  eapply (leaves_by EvPeek); [done|done|done|].
  eapply batch_leaves; [done|done| |done].
  apply (reachable_exec _ _ EvPeek (set_pc LPeek w)); [by eapply reachable_exec|done].
Qed.

(** The SQPOLL thread reads what it was given. *)
Lemma poll_all n : ∀ w, unread (ring_ w) = n →
  ∃ w', rtc drive_step w w' ∧ unread (ring_ w') = 0%nat ∧ pc w' = pc w ∧ cross_ w' = cross_ w ∧
    inflight (ring_ w') = inflight (ring_ w).
Proof.
  induction n as [|n IH]; intros w Hn; [by exists w|].
  destruct (IH (poll w)) as (w' & Hd & ? & ? & ? & ?); [cbn; by rewrite Hn|].
  exists w'. split; [|by split_and!]. eapply (drive EvSqPoll); [done|done| |exact Hd].
  cbn. by rewrite decide_False by lia.
Qed.

Lemma wait_leaves n : ∀ w, pc w = LWait → writers (cross_ w) = n → reachable entries sqpoll w →
  lost_watch w = false → stop_task ∈ tasks (cross_ w) → leaves w.
Proof.
  assert (Hready : ∀ w, pc w = LWait → reachable entries sqpoll w → stop_task ∈ tasks (cross_ w) →
    cq (ring_ w) ≠ [] ∨ (0 < efd (cross_ w) ∧ SWatch ∈ inflight (ring_ w)) → leaves w).
  { intros w0 Hp0 Hr0 Ht0 [Hcq|[He0 Hin]]; [by apply completed_leaves|].
    destruct (poll_all _ w0 eq_refl) as (w & Hd & Hu & Hp & Hc & Hi). eapply leaves_after; [exact Hd|].
    apply drive_reachable in Hd as Hr; [|done]. clear Hd Hr0. rewrite Hp0 in Hp. rewrite <-Hc in *.
    rewrite <-Hi in Hin. apply list_elem_of_lookup in Hin as [k Hk].
    assert (∃ w', exec entries sqpoll (EvKernel k 8 0) w = Some w' ∧ pc w' = LWait ∧
      cq (ring_ w') ≠ [] ∧ tasks (cross_ w') = tasks (cross_ w)) as (w' & Hex & Hp' & Hcq & Htk).
    { eexists. cbn [exec]. unfold kernel. rewrite Hu, Nat.sub_0_r, firstn_all, Hk. cbn [mbind option_bind].
      rewrite (proj2 (Z.ltb_lt 0 (efd (cross_ w))) He0). split; [done|]. cbn. split; [done|].
      split; [by destruct (cq (ring_ w))|done]. }
    eapply (leaves_by (EvKernel k 8 0)); [done|done|exact Hex|].
    apply completed_leaves; [done|done|by eapply reachable_exec|by rewrite Htk]. }
  induction n as [|n IH]; intros w Hp Hn Hr Hl Ht.
  all: pose proof (reachable_inv _ _ _ Hr) as Hinv;
    destruct (blocked_signalled w Hinv Hl Hp) as [Hw|Hw];
    [by right; left; intros Hnil; rewrite Hnil in Ht; apply not_elem_of_nil in Ht
    | |by apply Hready].
  { lia. }
  assert (Hex : exec entries sqpoll EvWrite w = Some (wake_remote w)).
  { cbn [exec]. by rewrite decide_False by lia. }
  eapply (leaves_by EvWrite); [done|done|exact Hex|].
  apply IH; [done|cbn; by rewrite Hn|by eapply reachable_exec|done|done].
Qed.

(** A worker whose watcher was never lost, and which has neither thrown nor run into
    undefined behaviour. *)
Definition healthy (w : Scheduler) : Prop :=
  lost_watch w = false ∧ pc w ≠ LUB ∧ ∀ e, pc w ≠ LThrow e.

Lemma submit_leaves w :
  pc w = LSubmit → reachable entries sqpoll w → lost_watch w = false → stop_task ∈ tasks (cross_ w) → leaves w.
Proof.
  intros Hp Hv Hlv Ht. assert (Hex : exec entries sqpoll EvSubmit w = Some (set_pc LWait (submit sqpoll w))).
  { cbn. by rewrite Hp. }
  eapply (leaves_by EvSubmit); [done|done|exact Hex|].
  eapply wait_leaves; [done|done|by eapply reachable_exec|done|done].
Qed.

Lemma ready_stops w :
  pc w = LReady → reachable entries sqpoll w → lost_watch w = false → stop_task ∈ tasks (cross_ w) → leaves w.
Proof.
  intros Hp Hv Hlv Ht. destruct (stopping_ (cross_ w)) eqn:Hs; [by apply ready_leaves|].
  destruct (drain_ready w Hp) as (w' & Hd & Hp' & Hr' & Hc & Hl').
  eapply leaves_after; [exact Hd|]. apply drive_reachable in Hd; [|done].
  assert (Hex : exec entries sqpoll EvReadyDone w' = Some (set_pc LSubmit w')).
  { cbn. by rewrite Hp', Hr', Hc, Hs. }
  eapply (leaves_by EvReadyDone); [by cbn; rewrite ?Hp'|by cbn; rewrite ?Hp'|exact Hex|].
  apply submit_leaves; [done|by eapply reachable_exec|by rewrite <-Hl' in Hlv|cbn; by rewrite Hc].
Qed.

Lemma tasks_stop ts : ∀ w,
  pc w = LTasks ts → reachable entries sqpoll w → lost_watch w = false → stop_task ∈ tasks (cross_ w) → leaves w.
Proof.
  induction ts as [|t ts IH]; intros v Hp Hv Hlv Ht.
  { assert (Hex : exec entries sqpoll EvTasksDone v = Some (set_pc LReady v)) by (cbn; by rewrite Hp).
    eapply (leaves_by EvTasksDone); [by cbn; rewrite ?Hp|by cbn; rewrite ?Hp|exact Hex|].
    apply ready_stops; [done|by eapply reachable_exec|done|done]. }
  destruct (decide (t = stop_task)) as [->|Hne]; [eapply tasks_leave; [done|left; by left]|].
  assert (Hex : exec entries sqpoll (EvTask []) v = Some (set_pc (LTasks ts) v)) by (cbn; by rewrite Hp).
  eapply (leaves_by (EvTask [])); [cbn; rewrite Hp; apply orb_true_r| |exact Hex|].
  { cbn. rewrite Hp. apply bool_decide_eq_true. done. }
  apply IH; [done|by eapply reachable_exec|done|done].
Qed.

Lemma will_stop_leaves w :
  reachable entries sqpoll w → healthy w → will_stop w → leaves w.
Proof.
  intros Hr (Hl & Hub & Hth) Hws.
  destruct (over (pc w)) eqn:Hover.
  { destruct (pc w) eqn:Hp; try done; [|by destruct (Hth _ eq_refl)].
    exists w. split; [apply rtc_refl|done]. }
  destruct (leaving (pc w)) eqn:Hleaving.
  - destruct (pc w) as [| |ts| | | | | | | |] eqn:Hp; try done.
    + destruct Hws as [Ht|[(ts' & Hp' & Hin)|[[_ Hs]|Ho]]].
      * by eapply tasks_stop.
      * rewrite Hp in Hp'. injection Hp' as <-. eapply tasks_leave; [done|by left].
      * eapply tasks_leave; [done|by right].
      * by rewrite Hp in Ho.
    + destruct Hws as [Ht|[(ts' & Hp' & _)|[[_ Hs]|Ho]]];
        [by apply ready_stops|by rewrite Hp in Hp'|by apply ready_leaves|by rewrite Hp in Ho].
  - apply will_stop_posted in Hws; [|done..].
    destruct (pc w) eqn:Hp; try done.
    + by apply init_leaves.
    + by apply top_leaves.
    + by apply submit_leaves.
    + by eapply wait_leaves.
    + eapply (leaves_by EvPeek); [by cbn; rewrite ?Hp|by cbn; rewrite ?Hp|cbn; by rewrite Hp|].
      eapply batch_leaves; [done|done| |done]. apply (reachable_exec _ _ EvPeek w); [done|cbn; by rewrite Hp].
    + by eapply batch_leaves.
Qed.

(** ** The program *)

Lemma heard_stays e p p' b :
  program_inv p → program_exec e p = Some p' → heard p = Some b → heard p' = Some b.
Proof.
  intros Hp Hex Hb. assert (running_ (sv p) = false) as Hr by (apply (g_stopped _ Hp); by rewrite Hb).
  destruct e as [| | |i e]; unfold program_exec in Hex.
  - unfold main_step in Hex. destruct (at_ p); try done; repeat case_match; by simplify_eq/=.
  - unfold main_throws in Hex. by destruct (at_ p); simplify_eq/=.
  - unfold on_signal in Hex. rewrite Hr in Hex. by destruct (at_ p); simplify_eq/=.
  - destruct (at_ p); try done; apply bind_Some in Hex as (w & _ & Hex); case_match; try done;
      by apply bind_Some in Hex as (s & _ & [= <-]).
Qed.

Lemma heard_after p p' b : program_inv p → rtc program_step p p' → heard p = Some b →
  program_inv p' ∧ heard p' = Some b.
Proof.
  intros Hp Hr. revert Hp. induction Hr as [|p p1 p' [e He] _ IH]; [done|].
  intros Hp Hb. apply IH; [by eapply program_exec_inv|by eapply heard_stays].
Qed.

Lemma unstopped_runs p : program_inv p → heard p ≠ Some true → Forall (λ w, pc w ≠ LExit) (pool_ (sv p)).
Proof.
  intros Hp Hh. eapply Forall_impl; [by apply (g_deaf _ Hp)|]. by intros w [[_ Hw] _].
Qed.

Lemma queue_tasks_healthy w : healthy w → healthy (queue_tasks w).
Proof. destruct (queue_tasks_kept idle w) as (Hp & _ & Hl & _). unfold healthy. by rewrite Hp, Hl. Qed.

(** From here it can get to [wait], with workers that are as well as they were. *)
Definition waits (p : program) : Prop :=
  ∃ p', rtc program_step p p' ∧ at_ p' = MWait ∧ Forall healthy (pool_ (sv p')).
Lemma waits_by e p p' : program_exec e p = Some p' → waits p' → waits p.
Proof. intros He (z & Hz & ?). exists z. split; [|done]. eapply rtc_l; [by exists e|done]. Qed.

Lemma threads_wait n : ∀ p i, at_ p = MThreads i → (threads - i = n)%nat →
  Forall healthy (pool_ (sv p)) → waits p.
Proof.
  induction n as [|n IH]; intros p i Hp Hn Hh;
    (eapply (waits_by PgMain); [unfold program_exec, main_step; by rewrite Hp|]).
  - rewrite (proj2 (Nat.ltb_ge i threads)) by lia. eexists. split; [apply rtc_refl|done].
  - rewrite (proj2 (Nat.ltb_lt i threads)) by lia. eapply IH; [done|lia|done].
Qed.

Lemma boots_wait n : ∀ p i, at_ p = MBoot i → (threads - i = n)%nat →
  Forall healthy (pool_ (sv p)) → waits p.
Proof.
  induction n as [|n IH]; intros p i Hp Hn Hh;
    (eapply (waits_by PgMain); [unfold program_exec, main_step; by rewrite Hp|]).
  - rewrite (proj2 (Nat.ltb_ge i threads)) by lia. by eapply threads_wait.
  - rewrite (proj2 (Nat.ltb_lt i threads)) by lia. eapply IH; [done|lia|].
    apply Forall_alter_at; [done|]. intros w _. apply queue_tasks_healthy.
Qed.

Lemma main_waits p : pool_made (at_ p) = true → at_ p ≠ MTerminated → at_ p ≠ MLeft →
  Forall healthy (pool_ (sv p)) → waits p.
Proof.
  intros Hm Ht Hl Hh. destruct (at_ p) as [| | |i|i| | |] eqn:Hp; try done.
  - eapply (waits_by PgMain); [unfold program_exec, main_step; by rewrite Hp|]. by eapply boots_wait.
  - by eapply boots_wait.
  - by eapply threads_wait.
  - exists p. split; [apply rtc_refl|done].
Qed.

(** A worker moves, in the program. *)
Definition with_worker (i : nat) (w : Scheduler) (p : program) : program :=
  mkProgram (at_ p) (mkServer (running_ (sv p)) (<[i := w]> (pool_ (sv p)))) (heard p).

Lemma drive_program i w w' p : rtc drive_step w w' → at_ p = MWait → pool_ (sv p) !! i = Some w →
  rtc program_step p (with_worker i w' p).
Proof.
  intros Hd. revert p. induction Hd as [w|w w1 w' (e & Hs & Hal & He) _ IH]; intros p Hp Hi.
  { unfold with_worker. rewrite list_insert_id by done. destruct p as [? [] ?]. apply rtc_refl. }
  pose proof (lookup_lt_Some _ _ _ Hi) as Hlt.
  apply (rtc_l _ _ (with_worker i w1 p)).
  - exists (PgWorker i e). unfold program_exec, started. rewrite Hp, Hi. cbn [mbind option_bind].
    rewrite Hs, (proj2 (Nat.ltb_lt _ _) Hlt), orb_true_r. cbn [andb server_exec]. rewrite Hi.
    cbn [mbind option_bind]. rewrite Hal, He. cbn [mbind option_bind]. unfold with_worker. by rewrite Hp.
  - replace (with_worker i w' p) with (with_worker i w' (with_worker i w1 p)).
    + apply IH; [done|]. by apply list_lookup_insert_eq.
    + unfold with_worker. cbn. by rewrite list_insert_insert_eq.
Qed.

Lemma all_leave n : ∀ p, at_ p = MWait → (n ≤ length (pool_ (sv p)))%nat →
  Forall leaves (pool_ (sv p)) →
  ∃ p', rtc program_step p p' ∧ at_ p' = MWait ∧ length (pool_ (sv p')) = length (pool_ (sv p)) ∧
    Forall leaves (pool_ (sv p')) ∧ ∀ i w, (i < n)%nat → pool_ (sv p') !! i = Some w → pc w = LExit.
Proof.
  induction n as [|n IH]; intros p Hp Hn Hl.
  { exists p. split; [apply rtc_refl|]. do 3 (split; [done|]). lia. }
  destruct (IH p Hp ltac:(lia) Hl) as (p1 & Hd & Hp1 & Hlen & Hl1 & Hx).
  destruct (lookup_lt_is_Some_2 (pool_ (sv p1)) n) as [w Hw]; [lia|].
  destruct (Forall_lookup_1 _ _ _ _ Hl1 Hw) as (w' & Hdw & Hpw).
  exists (with_worker n w' p1). split; [etrans; [exact Hd|by eapply drive_program]|].
  split; [done|]. cbn. rewrite length_insert. split; [done|]. split.
  - apply Forall_insert; [done|]. exists w'. split; [apply rtc_refl|done].
  - intros i v Hi Hv. destruct (decide (i = n)) as [->|Hne].
    + rewrite list_lookup_insert_eq in Hv by (by eapply lookup_lt_Some). by injection Hv as <-.
    + rewrite list_lookup_insert_ne in Hv by done. eapply Hx; [|done]. lia.
Qed.

(** ** Properties *)

(** C10: A signal that is handled once [start] has constructed the workers, wherever the
    main thread and the workers are, is heard: from every later state, the threads can
    go on in such a way that every worker leaves [run] and [main] gets past [wait];
    unless an exception has left [main], or a worker has thrown, run into undefined
    behaviour or lost its eventfd watcher. *)
Theorem signal_ends_program p :
  program_reachable p → heard p = Some true → at_ p ≠ MTerminated →
  Forall healthy (pool_ (sv p)) →
  ∃ p', rtc program_step p p' ∧ at_ p' = MLeft ∧ Forall (λ w, pc w = LExit) (pool_ (sv p')).
Proof.
  intros Hp%program_reachable_inv Hh Ht Hok.
  destruct (decide (at_ p = MLeft)) as [Hl|Hl].
  { exists p. split; [apply rtc_refl|]. split; [done|]. by apply (g_left _ Hp). }
  destruct (g_heard _ Hp Hh) as [Hm _].
  destruct (main_waits p Hm Ht Hl Hok) as (p1 & Hd1 & Hp1 & Hok1).
  destruct (heard_after p p1 true Hp Hd1 Hh) as [Hinv1 Hh1].
  destruct (all_leave (length (pool_ (sv p1))) p1 Hp1 ltac:(done)) as (p2 & Hd2 & Hp2 & Hlen & _ & Hx).
  { apply Forall_forall. intros w Hw. rewrite Forall_forall in Hok1.
    destruct (g_heard _ Hinv1 Hh1) as [_ Hws]. rewrite Forall_forall in Hws.
    pose proof (g_reachable _ Hinv1) as Hr. rewrite Forall_forall in Hr.
    apply will_stop_leaves; auto. }
  assert (Hall : Forall (λ w, pc w = LExit) (pool_ (sv p2))).
  { apply Forall_lookup. intros i w Hi. eapply Hx; [|done]. rewrite <-Hlen. by eapply lookup_lt_Some. }
  exists (mkProgram MLeft (sv p2) (heard p2)). split; [|by split].
  etrans; [exact Hd1|]. etrans; [exact Hd2|]. apply rtc_once. exists PgMain.
  unfold program_exec, main_step. rewrite Hp2. replace (forallb exited (pool_ (sv p2))) with true; [done|].
  symmetry. apply forallb_forall. intros w Hw%list_elem_of_In. rewrite Forall_forall in Hall.
  unfold exited. by rewrite (Hall w Hw).
Qed.

(** C39: A signal that is handled after [start] has set [running_] and before it has
    constructed the workers is lost for good: [start] goes on, no worker will ever
    leave [run], so that [main] stays in [wait], and no later signal has any effect.
    [main] gets past [wait] only if a signal was heard. *)
Theorem signal_during_start_is_lost p :
  (0 < threads)%nat → program_reachable p →
  (at_ p = MLeft → heard p = Some true) ∧
  (heard p = Some false → ∀ p', rtc program_step p p' →
    at_ p' ≠ MLeft ∧ Forall (λ w, pc w ≠ LExit) (pool_ (sv p')) ∧ sv (on_signal p') = sv p').
Proof.
  intros Hn Hp%program_reachable_inv.
  assert (Hleft : ∀ q, program_inv q → at_ q = MLeft → heard q = Some true).
  { intros q Hq Hat. destruct (decide (heard q = Some true)) as [|Hne]; [done|].
    pose proof (unstopped_runs q Hq Hne) as Hrun. pose proof (g_left _ Hq Hat) as Hex.
    pose proof (g_size _ Hq) as Hlen. rewrite Hat in Hlen. specialize (Hlen eq_refl ltac:(done)).
    destruct (pool_ (sv q)) as [|w l]; [cbn in Hlen; lia|].
    apply Forall_cons in Hrun as [Hrun _]. by apply Forall_cons in Hex as [Hex _]. }
  split; [by apply Hleft|]. intros Hh p' Hd. destruct (heard_after p p' false Hp Hd Hh) as [Hp' Hh'].
  split; [|split].
  - intros Hat. specialize (Hleft p' Hp' Hat). congruence.
  - apply unstopped_runs; [done|]. by rewrite Hh'.
  - cbn. unfold stop. by rewrite (g_stopped _ Hp') by (by rewrite Hh').
Qed.
End signals.

(** ** Witnesses *)

Module SignalDemo.
Abbreviation run_program := (program_run 8 false 2 60).
Definition mains (n : nat) : list program_event := replicate n PgMain.
(** Two workers; the main thread waits and the first worker is blocked when the signal
    comes. *)
Definition blocked_first : list program_event :=
  mains 9 ++ (PgWorker 0 <$> [EvRun; EvTop; EvTask []; EvTask []; EvTasksDone; EvReadyDone; EvSubmit]).
Definition heard_late : program := default new_program (run_program (blocked_first ++ [PgSignal]) new_program).
(** The signal comes right after [running_] is set; then everything is started. *)
Definition heard_early : program := default new_program (run_program (mains 1 ++ [PgSignal]) new_program).
Definition deaf : program := default new_program (run_program (mains 8) heard_early).

Lemma run_steps es : ∀ p p', run_program es p = Some p' → rtc (program_step 8 false 2 60) p p'.
Proof.
  induction es as [|e es IH]; intros p p'; cbn [program_run]; [by intros [= ->]|].
  intros (p1 & He & Hr)%bind_Some. eapply rtc_l; [by exists e|by apply IH].
Qed.
Lemma heard_late_reachable : program_reachable 8 false 2 60 heard_late.
Proof. apply (run_steps (blocked_first ++ [PgSignal])). vm_compute. reflexivity. Qed.
Lemma heard_early_reachable : program_reachable 8 false 2 60 heard_early.
Proof. apply (run_steps (mains 1 ++ [PgSignal])). vm_compute. reflexivity. Qed.
Lemma deaf_after : rtc (program_step 8 false 2 60) heard_early deaf.
Proof. apply (run_steps (mains 8)). vm_compute. reflexivity. Qed.
Lemma heard_late_facts :
  at_ heard_late = MWait ∧ heard heard_late = Some true ∧ Forall healthy (pool_ (sv heard_late)).
Proof. vm_compute. split_and!; try done. repeat constructor; by intros. Qed.
End SignalDemo.

Lemma signal_ends_program_witness :
  at_ SignalDemo.heard_late = MWait ∧
  ∃ p', rtc (program_step 8 false 2 60) SignalDemo.heard_late p' ∧ at_ p' = MLeft ∧
    Forall (λ w, pc w = LExit) (pool_ (sv p')).
Proof.
  destruct SignalDemo.heard_late_facts as (Hat & Hh & Hok). split; [exact Hat|].
  apply (signal_ends_program 8 false 2 60 _ SignalDemo.heard_late_reachable Hh); [by rewrite Hat|exact Hok].
Defined.

Lemma signal_during_start_is_lost_witness :
  at_ SignalDemo.deaf = MWait ∧
  at_ SignalDemo.deaf ≠ MLeft ∧ Forall (λ w, pc w ≠ LExit) (pool_ (sv SignalDemo.deaf)) ∧
  sv (on_signal SignalDemo.deaf) = sv SignalDemo.deaf.
Proof.
  split; [vm_compute; reflexivity|].
  apply (signal_during_start_is_lost 8 false 2 60 SignalDemo.heard_early); [lia| | |].
  - exact SignalDemo.heard_early_reachable.
  - vm_compute. reflexivity.
  - exact SignalDemo.deaf_after.
Defined.
