(* ===== verification/LogStream.v ===== *)
(** * LogStream: the front end of the logger

    Models [include/coro_net/log/log_stream.hpp], [src/log/log_stream.cc] and
    [include/coro_net/log/logger.hpp], [src/log/logger.cc]: the fixed buffer that
    truncates, the conversion of integers and pointers to text, the file name
    kept from [__FILE__], the timestamp cached per second and the line that a
    [Logger] hands to the back end when it is destroyed.

    Text is a [list ascii].  [snprintf("%.12g")], [localtime_r] and the kernel's
    thread id are parameters. *)
From Stdlib Require Import Ascii String.
From S2P Require Import Prelude.

Abbreviation text := (list ascii) (only parsing).
Definition lit (s : string) : text := list_ascii_of_string s.
Definition ch (s : string) : ascii := match s with String c _ => c | EmptyString => zero end.

(** ** Integers *)

(** The table around [zero], which points nine characters into it. *)
Definition digits : text := lit "9876543210123456789".
Definition zero_at (lsd : Z) : option ascii :=
  if decide (-9 ≤ lsd) then digits !! Z.to_nat (lsd + 9) else None.

(** The [do]/[while] of [convert]: C++'s remainder and division round to zero. *)
Fixpoint convert_loop (fuel : nat) (i : Z) : option text :=
  match fuel with
  | O => None
  | S fuel =>
      c ← zero_at (Z.rem i 10);
      let i := Z.quot i 10 in
      if i =? 0 then Some [c]
      else l ← convert_loop fuel i; Some (c :: l)
  end.

(** [convert]: a 64-bit value has at most 20 decimal digits. *)
Definition convert (value : Z) : option text :=
  l ← convert_loop 20 value;
  Some (reverse (if value <? 0 then l ++ [ch "-"] else l)).

Definition digitsHex : text := lit "0123456789ABCDEF".
Fixpoint convertHex_loop (fuel : nat) (v : Z) : option text :=
  match fuel with
  | O => None
  | S fuel =>
      c ← digitsHex !! Z.to_nat (Z.land v 15);
      let v := Z.shiftr v 4 in
      if v =? 0 then Some [c]
      else l ← convertHex_loop fuel v; Some (c :: l)
  end.
Definition convertHex (v : Z) : option text :=
  l ← convertHex_loop 16 v; Some (reverse l).

(** ** FixedBuffer *)

(** The bytes written, [data_] to [cur_]. *)
Record FixedBuffer := mkFixed { content : text; SIZE : Z }.

Definition length_ (b : FixedBuffer) : Z := zlen (content b).
Definition avail (b : FixedBuffer) : Z := SIZE b - length_ b.
Definition append (buf : text) (b : FixedBuffer) : FixedBuffer :=
  let len := zlen buf in
  let len := if avail b <? len then avail b else len in
  mkFixed (content b ++ slice buf 0 len) (SIZE b).

Definition SmallBuffer : FixedBuffer := mkFixed [] 4000.
Definition kMaxNumericSize : Z := 48.

Section log_stream.
(** Floating-point values and what [snprintf("%.12g")] prints for them. *)
Context {F : Type} (format_g : F → text).

(** The overloads of [operator<<]. *)
Inductive item : Type :=
  | IBool (v : bool)
  | IInteger (v : Z)                (* the eight integer types *)
  | IDouble (v : F)
  | IChar (v : ascii)
  | ICString (str : option text)    (* [None] is a null pointer *)
  | IString (s : text)              (* [std::string], [std::string_view] *)
  | IPointer (p : Z).

(** A conversion into [char buf[kMaxNumericSize]], a [NUL] included. *)
Definition numeric (o : option text) (b : FixedBuffer) : res FixedBuffer :=
  if length_ b + kMaxNumericSize <? SIZE b then
    match o with
    | Some l => if zlen l <? kMaxNumericSize then Ok (append l b) else UB
    | None => UB
    end
  else Ok b.

Definition put (i : item) (b : FixedBuffer) : res FixedBuffer :=
  match i with
  | IBool v => Ok (append (lit (if v then "1" else "0")) b)
  | IInteger v => numeric (convert v) b
  | IDouble v => numeric (Some (format_g v)) b
  | IChar v => Ok (append [v] b)
  | ICString (Some str) => Ok (append str b)
  | ICString None => Ok (append (lit "(null)") b)
  | IString s => Ok (append s b)
  | IPointer p =>
      numeric (l ← convertHex p; Some (lit "0x" ++ l)) b
  end.

Fixpoint puts (items : list item) (b : FixedBuffer) : res FixedBuffer :=
  match items with
  | [] => Ok b
  | i :: items => b ← put i b; puts items b
  end.

(** ** Logger *)

(** [SourceFile(const char (&)[N])]: the loop from the last character down. *)
Fixpoint find_slash (n : nat) (arr : text) : option nat :=
  match n with
  | O => None
  | S i => if decide (arr !! i = Some (ch "/")) then Some (S i) else find_slash i arr
  end.
Definition SourceFile (arr : text) : text :=
  match find_slash (List.length arr) arr with
  | Some slash => drop slash arr
  | None => arr
  end.

(** The constructor of [SourceFile] from a pointer, by [strrchr]. *)
Fixpoint strrchr (s : text) (c : ascii) : option text :=
  match s with
  | [] => None
  | x :: s' =>
      match strrchr s' c with
      | Some t => Some t
      | None => if decide (x = c) then Some s else None
      end
  end.
Definition SourceFile_ptr (filename : text) : text :=
  match strrchr filename (ch "/") with
  | Some t => tail t
  | None => filename
  end.

(** [log_level_name]: six characters, and only six are appended. *)
Definition log_level_name (lv : Z) : text :=
  if (lv <? 0) || (6 <=? lv) then lit "?????? "
  else nth (Z.to_nat lv)
    [lit "TRACE "; lit "DEBUG "; lit "INFO  "; lit "WARN  "; lit "ERROR "; lit "FATAL "] [].
Definition FATAL : Z := 5.

(** [format_timestamp] and its thread-local cache; [render] is [localtime_r] and
    the [snprintf] of a second, [pad6] that of the microseconds. *)
Context (render pad6 : Z → text).
Record cache := mkCache { t_last_second : Z; t_time_str : text }.
Definition no_cache : cache := mkCache 0 [].
Definition format_timestamp (sec nsec : Z) (c : cache) : text * cache :=
  let usec := Z.quot nsec 1000 in
  let c := if decide (sec = t_last_second c) then c else mkCache sec (render sec) in
  (t_time_str c ++ lit "." ++ pad6 usec ++ lit " ", c).

(** The thread-local id: [gettid] is called once per thread; [render5] is the
    [snprintf] of ["%5d"] and its count. *)
Record tid_cache := mkTid { t_cached_tid : Z; t_tid_str : text }.
Definition cache_tid (gettid : Z) (render5 : Z → text) (c : tid_cache) : tid_cache :=
  if t_cached_tid c =? 0 then mkTid gettid (render5 gettid) else c.

(** The constructor of [Logger], [tid] being the cached thread id. *)
Definition format_prefix (ts tid : text) (level : Z) (b : FixedBuffer) : FixedBuffer :=
  append (slice (log_level_name level) 0 6) (append (lit " ") (append tid (append ts b))).

Record Logger := mkLogger {
  stream_ : FixedBuffer;
  level_ : Z;
  line_ : Z;
  file_ : text;
  to_abort_ : bool;
}.

(** The three constructors; [es] is what [strerror_r] gives for [errno]. *)
Inductive ctor : Type :=
  | Plain (level : Z)
  | Func (level : Z) (func : option text)
  | Sys (toAbort : bool) (e : Z) (es : option text).
Definition ERROR : Z := 4.
Definition new_Logger (c : ctor) (file : text) (line : Z) (ts tid : text) : res Logger :=
  match c with
  | Plain level =>
      let b := format_prefix ts tid level SmallBuffer in
      Ok (mkLogger b level line (SourceFile file) false)
  | Func level func =>
      let b := format_prefix ts tid level SmallBuffer in
      b ← match func with
          | Some f => puts [ICString (Some f); IChar (ch " ")] b
          | None => Ok b
          end;
      Ok (mkLogger b level line (SourceFile file) false)
  | Sys toAbort e es =>
      let level := if toAbort then FATAL else ERROR in
      let b := format_prefix ts tid level SmallBuffer in
      b ← puts [ICString (Some (lit "(errno=")); IInteger e; ICString (Some (lit ": "));
                ICString (Some (match es with Some es => es | None => lit "?" end));
                ICString (Some (lit ") "))] b;
      Ok (mkLogger b level line (SourceFile file) toAbort)
  end.

(** The destructor: the line given to [AsyncLogger::append], and whether the
    process then aborts. *)
Definition destroy (l : Logger) : res (text * bool) :=
  b ← puts [ICString (Some (lit " - ")); ICString (Some (file_ l)); IChar (ch ":");
            IInteger (line_ l); IChar (ascii_of_nat 10)] (stream_ l);
  Ok (content b, (level_ l =? FATAL) || to_abort_ l).

(** A whole [LOG_*] statement. *)
Definition log (c : ctor) (file : text) (line : Z) (ts tid : text)
    (msg : list item) : res (text * bool) :=
  l ← new_Logger c file line ts tid;
  b ← puts msg (stream_ l);
  destroy (mkLogger b (level_ l) (line_ l) (file_ l) (to_abort_ l)).
End log_stream.

(** ** The [LOG_] macros *)

Inductive macro : Type :=
  | LOG_TRACE | LOG_DEBUG | LOG_INFO | LOG_WARN | LOG_ERROR | LOG_FATAL
  | LOG_SYSERR | LOG_SYSFATAL.

(** The constructor a macro calls; [func] is [__func__], [e] is [errno]. *)
Definition macro_ctor (func : text) (e : Z) (es : option text) (m : macro) : ctor :=
  match m with
  | LOG_TRACE => Func 0 (Some func)
  | LOG_DEBUG => Func 1 (Some func)
  | LOG_INFO => Plain 2
  | LOG_WARN => Plain 3
  | LOG_ERROR => Plain ERROR
  | LOG_FATAL => Plain FATAL
  | LOG_SYSERR => Sys false e es
  | LOG_SYSFATAL => Sys true e es
  end.

(** [if constexpr (CORO_NET_LOG_MIN_LEVEL_VAL > k) ;] and the run-time test after it;
    the other macros have neither. *)
Definition tested (m : macro) : option Z :=
  match m with
  | LOG_TRACE => Some 0
  | LOG_DEBUG => Some 1
  | LOG_INFO => Some 2
  | _ => None
  end.

(** What runs of [M << msg;], in which an [else] that follows belongs to the macro's
    own [if]: the statement, the [else], or nothing. *)
Inductive ran : Type := RLog | RElse | RNothing.
Definition macro_stmt (min global : Z) (m : macro) (els : bool) : ran :=
  match tested m with
  | Some k => if k <? min then RNothing else if global <=? k then RLog
              else if els then RElse else RNothing
  | None => RLog
  end.

(** [if (cond) M << msg; else f();]: the [else] belongs to the nearest [if], which is
    the macro's if it has one. *)
Definition if_log_else (cond : bool) (min global : Z) (m : macro) : ran :=
  match tested m with
  | Some _ => if cond then macro_stmt min global m true else RNothing
  | None => if cond then macro_stmt min global m false else RElse
  end.

(** ** Reading numbers back *)

Definition digit_val (c : ascii) : option Z :=
  let n := Z.of_nat (nat_of_ascii c) in
  if (48 <=? n) && (n <=? 57) then Some (n - 48)
  else if (65 <=? n) && (n <=? 70) then Some (n - 55) else None.
Definition read_digit (base : Z) (acc : option Z) (c : ascii) : option Z :=
  a ← acc; d ← digit_val c; Some (base * a + d).
(** Reads digits, most significant first. *)
Definition read_digits (base : Z) (l : text) : option Z :=
  match l with [] => None | _ => foldl (read_digit base) (Some 0) l end.
(** Reads a decimal number with an optional sign. *)
Definition read_decimal (l : text) : option Z :=
  match l with
  | c :: l' => if decide (c = ch "-") then Z.opp <$> read_digits 10 l' else read_digits 10 l
  | [] => None
  end.

(** All cases of a bounded integer. *)
Ltac enum_Z r :=
  match goal with
  | H : ?lo ≤ r ≤ ?hi |- _ =>
      let Hd := fresh in
      destruct (decide (r = lo)) as [->|Hd];
      [|let lo' := eval vm_compute in (lo + 1) in
        assert (lo' ≤ r ≤ hi) by lia; clear H Hd; try lia; enum_Z r]
  end.

Lemma zero_at_digit r :
  -9 ≤ r ≤ 9 → ∃ c, zero_at r = Some c ∧ digit_val c = Some (Z.abs r) ∧ c ≠ ch "-" ∧
    (r ≠ 0 → c ≠ ch "0").
Proof.
  intros Hr. enum_Z r; eexists; (split; [vm_compute; reflexivity|]);
    (split; [vm_compute; reflexivity|]); split; try discriminate; try lia.
  all: intros; try discriminate; lia.
Qed.

Lemma hex_digit r :
  0 ≤ r ≤ 15 → ∃ c, digitsHex !! Z.to_nat r = Some c ∧ digit_val c = Some r.
Proof.
  intros Hr. enum_Z r; eexists; (split; [vm_compute; reflexivity|]); vm_compute; reflexivity.
Qed.

Lemma read_snoc base l c a d :
  foldl (read_digit base) (Some 0) (reverse l) = Some a → digit_val c = Some d →
  foldl (read_digit base) (Some 0) (reverse (c :: l)) = Some (base * a + d).
Proof.
  intros Hl Hc. rewrite reverse_cons, foldl_snoc, Hl. unfold read_digit. cbn.
  by rewrite Hc.
Qed.

Lemma quot_rem_abs i : Z.abs i = 10 * Z.abs (Z.quot i 10) + Z.abs (Z.rem i 10).
Proof.
  pose proof (Z.quot_rem' i 10). pose proof (Z.rem_bound_abs i 10).
  pose proof (Z.rem_sign_nz i 10).
  destruct (Z.lt_trichotomy i 0) as [Hi|[->|Hi]]; [|done|].
  - pose proof (Z.rem_nonpos i 10 ltac:(lia) ltac:(lia)). lia.
  - pose proof (Z.rem_nonneg i 10 ltac:(lia) ltac:(lia)). lia.
Qed.

Lemma convert_loop_ok fuel i :
  Z.abs i < 10 ^ Z.of_nat fuel → (0 < fuel)%nat →
  ∃ l, convert_loop fuel i = Some l ∧ l ≠ [] ∧ (length l ≤ fuel)%nat ∧
    Forall (λ c, c ≠ ch "-") l ∧ (i ≠ 0 → last l ≠ Some (ch "0")) ∧
    foldl (read_digit 10) (Some 0) (reverse l) = Some (Z.abs i).
Proof.
  revert i. induction fuel as [|fuel IH]; intros i Hi Hf; [lia|]. cbn [convert_loop].
  pose proof (quot_rem_abs i) as Hqr.
  pose proof (Z.rem_bound_abs i 10 ltac:(lia)) as Hb.
  destruct (zero_at_digit (Z.rem i 10)) as (c & -> & Hc & Hdash & Hz); [lia|].
  cbn [mbind option_bind].
  destruct (Z.eqb_spec (Z.quot i 10) 0) as [H0|H0].
  - exists [c]. split_and!; try done; [by repeat constructor| |].
    + cbn. intros Hne [= ->]. apply Hz; [lia|done].
    + rewrite H0 in Hqr. cbn. rewrite Hc. cbn. f_equal. lia.
  - assert (Hpow : 10 ^ Z.of_nat (S fuel) = 10 * 10 ^ Z.of_nat fuel).
    { rewrite Nat2Z.inj_succ, Z.pow_succ_r by lia. done. }
    destruct fuel as [|fuel]; [rewrite Hpow in Hi; cbn in Hi; lia|].
    destruct (IH (Z.quot i 10)) as (l & -> & Hne & Hlen & Hdl & Hlast & Hread); [lia|lia|].
    exists (c :: l). split_and!; try done; [cbn; lia|by constructor| |].
    + intros _. destruct l; [done|]. by apply Hlast.
    + rewrite (read_snoc 10 l c _ _ Hread Hc). f_equal. lia.
Qed.

Lemma convertHex_loop_ok fuel v :
  0 ≤ v < 16 ^ Z.of_nat fuel → (0 < fuel)%nat →
  ∃ l, convertHex_loop fuel v = Some l ∧ l ≠ [] ∧ (length l ≤ fuel)%nat ∧
    foldl (read_digit 16) (Some 0) (reverse l) = Some v.
Proof.
  revert v. induction fuel as [|fuel IH]; intros v Hv Hf; [lia|]. cbn [convertHex_loop].
  assert (Hand : Z.land v 15 = v mod 16) by (apply (Z.land_ones v 4); lia).
  assert (Hshift : Z.shiftr v 4 = v / 16) by (apply (Z.shiftr_div_pow2 v 4); lia).
  rewrite Hand, Hshift. pose proof (Z.div_mod v 16 ltac:(lia)) as Hdm.
  pose proof (Z.mod_pos_bound v 16 ltac:(lia)).
  destruct (hex_digit (v mod 16)) as (c & -> & Hc); [lia|]. cbn [mbind option_bind].
  destruct (Z.eqb_spec (v / 16) 0) as [H0|H0].
  - exists [c]. split_and!; try done.
    rewrite H0 in Hdm. cbn. rewrite Hc. cbn. f_equal. lia.
  - assert (Hpow : 16 ^ Z.of_nat (S fuel) = 16 * 16 ^ Z.of_nat fuel).
    { rewrite Nat2Z.inj_succ, Z.pow_succ_r by lia. done. }
    destruct fuel as [|fuel]; [rewrite Hpow in Hv; cbn in Hv; lia|].
    destruct (IH (v / 16)) as (l & -> & Hne & Hlen & Hread); [lia|lia|].
    exists (c :: l). split_and!; try done; [cbn; lia|].
    rewrite (read_snoc 16 l c _ _ Hread Hc). f_equal. lia.
Qed.

Lemma reverse_nonempty {A} (l : list A) : l ≠ [] → reverse l ≠ [].
Proof. intros Hl Hr. apply Hl. by rewrite <-(reverse_involutive l), Hr. Qed.

Lemma convert_ok v :
  - 2 ^ 63 ≤ v < 2 ^ 64 →
  ∃ l, convert v = Some l ∧ zlen l ≤ 21 ∧ read_decimal l = Some v ∧
    (head l = Some (ch "0") → l = lit "0") ∧
    (head l = Some (ch "-") → head (tail l) ≠ Some (ch "0")).
Proof.
  intros Hv. destruct (convert_loop_ok 20 v) as (l & Hl & Hne & Hlen & Hdash & Hlast & Hread).
  { change (10 ^ Z.of_nat 20) with 100000000000000000000. lia. }
  { lia. }
  unfold convert. rewrite Hl. cbn [mbind option_bind].
  destruct (Z.ltb_spec v 0) as [Hneg|Hpos].
  - exists (ch "-" :: reverse l).
    rewrite reverse_app. cbn [reverse rev_append app].
    assert (Hr : reverse l ≠ []) by by apply reverse_nonempty.
    split_and!; [done| | |done|].
    + rewrite zlen_cons. unfold zlen. rewrite length_reverse. lia.
    + unfold read_decimal. rewrite decide_True by done. unfold read_digits.
      destruct (reverse l) eqn:He; [done|]. rewrite Hread. cbn. f_equal. lia.
    + intros _. cbn. rewrite head_reverse. apply Hlast. lia.
  - exists (reverse l).
    assert (Hhead : head (reverse l) ≠ Some (ch "-")).
    { rewrite head_reverse. intros Hl2. apply last_Some in Hl2 as [l' ->].
      apply Forall_app in Hdash as [_ Hd]. by inversion Hd. }
    split_and!; [done| | | |done].
    + unfold zlen. rewrite length_reverse. lia.
    + unfold read_decimal. pose proof (reverse_nonempty l Hne).
      destruct (reverse l) as [|c l2] eqn:He; [done|].
      rewrite decide_False by (intros ->; done).
      unfold read_digits. rewrite Hread. f_equal. lia.
    + rewrite head_reverse. intros H0. destruct (decide (v = 0)) as [->|Hv0].
      * by injection Hl as <-.
      * by destruct (Hlast Hv0).
Qed.

Lemma convert_length v l : convert v = Some l → zlen l ≤ 21.
Proof.
  assert (Hloop : ∀ fuel i l, convert_loop fuel i = Some l → (length l ≤ fuel)%nat).
  { induction fuel as [|fuel IH]; intros i l'; [done|]. cbn [convert_loop].
    intros (c & _ & Hc)%bind_Some. destruct (Z.quot i 10 =? 0).
    - injection Hc as <-. cbn. lia.
    - apply bind_Some in Hc as (l2 & Hl2 & [= <-]). cbn. apply IH in Hl2. lia. }
  intros (l' & Hl' & [= <-])%bind_Some. apply Hloop in Hl'.
  unfold zlen. rewrite length_reverse. destruct (v <? 0); rewrite ?length_app; cbn; lia.
Qed.

Lemma convertHex_ok v :
  0 ≤ v < 2 ^ 64 →
  ∃ l, convertHex v = Some l ∧ zlen l ≤ 16 ∧ read_digits 16 l = Some v.
Proof.
  intros Hv. destruct (convertHex_loop_ok 16 v) as (l & Hl & Hne & Hlen & Hread).
  { change (16 ^ Z.of_nat 16) with (2 ^ 64). lia. }
  { lia. }
  unfold convertHex. rewrite Hl. exists (reverse l). split_and!; [done| |].
  - unfold zlen. rewrite length_reverse. lia.
  - pose proof (reverse_nonempty l Hne). unfold read_digits.
    destruct (reverse l) eqn:He; [done|]. by rewrite Hread.
Qed.

(** ** The stream *)

Lemma append_bound s b :
  length_ b ≤ SIZE b → length_ (append s b) ≤ SIZE (append s b) ∧ SIZE (append s b) = SIZE b.
Proof.
  intros Hb. split; [|done]. unfold append, length_, avail, length_ in *. cbn.
  pose proof (zlen_nonneg s). rewrite zlen_app.
  destruct (Z.ltb_spec (SIZE b - zlen (content b)) (zlen s)); rewrite zlen_slice; lia.
Qed.

Lemma append_fits s b :
  length_ b + zlen s ≤ SIZE b → content (append s b) = content b ++ s.
Proof.
  unfold append, avail, length_. cbn. intros Hb.
  destruct (Z.ltb_spec (SIZE b - zlen (content b)) (zlen s)); [lia|].
  by rewrite slice_all.
Qed.

Lemma slice_app_prefix {A} (l xs : list A) k :
  0 ≤ k → slice (l ++ xs) 0 (zlen l + k) = l ++ slice xs 0 k.
Proof.
  intros Hk. pose proof (zlen_nonneg l).
  rewrite slice_app, slice_app_l, slice_all, slice_app_r by lia.
  by rewrite Z.add_0_l, Z.sub_diag.
Qed.

Lemma append_full s b :
  length_ b ≤ SIZE b → SIZE b ≤ length_ b + zlen s →
  content (append s b) = slice (content b ++ s) 0 (SIZE b).
Proof.
  unfold append, avail, length_. cbn. intros Hb Hs.
  pose proof (slice_app_prefix (content b) s (SIZE b - zlen (content b)) ltac:(lia)) as Hp.
  rewrite Zplus_minus in Hp. rewrite Hp. f_equal.
  destruct (Z.ltb_spec (SIZE b - zlen (content b)) (zlen s)); f_equal; lia.
Qed.

Section stream.
Context {F : Type} (format_g : F → text) (render pad6 : Z → text).
(** [%.12g] prints at most 19 characters: sign, 12 digits, point, exponent. *)
Hypothesis format_g_short : ∀ v, zlen (format_g v) < kMaxNumericSize.
Implicit Types i : @item F.

(** Values of the C++ types. *)
Definition valid_item i : Prop :=
  match i with
  | IInteger v => - 2 ^ 63 ≤ v < 2 ^ 64
  | IPointer p => 0 ≤ p < 2 ^ 64
  | _ => True
  end.

(** What an item prints when there is room. *)
Definition rendered i : text :=
  match i with
  | IBool v => lit (if v then "1" else "0")
  | IInteger v => default [] (convert v)
  | IDouble v => format_g v
  | IChar v => [v]
  | ICString (Some s) => s
  | ICString None => lit "(null)"
  | IString s => s
  | IPointer p => lit "0x" ++ default [] (convertHex p)
  end.

(** *** What the buffer holds after some items, whatever their length *)

(** Text is cut where the buffer ends.  A number is left out unless more than
    [kMaxNumericSize] bytes are free, however short it is. *)
Definition is_numeric i : bool :=
  match i with IInteger _ | IDouble _ | IPointer _ => true | _ => false end.
Definition fit (acc : text) i : text :=
  if is_numeric i && (3952 <=? zlen acc) then acc else slice (acc ++ rendered i) 0 4000.
Definition cut (items : list item) (acc : text) : text := foldl fit acc items.

Lemma slice_short {A} (l : list A) n : zlen l ≤ n → slice l 0 n = l.
Proof. intros Hl. unfold slice. cbn. rewrite drop_0. apply take_ge. unfold zlen in Hl. lia. Qed.

Lemma append_exact s acc :
  zlen acc ≤ 4000 → append s (mkFixed acc 4000) = mkFixed (slice (acc ++ s) 0 4000) 4000.
Proof.
  intros Hacc. destruct (decide (zlen acc + zlen s ≤ 4000)) as [Hle|Hgt].
  - pose proof (append_fits s (mkFixed acc 4000) Hle) as Hc. cbn in Hc.
    rewrite slice_short by (rewrite zlen_app; lia). rewrite <-Hc. done.
  - pose proof (append_full s (mkFixed acc 4000) Hacc ltac:(unfold length_; cbn [content SIZE]; lia)) as Hc. cbn in Hc.
    by rewrite <-Hc.
Qed.

Lemma rendered_numeric i :
  valid_item i → is_numeric i = true → zlen (rendered i) < kMaxNumericSize.
Proof.
  destruct i as [| v|v| | | |p]; try done; cbn [valid_item rendered]; intros Hv _.
  - destruct (convert_ok v Hv) as (l & -> & Hl & _). cbn. unfold kMaxNumericSize. lia.
  - apply format_g_short.
  - destruct (convertHex_ok p Hv) as (l & -> & Hl & _). cbn [default from_option id].
    rewrite zlen_app. change (zlen (lit "0x")) with 2. unfold kMaxNumericSize. lia.
Qed.

Lemma numeric_exact i acc :
  valid_item i → is_numeric i = true → zlen acc ≤ 4000 →
  numeric (Some (rendered i)) (mkFixed acc 4000) = Ok (mkFixed (fit acc i) 4000).
Proof.
  intros Hv Hi Hacc. unfold numeric, fit. rewrite Hi. cbn [andb length_ content SIZE].
  pose proof (rendered_numeric i Hv Hi) as Hl. rewrite (proj2 (Z.ltb_lt _ _) Hl).
  unfold kMaxNumericSize. unfold length_. cbn [content].
  destruct (Z.leb_spec 3952 (zlen acc)), (Z.ltb_spec (zlen acc + 48) 4000); try lia; [done|].
  by rewrite append_exact.
Qed.

Lemma fit_le acc i : zlen acc ≤ 4000 → zlen (fit acc i) ≤ 4000.
Proof.
  unfold fit. intros Hacc. destruct (_ && _); [done|]. unfold slice, zlen. rewrite length_take. lia.
Qed.

Lemma put_exact i acc :
  valid_item i → zlen acc ≤ 4000 →
  put format_g i (mkFixed acc 4000) = Ok (mkFixed (fit acc i) 4000).
Proof.
  intros Hv Hacc. pose proof (numeric_exact i acc Hv) as Hn.
  destruct i as [v|v|v|v|[s|]|s|p]; cbn [put];
    try (by rewrite append_exact by done); cbn [rendered] in Hn.
  - destruct (convert_ok v Hv) as (l & Hl & _). rewrite Hl in *. by apply Hn.
  - by apply Hn.
  - destruct (convertHex_ok p Hv) as (l & Hl & _). rewrite Hl in *. by apply Hn.
Qed.

Lemma puts_exact items : ∀ acc,
  Forall valid_item items → zlen acc ≤ 4000 →
  puts format_g items (mkFixed acc 4000) = Ok (mkFixed (cut items acc) 4000) ∧
  zlen (cut items acc) ≤ 4000.
Proof.
  induction items as [|i items IH]; intros acc Hall Hacc; [done|].
  apply Forall_cons in Hall as [Hi Hall]. cbn [puts]. rewrite put_exact by done.
  apply IH; [done|]. by apply fit_le.
Qed.

Lemma cut_app l1 l2 acc : cut (l1 ++ l2) acc = cut l2 (cut l1 acc).
Proof. apply foldl_app. Qed.

(** Nothing is lost while there is room for a number. *)
Lemma cut_short items : ∀ acc,
  zlen (acc ++ mjoin (rendered <$> items)) < 3952 →
  cut items acc = acc ++ mjoin (rendered <$> items).
Proof.
  induction items as [|i items IH]; intros acc; [cbn; by rewrite app_nil_r|].
  change (mjoin (rendered <$> i :: items)) with (rendered i ++ mjoin (rendered <$> items)).
  rewrite app_assoc. intros Hlen. change (cut (i :: items) acc) with (cut items (fit acc i)).
  assert (Hf : fit acc i = acc ++ rendered i).
  { rewrite !zlen_app in Hlen. pose proof (zlen_nonneg (mjoin (rendered <$> items))).
    pose proof (zlen_nonneg (rendered i)). unfold fit.
    destruct (Z.leb_spec 3952 (zlen acc)); [lia|]. rewrite andb_false_r.
    apply slice_short. rewrite zlen_app. lia. }
  rewrite Hf. by apply IH.
Qed.

(** Items that are text are complete up to the end of the buffer. *)
Lemma cut_texts items : ∀ acc,
  Forall (λ i, is_numeric i = false) items → zlen (acc ++ mjoin (rendered <$> items)) ≤ 4000 →
  cut items acc = acc ++ mjoin (rendered <$> items).
Proof.
  induction items as [|i items IH]; intros acc Hall; [cbn; by rewrite app_nil_r|].
  apply Forall_cons in Hall as [Hi Hall].
  change (mjoin (rendered <$> i :: items)) with (rendered i ++ mjoin (rendered <$> items)).
  rewrite app_assoc. intros Hlen. change (cut (i :: items) acc) with (cut items (fit acc i)).
  assert (Hf : fit acc i = acc ++ rendered i).
  { unfold fit. rewrite Hi. cbn [andb]. apply slice_short.
    rewrite zlen_app in Hlen. pose proof (zlen_nonneg (mjoin (rendered <$> items))). lia. }
  rewrite Hf. by apply IH.
Qed.

(** A full buffer takes nothing more. *)
Lemma cut_full items : ∀ acc, zlen acc = 4000 → cut items acc = acc.
Proof.
  induction items as [|i items IH]; intros acc Hacc; [done|].
  change (cut (i :: items) acc) with (cut items (fit acc i)).
  assert (Hf : fit acc i = acc).
  { unfold fit. destruct (_ && _); [done|]. pose proof (slice_app_prefix acc (rendered i) 0 ltac:(lia)) as Hp.
    rewrite Z.add_0_r, Hacc in Hp. by rewrite Hp, slice_nil, app_nil_r. }
  rewrite Hf. by apply IH.
Qed.

(** ** File names *)

(** [base] is [path] without its directories. *)
Definition is_basename (path base : text) : Prop :=
  (ch "/" ∉ base) ∧ (path = base ∨ ∃ dir, path = dir ++ ch "/" :: base).

Lemma find_slash_spec n arr :
  match find_slash n arr with
  | Some k => (0 < k ≤ n)%nat ∧ arr !! pred k = Some (ch "/") ∧
      ∀ j, (k ≤ j < n)%nat → arr !! j ≠ Some (ch "/")
  | None => ∀ j, (j < n)%nat → arr !! j ≠ Some (ch "/")
  end.
Proof.
  induction n as [|n IH]; cbn [find_slash]; [lia|].
  destruct (decide (arr !! n = Some (ch "/"))) as [He|He].
  - split_and!; [lia|lia|done|lia].
  - destruct (find_slash n arr) as [k|].
    + destruct IH as (? & ? & Hno). split_and!; [lia|lia|done|].
      intros j Hj. destruct (decide (j = n)) as [->|]; [done|]. apply Hno. lia.
    + intros j Hj. destruct (decide (j = n)) as [->|]; [done|]. apply IH. lia.
Qed.

Lemma SourceFile_basename path : is_basename path (SourceFile path).
Proof.
  unfold SourceFile. pose proof (find_slash_spec (List.length path) path) as Hs.
  destruct (find_slash (List.length path) path) as [k|].
  - destruct Hs as (Hk & Hslash & Hno). split.
    + intros [j Hj]%list_elem_of_lookup. rewrite lookup_drop in Hj.
      apply (Hno (k + j)%nat); [|done]. apply lookup_lt_Some in Hj as Hlt. lia.
    + right. exists (take (pred k) path).
      rewrite <-(take_drop_middle path (pred k) (ch "/")) at 1 by done.
      by replace (S (pred k)) with k by lia.
  - split; [|by left]. intros [j Hj]%list_elem_of_lookup.
    apply (Hs j); [|done]. by eapply lookup_lt_Some.
Qed.

Lemma strrchr_basename path : is_basename path (SourceFile_ptr path).
Proof.
  unfold SourceFile_ptr.
  assert (Hs : match strrchr path (ch "/") with
    | Some t => ∃ base dir, t = ch "/" :: base ∧ (ch "/" ∉ base) ∧ path = dir ++ t
    | None => ch "/" ∉ path end).
  { induction path as [|c path IH]; cbn [strrchr]; [apply not_elem_of_nil|].
    destruct (strrchr path (ch "/")) as [t|].
    - destruct IH as (base & dir & -> & ? & ->). by exists base, (c :: dir).
    - destruct (decide (c = ch "/")) as [->|Hc].
      + by exists path, [].
      + apply not_elem_of_cons. done. }
  destruct (strrchr path (ch "/")) as [t|].
  - destruct Hs as (base & dir & -> & ? & ->). split; [done|]. right. by exists dir.
  - split; [done|by left].
Qed.

Lemma basename_unique path b1 b2 : is_basename path b1 → is_basename path b2 → b1 = b2.
Proof.
  assert (Hone : ∀ d1 d2 b1 b2 : text, ch "/" ∉ b1 → ch "/" ∉ b2 →
    d1 ++ ch "/" :: b1 = d2 ++ ch "/" :: b2 → b1 = b2).
  { induction d1 as [|c d1 IH]; intros [|c' d2] b1' b2' H1 H2 Heq; cbn in Heq.
    - congruence.
    - injection Heq as <- Heq. subst b1'. set_solver.
    - injection Heq as -> Heq. subst b2'. set_solver.
    - injection Heq as _ Heq. by apply (IH d2). }
  intros [H1 [E1|[d1 E1]]] [H2 [E2|[d2 E2]]].
  - congruence.
  - subst path. subst b1. set_solver.
  - subst path. subst b2. set_solver.
  - apply (Hone d1 d2); congruence.
Qed.

(** ** Whole lines *)

(** The level of a statement, whether it aborts, and what its constructor streams
    after the prefix. *)
Definition ctor_level (c : ctor) : Z :=
  match c with
  | Plain level | Func level _ => level
  | Sys toAbort _ _ => if toAbort then FATAL else ERROR
  end.
Definition ctor_items (c : ctor) : list (@item F) :=
  match c with
  | Plain _ | Func _ None => []
  | Func _ (Some f) => [ICString (Some f); IChar (ch " ")]
  | Sys _ e es =>
      [ICString (Some (lit "(errno=")); IInteger e; ICString (Some (lit ": "));
       ICString (Some (default (lit "?") es)); ICString (Some (lit ") "))]
  end.

(** A statement below [WARN] logs exactly when its level is at least both thresholds;
    the thresholds do not apply to the others. *)
Theorem log_threshold min global m func e es :
  macro_stmt min global m false = RLog ↔
  3 ≤ ctor_level (macro_ctor func e es m) ∨
  (min ≤ ctor_level (macro_ctor func e es m) ∧ global ≤ ctor_level (macro_ctor func e es m)).
Proof.
  destruct m; unfold macro_stmt; cbn; unfold ERROR, FATAL;
    try (split; [intros _; left; lia|done]);
    match goal with |- context [?k <? min] => destruct (Z.ltb_spec k min) end;
    try match goal with |- context [global <=? ?k] => destruct (Z.leb_spec global k) end;
    (split; [intros ?; try done; lia|intros ?; try done; lia]).
Qed.

(** The [else] of a statement [if (cond) LOG_INFO << ...; else f();] never runs when
    [cond] is false, and runs when [cond] is true and the level is filtered out. *)
Theorem log_swallows_else min global m k :
  tested m = Some k →
  if_log_else false min global m = RNothing ∧
  (min ≤ k < global → if_log_else true min global m = RElse).
Proof.
  unfold if_log_else, macro_stmt. intros ->. split; [done|]. intros [H1 H2].
  destruct (Z.ltb_spec k min), (Z.leb_spec global k); done || lia.
Qed.

(** [errno] is an [int]. *)
Definition valid_ctor (c : ctor) : Prop :=
  match c with Sys _ e _ => - 2 ^ 31 ≤ e < 2 ^ 31 | _ => True end.

(** What the constructor of [Logger] writes before the message. *)
Definition prefix (ts tid : text) (c : ctor) : text :=
  ts ++ tid ++ lit " " ++ slice (log_level_name (ctor_level c)) 0 6 ++
  mjoin (rendered <$> ctor_items c).
Definition newline : ascii := ascii_of_nat 10.
Definition suffix (file : text) (line : Z) : text :=
  lit " - " ++ SourceFile file ++ lit ":" ++ default [] (convert line) ++ [newline].

(** The items a [LOG_*] statement streams into the buffer. *)
Definition line_items (ts tid : text) (c : ctor) (msg : list item)
    (file : text) (line : Z) : list (@item F) :=
  [IString ts; IString tid; IString (lit " ");
   IString (slice (log_level_name (ctor_level c)) 0 6)] ++
  ctor_items c ++ msg ++
  [ICString (Some (lit " - ")); ICString (Some (SourceFile file)); IChar (ch ":");
   IInteger line; IChar newline].

Lemma puts_app l1 l2 b :
  puts format_g (l1 ++ l2) b = (puts format_g l1 b ≫= puts format_g l2).
Proof.
  revert b. induction l1 as [|i l1 IH]; intros b; [done|]. cbn [app puts].
  rewrite res_bind_assoc. by destruct (put format_g i b); cbn.
Qed.

Lemma new_Logger_puts c file line ts tid :
  new_Logger format_g c file line ts tid =
  (b ← puts format_g (ctor_items c) (format_prefix ts tid (ctor_level c) SmallBuffer);
   Ok (mkLogger b (ctor_level c) line (SourceFile file)
     (match c with Sys toAbort _ _ => toAbort | _ => false end))).
Proof. by destruct c as [|? [?|]|[] ? [?|]]. Qed.

Lemma log_puts c file line ts tid msg :
  log format_g c file line ts tid msg =
  (b ← puts format_g (line_items ts tid c msg file line) SmallBuffer;
   Ok (content b, ctor_level c =? FATAL)).
Proof.
  unfold log, destroy, line_items. rewrite new_Logger_puts, puts_app, !res_bind_assoc.
  change (puts format_g [_; _; _; _] SmallBuffer) with
    (@Ok FixedBuffer (format_prefix ts tid (ctor_level c) SmallBuffer)).
  generalize (format_prefix ts tid (ctor_level c) SmallBuffer) as b0. intros b0.
  change (Ok b0 ≫= ?f) with (f b0). cbv beta. rewrite puts_app, res_bind_assoc.
  destruct (puts format_g (ctor_items c) b0) as [b1| | |]; [|done..].
  cbn [mbind res_bind stream_ level_ line_ file_ to_abort_]. rewrite puts_app, res_bind_assoc.
  destruct (puts format_g msg b1) as [b2| | |]; [|done..]. cbn [mbind res_bind].
  destruct (puts format_g _ b2) as [b3| | |]; [|done..]. cbn [mbind res_bind].
  do 2 f_equal. by destruct c as [| |[]]; rewrite ?orb_false_r.
Qed.

Lemma log_level_name_length level : zlen (slice (log_level_name level) 0 6) = 6.
Proof.
  unfold log_level_name. destruct (Z.ltb_spec level 0); [done|].
  destruct (Z.leb_spec 6 level); [done|]. cbn [orb].
  assert (Hl : 0 ≤ level ≤ 5) by lia. enum_Z level; reflexivity.
Qed.

Lemma ctor_items_valid c : valid_ctor c → Forall valid_item (ctor_items c).
Proof. destruct c as [|? [?|]|? e ?]; repeat constructor; cbn in *; lia. Qed.

(** The line of a statement, to the byte. *)
Lemma log_cut ts tid c msg file line :
  Forall valid_item msg → valid_ctor c → - 2 ^ 31 ≤ line < 2 ^ 31 →
  log format_g c file line ts tid msg =
    Ok (cut (line_items ts tid c msg file line) [], ctor_level c =? FATAL) ∧
  zlen (cut (line_items ts tid c msg file line) []) ≤ 4000.
Proof.
  intros Hmsg Hctor Hline. rewrite log_puts. change SmallBuffer with (mkFixed [] 4000).
  destruct (puts_exact (line_items ts tid c msg file line) []) as [-> Hlen]; [|done|done].
  unfold line_items. repeat (apply Forall_app; split);
    [by repeat constructor|by apply ctor_items_valid|done|]. repeat constructor; cbn; lia.
Qed.

(** What comes before the line number. *)
Definition line_start (ts tid : text) (c : ctor) (msg : list item) (file : text) : text :=
  prefix ts tid c ++ mjoin (rendered <$> msg) ++ lit " - " ++ SourceFile file ++ lit ":".
Definition start_items (ts tid : text) (c : ctor) (msg : list item) (file : text) :=
  [IString ts; IString tid; IString (lit " ");
   IString (slice (log_level_name (ctor_level c)) 0 6)] ++
  ctor_items c ++ msg ++
  [ICString (Some (lit " - ")); ICString (Some (SourceFile file)); IChar (ch ":")].

Lemma line_items_start ts tid c msg file line :
  line_items ts tid c msg file line = start_items ts tid c msg file ++ [IInteger line; IChar newline].
Proof. unfold line_items, start_items. by rewrite <-!app_assoc. Qed.

Lemma start_items_rendered ts tid c msg file :
  mjoin (rendered <$> start_items ts tid c msg file) = line_start ts tid c msg file.
Proof.
  unfold start_items, line_start, prefix. rewrite !fmap_app, !join_app.
  cbn [fmap list_fmap rendered mjoin list_join]. by rewrite !app_nil_r, <-!app_assoc.
Qed.

(** What a line is when it is complete. *)
Definition full_line (ts tid : text) (c : ctor) (msg : list item)
    (file : text) (line : Z) : text :=
  prefix ts tid c ++ mjoin (rendered <$> msg) ++ suffix file line.

Lemma full_line_start ts tid c msg file line :
  full_line ts tid c msg file line =
  line_start ts tid c msg file ++ default [] (convert line) ++ [newline].
Proof. unfold full_line, line_start, suffix. by rewrite <-!app_assoc. Qed.

(** The end of a line, after a start of fewer than 3952 bytes. *)
Lemma cut_complete ts tid c msg file line :
  - 2 ^ 31 ≤ line < 2 ^ 31 → zlen (line_start ts tid c msg file) < 3952 →
  cut (line_items ts tid c msg file line) [] = full_line ts tid c msg file line.
Proof.
  intros Hline Hlen.
  rewrite line_items_start, cut_app, (cut_short (start_items ts tid c msg file));
    rewrite ?start_items_rendered; [|done].
  rewrite full_line_start. cbn [app]. unfold cut. cbn [foldl]. unfold fit at 2.
  destruct (Z.leb_spec 3952 (zlen (line_start ts tid c msg file))); [lia|]. rewrite andb_false_r.
  pose proof (rendered_numeric (IInteger line) ltac:(cbn; lia) eq_refl) as Hn.
  unfold kMaxNumericSize in Hn. cbn [rendered] in *.
  rewrite (slice_short (_ ++ default [] _)) by (rewrite zlen_app; lia).
  unfold fit. cbn [is_numeric andb rendered]. rewrite slice_short, <-app_assoc; [done|].
  rewrite !zlen_app. change (zlen [newline]) with 1. lia.
Qed.

(** The timestamps of successive lines of a thread. *)
Fixpoint stamps (readings : list (Z * Z)) (c : cache) : list text :=
  match readings with
  | [] => []
  | (sec, nsec) :: readings =>
      let '(t, c) := format_timestamp render pad6 sec nsec c in t :: stamps readings c
  end.

(** ** Properties *)

(** C34: The conversion of any signed or unsigned 64-bit integer, the most
    negative one included, fits the 48-byte buffer, reads back as the number and
    has no leading zero. *)
Theorem convert_roundtrip v :
  - 2 ^ 63 ≤ v < 2 ^ 64 →
  ∃ l, convert v = Some l ∧ zlen l < kMaxNumericSize ∧ read_decimal l = Some v ∧
    (head l = Some (ch "0") → l = lit "0") ∧
    (head l = Some (ch "-") → head (tail l) ≠ Some (ch "0")).
Proof.
  intros Hv. destruct (convert_ok v Hv) as (l & ? & ? & ? & ? & ?).
  exists l. unfold kMaxNumericSize. split_and!; [done|lia|done..].
Qed.

(** A pointer prints as the hexadecimal digits of its value, at most sixteen. *)
Theorem convertHex_roundtrip v :
  0 ≤ v < 2 ^ 64 →
  ∃ l, convertHex v = Some l ∧ zlen l ≤ 16 ∧ read_digits 16 l = Some v.
Proof. apply convertHex_ok. Qed.

Lemma log_exact ts tid c msg file line :
  Forall valid_item msg → valid_ctor c → - 2 ^ 31 ≤ line < 2 ^ 31 →
  ∃ l, log format_g c file line ts tid msg = Ok (l, ctor_level c =? FATAL) ∧
    zlen l ≤ 4000 ∧
    (zlen (full_line ts tid c msg file line) < 3952 →
     l = full_line ts tid c msg file line).
Proof.
  intros Hmsg Hctor Hline. destruct (log_cut ts tid c msg file line Hmsg Hctor Hline) as [Hl Hlen].
  eexists. split; [exact Hl|]. split; [done|]. rewrite full_line_start at 1.
  intros Hs. apply cut_complete; [done|]. rewrite zlen_app in Hs. zlen_lia.
Qed.

(** C38: A log statement never overruns its buffers and logs exactly this line, of at
    most 4000 bytes: timestamp, thread, level, function or error, message, file name,
    line number and newline, each in its turn, where text is cut at byte 4000 and a
    number, the line number included, is left out when 3952 bytes or more precede it.
    So the line is complete when fewer than 3952 bytes come before its line number.
    The process aborts after a [FATAL] line only. *)
Theorem log_line ts tid c msg file line :
  Forall valid_item msg → valid_ctor c → - 2 ^ 31 ≤ line < 2 ^ 31 →
  let l := cut (line_items ts tid c msg file line) [] in
  log format_g c file line ts tid msg = Ok (l, ctor_level c =? FATAL) ∧
  zlen l ≤ 4000 ∧
  (zlen (line_start ts tid c msg file) < 3952 → l = full_line ts tid c msg file line).
Proof.
  intros Hmsg Hctor Hline l. destruct (log_cut ts tid c msg file line Hmsg Hctor Hline) as [Hl Hlen].
  split; [exact Hl|]. split; [exact Hlen|]. by apply cut_complete.
Qed.

Lemma log_text ts tid c s file line :
  valid_ctor c → zlen (prefix ts tid c) < 3952 → - 2 ^ 31 ≤ line < 2 ^ 31 →
  log format_g c file line ts tid [IString s] =
  Ok (cut [IString s; ICString (Some (lit " - ")); ICString (Some (SourceFile file)); IChar (ch ":");
       IInteger line; IChar newline] (prefix ts tid c), ctor_level c =? FATAL).
Proof.
  intros Hctor Hp Hline. destruct (log_cut ts tid c [IString s] file line) as [-> _]; [by repeat constructor|done..|].
  unfold line_items. rewrite app_assoc, cut_app. set (first := _ ++ ctor_items c).
  assert (Hfirst : mjoin (rendered <$> first) = prefix ts tid c).
  { unfold first, prefix. rewrite fmap_app, join_app.
    cbn [fmap list_fmap rendered mjoin list_join]. by rewrite !app_nil_r, <-!app_assoc. }
  rewrite (cut_short first) by (by rewrite Hfirst). by rewrite Hfirst.
Qed.

(** A line that fits the buffer may lose its line number all the same. *)
Theorem fitting_line_loses_number ts tid c s file line :
  valid_ctor c → zlen (prefix ts tid c) < 3952 → - 2 ^ 31 ≤ line < 2 ^ 31 →
  let start := line_start ts tid c [IString s] file in
  3952 ≤ zlen start < 4000 →
  log format_g c file line ts tid [IString s] = Ok (start ++ [newline], ctor_level c =? FATAL).
Proof.
  intros Hctor Hp Hline start Hs. rewrite log_text by done. do 2 f_equal.
  change [IString s; ?a; ?b; ?d; ?e; ?f] with ([IString s; a; b; d] ++ [e; f]).
  assert (Hstart : prefix ts tid c ++ mjoin (rendered <$>
      [IString s; ICString (Some (lit " - ")); ICString (Some (SourceFile file)); IChar (ch ":")]) = start).
  { unfold start, line_start. cbn [fmap list_fmap rendered mjoin list_join]. by rewrite !app_nil_r, ?app_nil_l. }
  rewrite cut_app, (cut_texts [_; _; _; _]); [|by repeat constructor|rewrite Hstart; lia]. rewrite Hstart.
  assert (Hnum : (3952 <=? zlen start) = true) by (apply Z.leb_le; lia).
  unfold cut. cbn [foldl]. unfold fit. cbn [is_numeric]. rewrite !Hnum. cbn [andb].
  apply slice_short.
  cbn [rendered]. rewrite zlen_app. change (zlen [newline]) with 1. lia.
Qed.

(** A line whose message does not fit is cut without a trace: it ends inside
    the message, and the file name, the line number and the newline are lost, so
    the next line of the log continues on the same one. *)
Theorem long_line_loses_newline ts tid c s file line :
  valid_ctor c → - 2 ^ 31 ≤ line < 2 ^ 31 →
  zlen (prefix ts tid c) < 3952 → 4000 ≤ zlen (prefix ts tid c) + zlen s →
  log format_g c file line ts tid [IString s] =
  Ok (slice (prefix ts tid c ++ s) 0 4000, ctor_level c =? FATAL).
Proof.
  intros Hctor Hline Hp Hs. rewrite log_text by done. do 2 f_equal.
  change (cut (IString s :: ?r) ?p) with (cut r (slice (p ++ s) 0 4000)). apply cut_full.
  rewrite zlen_slice; [done|lia|lia|rewrite zlen_app; lia].
Qed.

(** Both constructors of [SourceFile] keep the part of the path behind its last
    slash. *)
Theorem source_file_basename path :
  SourceFile path = SourceFile_ptr path ∧ is_basename path (SourceFile path).
Proof.
  split; [|apply SourceFile_basename].
  apply (basename_unique path); [apply SourceFile_basename|apply strrchr_basename].
Qed.

(** The cached date is never stale: whatever the clock readings, forwards or
    backwards, each timestamp shows its own second and microsecond. *)
Theorem timestamps_fresh readings :
  Forall (λ r, r.1 ≠ 0) readings →
  stamps readings no_cache =
  (λ r, render r.1 ++ lit "." ++ pad6 (Z.quot r.2 1000) ++ lit " ") <$> readings.
Proof.
  intros Hall.
  assert (Hinv : ∀ c, t_last_second c = 0 ∨ t_time_str c = render (t_last_second c) →
    stamps readings c =
    (λ r, render r.1 ++ lit "." ++ pad6 (Z.quot r.2 1000) ++ lit " ") <$> readings).
  { induction Hall as [|[sec nsec] readings Hsec _ IH]; intros c Hc; [done|]. cbn in Hsec.
    cbn [stamps]. unfold format_timestamp. destruct (decide (sec = t_last_second c)) as [->|Hne].
    - destruct Hc as [Hc|Hc]; [done|]. rewrite Hc, IH by auto. done.
    - cbn. rewrite IH by auto. done. }
  apply Hinv. by left.
Qed.
End stream.

(** ** Witnesses *)

Module Demo.
(** No floating-point values. *)
Definition format_g (v : unit) : text := lit "0".
Lemma format_g_short v : zlen (format_g v) < kMaxNumericSize.
Proof. reflexivity. Qed.
Definition stamp : text := lit "20250101 08:00:00.000123 ".
Definition tid : text := lit "  123".
Definition msg : list (@item unit) := [ICString (Some (lit "fd=")); IInteger (-7)].
Definition long : text := replicate 5000 (ch "x").
Definition almost : text := replicate 3934 (ch "x").
End Demo.

Lemma convert_roundtrip_witness :
  convert (- 2 ^ 63) = Some (lit "-9223372036854775808") ∧
  ∃ l, convert (- 2 ^ 63) = Some l ∧ zlen l < kMaxNumericSize ∧
    read_decimal l = Some (- 2 ^ 63).
Proof.
  split; [vm_compute; reflexivity|].
  destruct (convert_roundtrip (- 2 ^ 63)) as (l & H1 & H2 & H3 & _); [lia|].
  exists l. split; [exact H1|]. split; [exact H2|exact H3].
Defined.

Lemma convertHex_roundtrip_witness :
  ∃ l, convertHex 48879 = Some l ∧ zlen l ≤ 16 ∧ read_digits 16 l = Some 48879.
Proof. apply (convertHex_roundtrip 48879). lia. Defined.

Lemma log_line_witness :
  log Demo.format_g (Sys false 98 (Some (lit "Address already in use")))
      (lit "src/net/tcp_server.cc") 42 Demo.stamp Demo.tid Demo.msg =
  Ok (Demo.stamp ++ lit "  123 ERROR (errno=98: Address already in use) fd=-7 - tcp_server.cc:42"
          ++ [newline], false).
Proof.
  destruct (log_line Demo.format_g Demo.format_g_short Demo.stamp Demo.tid
    (Sys false 98 (Some (lit "Address already in use"))) Demo.msg
    (lit "src/net/tcp_server.cc") 42) as (-> & _ & Hfull).
  - repeat constructor; cbn; lia.
  - cbn. lia.
  - lia.
  - rewrite Hfull; vm_compute; reflexivity.
Defined.

Lemma fitting_line_loses_number_witness :
  ∃ l, log Demo.format_g (Plain 2) (lit "a.cc") 1 Demo.stamp Demo.tid [IString Demo.almost] =
    Ok (l ++ [newline], false) ∧ zlen l = 3979.
Proof.
  eexists. split.
  - apply (fitting_line_loses_number Demo.format_g Demo.format_g_short Demo.stamp Demo.tid (Plain 2)
      Demo.almost (lit "a.cc") 1); [done|vm_compute; reflexivity|lia|]. split; [|vm_compute; reflexivity].
    vm_compute. discriminate.
  - vm_compute. reflexivity.
Defined.

Lemma long_line_loses_newline_witness :
  log Demo.format_g (Plain 2) (lit "a.cc") 1 Demo.stamp Demo.tid [IString Demo.long] =
  Ok (slice (prefix Demo.format_g Demo.stamp Demo.tid (Plain 2) ++ Demo.long) 0 4000, false).
Proof.
  apply (long_line_loses_newline Demo.format_g Demo.format_g_short Demo.stamp Demo.tid (Plain 2)).
  - done.
  - lia.
  - vm_compute. reflexivity.
  - vm_compute. discriminate.
Defined.

Lemma timestamps_fresh_witness :
  stamps (λ s, lit "t" ++ default [] (convert s)) (λ u, default [] (convert u))
    [(100, 5000); (100, 7000); (99, 1000)] no_cache =
  [lit "t100.5 "; lit "t100.7 "; lit "t99.1 "].
Proof.
  rewrite (timestamps_fresh (λ s, lit "t" ++ default [] (convert s))
    (λ u, default [] (convert u)) [(100, 5000); (100, 7000); (99, 1000)]).
  - vm_compute. reflexivity.
  - repeat constructor; cbn; lia.
Defined.
