(* ===== verification/LogFile.v ===== *)
(** * LogFile: the rolling log file

    Models [include/coro_net/log/log_file.hpp] and [src/log/log_file.cc]:
    [AppendFile] with its loop around [fwrite], and [LogFile], which opens a new
    file when the current one is too large or the day changes.

    The C library is a parameter: the [k]-th external call of a run returns
    [time k], [fopen k name], [fwrite k n] (the bytes written and [ferror]) or
    [fflush k] ([fclose] flushes too); [utc] is [gmtime_r] with [strftime].
    [log_file_keeps_lines] is about all answers that library may give; [log_file_sink]
    shows that the file implements [Interfaces.LogSink] when the calls succeed. *)
From Stdlib Require Import Ascii String.
From S2P Require Import Prelude Interfaces LogStream.

Definition kRollPerSeconds : Z := 60 * 60 * 24.

Record AppendFile := mkAppend {
  name_ : text;
  fp_ : bool;              (* non-null *)
  stream : text;           (* what [fwrite] has accepted *)
  on_disk : Z;             (* how much of it has been flushed *)
  written_bytes_ : Z;
}.

Record LogFile := mkLogFile {
  count_ : Z;
  same_second_seq_ : Z;
  start_of_period_ : Z;
  last_roll_ : Z;
  last_flush_ : Z;
  file_ : option AppendFile;
  closed : list AppendFile;   (* history: the files closed so far *)
  calls : nat;                (* the external calls made so far *)
}.

Section log_file.
Context (basename_ : text) (roll_size_ flush_interval_ check_every_n_ : Z).
Context (utc : Z → text) (gethostname : option text) (getpid : Z).
Context (time : nat → Z) (fopen : nat → text → bool).
Context (fwrite : nat → Z → Z * Z) (fflush : nat → bool).

(** ** AppendFile *)

Definition new_AppendFile (filename : text) (k : nat) : AppendFile * nat :=
  (mkAppend filename (fopen k filename) [] 0 0, S k).

Definition flush_AppendFile (f : AppendFile) (k : nat) : AppendFile * nat :=
  if fp_ f then
    (if fflush k
     then mkAppend (name_ f) (fp_ f) (stream f) (zlen (stream f)) (written_bytes_ f)
     else f, S k)
  else (f, k).

(** The destructor: [fclose] flushes. *)
Definition close_AppendFile (f : AppendFile) (k : nat) : AppendFile * nat :=
  flush_AppendFile f k.

(** The loop of [append]: the bytes counted as written.  Each turn writes at least
    a byte unless [fwrite] does not progress, so a turn per byte and a last test
    suffice. *)
Fixpoint append_loop (fuel : nat) (line : text) (written : Z) (f : AppendFile) (k : nat)
    : option (Z * AppendFile * nat) :=
  match fuel with
  | O => None
  | S fuel =>
      if written =? zlen line then Some (written, f, k) else
      let remain := u64 (zlen line - written) in
      let '(n, err) := fwrite k remain in
      let f := mkAppend (name_ f) (fp_ f) (stream f ++ slice line written n)
                 (on_disk f) (written_bytes_ f) in
      if negb (n =? remain) && negb (err =? 0) then Some (written, f, S k)
      else append_loop fuel line (written + n) f (S k)
  end.

Definition append_AppendFile (line : text) (f : AppendFile) (k : nat)
    : option (AppendFile * nat) :=
  if negb (fp_ f) then Some (f, k) else
  '(written, f, k) ← append_loop (S (List.length line)) line 0 f k;
  Some (mkAppend (name_ f) (fp_ f) (stream f) (on_disk f) (written_bytes_ f + written), k).

(** ** LogFile *)

(** [snprintf("%d")]: the digits that [LogStream] prints too. *)
Definition decimal (n : Z) : text := match convert n with Some l => l | None => [] end.
Definition host : text :=
  match gethostname with Some h => take 63 h | None => lit "unknownhost" end.

Definition make_filename (now : Z) (s : LogFile) : text * LogFile :=
  let seq := if now =? last_roll_ s then same_second_seq_ s + 1 else 0 in
  let seqbuf := if now =? last_roll_ s then lit "-" ++ decimal seq else [] in
  (basename_ ++ utc now ++ seqbuf ++ lit "." ++ host ++ lit "." ++ decimal getpid ++
     lit ".log",
   mkLogFile (count_ s) seq (start_of_period_ s) (last_roll_ s) (last_flush_ s)
     (file_ s) (closed s) (calls s)).

Definition roll_file (s : LogFile) : bool * LogFile :=
  let now := time (calls s) in
  let '(name, s) := make_filename now s in
  let k := S (calls s) in
  let start := Z.quot now kRollPerSeconds * kRollPerSeconds in
  if last_roll_ s <=? now then
    let '(file, k) := new_AppendFile name k in
    let '(old, k) :=
      match file_ s with
      | Some f => let '(f, k) := close_AppendFile f k in ([f], k)
      | None => ([], k)
      end in
    (true, mkLogFile (count_ s) (same_second_seq_ s) start now now (Some file)
             (closed s ++ old) k)
  else
    (false, mkLogFile (count_ s) (same_second_seq_ s) (start_of_period_ s) (last_roll_ s)
              (last_flush_ s) (file_ s) (closed s) k).

Definition new_LogFile : LogFile := (roll_file (mkLogFile 0 0 0 0 0 None [] 0)).2.

(** [append] once the line is in the file [f]. *)
Definition after_append (f : AppendFile) (k : nat) (s : LogFile) : LogFile :=
  let set count lf file k :=
    mkLogFile count (same_second_seq_ s) (start_of_period_ s) (last_roll_ s) lf (Some file)
      (closed s) k in
  if roll_size_ <? written_bytes_ f
  then (roll_file (set (count_ s) (last_flush_ s) f k)).2
  else
    let count := count_ s + 1 in
    if check_every_n_ <=? count then
      let now := time k in
      let this_period := Z.quot now kRollPerSeconds * kRollPerSeconds in
      if negb (this_period =? start_of_period_ s)
      then (roll_file (set 0 (last_flush_ s) f (S k))).2
      else if flush_interval_ <? now - last_flush_ s then
        let '(f, k) := flush_AppendFile f (S k) in set 0 now f k
      else set 0 (last_flush_ s) f (S k)
    else set count (last_flush_ s) f k.

Definition append (line : text) (s : LogFile) : option LogFile :=
  match file_ s with
  | None => Some s
  | Some f => '(f, k) ← append_AppendFile line f (calls s); Some (after_append f k s)
  end.

Definition flush (s : LogFile) : LogFile :=
  match file_ s with
  | None => s
  | Some f =>
      let '(f, k) := flush_AppendFile f (calls s) in
      mkLogFile (count_ s) (same_second_seq_ s) (start_of_period_ s) (last_roll_ s)
        (last_flush_ s) (Some f) (closed s) k
  end.

Fixpoint appends (lines : list text) (s : LogFile) : option LogFile :=
  match lines with
  | [] => Some s
  | line :: lines => s ← append line s; appends lines s
  end.
End log_file.

(** ** What an append does *)

Section append.
Context (basename_ : text) (roll_size_ flush_interval_ check_every_n_ : Z).
Context (utc : Z → text) (gethostname : option text) (getpid : Z).
Context (time : nat → Z) (fopen : nat → text → bool).
Context (fwrite : nat → Z → Z * Z) (fflush : nat → bool).
Implicit Types s : LogFile.
Implicit Types f : AppendFile.

Local Abbreviation roll := (roll_file basename_ utc gethostname getpid time fopen fflush).
Local Abbreviation name := (λ now s, (make_filename basename_ utc gethostname getpid now s).1).
Local Abbreviation append_line := (LogFile.append basename_ roll_size_ flush_interval_
  check_every_n_ utc gethostname getpid time fopen fwrite fflush).
Local Abbreviation append_lines := (LogFile.appends basename_ roll_size_ flush_interval_
  check_every_n_ utc gethostname getpid time fopen fwrite fflush).
Local Abbreviation new := (new_LogFile basename_ utc gethostname getpid time fopen fflush).

(** The calls of the C library succeed; [fwrite] may write less than it is asked. *)
Hypothesis fopen_ok : ∀ k filename, fopen k filename = true.
Hypothesis fflush_ok : ∀ k, fflush k = true.
Hypothesis fwrite_ok : ∀ k n, 0 < n → (fwrite k n).2 = 0 ∧ 0 < (fwrite k n).1 ≤ n.

Definition with_stream (t : text) f : AppendFile :=
  mkAppend (name_ f) (fp_ f) t (on_disk f) (zlen t).
Definition flushed f : AppendFile :=
  mkAppend (name_ f) (fp_ f) (stream f) (zlen (stream f)) (written_bytes_ f).

Lemma append_loop_ok fuel line written f k :
  zlen line < u64_mod → 0 ≤ written ≤ zlen line → zlen line - written < Z.of_nat fuel →
  ∃ f' k', append_loop fwrite fuel line written f k = Some (zlen line, f', k') ∧
    (k ≤ k')%nat ∧
    f' = mkAppend (name_ f) (fp_ f) (stream f ++ slice line written (zlen line - written))
           (on_disk f) (written_bytes_ f).
Proof.
  intros Hl. revert written f k. induction fuel as [|fuel IH]; intros written f k Hw Hf; [lia|].
  cbn [append_loop]. destruct (Z.eqb_spec written (zlen line)) as [->|Hne].
  - exists f, k. rewrite slice_nil, app_nil_r by lia. split_and!; [done|lia|by destruct f].
  - rewrite u64_small by lia.
    pose proof (fwrite_ok k (zlen line - written) ltac:(lia)) as [He Hn].
    destruct (fwrite k (zlen line - written)) as [n err]. cbn [fst snd] in He, Hn. subst err.
    rewrite Z.eqb_refl, andb_false_r.
    destruct (IH (written + n) (mkAppend (name_ f) (fp_ f) (stream f ++ slice line written n)
      (on_disk f) (written_bytes_ f)) (S k)) as (f' & k' & -> & Hk & ->); [lia|lia|].
    do 2 eexists. split_and!; [done|lia|]. cbn. f_equal. rewrite <-app_assoc. f_equal.
    rewrite <-slice_app by lia. f_equal. lia.
Qed.

(** A file in use: open, its counter exact. *)
Definition good f : Prop := fp_ f = true ∧ written_bytes_ f = zlen (stream f).

Lemma append_AppendFile_ok line f k :
  good f → zlen line < u64_mod →
  ∃ k', append_AppendFile fwrite line f k = Some (with_stream (stream f ++ line) f, k') ∧
    (k ≤ k')%nat.
Proof.
  intros [Hfp Hw] Hl. unfold append_AppendFile. rewrite Hfp. cbn [negb].
  pose proof (zlen_nonneg line).
  destruct (append_loop_ok (S (List.length line)) line 0 f k) as (f' & k' & -> & Hk & ->);
    [done|lia|unfold zlen; lia|].
  exists k'. split; [|done]. cbn. unfold with_stream. do 3 f_equal.
  - by rewrite Z.sub_0_r, slice_all.
  - by rewrite Hw, zlen_app.
Qed.

(** The current file was kept, or replaced at a reading of the clock. *)
Definition kept f s s' : Prop :=
  ∃ f', file_ s' = Some f' ∧ stream f' = stream f ∧ name_ f' = name_ f ∧ good f' ∧
    closed s' = closed s ∧ last_roll_ s' = last_roll_ s.
Definition rolled f s s' : Prop :=
  ∃ k, (calls s ≤ k ≤ calls s')%nat ∧ last_roll_ s ≤ time k ∧ last_roll_ s' = time k ∧
    same_second_seq_ s' =
      (if time k =? last_roll_ s then same_second_seq_ s + 1 else 0) ∧
    file_ s' = Some (mkAppend (name (time k) s) true [] 0 0) ∧
    ∃ f', name_ f' = name_ f ∧ closed s' = closed s ++ [flushed f'] ∧ stream f' = stream f.

(** No reading to come is before the last roll. *)
Definition clock_ok s : Prop := ∀ k, (calls s ≤ k)%nat → last_roll_ s ≤ time k.

Lemma roll_eq f s :
  file_ s = Some f → good f → last_roll_ s ≤ time (calls s) →
  (roll s).2 = mkLogFile (count_ s)
    (if time (calls s) =? last_roll_ s then same_second_seq_ s + 1 else 0)
    (Z.quot (time (calls s)) kRollPerSeconds * kRollPerSeconds) (time (calls s))
    (time (calls s)) (Some (mkAppend (name (time (calls s)) s) true [] 0 0))
    (closed s ++ [flushed f]) (S (S (S (calls s)))).
Proof.
  intros Hf [Hfp Hw] Hle. unfold roll_file. cbn [make_filename].
  cbn [calls last_roll_ file_ closed same_second_seq_ count_].
  rewrite (proj2 (Z.leb_le _ _) Hle). unfold new_AppendFile. rewrite fopen_ok, Hf.
  unfold close_AppendFile, flush_AppendFile, flushed. by rewrite Hfp, fflush_ok.
Qed.

Lemma roll_back_eq s :
  time (calls s) < last_roll_ s →
  (roll s).2 = mkLogFile (count_ s) 0 (start_of_period_ s) (last_roll_ s) (last_flush_ s)
    (file_ s) (closed s) (S (calls s)).
Proof.
  intros Hlt. unfold roll_file. cbn [make_filename].
  cbn [calls last_roll_ file_ closed same_second_seq_ count_ start_of_period_ last_flush_].
  rewrite (proj2 (Z.leb_gt _ _)), (proj2 (Z.eqb_neq _ _)) by lia. done.
Qed.

Lemma roll_ok f s :
  file_ s = Some f → good f →
  let s' := (roll s).2 in
  (calls s ≤ calls s')%nat ∧ (kept f s s' ∨ rolled f s s') ∧
  (last_roll_ s ≤ time (calls s) → rolled f s s').
Proof.
  intros Hf Hg. cbn zeta. destruct (decide (last_roll_ s ≤ time (calls s))) as [Hle|Hlt].
  - rewrite (roll_eq f) by done.
    assert (∀ s', s' = mkLogFile (count_ s)
      (if time (calls s) =? last_roll_ s then same_second_seq_ s + 1 else 0)
      (Z.quot (time (calls s)) kRollPerSeconds * kRollPerSeconds) (time (calls s))
      (time (calls s)) (Some (mkAppend (name (time (calls s)) s) true [] 0 0))
      (closed s ++ [flushed f]) (S (S (S (calls s)))) → rolled f s s') as Hr.
    { intros s' ->. exists (calls s). cbn. split_and!; try done; [lia|]. by exists f. }
    split_and!; [cbn; lia|right; by apply Hr|intros; by apply Hr].
  - rewrite roll_back_eq by lia. cbn. split_and!; [lia| |lia]. left. exists f. by cbn.
Qed.

Lemma after_append_ok f k s :
  file_ s ≠ None → good f → (calls s ≤ k)%nat →
  let s' := after_append basename_ roll_size_ flush_interval_ check_every_n_ utc gethostname
    getpid time fopen fflush f k s in
  (calls s ≤ calls s')%nat ∧ (kept f s s' ∨ rolled f s s') ∧
  (clock_ok s → rolled f s s' ∨
    (kept f s s' ∧ written_bytes_ f ≤ roll_size_ ∧ same_second_seq_ s' = same_second_seq_ s)).
Proof.
  intros Hsome Hg Hk. unfold after_append.
  assert (Hroll : ∀ count k', (k ≤ k')%nat →
    let s1 := mkLogFile count (same_second_seq_ s) (start_of_period_ s) (last_roll_ s)
      (last_flush_ s) (Some f) (closed s) k' in
    (calls s ≤ calls (roll s1).2)%nat ∧ (kept f s (roll s1).2 ∨ rolled f s (roll s1).2) ∧
    (clock_ok s → rolled f s (roll s1).2)).
  { intros count k' Hk' s1. destruct (roll_ok f s1 eq_refl Hg) as (Hc & Hor & Hclk).
    cbn [calls] in Hc.
    assert (Hmono : rolled f s1 (roll s1).2 → rolled f s (roll s1).2).
    { intros (k1 & ? & H). exists k1. split; [cbn in *; lia|exact H]. }
    split_and!; [cbn in *; lia|destruct Hor; [by left|right; auto]|].
    intros Hck. apply Hmono, Hclk. cbn. apply Hck. lia. }
  destruct (Z.ltb_spec roll_size_ (written_bytes_ f)).
  { destruct (Hroll (count_ s) k) as (? & ? & ?); [lia|]. auto. }
  destruct (check_every_n_ <=? count_ s + 1).
  2: { cbn. split_and!; [done| |]; [left|intros _; right; split_and!; try done];
       by exists f; cbn. }
  destruct (negb _).
  { destruct (Hroll 0 (S k)) as (? & ? & ?); [lia|]. auto. }
  destruct (flush_interval_ <? _).
  - unfold flush_AppendFile. pose proof Hg as [Hfp Hw]. rewrite Hfp, fflush_ok. cbn.
    split_and!; [lia| |]; [left|intros _; right; split_and!; try done];
      eexists; by split_and!; cbn.
  - cbn. split_and!; [lia| |]; [left|intros _; right; split_and!; try done];
      by exists f; cbn.
Qed.

Lemma append_ok line f s :
  file_ s = Some f → good f → zlen line < u64_mod →
  let f' := with_stream (stream f ++ line) f in
  ∃ s', append_line line s = Some s' ∧ (calls s ≤ calls s')%nat ∧
    (kept f' s s' ∨ rolled f' s s') ∧
    (clock_ok s → rolled f' s s' ∨
      (kept f' s s' ∧ written_bytes_ f' ≤ roll_size_ ∧
       same_second_seq_ s' = same_second_seq_ s)).
Proof.
  intros Hf Hg Hl f'. unfold LogFile.append. rewrite Hf.
  destruct (append_AppendFile_ok line f (calls s) Hg Hl) as (k & -> & Hk).
  cbn [mbind option_bind]. eexists. split; [done|].
  apply after_append_ok; [congruence| |done]. split; [apply Hg|done].
Qed.

(** ** Any number of lines *)

Definition opened s : list AppendFile :=
  closed s ++ match file_ s with Some f => [f] | None => [] end.

(** The lines of [groups] are in the files, a group to a file. *)
Record holds (groups : list (list text)) s : Prop := {
  h_groups : stream <$> opened s = mjoin <$> groups;
  h_file : ∃ f, file_ s = Some f ∧ good f;
  h_closed : Forall (λ f, on_disk f = zlen (stream f)) (closed s);
}.

Lemma holds_last groups s :
  holds groups s → ∃ f gs g, file_ s = Some f ∧ good f ∧ groups = gs ++ [g] ∧
    stream <$> closed s = mjoin <$> gs ∧ stream f = mjoin g.
Proof.
  intros [Hg (f & Hf & Hgood) _]. unfold opened in Hg. rewrite Hf, fmap_app in Hg.
  destruct groups as [|g gs _] using rev_ind; [by destruct (stream <$> closed s)|].
  rewrite fmap_app in Hg. apply app_inj_tail in Hg as [? ?].
  by exists f, gs, g.
Qed.

Lemma append_holds line gs g f s s' :
  file_ s = Some f → stream <$> closed s = mjoin <$> gs → stream f = mjoin g →
  Forall (λ f, on_disk f = zlen (stream f)) (closed s) →
  let f' := with_stream (stream f ++ line) f in
  (kept f' s s' → holds (gs ++ [g ++ [line]]) s') ∧
  (rolled f' s s' → holds (gs ++ [g ++ [line]; []]) s').
Proof.
  intros Hf Hgs Hg Hd f'.
  assert (Hline : stream f' = mjoin (g ++ [line])).
  { cbn [stream f' with_stream]. rewrite join_app, Hg. cbn. by rewrite app_nil_r. }
  split.
  - intros (f2 & Hf2 & Hst & _ & Hg2 & Hcl & _). split.
    + unfold opened. rewrite Hf2, Hcl, !fmap_app, Hgs. cbn. by rewrite Hst, Hline.
    + by exists f2.
    + by rewrite Hcl.
  - intros (k & _ & _ & _ & _ & Hf2 & f2 & _ & Hcl & Hst). split.
    + unfold opened. rewrite Hf2, Hcl, !fmap_app, Hgs, <-app_assoc. cbn.
      by rewrite Hst, Hline.
    + eexists. split; [done|]. done.
    + rewrite Hcl. apply Forall_app. split; [done|]. by repeat constructor.
Qed.

Lemma appends_holds lines : ∀ groups s,
  holds groups s → Forall (λ l, zlen l < u64_mod) lines →
  ∃ s' groups', append_lines lines s = Some s' ∧ holds groups' s' ∧
    mjoin groups' = mjoin groups ++ lines.
Proof.
  induction lines as [|line lines IH]; intros groups s Hs Hl.
  { exists s, groups. by rewrite app_nil_r. }
  apply Forall_cons in Hl as [Hl1 Hl].
  destruct (holds_last groups s Hs) as (f & gs & g & Hf & Hg & -> & Hgs & Hst).
  destruct (append_ok line f s Hf Hg Hl1) as (s1 & Hrun & _ & Hor & _).
  destruct (append_holds line gs g f s s1 Hf Hgs Hst (h_closed _ _ Hs)) as [Hk Hr].
  change (append_lines (line :: lines) s) with (append_line line s ≫= append_lines lines).
  rewrite Hrun. cbn [mbind option_bind].
  assert (∃ groups1, holds groups1 s1 ∧ mjoin groups1 = mjoin (gs ++ [g]) ++ [line])
    as (groups1 & Hs1 & Hj1).
  { destruct Hor as [Hor|Hor]; eexists; (split; [by auto|]);
      rewrite !join_app; cbn; by rewrite ?app_nil_r, <-app_assoc. }
  destruct (IH groups1 s1 Hs1 Hl) as (s2 & groups2 & H2 & Hh & Hj).
  exists s2, groups2. split_and!; [done|done|]. by rewrite Hj, Hj1, <-app_assoc.
Qed.

(** The name of the [q]-th file opened in second [t]. *)
Definition fname (p : Z * Z) : text :=
  basename_ ++ utc p.1 ++ (if p.2 =? 0 then [] else lit "-" ++ decimal p.2) ++
  lit "." ++ host gethostname ++ lit "." ++ decimal getpid ++ lit ".log".

Lemma new_LogFile_eq :
  0 < time 0 →
  new = mkLogFile 0 0 (Z.quot (time 0) kRollPerSeconds * kRollPerSeconds) (time 0) (time 0)
          (Some (mkAppend (fname (time 0, 0)) true [] 0 0)) [] 2.
Proof.
  intros Hpos. unfold new_LogFile, roll_file. cbn [make_filename calls last_roll_ file_].
  rewrite (proj2 (Z.leb_le 0 (time 0))) by lia.
  unfold new_AppendFile, fname. cbn. rewrite fopen_ok.
  by rewrite (proj2 (Z.eqb_neq (time 0) 0)) by lia.
Qed.

(** ** With a clock that does not go back *)

Hypothesis time_mono : ∀ j k, (j ≤ k)%nat → time j ≤ time k.
Hypothesis time_pos : 0 < time 0.

Lemma clock_ok_step f s s' :
  clock_ok s → (calls s ≤ calls s')%nat → kept f s s' ∨ rolled f s s' → clock_ok s'.
Proof.
  intros Hs Hc [(f' & _ & _ & _ & _ & _ & Hl)|(k & Hk & _ & Hl & _)] j Hj; rewrite Hl.
  - apply Hs. lia.
  - apply time_mono. lia.
Qed.

(** File sizes, when no line exceeds [L]. *)
Definition sized (L : Z) s : Prop :=
  Forall (λ f, zlen (stream f) ≤ roll_size_ + L) (closed s) ∧
  ∃ f, file_ s = Some f ∧ good f ∧ zlen (stream f) ≤ roll_size_.

Lemma append_sized L line s s' :
  0 ≤ roll_size_ → zlen line ≤ L → zlen line < u64_mod →
  clock_ok s → sized L s → append_line line s = Some s' → sized L s' ∧ clock_ok s'.
Proof.
  intros Hroll HL Hl Hclk (Hcl & f & Hf & Hg & Hsz) Hrun.
  destruct (append_ok line f s Hf Hg Hl) as (s1 & Hrun' & Hc & Hor & Hck).
  assert (s1 = s') as -> by congruence.
  split; [|by eapply clock_ok_step].
  destruct (Hck Hclk) as [(k & _ & _ & _ & _ & Hf2 & f2 & _ & Hcl2 & Hst2)|
    [(f2 & Hf2 & Hst & _ & Hg2 & Hcl2 & _) [Hw _]]].
  - split.
    + rewrite Hcl2. apply Forall_app. split; [done|]. constructor; [|done].
      cbn [flushed stream]. rewrite Hst2. cbn [with_stream stream]. rewrite zlen_app. lia.
    + eexists. split_and!; [done|done|]. cbn. rewrite zlen_nil. done.
  - split; [by rewrite Hcl2|]. exists f2. split_and!; [done|done|]. by rewrite Hst.
Qed.

(** Until the year 10000 every timestamp has the same length. *)
Definition year_10000 : Z := 253402300800.
Hypothesis time_max : ∀ k, time k < year_10000.
Hypothesis utc_length : ∀ t u, 0 ≤ t < year_10000 → 0 ≤ u < year_10000 →
  length (utc t) = length (utc u).
Hypothesis utc_inj : ∀ t u, 0 ≤ t < year_10000 → 0 ≤ u < year_10000 → utc t = utc u → t = u.

Lemma decimal_inj p q : 0 ≤ p < 2 ^ 31 → 0 ≤ q < 2 ^ 31 → decimal p = decimal q → p = q.
Proof.
  intros Hp Hq. unfold decimal.
  destruct (convert_ok p) as (l & -> & _ & Hl & _); [lia|].
  destruct (convert_ok q) as (l' & -> & _ & Hl' & _); [lia|].
  intros <-. congruence.
Qed.

Lemma fname_inj p p' :
  0 ≤ p.1 < year_10000 → 0 ≤ p'.1 < year_10000 → 0 ≤ p.2 < 2 ^ 31 → 0 ≤ p'.2 < 2 ^ 31 →
  fname p = fname p' → p = p'.
Proof.
  destruct p as [t q], p' as [t' q']. cbn [fst snd]. intros Ht Ht' Hq Hq' Heq.
  unfold fname in Heq. cbn [fst snd] in Heq. apply app_inv_head in Heq.
  apply app_inj_1 in Heq as [Hutc Heq]; [|by apply utc_length].
  apply utc_inj in Hutc as ->; [|done..].
  apply app_inv_tail in Heq. f_equal.
  destruct (Z.eqb_spec q 0) as [->|], (Z.eqb_spec q' 0) as [->|]; try done.
  apply app_inv_head in Heq. by apply decimal_inj.
Qed.

(** The files opened so far, by second and sequence number. *)
Record named (rolls : list (Z * Z)) s : Prop := {
  n_names : name_ <$> opened s = fname <$> rolls;
  n_file : ∃ f, file_ s = Some f ∧ good f;
  n_nodup : NoDup rolls;
  n_range : Forall (λ p, 0 < p.1 < year_10000 ∧
    0 ≤ p.2 < zlen rolls ∧ (p.1 < last_roll_ s ∨ (p.1 = last_roll_ s ∧ p.2 ≤ same_second_seq_ s))) rolls;
  n_seq : 0 ≤ same_second_seq_ s < zlen rolls;
  n_pos : 0 < last_roll_ s;
}.

Lemma rolled_named rolls f f0 s s' :
  named rolls s → file_ s = Some f0 → name_ f0 = name_ f → rolled f s s' →
  ∃ p, named (rolls ++ [p]) s'.
Proof.
  intros [Hn _ Hnd Hr Hs Hp] Hf0 Hname (k & _ & Hle & Hl & Hsq & Hf & f2 & Hn2 & Hcl & _).
  exists (last_roll_ s', same_second_seq_ s').
  assert (Hnew : name (time k) s = fname (last_roll_ s', same_second_seq_ s')).
  { unfold make_filename, fname. cbn [fst snd]. rewrite Hl, Hsq.
    destruct (Z.eqb_spec (time k) (last_roll_ s)); [|done].
    by rewrite (proj2 (Z.eqb_neq (same_second_seq_ s + 1) 0)) by lia. }
  split.
  - unfold opened in *. rewrite Hf0 in Hn. rewrite Hf, Hcl, !fmap_app in *. cbn in *.
    by rewrite Hn2, <-Hname, Hn, Hnew.
  - by eexists.
  - apply NoDup_app. split_and!; [done| |apply NoDup_singleton].
    intros p Hin Hp2%list_elem_of_singleton. subst p.
    rewrite Forall_forall in Hr. apply Hr in Hin as (_ & _ & Hin). cbn in Hin.
    rewrite Hsq in Hin. destruct (Z.eqb_spec (time k) (last_roll_ s)); lia.
  - apply Forall_app. split.
    + eapply Forall_impl; [done|]. intros p (? & ? & Hp2). rewrite zlen_app. change (zlen [_]) with 1.
      split_and!; [lia..|].
      rewrite Hsq, Hl. destruct (Z.eqb_spec (time k) (last_roll_ s)); lia.
    + constructor; [|done]. cbn [fst snd]. pose proof (time_max k).
      rewrite zlen_app. change (zlen [_]) with 1. rewrite Hsq, Hl.
      destruct (Z.eqb_spec (time k) (last_roll_ s)); split_and!; try lia; right; lia.
  - rewrite zlen_app. change (zlen [_]) with 1. rewrite Hsq. case_match; lia.
  - lia.
Qed.

Lemma append_named rolls line s s' :
  zlen line < u64_mod → clock_ok s → named rolls s → append_line line s = Some s' →
  clock_ok s' ∧ ∃ rolls', named rolls' s' ∧ zlen rolls' ≤ zlen rolls + 1.
Proof.
  intros Hl Hclk Hn Hrun. destruct (n_file _ _ Hn) as (f & Hf & Hg).
  destruct (append_ok line f s Hf Hg Hl) as (s1 & Hrun' & Hc & Hor & Hck).
  assert (s1 = s') as -> by congruence.
  split; [by eapply clock_ok_step|].
  destruct (Hck Hclk) as [Hr|[(f2 & Hf2 & _ & Hn2 & Hg2 & Hcl & Hlr) [_ Hsq]]].
  - destruct (rolled_named rolls (with_stream (stream f ++ line) f) f s s' Hn Hf eq_refl Hr) as (p & Hp).
    eexists. split; [done|]. rewrite zlen_app. done.
  - exists rolls. split; [|lia]. destruct Hn as [Hnm _ Hnd Hrg Hs Hp]. split.
    + unfold opened in *. rewrite Hf in Hnm. rewrite Hf2, Hcl, fmap_app in *. cbn in *.
      by rewrite Hn2.
    + by exists f2.
    + done.
    + by rewrite Hlr, Hsq.
    + by rewrite Hsq.
    + by rewrite Hlr.
Qed.

Lemma new_holds : holds [[]] new.
Proof. rewrite new_LogFile_eq by done. split; cbn; [done| |done]. by eexists. Qed.

Lemma new_timely L :
  0 ≤ roll_size_ → sized L new ∧ clock_ok new ∧ named [(time 0, 0)] new.
Proof.
  intros Hroll. rewrite new_LogFile_eq by done. pose proof (time_max 0). split_and!.
  - split; [done|]. eexists. by split_and!.
  - intros k _. apply time_mono. lia.
  - split; cbn; try done; [by eexists|apply NoDup_singleton|].
    repeat constructor; cbn; lia.
Qed.

Lemma appends_timely L lines : ∀ s s' rolls,
  0 ≤ roll_size_ → Forall (λ l, zlen l ≤ L) lines → L < u64_mod →
  sized L s → clock_ok s → named rolls s → append_lines lines s = Some s' →
  sized L s' ∧ ∃ rolls', named rolls' s' ∧ zlen rolls' ≤ zlen rolls + zlen lines.
Proof.
  induction lines as [|line lines IH]; intros s s' rolls Hroll Hl HL Hsz Hck Hn Hrun.
  { injection Hrun as <-. split; [done|]. exists rolls. by rewrite zlen_nil, Z.add_0_r. }
  apply Forall_cons in Hl as [Hl1 Hl].
  change (append_line line s ≫= append_lines lines = Some s') in Hrun.
  apply bind_Some in Hrun as (s1 & Hrun1 & Hrun).
  destruct (append_sized L line s s1) as [Hsz1 Hck1]; [done|done|lia|done..|].
  destruct (append_named rolls line s s1) as (_ & rolls1 & Hn1 & Hz1); [lia|done..|].
  destruct (IH s1 s' rolls1) as (Hsz' & rolls' & Hn' & Hz'); [done..|].
  split; [done|]. exists rolls'. split; [done|]. zlen_lia.
Qed.

(** ** The log file as a sink *)

Definition sink_text_of s : text := mjoin (stream <$> opened s).
Definition sink_disk_of s : text :=
  mjoin ((λ f, slice (stream f) 0 (on_disk f)) <$> opened s).

Lemma sink_append_law t s :
  (∃ groups, holds groups s) → zlen t < 2 ^ 31 →
  ∃ s', append_line t s = Some s' ∧ (∃ groups, holds groups s') ∧
    sink_text_of s' = sink_text_of s ++ t.
Proof.
  intros [groups Hs] Ht. destruct (appends_holds [t] groups s Hs) as (s' & groups' & Hr & Hs' & Hj).
  { constructor; [|done]. width_lia. }
  change (append_line t s ≫= (λ s, Some s) = Some s') in Hr. apply bind_Some in Hr as (s1 & Hr & [= ->]).
  exists s'. split_and!; [done|by eexists|]. unfold sink_text_of.
  rewrite (h_groups _ _ Hs), (h_groups _ _ Hs').
  assert (Hmm : ∀ gs : list (list text), mjoin (mjoin <$> gs) = mjoin (mjoin gs)).
  { intros gs. induction gs as [|g gs IH]; [done|].
    change (mjoin g ++ mjoin (mjoin <$> gs) = mjoin (g ++ mjoin gs)). by rewrite join_app, IH. }
  rewrite !Hmm, Hj, join_app. cbn. by rewrite app_nil_r.
Qed.

Lemma sink_flush_law s :
  (∃ groups, holds groups s) →
  (∃ groups, holds groups (flush fflush s)) ∧ sink_text_of (flush fflush s) = sink_text_of s ∧
  sink_disk_of (flush fflush s) = sink_text_of s.
Proof.
  intros [groups [Hg (f & Hf & Hfp & Hw) Hd]]. unfold flush. rewrite Hf.
  unfold flush_AppendFile. rewrite Hfp, fflush_ok.
  unfold sink_text_of, sink_disk_of, opened in *. cbn [file_ closed]. rewrite Hf in Hg.
  rewrite Hf, !fmap_app, !join_app. cbn [fmap list_fmap stream on_disk].
  rewrite slice_all. split_and!; [|done|].
  - exists groups. split; unfold opened; cbn [file_ closed].
    + by rewrite <-Hg, !fmap_app.
    + by eexists.
    + done.
  - f_equal. clear Hg. induction Hd as [|f' l Hf' _ IH]; [done|].
    cbn. rewrite Hf', slice_all. by f_equal.
Qed.

Definition log_file_sink : LogSink LogFile := {|
  sink_append := append_line;
  sink_flush := flush fflush;
  sink_ok s := ∃ groups, holds groups s;
  sink_text := sink_text_of;
  sink_disk := sink_disk_of;
  sink_append_ok := sink_append_law;
  sink_flush_ok := sink_flush_law;
|}.

(** *** Properties *)

(** With a clock that does not go back, every file gets a name of its own and
    no file exceeds the rolling size by more than one line. *)
Theorem log_files_distinct (L : Z) (lines : list text) s :
  0 ≤ roll_size_ → Forall (λ l, zlen l ≤ L) lines → 0 ≤ L < u64_mod → zlen lines < 2 ^ 31 - 1 →
  append_lines lines new = Some s →
  NoDup (name_ <$> opened s) ∧ Forall (λ f, zlen (stream f) ≤ roll_size_ + L) (opened s).
Proof.
  intros Hroll Hl HL Hn Hrun. destruct (new_timely L Hroll) as (Hsz & Hck & Hnm).
  destruct (appends_timely L lines _ s _ Hroll Hl (proj2 HL) Hsz Hck Hnm Hrun)
    as ((Hcl & f & Hf & _ & Hfs) & rolls & [Hnames _ Hnd Hrg Hsq _] & Hz).
  change (zlen [_]) with 1 in Hz. split.
  - rewrite Hnames. apply NoDup_fmap_2_strong; [|done].
    intros p p' Hp Hp'. rewrite Forall_forall in Hrg.
    apply Hrg in Hp as (? & ? & _). apply Hrg in Hp' as (? & ? & _).
    apply fname_inj; lia.
  - unfold opened. rewrite Hf. apply Forall_app. split; [done|]. constructor; [|done].
    lia.
Qed.

(** When the clock steps back for one attempt and returns to the same second,
    the sequence number starts again and the name of an earlier file is reused. *)
Theorem clock_step_repeats_name t :
  0 < t → time 0 = t → time 2 = t → time 5 < t → time 6 = t →
  ∃ s f1 f2 f3, (roll (roll (roll new).2).2).2 = s ∧ opened s = [f1; f2; f3] ∧
    name_ f2 = name_ f3.
Proof using fopen_ok fflush_ok.
  clear time_mono time_pos time_max utc_length utc_inj. intros Ht H0 H2 H5 H6.
  assert (Hnew : new = mkLogFile 0 0 (Z.quot t kRollPerSeconds * kRollPerSeconds) t t
    (Some (mkAppend (fname (t, 0)) true [] 0 0)) [] 2).
  { rewrite <-H0. apply new_LogFile_eq. by rewrite H0. }
  rewrite Hnew. erewrite (roll_eq _ (mkLogFile _ _ _ _ _ _ _ _)); [|done|done|cbn; lia].
  cbn [calls last_roll_ count_ same_second_seq_]. rewrite H2, Z.eqb_refl.
  rewrite (roll_back_eq (mkLogFile _ _ _ _ _ _ _ _)) by (cbn; lia).
  cbn [calls last_roll_ count_ same_second_seq_ start_of_period_ last_flush_ file_ closed].
  erewrite (roll_eq _ (mkLogFile _ _ _ _ _ _ _ _)); [|done|done|cbn; lia].
  cbn [calls last_roll_ count_ same_second_seq_]. rewrite H6, Z.eqb_refl.
  do 4 eexists. split; [done|]. split; [done|].
  cbn [name_ flushed make_filename fst last_roll_ same_second_seq_]. by rewrite Z.eqb_refl.
Qed.
End append.

(** ** Whatever the C library answers *)

Section any_calls.
Context (basename_ : text) (roll_size_ flush_interval_ check_every_n_ : Z).
Context (utc : Z → text) (gethostname : option text) (getpid : Z).
Context (time : nat → Z) (fopen : nat → text → bool).
Context (fwrite : nat → Z → Z * Z) (fflush : nat → bool).
Implicit Types s : LogFile.
Implicit Types f : AppendFile.

Local Abbreviation roll := (roll_file basename_ utc gethostname getpid time fopen fflush).
Local Abbreviation append_line := (LogFile.append basename_ roll_size_ flush_interval_
  check_every_n_ utc gethostname getpid time fopen fwrite fflush).
Local Abbreviation append_lines := (LogFile.appends basename_ roll_size_ flush_interval_
  check_every_n_ utc gethostname getpid time fopen fwrite fflush).
Local Abbreviation new := (new_LogFile basename_ utc gethostname getpid time fopen fflush).

(** [fwrite] writes no more than it is asked, and it writes nothing only when there is
    an error, which [ferror] then reports; the clock is not before 1970. *)
Hypothesis fwrite_doc :
  ∀ k n, 0 < n → 0 ≤ (fwrite k n).1 ≤ n ∧ ((fwrite k n).1 = 0 → (fwrite k n).2 ≠ 0).
Hypothesis time_doc : 0 ≤ time 0.

(** A line that was appended: what its file keeps of it, and the call of [fwrite] that
    wrote too little and reported an error, if one did. *)
Record entry := mkEntry { e_line : text; e_kept : text; e_error : option nat }.

(** The whole line, or nothing if the file could not be opened; if [fwrite] failed, what
    precedes the [n] bytes it was asked for and those it wrote. *)
Definition entry_ok f (e : entry) : Prop :=
  match e_error e with
  | None => e_kept e = if fp_ f then e_line e else []
  | Some k =>
      fp_ f = true ∧ ∃ n, 0 < n ≤ zlen (e_line e) ∧ (fwrite k n).1 < n ∧ (fwrite k n).2 ≠ 0 ∧
        e_kept e = slice (e_line e) 0 (zlen (e_line e) - n + (fwrite k n).1)
  end.

Definition grown (t : text) f : AppendFile :=
  mkAppend (name_ f) (fp_ f) (stream f ++ t) (on_disk f) (written_bytes_ f).

Lemma append_loop_any fuel line : ∀ written f k,
  zlen line < u64_mod → 0 ≤ written ≤ zlen line → zlen line - written < Z.of_nat fuel →
  ∃ r t k', append_loop fwrite fuel line written f k = Some (r, grown t f, k') ∧ (k ≤ k')%nat ∧
    (t = slice line written (zlen line - written) ∨
     ∃ j n, (k ≤ j < k')%nat ∧ 0 < n ≤ zlen line - written ∧ (fwrite j n).1 < n ∧
       (fwrite j n).2 ≠ 0 ∧ t = slice line written (zlen line - written - n + (fwrite j n).1)).
Proof.
  induction fuel as [|fuel IH]; intros written f k Hl Hw Hf; [lia|].
  cbn [append_loop]. destruct (Z.eqb_spec written (zlen line)) as [->|Hne].
  { exists (zlen line), [], k. unfold grown. rewrite app_nil_r. split; [by destruct f|].
    split; [lia|]. left. by rewrite slice_nil by lia. }
  rewrite u64_small by lia. set (remain := zlen line - written). assert (Hrem : 0 < remain) by lia.
  pose proof (fwrite_doc k remain ltac:(lia)) as [Hn Hz].
  destruct (fwrite k remain) as [n err] eqn:Hk. cbn [fst snd] in Hn, Hz.
  destruct (Z.eqb_spec n remain) as [Heq|Hlt], (Z.eqb_spec err 0) as [->|Herr];
    cbn [negb andb].
  4: { do 3 eexists. split; [reflexivity|]. split; [lia|]. right. exists k, remain. rewrite Hk.
       cbn [fst snd]. split_and!; [lia|lia|lia|lia|lia|done|]. f_equal. lia. }
  all: assert (Hpos : 0 < n) by (destruct (decide (n = 0)) as [->|]; [exfalso; first [lia|by apply Hz]|lia]).
  all: destruct (IH (written + n) (grown (slice line written n) f) (S k)) as
    (r & t & k' & Hr & Hle & Hcase); [done|lia|lia|].
  all: exists r, (slice line written n ++ t), k'; split;
    [etransitivity; [exact Hr|]; unfold grown; cbn; by rewrite <-app_assoc|split; [lia|]].
  all: destruct Hcase as [->|(j & m & Hj & Hm & Hs & He & ->)];
    [left; rewrite <-slice_app by lia; f_equal; lia|].
  all: pose proof (fwrite_doc j m ltac:(lia)) as [Hjm _].
  all: right; exists j, m; split_and!; [lia|lia|lia|lia|done|done|];
    rewrite <-slice_app by lia; f_equal; lia.
Qed.

Lemma append_AppendFile_any line f k :
  zlen line < u64_mod →
  ∃ e f' k', append_AppendFile fwrite line f k = Some (f', k') ∧ (k ≤ k')%nat ∧
    fp_ f' = fp_ f ∧ stream f' = stream f ++ e_kept e ∧ e_line e = line ∧ entry_ok f e ∧
    (∀ j, e_error e = Some j → (k ≤ j < k')%nat).
Proof.
  intros Hl. unfold append_AppendFile. destruct (fp_ f) eqn:Hfp; cbn [negb].
  2: { exists (mkEntry line [] None), f, k. unfold entry_ok. cbn. rewrite app_nil_r, Hfp.
       by split_and!. }
  pose proof (zlen_nonneg line).
  destruct (append_loop_any (S (List.length line)) line 0 f k) as (r & t & k' & -> & Hk & Hcase);
    [done|lia|unfold zlen; lia|]. cbn [mbind option_bind].
  destruct Hcase as [->|(j & n & Hj & Hn & Hs & He & ->)].
  - exists (mkEntry line line None). do 2 eexists. split; [reflexivity|]. unfold entry_ok. cbn.
    rewrite Z.sub_0_r, slice_all, Hfp. by split_and!.
  - exists (mkEntry line (slice line 0 (zlen line - n + (fwrite j n).1)) (Some j)). do 2 eexists.
    split; [reflexivity|]. unfold entry_ok. cbn. rewrite Z.sub_0_r in *.
    split_and!; [done..| |intros ? [= <-]; lia]. exists n. split_and!; done || lia.
Qed.

Lemma flush_AppendFile_any f k :
  let '(f', k') := flush_AppendFile fflush f k in
  fp_ f' = fp_ f ∧ stream f' = stream f ∧ k' = (if fp_ f then S k else k) ∧
  (fp_ f = true → fflush k = true → on_disk f' = zlen (stream f')).
Proof. unfold flush_AppendFile. destruct (fp_ f) eqn:Hf, (fflush k); by cbn; rewrite ?Hf. Qed.

(** What may happen to the current file [f] from call [k] on: it is kept, or a new one
    takes its place and it is closed, by the call [j]. *)
Definition file_kept f k s s' : Prop :=
  ∃ f', file_ s' = Some f' ∧ fp_ f' = fp_ f ∧ stream f' = stream f ∧ closed s' = closed s ∧
    (k ≤ calls s')%nat.
Definition file_replaced f k s s' : Prop :=
  ∃ f' g j, file_ s' = Some g ∧ stream g = [] ∧ closed s' = closed s ++ [f'] ∧
    fp_ f' = fp_ f ∧ stream f' = stream f ∧ (k ≤ j < calls s')%nat ∧
    (fp_ f' = true → fflush j = true → on_disk f' = zlen (stream f')).

Lemma roll_any f k s :
  file_ s = Some f → (k ≤ calls s)%nat → let s' := (roll s).2 in file_kept f k s s' ∨ file_replaced f k s s'.
Proof.
  intros Hf Hk. unfold roll_file. cbn [make_filename]. cbn [calls last_roll_ file_ closed count_].
  destruct (last_roll_ s <=? time (calls s)).
  - right. unfold new_AppendFile, close_AppendFile. rewrite Hf.
    pose proof (flush_AppendFile_any f (S (S (calls s)))) as Hfl.
    destruct (flush_AppendFile fflush f (S (S (calls s)))) as [f' k'].
    destruct Hfl as (Hfp & Hst & Hk' & Hd).
    eexists f', _, (if fp_ f then S (S (calls s)) else calls s).
    cbn. split_and!; [reflexivity|done..| | |].
    + destruct (fp_ f); lia.
    + destruct (fp_ f); lia.
    + rewrite Hfp. destruct (fp_ f); [auto|done].
  - left. exists f. cbn. split_and!; try done. lia.
Qed.

Lemma after_append_any f k s :
  let s' := after_append basename_ roll_size_ flush_interval_ check_every_n_ utc gethostname
    getpid time fopen fflush f k s in
  file_kept f k s s' ∨ file_replaced f k s s'.
Proof.
  unfold after_append.
  assert (Hroll : ∀ count k', (k ≤ k')%nat →
    let s1 := mkLogFile count (same_second_seq_ s) (start_of_period_ s) (last_roll_ s)
      (last_flush_ s) (Some f) (closed s) k' in
    file_kept f k s (roll s1).2 ∨ file_replaced f k s (roll s1).2).
  { intros count k' Hk' s1. by apply (roll_any f k s1). }
  destruct (roll_size_ <? written_bytes_ f); [by apply Hroll|].
  destruct (check_every_n_ <=? count_ s + 1).
  2: { left. exists f. by split_and!. }
  destruct (negb _); [apply Hroll; lia|].
  destruct (flush_interval_ <? _); left.
  - pose proof (flush_AppendFile_any f (S k)) as Hfl.
    destruct (flush_AppendFile fflush f (S k)) as [f' k'] eqn:Hfe. destruct Hfl as (Hfp & Hst & -> & _).
    exists f'. cbn. split_and!; try done. destruct (fp_ f); lia.
  - exists f. cbn. split_and!; try done. lia.
Qed.

(** The files hold the entries of [groups], a group to a file. *)
Record stored (groups : list (list entry)) s : Prop := {
  t_files : Forall2 (λ f g, stream f = mjoin (e_kept <$> g) ∧ Forall (entry_ok f) g) (opened s) groups;
  t_open : is_Some (file_ s);
  t_nodup : NoDup (omap e_error (mjoin groups));
  t_errors : Forall (λ k, k < calls s)%nat (omap e_error (mjoin groups));
  t_closed : ∃ ks, NoDup ks ∧ Forall (λ k, k < calls s)%nat ks ∧
    Forall2 (λ f k, fp_ f = true → fflush k = true → on_disk f = zlen (stream f)) (closed s) ks;
}.

Lemma entry_ok_same f f' e : fp_ f' = fp_ f → entry_ok f e → entry_ok f' e.
Proof. unfold entry_ok. intros ->. done. Qed.

Lemma mjoin_snoc {A} (l : list (list A)) x : mjoin (l ++ [x]) = mjoin l ++ x.
Proof. rewrite join_app. cbn. by rewrite app_nil_r. Qed.

Lemma stored_step groups s s' line :
  stored groups s → zlen line < u64_mod → append_line line s = Some s' →
  ∃ groups' e, stored groups' s' ∧ e_line e = line ∧ mjoin groups' = mjoin groups ++ [e].
Proof.
  intros [Hfiles [f Hf] Hnd Herr (ks & Hks & Hkc & Hcl)] Hl Hrun.
  unfold LogFile.append in Hrun. rewrite Hf in Hrun.
  destruct (append_AppendFile_any line f (calls s) Hl) as (e & f1 & k & Ha & Hk & Hfp1 & Hst1 & He & Hok & Hwin).
  rewrite Ha in Hrun. cbn [mbind option_bind] in Hrun. injection Hrun as Hs'.
  unfold opened in Hfiles. rewrite Hf in Hfiles.
  apply Forall2_app_inv_l in Hfiles as (gs & gl & Hgs & Hgl & ->).
  apply Forall2_cons_inv_l in Hgl as (g & l & [Hst Hg] & Hnil & ->).
  apply Forall2_nil_inv_l in Hnil as ->.
  assert (Hentries : ∀ f', fp_ f' = fp_ f1 → stream f' = stream f1 →
    stream f' = mjoin (e_kept <$> g ++ [e]) ∧ Forall (entry_ok f') (g ++ [e])).
  { intros f' Hfp Hstr. rewrite fmap_app, Hstr, Hst1, Hst. split.
    { change (e_kept <$> [e]) with [e_kept e]. by rewrite mjoin_snoc. }
    apply Forall_app. split; [|constructor; [|done]]; [eapply Forall_impl; [exact Hg|]; intros e'|];
      apply (entry_ok_same f); congruence. }
  assert (Herrs : ∀ gs', mjoin gs' = mjoin (gs ++ [g]) ++ [e] → (k ≤ calls s')%nat →
    NoDup (omap e_error (mjoin gs')) ∧ Forall (λ k, k < calls s')%nat (omap e_error (mjoin gs'))).
  { intros gs' -> Hc. rewrite omap_app. cbn [omap list_omap]. split.
    - destruct (e_error e) as [j|]; [|by rewrite app_nil_r].
      apply NoDup_app. split; [done|]. split; [|apply NoDup_singleton].
      intros j' Hj' ->%list_elem_of_singleton. rewrite Forall_forall in Herr. apply Herr in Hj'.
      specialize (Hwin j eq_refl). lia.
    - apply Forall_app. split; [eapply Forall_impl; [exact Herr|]; cbn; lia|].
      destruct (e_error e) as [j|]; [|done]. specialize (Hwin j eq_refl). repeat constructor. lia. }
  destruct (after_append_any f1 k s) as [(f' & Hf' & Hfp & Hstr & Hc & Hcalls)|
    (f' & h & j & Hf' & Hh & Hc & Hfp & Hstr & Hj & Hd)]; rewrite Hs' in *.
  - exists (gs ++ [g ++ [e]]), e. assert (Hm : mjoin (gs ++ [g ++ [e]]) = mjoin (gs ++ [g]) ++ [e]).
    { by rewrite !mjoin_snoc, app_assoc. }
    split; [|done]. destruct (Herrs _ Hm Hcalls). split; [|by eexists|done|done|].
    + unfold opened. rewrite Hf', Hc. apply Forall2_app; [done|]. repeat constructor; by apply Hentries.
    + rewrite Hc. exists ks. split_and!; [done| |done]. eapply Forall_impl; [exact Hkc|]. cbn. lia.
  - exists (gs ++ [g ++ [e]; []]), e.
    assert (Hm : mjoin (gs ++ [g ++ [e]; []]) = mjoin (gs ++ [g]) ++ [e]).
    { rewrite (join_app gs [_; _]), mjoin_snoc. cbn. by rewrite app_nil_r, app_assoc. }
    split; [|done]. destruct (Herrs _ Hm ltac:(lia)). split; [|by eexists|done|done|].
    + unfold opened. rewrite Hf', Hc, <-app_assoc. apply Forall2_app; [done|]. cbn [app].
      constructor; [by apply Hentries|]. by repeat constructor.
    + rewrite Hc. exists (ks ++ [j]). split_and!.
      * apply NoDup_app. split; [done|]. split; [|apply NoDup_singleton].
        intros j' Hj' ->%list_elem_of_singleton. rewrite Forall_forall in Hkc. apply Hkc in Hj'. lia.
      * apply Forall_app. split; [eapply Forall_impl; [exact Hkc|]; cbn; lia|]. repeat constructor. lia.
      * apply Forall2_app; [done|]. by repeat constructor.
Qed.

Lemma appends_stored lines : ∀ groups s,
  stored groups s → Forall (λ l, zlen l < u64_mod) lines →
  ∃ s' groups' es, append_lines lines s = Some s' ∧ stored groups' s' ∧ e_line <$> es = lines ∧
    mjoin groups' = mjoin groups ++ es.
Proof.
  induction lines as [|line lines IH]; intros groups s Hs Hl.
  { exists s, groups, []. by rewrite app_nil_r. }
  apply Forall_cons in Hl as [Hl1 Hl].
  assert (is_Some (append_line line s)) as [s1 Hs1].
  { unfold LogFile.append. destruct (t_open _ _ Hs) as [f ->].
    destruct (append_AppendFile_any line f (calls s) Hl1) as (? & ? & ? & -> & _). by eexists. }
  destruct (stored_step groups s s1 line Hs Hl1 Hs1) as (groups1 & e & Hst1 & <- & Hj1).
  destruct (IH groups1 s1 Hst1 Hl) as (s' & groups' & es & Hr & Hst' & <- & Hj').
  exists s', groups', (e :: es). split_and!; [|done|done|].
  - change (append_line (e_line e) s ≫= append_lines (e_line <$> es) = Some s').
    rewrite Hs1. exact Hr.
  - by rewrite Hj', Hj1, <-app_assoc.
Qed.

Lemma new_stored : stored [[]] new.
Proof.
  unfold new_LogFile, roll_file. cbn [make_filename calls last_roll_ file_].
  rewrite (proj2 (Z.leb_le 0 (time 0)) time_doc). cbn. split; cbn.
  - unfold opened. cbn. repeat constructor.
  - by eexists.
  - constructor.
  - constructor.
  - exists []. repeat constructor.
Qed.

(** ** Properties *)

End any_calls.

(** ** Witnesses *)

Module Demo.
(** A timestamp of fixed length: the binary digits. *)
Definition utc (t : Z) : text :=
  (λ i, if Z.testbit t i then ch "1" else ch "0") <$> seqZ 0 38.
Lemma utc_length t u : length (utc t) = length (utc u).
Proof. unfold utc. by rewrite !length_fmap. Qed.
Lemma utc_inj t u :
  0 ≤ t < year_10000 → 0 ≤ u < year_10000 → utc t = utc u → t = u.
Proof.
  unfold year_10000. intros Ht Hu Heq.
  assert (Hlt : ∀ v, 0 ≤ v < 253402300800 → v = v mod 2 ^ 38)
    by (intros v Hv; symmetry; apply Z.mod_small; lia).
  rewrite (Hlt t), (Hlt u) by lia. apply Z.bits_inj'. intros i Hi.
  destruct (decide (i < 38)) as [Hi2|Hi2].
  2: { by rewrite !Z.mod_pow2_bits_high by lia. }
  rewrite !Z.mod_pow2_bits_low by lia.
  assert (Hl : utc t !! Z.to_nat i = utc u !! Z.to_nat i) by by rewrite Heq.
  unfold utc in Hl. rewrite !list_lookup_fmap, lookup_seqZ_lt in Hl by lia.
  cbn [fmap option_fmap option_map] in Hl. rewrite Z2Nat.id, Z.add_0_l in Hl by lia.
  destruct (Z.testbit t i), (Z.testbit u i); (done || discriminate Hl).
Qed.

(** A clock that stays in a second for a few calls; a [fwrite] that writes at most
    three bytes. *)
Definition time (k : nat) : Z := 1000 + Z.min (Z.of_nat k / 9) 50.
Definition fwrite (k : nat) (n : Z) : Z * Z := (Z.min n 3, 0).
Lemma fwrite_ok k n : 0 < n → (fwrite k n).2 = 0 ∧ 0 < (fwrite k n).1 ≤ n.
Proof. unfold fwrite. cbn. lia. Qed.
Lemma time_mono j k : (j ≤ k)%nat → time j ≤ time k.
Proof.
  intros. unfold time. pose proof (Z.div_le_mono (Z.of_nat j) (Z.of_nat k) 9). lia.
Qed.
Lemma time_max k : time k < year_10000.
Proof. unfold time, year_10000. lia. Qed.
(** One that steps back once. *)
Definition stepping (k : nat) : Z := if decide (k = 5%nat) then 999 else 1000.
Definition lines : list text := [lit "hello"; lit "world"; lit "!"].
(** One that finds the disk full once. *)
Definition full (k : nat) (n : Z) : Z * Z := if decide (k = 3%nat) then (0, 28) else (Z.min n 3, 0).
Lemma full_doc k n : 0 < n → 0 ≤ (full k n).1 ≤ n ∧ ((full k n).1 = 0 → (full k n).2 ≠ 0).
Proof. unfold full. intros Hn. case_decide; cbn; lia. Qed.
Definition more : list text := [lit "hello"; lit "world"; lit "again"; lit "!"].
Definition final : option LogFile :=
  appends (lit "app") 4 3 1024 utc None 7 time (λ _ _, true) fwrite (λ _, true) lines
    (new_LogFile (lit "app") utc None 7 time (λ _ _, true) (λ _, true)).
End Demo.

(** The disk is full for one call, and the second file cannot be opened. *)
Definition full_once : option LogFile :=
  appends (lit "app") 9 3 1024 Demo.utc None 7 Demo.time (λ k _, bool_decide (k ≠ 9%nat)) Demo.full
    (λ _, true) Demo.more (new_LogFile (lit "app") Demo.utc None 7 Demo.time
      (λ k _, bool_decide (k ≠ 9%nat)) (λ _, true)).


Lemma log_files_distinct_witness :
  ∃ s, Demo.final = Some s ∧ NoDup (name_ <$> opened s) ∧
    Forall (λ f, zlen (stream f) ≤ 9) (opened s).
Proof.
  destruct Demo.final as [s|] eqn:Hf; [|by vm_compute in Hf].
  exists s. split; [done|].
  apply (log_files_distinct (lit "app") 4 3 1024 Demo.utc None 7 Demo.time (λ _ _, true)
    Demo.fwrite (λ _, true) (λ _ _, eq_refl) (λ _, eq_refl) Demo.fwrite_ok Demo.time_mono
    ltac:(done) Demo.time_max (λ t u _ _, Demo.utc_length t u) Demo.utc_inj 5 Demo.lines s).
  - lia.
  - repeat constructor; vm_compute; discriminate.
  - split; [lia|]. width_lia.
  - vm_compute. reflexivity.
  - exact Hf.
Defined.

Lemma clock_step_repeats_name_witness :
  ∃ s f1 f2 f3,
    (let roll := roll_file (lit "app") Demo.utc None 7 Demo.stepping (λ _ _, true) (λ _, true) in
     let new := new_LogFile (lit "app") Demo.utc None 7 Demo.stepping (λ _ _, true) (λ _, true) in
     (roll (roll (roll new).2).2).2 = s) ∧ opened s = [f1; f2; f3] ∧ name_ f2 = name_ f3.
Proof.
  apply (clock_step_repeats_name (lit "app") Demo.utc None 7 Demo.stepping (λ _ _, true)
    (λ _, true) (λ _ _, eq_refl) (λ _, eq_refl) 1000); vm_compute; reflexivity.
Defined.
