(* ===== verification/AsyncLogger.v ===== *)
(** * AsyncLogger: the double-buffered back end of the logger

    Models [include/coro_net/log/async_logger.hpp] and [src/log/async_logger.cc]
    as a state machine whose steps interleave: any number of threads in [append],
    the back-end thread in [thread_func], and the thread that calls [init],
    [shutdown], [flush_and_stop] or destroys the logger.  A critical section of
    [mutex_] is one step; loads and stores of the atomics are steps of their own.
    [cond_.wait_for] returns on a notification, spuriously or after the flush
    interval, so the waiting back end may go on at any moment; notifications need
    no state.  A null pointer that is dereferenced sets [crashed], after which
    nothing happens.

    The log file is a client's view of [Interfaces.LogSink]. *)
From Stdlib Require Import Ascii String.
From S2P Require Import Prelude Interfaces LogStream LogFile.

Definition LargeBuffer : FixedBuffer := mkFixed [] (4 * 1024 * 1024).
Definition reset (b : FixedBuffer) : FixedBuffer := mkFixed [] (SIZE b).
Abbreviation BufferPtr := (option FixedBuffer).

(** Where the back end is in [thread_func]. *)
Inductive point : Type :=
  | PLoop        (* about to load [running_] *)
  | PLock        (* about to lock [mutex_] *)
  | PWait        (* in [wait_for] *)
  | PWrite       (* mutex released, about to write [buffers_to_write] *)
  | PFinal       (* loop left, about to lock for the last time *)
  | PDrain       (* about to write what is left *)
  | PDone.

(** Where the stopping thread is; whether it will clear [started_]. *)
Inductive stopper : Type :=
  | OIdle
  | OTerm                  (* in the destructor, [terminating_] stored *)
  | ONotify (clears : bool)
  | OJoin (clears : bool).

Section async_logger.
Context {S : Type} `{LogSink S} (new_sink : S).

(** The back-end thread and its locals. *)
Record thread := mkThread {
  pt : point;
  output : S;
  new_buf1 : BufferPtr;
  new_buf2 : BufferPtr;
  buffers_to_write : list BufferPtr;
}.

Record logger := mkLogger {
  current_ : BufferPtr;
  next_ : BufferPtr;
  buffers_ : list BufferPtr;
  thread_ : option thread;
  started_ : bool;
  running_ : bool;
  terminating_ : bool;
  (* the other threads *)
  checking : list text;        (* in [append], about to load [started_] *)
  pending : list text;         (* in [append], about to lock [mutex_] *)
  owner : stopper;
  crashed : bool;
  (* history *)
  stderr_ : list text;         (* lines given to [fallback_stderr] *)
  appended : list text;        (* lines copied into a buffer *)
  at_stop : list text;         (* [appended] when [running_] was last cleared *)
  dropped : nat;               (* buffers thrown away *)
  lost : list text;            (* buffer contents overwritten by [init] *)
  past : list S;               (* outputs of the back ends that have ended *)
}.

Definition new_logger : logger :=
  mkLogger None None [] None false false false [] [] OIdle false [] [] [] 0 [] [].

Definition set_bufs (cur nxt : BufferPtr) (bufs : list BufferPtr) (s : logger) : logger :=
  mkLogger cur nxt bufs (thread_ s) (started_ s) (running_ s) (terminating_ s)
    (checking s) (pending s) (owner s) (crashed s)
    (stderr_ s) (appended s) (at_stop s) (dropped s) (lost s) (past s).
Definition set_thread (t : option thread) (s : logger) : logger :=
  mkLogger (current_ s) (next_ s) (buffers_ s) t (started_ s) (running_ s) (terminating_ s)
    (checking s) (pending s) (owner s) (crashed s)
    (stderr_ s) (appended s) (at_stop s) (dropped s) (lost s) (past s).
Definition set_calls (chk pend errs : list text) (s : logger) : logger :=
  mkLogger (current_ s) (next_ s) (buffers_ s) (thread_ s) (started_ s) (running_ s)
    (terminating_ s) chk pend (owner s) (crashed s)
    errs (appended s) (at_stop s) (dropped s) (lost s) (past s).
Definition set_owner (o : stopper) (s : logger) : logger :=
  mkLogger (current_ s) (next_ s) (buffers_ s) (thread_ s) (started_ s) (running_ s)
    (terminating_ s) (checking s) (pending s) o (crashed s)
    (stderr_ s) (appended s) (at_stop s) (dropped s) (lost s) (past s).
Definition record_append (line : text) (s : logger) : logger :=
  mkLogger (current_ s) (next_ s) (buffers_ s) (thread_ s) (started_ s) (running_ s)
    (terminating_ s) (checking s) (pending s) (owner s) (crashed s)
    (stderr_ s) (appended s ++ [line]) (at_stop s) (dropped s) (lost s) (past s).
Definition record_drop (n : nat) (s : logger) : logger :=
  mkLogger (current_ s) (next_ s) (buffers_ s) (thread_ s) (started_ s) (running_ s)
    (terminating_ s) (checking s) (pending s) (owner s) (crashed s)
    (stderr_ s) (appended s) (at_stop s) (dropped s + n) (lost s) (past s).
Definition crash (s : logger) : logger :=
  mkLogger (current_ s) (next_ s) (buffers_ s) (thread_ s) (started_ s) (running_ s)
    (terminating_ s) (checking s) (pending s) (owner s) true
    (stderr_ s) (appended s) (at_stop s) (dropped s) (lost s) (past s).

(** ** append *)

Definition call (line : text) (s : logger) : logger :=
  if terminating_ s then set_calls (checking s) (pending s) (stderr_ s ++ [line]) s
  else set_calls (checking s ++ [line]) (pending s) (stderr_ s) s.
Definition check_started (i : nat) (line : text) (s : logger) : logger :=
  if negb (started_ s)
  then set_calls (delete i (checking s)) (pending s) (stderr_ s ++ [line]) s
  else set_calls (delete i (checking s)) (pending s ++ [line]) (stderr_ s) s.

(** The critical section. *)
Definition append (line : text) (s : logger) : logger :=
  match current_ s with
  | None => crash s
  | Some c =>
      if zlen line <? avail c
      then record_append line
             (set_bufs (Some (LogStream.append line c)) (next_ s) (buffers_ s) s)
      else
        let '(c', nxt) :=
          match next_ s with Some b => (b, None) | None => (LargeBuffer, None) end in
        record_append line
          (set_bufs (Some (LogStream.append line c')) nxt (buffers_ s ++ [Some c]) s)
  end.
Definition append_at (i : nat) (line : text) (s : logger) : logger :=
  append line (set_calls (checking s) (delete i (pending s)) (stderr_ s) s).

(** ** init and the ways to stop *)

Definition ptr_text (b : BufferPtr) : text :=
  match b with Some b => content b | None => [] end.

(** [init] with [start_locked]; the back end begins with its locals set up. *)
Definition init (s : logger) : logger :=
  if started_ s then s else
  mkLogger (Some LargeBuffer) (Some LargeBuffer) (buffers_ s)
    (Some (mkThread PLoop new_sink (Some LargeBuffer) (Some LargeBuffer) []))
    true true (terminating_ s) (checking s) (pending s) (owner s) (crashed s)
    (stderr_ s) (appended s) (at_stop s) (dropped s)
    (lost s ++ [ptr_text (current_ s)]) (past s).

Definition clear_running (clears : bool) (s : logger) : logger :=
  mkLogger (current_ s) (next_ s) (buffers_ s) (thread_ s) (started_ s) false
    (terminating_ s) (checking s) (pending s) (ONotify clears) (crashed s)
    (stderr_ s) (appended s) (appended s) (dropped s) (lost s) (past s).
Definition shutdown (s : logger) : logger :=
  if running_ s then clear_running true s else s.
Definition flush_and_stop (s : logger) : logger :=
  if negb (started_ s) then s else clear_running true s.
Definition store_terminating (s : logger) : logger :=
  mkLogger (current_ s) (next_ s) (buffers_ s) (thread_ s) (started_ s) (running_ s)
    true (checking s) (pending s) OTerm (crashed s)
    (stderr_ s) (appended s) (at_stop s) (dropped s) (lost s) (past s).
Definition destroy_stop (s : logger) : logger :=
  if started_ s then clear_running false s else set_owner OIdle s.

(** [join] has returned. *)
Definition joined (clears : bool) (s : logger) : logger :=
  mkLogger (current_ s) (next_ s) (buffers_ s) None
    (if clears then false else started_ s) (running_ s) (terminating_ s)
    (checking s) (pending s) OIdle (crashed s)
    (stderr_ s) (appended s) (at_stop s) (dropped s) (lost s)
    (past s ++ match thread_ s with Some t => [output t] | None => [] end).

(** ** thread_func *)

Definition goto (p : point) (t : thread) : thread :=
  mkThread p (output t) (new_buf1 t) (new_buf2 t) (buffers_to_write t).

(** The critical section, once there is something to write or the wait is over. *)
Definition fill (t : thread) (s : logger) : logger :=
  let bufs := buffers_ s ++ [current_ s] in
  let cur := new_buf1 t in
  let '(to_write, bufs) := (bufs, buffers_to_write t) in
  let '(nxt, b2) := match next_ s with Some b => (Some b, new_buf2 t) | None => (new_buf2 t, None) end in
  set_thread (Some (mkThread PWrite (output t) None b2 to_write)) (set_bufs cur nxt bufs s).

(** [for (auto& buf : buffers_to_write) output.append(...)]. *)
Fixpoint write_all (bs : list BufferPtr) (out : S) : option (res S) :=
  match bs with
  | [] => Some (Ok out)
  | None :: _ => Some UB
  | Some b :: bs => out ← sink_append (content b) out; write_all bs out
  end.

Definition warning (n : Z) : text :=
  lit "Dropped " ++ decimal n ++ lit " log buffers (over backpressure limit)" ++ [newline].

(** [new_buf = std::move(buffers_to_write.back()); pop_back(); new_buf->reset()]. *)
Definition recycle (bs : list BufferPtr) : option (FixedBuffer * list BufferPtr) :=
  match last bs with
  | Some (Some b) => Some (reset b, removelast bs)
  | _ => None
  end.

(** The part of an iteration after the mutex is released. *)
Definition write_out (t : thread) (s : logger) : option logger :=
  let n := List.length (buffers_to_write t) in
  let over := (25 <? n)%nat in
  out ← (if over then sink_append (warning (Z.of_nat n - 2)) (output t) else Some (output t));
  let bs := if over then take 2 (buffers_to_write t) else buffers_to_write t in
  let s := if over then record_drop (n - 2) s else s in
  o ← write_all bs out;
  match o with
  | Ok out =>
      let bs := if (2 <? List.length bs)%nat then take 2 bs else bs in
      let step1 :=
        match new_buf1 t with
        | Some b => Some (b, bs)
        | None => recycle bs
        end in
      match step1 with
      | None => Some (crash s)
      | Some (b1, bs) =>
          let step2 :=
            match new_buf2 t, bs with
            | Some b, _ => Some (Some b, bs)
            | None, [] => Some (None, bs)
            | None, _ => '(b, bs) ← recycle bs; Some (Some b, bs)
            end in
          match step2 with
          | None => Some (crash s)
          | Some (b2, _) =>
              Some (set_thread (Some (mkThread PLoop (sink_flush out) (Some b1) b2 [])) s)
          end
      end
  | _ => Some (crash s)
  end.

(** The last critical section. *)
Definition final (t : thread) (s : logger) : logger :=
  set_thread (Some (goto PDrain t))
    match current_ s with
    | Some c => if 0 <? length_ c then set_bufs None (next_ s) (buffers_ s ++ [Some c]) s else s
    | None => s
    end.

(** The last writes: null pointers are skipped. *)
Definition drain (t : thread) (s : logger) : option logger :=
  o ← write_all (filter is_Some (buffers_ s)) (output t);
  match o with
  | Ok out =>
      Some (set_thread (Some (mkThread PDone (sink_flush out) (new_buf1 t) (new_buf2 t)
              (buffers_to_write t))) (set_bufs (current_ s) (next_ s) [] s))
  | _ => Some (crash s)
  end.

(** One step of the back end. *)
Definition backend_step (s : logger) : option logger :=
  t ← thread_ s;
  match pt t with
  | PLoop => Some (set_thread (Some (goto (if running_ s then PLock else PFinal) t)) s)
  | PLock =>
      match buffers_ s with
      | [] => Some (set_thread (Some (goto PWait t)) s)
      | _ => Some (fill t s)
      end
  | PWait => Some (fill t s)
  | PWrite => write_out t s
  | PFinal => Some (final t s)
  | PDrain => drain t s
  | PDone => None
  end.

(** ** Steps *)

Inductive event : Type :=
  | EvCall (line : text)       (* [append] is called *)
  | EvCheck (i : nat)
  | EvAppend (i : nat)
  | EvInit
  | EvShutdown
  | EvFlushAndStop
  | EvDestroy
  | EvDestroyStop
  | EvNotifyAll
  | EvJoined
  | EvBackend.

(** [~Logger] is the only caller of [append] and its lines come from a
    [SmallBuffer]; a thread stops the logger at a time. *)
Definition exec (e : event) (s : logger) : option logger :=
  if crashed s then None else
  match e with
  | EvCall line => if zlen line <=? 4000 then Some (call line s) else None
  | EvCheck i => line ← checking s !! i; Some (check_started i line s)
  | EvAppend i => line ← pending s !! i; Some (append_at i line s)
  | EvInit => Some (init s)
  | EvShutdown => match owner s with OIdle => Some (shutdown s) | _ => None end
  | EvFlushAndStop => match owner s with OIdle => Some (flush_and_stop s) | _ => None end
  | EvDestroy => match owner s with OIdle => Some (store_terminating s) | _ => None end
  | EvDestroyStop => match owner s with OTerm => Some (destroy_stop s) | _ => None end
  | EvNotifyAll => match owner s with ONotify c => Some (set_owner (OJoin c) s) | _ => None end
  | EvJoined =>
      match owner s, thread_ s with
      | OJoin c, None => Some (joined c s)
      | OJoin c, Some t => match pt t with PDone => Some (joined c s) | _ => None end
      | _, _ => None
      end
  | EvBackend => backend_step s
  end.

Definition step (s s' : logger) : Prop := ∃ e, exec e s = Some s'.
Definition reachable (s : logger) : Prop := rtc step new_logger s.

Fixpoint run (es : list event) (s : logger) : option logger :=
  match es with
  | [] => Some s
  | e :: es => s ← exec e s; run es s
  end.
End async_logger.

(** ** Invariant *)

Section invariant.
Context {S : Type} `{LogSink S} (new_sink : S).
Hypothesis new_sink_ok : sink_ok new_sink.
Hypothesis new_sink_text : sink_text new_sink = [].
Implicit Types s : @logger S.
Implicit Types t : @thread S.

Definition good (b : FixedBuffer) : Prop := SIZE b = 4194304 ∧ length_ b ≤ SIZE b.
Definition good_ptr (p : BufferPtr) : Prop := ∃ b, p = Some b ∧ good b.
Definition spare (p : BufferPtr) : Prop := p = Some LargeBuffer.
Definition cat (bs : list BufferPtr) : text := mjoin (ptr_text <$> bs).

#[local] Arguments cat : simpl never.

Lemma good_LargeBuffer : good LargeBuffer.
Proof. by split. Qed.
Lemma good_reset b : good b → reset b = LargeBuffer.
Proof. intros [Hb _]. unfold reset. by rewrite Hb. Qed.
Lemma good_append line b : good b → good (LogStream.append line b).
Proof.
  intros [Hs Hl]. destruct (append_bound line b Hl) as [? Hs']. split; [congruence|done].
Qed.

(** What holds of the back end at each point. *)
Definition thread_ok t s : Prop :=
  match pt t with
  | PLoop | PLock | PWait =>
      spare (new_buf1 t) ∧ spare (new_buf2 t) ∧ buffers_to_write t = [] ∧
      is_Some (current_ s) ∧ (next_ s = None → buffers_ s ≠ [])
  | PWrite =>
      new_buf1 t = None ∧ Forall good_ptr (buffers_to_write t) ∧ buffers_to_write t ≠ [] ∧
      is_Some (current_ s) ∧ (next_ s = None → buffers_ s ≠ []) ∧
      ((new_buf2 t = None ∧ (2 ≤ length (buffers_to_write t))%nat) ∨ spare (new_buf2 t))
  | PFinal => buffers_to_write t = [] ∧ is_Some (current_ s) ∧ running_ s = false
  | PDrain | PDone => buffers_to_write t = [] ∧ running_ s = false
  end.

Definition stopping (o : stopper) : Prop :=
  match o with ONotify _ | OJoin _ => True | _ => False end.

Record inv s : Prop := {
  i_crashed : crashed s = false;
  i_cur b : current_ s = Some b → good b;
  i_next : next_ s = None ∨ spare (next_ s);
  i_bufs : Forall good_ptr (buffers_ s);
  i_lines : Forall (λ l, zlen l ≤ 4000) (checking s ++ pending s);
  i_started : started_ s = false → thread_ s = None;
  i_sink t : thread_ s = Some t → sink_ok (output t);
  i_thread t : thread_ s = Some t → thread_ok t s;
  i_owner t : thread_ s = Some t → running_ s = false → stopping (owner s);
}.

Lemma new_logger_inv : inv new_logger.
Proof. split; cbn; try done. by left. Qed.

(** The back end has taken its last look at [current_], or there is none. *)
Definition over s : Prop :=
  match thread_ s with
  | Some t => match pt t with PDrain | PDone => True | _ => False end
  | None => True
  end.

Lemma classic_over s : over s ∨ ¬ over s.
Proof. unfold over. destruct (thread_ s) as [t|]; [destruct (pt t)|]; auto. Qed.

Lemma current_present s : inv s → ¬ over s → is_Some (current_ s).
Proof.
  intros Hs Ho. unfold over in Ho. destruct (thread_ s) as [t|] eqn:Ht; [|done].
  pose proof (i_thread _ Hs t Ht) as Hok. unfold thread_ok in Hok.
  destruct (pt t); try done; naive_solver.
Qed.

(** *** append *)

Lemma fits_fresh line : zlen line ≤ 4000 → content (LogStream.append line LargeBuffer) = line.
Proof. intros. by rewrite append_fits by (unfold length_; cbn; rewrite zlen_nil; lia). Qed.

Lemma logger_append_spec line s :
  inv s → zlen line ≤ 4000 →
  (current_ s = None ∧ append line s = crash s) ∨
  ∃ c nxt bufs, append line s = record_append line (set_bufs (Some c) nxt bufs s) ∧ good c ∧
    (nxt = None ∨ spare nxt) ∧ Forall good_ptr bufs ∧
    (buffers_ s ≠ [] → bufs ≠ []) ∧ (nxt = None → next_ s = None ∧ bufs = buffers_ s ∨ bufs ≠ []) ∧
    (∃ more, cat bufs = cat (buffers_ s) ++ more) ∧
    cat bufs ++ content c = cat (buffers_ s) ++ ptr_text (current_ s) ++ line.
Proof.
  intros Hs Hl. unfold append. destruct (current_ s) as [c|] eqn:Hc; [right|by left].
  pose proof (i_cur _ Hs c Hc) as Hg. pose proof Hg as [Hsz Hlen].
  destruct (Z.ltb_spec (zlen line) (avail c)) as [Hfit|Hno].
  - exists (LogStream.append line c), (next_ s), (buffers_ s). split_and!; try done.
    + by apply good_append.
    + apply Hs.
    + apply Hs.
    + by left.
    + exists []. by rewrite app_nil_r.
    + cbn [ptr_text]. rewrite append_fits; [done|]. unfold avail in Hfit. lia.
  - set (p := match next_ s with Some b => (b, None) | None => (LargeBuffer, None) end).
    assert (Hp : p = (LargeBuffer, None)).
    { unfold p. destruct (i_next _ Hs) as [->|Hn]; [done|]. by rewrite Hn. }
    rewrite Hp. exists (LogStream.append line LargeBuffer), None, (buffers_ s ++ [Some c]).
    assert (Hcat : cat (buffers_ s ++ [Some c]) = cat (buffers_ s) ++ content c).
    { unfold cat. rewrite fmap_app, join_app. cbn. by rewrite app_nil_r. }
    split_and!.
    + done.
    + by apply good_append, good_LargeBuffer.
    + by left.
    + apply Forall_app. split; [apply Hs|]. constructor; [by exists c|done].
    + intros _. by destruct (buffers_ s).
    + intros _. right. by destruct (buffers_ s).
    + by exists (content c).
    + rewrite Hcat, fits_fresh by done. by rewrite <-app_assoc.
Qed.

(** *** The back end *)

Lemma good_ptr_short p : good_ptr p → zlen (ptr_text p) < 2 ^ 31.
Proof. intros (b & -> & Hs & Hl). unfold length_ in Hl. cbn. lia. Qed.

Lemma write_all_ok bs : ∀ out,
  Forall good_ptr bs → sink_ok out →
  ∃ out', write_all bs out = Some (Ok out') ∧ sink_ok out' ∧
    sink_text out' = sink_text out ++ cat bs.
Proof.
  induction bs as [|p bs IH]; intros out Hall Hok.
  { exists out. split_and!; [done|done|]. by rewrite app_nil_r. }
  apply Forall_cons in Hall as [Hp Hall].
  pose proof (good_ptr_short p Hp) as Hshort. destruct Hp as (b & -> & Hb). cbn [write_all].
  destruct (sink_append_ok (content b) out Hok Hshort) as (o1 & -> & Ho1 & Ht1).
  cbn [mbind option_bind]. destruct (IH o1 Hall Ho1) as (o2 & -> & Ho2 & Ht2).
  exists o2. split_and!; [done|done|]. rewrite Ht2, Ht1, <-app_assoc. done.
Qed.

Lemma recycle_ok bs :
  Forall good_ptr bs → bs ≠ [] →
  ∃ bs', recycle bs = Some (LargeBuffer, bs') ∧ Forall good_ptr bs' ∧
    length bs = Datatypes.S (length bs').
Proof.
  intros Hall Hne. destruct bs as [|p bs' _] using rev_ind; [done|].
  apply Forall_app in Hall as [Hall Hp]. apply Forall_singleton in Hp as (b & -> & Hb).
  exists bs'. unfold recycle. rewrite last_snoc, removelast_last, (good_reset b Hb).
  split_and!; [done|done|]. rewrite length_app. cbn. lia.
Qed.

Lemma take_two_length {A} (bs : list A) :
  length (if (2 <? length bs)%nat then take 2 bs else bs) = Nat.min 2 (length bs).
Proof.
  destruct (Nat.ltb_spec 2 (length bs)); [rewrite length_take|]; lia.
Qed.

(** Writing always succeeds and leaves both spare buffers ready. *)
Lemma write_out_ok t s :
  inv s → thread_ s = Some t → pt t = PWrite →
  let n := length (buffers_to_write t) in
  let over := (25 <? n)%nat in
  ∃ out, write_out t s =
      Some (set_thread (Some (mkThread PLoop (sink_flush out) (Some LargeBuffer)
        (Some LargeBuffer) [])) (if over then record_drop (n - 2) s else s)) ∧
    sink_ok out ∧
    sink_text out = sink_text (output t) ++
      (if over then warning (Z.of_nat n - 2) ++ cat (take 2 (buffers_to_write t))
       else cat (buffers_to_write t)).
Proof.
  intros Hs Ht Hpt n over0. pose proof (i_thread _ Hs t Ht) as Hok.
  unfold thread_ok in Hok. rewrite Hpt in Hok. destruct Hok as (Hb1 & Hall & Hne & _ & _ & Hb2).
  unfold write_out. fold n. change ((25 <? n)%nat) with over0.
  set (bs := if over0 then take 2 (buffers_to_write t) else buffers_to_write t).
  assert (Hbs : Forall good_ptr bs) by (unfold bs; destruct over0; [by apply Forall_take|done]).
  assert (Hlen : Nat.min 2 (length bs) = Nat.min 2 n).
  { unfold bs, over0. destruct (Nat.ltb_spec 25 n); [rewrite length_take|]; lia. }
  assert (Hn : n ≠ 0%nat) by (unfold n; by destruct (buffers_to_write t)).
  assert (∃ o1, (if over0 then sink_append (warning (Z.of_nat n - 2)) (output t)
      else Some (output t)) = Some o1 ∧ sink_ok o1 ∧
    sink_text o1 = sink_text (output t) ++ (if over0 then warning (Z.of_nat n - 2) else []))
    as (o1 & -> & Ho1 & Ht1).
  { pose proof (i_sink _ Hs t Ht). destruct over0.
    - apply sink_append_ok; [done|].
      unfold warning, decimal. rewrite !zlen_app.
      change (zlen (lit "Dropped ")) with 8.
      change (zlen (lit " log buffers (over backpressure limit)")) with 38.
      change (zlen [newline]) with 1.
      destruct (convert (Z.of_nat n - 2)) as [l|] eqn:Hcv; [|rewrite zlen_nil; lia].
      pose proof (convert_length _ _ Hcv). lia.
    - exists (output t). by rewrite app_nil_r. }
  cbn [mbind option_bind]. destruct (write_all_ok bs o1 Hbs Ho1) as (o2 & -> & Ho2 & Ht2).
  exists o2. rewrite Hb1.
  set (bs2 := if (2 <? length bs)%nat then take 2 bs else bs).
  assert (Hl2 : length bs2 = Nat.min 2 n) by (unfold bs2; rewrite take_two_length; lia).
  assert (Hg2 : Forall good_ptr bs2) by (unfold bs2; destruct (2 <? length bs)%nat; [by apply Forall_take|done]).
  destruct (recycle_ok bs2 Hg2) as (bs3 & -> & Hg3 & Hl3); [intros Hnil; rewrite Hnil in Hl2; change (length []) with 0%nat in Hl2; lia|].
  split; [|split; [done|]].
  - cbn [mbind option_bind]. destruct Hb2 as [[-> Hlong]| ->]; [|done].
    fold n in Hlong. destruct bs3 as [|p bs3]; [cbn in Hl3; lia|].
    destruct (recycle_ok (p :: bs3) Hg3) as (bs4 & -> & _); done.
  - rewrite Ht2, Ht1, <-app_assoc. unfold bs. by destruct over0.
Qed.

(** *** Every step keeps the invariant *)

Lemma inv_calls chk pend errs s :
  inv s → Forall (λ l, zlen l ≤ 4000) (chk ++ pend) → inv (set_calls chk pend errs s).
Proof. intros [] ?. by split. Qed.

Lemma lines_delete (l1 l2 : list text) i line :
  Forall (λ l, zlen l ≤ 4000) (l1 ++ l2) → l1 !! i = Some line →
  zlen line ≤ 4000 ∧ Forall (λ l, zlen l ≤ 4000) (delete i l1 ++ l2).
Proof.
  intros [H1 H2]%Forall_app Hi. split; [by eapply (Forall_lookup_1 _ _ _ _ H1)|].
  apply Forall_app. split; [by apply Forall_delete|done].
Qed.

Lemma inv_append line s :
  inv s → zlen line ≤ 4000 →
  (current_ s = None ∧ append line s = crash s) ∨ inv (append line s).
Proof.
  intros Hs Hl. destruct (logger_append_spec line s Hs Hl)
    as [?|(c & nxt & bufs & -> & Hc & Hnxt & Hbufs & Hne & Hnn & _ & _)]; [by left|right].
  pose proof Hs as []. split; cbn; try done.
  - by intros b [= <-].
  - intros t Ht. pose proof (i_thread0 t Ht) as Hok. unfold thread_ok in *. cbn.
    assert (Hn' : (next_ s = None → buffers_ s ≠ []) → nxt = None → bufs ≠ []).
    { intros Hold Hn. destruct (Hnn Hn) as [[? ->]|?]; auto. }
    destruct (pt t); naive_solver.
Qed.

Lemma inv_init s : inv s → inv (init new_sink s).
Proof.
  intros Hs. pose proof Hs as []. unfold init. destruct (started_ s); [done|].
  split; cbn; try done.
  - intros b [= <-]. apply good_LargeBuffer.
  - by right.
  - by intros t [= <-].
  - intros t [= <-]. cbn. by split_and!.
Qed.

Lemma inv_clear_running c s : inv s → inv (clear_running c s).
Proof.
  intros []. split; cbn; try done. intros t Ht. pose proof (i_thread0 t Ht) as Hok.
  unfold thread_ok in *. cbn. destruct (pt t); naive_solver.
Qed.

Lemma inv_owner o s :
  inv s → stopping o ∨ running_ s = true ∨ thread_ s = None → inv (set_owner o s).
Proof.
  intros [] Ho. split; cbn; try done. intros t Ht Hr. destruct Ho as [?|[?|?]]; congruence.
Qed.

Lemma running_or_none s : inv s → ¬ stopping (owner s) → running_ s = true ∨ thread_ s = None.
Proof.
  intros Hs Ho. destruct (thread_ s) as [t|] eqn:Ht; [left|by right].
  destruct (running_ s) eqn:Hr; [done|]. by destruct Ho; eapply i_owner.
Qed.

Lemma inv_joined c s :
  inv s → inv (joined c s).
Proof. intros []. split; cbn; try done. Qed.

(** The back end moves, whatever it did to the buffers. *)
Lemma inv_thread t t' cur nxt bufs s :
  inv s → thread_ s = Some t →
  (∀ b, cur = Some b → good b) → (nxt = None ∨ spare nxt) → Forall good_ptr bufs →
  sink_ok (output t') → thread_ok t' (set_bufs cur nxt bufs s) →
  inv (set_thread (Some t') (set_bufs cur nxt bufs s)).
Proof.
  intros [] Ht Hcur Hnxt Hbufs Hsink Hok. split; cbn; try done.
  - intros Hst. rewrite i_started0 in Ht; done.
  - by intros ? [= <-].
  - by intros ? [= <-].
  - intros ? [= <-]. by apply (i_owner0 t).
Qed.

Lemma inv_drop n s : inv s → inv (record_drop n s).
Proof. intros []. by split. Qed.

Lemma set_bufs_same s : set_bufs (current_ s) (next_ s) (buffers_ s) s = s.
Proof. by destruct s. Qed.

(** The back end moves without touching the buffers. *)
Lemma inv_goto t t' s :
  inv s → thread_ s = Some t → sink_ok (output t') → thread_ok t' s →
  inv (set_thread (Some t') s).
Proof.
  intros Hs Ht Hsink Hok. rewrite <-(set_bufs_same s).
  apply (inv_thread t); try done; try apply Hs.
Qed.

Lemma inv_fill t s :
  inv s → thread_ s = Some t → pt t = PLock ∨ pt t = PWait → inv (fill t s).
Proof.
  intros Hs Ht Hpt. pose proof (i_thread _ Hs t Ht) as Hok.
  assert (Hok' : spare (new_buf1 t) ∧ spare (new_buf2 t) ∧ buffers_to_write t = [] ∧
    is_Some (current_ s) ∧ (next_ s = None → buffers_ s ≠ [])).
  { unfold thread_ok in Hok. by destruct Hpt as [Hpt|Hpt]; rewrite Hpt in Hok. }
  destruct Hok' as (Hb1 & Hb2 & Hbtw & [c Hc] & Hnn).
  unfold fill. rewrite Hb1, Hb2, Hbtw, Hc.
  assert (Hgood : Forall good_ptr (buffers_ s ++ [Some c])).
  { apply Forall_app. split; [apply Hs|]. constructor; [|done]. exists c.
    split; [done|]. by apply Hs. }
  pose proof (i_sink _ Hs t Ht).
  assert (buffers_ s ++ [Some c] ≠ []) by by destruct (buffers_ s).
  destruct (next_ s) as [b|] eqn:Hnext.
  - apply (inv_thread t); try done.
    + intros ? [= <-]. apply good_LargeBuffer.
    + rewrite <-Hnext. apply Hs.
    + cbn. split_and!; try done. by right.
  - apply (inv_thread t); try done.
    + intros ? [= <-]. apply good_LargeBuffer.
    + by right.
    + cbn. split_and!; try done. left. split; [done|]. specialize (Hnn eq_refl).
      rewrite length_app. destruct (buffers_ s); [done|cbn; lia].
Qed.

Lemma inv_write_out t s s' :
  inv s → thread_ s = Some t → pt t = PWrite → write_out t s = Some s' → inv s'.
Proof.
  intros Hs Ht Hpt Hrun. destruct (write_out_ok t s Hs Ht Hpt) as (out & Hw & Hout & _).
  destruct (sink_flush_ok out Hout) as [Hfl _].
  rewrite Hw in Hrun. injection Hrun as <-.
  pose proof (i_thread _ Hs t Ht) as Hok. unfold thread_ok in Hok. rewrite Hpt in Hok.
  destruct (25 <? _)%nat; apply (inv_goto t); try done; try (by apply inv_drop);
    cbn; naive_solver.
Qed.

Lemma inv_final t s :
  inv s → thread_ s = Some t → pt t = PFinal → inv (final t s).
Proof.
  intros Hs Ht Hpt. pose proof (i_thread _ Hs t Ht) as Hok. pose proof (i_sink _ Hs t Ht).
  unfold thread_ok in Hok. rewrite Hpt in Hok. destruct Hok as (Hbtw & [c Hc] & Hr).
  unfold final. rewrite Hc. destruct (0 <? length_ c).
  - apply (inv_thread t); try done; try apply Hs.
    apply Forall_app. split; [apply Hs|]. constructor; [|done]. exists c.
    split; [done|]. by apply Hs.
  - by apply (inv_goto t).
Qed.

Lemma drain_ok t s :
  inv s → thread_ s = Some t →
  ∃ out, drain t s = Some (set_thread (Some (mkThread PDone (sink_flush out) (new_buf1 t)
      (new_buf2 t) (buffers_to_write t))) (set_bufs (current_ s) (next_ s) [] s)) ∧
    sink_ok out ∧ sink_text out = sink_text (output t) ++ cat (buffers_ s).
Proof.
  intros Hs Ht. unfold drain.
  assert (Hall : filter is_Some (buffers_ s) = buffers_ s).
  { pose proof (i_bufs _ Hs) as Hb. induction Hb as [|p ps (b & -> & _) _ IH]; [done|].
    rewrite filter_cons_True, IH; [done|by eexists]. }
  rewrite Hall. destruct (write_all_ok (buffers_ s) (output t)) as (out & -> & Hout & Htx);
    [apply Hs|by eapply i_sink|]. by exists out.
Qed.

Lemma inv_backend s s' : inv s → backend_step s = Some s' → inv s'.
Proof.
  intros Hs (t & Ht & Hrun)%bind_Some. pose proof (i_thread _ Hs t Ht) as Hok.
  pose proof (i_sink _ Hs t Ht) as Hsink. unfold thread_ok in Hok.
  destruct (pt t) eqn:Hpt.
  - injection Hrun as <-. apply (inv_goto t); try done. unfold thread_ok.
    destruct (running_ s) eqn:Hr; cbn; naive_solver.
  - destruct (buffers_ s) as [|p ps] eqn:Hb; injection Hrun as <-.
    + apply (inv_goto t); try done. unfold thread_ok. cbn. by rewrite Hb.
    + apply inv_fill; auto.
  - injection Hrun as <-. apply inv_fill; auto.
  - by eapply inv_write_out.
  - injection Hrun as <-. by apply inv_final.
  - destruct (drain_ok t s Hs Ht) as (out & Hd & Hout & _).
    rewrite Hd in Hrun. injection Hrun as <-. destruct (sink_flush_ok out Hout) as [Hfl _].
    apply (inv_thread t); try done; apply Hs.
  - done.
Qed.

(** A step keeps the invariant, or is an [append] that finds [current_] null after
    the back end's last look at it. *)
Lemma step_inv e s s' :
  inv s → exec new_sink e s = Some s' →
  inv s' ∨ (crashed s' = true ∧ (∃ i, e = EvAppend i) ∧ current_ s = None ∧ over s).
Proof.
  intros Hs Hrun. unfold exec in Hrun. rewrite (i_crashed _ Hs) in Hrun.
  destruct e as [line|i|i| | | | | | | |].
  - destruct (Z.leb_spec (zlen line) 4000); [|done]. injection Hrun as <-. left.
    unfold call. pose proof (i_lines _ Hs) as [? ?]%Forall_app.
    destruct (terminating_ s); apply inv_calls; try done;
      repeat (apply Forall_app; split); try done. by repeat constructor.
  - apply bind_Some in Hrun as (line & Hi & [= <-]). left.
    destruct (lines_delete _ _ _ _ (i_lines _ Hs) Hi) as [Hl Hall]. unfold check_started.
    destruct (negb (started_ s)); apply inv_calls; try done.
    rewrite app_assoc. apply Forall_app. split; [done|by repeat constructor].
  - apply bind_Some in Hrun as (line & Hi & [= <-]). unfold append_at.
    pose proof (i_lines _ Hs) as [Hchk Hpend]%Forall_app.
    destruct (lines_delete _ [] _ _ ltac:(by rewrite app_nil_r) Hi) as [Hline Hall].
    rewrite app_nil_r in Hall.
    destruct (inv_append line (set_calls (checking s) (delete i (pending s)) (stderr_ s) s))
      as [[Hnone ->]|?];
      [apply inv_calls, Forall_app; done|done| |by left].
    right. split_and!; [done|by eexists|done|]. destruct (classic_over s) as [|Ho]; [done|].
    destruct (current_present s Hs Ho) as [c Hc]. cbn in Hnone. congruence.
  - injection Hrun as <-. left. by apply inv_init.
  - destruct (owner s) eqn:Ho; try done. injection Hrun as <-. left. unfold shutdown.
    destruct (running_ s); [by apply inv_clear_running|done].
  - destruct (owner s) eqn:Ho; try done. injection Hrun as <-. left. unfold flush_and_stop.
    destruct (negb (started_ s)); [done|by apply inv_clear_running].
  - destruct (owner s) eqn:Ho; try done. injection Hrun as <-. left.
    destruct (running_or_none s Hs) as [Hr|Hr]; [rewrite Ho; intros []|..];
      destruct Hs; split; cbn; try done; intros; congruence.
  - destruct (owner s) eqn:Ho; try done. injection Hrun as <-. left. unfold destroy_stop.
    destruct (started_ s) eqn:Hst; [by apply inv_clear_running|].
    apply inv_owner; [done|]. right. right. by apply Hs.
  - destruct (owner s) eqn:Ho; try done; injection Hrun as <-. left. apply inv_owner; [done|by left].
  - destruct (owner s) eqn:Ho; try done. left.
    destruct (thread_ s) as [t|]; [destruct (pt t); try done|]; injection Hrun as <-;
      by apply inv_joined.
  - left. by apply inv_backend in Hrun.
Qed.

(** *** What has been written, and what is on its way *)

Definition out_text s : text :=
  mjoin (sink_text <$> past s) ++
  match thread_ s with
  | Some t => sink_text (output t) ++ cat (buffers_to_write t)
  | None => []
  end.
Definition pipeline s : text := out_text s ++ cat (buffers_ s) ++ ptr_text (current_ s).

(** Nothing has been thrown away, by an overload or by a new [init]. *)
Definition intact s : Prop := dropped s = 0%nat ∧ mjoin (lost s) = [].

Record tinv s : Prop := {
  t_eq : intact s → pipeline s = mjoin (appended s);
  t_past : Forall (λ o, sink_disk o = sink_text o) (past s);
  t_stop : at_stop s `prefix_of` appended s;
  t_drain t : intact s → thread_ s = Some t → pt t = PDrain →
    mjoin (at_stop s) `prefix_of` out_text s ++ cat (buffers_ s);
  t_done t : thread_ s = Some t → pt t = PDone →
    sink_disk (output t) = sink_text (output t) ∧
    (intact s → mjoin (at_stop s) `prefix_of` out_text s);
}.

Lemma new_logger_tinv : tinv new_logger.
Proof. by split. Qed.

Lemma cat_snoc bs p : cat (bs ++ [p]) = cat bs ++ ptr_text p.
Proof. unfold cat. rewrite fmap_app, join_app. cbn. by rewrite app_nil_r. Qed.

Lemma mjoin_prefix (l1 l2 : list text) : l1 `prefix_of` l2 → mjoin l1 `prefix_of` mjoin l2.
Proof. intros [k ->]. exists (mjoin k). by rewrite join_app. Qed.

(** Steps that only touch threads in [append], [owner] or the atomics. *)
Lemma tinv_same s s' :
  tinv s → current_ s' = current_ s → buffers_ s' = buffers_ s → thread_ s' = thread_ s →
  past s' = past s → appended s' = appended s → at_stop s' = at_stop s →
  dropped s' = dropped s → lost s' = lost s → tinv s'.
Proof.
  intros [] E1 E2 E3 E4 E5 E6 E7 E8.
  split; unfold pipeline, out_text, intact in *; rewrite ?E1, ?E2, ?E3, ?E4, ?E5, ?E6, ?E7, ?E8;
    try done.
Qed.

Lemma tinv_append line s :
  inv s → zlen line ≤ 4000 → tinv s → tinv (append line s).
Proof.
  intros Hs Hl Ht. destruct (logger_append_spec line s Hs Hl)
    as [[_ ->]|(c & nxt & bufs & -> & _ & _ & _ & _ & _ & [more Hmore] & Hcat)];
    [by apply (tinv_same s)|].
  destruct Ht. split; unfold pipeline, out_text, intact in *; cbn; try done.
  - intros Hin. rewrite join_app. cbn. rewrite app_nil_r, <-t_eq0 by done.
    rewrite <-!app_assoc. do 2 f_equal. by rewrite Hcat.
  - by apply prefix_app_r.
  - intros t Hin Hth Hpt. rewrite Hmore, app_assoc. apply prefix_app_r. by apply (t_drain0 t).
Qed.

Lemma tinv_init s : inv s → tinv s → tinv (init new_sink s).
Proof.
  intros Hs []. unfold init. destruct (started_ s) eqn:Hst; [by split|].
  pose proof (i_started _ Hs Hst) as Hnone.
  split; unfold pipeline, out_text, intact in *; cbn; rewrite ?Hnone in *; try done.
  - rewrite join_app. cbn. rewrite app_nil_r.
    intros [Hd [Hlost Hcur]%app_nil]. rewrite new_sink_text. cbn [app cat].
    rewrite <-t_eq0, Hcur by done. done.
  - by intros t Hin [= <-].
  - by intros t [= <-].
Qed.

Lemma tinv_clear c s :
  inv s → tinv s → running_ s = true ∨ thread_ s = None → tinv (clear_running c s).
Proof.
  intros Hs [] Hrun.
  assert (Hpt : ∀ t, thread_ s = Some t → pt t ≠ PDrain ∧ pt t ≠ PDone).
  { intros t Ht. pose proof (i_thread _ Hs t Ht) as Hok. unfold thread_ok in Hok.
    destruct (pt t); try (by split); destruct Hok as [_ Hr], Hrun; congruence. }
  split; cbn; try done.
  - intros t _ Ht Hp. destruct (Hpt t Ht). congruence.
  - intros t Ht Hp. destruct (Hpt t Ht). congruence.
Qed.

Lemma tinv_joined c s :
  inv s → tinv s → (∀ t, thread_ s = Some t → pt t = PDone) → tinv (joined c s).
Proof.
  intros Hs [] Hdone. split; unfold pipeline, out_text, intact in *; cbn; try done.
  - intros Hin. rewrite <-t_eq0, fmap_app, join_app by done.
    destruct (thread_ s) as [t|] eqn:Ht; cbn; [|by rewrite !app_nil_r].
    pose proof (i_thread _ Hs t Ht) as Hok. unfold thread_ok in Hok. rewrite Hdone in Hok by done.
    destruct Hok as [-> _]. cbn. by rewrite !app_nil_r.
  - apply Forall_app. split; [done|]. destruct (thread_ s) as [t|] eqn:Ht; [|done].
    constructor; [|done]. apply t_done0; auto.
Qed.

Lemma tinv_fill t s :
  inv s → thread_ s = Some t → pt t = PLock ∨ pt t = PWait → tinv s → tinv (fill t s).
Proof.
  intros Hs Ht Hpt []. pose proof (i_thread _ Hs t Ht) as Hok.
  assert (Hok' : new_buf1 t = Some LargeBuffer ∧ buffers_to_write t = []).
  { unfold thread_ok in Hok. destruct Hpt as [Hpt|Hpt]; rewrite Hpt in Hok; naive_solver. }
  destruct Hok' as (Hb1 & Hbtw). unfold fill. rewrite Hbtw, Hb1.
  destruct (match next_ s with Some _ => _ | None => _ end) as [nxt b2].
  split; unfold pipeline, out_text, intact in *; cbn; rewrite ?Ht in *; try done.
  - intros Hin. rewrite <-t_eq0, Hbtw, cat_snoc by done. cbn.
    by rewrite !app_nil_r, <-!app_assoc.
  - by intros ? _ [= <-].
  - by intros ? [= <-].
Qed.

Lemma tinv_write_out t s s' :
  inv s → thread_ s = Some t → pt t = PWrite → tinv s → write_out t s = Some s' → tinv s'.
Proof.
  intros Hs Ht Hpt [] Hrun. destruct (write_out_ok t s Hs Ht Hpt) as (out & Hw & Hout & Htx).
  destruct (sink_flush_ok out Hout) as (_ & Hftx & _).
  rewrite Hw in Hrun. injection Hrun as <-.
  destruct (Nat.ltb_spec 25 (length (buffers_to_write t))).
  - split; unfold pipeline, out_text, intact in *; cbn; try done.
    + intros [? _]. lia.
    + by intros ? _ [= <-].
    + by intros ? [= <-].
  - split; unfold pipeline, out_text, intact in *; cbn; try done.
    + intros Hin. rewrite <-t_eq0, Ht, Hftx, Htx by done. by rewrite !app_nil_r.
    + by intros ? _ [= <-].
    + by intros ? [= <-].
Qed.

Lemma tinv_final t s :
  inv s → thread_ s = Some t → pt t = PFinal → tinv s → tinv (final t s).
Proof.
  intros Hs Ht Hpt []. pose proof (i_thread _ Hs t Ht) as Hok.
  unfold thread_ok in Hok. rewrite Hpt in Hok. destruct Hok as (Hbtw & [c Hc] & Hr).
  assert (Hmoved : ∃ cur bufs, final t s = set_thread (Some (goto PDrain t))
      (set_bufs cur (next_ s) bufs s) ∧ ptr_text cur = [] ∧
    cat bufs = cat (buffers_ s) ++ ptr_text (current_ s)).
  { unfold final. rewrite Hc. destruct (Z.ltb_spec 0 (length_ c)).
    - exists None, (buffers_ s ++ [Some c]). by rewrite cat_snoc.
    - exists (Some c), (buffers_ s). rewrite <-Hc at 1. rewrite set_bufs_same.
      assert (content c = []) as Hnil.
      { unfold length_, zlen in *. destruct (content c); [done|cbn in *; lia]. }
      cbn [ptr_text]. rewrite Hnil, app_nil_r. done. }
  destruct Hmoved as (cur & bufs & -> & Hcur & Hcat).
  split; unfold pipeline, out_text, intact in *; cbn; rewrite ?Ht in *; try done.
  - intros Hin. rewrite <-t_eq0, Hcur, Hcat, app_nil_r by done. done.
  - intros t' Hin [= <-] _. cbn. rewrite Hcat, t_eq0 by done. by apply mjoin_prefix.
  - by intros ? [= <-].
Qed.

Lemma tinv_drain t s s' :
  inv s → thread_ s = Some t → pt t = PDrain → tinv s → drain t s = Some s' → tinv s'.
Proof.
  intros Hs Ht Hpt [] Hrun. pose proof (i_thread _ Hs t Ht) as Hok.
  unfold thread_ok in Hok. rewrite Hpt in Hok. destruct Hok as (Hbtw & Hr).
  destruct (drain_ok t s Hs Ht) as (out & Hd & Hout & Htx).
  destruct (sink_flush_ok out Hout) as (_ & Hftx & Hdisk).
  rewrite Hd in Hrun. injection Hrun as <-.
  split; unfold pipeline, out_text, intact in *; cbn; rewrite ?Ht in *; try done.
  - intros Hin. rewrite <-t_eq0, Hftx, Htx, Hbtw by done. cbn. by rewrite !app_nil_r, <-!app_assoc.
  - by intros t' Hin [= <-].
  - intros t' [= <-] _. cbn. split; [congruence|]. intros Hin.
    specialize (t_drain0 t Hin eq_refl Hpt). rewrite Hftx, Htx, Hbtw in *. cbn in *.
    by rewrite !app_nil_r, <-!app_assoc in *.
Qed.

Lemma step_tinv e s s' :
  inv s → tinv s → exec new_sink e s = Some s' → tinv s'.
Proof.
  intros Hs Ht Hrun. unfold exec in Hrun. rewrite (i_crashed _ Hs) in Hrun.
  destruct e as [line|i|i| | | | | | | |].
  - destruct (zlen line <=? 4000); [|done]. injection Hrun as <-. unfold call.
    destruct (terminating_ s); by apply (tinv_same s).
  - apply bind_Some in Hrun as (line & Hi & [= <-]). unfold check_started.
    destruct (negb (started_ s)); by apply (tinv_same s).
  - apply bind_Some in Hrun as (line & Hi & [= <-]). unfold append_at.
    pose proof (i_lines _ Hs) as [Hchk Hpend]%Forall_app.
    destruct (lines_delete _ [] _ _ ltac:(by rewrite app_nil_r) Hi) as [Hline Hall].
    rewrite app_nil_r in Hall.
    apply tinv_append; [apply inv_calls, Forall_app; done|done|by apply (tinv_same s)].
  - injection Hrun as <-. by apply tinv_init.
  - destruct (owner s) eqn:Ho; try done. injection Hrun as <-. unfold shutdown.
    destruct (running_ s) eqn:Hr; [|done]. apply tinv_clear; auto.
  - destruct (owner s) eqn:Ho; try done. injection Hrun as <-. unfold flush_and_stop.
    destruct (negb (started_ s)); [done|]. apply tinv_clear; try done.
    apply running_or_none; [done|]. rewrite Ho. intros [].
  - destruct (owner s) eqn:Ho; try done. injection Hrun as <-. by apply (tinv_same s).
  - destruct (owner s) eqn:Ho; try done. injection Hrun as <-. unfold destroy_stop.
    destruct (started_ s); [|by apply (tinv_same s)]. apply tinv_clear; try done.
    apply running_or_none; [done|]. rewrite Ho. intros [].
  - destruct (owner s) eqn:Ho; try done; injection Hrun as <-. by apply (tinv_same s).
  - destruct (owner s) eqn:Ho; try done.
    destruct (thread_ s) as [t|] eqn:Hth; [destruct (pt t) eqn:Hpt; try done|];
      injection Hrun as <-; apply tinv_joined; try done; congruence.
  - apply bind_Some in Hrun as (t & Hth & Hrun). destruct (pt t) eqn:Hpt.
    + injection Hrun as <-. destruct Ht.
      split; unfold pipeline, out_text, intact in *; cbn; rewrite ?Hth in *; try done;
        intros ?; intros; simplify_eq/=; by destruct (running_ s).
    + destruct (buffers_ s) eqn:Hb; injection Hrun as <-; [|apply tinv_fill; auto].
      destruct Ht. split; unfold pipeline, out_text, intact in *; cbn; rewrite ?Hth in *;
        try done; intros ?; intros; by simplify_eq/=.
    + injection Hrun as <-. apply tinv_fill; auto.
    + by eapply tinv_write_out.
    + injection Hrun as <-. by apply tinv_final.
    + by eapply tinv_drain.
    + done.
Qed.

Lemma logger_reachable_inv s :
  reachable new_sink s → (inv s ∧ tinv s) ∨ (crashed s = true ∧ tinv s).
Proof.
  apply (rtc_invariant _ (λ s, (inv s ∧ tinv s) ∨ (crashed s = true ∧ tinv s)) new_logger).
  - intros s1 s2 [[Hs Ht]|[Hc Ht]] [e Hrun].
    + pose proof (step_tinv _ _ _ Hs Ht Hrun) as Ht2.
      destruct (step_inv _ _ _ Hs Hrun) as [?|[? _]]; [by left|by right].
    + unfold exec in Hrun. by rewrite Hc in Hrun.
  - left. split; [apply new_logger_inv|apply new_logger_tinv].
Qed.

(** *** The back end ends *)

Definition rank (p : point) : nat :=
  match p with
  | PLock => 6 | PWait => 5 | PWrite => 4 | PLoop => 3 | PFinal => 2 | PDrain => 1 | PDone => 0
  end.

Lemma backend_progress t s :
  inv s → thread_ s = Some t → running_ s = false → pt t ≠ PDone →
  ∃ t' s', exec new_sink EvBackend s = Some s' ∧ thread_ s' = Some t' ∧ running_ s' = false ∧
    (rank (pt t') < rank (pt t))%nat.
Proof.
  intros Hs Ht Hr Hpt. unfold exec. rewrite (i_crashed _ Hs). unfold backend_step.
  rewrite Ht. cbn [mbind option_bind].
  assert (Hfill : ∃ t', thread_ (fill t s) = Some t' ∧ running_ (fill t s) = false ∧ pt t' = PWrite).
  { unfold fill. destruct (match next_ s with Some _ => _ | None => _ end) as [nxt b2].
    by eexists. }
  destruct Hfill as (tf & Htf & Hrf & Hpf).
  destruct (pt t) eqn:Hp; try done.
  - rewrite Hr. eexists _, _. split_and!; [done|done|done|cbn; lia].
  - destruct (buffers_ s).
    + eexists _, _. split_and!; [done|done|done|cbn; lia].
    + exists tf, (fill t s). split_and!; [done|done|done|]. rewrite Hpf. cbn. lia.
  - exists tf, (fill t s). split_and!; [done|done|done|]. rewrite Hpf. cbn. lia.
  - destruct (write_out_ok t s Hs Ht Hp) as (out & -> & _).
    eexists _, _. split_and!; [done|done| |cbn; lia]. by destruct (25 <? _)%nat.
  - eexists _, _. split_and!; [done|done| |cbn; lia]. unfold final.
    destruct (current_ s) as [c|]; [by destruct (0 <? length_ c)|done].
  - destruct (drain_ok t s Hs Ht) as (out & -> & _).
    eexists _, _. split_and!; [done|done|done|cbn; lia].
Qed.

Lemma backend_ends k : ∀ t s,
  inv s → thread_ s = Some t → running_ s = false → (rank (pt t) ≤ k)%nat →
  ∃ n t' s', (n ≤ k)%nat ∧ run new_sink (replicate n EvBackend) s = Some s' ∧
    thread_ s' = Some t' ∧ pt t' = PDone.
Proof.
  induction k as [|k IH]; intros t s Hs Ht Hr Hk.
  { exists 0%nat, t, s. split_and!; [done|done|done|]. destruct (pt t); try done; cbn in Hk; lia. }
  assert (pt t = PDone ∨ pt t ≠ PDone) as [Hd|Hd] by (destruct (pt t); auto).
  { exists 0%nat, t, s. split_and!; [lia|done|done|done]. }
  destruct (backend_progress t s Hs Ht Hr Hd) as (t1 & s1 & Hrun & Ht1 & Hr1 & Hlt).
  destruct (step_inv _ _ _ Hs Hrun) as [Hs1|(_ & [i ?] & _)]; [|done].
  destruct (IH t1 s1) as (n & t' & s' & Hn & Hrun' & ?); [done|done|done|lia|].
  exists (Datatypes.S n), t', s'. split_and!; [lia| |naive_solver..].
  cbn [replicate run]. by rewrite Hrun.
Qed.

Lemma run_snoc es e s : run new_sink (es ++ [e]) s = run new_sink es s ≫= exec new_sink e.
Proof.
  revert s. induction es as [|e' es IH]; intros s.
  - change (exec new_sink e s ≫= (λ s, Some s) = exec new_sink e s).
    by destruct (exec new_sink e s).
  - change (exec new_sink e' s ≫= run new_sink (es ++ [e]) =
      (exec new_sink e' s ≫= run new_sink es) ≫= exec new_sink e).
    destruct (exec new_sink e' s) as [s'|]; [apply IH|done].
Qed.

(** ** Properties *)

(** The back end never dereferences a null buffer, whatever the interleaving:
    its two spare buffers are always there when it swaps, so [current_] is never
    null while it runs.  The only null dereference left is an [append] that found
    the logger started and takes the mutex after the back end's last look at
    [current_]. *)
Theorem async_logger_null_safe s e s' :
  reachable new_sink s → exec new_sink e s = Some s' → crashed s' = true →
  (∃ i, e = EvAppend i) ∧ current_ s = None ∧ over s.
Proof.
  intros Hreach Hrun Hc. destruct (logger_reachable_inv s Hreach) as [[Hs _]|[Hcr _]].
  - destruct (step_inv _ _ _ Hs Hrun) as [Hs'|(_ & ? & ? & ?)]; [|done].
    by rewrite (i_crashed _ Hs') in Hc.
  - unfold exec in Hrun. by rewrite Hcr in Hrun.
Qed.

(** C16: Unless the overload limit or a new [init] threw buffers away, the text in
    the files, followed by that of the buffers on their way, is at every moment the
    concatenation of the lines appended, in the order of their critical sections:
    none is lost, duplicated, reordered or cut. *)
Theorem async_logger_order s :
  reachable new_sink s → dropped s = 0%nat → mjoin (lost s) = [] →
  mjoin (sink_text <$> past s) ++
    match thread_ s with
    | Some t => sink_text (output t) ++ cat (buffers_to_write t)
    | None => []
    end ++ cat (buffers_ s) ++ ptr_text (current_ s) = mjoin (appended s).
Proof.
  intros Hreach Hd Hl.
  assert (Ht : tinv s) by by destruct (logger_reachable_inv s Hreach) as [[_ ?]|[_ ?]].
  rewrite <-(t_eq _ Ht) by done. unfold pipeline, out_text. by rewrite <-!app_assoc.
Qed.

(** What a join leaves on disk. *)
Lemma stop_flushes s s' :
  reachable new_sink s → is_Some (thread_ s) → exec new_sink EvJoined s = Some s' →
  dropped s' = 0%nat → mjoin (lost s') = [] →
  mjoin (at_stop s') `prefix_of` mjoin (sink_disk <$> past s').
Proof.
  intros Hreach [t Ht] Hrun Hd Hl.
  destruct (logger_reachable_inv s Hreach) as [[Hs Hts]|[Hc _]].
  2: { unfold exec in Hrun. by rewrite Hc in Hrun. }
  pose proof (step_tinv _ _ _ Hs Hts Hrun) as Hts'.
  unfold exec in Hrun. rewrite (i_crashed _ Hs), Ht in Hrun.
  destruct (owner s) as [| | |c]; try done. destruct (pt t) eqn:Hpt; try done.
  injection Hrun as <-.
  assert (Hdisk : sink_disk <$> past (joined c s) = sink_text <$> past (joined c s)).
  { pose proof (t_past _ Hts') as Hp. induction Hp as [|o l Ho _ IH]; [done|].
    by rewrite !fmap_cons, Ho, IH. }
  rewrite Hdisk. destruct (t_done _ Hts t Ht Hpt) as [_ Hpre].
  specialize (Hpre (conj Hd Hl)). unfold out_text in Hpre. rewrite Ht in Hpre.
  pose proof (i_thread _ Hs t Ht) as Hok. unfold thread_ok in Hok. rewrite Hpt in Hok.
  destruct Hok as [Hbtw _]. rewrite Hbtw in Hpre. cbn [past joined at_stop].
  rewrite Ht, fmap_app, join_app. cbn in *. by rewrite !app_nil_r in *.
Qed.

(** When [shutdown] or [flush_and_stop] returns, every line that had been
    appended when it was called is on disk, in order. *)
Theorem async_logger_stop_flushes s s' :
  reachable new_sink s → is_Some (thread_ s) → exec new_sink EvJoined s = Some s' →
  dropped s' = 0%nat → mjoin (lost s') = [] →
  mjoin (at_stop s') `prefix_of` mjoin (sink_disk <$> past s').
Proof. apply stop_flushes. Qed.

(** The back end ends within six of its own steps once [running_] is cleared,
    so the join of [shutdown] and [flush_and_stop] returns. *)
Theorem async_logger_stop_ends s t :
  reachable new_sink s → crashed s = false → thread_ s = Some t → running_ s = false →
  ∃ n t' s', (n ≤ 6)%nat ∧ run new_sink (replicate n EvBackend) s = Some s' ∧
    thread_ s' = Some t' ∧ pt t' = PDone.
Proof.
  intros Hreach Hc Ht Hr. destruct (logger_reachable_inv s Hreach) as [[Hs _]|[? _]]; [|congruence].
  apply (backend_ends 6 t); try done. destruct (pt t); cbn; lia.
Qed.
End invariant.

(** An [append] that loads [started_] just before the logger is stopped comes too
    late: it dereferences the null [current_], or, if nothing else was buffered,
    leaves its line where no back end will write it. *)
Theorem late_append {S} `{LogSink S} (new_sink : S) :
  let a := [newline] in
  (∃ s, run new_sink
     [EvInit; EvCall a; EvCheck 0; EvAppend 0; EvCall a; EvCheck 0; EvShutdown; EvBackend;
      EvBackend; EvAppend 0] new_logger = Some s ∧ crashed s = true) ∧
  (∃ s, run new_sink
     [EvInit; EvCall a; EvCheck 0; EvShutdown; EvBackend; EvBackend; EvAppend 0; EvBackend;
      EvNotifyAll; EvJoined] new_logger = Some s ∧
     appended s = [a] ∧ past s = [sink_flush new_sink] ∧ buffers_ s = [] ∧ stderr_ s = [] ∧
     started_ s = false).
Proof. split; eexists; (split; [vm_compute; reflexivity|]); repeat split. Qed.

(** ** Witnesses *)

Module Demo.
(** The log file itself is the sink. *)
#[export] Instance sink : LogSink LogFile :=
  log_file_sink (lit "app") 1000 3 1024 LogFile.Demo.utc None 7 LogFile.Demo.time
    (λ _ _, true) LogFile.Demo.fwrite (λ _, true) (λ _ _, eq_refl) (λ _, eq_refl)
    LogFile.Demo.fwrite_ok.
Definition new_sink : LogFile :=
  new_LogFile (lit "app") LogFile.Demo.utc None 7 LogFile.Demo.time (λ _ _, true) (λ _, true).
Lemma new_sink_ok : sink_ok new_sink.
Proof.
  exists [[]]. apply new_holds; done.
Qed.
Lemma new_sink_text : sink_text new_sink = [].
Proof. vm_compute. reflexivity. Qed.

Definition line : text := lit "ab".
Definition to_join : list event :=
  [EvInit; EvCall line; EvCheck 0; EvAppend 0; EvBackend; EvBackend; EvBackend; EvBackend;
   EvCall line; EvCheck 0; EvAppend 0; EvShutdown; EvBackend; EvBackend; EvBackend; EvNotifyAll].
Definition to_late : list event :=
  [EvInit; EvCall line; EvCheck 0; EvAppend 0; EvCall line; EvCheck 0; EvShutdown; EvBackend;
   EvBackend].
Definition start : @logger LogFile := new_logger.
Definition view (o : option (@logger LogFile)) :=
  (λ s, (crashed s, dropped s, mjoin (lost s), mjoin (sink_disk <$> past s), at_stop s)) <$> o.

Lemma logger_run_reachable es s : run new_sink es start = Some s → reachable new_sink s.
Proof.
  assert (Hgen : ∀ s0, run new_sink es s0 = Some s → rtc (step new_sink) s0 s).
  { induction es as [|e es IH]; intros s0 Hrun; [injection Hrun as ->; constructor|].
    apply bind_Some in Hrun as (s1 & He & Hrun). eapply rtc_l; [by exists e|by apply IH]. }
  apply Hgen.
Qed.
Lemma joined_view :
  view (run new_sink (to_join ++ [EvJoined]) start) =
  Some (false, 0%nat, [], lit "abab", [line; line]).
Proof. vm_compute. reflexivity. Qed.
Lemma late_view :
  (s ← run new_sink to_late start; s' ← exec new_sink (EvAppend 0) s; Some (crashed s')) = Some true.
Proof. vm_compute. reflexivity. Qed.
Lemma order_view :
  (s ← run new_sink (take 11 to_join) start; Some (dropped s, mjoin (lost s), appended s)) =
  Some (0%nat, [], [line; line]).
Proof. vm_compute. reflexivity. Qed.
Lemma stop_view :
  (s ← run new_sink (take 12 to_join) start;
   Some (crashed s, running_ s, pt <$> thread_ s)) = Some (false, false, Some PLoop).
Proof. vm_compute. reflexivity. Qed.
Lemma to_join_view :
  (s ← run new_sink to_join start; Some (pt <$> thread_ s)) = Some (Some PDone).
Proof. vm_compute. reflexivity. Qed.
End Demo.
#[local] Existing Instance Demo.sink.

Lemma async_logger_null_safe_witness :
  ∃ s s', run Demo.new_sink Demo.to_late Demo.start = Some s ∧
    exec Demo.new_sink (EvAppend 0) s = Some s' ∧ current_ s = None ∧ over s.
Proof.
  pose proof Demo.late_view as Hv. apply bind_Some in Hv as (s & Hs & Hv).
  apply bind_Some in Hv as (s' & Hs' & Hc). injection Hc as Hc.
  destruct (async_logger_null_safe Demo.new_sink Demo.new_sink_ok Demo.new_sink_text s (EvAppend 0) s'
    (Demo.logger_run_reachable _ _ Hs) Hs' Hc) as (_ & Hcur & Hover).
  exists s, s'. split; [exact Hs|]. split; [exact Hs'|]. split; [exact Hcur|exact Hover].
Defined.

Lemma async_logger_order_witness :
  ∃ s, run Demo.new_sink (take 11 Demo.to_join) Demo.start = Some s ∧
    mjoin (sink_text <$> past s) ++
    match thread_ s with
    | Some t => sink_text (output t) ++ cat (buffers_to_write t)
    | None => []
    end ++ cat (buffers_ s) ++ ptr_text (current_ s) = lit "abab".
Proof.
  pose proof Demo.order_view as Hv. apply bind_Some in Hv as (s & Hs & Hv).
  injection Hv as Hd Hl Ha. exists s. split; [exact Hs|].
  rewrite (async_logger_order Demo.new_sink Demo.new_sink_ok Demo.new_sink_text s
    (Demo.logger_run_reachable _ _ Hs) Hd Hl), Ha. reflexivity.
Defined.

Lemma async_logger_stop_flushes_witness :
  ∃ s s', run Demo.new_sink Demo.to_join Demo.start = Some s ∧
    exec Demo.new_sink EvJoined s = Some s' ∧ at_stop s' = [Demo.line; Demo.line] ∧
    mjoin (at_stop s') `prefix_of` mjoin (sink_disk <$> past s').
Proof.
  pose proof Demo.to_join_view as Hv. apply bind_Some in Hv as (s & Hs & Hv).
  injection Hv as Hth.
  pose proof Demo.joined_view as Hj. rewrite run_snoc, Hs in Hj. cbn [mbind option_bind] in Hj.
  unfold Demo.view in Hj. destruct (exec Demo.new_sink EvJoined s) as [s'|] eqn:He; [|done].
  cbn [fmap option_fmap option_map] in Hj. injection Hj as _ Hd Hl _ Hat.
  exists s, s'. split; [exact Hs|]. split; [done|]. split; [exact Hat|].
  apply (async_logger_stop_flushes Demo.new_sink Demo.new_sink_ok Demo.new_sink_text s s'
    (Demo.logger_run_reachable _ _ Hs)); [|exact He|exact Hd|exact Hl].
  destruct (thread_ s) as [t|]; [by eexists|done].
Defined.

Lemma async_logger_stop_ends_witness :
  ∃ s n t' s', run Demo.new_sink (take 12 Demo.to_join) Demo.start = Some s ∧ (n ≤ 6)%nat ∧
    run Demo.new_sink (replicate n EvBackend) s = Some s' ∧ thread_ s' = Some t' ∧ pt t' = PDone.
Proof.
  pose proof Demo.stop_view as Hv. apply bind_Some in Hv as (s & Hs & Hv).
  injection Hv as Hc Hr Hth. destruct (thread_ s) as [t|] eqn:Ht; [|discriminate].
  destruct (async_logger_stop_ends Demo.new_sink Demo.new_sink_ok Demo.new_sink_text s t
    (Demo.logger_run_reachable _ _ Hs) Hc Ht Hr) as (n & t' & s' & ? & ? & ? & ?).
  exists s, n, t', s'. by split_and!.
Defined.
