(* ===== verification/Fatal.v ===== *)
(** * Fatal: from an uncaught exception to the log file

    Composes [LogStream] and [AsyncLogger] along the path on which the process dies: an
    exception leaves a spawned coroutine, [unhandled_exception] of [FireAndForget]
    ([include/coro_net/fire_and_forget.hpp]) calls [log_fire_and_forget_uncaught]
    ([src/coroutine/fire_and_forget.cc]), whose [LOG_FATAL] statement ends in
    [~Logger] ([src/log/logger.cc]): [append], [flush_and_stop], [abort].  The dying
    thread goes through these calls step by step while the others log on and the back
    end runs; nobody else stops the logger meanwhile. *)
From Stdlib Require Import Ascii String.
From S2P Require Import Prelude Interfaces LogStream LogFile AsyncLogger.

(** ** The message *)

(** What [std::current_exception()] holds: a [std::exception] with its [what()], or
    anything else. *)
Inductive exception : Type :=
  | StdException (what : text)
  | OtherException.

(** [log_fire_and_forget_uncaught]: what [LOG_FATAL] streams, if it is reached. *)
Definition uncaught_message {F} (ep : option exception) : option (list (@item F)) :=
  match ep with
  | None => None
  | Some (StdException what) =>
      Some [ICString (Some (lit "FireAndForget uncaught exception: ")); ICString (Some what)]
  | Some OtherException =>
      Some [ICString (Some (lit "FireAndForget uncaught exception: (unknown)"))]
  end.

(** ** The dying thread *)

Section fatal.
Context {S : Type} `{LogSink S} (new_sink : S).

Inductive fpoint : Type :=
  | FCall        (* [~Logger] is about to call [append] *)
  | FCheck       (* in [append], about to load [started_] *)
  | FAppend      (* about to lock [mutex_] *)
  | FStop        (* about to call [flush_and_stop] *)
  | FNotify
  | FJoin
  | FAborted.

(** [mine]: the place of the thread among those in [append]. *)
Record process := mkProcess { at_point : fpoint; mine : nat; lg : @logger S }.

(** [~Logger] of a line that aborts, one access at a time. *)
Definition own_step (line : text) (p : process) : option process :=
  let s := lg p in
  match at_point p with
  | FCall =>
      s' ← exec new_sink (EvCall line) s;
      Some (mkProcess (if terminating_ s then FStop else FCheck) (List.length (checking s)) s')
  | FCheck =>
      s' ← exec new_sink (EvCheck (mine p)) s;
      Some (mkProcess (if started_ s then FAppend else FStop) (List.length (pending s)) s')
  | FAppend => s' ← exec new_sink (EvAppend (mine p)) s; Some (mkProcess FStop 0 s')
  | FStop =>
      s' ← exec new_sink EvFlushAndStop s;
      Some (mkProcess (if started_ s then FNotify else FAborted) 0 s')
  | FNotify => s' ← exec new_sink EvNotifyAll s; Some (mkProcess FJoin 0 s')
  | FJoin => s' ← exec new_sink EvJoined s; Some (mkProcess FAborted 0 s')
  | FAborted => None
  end.

(** The place of the thread after another one left place [i] of the same queue. *)
Definition shift (i k : nat) : option nat :=
  if decide (i = k) then None else Some (if decide (i < k)%nat then pred k else k).

(** A step of another thread or of the back end. *)
Definition other_step (e : event) (p : process) : option process :=
  s' ← exec new_sink e (lg p);
  match e, at_point p with
  | _, FAborted => None
  | EvCheck i, FCheck => k ← shift i (mine p); Some (mkProcess FCheck k s')
  | EvAppend i, FAppend => k ← shift i (mine p); Some (mkProcess FAppend k s')
  | (EvCall _ | EvCheck _ | EvAppend _ | EvInit | EvBackend), f => Some (mkProcess f (mine p) s')
  | _, _ => None
  end.

Inductive process_event : Type := FOwn | FOther (e : event).

Definition process_exec (line : text) (e : process_event) (p : process) : option process :=
  match e with FOwn => own_step line p | FOther e => other_step e p end.

Fixpoint process_run (line : text) (es : list process_event) (p : process) : option process :=
  match es with
  | [] => Some p
  | e :: es => p ← process_exec line e p; process_run line es p
  end.

(** The line is where a human will find it: on standard error, or in the files unless
    the overload limit or a new [init] threw buffers away. *)
Definition survives (line : text) (s : @logger S) : Prop :=
  line ∈ stderr_ s ∨
  (dropped s = 0%nat → mjoin (lost s) = [] →
   ∃ before after, mjoin (sink_disk <$> past s) = before ++ line ++ after).

(** ** Lemmas *)

Hypothesis new_sink_ok : sink_ok new_sink.
Hypothesis new_sink_text : sink_text new_sink = [].
Implicit Types s : @logger S.

(** Who stops, and what a logger that was started and not destroyed has. *)
Record sane s : Prop := {
  z_thread : started_ s = true → is_Some (thread_ s) ∨ terminating_ s = true;
  z_stop : owner s = OTerm ∨ owner s = ONotify false ∨ owner s = OJoin false → terminating_ s = true;
}.

(** What the other threads leave alone. *)
Record kept s s' : Prop := {
  e_owner : owner s' = owner s;
  e_term : terminating_ s' = terminating_ s;
  e_stop : at_stop s' = at_stop s;
  e_stderr : stderr_ s `prefix_of` stderr_ s';
  e_appended : appended s `prefix_of` appended s';
  e_started : started_ s = true → started_ s' = true ∧ running_ s' = running_ s;
  e_init : started_ s' = true → started_ s = true ∨ is_Some (thread_ s');
  e_thread : is_Some (thread_ s) → is_Some (thread_ s');
}.

Definition harmless (e : event) : bool :=
  match e with EvCall _ | EvCheck _ | EvAppend _ | EvInit | EvBackend => true | _ => false end.

Ltac kept_solver := split; cbn; (done || by eexists || by auto).

Lemma kept_append line s : kept s (append line s).
Proof.
  unfold append. destruct (current_ s) as [c|]; [|kept_solver].
  destruct (zlen line <? avail c); [|destruct (next_ s)]; kept_solver.
Qed.

Lemma kept_backend s s' : backend_step s = Some s' → kept s s'.
Proof.
  unfold backend_step. destruct (thread_ s) as [t|] eqn:Ht; [|done].
  cbn [mbind option_bind].
  assert (Hset : ∀ t', kept s (set_thread (Some t') s)) by (intros; kept_solver).
  assert (Hfill : kept s (fill t s)) by (unfold fill; destruct (next_ s); kept_solver).
  destruct (pt t); try done; try by intros [= <-].
  - destruct (buffers_ s); by intros [= <-].
  - unfold write_out. intros (out & _ & Hw)%bind_Some. apply bind_Some in Hw as (o & _ & Hw).
    set (s1 := if (25 <? _)%nat then _ else s) in Hw.
    assert (Hs1 : kept s s1) by (unfold s1; destruct (_ <? _)%nat; kept_solver).
    assert (Hany : ∀ o, kept s (set_thread (Some o) s1)) by (intros ?; destruct Hs1; kept_solver).
    assert (Hcr : kept s (crash s1)) by (destruct Hs1; kept_solver).
    clearbody s1. repeat case_match; simplify_eq; done.
  - intros [= <-]. unfold final.
    destruct (current_ s) as [c|]; [destruct (0 <? length_ c)|]; kept_solver.
  - unfold drain. intros (o & _ & Hw)%bind_Some. destruct o; injection Hw as <-; kept_solver.
Qed.

Lemma kept_exec e s s' : harmless e = true → exec new_sink e s = Some s' → kept s s'.
Proof.
  unfold exec. destruct (crashed s); [done|]. destruct e; try done; intros _ Hex.
  - destruct (_ <=? _); [|done]. injection Hex as <-. unfold call.
    destruct (terminating_ s); kept_solver.
  - apply bind_Some in Hex as (line & _ & [= <-]). unfold check_started.
    destruct (negb (started_ s)); kept_solver.
  - apply bind_Some in Hex as (line & _ & [= <-]). unfold append_at.
    destruct (kept_append line (set_calls (checking s) (delete i (pending s)) (stderr_ s) s)).
    by split.
  - injection Hex as <-. unfold init. destruct (started_ s) eqn:Ht; [kept_solver|].
    split; cbn; try done; rewrite ?Ht; naive_solver.
  - by apply kept_backend.
Qed.

Lemma sane_exec e s s' : sane s → exec new_sink e s = Some s' → sane s'.
Proof.
  intros [Ht Hst] Hex. destruct (harmless e) eqn:Hh.
  { pose proof (kept_exec e s s' Hh Hex) as Hk. destruct Hk as [Ho Hte _ _ _ _ Hi Hth]. split.
    - intros [Hs|?]%Hi; [|by left]. rewrite Hte. destruct (Ht Hs) as [?|?]; [left; auto|by right].
    - by rewrite Ho, Hte. }
  unfold exec in Hex. destruct (crashed s); [done|]. destruct e; try done.
  - destruct (owner s) eqn:Ho; try done. injection Hex as <-. unfold shutdown.
    destruct (running_ s); split; cbn; rewrite ?Ho; naive_solver.
  - destruct (owner s) eqn:Ho; try done. injection Hex as <-. unfold flush_and_stop.
    destruct (negb (started_ s)); split; cbn; rewrite ?Ho; naive_solver.
  - destruct (owner s); try done. injection Hex as <-. split; cbn; naive_solver.
  - destruct (owner s) eqn:Ho; try done. injection Hex as <-. unfold destroy_stop.
    destruct (started_ s) eqn:Hs; split; cbn; naive_solver.
  - destruct (owner s) as [| |c|] eqn:Ho; try done. injection Hex as <-.
    split; cbn; [done|]. destruct c; naive_solver.
  - destruct (owner s) as [| | |c] eqn:Ho; try done.
    assert (s' = joined c s) as ->.
    { destruct (thread_ s) as [t|]; [destruct (pt t)|]; by simplify_eq. }
    split; cbn; destruct c; naive_solver.
Qed.

Lemma reachable_sane s : reachable new_sink s → sane s.
Proof.
  apply (rtc_invariant _ sane new_logger).
  - intros s1 s2 Hs [e Hex]. by eapply sane_exec.
  - split; cbn; naive_solver.
Qed.

(** What the other threads do to the queues of [append]. *)
Lemma queues_append line s : checking (append line s) = checking s ∧ pending (append line s) = pending s.
Proof.
  unfold append. destruct (current_ s) as [c|]; [|done].
  by destruct (zlen line <? avail c), (next_ s).
Qed.

Lemma queues_backend s s' : backend_step s = Some s' → checking s' = checking s ∧ pending s' = pending s.
Proof.
  unfold backend_step. destruct (thread_ s) as [t|]; [|done]. cbn [mbind option_bind].
  assert (Hfill : checking (fill t s) = checking s ∧ pending (fill t s) = pending s)
    by (unfold fill; by destruct (next_ s)).
  destruct (pt t); try done; try by intros [= <-].
  - destruct (buffers_ s); by intros [= <-].
  - unfold write_out. intros (out & _ & Hw)%bind_Some. apply bind_Some in Hw as (o & _ & Hw).
    set (s1 := if (25 <? _)%nat then _ else s) in Hw.
    assert (Hs1 : checking s1 = checking s ∧ pending s1 = pending s) by (unfold s1; by destruct (_ <? _)%nat).
    clearbody s1. repeat case_match; simplify_eq; done.
  - intros [= <-]. unfold final.
    destruct (current_ s) as [c|]; [destruct (0 <? length_ c)|]; done.
  - unfold drain. intros (o & _ & Hw)%bind_Some. destruct o; by injection Hw as <-.
Qed.

Lemma queues_exec e s s' :
  harmless e = true → exec new_sink e s = Some s' →
  match e with
  | EvCheck i => checking s' = delete i (checking s) ∧ pending s `prefix_of` pending s'
  | EvAppend i => checking s' = checking s ∧ pending s' = delete i (pending s)
  | _ => checking s `prefix_of` checking s' ∧ pending s' = pending s
  end.
Proof.
  unfold exec. destruct (crashed s); [done|]. destruct e; try done; intros _ Hex.
  - destruct (_ <=? _); [|done]. injection Hex as <-. unfold call.
    destruct (terminating_ s); cbn; [done|]. split; [by eexists|done].
  - apply bind_Some in Hex as (line & _ & [= <-]). unfold check_started.
    destruct (started_ s); cbn; [|done]. split; [done|by eexists].
  - apply bind_Some in Hex as (line & _ & [= <-]). unfold append_at.
    destruct (queues_append line (set_calls (checking s) (delete i (pending s)) (stderr_ s) s))
      as [-> ->]. done.
  - injection Hex as <-. unfold init. by destruct (started_ s).
  - destruct (queues_backend _ _ Hex) as [-> ->]. done.
Qed.

Lemma shift_lookup {A} i k k' (l : list A) x :
  shift i k = Some k' → l !! k = Some x → delete i l !! k' = Some x.
Proof.
  unfold shift. destruct (decide (i = k)); [done|]. intros [= <-] Hk. case_decide.
  - rewrite list_lookup_delete_ge by lia. by replace (Datatypes.S (pred k)) with k by lia.
  - by rewrite list_lookup_delete_lt by lia.
Qed.

(** *** The dying thread *)

(** What the thread has done for its line so far. *)
Definition progress (line : text) (p : process) : Prop :=
  let s := lg p in
  match at_point p with
  | FCall => owner s = OIdle
  | FCheck => owner s = OIdle ∧ terminating_ s = false ∧ checking s !! mine p = Some line
  | FAppend => owner s = OIdle ∧ terminating_ s = false ∧ started_ s = true ∧
      pending s !! mine p = Some line
  | FStop => owner s = OIdle ∧
      (line ∈ stderr_ s ∨ line ∈ appended s ∧ started_ s = true ∧ terminating_ s = false)
  | FNotify => owner s = ONotify true ∧ started_ s = true ∧ running_ s = false ∧
      (line ∈ stderr_ s ∨ line ∈ at_stop s ∧ is_Some (thread_ s))
  | FJoin => owner s = OJoin true ∧ started_ s = true ∧ running_ s = false ∧
      (line ∈ stderr_ s ∨ line ∈ at_stop s ∧ is_Some (thread_ s))
  | FAborted => survives line s
  end.
Definition pinv (line : text) (p : process) : Prop :=
  reachable new_sink (lg p) ∧ progress line p.

Lemma elem_of_prefix {A} (x : A) (l1 l2 : list A) : l1 `prefix_of` l2 → x ∈ l1 → x ∈ l2.
Proof. intros [l ->] Hx. apply elem_of_app. by left. Qed.

Lemma logger_reachable_exec e s s' : reachable new_sink s → exec new_sink e s = Some s' → reachable new_sink s'.
Proof. intros Hr Hex. eapply rtc_r; [done|]. by exists e. Qed.

Lemma other_shape e p p' :
  other_step e p = Some p' →
  harmless e = true ∧ exec new_sink e (lg p) = Some (lg p') ∧ at_point p' = at_point p ∧
  at_point p ≠ FAborted ∧
  match e, at_point p with
  | EvCheck i, FCheck | EvAppend i, FAppend => shift i (mine p) = Some (mine p')
  | _, _ => mine p' = mine p
  end.
Proof.
  unfold other_step. intros (s' & Hex & Hstep)%bind_Some.
  destruct e, (at_point p); try done; try (by injection Hstep as <-);
    apply bind_Some in Hstep as (k & ? & [= <-]); done.
Qed.

Lemma other_pinv line e p p' : pinv line p → other_step e p = Some p' → pinv line p'.
Proof.
  intros [Hr Hp] Hstep. destruct (other_shape e p p' Hstep) as (Hh & Hex & Hat & Hna & Hmine).
  split; [by eapply logger_reachable_exec|].
  destruct (kept_exec _ _ _ Hh Hex) as [Ho Hte Has Her Hap Hst _ Hth].
  pose proof (queues_exec _ _ _ Hh Hex) as Hq. unfold progress in *. rewrite Hat.
  destruct (at_point p) eqn:Hf; rewrite ?Ho, ?Hte, ?Has.
  - done.
  - destruct Hp as (? & ? & Hl). split_and!; [done..|]. destruct e; try done; rewrite ?Hmine;
      try (destruct Hq as [Hq _]); rewrite ?Hq; try done; try (by eapply prefix_lookup_Some).
    by eapply shift_lookup.
  - destruct Hp as (? & ? & Hs & Hl). destruct (Hst Hs). split_and!; [done..|].
    destruct e; try done; rewrite ?Hmine; destruct Hq as [Hq1 Hq2]; rewrite ?Hq2; try done;
      [by eapply prefix_lookup_Some|by eapply shift_lookup].
  - destruct Hp as (? & [?|(? & Hs & ?)]); (split; [done|]); [left; by eapply elem_of_prefix|].
    right. destruct (Hst Hs). split_and!; [by eapply elem_of_prefix|done..].
  - destruct Hp as (? & Hs & Hrun & Hl). destruct (Hst Hs) as [? ->]. split_and!; [done..|].
    destruct Hl as [?|[? ?]]; [left; by eapply elem_of_prefix|right; auto].
  - destruct Hp as (? & Hs & Hrun & Hl). destruct (Hst Hs) as [? ->]. split_and!; [done..|].
    destruct Hl as [?|[? ?]]; [left; by eapply elem_of_prefix|right; auto].
  - done.
Qed.

Lemma exec_alive e s s' : exec new_sink e s = Some s' → crashed s = false.
Proof. unfold exec. by destruct (crashed s). Qed.

Lemma line_in_text (line : text) (ls : list text) :
  line ∈ ls → ∃ a b, mjoin ls = a ++ line ++ b.
Proof.
  intros (l1 & l2 & ->)%list_elem_of_split. exists (mjoin l1), (mjoin l2).
  rewrite join_app. by cbn.
Qed.

Lemma join_survives line s s' :
  reachable new_sink s → exec new_sink EvJoined s = Some s' →
  line ∈ stderr_ s ∨ line ∈ at_stop s ∧ is_Some (thread_ s) → survives line s'.
Proof.
  intros Hr Hex Hl. assert (Hj : ∃ c, s' = joined c s).
  { unfold exec in Hex. destruct (crashed s); [done|]. destruct (owner s) as [| | |c]; try done.
    exists c. destruct (thread_ s) as [t|]; [destruct (pt t)|]; by simplify_eq. }
  destruct Hl as [Hl|[Hl Hth]]; [left; destruct Hj as [c ->]; done|]. right. intros Hd Hlost.
  destruct (stop_flushes new_sink new_sink_ok new_sink_text s s' Hr Hth Hex Hd Hlost) as [rest Hrest].
  assert (Hat : at_stop s' = at_stop s) by (by destruct Hj as [c ->]).
  rewrite Hat in Hrest. destruct (line_in_text _ _ Hl) as (a & b & Hab). rewrite Hab in Hrest.
  exists a, (b ++ rest). by rewrite Hrest, <-!app_assoc.
Qed.

(** While nobody stops it, a started logger has its buffer. *)
Lemma current_there s :
  reachable new_sink s → crashed s = false → started_ s = true → terminating_ s = false →
  owner s = OIdle → is_Some (current_ s) ∧ is_Some (thread_ s).
Proof.
  intros Hr Hcr Hs Hte Ho.
  destruct (logger_reachable_inv new_sink new_sink_ok new_sink_text s Hr) as [[Hinv _]|[? _]]; [|congruence].
  destruct (z_thread _ (reachable_sane _ Hr) Hs) as [[t Ht]|?]; [|congruence].
  destruct (running_or_none s Hinv) as [Hrun|?]; [rewrite Ho; by intros []| |congruence].
  split; [|by exists t]. apply current_present; [done|]. unfold over. rewrite Ht.
  pose proof (i_thread _ Hinv t Ht) as Hok. unfold thread_ok in Hok.
  destruct (pt t); try (by intros []); destruct Hok as [_ ?]; congruence.
Qed.

Lemma append_at_lands i line s :
  is_Some (current_ s) →
  line ∈ appended (append_at i line s) ∧ crashed (append_at i line s) = crashed s ∧
  owner (append_at i line s) = owner s.
Proof.
  intros [c Hc]. unfold append_at, append. cbn [current_ set_calls]. rewrite Hc.
  assert (Hin : line ∈ appended s ++ [line]) by (apply elem_of_app; right; by left).
  cbn [next_ set_calls]. by destruct (zlen line <? avail c); [|destruct (next_ s)].
Qed.

Lemma own_pinv line p p' : pinv line p → own_step line p = Some p' → pinv line p'.
Proof.
  intros [Hr Hp] Hstep. unfold own_step, progress in *.
  destruct (at_point p) eqn:Hf; try done; apply bind_Some in Hstep as (s' & Hex & [= <-]);
    (split; [by eapply logger_reachable_exec|]); cbn [progress at_point lg mine];
    pose proof (exec_alive _ _ _ Hex) as Hcr; pose proof Hex as Hex0;
    unfold exec in Hex; rewrite Hcr in Hex; unfold progress; cbn [at_point lg mine].
  - destruct (_ <=? _); [|done]. injection Hex as <-.
    unfold call. destruct (terminating_ (lg p)) eqn:Hter; cbn.
    + split; [done|]. left. set_solver.
    + split_and!; [done..|]. rewrite lookup_app_r by done. by rewrite Nat.sub_diag.
  - destruct Hp as (Ho & Hte & Hl). rewrite Hl in Hex. injection Hex as <-.
    unfold check_started. destruct (started_ (lg p)) eqn:Hs; cbn.
    + split_and!; [done..|]. rewrite lookup_app_r by done. by rewrite Nat.sub_diag.
    + split; [done|]. left. set_solver.
  - destruct Hp as (Ho & Hte & Hs & Hl).
    destruct (kept_exec (EvAppend (mine p)) _ _ eq_refl Hex0) as [Ho' Hte' _ _ _ Hst _ _].
    destruct (Hst Hs) as [Hs' _]. split; [congruence|]. right. split_and!; [|done|congruence].
    rewrite Hl in Hex. injection Hex as <-. apply append_at_lands. by apply current_there.
  - destruct Hp as (Ho & Hl). rewrite Ho in Hex. injection Hex as <-. unfold flush_and_stop.
    destruct (started_ (lg p)) eqn:Hs; cbn.
    + split_and!; [done..|]. destruct Hl as [?|(? & _ & Hte)]; [by left|]. right. split; [done|].
      by apply current_there.
    + left. by destruct Hl as [?|(_ & ? & _)].
  - destruct Hp as (Ho & Hs & Hrun & Hl). rewrite Ho in Hex. by injection Hex as <-.
  - destruct Hp as (Ho & Hs & Hrun & Hl). by eapply join_survives.
Qed.

Lemma process_exec_inv line e p p' : pinv line p → process_exec line e p = Some p' → pinv line p'.
Proof. destruct e; [apply own_pinv|apply other_pinv]. Qed.

Lemma process_run_inv line es p p' : pinv line p → process_run line es p = Some p' → pinv line p'.
Proof.
  revert p. induction es as [|e es IH]; intros p Hp; cbn; [by intros [= <-]|].
  intros (p1 & He & Hrun)%bind_Some. eapply IH; [|done]. by eapply process_exec_inv.
Qed.

Lemma process_run_app line es1 es2 p p1 :
  process_run line es1 p = Some p1 → process_run line (es1 ++ es2) p = process_run line es2 p1.
Proof.
  revert p. induction es1 as [|e es IH]; intros p; cbn; [by intros [= <-]|].
  intros (p2 & -> & Hrun)%bind_Some. cbn. by apply IH.
Qed.

(** *** The process does die *)

Definition steps_left (f : fpoint) : nat :=
  match f with
  | FCall => 5 | FCheck => 4 | FAppend => 3 | FStop => 2 | FNotify => 1 | FJoin | FAborted => 0
  end.

Lemma own_step_enabled line p :
  pinv line p → crashed (lg p) = false → zlen line ≤ 4000 →
  at_point p ≠ FJoin → at_point p ≠ FAborted →
  ∃ p', own_step line p = Some p' ∧ crashed (lg p') = false ∧
    (steps_left (at_point p') < steps_left (at_point p))%nat.
Proof.
  intros [Hr Hp] Hcr Hlen HJ HA. unfold own_step, progress in *.
  destruct (at_point p) eqn:Hf; try done; unfold exec; rewrite Hcr.
  - rewrite (proj2 (Z.leb_le _ _) Hlen). eexists. split; [done|]. cbn. unfold call.
    destruct (terminating_ (lg p)); cbn; split; (done || lia).
  - destruct Hp as (Ho & Hte & Hl). rewrite Hl. eexists. split; [done|]. cbn. unfold check_started.
    destruct (started_ (lg p)); cbn; split; (done || lia).
  - destruct Hp as (Ho & Hte & Hs & Hl). rewrite Hl. eexists. split; [done|]. cbn.
    destruct (append_at_lands (mine p) line (lg p)) as (_ & -> & _); [by apply current_there|].
    split; [done|lia].
  - destruct Hp as (Ho & _). rewrite Ho. eexists. split; [done|]. cbn. unfold flush_and_stop.
    destruct (started_ (lg p)); cbn; split; (done || lia).
  - destruct Hp as (Ho & _). rewrite Ho. eexists. split; [done|]. cbn. split; [done|lia].
Qed.

Lemma backend_of_process line n p s' :
  run new_sink (replicate n EvBackend) (lg p) = Some s' → at_point p = FJoin →
  process_run line (replicate n (FOther EvBackend)) p = Some (mkProcess FJoin (mine p) s').
Proof.
  revert p. induction n as [|n IH]; intros p; cbn.
  { intros [= <-] Hf. destruct p. cbn in *. by rewrite Hf. }
  intros (s1 & Hex & Hrun)%bind_Some Hf. unfold other_step. rewrite Hex, Hf. cbn.
  by rewrite (IH (mkProcess FJoin (mine p) s1) Hrun).
Qed.

Lemma backend_keeps_inv n s s' :
  inv s → run new_sink (replicate n EvBackend) s = Some s' → inv s'.
Proof.
  revert s. induction n as [|n IH]; intros s Hs; cbn; [by intros [= <-]|].
  intros (s1 & Hex & Hrun)%bind_Some. eapply IH; [|done].
  destruct (step_inv new_sink new_sink_ok _ _ _ Hs Hex) as [?|(_ & [i ?] & _)]; done.
Qed.

Lemma join_returns line p :
  pinv line p → crashed (lg p) = false → at_point p = FJoin →
  ∃ es p', process_run line es p = Some p' ∧ at_point p' = FAborted.
Proof.
  intros Hpi Hcr Hf. pose proof Hpi as [Hr Hp]. unfold progress in Hp. rewrite Hf in Hp.
  destruct Hp as (Ho & Hs & Hrun & _).
  destruct (logger_reachable_inv new_sink new_sink_ok new_sink_text _ Hr) as [[Hinv _]|[? _]]; [|congruence].
  destruct (thread_ (lg p)) as [t|] eqn:Ht.
  2:{ exists [FOwn]. cbn. unfold own_step. rewrite Hf. unfold exec. rewrite Hcr, Ho, Ht. by eexists. }
  destruct (backend_ends new_sink new_sink_ok 6 t (lg p)) as (n & t' & s' & _ & Hback & Ht' & Hd);
    [done..|destruct (pt t); cbn; lia|].
  pose proof (backend_of_process line n p s' Hback Hf) as Hpr.
  destruct (process_run_inv line _ _ _ Hpi Hpr) as [_ (Ho' & _)].
  change (owner s' = OJoin true) in Ho'.
  pose proof (i_crashed _ (backend_keeps_inv n _ _ Hinv Hback)) as Hcr'.
  exists (replicate n (FOther EvBackend) ++ [FOwn]), (mkProcess FAborted 0 (joined true s')).
  split; [|done]. rewrite (process_run_app _ _ _ _ _ Hpr). cbn. unfold own_step. cbn [at_point lg].
  unfold exec. by rewrite Hcr', Ho', Ht', Hd.
Qed.

Lemma process_aborts n : ∀ line p,
  (steps_left (at_point p) ≤ n)%nat → pinv line p → crashed (lg p) = false → zlen line ≤ 4000 →
  ∃ es p', process_run line es p = Some p' ∧ at_point p' = FAborted.
Proof.
  induction n as [|n IH]; intros line p Hn Hp Hcr Hlen;
    (assert (at_point p = FAborted ∨ at_point p = FJoin ∨ (at_point p ≠ FAborted ∧ at_point p ≠ FJoin))
       as [Hf|[Hf|[HA HJ]]] by (destruct (at_point p); auto); [by exists [], p|by apply join_returns|]).
  - destruct (at_point p); cbn in Hn; done || lia.
  - destruct (own_step_enabled line p Hp Hcr Hlen HJ HA) as (p1 & Hstep & Hcr1 & Hlt).
    destruct (IH line p1) as (es & p' & Hrun & Hend); [lia|by eapply own_pinv|done|done|].
    exists (FOwn :: es), p'. split; [|done]. cbn. by rewrite Hstep.
Qed.

(** ** Properties *)

End fatal.

(** ** Witnesses *)

#[local] Existing Instance AsyncLogger.Demo.sink.

Module Demo.
(** The logger writes to the log file and has a line in its buffer. *)
Definition s0 : @logger LogFile :=
  default new_logger (run AsyncLogger.Demo.new_sink
    [EvInit; EvCall (lit "hello"); EvCheck 0; EvAppend 0] new_logger).
Lemma s0_reachable : reachable AsyncLogger.Demo.new_sink s0.
Proof.
  apply (AsyncLogger.Demo.logger_run_reachable [EvInit; EvCall (lit "hello"); EvCheck 0; EvAppend 0]).
  vm_compute. reflexivity.
Qed.
Definition format_g (v : Z) : text := lit "1.5".
End Demo.

