(* ===== verification/Task.v ===== *)
(** * Task: coroutines, their frames and symmetric transfer

    Models [include/coro_net/task.hpp], [include/coro_net/fire_and_forget.hpp]
    with [src/coroutine/fire_and_forget.cc], and [Scheduler::spawn] of
    [src/scheduler/scheduler.cc].

    A coroutine body is a transition system: [next] tells what it does from a
    local state.  Section [machine] runs bodies the way the promise types and
    awaiters do: frames on a heap, each with its [result_] and [continuation_],
    control jumping from a finished coroutine to the one that awaits it.  A running
    coroutine may spawn another, which starts at once: control comes back to it when
    the other first waits or ends.  Section [calls] is the abstract specification, in
    which awaiting a task is calling a function and frames are a call stack;
    [coroutines_are_calls] shows the two equivalent, for any promise type with the laws
    of [Promise], which [TaskPromise<T>] and [TaskPromise<void>] have.  Section [ownership] is the [Task] object: which frame each object
    owns under moves, [release] and destruction. *)
From S2P Require Import Prelude.

(** ** Promises *)

(** What a promise type keeps of the end of a coroutine: the state before it, the state
    [return_value] and [unhandled_exception] leave, and what [Task::await_resume] makes
    of a state ([None]: there is no value to take). *)
Class Promise (V X R : Type) := {
  no_result : R;
  return_value : V → R;
  unhandled_exception : X → R;
  take_result : R → option (V + X);
  take_value v : take_result (return_value v) = Some (inl v);
  take_exception x : take_result (unhandled_exception x) = Some (inr x);
}.

(** [TaskPromise<T>]: [result_] is monostate, value or exception. *)
Inductive variant {V X : Type} : Type :=
  | Monostate
  | Value (v : V)
  | Exception (x : X).
Arguments variant : clear implicits.

(** [Task<T>::await_resume]: [std::get<1>] of a variant with no value throws. *)
Definition take_variant {V X} (result_ : variant V X) : option (V + X) :=
  match result_ with
  | Exception x => Some (inr x)
  | Value v => Some (inl v)
  | Monostate => None
  end.

#[export] Instance task_promise V X : Promise V X (variant V X) := {
  no_result := Monostate;
  return_value := Value;
  unhandled_exception := Exception;
  take_result := take_variant;
  take_value v := eq_refl;
  take_exception x := eq_refl;
}.

(** [TaskPromise<void>]: [exception_], null until an exception leaves; [return_void]
    does nothing. *)
Definition return_void {X} (exception_ : option X) : option X := exception_.
(** [Task<void>::await_resume]. *)
Definition take_exception_ {X} (exception_ : option X) : option (unit + X) :=
  match exception_ with Some x => Some (inr x) | None => Some (inl tt) end.

#[export] Instance void_promise X : Promise unit X (option X) := {
  no_result := None;
  return_value _ := return_void None;
  unhandled_exception := Some;
  take_result := take_exception_;
  take_value v := match v with tt => eq_refl end;
  take_exception x := eq_refl;
}.

Section task.
(** Local states of bodies, values and exceptions, and the operations awaited; the
    promise type. *)
Context {L V X Op R : Type} `{!Promise V X R}.

(** What a body does next. *)
Inductive action : Type :=
  | CoReturn (v : V)
  | Uncaught (x : X)
  | AwaitTask (l : L) (k : V + X → L)   (* [co_await f()]; [k] gets the value or the exception *)
  | DropTask (l l' : L)                 (* calls [f] and discards the [Task] *)
  | Spawn (l l' : L)                    (* [scheduler.spawn(f())] *)
  | AwaitIo (op : Op) (k : Z → L)
  | CallOut (op : Op) (l : L).          (* calls what is not a coroutine *)

Context (next : L → action).

(** ** The machine of the source *)

(** Where a frame is suspended. *)
Inductive suspension : Type :=
  | Initial (l : L)
  | Running
  | OnTask (t : nat) (k : V + X → L)
  | OnIo (op : Op) (k : Z → L)
  | Final.

(** A coroutine of type [Task], or a [spawn_shim] at its [co_await] of [t]. *)
Inductive frame : Type :=
  | TaskFrame (st : suspension) (result_ : R) (continuation_ : option nat)
  | ShimFrame (t : nat).

Inductive mode : Type :=
  | Loop                    (* control is in the event loop *)
  | Exec (id : nat) (l : L)
  | Aborted                 (* an exception left a [FireAndForget] *)
  | Stuck.                  (* a dead frame, or a result that is not there *)

Record machine := mkMachine {
  frames : gmap nat frame;
  control : mode;
  spawners : list (nat * L); (* who is inside a call of [spawn], innermost first,
                                and what it does when the call returns *)
  pending : list nat;       (* the coroutines in [handle_] of an operation *)
  ops : list Op;            (* history: the operations started *)
  done_ : list (Op * Z);    (* history: those completed with their results, and the
                               calls out *)
}.

Definition empty_machine : machine := mkMachine ∅ Loop [] [] [] [].

Definition jump (c : mode) (m : machine) : machine :=
  mkMachine (frames m) c (spawners m) (pending m) (ops m) (done_ m).
Definition set_frames (h : gmap nat frame) (m : machine) : machine :=
  mkMachine h (control m) (spawners m) (pending m) (ops m) (done_ m).
Definition store_frame (id : nat) (f : frame) (m : machine) : machine :=
  set_frames (<[id := f]> (frames m)) m.

(** Nothing is left to jump to: the [resume] or the call of [spawn_shim] that gave
    control returns, to a coroutine that spawns or to the event loop. *)
Definition resume_returns (m : machine) : machine :=
  match spawners m with
  | [] => jump Loop m
  | (id, l) :: sp => mkMachine (frames m) (Exec id l) sp (pending m) (ops m) (done_ m)
  end.

(** Calling a coroutine function: [get_return_object] and the initial suspension. *)
Definition call_coroutine (l : L) (m : machine) : nat * machine :=
  let id := fresh (dom (frames m)) in
  (id, store_frame id (TaskFrame (Initial l) no_result None) m).

Definition record (op : Op) (r : Z) (m : machine) : machine :=
  mkMachine (frames m) (control m) (spawners m) (pending m) (ops m) (done_ m ++ [(op, r)]).

(** [handle_.destroy()]: of a suspended coroutine only. *)
Definition destroy_frame (id : nat) (m : machine) : machine :=
  match frames m !! id with
  | Some (TaskFrame Running _ _) | None => jump Stuck m
  | Some _ => set_frames (delete id (frames m)) m
  end.

(** [Task::await_ready]: of a task without a handle, or one that is done. *)
Definition await_ready (h : option nat) (m : machine) : bool :=
  match h with
  | None => true
  | Some t => match frames m !! t with Some (TaskFrame Final _ _) => true | _ => false end
  end.

(** [Task::await_suspend]: store the caller, jump into the task. *)
Definition await_suspend (t caller : nat) (m : machine) : machine :=
  match frames m !! t with
  | Some (TaskFrame (Initial l) r _) =>
      jump (Exec t l) (store_frame t (TaskFrame Running r (Some caller)) m)
  | _ => jump Stuck m
  end.

(** [Task::await_resume]: the value, or the exception it rethrows; without a handle it
    dereferences null. *)
Definition await_resume (h : option nat) (m : machine) : option (V + X) :=
  t ← h;
  match frames m !! t with Some (TaskFrame _ r _) => take_result r | _ => None end.

(** A jump to a coroutine that awaits a task.  The awaited [Task] is a temporary
    of a [co_await] and a parameter of [spawn_shim]; it is destroyed with it. *)
Definition resume_awaiting (c : nat) (m : machine) : machine :=
  match frames m !! c with
  | Some (TaskFrame (OnTask t k) r cont) =>
      match await_resume (Some t) m with
      | Some res =>
          jump (Exec c (k res)) (store_frame c (TaskFrame Running r cont) (destroy_frame t m))
      | None => jump Stuck m
      end
  | Some (ShimFrame t) =>
      match await_resume (Some t) m with
      | Some (inl _) =>
          resume_returns
            (set_frames (delete c (frames (destroy_frame t m))) (destroy_frame t m))
      | Some (inr _) => jump Aborted m
      | None => jump Stuck m
      end
  | _ => jump Stuck m
  end.

(** [return_value] or [unhandled_exception], then [FinalAwaiter::await_suspend]:
    jump to the continuation, [noop_coroutine] when nobody awaits. *)
Definition finish (id : nat) (res : R) (m : machine) : machine :=
  match frames m !! id with
  | Some (TaskFrame _ _ cont) =>
      let m := store_frame id (TaskFrame Final res cont) m in
      match cont with
      | Some c => resume_awaiting c m
      | None => resume_returns m
      end
  | _ => jump Stuck m
  end.

(** [co_await] of a task held in a frame that will be [f] meanwhile. *)
Definition co_await_task (id t : nat) (f : frame) (m : machine) : machine :=
  await_suspend t id (store_frame id f m).

(** [Scheduler::spawn]: [spawn_shim] starts at once and awaits the task. *)
Definition spawn (l : L) (m : machine) : machine :=
  let '(t, m) := call_coroutine l m in
  let shim := fresh (dom (frames m)) in
  co_await_task shim t (ShimFrame t) m.

Definition step (m : machine) : option machine :=
  match control m with
  | Exec id l =>
      Some match frames m !! id with
      | Some (TaskFrame _ r cont) =>
          match next l with
          | CoReturn v => finish id (return_value v) m
          | Uncaught x => finish id (unhandled_exception x) m
          | AwaitTask l' k =>
              let '(t, m) := call_coroutine l' m in
              if await_ready (Some t) m then
                match await_resume (Some t) m with
                | Some res => jump (Exec id (k res)) (destroy_frame t m)
                | None => jump Stuck m
                end
              else co_await_task id t (TaskFrame (OnTask t k) r cont) m
          | DropTask l1 l2 =>
              let '(t, m) := call_coroutine l1 m in
              jump (Exec id l2) (destroy_frame t m)
          | Spawn l1 l2 =>
              spawn l1 (mkMachine (frames m) (control m) ((id, l2) :: spawners m)
                (pending m) (ops m) (done_ m))
          | AwaitIo op k =>
              let m := store_frame id (TaskFrame (OnIo op k) r cont) m in
              resume_returns
                (mkMachine (frames m) (control m) (spawners m) (pending m ++ [id])
                  (ops m ++ [op]) (done_ m))
          | CallOut op l' => jump (Exec id l') (record op 0 m)
          end
      | _ => jump Stuck m
      end
  | _ => None
  end.

(** The loop resumes the coroutine of a completed operation. *)
Definition complete (i : nat) (r : Z) (m : machine) : option machine :=
  id ← pending m !! i;
  let m := mkMachine (frames m) (control m) (spawners m) (delete i (pending m)) (ops m) (done_ m) in
  Some match frames m !! id with
  | Some (TaskFrame (OnIo op k) v cont) =>
      jump (Exec id (k r)) (record op r (store_frame id (TaskFrame Running v cont) m))
  | _ => jump Stuck m
  end.

Inductive event : Type :=
  | EvStep
  | EvSpawn (l : L)
  | EvComplete (i : nat) (r : Z).

Definition exec (e : event) (m : machine) : option machine :=
  match e, control m with
  | EvStep, _ => step m
  | EvSpawn l, Loop => Some (spawn l m)
  | EvComplete i r, Loop => complete i r m
  | _, _ => None
  end.

Fixpoint run (es : list event) (m : machine) : option machine :=
  match es with
  | [] => Some m
  | e :: es => m ← exec e m; run es m
  end.

(** ** The specification: awaiting is calling, spawning runs to the first wait *)

Abbreviation callers := (list (V + X → L)) (only parsing).

Inductive call_mode : Type :=
  | CLoop
  | CExec (l : L) (st : callers)
  | CAborted.

Record calls := mkCalls {
  c_control : call_mode;
  c_spawners : list (L * callers);
  c_waiting : list ((Op * (Z → L)) * callers);
  c_ops : list Op;
  c_done : list (Op * Z);
}.

Definition no_calls : calls := mkCalls CLoop [] [] [] [].

Definition c_jump (c : call_mode) (s : calls) : calls :=
  mkCalls c (c_spawners s) (c_waiting s) (c_ops s) (c_done s).
Definition c_record (op : Op) (r : Z) (s : calls) : calls :=
  mkCalls (c_control s) (c_spawners s) (c_waiting s) (c_ops s) (c_done s ++ [(op, r)]).
Definition c_returns (s : calls) : calls :=
  match c_spawners s with
  | [] => c_jump CLoop s
  | (l, st) :: sp => mkCalls (CExec l st) sp (c_waiting s) (c_ops s) (c_done s)
  end.

Definition c_step (s : calls) : option calls :=
  match c_control s with
  | CExec l st =>
      Some match next l, st with
      | CoReturn _, [] => c_returns s
      | CoReturn v, k :: st => c_jump (CExec (k (inl v)) st) s
      | Uncaught _, [] => c_jump CAborted s
      | Uncaught x, k :: st => c_jump (CExec (k (inr x)) st) s
      | AwaitTask l k, _ => c_jump (CExec l (k :: st)) s
      | DropTask _ l, _ => c_jump (CExec l st) s
      | Spawn l1 l2, _ =>
          mkCalls (CExec l1 []) ((l2, st) :: c_spawners s) (c_waiting s) (c_ops s) (c_done s)
      | AwaitIo op k, _ =>
          c_returns
            (mkCalls (c_control s) (c_spawners s) (c_waiting s ++ [(op, k, st)]) (c_ops s ++ [op])
              (c_done s))
      | CallOut op l', _ => c_jump (CExec l' st) (c_record op 0 s)
      end
  | _ => None
  end.

Definition c_complete (i : nat) (r : Z) (s : calls) : option calls :=
  '(op, k, st) ← c_waiting s !! i;
  Some (mkCalls (CExec (k r) st) (c_spawners s) (delete i (c_waiting s)) (c_ops s)
    (c_done s ++ [(op, r)])).

Definition c_exec (e : event) (s : calls) : option calls :=
  match e, c_control s with
  | EvStep, _ => c_step s
  | EvSpawn l, CLoop => Some (c_jump (CExec l []) s)
  | EvComplete i r, CLoop => c_complete i r s
  | _, _ => None
  end.

Fixpoint c_run (es : list event) (s : calls) : option calls :=
  match es with
  | [] => Some s
  | e :: es => s ← c_exec e s; c_run es s
  end.
End task.

(** ** Task objects *)

Section ownership.
(** The [handle_] of every [Task] object alive, the frames not destroyed, the
    handles given up by [release], and whether a dead frame was destroyed. *)
Record tasks := mkTasks {
  handle_ : gmap nat (option nat);
  live : gset nat;
  released : list nat;
  double_free : bool;
}.
Definition no_tasks : tasks := mkTasks ∅ ∅ [] false.

(** [if (handle_) handle_.destroy()]. *)
Definition destroy_handle (h : option nat) (s : tasks) : tasks :=
  match h with
  | None => s
  | Some f =>
      if decide (f ∈ live s)
      then mkTasks (handle_ s) (live s ∖ {[f]}) (released s) (double_free s)
      else mkTasks (handle_ s) (live s) (released s) true
  end.
Definition set_handle (x : nat) (h : option nat) (s : tasks) : tasks :=
  mkTasks (<[x := h]> (handle_ s)) (live s) (released s) (double_free s).

(** What a program does with [Task] objects; a new object needs a name of its
    own, the others must exist. *)
Inductive task_op : Type :=
  | TCall (x : nat)            (* [Task x = f()] *)
  | TMove (x y : nat)          (* [Task x(std::move(y))] *)
  | TAssign (x y : nat)        (* [x = std::move(y)] *)
  | TRelease (x : nat)
  | TDestroy (x : nat).        (* the end of the object's life *)

Definition task_exec (o : task_op) (s : tasks) : option tasks :=
  match o with
  | TCall x =>
      if decide (handle_ s !! x = None) then
        let f := fresh (live s) in
        Some (set_handle x (Some f)
          (mkTasks (handle_ s) ({[f]} ∪ live s) (released s) (double_free s)))
      else None
  | TMove x y =>
      h ← handle_ s !! y;
      if decide (handle_ s !! x = None) then Some (set_handle x h (set_handle y None s)) else None
  | TAssign x y =>
      hx ← handle_ s !! x; hy ← handle_ s !! y;
      if decide (x = y) then Some s else
      Some (set_handle x hy (set_handle y None (destroy_handle hx s)))
  | TRelease x =>
      h ← handle_ s !! x;
      Some (mkTasks (<[x := None]> (handle_ s)) (live s)
              (released s ++ match h with Some f => [f] | None => [] end) (double_free s))
  | TDestroy x =>
      h ← handle_ s !! x;
      let s := destroy_handle h s in
      Some (mkTasks (delete x (handle_ s)) (live s) (released s) (double_free s))
  end.

Fixpoint task_run (os : list task_op) (s : tasks) : option tasks :=
  match os with
  | [] => Some s
  | o :: os => s ← task_exec o s; task_run os s
  end.
End ownership.

Arguments action : clear implicits.
Arguments machine : clear implicits.
Arguments calls : clear implicits.
Arguments event : clear implicits.

(** ** Frames of a call stack *)

Section simulation.
Context {L V X Op R : Type} `{!Promise V X R} (next : L → action L V X Op).
Implicit Types m : machine L V X Op R.
Implicit Types s : calls L V X Op.

(** The coroutines that wait, from the innermost: identifier and resumption. *)
Abbreviation stack := (list (nat * (V + X → L))) (only parsing).
Abbreviation entries := (list (nat * @frame L V X Op R)) (only parsing).

Definition parent (st : stack) (shim : nat) : nat :=
  match st with [] => shim | (i, _) :: _ => i end.

(** The frames above a coroutine, down to the [spawn_shim] at the bottom. *)
Fixpoint upper (child : nat) (st : stack) (shim : nat) : entries :=
  match st with
  | [] => [(shim, ShimFrame child)]
  | (i, k) :: st =>
      (i, TaskFrame (OnTask child k) no_result (Some (parent st shim))) :: upper i st shim
  end.

Definition chain (id : nat) (sus : suspension) (st : stack) (shim : nat) : entries :=
  (id, TaskFrame sus no_result (Some (parent st shim))) :: upper id st shim.

(** A spawned coroutine whose innermost frame awaits an operation. *)
Record thread := mkThread { leaf : nat; io : Op * (Z → L); callers_ : stack; shim_ : nat }.
Definition waiting_frames (th : thread) : entries :=
  chain (leaf th) (OnIo (io th).1 (io th).2) (callers_ th) (shim_ th).
Definition waiting_call (th : thread) : (Op * (Z → L)) * list (V + X → L) :=
  (io th, (callers_ th).*2).

(** A coroutine inside a call of [spawn]. *)
Record spawner := mkSpawner { sp_id : nat; sp_next : L; sp_callers : stack; sp_shim : nat }.
Definition spawner_frames (o : spawner) : entries :=
  chain (sp_id o) Running (sp_callers o) (sp_shim o).
Definition spawner_call (o : spawner) : L * list (V + X → L) := (sp_next o, (sp_callers o).*2).

(** The heap is made of whole call stacks: the running one, if any, those that spawned
    it, and those that wait for the kernel. *)
Definition others (out : list spawner) (ths : list thread) : entries :=
  (out ≫= spawner_frames) ++ (ths ≫= waiting_frames).
Definition heap_of (cur rest : entries) (h : gmap nat (@frame L V X Op R)) : Prop :=
  NoDup (cur ++ rest).*1 ∧ h = list_to_map (cur ++ rest).

Definition same_control m s (cur : entries) (out : list spawner) : Prop :=
  (control m = Loop ∧ c_control s = CLoop ∧ cur = [] ∧ out = []) ∨
  (∃ id l st shim, control m = Exec id l ∧ c_control s = CExec l st.*2 ∧
     cur = chain id Running st shim).

(** All but the control and the heap. *)
Definition same_lists m s (out : list spawner) (ths : list thread) : Prop :=
  ops m = c_ops s ∧ done_ m = c_done s ∧ spawners m = (λ o, (sp_id o, sp_next o)) <$> out ∧
  c_spawners s = spawner_call <$> out ∧
  pending m = leaf <$> ths ∧ c_waiting s = waiting_call <$> ths.

Definition related m s : Prop :=
  ∃ out ths, same_lists m s out ths ∧
  ((control m = Aborted ∧ c_control s = CAborted) ∨
   ∃ cur, same_control m s cur out ∧ heap_of cur (others out ths) (frames m)).

(** What a coroutine that ends leaves in its promise. *)
Definition result_of (r : V + X) : R :=
  match r with inl v => return_value v | inr x => unhandled_exception x end.
Lemma take_result_of r : take_result (result_of r) = Some r.
Proof. destruct r; [apply take_value|apply take_exception]. Qed.

(** *** Maps given by lists *)

Lemma store_entry (es1 es2 : entries) i f g :
  i ∉ es1.*1 →
  <[i := g]> (list_to_map (es1 ++ (i, f) :: es2) : gmap nat _) =
  list_to_map (es1 ++ (i, g) :: es2).
Proof.
  induction es1 as [|[j h] es1 IH]; intros Hi; cbn.
  - apply insert_insert_eq.
  - cbn in Hi. apply not_elem_of_cons in Hi as [? ?].
    rewrite insert_insert_ne by done. by rewrite IH.
Qed.

Lemma lookup_entry (es : entries) i f :
  NoDup es.*1 → (i, f) ∈ es → (list_to_map es : gmap nat _) !! i = Some f.
Proof. apply elem_of_list_to_map_1. Qed.

Lemma remove_entry (es : entries) i f :
  NoDup ((i, f) :: es).*1 →
  delete i (list_to_map ((i, f) :: es) : gmap nat _) = list_to_map es.
Proof.
  cbn. intros [Hi _]%NoDup_cons. apply delete_insert_id.
  by apply not_elem_of_list_to_map_1.
Qed.

Lemma fresh_entry (es : entries) : fresh (dom (list_to_map es : gmap nat (@frame L V X Op R))) ∉ es.*1.
Proof.
  intros Hin. apply (is_fresh (dom (list_to_map es : gmap nat (@frame L V X Op R)))).
  assert (Hdom : ∀ i, i ∈ es.*1 → i ∈ dom (list_to_map es : gmap nat (@frame L V X Op R))).
  { intros i. by rewrite dom_list_to_map_L, elem_of_list_to_set. }
  by apply Hdom.
Qed.

Lemma reorder_entries (es es' : entries) (h : gmap nat (@frame L V X Op R)) :
  NoDup es.*1 → h = list_to_map es → es ≡ₚ es' → NoDup es'.*1 ∧ h = list_to_map es'.
Proof.
  intros Hnd -> Hp. split; [by rewrite <-Hp|]. by apply list_to_map_proper.
Qed.

(** *** Steps of the machine on such a heap *)

Lemma frames_jump c m : frames (jump c m) = frames m.
Proof. done. Qed.

(** Control comes back to the coroutine, or the shim, that awaits [t]. *)
Lemma resume_awaiting_ok t st shim v r (rest : entries) m :
  v = result_of r →
  let es := (t, TaskFrame Final v (Some (parent st shim))) :: upper t st shim ++ rest in
  NoDup es.*1 → frames m = list_to_map es →
  resume_awaiting (parent st shim) m =
  match st with
  | [] =>
      match r with
      | inl _ => resume_returns (set_frames (list_to_map rest) m)
      | inr _ => jump Aborted m
      end
  | (i, k) :: st' =>
      jump (Exec i (k r)) (set_frames (list_to_map (chain i Running st' shim ++ rest)) m)
  end.
Proof.
  intros Hv es Hnd Hm.
  assert (Ht : frames m !! t = Some (TaskFrame Final v (Some (parent st shim)))).
  { rewrite Hm. apply lookup_entry; [done|by left]. }
  assert (Hres : await_resume (Some t) m = Some r).
  { unfold await_resume. cbn [mbind option_bind]. rewrite Ht, Hv. apply take_result_of. }
  assert (Hdes : destroy_frame t m = set_frames (list_to_map (upper t st shim ++ rest)) m).
  { unfold destroy_frame. rewrite Ht. unfold set_frames. rewrite Hm. unfold es.
    by rewrite remove_entry. }
  unfold resume_awaiting. destruct st as [|[i k] st'].
  - assert (Hs : frames m !! shim = Some (ShimFrame t)).
    { rewrite Hm. apply lookup_entry; [done|]. right. by left. }
    cbn [parent]. rewrite Hs, Hres. destruct r; [|done]. rewrite Hdes. f_equal.
    unfold set_frames. cbn [frames control spawners pending ops done_]. f_equal. apply remove_entry. by apply NoDup_cons in Hnd as [_ ?].
  - assert (Hi : frames m !! i = Some (TaskFrame (OnTask t k) no_result (Some (parent st' shim)))).
    { rewrite Hm. apply lookup_entry; [done|]. right. by left. }
    cbn [parent]. rewrite Hi, Hres, Hdes. unfold jump, store_frame, set_frames. cbn.
    f_equal. exact (store_entry [] _ i _ _ (not_elem_of_nil _)).
Qed.

Lemma finish_ok id st shim v r (rest : entries) m :
  v = result_of r →
  let es := chain id Running st shim ++ rest in
  NoDup es.*1 → frames m = list_to_map es →
  let es' := (id, TaskFrame Final v (Some (parent st shim))) :: upper id st shim ++ rest in
  finish id v m =
  match st with
  | [] =>
      match r with
      | inl _ => resume_returns (set_frames (list_to_map rest) m)
      | inr _ => jump Aborted (set_frames (list_to_map es') m)
      end
  | (i, k) :: st' =>
      jump (Exec i (k r)) (set_frames (list_to_map (chain i Running st' shim ++ rest)) m)
  end.
Proof.
  intros Hv es Hnd Hm es'. unfold finish.
  assert (Hid : frames m !! id = Some (TaskFrame Running no_result (Some (parent st shim)))).
  { rewrite Hm. apply lookup_entry; [done|by left]. }
  rewrite Hid. unfold store_frame. rewrite Hm.
  replace (<[id := TaskFrame Final v (Some (parent st shim))]> (list_to_map es))
    with (list_to_map es' : gmap nat (@frame L V X Op R))
    by (symmetry; exact (store_entry [] _ id _ _ (not_elem_of_nil _))).
  rewrite (resume_awaiting_ok id st shim v r rest (set_frames (list_to_map es') m)); try done.
Qed.

(** Awaiting a fresh task: the frame of the caller becomes [f], the task runs. *)
Lemma co_await_fresh t l id f g (es : entries) m :
  t ∉ ((id, g) :: es).*1 → NoDup ((id, g) :: es).*1 →
  frames m = list_to_map ((t, TaskFrame (Initial l) no_result None) :: (id, g) :: es) →
  co_await_task id t f m =
  jump (Exec t l)
    (set_frames (list_to_map ((t, TaskFrame Running no_result (Some id)) :: (id, f) :: es)) m).
Proof.
  intros Ht Hnd Hm. unfold co_await_task, store_frame. rewrite Hm.
  cbn in Ht. apply not_elem_of_cons in Ht as [Hne Ht].
  replace (<[id := f]> (list_to_map ((t, TaskFrame (Initial l) no_result None) :: (id, g) :: es)))
    with (list_to_map ((t, TaskFrame (Initial l) no_result None) :: (id, f) :: es)
          : gmap nat (@frame L V X Op R)).
  2: { symmetry. apply (store_entry [(t, _)]). intros Hin%list_elem_of_singleton. done. }
  unfold await_suspend. cbn [frames set_frames].
  rewrite (lookup_entry _ t (TaskFrame (Initial l) no_result None)); [|cbn|by left].
  - unfold jump, store_frame, set_frames. cbn. f_equal.
    apply insert_insert_eq.
  - apply NoDup_cons. split; [|done]. by apply not_elem_of_cons.
Qed.

(** *** The simulation *)

Lemma NoDup_pop (f g : @frame L V X Op R) id (i : nat) (es : entries) :
  NoDup ((id, f) :: (i, g) :: es).*1 → NoDup ((i, g) :: es).*1.
Proof. by intros [_ ?]%NoDup_cons. Qed.

Lemma related_returns m s out ths :
  same_lists m s out ths → heap_of [] (others out ths) (frames m) →
  related (resume_returns m) (c_returns s).
Proof.
  intros (Hops & Hdo & Hsp & Hcs & Hp & Hw) Hheap. unfold resume_returns, c_returns. rewrite Hsp, Hcs.
  destruct out as [|o out]; cbn [fmap list_fmap].
  - exists [], ths. split; [done|]. right. exists []. split; [by left|done].
  - exists out, ths. split; [done|]. right. exists (spawner_frames o). split.
    + right. by exists (sp_id o), (sp_next o), (sp_callers o), (sp_shim o).
    + revert Hheap. unfold others. rewrite bind_cons, <-app_assoc. done.
Qed.

(** A coroutine runs. *)
Lemma related_exec_mode id l st shim out ths m s :
  same_lists m s out ths → control m = Exec id l → c_control s = CExec l st.*2 →
  heap_of (chain id Running st shim) (others out ths) (frames m) → related m s.
Proof.
  intros Hl Hm Hs Hheap. exists out, ths. split; [done|]. right.
  exists (chain id Running st shim). split; [|done]. right. by exists id, l, st, shim.
Qed.

Lemma related_return id st shim out ths m s v r :
  v = result_of r →
  same_lists m s out ths → heap_of (chain id Running st shim) (others out ths) (frames m) →
  related (finish id v m)
    match st.*2 with
    | [] => match r with inl _ => c_returns s | inr _ => c_jump CAborted s end
    | k :: st => c_jump (CExec (k r) st) s
    end.
Proof.
  intros Hv Hl [Hnd Hm]. rewrite (finish_ok id st shim v r _ m Hv Hnd Hm).
  destruct st as [|[i k] st'].
  - assert (Hnd' : NoDup (others out ths).*1) by by apply NoDup_cons in Hnd as [_ [_ ?]%NoDup_cons].
    cbn [fmap list_fmap]. destruct r.
    + by eapply related_returns.
    + exists out, ths. split; [done|]. by left.
  - cbn [fmap list_fmap snd]. eapply related_exec_mode; [exact Hl|done..|].
    split; [|done]. exact (NoDup_pop _ _ _ _ _ Hnd).
Qed.

(** The heap once a coroutine is called and its [spawn_shim] awaits it. *)
Lemma spawn_frames l (es : entries) m :
  NoDup es.*1 → frames m = list_to_map es →
  ∃ t shim h, NoDup (chain t Running [] shim ++ es).*1 ∧
    h = list_to_map (chain t Running [] shim ++ es) ∧
    spawn l m = jump (Exec t l) (set_frames h m).
Proof.
  intros Hnd Hh. unfold spawn, call_coroutine. set (t := fresh (dom (frames m))).
  set (m1 := store_frame t _ m). set (shim := fresh (dom (frames m1))).
  assert (Ht : t ∉ es.*1) by (unfold t; rewrite Hh; apply fresh_entry).
  set (es1 := (t, TaskFrame (Initial l) no_result None) :: es).
  assert (Hm1 : frames m1 = list_to_map es1) by (cbn; by rewrite Hh).
  assert (Hnd1 : NoDup es1.*1) by by apply NoDup_cons.
  assert (Hshim : shim ∉ es1.*1) by (unfold shim; rewrite Hm1; apply fresh_entry).
  assert (Hne : t ≠ shim) by (intros Heq; apply Hshim; rewrite <-Heq; by left).
  assert (Hshim' : shim ∉ es.*1) by (intros ?; apply Hshim; by right).
  eexists t, shim, _. split; [|split; [reflexivity|]].
  - apply NoDup_cons; split; [|by apply NoDup_cons]; by apply not_elem_of_cons.
  - unfold co_await_task, await_suspend, store_frame. cbn [frames set_frames]. rewrite Hm1.
    rewrite lookup_insert_ne by done.
    rewrite (lookup_entry es1 t (TaskFrame (Initial l) no_result None)) by (done || by left).
    unfold jump, set_frames. cbn [frames control spawners pending ops done_ m1 store_frame set_frames].
    f_equal. unfold es1. cbn [list_to_map foldr uncurry fst snd chain upper app parent].
    rewrite (insert_insert_ne _ shim t) by done. by rewrite insert_insert_eq.
Qed.

(** A coroutine is called and awaited by the running one. *)
Lemma related_await id l l' k st shim out ths m s r cont :
  same_lists m s out ths → control m = Exec id l → c_control s = CExec l st.*2 →
  heap_of (chain id Running st shim) (others out ths) (frames m) →
  frames m !! id = Some (TaskFrame Running r cont) → r = no_result →
  cont = Some (parent st shim) →
  let '(t, m1) := call_coroutine l' m in
  await_ready (Some t) m1 = false ∧
  related (co_await_task id t (TaskFrame (OnTask t k) r cont) m1) (c_jump (CExec l' (k :: st.*2)) s).
Proof.
  intros Hl Hm Hs [Hnd Hh] Hid -> ->. unfold call_coroutine. set (t := fresh (dom (frames m))).
  assert (Ht : t ∉ (chain id Running st shim ++ others out ths).*1).
  { unfold t. rewrite Hh. apply fresh_entry. }
  unfold await_ready. cbn [frames store_frame set_frames]. rewrite lookup_insert_eq.
  split; [done|].
  rewrite (co_await_fresh t l' id _ _ (upper id st shim ++ others out ths) _ Ht Hnd)
    by (cbn [frames set_frames store_frame]; by rewrite Hh).
  apply (related_exec_mode t l' ((id, k) :: st) shim out ths); [done..|].
  split; [|done]. by apply NoDup_cons.
Qed.

(** The running coroutine suspends on an operation. *)
Lemma related_await_io id st shim op k out ths m s :
  same_lists m s out ths → heap_of (chain id Running st shim) (others out ths) (frames m) →
  let m1 := store_frame id (TaskFrame (OnIo op k) no_result (Some (parent st shim))) m in
  related
    (resume_returns (mkMachine (frames m1) (control m1) (spawners m1) (pending m1 ++ [id])
      (ops m1 ++ [op]) (done_ m1)))
    (c_returns (mkCalls (c_control s) (c_spawners s) (c_waiting s ++ [(op, k, st.*2)])
      (c_ops s ++ [op]) (c_done s))).
Proof.
  intros (Hops & Hdo & Hsp & Hcs & Hp & Hw) [Hnd Hh] m1.
  apply (related_returns _ _ out (ths ++ [mkThread id (op, k) st shim])).
  - unfold same_lists. cbn [ops c_ops done_ c_done pending c_waiting spawners c_spawners m1 store_frame set_frames].
    by rewrite Hops, Hp, Hw, !fmap_app.
  - unfold heap_of. cbn [app frames m1 store_frame set_frames].
    apply (reorder_entries (chain id (OnIo op k) st shim ++ others out ths)).
    + exact Hnd.
    + rewrite Hh. exact (store_entry [] _ id _ _ (not_elem_of_nil _)).
    + transitivity (others out ths ++ chain id (OnIo op k) st shim); [apply Permutation_app_comm|].
      unfold others. rewrite bind_app, bind_singleton, <-app_assoc. done.
Qed.

Lemma related_step m s :
  related m s →
  match step next m, c_step next s with
  | Some m', Some s' => related m' s'
  | None, None => True
  | _, _ => False
  end.
Proof.
  intros (out & ths & Hl & [[Hm Hs]|(cur & Hctl & Hheap)]).
  { unfold step, c_step. by rewrite Hm, Hs. }
  destruct Hctl as [(Hm & Hs & _)|(id & l & st & shim & Hm & Hs & ->)].
  { unfold step, c_step. by rewrite Hm, Hs. }
  unfold step, c_step. rewrite Hm, Hs. pose proof Hheap as [Hnd Hh].
  assert (Hid : frames m !! id = Some (TaskFrame Running no_result (Some (parent st shim)))).
  { rewrite Hh. apply lookup_entry; [done|by left]. }
  rewrite Hid. destruct (next l) as [v|x|l' k|l1 l2|l1 l2|op k|op l'].
  - pose proof (related_return id st shim out ths m s (return_value v) (inl v) eq_refl Hl Hheap) as Hr.
    by destruct st as [|[i k] st'].
  - pose proof (related_return id st shim out ths m s (unhandled_exception x) (inr x) eq_refl Hl Hheap) as Hr.
    by destruct st as [|[i k] st'].
  - pose proof (related_await id l l' k st shim out ths m s _ _ Hl Hm Hs Hheap Hid eq_refl eq_refl)
      as Hr.
    destruct (call_coroutine l' m) as [t m1]. destruct Hr as [-> Hr]. exact Hr.
  - unfold call_coroutine. set (t := fresh (dom (frames m))).
    assert (Ht : frames m !! t = None).
    { apply not_elem_of_dom. apply is_fresh. }
    assert (Hd : destroy_frame t (store_frame t (TaskFrame (Initial l1) no_result None) m) = m).
    { unfold destroy_frame. cbn [frames store_frame set_frames]. rewrite lookup_insert_eq.
      unfold store_frame, set_frames. cbn. rewrite delete_insert_id by done. by destruct m. }
    rewrite Hd. by apply (related_exec_mode id l2 st shim out ths).
  - destruct (spawn_frames l1 _ (mkMachine (frames m) (Exec id l) ((id, l2) :: spawners m)
      (pending m) (ops m) (done_ m)) Hnd Hh) as (t & sh & h & Hnd' & Hh' & ->).
    apply (related_exec_mode t l1 [] sh (mkSpawner id l2 st shim :: out) ths); [|done..|].
    + destruct Hl as (? & ? & Hsp & Hcs & ? & ?). split; [done|]. cbn [spawners c_spawners jump set_frames].
      rewrite Hsp, Hcs. done.
    + unfold others, heap_of. rewrite bind_cons, <-app_assoc. done.
  - pose proof (related_await_io id st shim op k out ths m s Hl Hheap) as Hr.
    rewrite Hs in Hr. revert Hr. unfold store_frame, set_frames. by rewrite Hm.
  - apply (related_exec_mode id l' st shim out ths); [|done..].
    destruct Hl as (? & Hdo & ?). split; [done|]. split; [cbn; by rewrite Hdo|done].
Qed.

Lemma related_loop m s :
  related m s → control m = Loop →
  ∃ ths, same_lists m s [] ths ∧ heap_of [] (others [] ths) (frames m).
Proof.
  intros (out & ths & Hl & [[Hm _]|(cur & Hctl & Hheap)]) Hloop; [congruence|].
  destruct Hctl as [(_ & _ & -> & ->)|(id & l' & st & shim & Hm & _)]; [|congruence].
  by exists ths.
Qed.

Lemma related_spawn l m s :
  related m s → control m = Loop → related (spawn l m) (c_jump (CExec l []) s).
Proof.
  intros Hr Hloop. destruct (related_loop _ _ Hr Hloop) as (ths & Hl & Hnd & Hh).
  destruct (spawn_frames l _ m Hnd Hh) as (t & shim & h & Hnd' & Hh' & ->).
  by apply (related_exec_mode t l [] shim [] ths).
Qed.

Lemma related_complete i r m s :
  related m s → control m = Loop →
  match complete i r m, c_complete i r s with
  | Some m', Some s' => related m' s'
  | None, None => True
  | _, _ => False
  end.
Proof.
  intros Hr Hloop. destruct (related_loop _ _ Hr Hloop) as (ths & Hl & Hnd & Hh).
  pose proof Hl as (Hops & Hdo & Hsp & Hcs & Hp & Hw).
  unfold complete, c_complete. rewrite Hp, Hw, !list_lookup_fmap.
  destruct (ths !! i) as [th|] eqn:Hi; [|done]. cbn [fmap option_fmap option_map mbind option_bind].
  assert (Hperm : others [] ths ≡ₚ waiting_frames th ++ others [] (delete i ths)).
  { unfold others. cbn [app mbind list_bind]. by rewrite (delete_Permutation ths i th Hi) at 1. }
  destruct (reorder_entries _ _ _ Hnd Hh Hperm) as [Hnd' Hh'].
  cbn [frames]. rewrite Hh'. rewrite (lookup_entry _ (leaf th) _ Hnd' ltac:(by left)).
  destruct th as [lf [op k] cl sh]. cbn [leaf io callers_ shim_ fst snd waiting_call] in *.
  apply (related_exec_mode lf (k r) cl sh [] (delete i ths)).
  - unfold same_lists. cbn [pending c_waiting jump store_frame set_frames spawners c_spawners ops c_ops
      done_ c_done record]. by rewrite !list_fmap_delete, Hdo.
  - done.
  - done.
  - split; [exact Hnd'|]. cbn [frames jump store_frame set_frames].
    exact (store_entry [] _ lf _ _ (not_elem_of_nil _)).
Qed.

Lemma related_control m s :
  related m s → (control m = Loop ∧ c_control s = CLoop) ∨
    (∃ id l st, control m = Exec id l ∧ c_control s = CExec l st) ∨
    (control m = Aborted ∧ c_control s = CAborted).
Proof.
  intros (out & ths & _ & [[? ?]|(cur & [(? & ? & _)|(id & l & st & shim & ? & ? & _)] & _)]);
    [by right; right|by left|]. right. left. by exists id, l, st.*2.
Qed.

Lemma related_exec e m s :
  related m s →
  match exec next e m, c_exec next e s with
  | Some m', Some s' => related m' s'
  | None, None => True
  | _, _ => False
  end.
Proof.
  intros Hr. destruct e as [|l|i r]; [by apply related_step|..]; unfold exec, c_exec;
    destruct (related_control _ _ Hr) as [[Hm Hs]|[(id & l' & st & Hm & Hs)|[Hm Hs]]];
    rewrite Hm, Hs; try done.
  - by apply related_spawn.
  - by apply related_complete.
Qed.

Lemma related_empty : related empty_machine no_calls.
Proof.
  exists [], []. split; [done|]. right. exists []. split; [by left|]. split; [constructor|done].
Qed.

Lemma related_run es : ∀ m s,
  related m s →
  match run next es m, c_run next es s with
  | Some m', Some s' => related m' s'
  | None, None => True
  | _, _ => False
  end.
Proof.
  induction es as [|e es IH]; intros m s Hr; [done|]. cbn [run c_run].
  pose proof (related_exec e m s Hr) as He.
  destruct (exec next e m), (c_exec next e s); cbn [mbind option_bind]; try done. by apply IH.
Qed.

(** *** The frames of a suspended coroutine *)

(** The frame [p] awaits [child], and further frames await it, down to a [spawn_shim]:
    what each does next, and which they are. *)
Inductive awaited_by (h : gmap nat (@frame L V X Op R)) :
    nat → nat → list (V + X → L) → list nat → Prop :=
  | awaited_shim child p : h !! p = Some (ShimFrame child) → awaited_by h child p [] [p]
  | awaited_task child p q k ks l :
      h !! p = Some (TaskFrame (OnTask child k) no_result (Some q)) →
      awaited_by h p q ks l → awaited_by h child p (k :: ks) (p :: l).

(** The frames [l] are those of a call that waits: [id], which waits for the operation
    the call does, and its callers, each awaiting the one before. *)
Inductive suspended_chain (h : gmap nat (@frame L V X Op R)) :
    nat → (Op * (Z → L)) * list (V + X → L) → list nat → Prop :=
  | chain_of id op k p ks l :
      h !! id = Some (TaskFrame (OnIo op k) no_result (Some p)) →
      awaited_by h id p ks l → suspended_chain h id (op, k, ks) (id :: l).

Lemma upper_awaited h st shim : ∀ child,
  Forall (λ e, h !! e.1 = Some e.2) (upper child st shim) →
  awaited_by h child (parent st shim) st.*2 (upper child st shim).*1.
Proof.
  induction st as [|[i k] st IH]; intros child; cbn [upper]; intros [Hi Hst]%Forall_cons.
  - by constructor.
  - econstructor; [exact Hi|by apply IH].
Qed.

Lemma waiting_chain h th :
  Forall (λ e, h !! e.1 = Some e.2) (waiting_frames th) →
  suspended_chain h (leaf th) (waiting_call th) (waiting_frames th).*1.
Proof.
  destruct th as [i [op k] st shim]. intros [Hi Hst]%Forall_cons.
  econstructor; [exact Hi|by apply upper_awaited].
Qed.

Lemma waiting_chains h ths :
  Forall (λ e, h !! e.1 = Some e.2) (ths ≫= waiting_frames) →
  ∃ ls, Forall3 (suspended_chain h) (leaf <$> ths) (waiting_call <$> ths) ls ∧
    concat ls = (ths ≫= waiting_frames).*1.
Proof.
  induction ths as [|th ths IH]; [by exists []; split; [constructor|]|].
  rewrite bind_cons. intros [Hth (ls & Hls & Hc)%IH]%Forall_app.
  exists ((waiting_frames th).*1 :: ls). split.
  - constructor; [by apply waiting_chain|done].
  - cbn [concat]. by rewrite Hc, fmap_app.
Qed.

Lemma related_frames m s :
  related m s → control m = Loop →
  ∃ ls, Forall3 (suspended_chain (frames m)) (pending m) (c_waiting s) ls ∧
    NoDup (concat ls) ∧ dom (frames m) = list_to_set (concat ls).
Proof.
  intros Hr Hloop.
  destruct (related_loop _ _ Hr Hloop) as (ths & (_ & _ & _ & _ & -> & ->) & Hnd & Hh).
  unfold others in Hnd, Hh. cbn [app mbind list_bind] in Hnd, Hh.
  destruct (waiting_chains (frames m) ths) as (ls & Hls & Hc).
  - apply Forall_forall. intros [i f] Hin. rewrite Hh. by apply lookup_entry.
  - exists ls. split; [done|]. rewrite Hc. split; [done|]. by rewrite Hh, dom_list_to_map_L.
Qed.

Lemma related_idle m s :
  related m s → control m = Loop → pending m = [] → frames m = ∅.
Proof.
  intros Hr Hloop Hnil. destruct (related_frames _ _ Hr Hloop) as (ls & Hls & _ & Hdom).
  rewrite Hnil in Hls. inversion Hls; subst. by apply dom_empty_iff_L.
Qed.

(** ** Properties *)

(** C3: Coroutines behave as function calls: whatever their bodies do, spawning
    other coroutines from within included, and in whatever order the kernel completes their operations, the frames on the heap,
    jumping to one another, do exactly what a call stack per spawned coroutine
    does.  The same operations are started in the same order, the same number are
    outstanding, exceptions reach the caller of the coroutine, one that leaves the
    outermost aborts, and a dead frame or a missing result is never met. *)
Theorem coroutines_are_calls (es : list (event L)) :
  match run next es empty_machine, c_run next es no_calls with
  | Some m, Some s =>
      ops m = c_ops s ∧ done_ m = c_done s ∧ length (pending m) = length (c_waiting s) ∧
      length (spawners m) = length (c_spawners s) ∧
      match control m, c_control s with
      | Loop, CLoop | Aborted, CAborted => True
      | Exec _ l, CExec l' _ => l = l'
      | _, _ => False
      end
  | None, None => True
  | _, _ => False
  end.
Proof.
  pose proof (related_run es _ _ related_empty) as Hr.
  destruct (run next es empty_machine) as [m|], (c_run next es no_calls) as [s|]; try done.
  pose proof Hr as (out & ths & (Hops & Hdo & Hsp & Hcs & Hp & Hw) & Hc). do 2 (split; [done|]).
  split; [by rewrite Hp, Hw, !length_fmap|].
  split; [by rewrite Hsp, Hcs, !length_fmap|].
  destruct Hc as [[-> ->]|(cur & [(-> & -> & _)|(id & l & st & shim & -> & -> & _)] & _)]; done.
Qed.

(** C30: No frame leaks and none is freed early: in the event loop the frames alive are
    those of the coroutines that await an operation, of the ones that await them, in the
    order of the calls, and of a [spawn_shim] for each, every one once, and no others;
    each waits where its call does.  When no operation is outstanding the heap is
    empty. *)
Theorem frames_freed (es : list (event L)) m :
  run next es empty_machine = Some m → control m = Loop →
  (∃ s ls, c_run next es no_calls = Some s ∧
    Forall3 (suspended_chain (frames m)) (pending m) (c_waiting s) ls ∧
    NoDup (concat ls) ∧ dom (frames m) = list_to_set (concat ls)) ∧
  (pending m = [] → frames m = ∅).
Proof.
  intros Hrun Hloop. pose proof (related_run es _ _ related_empty) as Hr. rewrite Hrun in Hr.
  destruct (c_run next es no_calls) as [s|]; [|done].
  destruct (related_frames _ _ Hr Hloop) as (ls & Hls & Hnd & Hdom). split; [by exists s, ls|].
  by eapply related_idle.
Qed.
End simulation.

(** A [Task] that was moved from, or given up by [release], is not safe to await:
    [await_ready] says that the result is there and [await_resume] then dereferences the
    null handle. *)
Theorem await_empty_task {L V X Op R} `{!Promise V X R} (m : machine L V X Op R) :
  await_ready None m = true ∧ await_resume None m = None.
Proof. done. Qed.

(** ** Ownership of frames *)

Section owners.
Implicit Types s : tasks.

(** The frames that the objects own. *)
Definition held (o : gmap nat (option nat)) : list nat := omap snd (map_to_list o).

Record owned s : Prop := {
  o_nodup : NoDup (held (handle_ s) ++ released s);
  o_live f : f ∈ live s ↔ f ∈ held (handle_ s) ++ released s;
  o_free : double_free s = false;
}.

Definition opt_list (h : option nat) : list nat := match h with Some f => [f] | None => [] end.

Lemma held_insert o x h : o !! x = None → held (<[x := h]> o) ≡ₚ opt_list h ++ held o.
Proof. intros Hx. unfold held. rewrite map_to_list_insert by done. by destruct h. Qed.

Lemma held_delete o x h : o !! x = Some h → held o ≡ₚ opt_list h ++ held (delete x o).
Proof.
  intros Hx. rewrite <-(insert_id o x h Hx) at 1. rewrite <-insert_delete_eq.
  apply held_insert. apply lookup_delete_eq.
Qed.

Lemma held_update o x h h' :
  o !! x = Some h → ∃ l, held o ≡ₚ opt_list h ++ l ∧ held (<[x := h']> o) ≡ₚ opt_list h' ++ l.
Proof.
  intros Hx. exists (held (delete x o)). split; [by apply held_delete|].
  rewrite <-insert_delete_eq. apply held_insert, lookup_delete_eq.
Qed.

(** Ownership only depends on the frames held, in any order. *)
Lemma owned_perm s s' :
  owned s → double_free s' = double_free s → live s' = live s →
  held (handle_ s') ++ released s' ≡ₚ held (handle_ s) ++ released s → owned s'.
Proof.
  intros [Hnd Hl Hf] Hdf Hlive Hp. split; [by rewrite Hp| |congruence].
  intros f. by rewrite Hlive, Hp.
Qed.

(** Destroying the frame of an object that gives it up. *)
Lemma owned_destroy s s' h :
  owned s → s' = mkTasks (handle_ s') (live (destroy_handle h s)) (released s)
    (double_free (destroy_handle h s)) →
  held (handle_ s) ≡ₚ opt_list h ++ held (handle_ s') → owned s'.
Proof.
  intros [Hnd Hl Hf] Hs' Hp. rewrite Hs'. rewrite Hp in Hnd. destruct h as [f|].
  - cbn [opt_list app] in *. apply NoDup_cons in Hnd as [Hnin Hnd].
    assert (Hin : f ∈ live s) by (apply Hl; rewrite Hp; by left).
    unfold destroy_handle. rewrite decide_True by done. split; [done| |done].
    intros g. cbn. rewrite elem_of_difference, elem_of_singleton, Hl, Hp.
    cbn [opt_list app]. rewrite elem_of_cons. split; [|intros Hg; split; [by right|by intros ->]].
    by intros [[->|?] ?].
  - split; [done| |done]. intros g. cbn. by rewrite Hl, Hp.
Qed.

Lemma owned_exec o s s' : owned s → task_exec o s = Some s' → owned s'.
Proof.
  intros Hs Hrun. destruct o as [x|x y|x y|x|x]; cbn [task_exec] in Hrun.
  - destruct (decide (handle_ s !! x = None)) as [Hx|]; [|done]. injection Hrun as <-.
    destruct Hs as [Hnd Hl Hf]. pose proof (is_fresh (live s)) as Hfr.
    pose proof (held_insert _ x (Some (fresh (live s))) Hx) as Hp. cbn [opt_list app] in Hp.
    split; cbn; [|intros g|done]; rewrite Hp; cbn [app].
    + apply NoDup_cons. by rewrite <-Hl.
    + by rewrite elem_of_union, elem_of_singleton, elem_of_cons, Hl.
  - apply bind_Some in Hrun as (h & Hy & Hrun).
    destruct (decide (handle_ s !! x = None)) as [Hx|]; [|done]. injection Hrun as <-.
    apply (owned_perm s); [done..|]. cbn. apply Permutation_app_tail.
    destruct (held_update _ y h None Hy) as (l & Hl1 & Hl2).
    rewrite held_insert, Hl2, Hl1 by (rewrite lookup_insert_ne; [done|congruence]). done.
  - apply bind_Some in Hrun as (hx & Hx & Hrun). apply bind_Some in Hrun as (hy & Hy & Hrun).
    destruct (decide (x = y)) as [->|Hne]; [by injection Hrun as <-|].
    injection Hrun as <-. apply (owned_destroy s _ hx Hs).
    { unfold destroy_handle. destruct hx; [|done]. by destruct (decide _). }
    destruct (held_update _ x hx None Hx) as (l & Hl1 & Hl2).
    assert (Hh : handle_ (destroy_handle hx s) = handle_ s)
      by (unfold destroy_handle; destruct hx; [by destruct (decide _)|done]).
    cbn. rewrite Hh.
    rewrite (held_delete (handle_ s) x hx Hx).
    rewrite <-insert_delete_eq, held_insert by apply lookup_delete_eq.
    rewrite delete_insert_ne by done.
    assert (Hy' : delete x (handle_ s) !! y = Some hy) by by rewrite lookup_delete_ne.
    destruct (held_update _ y hy None Hy') as (l' & Hl1' & Hl2').
    rewrite Hl1', Hl2'. done.
  - apply bind_Some in Hrun as (h & Hx & [= <-]). apply (owned_perm s); [done..|]. cbn.
    destruct (held_update _ x h None Hx) as (l & Hl1 & Hl2). rewrite Hl1, Hl2. cbn.
    change (match h with Some f => [f] | None => [] end) with (opt_list h).
    rewrite (Permutation_app_comm (released s)), app_assoc.
    apply Permutation_app_tail, Permutation_app_comm.
  - apply bind_Some in Hrun as (h & Hx & [= <-]). apply (owned_destroy s _ h Hs).
    { unfold destroy_handle. destruct h; [|done]. by destruct (decide _). }
    assert (Hh : handle_ (destroy_handle h s) = handle_ s)
      by (unfold destroy_handle; destruct h; [by destruct (decide _)|done]).
    cbn. rewrite Hh. by apply held_delete.
Qed.

(** Whatever a program does with its [Task] objects, moves and self-moves
    included, no two objects own the same frame, none is destroyed twice, and the
    frames alive are exactly those owned by an object or released. *)
Theorem task_ownership (os : list task_op) s :
  task_run os no_tasks = Some s →
  double_free s = false ∧ NoDup (held (handle_ s) ++ released s) ∧
  (∀ f, f ∈ live s ↔ f ∈ held (handle_ s) ++ released s) ∧
  (handle_ s = ∅ → released s = [] → live s = ∅).
Proof.
  assert (Hgen : ∀ s0, owned s0 → task_run os s0 = Some s → owned s).
  { induction os as [|o os IH]; intros s0 Hs0 Hrun; [by injection Hrun as <-|].
    apply bind_Some in Hrun as (s1 & He & Hrun). eapply IH; [|done]. by eapply owned_exec. }
  intros Hrun. destruct (Hgen no_tasks) as [Hnd Hl Hf]; [|done|].
  { split; [constructor| |done]. intros f. cbn. set_solver. }
  split_and!; [done..|]. intros Hh Hr. apply set_eq. intros f.
  rewrite Hl, Hh, Hr. cbn. set_solver.
Qed.
End owners.

(** ** Witnesses *)

Module Demo.
(** [LLeaf] awaits an operation and returns its result doubled; [LMid] adds one, and
    throws when that is negative; [LTop] spawns a leaf, awaits [LMid], catches and
    returns. *)
Inductive local := LLeaf | LLeaf1 (r : Z) | LMid | LMid1 (r : Z + unit) | LTop | LTop0 | LTop1 (r : Z + unit).
Definition next (l : local) : action local Z unit nat :=
  match l with
  | LLeaf => AwaitIo 7%nat LLeaf1
  | LLeaf1 r => CoReturn (2 * r)
  | LMid => DropTask LTop (LMid1 (inr tt))
  | LMid1 (inl r) => if r <? 0 then Uncaught tt else CoReturn (r + 1)
  | LMid1 (inr _) => AwaitTask LLeaf LMid1
  | LTop => Spawn LLeaf LTop0
  | LTop0 => AwaitTask LMid LTop1
  | LTop1 (inl r) => CoReturn r
  | LTop1 (inr _) => CoReturn 0
  end.
(** The same with [Task<void>]: [result_] is never looked at. *)
Definition next_void (l : local) : action local unit unit nat :=
  match l with
  | LLeaf => AwaitIo 7%nat LLeaf1
  | LLeaf1 r => if r <? 0 then Uncaught tt else CoReturn tt
  | LMid => DropTask LTop (LMid1 (inr tt))
  | LMid1 (inl r) => CoReturn tt
  | LMid1 (inr _) => AwaitTask LLeaf (λ r, match r with inl _ => LMid1 (inl 0) | inr _ => LLeaf1 (-1) end)
  | LTop => Spawn LMid LTop0
  | LTop0 => AwaitTask LMid (λ r, LTop1 (match r with inl _ => inl 0 | inr x => inr x end))
  | LTop1 _ => CoReturn tt
  end.
Definition events_void : list (event local) :=
  EvSpawn LTop :: replicate 8 EvStep ++ [EvComplete 0 5] ++ replicate 2 EvStep ++
  [EvComplete 0 (-3)] ++ replicate 3 EvStep.
Definition events : list (event local) :=
  EvSpawn LTop :: replicate 6 EvStep ++ [EvSpawn LTop] ++ replicate 6 EvStep ++
  [EvComplete 1 (-3)] ++ replicate 3 EvStep ++ [EvComplete 0 4; EvStep] ++
  [EvComplete 1 5] ++ replicate 3 EvStep ++ [EvComplete 0 4; EvStep].
End Demo.

(** A run of the demonstration that ends in the loop. *)
Lemma run_to_loop {V R} `{!Promise V unit R} (body : Demo.local → action Demo.local V unit nat) es ops0 n :
  (λ m, (ops m, length (pending m), match control m with Loop => true | _ => false end)) <$>
    run body es (empty_machine (R:=R)) = Some (ops0, n, true) →
  ∃ m, run body es (empty_machine (R:=R)) = Some m ∧ ops m = ops0 ∧ length (pending m) = n ∧ control m = Loop.
Proof.
  destruct (run body es empty_machine) as [m|]; [|done]. intros [= Hops Hp Hc].
  exists m. split_and!; [done..|]. by destruct (control m).
Qed.

Lemma frames_freed_witness :
  (∃ m s ls, run Demo.next (take 14 Demo.events) empty_machine = Some m ∧ length (pending m) = 4%nat ∧
    Forall3 (suspended_chain (frames m)) (pending m) (c_waiting s) ls ∧
    NoDup (concat ls) ∧ dom (frames m) = list_to_set (concat ls)) ∧
  (∃ m, run Demo.next_void Demo.events_void empty_machine = Some m ∧ ops m = [7; 7]%nat ∧ frames m = ∅).
Proof.
  split.
  - destruct (run_to_loop Demo.next (take 14 Demo.events) [7; 7; 7; 7]%nat 4) as (m & Hrun & Hops & Hp & Hc);
      [vm_compute; reflexivity|].
    destruct (frames_freed Demo.next (take 14 Demo.events) m Hrun Hc) as [(s & ls & _ & Hls) _].
    exists m, s, ls. split; [done|]. split; [done|]. exact Hls.
  - destruct (run_to_loop Demo.next_void Demo.events_void [7; 7]%nat 0) as (m & Hrun & Hops & Hp & Hc);
      [vm_compute; reflexivity|].
    exists m. split; [done|]. split; [done|].
    apply (frames_freed Demo.next_void Demo.events_void m Hrun Hc). by apply nil_length_inv.
Defined.

Lemma task_ownership_witness :
  ∃ s, task_run [TCall 0; TCall 1; TAssign 0 1; TAssign 0 0; TMove 2 0; TRelease 2; TDestroy 0;
      TDestroy 1; TDestroy 2] no_tasks = Some s ∧
    double_free s = false ∧ NoDup (held (handle_ s) ++ released s).
Proof.
  destruct (task_run [TCall 0; TCall 1; TAssign 0 1; TAssign 0 0; TMove 2 0; TRelease 2;
    TDestroy 0; TDestroy 1; TDestroy 2] no_tasks) as [s|] eqn:Hrun.
  - exists s. split; [done|].
    destruct (task_ownership [TCall 0; TCall 1; TAssign 0 1; TAssign 0 0; TMove 2 0; TRelease 2;
      TDestroy 0; TDestroy 1; TDestroy 2] s Hrun) as (? & ? & _). done.
  - exfalso. revert Hrun. vm_compute. discriminate.
Defined.
