(* ===== verification/Strands.v ===== *)
(** * Strands: reasoning on coroutines one at a time

    A state of the call-stack specification of [Task.v] is a collection of strands:
    coroutine bodies with the ones that await them, running, inside a call of [spawn]
    or waiting for an operation.  Each event concerns one strand, which goes on, ends or
    spawns another.  [strands_invariant] is induction over the runs of a whole program
    through the transitions of a single strand; what it keeps may speak of the history
    of operations and of the coroutines spawned from outside. *)
From S2P Require Import Prelude Task.

Section strands.
Context {L V X Op : Type} (next : L → action L V X Op).
Implicit Types s : calls L V X Op.

Inductive strand : Type :=
  | Active (l : L) (st : list (V + X → L))
  | Waiting (op : Op) (k : Z → L) (st : list (V + X → L)).

Definition strands s : list strand :=
  match c_control s with CExec l st => [Active l st] | _ => [] end ++
  ((λ p, Active p.1 p.2) <$> c_spawners s) ++ ((λ p, Waiting p.1.1 p.1.2 p.2) <$> c_waiting s).

(** What a strand becomes, and the operations that are done meanwhile. *)
Inductive strand_step : strand → list strand → list (Op * Z) → Prop :=
  | StEnd l v : next l = CoReturn v → strand_step (Active l []) [] []
  | StReturn l v k st : next l = CoReturn v →
      strand_step (Active l (k :: st)) [Active (k (inl v)) st] []
  | StThrow l x k st : next l = Uncaught x →
      strand_step (Active l (k :: st)) [Active (k (inr x)) st] []
  | StCall l l' k st : next l = AwaitTask l' k →
      strand_step (Active l st) [Active l' (k :: st)] []
  | StDrop l l1 l2 st : next l = DropTask l1 l2 → strand_step (Active l st) [Active l2 st] []
  | StFork l l1 l2 st : next l = Spawn l1 l2 →
      strand_step (Active l st) [Active l1 []; Active l2 st] []
  | StWait l op k st : next l = AwaitIo op k → strand_step (Active l st) [Waiting op k st] []
  | StOut l op l' st : next l = CallOut op l' → strand_step (Active l st) [Active l' st] [(op, 0)]
  | StComplete op k st r : strand_step (Waiting op k st) [Active (k r) st] [(op, r)].

(** The same as functions of what the body does, and of the result. *)
Definition goes_on (a : action L V X Op) (st : list (V + X → L))
    : option (list strand * list (Op * Z)) :=
  match a, st with
  | CoReturn _, [] => Some ([], [])
  | CoReturn v, k :: st => Some ([Active (k (inl v)) st], [])
  | Uncaught _, [] => None
  | Uncaught x, k :: st => Some ([Active (k (inr x)) st], [])
  | AwaitTask l k, _ => Some ([Active l (k :: st)], [])
  | DropTask _ l, _ => Some ([Active l st], [])
  | Spawn l1 l2, _ => Some ([Active l1 []; Active l2 st], [])
  | AwaitIo op k, _ => Some ([Waiting op k st], [])
  | CallOut op l, _ => Some ([Active l st], [(op, 0)])
  end.

Lemma step_active l st new d : strand_step (Active l st) new d → goes_on (next l) st = Some (new, d).
Proof.
  intros Hst. inversion Hst as [? ? Hn|? ? ? ? Hn|? ? ? ? Hn|? ? ? ? Hn|? ? ? ? Hn|? ? ? ? Hn|? ? ? ? Hn|? ? ? ? Hn|];
    subst; by rewrite Hn.
Qed.
Lemma step_waiting op k st new d :
  strand_step (Waiting op k st) new d → ∃ r, new = [Active (k r) st] ∧ d = [(op, r)].
Proof. intros Hst. inversion Hst; subst. by eexists. Qed.

(** The coroutine a [spawn] from outside starts. *)
Definition spawned_of (e : event L) : option L :=
  match e with EvSpawn l => Some l | _ => None end.

Lemma strands_jump c s : c_control s = CLoop →
  strands (c_jump c s) = match c with CExec l st => [Active l st] | _ => [] end ++ strands s.
Proof. intros Hc. unfold strands. by rewrite Hc. Qed.

(** The strands that do not run. *)
Definition resting s : list strand :=
  ((λ p, Active p.1 p.2) <$> c_spawners s) ++ ((λ p, Waiting p.1.1 p.1.2 p.2) <$> c_waiting s).
Lemma strands_running l st s : c_control s = CExec l st → strands s = Active l st :: resting s.
Proof. intros Hc. unfold strands. by rewrite Hc. Qed.
Lemma strands_returns s : strands (c_returns s) = resting s.
Proof.
  unfold strands, resting, c_returns. destruct (c_spawners s) as [|[l st] sp] eqn:Hsp; [|done].
  cbn. by rewrite Hsp.
Qed.
Lemma done_returns s : c_done (c_returns s) = c_done s.
Proof. unfold c_returns. by destruct (c_spawners s) as [|[]]. Qed.

Lemma running_returns s : c_control (c_returns s) ≠ CAborted.
Proof. unfold c_returns. by destruct (c_spawners s) as [|[]]. Qed.

(** One strand goes on; or the program aborts. *)
Definition advances s s' : Prop :=
  c_control s' ≠ CAborted ∧ ∃ old new rest d, strand_step old new d ∧
    strands s ≡ₚ old :: rest ∧ strands s' ≡ₚ new ++ rest ∧ c_done s' = c_done s ++ d.
Definition aborts s s' : Prop :=
  ∃ l x rest, strands s = Active l [] :: rest ∧ next l = Uncaught x ∧ c_done s' = c_done s.

Lemma strands_run s s' : c_step next s = Some s' → advances s s' ∨ aborts s s'.
Proof.
  unfold c_step. destruct (c_control s) as [|l st|] eqn:Hc; try done. intros [= <-].
  assert (Hgo : ∀ new d s1, strand_step (Active l st) new d → c_control s1 ≠ CAborted →
    strands s1 ≡ₚ new ++ resting s → c_done s1 = c_done s ++ d → advances s s1 ∨ aborts s s1).
  { intros new d s1 Hst Hna Hs Hd. left. split; [done|].
    exists (Active l st), new, (resting s), d. by rewrite (strands_running l st s Hc). }
  destruct (next l) as [v|x|l' k|l1 l2|l1 l2|op k|op l'] eqn:Hn.
  - destruct st as [|k st]; eapply Hgo; try (by econstructor); try done.
    + apply running_returns.
    + by rewrite strands_returns.
    + by rewrite done_returns, app_nil_r.
    + by rewrite app_nil_r.
  - destruct st as [|k st].
    + right. exists l, x, (resting s). by rewrite (strands_running l [] s Hc).
    + eapply Hgo; [by eapply StThrow|done..|by rewrite app_nil_r].
  - eapply Hgo; [by eapply StCall|done..|by rewrite app_nil_r].
  - eapply Hgo; [by eapply StDrop|done..|by rewrite app_nil_r].
  - eapply Hgo; [by eapply StFork|done..|by rewrite app_nil_r].
  - eapply Hgo; [by eapply StWait|apply running_returns| |by rewrite done_returns, app_nil_r].
    rewrite strands_returns. unfold resting. cbn. rewrite fmap_app, app_assoc. cbn.
    by rewrite <-Permutation_cons_append.
  - eapply Hgo; [by eapply StOut|done..].
Qed.

Lemma strands_complete i r s s' :
  c_control s = CLoop → c_complete i r s = Some s' → advances s s'.
Proof.
  intros Hc. unfold c_complete. intros ([[op k] st] & Hi & [= <-])%bind_Some. split; [done|].
  exists (Waiting op k st), [Active (k r) st],
    (((λ p, Active p.1 p.2) <$> c_spawners s) ++
     ((λ p, Waiting p.1.1 p.1.2 p.2) <$> delete i (c_waiting s))), [(op, r)].
  split_and!; [constructor| |done|done]. unfold strands. rewrite Hc. cbn [app].
  rewrite (delete_Permutation _ i _ Hi) at 1. rewrite fmap_cons. by rewrite <-Permutation_middle.
Qed.

Lemma strands_exec e s s' :
  c_exec next e s = Some s' →
  match spawned_of e with
  | Some l => strands s' = Active l [] :: strands s ∧ c_done s' = c_done s ∧ c_control s' ≠ CAborted
  | None => advances s s' ∨ aborts s s'
  end.
Proof.
  destruct e as [|l|i r]; cbn [c_exec spawned_of]; [apply strands_run|..];
    destruct (c_control s) eqn:Hc; try done.
  - intros [= <-]. by rewrite strands_jump.
  - intros Hco. left. by eapply strands_complete.
Qed.

Lemma done_grows es : ∀ s s', c_run next es s = Some s' → ∃ d, c_done s' = c_done s ++ d.
Proof.
  induction es as [|e es IH]; intros s s'; cbn [c_run].
  { intros [= <-]. exists []. by rewrite app_nil_r. }
  intros (s1 & Hex & Hrun)%bind_Some. destruct (IH _ _ Hrun) as (d & ->).
  apply strands_exec in Hex. destruct (spawned_of e).
  - destruct Hex as (_ & -> & _). by exists d.
  - destruct Hex as [(_ & old & new & rest & d' & _ & _ & _ & ->)|(l & x & rest & _ & _ & ->)].
    + exists (d' ++ d). by rewrite app_assoc.
    + by exists d.
Qed.

(** ** Induction *)

(** The runs considered: what is spawned from outside, what is done. *)
Context (ok : list L → list (Op * Z) → Prop).
Hypothesis ok_prefix : ∀ sp sp' d d', ok (sp ++ sp') (d ++ d') → ok sp d.

Context (P : list L → list strand → list (Op * Z) → Prop).
Hypothesis P_perm : ∀ sp xs xs' d, xs ≡ₚ xs' → P sp xs d → P sp xs' d.
Hypothesis P_spawn : ∀ sp l xs d, ok (sp ++ [l]) d → P sp xs d → P (sp ++ [l]) (Active l [] :: xs) d.
Hypothesis P_step : ∀ sp old new rest d d', strand_step old new d' → ok sp (d ++ d') →
  P sp (old :: rest) d → P sp (new ++ rest) (d ++ d').
Hypothesis P_caught : ∀ sp l x rest d, ok sp d → next l = Uncaught x →
  ¬ P sp (Active l [] :: rest) d.

Lemma strands_invariant es : ∀ sp s s',
  P sp (strands s) (c_done s) → c_control s ≠ CAborted →
  c_run next es s = Some s' → ok (sp ++ omap spawned_of es) (c_done s') →
  c_control s' ≠ CAborted ∧ P (sp ++ omap spawned_of es) (strands s') (c_done s').
Proof.
  induction es as [|e es IH]; intros sp s s' HP Hna; cbn [c_run].
  { intros [= <-] _. by rewrite app_nil_r. }
  intros (s1 & Hex & Hrun)%bind_Some Hok. destruct (done_grows _ _ _ Hrun) as (dd & Hdd).
  apply strands_exec in Hex. cbn [omap list_omap] in *. rewrite Hdd in Hok.
  destruct (spawned_of e) as [l|].
  - destruct Hex as (Hs & Hd & Hna1). rewrite cons_middle, app_assoc in *.
    apply (IH _ s1); [|done|done|by rewrite Hdd].
    rewrite Hs, Hd. apply P_spawn; [|done]. rewrite Hd in Hok. by eapply ok_prefix.
  - destruct Hex as [(Hna1 & old & new & rest & d' & Hst & Hp & Hp' & Hd)|(l & x & rest & Hs & Hn & Hd)].
    + apply (IH _ s1); [|done|done|by rewrite Hdd]. apply (P_perm _ (new ++ rest)); [done|].
      rewrite Hd in Hok |- *. eapply P_step; [done|by eapply ok_prefix|by eapply P_perm].
    + exfalso. rewrite Hs in HP. eapply (P_caught sp l x rest (c_done s)); [|done|done].
      rewrite Hd in Hok. by eapply ok_prefix.
Qed.
End strands.
