(* ===== verification/Coroutines.v ===== *)
(** * Coroutines: what runs on a worker

    The composition of [Task.v], [Scheduler.v] and [Completion.v]: the user code of
    the event loop is no longer any list of actions but the coroutines of
    [Task.v].  [Scheduler::run] resumes the coroutine at the head of [ready_]
    ([h.resume()]), which runs until the jumps between frames end in the loop; each
    operation that a frame awaits meanwhile is an [await_suspend] of [io_operation.hpp]
    on the ring, or a suspension of [submit_awaiter.hpp] that another thread ends
    with [Scheduler::post].  Tasks and timer callbacks may [spawn] coroutines.

    An operation is an object of the frame that awaits it and is named as the frame
    is; a handle is the name of a frame. *)
From S2P Require Import Prelude Task Strands Scheduler Completion.

(** ** Operations whose object is in the frame *)

Section ring.
Context (entries : nat) (sqpoll : bool).
Implicit Types s : Scheduler.

(** [await_suspend] of operation objects that live in the awaiting frames. *)
Definition ring_awaits (l : list nat) : list action := (λ o, AAwait o o) <$> l.

Definition own_actions (e : event) : Prop :=
  match e with
  | EvTask l | EvResume l | EvCqe l => ∃ os, l = ring_awaits os
  | _ => True
  end.

(** No coroutine stays at its final suspension point, and the object of an operation
    on its way names the coroutine that awaits it. *)
Definition sound s : Prop :=
  final s = ∅ ∧
  ∀ o, o ∈ outstanding s → ∃ r f, Scheduler.ops s !! o = Some (mkOp (Some o) r f).

(** The coroutines the scheduler will resume. *)
Definition to_resume s : list nat := ready_ s ++ handles (cross_ s).
Definition tracked s : list nat := outstanding s ++ to_resume s.

Definition resumed (e : event) s : list nat :=
  match e, pc s, ready_ s with EvResume _, LReady, h :: _ => [h] | _, _, _ => [] end.
Definition posted (e : event) : list nat := match e with EvPost h => [h] | _ => [] end.

Lemma awaited_ring os : awaited (ring_awaits os) = os.
Proof. induction os as [|o os IH]; [done|]. cbn. by f_equal. Qed.

(** *** What does not touch the handles *)

(** Equal but for the ring, the point, the history and the operations. *)
Definition same_handles s s' : Prop :=
  ready_ s' = ready_ s ∧ handles (cross_ s') = handles (cross_ s) ∧ final s' = final s.
#[export] Instance same_handles_preorder : PreOrder same_handles.
Proof.
  split; [by intros ?|]. intros s1 s2 s3 (? & ? & ?) (? & ? & ?). split_and!; congruence.
Qed.

(** ... and the operations. *)
Definition same_ops s s' : Prop := same_handles s s' ∧ Scheduler.ops s' = Scheduler.ops s.
#[export] Instance same_ops_preorder : PreOrder same_ops.
Proof.
  split; [by intros ?|]. intros s1 s2 s3 [? ?] [? ?]. split; [by etrans|congruence].
Qed.

Lemma get_sqe_same e s s' : get_sqe entries e s = Some s' → same_ops s s'.
Proof. unfold get_sqe. case_match; [|done]. by intros [= <-]. Qed.

Lemma rearm_watch_same s : same_ops s (rearm_watch entries s).
Proof.
  unfold rearm_watch. destruct (get_sqe entries SWatch s) eqn:He; [by eapply get_sqe_same|done].
Qed.

Lemma rearm_timer_same s : same_ops s (rearm_timer entries s).
Proof.
  unfold rearm_timer. destruct (get_sqe entries STimer s) eqn:He; [by eapply get_sqe_same|done].
Qed.

Lemma ring_acts os s s' :
  acts entries sqpoll (ring_awaits os) s = Some s' →
  same_handles s s' ∧
  ∀ o, ((o ∈ os) ∧ Scheduler.ops s' !! o = Some (mkOp (Some o) 0 0)) ∨
       ((o ∉ os) ∧ Scheduler.ops s' !! o = Scheduler.ops s !! o).
Proof.
  revert s. induction os as [|o os IH]; intros s; cbn [ring_awaits fmap list_fmap acts].
  { intros [= <-]. split; [done|]. intros o. right. by split; [apply not_elem_of_nil|]. }
  intros (s1 & Ha & Hl)%bind_Some. cbn [act] in Ha.
  apply bind_Some in Ha as (s2 & [Hh Hops]%get_sqe_same & [= <-]).
  destruct (IH _ Hl) as [Hh' Hops']. split; [etrans; [exact Hh|exact Hh']|].
  intros o'. destruct (Hops' o') as [[? ->]|[Hn ->]]; [left; split; [by right|done]|].
  cbn [Scheduler.ops set_ops]. destruct (decide (o = o')) as [->|Hne].
  - left. rewrite lookup_insert_eq. split; [by left|done].
  - right. rewrite lookup_insert_ne, Hops by done. split; [|done].
    by apply not_elem_of_cons.
Qed.

Lemma ring_user os p s :
  pc (user entries sqpoll (ring_awaits os) p s) ≠ LUB →
  same_handles s (user entries sqpoll (ring_awaits os) p s) ∧
  ∀ o, ((o ∈ os) ∧ Scheduler.ops (user entries sqpoll (ring_awaits os) p s) !! o = Some (mkOp (Some o) 0 0)) ∨
       ((o ∉ os) ∧ Scheduler.ops (user entries sqpoll (ring_awaits os) p s) !! o = Scheduler.ops s !! o).
Proof.
  unfold user. destruct (acts _ _ _ s) as [s'|] eqn:Ha; [|done]. intros _. exact (ring_acts os s s' Ha).
Qed.

(** *** Steps *)

(** The steps that move no handle. *)
Definition quiet (e : event) : bool :=
  match e with EvPost _ | EvTop | EvTask _ | EvResume _ | EvCqe _ => false | _ => true end.

Lemma quiet_step e s s' :
  quiet e = true → exec entries sqpoll e s = Some s' → same_ops s s'.
Proof.
  destruct e; try done; intros _ Hex; cbn [exec] in Hex.
  - destruct (pc s); try done. by injection Hex as <-.
  - by injection Hex as <-.
  - injection Hex as <-. unfold stop_remote. by destruct (stopping_ (cross_ s)).
  - case_decide; [done|]. by injection Hex as <-.
  - apply bind_Some in Hex as (x & _ & Hex). destruct x; [by injection Hex as <-| |by injection Hex as <-..].
    repeat case_match; try done; by injection Hex as <-.
  - case_decide; [done|]. by injection Hex as <-.
  - assert (He : s' = enter entries s) by (destruct (pc s); by simplify_eq).
    rewrite He. unfold enter.
    match goal with |- context [rearm_watch _ ?x] => set (s1 := x) end.
    destruct (rearm_watch_same s1) as [H1 H1'], (rearm_timer_same (rearm_watch entries s1)) as [H2 H2'].
    split; [|cbn; by rewrite H2', H1']. etrans; [exact H1|exact H2].
  - destruct (pc s) as [| |[|]| | | | | | | |]; try done. by injection Hex as <-.
  - destruct (pc s); try done. destruct (ready_ s) eqn:Hr; [|done]. injection Hex as <-.
    by destruct (stopping_ (cross_ s)).
  - destruct (pc s); try done. by injection Hex as <-.
  - destruct (pc s); try done. repeat case_match; simplify_eq; done.
  - destruct (pc s); try done. by injection Hex as <-.
  - destruct (pc s); try done. destruct (_ <? _)%nat; [done|]. by injection Hex as <-.
Qed.

Lemma quiet_nothing e s :
  quiet e = true → started e s = [] ∧ completed e s = [] ∧ resumed e s = [] ∧ posted e = [].
Proof. unfold completed, dispatched. by destruct e. Qed.

(** What a step does to the operation objects. *)
Definition objects e s s' : Prop := ∀ o,
  ((o ∈ started e s) ∧ Scheduler.ops s' !! o = Some (mkOp (Some o) 0 0)) ∨
  (∃ c, dispatched e s = Some c ∧ user_data c = SOp o ∧
     Scheduler.ops s' !! o = Some (mkOp (Some o) (res c) (flags c))) ∨
  ((o ∉ started e s) ∧ (o ∉ completed e s) ∧ Scheduler.ops s' !! o = Scheduler.ops s !! o).

Definition moves e s s' : Prop :=
  final s' = final s ∧ objects e s s' ∧
  to_resume s' ++ resumed e s ≡ₚ to_resume s ++ completed e s ++ posted e.

Lemma same_moves e s s' :
  same_ops s s' → started e s = [] → completed e s = [] → resumed e s = [] → posted e = [] →
  moves e s s'.
Proof.
  intros [(Hr & Hh & Hf) Ho] Hst Hc Hre Hp. split; [done|]. split.
  - intros o. right; right. rewrite Hst, Hc, Ho. split_and!; [apply not_elem_of_nil..|done].
  - rewrite Hc, Hre, Hp, !app_nil_r. unfold to_resume. by rewrite Hr, Hh.
Qed.

Lemma user_moves e os p s s1 :
  same_ops s1 s ∨ (∃ h, ready_ s1 = h :: ready_ s ∧ resumed e s1 = [h] ∧
    handles (cross_ s) = handles (cross_ s1) ∧ final s = final s1 ∧
    Scheduler.ops s = Scheduler.ops s1) →
  pc (user entries sqpoll (ring_awaits os) p s) ≠ LUB →
  started e s1 = os → dispatched e s1 = None → posted e = [] →
  (same_ops s1 s → resumed e s1 = []) →
  moves e s1 (user entries sqpoll (ring_awaits os) p s).
Proof.
  intros Hs Hub Hst Hd Hp Hre. destruct (ring_user os p s Hub) as [(Hr & Hh & Hf) Hops].
  assert (Hops' : Scheduler.ops s = Scheduler.ops s1).
  { by destruct Hs as [[_ ?]|(h & _ & _ & _ & _ & ?)]. }
  assert (Hc : completed e s1 = []) by (unfold completed; by rewrite Hd).
  split_and!.
  - rewrite Hf. by destruct Hs as [[(_ & _ & ?) _]|(h & _ & _ & _ & ? & _)].
  - intros o. rewrite Hst, Hc. destruct (Hops o) as [?|[? ->]]; [by left|].
    right; right. split_and!; [done|apply not_elem_of_nil|by rewrite Hops'].
  - rewrite Hc, Hp, !app_nil_r. unfold to_resume. rewrite Hr, Hh.
    destruct Hs as [Hsame|(h & Hr1 & -> & Hh1 & _)].
    + rewrite (Hre Hsame), app_nil_r. destruct Hsame as [(-> & -> & _) _]. done.
    + rewrite Hr1, Hh1. cbn. by rewrite <-Permutation_cons_append.
Qed.

Lemma drain_moves s : final s = ∅ → pc s = LTop → moves EvTop s (drain_cross_queue s).
Proof.
  intros Hf Hp. split; [done|]. split; [intros o; right; right; split_and!; [apply not_elem_of_nil..|done]|].
  unfold to_resume, drain_cross_queue.
  assert (Hall : ∀ l : list nat, filter (.∉ final s) l = l).
  { induction l as [|h l IH]; [done|]. rewrite filter_cons_True by set_solver. by rewrite IH. }
  cbn. by rewrite Hall, !app_nil_r.
Qed.

Lemma post_moves h s : moves (EvPost h) s (post_remote h s).
Proof.
  split; [done|]. split; [intros o; right; right; split_and!; [apply not_elem_of_nil..|done]|].
  unfold to_resume. cbn. by rewrite !app_nil_r, app_assoc.
Qed.

Lemma resume_moves os h rest s :
  final s = ∅ → pc s = LReady → ready_ s = h :: rest →
  pc (resume entries sqpoll h rest (ring_awaits os) s) ≠ LUB →
  moves (EvResume (ring_awaits os)) s (resume entries sqpoll h rest (ring_awaits os) s).
Proof.
  intros Hf Hp Hr Hub. unfold resume in *. cbn [final] in *.
  rewrite decide_False in Hub |- * by set_solver.
  apply user_moves; [|exact Hub| |done|done|].
  - right. exists h. split_and!; try done. unfold resumed. by rewrite Hp, Hr.
  - unfold started. rewrite Hp, Hr, decide_False by set_solver. apply awaited_ring.
  - intros [(Hbad & _) _]. cbn in Hbad. rewrite Hr in Hbad. exfalso.
    apply (f_equal length) in Hbad. cbn in Hbad. lia.
Qed.

Lemma cqe_moves os c i n s :
  sound s → pc s = LCq i n → (i < n)%nat → cq (ring_ s) !! i = Some c →
  pc (on_complete entries sqpoll c (ring_awaits os) (LCq (S i) n) s) ≠ LUB →
  moves (EvCqe (ring_awaits os)) s (on_complete entries sqpoll c (ring_awaits os) (LCq (S i) n) s).
Proof.
  intros [Hf Hobj] Hp Hin Hc Hub.
  assert (Hlt : (i <? n)%nat = true) by by apply Nat.ltb_lt.
  assert (Hd : dispatched (EvCqe (ring_awaits os)) s = Some c).
  { unfold dispatched. by rewrite Hp, Hlt. }
  assert (Hst : started (EvCqe (ring_awaits os)) s =
    match user_data c with STimer => if res c <? 0 then [] else os | _ => [] end).
  { unfold started. rewrite Hd, Hp, awaited_ring. done. }
  assert (Hco : completed (EvCqe (ring_awaits os)) s = option_list (op_of (user_data c))).
  { unfold completed. by rewrite Hd. }
  unfold on_complete in *. destruct (user_data c) as [| | |o] eqn:Hu.
  - by apply same_moves.
  - apply same_moves; try done. apply rearm_watch_same.
  - destruct (res c <? 0) eqn:Hneg.
    + apply same_moves; try done. apply rearm_timer_same.
    + destruct (acts entries sqpoll (ring_awaits os) s) as [s1|] eqn:Ha; [|done].
      destruct (ring_acts os s s1 Ha) as [(Hr & Hh & Hf1) Hops].
      destruct (rearm_timer_same s1) as [(Hr' & Hh' & Hf') Hops'].
      split; [cbn; congruence|]. split.
      * intros o. rewrite Hst, Hco. cbn [Scheduler.ops set_pc]. rewrite Hops'.
        destruct (Hops o) as [?|[? ->]]; [by left|]. right; right.
        split_and!; [done|apply not_elem_of_nil|done].
      * rewrite Hco. unfold to_resume. cbn. by rewrite Hr', Hh', Hr, Hh, !app_nil_r.
  - destruct (Hobj o) as (r & f & Ho).
    { unfold outstanding. rewrite Hp. cbn [cursor]. rewrite (dispatch_way i s c Hc), Hu.
      apply elem_of_app. right. by left. }
    unfold complete_op. rewrite Ho. cbn [op_handle_ final set_ops].
    rewrite decide_False by set_solver. split; [done|]. split.
    + intros o'. rewrite Hst, Hco. cbn [Scheduler.ops push_ready set_ops set_pc].
      destruct (decide (o = o')) as [->|Hne].
      * right; left. exists c. by rewrite lookup_insert_eq.
      * right; right. rewrite lookup_insert_ne by done. split_and!; [apply not_elem_of_nil| |done].
        intros Hin'%list_elem_of_singleton. done.
    + rewrite Hco. unfold to_resume. cbn. rewrite !app_nil_r, <-!app_assoc.
      apply Permutation_app_head, Permutation_app_comm.
Qed.

Lemma moves_step e s s' :
  sound s → own_actions e → exec entries sqpoll e s = Some s' → pc s' ≠ LUB → moves e s s'.
Proof.
  intros Hs Hown Hex Hub. destruct (quiet e) eqn:Hq.
  { destruct (quiet_nothing e s Hq) as (? & ? & ? & ?). apply same_moves; try done.
    by apply (quiet_step e). }
  destruct e; try done; cbn [exec] in Hex.
  - injection Hex as <-. apply post_moves.
  - destruct (pc s) eqn:Hp; try done. injection Hex as <-. destruct (stopping_ (cross_ s)).
    + by apply same_moves.
    + apply drain_moves; [apply Hs|done].
  - destruct Hown as [os ->]. destruct (pc s) as [| |[|t ts]| | | | | | | |] eqn:Hp; try done.
    injection Hex as <-. apply user_moves; try done; [by left|].
    unfold started. rewrite Hp. apply awaited_ring.
  - destruct Hown as [os ->]. destruct (pc s) eqn:Hp; try done.
    destruct (ready_ s) as [|h rest] eqn:Hr; [done|]. injection Hex as <-.
    apply resume_moves; try done. apply Hs.
  - destruct Hown as [os ->]. destruct (pc s) as [| | | | | | |i n| | |] eqn:Hp; try done.
    destruct (Nat.ltb_spec i n) as [Hlt|]; [|done]. apply bind_Some in Hex as (c & Hc & [= <-]).
    by apply cqe_moves.
Qed.

(** The handles are accounted for step by step. *)
Lemma tracked_step e s s' :
  inv s → sound s → own_actions e → exec entries sqpoll e s = Some s' → pc s' ≠ LUB →
  sound s' ∧ tracked s' ++ resumed e s ≡ₚ tracked s ++ started e s ++ posted e.
Proof.
  intros Hs Hsound Hown Hex Hub.
  destruct (moves_step e s s' Hsound Hown Hex Hub) as (Hf & Hobj & Hmv).
  pose proof (step_ledger entries sqpoll e s s' Hs Hex Hub) as Hled. split.
  - split; [rewrite Hf; apply Hsound|]. intros o Ho.
    destruct (Hobj o) as [[_ ->]|[(c & _ & _ & ->)|(Hst & _ & ->)]]; [by eexists _, _..|].
    apply Hsound. assert (Hin : o ∈ outstanding s ++ started e s).
    { rewrite <-Hled. apply elem_of_app. by left. }
    apply elem_of_app in Hin as [?|?]; done.
  - unfold tracked. permutation_lia.
Qed.
End ring.

(** ** Operations that coroutines start *)

Section user_code.
Context {L V X Op R : Type} `{!Promise V X R} (next : L → Task.action L V X Op).
Implicit Types m : machine L V X Op R.

(** The frames suspended on operations between two states, and the operations. *)
Definition suspended_since m m' : list (nat * Op) :=
  zip (drop (length (pending m)) (pending m')) (drop (length (Task.ops m)) (Task.ops m')).

(** A step of user code, or a call of [spawn]. *)
Definition own_event (e : Task.event L) : bool :=
  match e with EvComplete _ _ => false | _ => true end.

(** User code called by the loop: it runs until control is back in the loop, the
    process aborts or behaviour is undefined. *)
Definition user_code (us : list (Task.event L)) m : option (machine L V X Op R * list (nat * Op)) :=
  if forallb own_event us then
    m' ← Task.run next us m;
    match control m' with Exec _ _ => None | _ => Some (m', suspended_since m m') end
  else None.

Definition grows m m' : Prop :=
  ∃ l : list (nat * Op), pending m' = pending m ++ l.*1 ∧ Task.ops m' = Task.ops m ++ l.*2.

#[export] Instance grows_preorder : PreOrder grows.
Proof.
  split.
  - intros m. exists []. by rewrite !app_nil_r.
  - intros m1 m2 m3 (l1 & Hp1 & Ho1) (l2 & Hp2 & Ho2). exists (l1 ++ l2).
    by rewrite !fmap_app, !app_assoc, <-Hp1, <-Ho1.
Qed.

Definition same_pending m m' : Prop := pending m' = pending m ∧ Task.ops m' = Task.ops m.
Lemma same_grows m m' : same_pending m m' → grows m m'.
Proof. intros [Hp Ho]. exists []. by rewrite !app_nil_r. Qed.
#[export] Instance same_pending_preorder : PreOrder same_pending.
Proof. split; [done|]. intros m1 m2 m3 [? ?] [? ?]. split; congruence. Qed.

Lemma destroy_same t m : same_pending m (destroy_frame t m).
Proof. unfold destroy_frame. by destruct (frames m !! t) as [[[] ? ?|]|]. Qed.
Lemma returns_same m : same_pending m (resume_returns m).
Proof. unfold resume_returns. by destruct (spawners m) as [|[? ?] ?]. Qed.
Lemma await_same t c m : same_pending m (await_suspend t c m).
Proof. unfold await_suspend. by destruct (frames m !! t) as [[[] ? ?|]|]. Qed.

Lemma awaiting_same c m : same_pending m (resume_awaiting c m).
Proof.
  unfold resume_awaiting. destruct (frames m !! c) as [[[| |t k| |] r cont|t]|]; try done;
    destruct (await_resume (Some t) m) as [[v|x]|]; try done.
  - exact (destroy_same t m).
  - exact (destroy_same t m).
  - etrans; [apply (destroy_same t m)|].
    exact (returns_same (set_frames (delete c (frames (destroy_frame t m))) (destroy_frame t m))).
Qed.

Lemma finish_same id v m : same_pending m (finish id v m).
Proof.
  unfold finish. destruct (frames m !! id) as [[st r [c|]|]|]; try done.
  - exact (awaiting_same c (store_frame id (TaskFrame Final v (Some c)) m)).
  - exact (returns_same (store_frame id (TaskFrame Final v None) m)).
Qed.

Lemma spawn_same l m : same_pending m (spawn l m).
Proof.
  unfold spawn, call_coroutine, co_await_task.
  match goal with |- same_pending _ (await_suspend ?t ?c ?x) => exact (await_same t c x) end.
Qed.

Lemma step_grows m m' : Task.step next m = Some m' → grows m m'.
Proof.
  unfold Task.step. destruct (control m) as [|id l| |]; try done. intros [= <-].
  destruct (frames m !! id) as [[st r cont|t]|]; [|by apply same_grows..].
  destruct (next l) as [v|x|l' k|l1 l2|l1 l2|op k|op l']; try (apply same_grows; apply finish_same).
  - unfold call_coroutine.
    match goal with |- grows _ (if ?b then _ else _) => destruct b end.
    + apply same_grows.
      match goal with |- same_pending _ (match ?r with _ => _ end) => destruct r end; [|done].
      match goal with |- same_pending _ (jump _ (destroy_frame ?t ?x)) => exact (destroy_same t x) end.
    + apply same_grows. unfold co_await_task.
      match goal with |- same_pending _ (await_suspend ?t ?c ?x) => exact (await_same t c x) end.
  - apply same_grows. unfold call_coroutine.
    match goal with |- same_pending _ (jump _ (destroy_frame ?t ?x)) => exact (destroy_same t x) end.
  - apply same_grows.
    match goal with |- same_pending _ (spawn ?l ?x) => exact (spawn_same l x) end.
  - match goal with |- grows _ (resume_returns ?x) => destruct (returns_same x) as [Hp Ho] end.
    exists [(id, op)]. rewrite Hp, Ho. done.
  - by apply same_grows.
Qed.

Lemma exec_grows e m m' : own_event e = true → Task.exec next e m = Some m' → grows m m'.
Proof.
  destruct e as [|l|i r]; [|..|done]; cbn [Task.exec]; intros _; [by apply step_grows|].
  destruct (control m); try done. intros [= <-]. apply same_grows, spawn_same.
Qed.

Lemma run_grows us m m' :
  forallb own_event us = true → Task.run next us m = Some m' → grows m m'.
Proof.
  revert m. induction us as [|e us IH]; intros m; cbn.
  { by intros _ [= <-]. }
  intros [He Hus]%andb_prop (m1 & Hm1 & Hrun)%bind_Some.
  etrans; [by eapply exec_grows|by eapply IH].
Qed.

Lemma user_code_grows us m m' l :
  user_code us m = Some (m', l) →
  Task.run next us m = Some m' ∧ (∀ id x, control m' ≠ Exec id x) ∧
  pending m' = pending m ++ l.*1 ∧ Task.ops m' = Task.ops m ++ l.*2.
Proof.
  unfold user_code. destruct (forallb own_event us) eqn:Hown; [|done].
  intros (m1 & Hrun & Hm1)%bind_Some.
  destruct (run_grows us m m1 Hown Hrun) as (l' & Hp & Ho).
  assert (Hl : suspended_since m m1 = l').
  { unfold suspended_since. rewrite Hp, Ho, !drop_app_length. apply zip_fst_snd. }
  destruct (control m1) eqn:Hc; try done; injection Hm1 as <- <-; rewrite Hl, Hc; done.
Qed.

(** *** What is suspended *)

Lemma leaves_sublist (ths : list thread) : (leaf (L:=L) (V:=V) (X:=X) (Op:=Op) <$> ths) `sublist_of`
    (ths ≫= waiting_frames (R:=R)).*1.
Proof.
  induction ths as [|th ths IH]; [done|]. cbn. constructor. rewrite fmap_app.
  etrans; [exact IH|]. apply sublist_inserts_l. done.
Qed.

(** Every coroutine that the machine waits for is a frame alive, suspended on its
    operation, and waited for once. *)
Lemma pending_suspended m s :
  related m s → control m = Loop →
  NoDup (pending m) ∧
  ∀ id, id ∈ pending m → ∃ op k cont, frames m !! id = Some (TaskFrame (OnIo op k) no_result cont).
Proof.
  intros Hr Hloop. destruct (related_loop _ _ Hr Hloop) as (ths & (_ & _ & _ & _ & Hp & _) & Hnd & Hh).
  unfold others in Hnd, Hh. cbn [app mbind list_bind] in Hnd, Hh. rewrite Hp. split.
  - eapply sublist_NoDup; [done|apply leaves_sublist].
  - intros id (th & -> & Hth)%list_elem_of_fmap. exists (io th).1, (io th).2, (Some (parent (callers_ th) (shim_ th))).
    rewrite Hh. apply lookup_entry; [done|]. apply list_elem_of_bind. exists th. split; [|done]. by left.
Qed.

(** In the loop nothing is inside a call of [spawn], and what waits in the specification
    is such a frame. *)
Lemma waiting_suspended m s op k st :
  related m s → control m = Loop → (op, k, st) ∈ c_waiting s →
  ∃ id cont, id ∈ pending m ∧ frames m !! id = Some (TaskFrame (OnIo op k) no_result cont).
Proof.
  intros Hr Hloop. destruct (related_loop _ _ Hr Hloop) as (ths & (_ & _ & _ & _ & Hp & Hw) & Hnd & Hh).
  unfold others in Hnd, Hh. cbn [app mbind list_bind] in Hnd, Hh. rewrite Hp, Hw.
  intros (th & Heq & Hth)%list_elem_of_fmap. destruct th as [id io cl sh].
  injection Heq as Hio ->. subst io.
  exists id, (Some (parent cl sh)). split; [by apply list_elem_of_fmap_2 with (f := leaf) in Hth|].
  rewrite Hh. apply lookup_entry; [done|]. apply list_elem_of_bind. eexists. split; [|done]. by left.
Qed.
Lemma no_spawners m s : related m s → control m = Loop → c_spawners s = [] ∧ c_control s = CLoop.
Proof.
  intros Hr Hloop. destruct (related_loop _ _ Hr Hloop) as (ths & (_ & _ & _ & Hcs & _) & _).
  split; [done|]. destruct (related_control _ _ Hr) as [[_ ?]|[(? & ? & ? & ? & _)|[? _]]]; congruence.
Qed.
End user_code.

(** ** A worker *)

Section worker.
Context {L V X Op R : Type} `{!Promise V X R} (next : L → Task.action L V X Op).
(** The operations whose awaiting coroutine another thread resumes by [post]; the
    others are submitted to the ring. *)
Context (remote : Op → bool).
Context (entries : nat) (sqpoll : bool).

Record worker := mkWorker {
  sched : Scheduler;
  mach : machine L V X Op R;
  away : list nat;            (* the coroutines that another thread is to resume *)
  values : gmap nat Z;        (* what other threads stored for the coroutines they posted *)
  (* history *)
  answered : list (nat * Z);  (* results: completions dispatched and handles posted *)
  delivered : list (nat * Z); (* results that a coroutine was resumed with *)
  booted : list L;            (* what tasks and callbacks spawned *)
}.

Definition new_worker : worker := mkWorker new_scheduler empty_machine [] ∅ [] [] [].

Definition ring_ids (l : list (nat * Op)) : list nat :=
  omap (λ p, if remote p.2 then None else Some p.1) l.
Definition away_ids (l : list (nat * Op)) : list nat :=
  omap (λ p, if remote p.2 then Some p.1 else None) l.

(** [await_resume] of the operation that coroutine [h] awaits: what another thread
    stored, or [result_]. *)
Definition value (w : worker) (h : nat) : Z :=
  match values w !! h with
  | Some r => r
  | None => from_option result_ 0 (Scheduler.ops (sched w) !! h)
  end.

(** User code that the loop calls in the event [e], from the frames [m]. *)
Definition call_user (e : list action → event) (us : list (Task.event L))
    (m : machine L V X Op R) (w : worker) : option worker :=
  '(m', l) ← user_code next us m;
  s ← exec entries sqpoll (e (ring_awaits (ring_ids l))) (sched w);
  Some (mkWorker s m' (away w ++ away_ids l) (values w) (answered w) (delivered w)
    (booted w ++ omap spawned_of us)).

(** [h.resume()]: of a frame that is no longer there it is undefined. *)
Definition resume_frame (h : nat) (r : Z) (m : machine L V X Op R) : machine L V X Op R :=
  match list_find (h =.) (pending m) with
  | Some (i, _) => default (jump Stuck m) (complete i r m)
  | None => jump Stuck m
  end.

(** Events of the loop, the kernel and other threads in which no user code runs. *)
Definition plain (e : event) : bool :=
  match e with EvPost _ | EvTask _ | EvResume _ | EvCqe _ => false | _ => true end.

(** The timerfd read succeeded: the callbacks of [TimerQueue] run. *)
Definition fires (c : cqe) : bool :=
  match user_data c with STimer => negb (res c <? 0) | _ => false end.

Inductive worker_event : Type :=
  | WSched (e : event)
  | WPost (i : nat) (r : Z)           (* another thread ends the wait of [away !! i] *)
  | WTask (us : list (Task.event L))
  | WResume (us : list (Task.event L))
  | WCqe (us : list (Task.event L)).

(** The process is alive, and its behaviour defined. *)
Definition alive (w : worker) : bool :=
  match control (mach w), pc (sched w) with
  | Loop, LUB => false
  | Loop, _ => true
  | _, _ => false
  end.

Definition worker_exec (e : worker_event) (w : worker) : option worker :=
  if negb (alive w) then None else
  match e with
  | WSched e =>
      if plain e then
        s ← exec entries sqpoll e (sched w);
        Some (mkWorker s (mach w) (away w) (values w) (answered w) (delivered w) (booted w))
      else None
  | WPost i r =>
      h ← away w !! i;
      s ← exec entries sqpoll (EvPost h) (sched w);
      Some (mkWorker s (mach w) (delete i (away w)) (<[h := r]> (values w))
        (answered w ++ [(h, r)]) (delivered w) (booted w))
  | WTask us => call_user EvTask us (mach w) w
  | WResume us =>
      match ready_ (sched w) with
      | [] => None
      | h :: _ =>
          let r := value w h in
          w' ← call_user EvResume us (resume_frame h r (mach w)) w;
          Some (mkWorker (sched w') (mach w') (away w') (delete h (values w'))
            (answered w') (delivered w' ++ [(h, r)]) (booted w'))
      end
  | WCqe us =>
      c ← dispatched (EvCqe []) (sched w);
      if fires c then call_user EvCqe us (mach w) w else
      s ← exec entries sqpoll (EvCqe []) (sched w);
      Some (mkWorker s (mach w) (away w) (values w)
        (answered w ++ match user_data c with SOp o => [(o, res c)] | _ => [] end) (delivered w)
        (booted w))
  end.

Fixpoint worker_run (es : list worker_event) (w : worker) : option worker :=
  match es with
  | [] => Some w
  | e :: es => w ← worker_exec e w; worker_run es w
  end.

(** *** Invariant *)

Definition with_value w h : nat * Z := (h, value w h).

(** What is true between two events while the process is alive. *)
Record accounted w : Prop := {
  k_sound : sound (sched w);
  k_pending : pending (mach w) ≡ₚ tracked (sched w) ++ away w;
  k_answers : answered w ≡ₚ delivered w ++ (with_value w <$> to_resume (sched w));
  k_values h : is_Some (values w !! h) → h ∈ to_resume (sched w);
}.

Definition result_of (e : Task.event L) : option Z :=
  match e with EvComplete _ r => Some r | _ => None end.

Record worker_inv w : Prop := {
  w_sched : inv (sched w);
  w_frames : ∃ ts, Task.run next ts empty_machine = Some (mach w) ∧
    omap result_of ts = (delivered w).*2 ∧ omap spawned_of ts = booted w;
  w_accounted : alive w = true → accounted w;
}.

Lemma alive_spec w : alive w = true ↔ control (mach w) = Loop ∧ pc (sched w) ≠ LUB.
Proof. unfold alive. destruct (control (mach w)), (pc (sched w)); naive_solver. Qed.

Lemma task_run_app ts1 ts2 (m : machine L V X Op R) :
  Task.run next (ts1 ++ ts2) m = (m ← Task.run next ts1 m; Task.run next ts2 m).
Proof.
  revert m. induction ts1 as [|e ts1 IH]; intros m; [done|]. cbn.
  destruct (Task.exec next e m); [apply IH|done].
Qed.

Lemma task_run_related ts (m : machine L V X Op R) :
  Task.run next ts empty_machine = Some m → ∃ c, c_run next ts no_calls = Some c ∧ related m c.
Proof.
  intros Hrun. pose proof (related_run next ts _ _ related_empty) as Hr. rewrite Hrun in Hr.
  destruct (c_run next ts no_calls) as [c|]; [by exists c|done].
Qed.

Lemma own_no_results (us : list (Task.event L)) : forallb own_event us = true → omap result_of us = [].
Proof. induction us as [|[] us IH]; cbn; naive_solver. Qed.

Lemma ids_split (l : list (nat * Op)) : l.*1 ≡ₚ ring_ids l ++ away_ids l.
Proof.
  induction l as [|[id op] l IH]; [done|]. cbn. destruct (remote op); cbn.
  - by rewrite IH, Permutation_middle.
  - by rewrite IH.
Qed.

(** Results handed over: [del] are resumed, [ans] are new, [K] still wait. *)
Lemma answers_step w w' K ans del :
  answered w ≡ₚ delivered w ++ (with_value w <$> to_resume (sched w)) →
  to_resume (sched w) ≡ₚ del ++ K → to_resume (sched w') ≡ₚ K ++ ans.*1 →
  answered w' = answered w ++ ans → delivered w' = delivered w ++ (with_value w <$> del) →
  (∀ h, h ∈ K → value w' h = value w h) → (∀ h r, (h, r) ∈ ans → value w' h = r) →
  answered w' ≡ₚ delivered w' ++ (with_value w' <$> to_resume (sched w')).
Proof.
  intros Hw Hdel Hans -> -> HK Hr.
  rewrite (fmap_Permutation (with_value w) _ _ Hdel), fmap_app in Hw.
  rewrite (fmap_Permutation (with_value w') _ _ Hans), fmap_app, Hw.
  assert (with_value w' <$> K = with_value w <$> K) as ->.
  { apply list_fmap_ext. intros i h Hh. unfold with_value. f_equal. apply HK.
    by eapply list_elem_of_lookup_2. }
  assert (with_value w' <$> ans.*1 = ans) as ->.
  { rewrite <-list_fmap_compose. etrans; [|apply list_fmap_id].
    apply list_fmap_ext. intros i [h r] Hin. unfold with_value. cbn. f_equal. apply Hr.
    by eapply list_elem_of_lookup_2. }
  by rewrite <-!app_assoc.
Qed.

(** *** Steps *)

Lemma machine_nodup w : worker_inv w → alive w = true → NoDup (pending (mach w)).
Proof.
  intros [_ (ts & Hrun & _) _] [Hloop _]%alive_spec.
  destruct (task_run_related _ _ Hrun) as (c & _ & Hr). by eapply pending_suspended.
Qed.

Lemma value_unchanged e w w' h :
  moves e (sched w) (sched w') → values w' !! h = values w !! h →
  h ∉ started e (sched w) → h ∉ completed e (sched w) → value w' h = value w h.
Proof.
  intros (_ & Hobj & _) Hv Hst Hco. unfold value. rewrite Hv.
  destruct (Hobj h) as [[? _]|[(c & Hd & Hu & _)|(_ & _ & ->)]]; [done| |done].
  exfalso. apply Hco. unfold completed. rewrite Hd, Hu. by left.
Qed.

(** An event in which the loop calls user code, resuming the coroutines [del]. *)
Definition user_event (e : list action → event) (del : list nat) (s : Scheduler) : Prop :=
  ∀ os, own_actions (e (ring_awaits os)) ∧ started (e (ring_awaits os)) s = os ∧
    completed (e (ring_awaits os)) s = [] ∧ resumed (e (ring_awaits os)) s = del ∧
    posted (e (ring_awaits os)) = [].

Lemma call_user_ok e us m1 ts1 del vals w w' :
  worker_inv w → alive w = true → user_event e del (sched w) →
  Task.run next ts1 (mach w) = Some m1 → omap result_of ts1 = value w <$> del → omap spawned_of ts1 = [] →
  pending m1 ++ del ≡ₚ pending (mach w) →
  (∀ h, vals !! h = if decide (h ∈ del) then None else values w !! h) →
  call_user e us m1 w = Some w' →
  worker_inv (mkWorker (sched w') (mach w') (away w') vals (answered w')
    (delivered w ++ (with_value w <$> del)) (booted w')).
Proof.
  intros Hw Halive He Hts1 Hres Hsp1 Hm1 Hvals Hcall. unfold call_user in Hcall.
  apply bind_Some in Hcall as ([m' l] & Huser & Hcall).
  apply bind_Some in Hcall as (s' & Hex & [= <-]). cbn [sched mach away answered booted].
  pose proof (user_code_grows next us m1 m' l Huser) as (Hrun & _ & Hp & _).
  assert (Hown : forallb own_event us = true).
  { unfold user_code in Huser. by destruct (forallb own_event us). }
  destruct (He (ring_ids l)) as (Ha & Hst & Hco & Hre & Hpo).
  assert (Hts : ∃ ts, Task.run next ts empty_machine = Some m' ∧
    omap result_of ts = (delivered w ++ (with_value w <$> del)).*2 ∧
    omap spawned_of ts = booted w ++ omap spawned_of us).
  { destruct (w_frames w Hw) as (ts & Hts & Hd & Hsp). exists (ts ++ ts1 ++ us).
    rewrite task_run_app, Hts. cbn. rewrite task_run_app, Hts1. cbn. split; [exact Hrun|].
    rewrite !omap_app, Hd, Hres, Hsp, Hsp1, (own_no_results us Hown), app_nil_r, fmap_app.
    by rewrite <-list_fmap_compose. }
  split; [by eapply exec_inv, Hex; apply Hw|exact Hts|]. intros Halive'. apply alive_spec in Halive' as [Hloop Hub].
  cbn in Hloop, Hub. destruct (w_accounted w Hw Halive) as [Hso Hpe Han Hva].
  pose proof (moves_step entries sqpoll _ _ _ Hso Ha Hex Hub) as Hmv.
  destruct (tracked_step entries sqpoll _ _ _ (w_sched w Hw) Hso Ha Hex Hub) as [Hso' Htr].
  rewrite Hre, Hst, Hpo, app_nil_r in Htr. pose proof Hmv as (_ & _ & Hto).
  rewrite Hre, Hco, Hpo, !app_nil_r in Hto. pose proof (ids_split l) as Hids.
  destruct Hts as (ts & Hts & _). destruct (task_run_related _ _ Hts) as (c & _ & Hrel).
  destruct (pending_suspended _ _ Hrel Hloop) as [Hnd _]. rewrite Hp in Hnd.
  apply NoDup_app in Hnd as (Hnd1 & Hdis & _).
  pose proof (machine_nodup w Hw Halive) as Hnd. rewrite <-Hm1 in Hnd.
  apply NoDup_app in Hnd as (_ & Hdel & _). unfold tracked in *.
  assert (HK : ∀ h, h ∈ to_resume s' → h ∈ pending m1).
  { assert (Hperm : pending m1 ≡ₚ outstanding (sched w) ++ to_resume s' ++ away w) by permutation_lia.
    intros h Hh. rewrite Hperm. set_solver. }
  split; cbn.
  - done.
  - rewrite Hp. unfold tracked. permutation_lia.
  - refine (answers_step w (mkWorker s' m' (away w ++ away_ids l) vals (answered w)
      (delivered w ++ (with_value w <$> del)) (booted w ++ omap spawned_of us)) (to_resume s') [] del Han _ _ _ eq_refl _ _);
      cbn; rewrite ?app_nil_r; try done; [permutation_lia| |by intros ? ? ?%not_elem_of_nil].
    intros h Hh. apply (value_unchanged (e (ring_awaits (ring_ids l)))); [exact Hmv|..]; cbn.
    + rewrite Hvals, decide_False; [done|]. intros Hin. by apply (Hdel h (HK h Hh)).
    + rewrite Hst. intros Hin. apply (Hdis h (HK h Hh)). rewrite Hids. set_solver.
    + rewrite Hco. apply not_elem_of_nil.
  - intros h. rewrite Hvals. case_decide as Hin; [by intros []|]. intros Hh%Hva.
    rewrite <-Hto in Hh. set_solver.
Qed.

Lemma user_task s t ts : pc s = LTasks (t :: ts) → user_event EvTask [] s.
Proof.
  intros Hp os. split; [by exists os|]. unfold started, completed, dispatched, resumed.
  rewrite Hp. by rewrite awaited_ring.
Qed.

Lemma user_resume s h rest :
  final s = ∅ → pc s = LReady → ready_ s = h :: rest → user_event EvResume [h] s.
Proof.
  intros Hf Hp Hr os. split; [by exists os|]. unfold started, completed, dispatched, resumed.
  rewrite Hp, Hr, decide_False by set_solver. by rewrite awaited_ring.
Qed.

Lemma dispatched_cqe l l' s : dispatched (EvCqe l) s = dispatched (EvCqe l') s.
Proof. done. Qed.

Lemma dispatched_at l s c : dispatched (EvCqe l) s = Some c → ∃ i n, pc s = LCq i n.
Proof. unfold dispatched. destruct (pc s); try done. by eexists _, _. Qed.

Lemma user_cqe s c : dispatched (EvCqe []) s = Some c → fires c = true → user_event EvCqe [] s.
Proof.
  intros Hd Hfire os. split; [by exists os|]. destruct (dispatched_at _ _ _ Hd) as (i & n & Hp).
  unfold started, completed, resumed. rewrite (dispatched_cqe _ [] s), Hd, Hp, awaited_ring.
  unfold fires in Hfire. destruct (user_data c); try done. by destruct (res c <? 0).
Qed.

(** Resuming a coroutine that waits: it runs, with the result. *)
Lemma resume_frame_ok h r ts (m : machine L V X Op R) :
  Task.run next ts empty_machine = Some m → control m = Loop → h ∈ pending m →
  ∃ i op k cont, frames m !! h = Some (TaskFrame (OnIo op k) no_result cont) ∧
    Task.exec next (EvComplete i r) m = Some (resume_frame h r m) ∧
    control (resume_frame h r m) = Exec h (k r) ∧ pending (resume_frame h r m) ++ [h] ≡ₚ pending m.
Proof.
  intros Hrun Hloop Hin. destruct (task_run_related _ _ Hrun) as (c & _ & Hrel).
  destruct (pending_suspended _ _ Hrel Hloop) as [_ Hsus].
  destruct (Hsus h Hin) as (op & k & cont & Hfr). unfold resume_frame.
  destruct (list_find_elem_of (h =.) (pending m) h Hin eq_refl) as ([i y] & Hfind).
  rewrite Hfind. apply list_find_Some in Hfind as (Hi & <- & _).
  exists i, op, k, cont. split; [done|]. unfold Task.exec, complete. rewrite Hloop, Hi. cbn.
  rewrite Hfr. cbn. split_and!; [done..|]. rewrite (delete_Permutation _ i h Hi) at 2.
  by rewrite <-Permutation_cons_append.
Qed.

(** Events without user code. *)
Lemma plain_step e w s ans aw vals :
  worker_inv w → alive w = true → own_actions e → started e (sched w) = [] → resumed e (sched w) = [] →
  exec entries sqpoll e (sched w) = Some s →
  aw ++ posted e ≡ₚ away w → ans.*1 = completed e (sched w) ++ posted e →
  (∀ h, h ∉ ans.*1 → vals !! h = values w !! h) →
  (∀ h r, (h, r) ∈ ans → (h ∈ posted e ∧ vals !! h = Some r) ∨
    (vals !! h = values w !! h ∧ ∃ c, dispatched e (sched w) = Some c ∧ user_data c = SOp h ∧ res c = r)) →
  worker_inv (mkWorker s (mach w) aw vals (answered w ++ ans) (delivered w) (booted w)).
Proof.
  intros Hw Halive Hown Hst Hre Hex Haw Hans Hvals Hnew.
  split; [by eapply exec_inv, Hex; apply Hw|apply Hw|]. intros [Hloop Hub]%alive_spec.
  cbn in Hloop, Hub. destruct (w_accounted w Hw Halive) as [Hso Hpe Han Hva].
  pose proof (moves_step entries sqpoll _ _ _ Hso Hown Hex Hub) as Hmv.
  destruct (tracked_step entries sqpoll _ _ _ (w_sched w Hw) Hso Hown Hex Hub) as [Hso' Htr].
  rewrite Hre, Hst, app_nil_r in Htr. pose proof Hmv as (_ & Hobj & Hto). rewrite Hre, app_nil_r in Hto.
  pose proof (machine_nodup w Hw Halive) as Hnd. rewrite Hpe in Hnd.
  set (w' := mkWorker s (mach w) aw vals (answered w ++ ans) (delivered w) (booted w)).
  assert (Hdisj : ∀ h, h ∈ to_resume (sched w) → h ∉ ans.*1).
  { intros h Hh. rewrite Hans. unfold tracked in Hnd. rewrite <-Haw in Hnd.
    pose proof (step_ledger entries sqpoll _ _ _ (w_sched w Hw) Hex Hub) as Hled.
    rewrite Hst, app_nil_r in Hled. rewrite <-Hled in Hnd.
    rewrite <-!app_assoc in Hnd. apply NoDup_app in Hnd as (_ & _ & Hnd).
    apply NoDup_app in Hnd as (_ & Hd & Hnd). apply NoDup_app in Hnd as (_ & Hd' & _).
    intros [Hc|Hpo]%elem_of_app; [apply (Hd h Hc)|apply (Hd' h Hh)]; set_solver. }
  split; cbn.
  - done.
  - unfold tracked in *. permutation_lia.
  - refine (answers_step w w' (to_resume (sched w)) ans [] Han _ _ eq_refl _ _ _); cbn;
      rewrite ?app_nil_r; try done; [by rewrite Hans|..].
    + intros h Hh. apply (value_unchanged e); [exact Hmv|by apply Hvals, Hdisj|..].
      * rewrite Hst. apply not_elem_of_nil.
      * intros Hc. apply (Hdisj h Hh). rewrite Hans. set_solver.
    + intros h r Hin. destruct (Hnew h r Hin) as [[_ Hv]|(Hv & c & Hd & Hu & <-)]; unfold value; cbn [values w' sched].
      * by rewrite Hv.
      * rewrite Hv. destruct (values w !! h) eqn:Hv'.
        { exfalso. apply (Hdisj h); [by apply Hva|]. apply list_elem_of_fmap. by exists (h, res c). }
        destruct (Hobj h) as [[Hbad _]|[(c' & Hd' & _ & ->)|(_ & Hbad & _)]].
        -- rewrite Hst in Hbad. by apply not_elem_of_nil in Hbad.
        -- rewrite Hd in Hd'. by injection Hd' as ->.
        -- exfalso. apply Hbad. unfold completed. rewrite Hd, Hu. by left.
  - intros h Hh. rewrite Hto, <-Hans. destruct (decide (h ∈ ans.*1)) as [Hin|Hin]; [set_solver|].
    rewrite (Hvals h Hin) in Hh. apply Hva in Hh. set_solver.
Qed.

Lemma call_user_kept e us m w w' :
  call_user e us m w = Some w' →
  values w' = values w ∧ answered w' = answered w ∧ delivered w' = delivered w.
Proof.
  unfold call_user. intros ([m' l] & _ & (s & _ & [= <-])%bind_Some)%bind_Some. done.
Qed.

(** Tasks and timer callbacks resume nothing themselves. *)
Lemma call_user_inv e us w w' :
  worker_inv w → alive w = true → user_event e [] (sched w) →
  call_user e us (mach w) w = Some w' → worker_inv w'.
Proof.
  intros Hw Halive He Hcall. destruct (call_user_kept _ _ _ _ _ Hcall) as (Hv & _ & Hd).
  pose proof (call_user_ok e us (mach w) [] [] (values w) w w' Hw Halive He eq_refl eq_refl eq_refl
    ltac:(by rewrite app_nil_r) ltac:(done) Hcall) as Hok.
  cbn in Hok. rewrite app_nil_r, <-Hv, <-Hd in Hok. by destruct w'.
Qed.

Lemma worker_resume_inv us h rest w w' :
  worker_inv w → alive w = true → pc (sched w) = LReady → ready_ (sched w) = h :: rest →
  call_user EvResume us (resume_frame h (value w h) (mach w)) w = Some w' →
  worker_inv (mkWorker (sched w') (mach w') (away w') (delete h (values w')) (answered w')
    (delivered w' ++ [with_value w h]) (booted w')).
Proof.
  intros Hw Halive Hp Hr Hcall. destruct (call_user_kept _ _ _ _ _ Hcall) as (Hv & _ & Hd).
  destruct (w_accounted w Hw Halive) as [[Hf _] Hpe _ _]. pose proof Halive as [Hloop _]%alive_spec.
  destruct (w_frames w Hw) as (ts & Hts & _).
  destruct (resume_frame_ok h (value w h) ts (mach w) Hts Hloop) as (i & op & k & cont & _ & Hex & _ & Hpend).
  { rewrite Hpe. unfold tracked, to_resume. rewrite Hr. set_solver. }
  pose proof (call_user_ok EvResume us (resume_frame h (value w h) (mach w)) [EvComplete i (value w h)] [h] (delete h (values w)) w w'
    Hw Halive (user_resume _ _ _ Hf Hp Hr)) as Hok.
  rewrite Hv, Hd. apply Hok; try done.
  - cbn [Task.run]. by rewrite Hex.
  - intros h'. destruct (decide (h' ∈ [h])) as [->%list_elem_of_singleton|Hne].
    + apply lookup_delete_eq.
    + rewrite lookup_delete_ne; [done|]. intros ->. apply Hne. by left.
Qed.

Lemma worker_exec_inv e w w' : worker_inv w → worker_exec e w = Some w' → worker_inv w'.
Proof.
  intros Hw Hex. unfold worker_exec in Hex. destruct (alive w) eqn:Halive; [|done].
  cbn [negb] in Hex. destruct e as [e|i r|us|us|us].
  - destruct (plain e) eqn:Hpl; [|done]. apply bind_Some in Hex as (s & Hex & [= <-]).
    rewrite <-(app_nil_r (answered w)).
    apply (plain_step e); try done; try (by destruct e).
    + destruct e; try done; by rewrite app_nil_r.
    + by intros h r ?%not_elem_of_nil.
  - apply bind_Some in Hex as (h & Hi & Hex). apply bind_Some in Hex as (s & Hex & [= <-]).
    apply (plain_step (EvPost h)); try done.
    + cbn. rewrite (delete_Permutation _ i h Hi) at 2. by rewrite <-Permutation_cons_append.
    + intros h' Hne. rewrite lookup_insert_ne; [done|]. intros ->. apply Hne. by left.
    + intros h' r' [= -> ->]%list_elem_of_singleton. left. split; [by left|]. apply lookup_insert_eq.
  - assert (∃ t ts, pc (sched w) = LTasks (t :: ts)) as (t & ts & Hp).
    { apply bind_Some in Hex as ([m' l] & _ & Hex). apply bind_Some in Hex as (s & Hex & _).
      cbn [exec] in Hex. destruct (pc (sched w)) as [| |[|t ts]| | | | | | | |]; try done. by eexists _, _. }
    by apply (call_user_inv EvTask us w w' Hw Halive (user_task _ _ _ Hp)).
  - destruct (ready_ (sched w)) as [|h rest] eqn:Hr; [done|].
    apply bind_Some in Hex as (w1 & Hcall & [= <-]).
    apply (worker_resume_inv us h rest); try done.
    apply bind_Some in Hcall as ([m' l] & _ & Hex). apply bind_Some in Hex as (s & Hex & _).
    cbn [exec] in Hex. by destruct (pc (sched w)).
  - apply bind_Some in Hex as (c & Hd & Hex). destruct (fires c) eqn:Hfire.
    + by apply (call_user_inv EvCqe us w w' Hw Halive (user_cqe _ _ Hd Hfire)).
    + apply bind_Some in Hex as (s & Hex & [= <-]).
      destruct (dispatched_at _ _ _ Hd) as (i & n & Hp).
      apply (plain_step (EvCqe [])); try done.
      * by exists [].
      * unfold started. rewrite Hp. rewrite Hd. destruct (user_data c); try done. by destruct (res c <? 0).
      * by rewrite app_nil_r.
      * unfold completed. rewrite Hd, app_nil_r. by destruct (user_data c).
      * intros h r Hin. right. split; [done|]. exists c. split; [done|].
        destruct (user_data c); try by apply not_elem_of_nil in Hin.
        by apply list_elem_of_singleton in Hin as [= -> ->].
Qed.

Lemma new_worker_inv : worker_inv new_worker.
Proof.
  split; [apply new_scheduler_inv|by exists []|]. intros _. split; cbn; try done.
  - split; [done|]. intros o Ho. by apply not_elem_of_nil in Ho.
  - intros h [? Hh]. by rewrite lookup_empty in Hh.
Qed.

Lemma worker_run_inv es w w' : worker_inv w → worker_run es w = Some w' → worker_inv w'.
Proof.
  revert w. induction es as [|e es IH]; intros w Hw; cbn; [by intros [= <-]|].
  intros (w1 & Hex & Hrun)%bind_Some. eapply IH; [|done]. by eapply worker_exec_inv.
Qed.

(** ** Properties *)

(** C4: Coroutines on the event loop are function calls that are each resumed once
    with the result of what they awaited.  Whatever the bodies of the coroutines, and
    however the loop, the kernel, the timers and other threads interleave, the frames
    of a worker are those of a run of the call-stack specification in which the waits
    end with the results delivered by the loop; no dead frame is resumed; and while
    the process is alive the results dispatched by the loop or posted by other threads
    are those delivered to a coroutine and those of the coroutines in [ready_] and
    [cross_.handles]. *)
Theorem worker_runs_calls (es : list worker_event) w :
  worker_run es new_worker = Some w →
  (∃ ts m c, mach w = m ∧ Task.run next ts empty_machine = Some m ∧ c_run next ts no_calls = Some c ∧
     omap result_of ts = (delivered w).*2 ∧ omap spawned_of ts = booted w ∧ Task.ops m = c_ops c ∧ done_ m = c_done c ∧
     control m ≠ Stuck) ∧
  (alive w = true →
     answered w ≡ₚ delivered w ++ (with_value w <$> to_resume (sched w))).
Proof.
  intros Hrun. pose proof (worker_run_inv es _ _ new_worker_inv Hrun) as Hw. split.
  - destruct (w_frames w Hw) as (ts & Hts & Hd & Hsp). destruct (task_run_related _ _ Hts) as (c & Hc & Hrel).
    exists ts, (mach w), c. split_and!; try done.
    + by destruct Hrel as (? & ? & (? & _) & _).
    + by destruct Hrel as (? & ? & (_ & ? & _) & _).
    + intros Hst. destruct (related_control _ _ Hrel) as [[? _]|[(? & ? & ? & ? & _)|[? _]]]; congruence.
  - intros Halive. apply (w_accounted w Hw Halive).
Qed.

(** C6: No coroutine is lost, resumed twice or resumed after its frame is gone: while
    the process is alive and its behaviour defined, the coroutines that wait are,
    each exactly once, those whose operation is in the ring, those in the queues of
    the loop and those another thread has still to post; each is a frame alive,
    suspended on its operation. *)
Theorem every_waiter_is_tracked (es : list worker_event) w :
  worker_run es new_worker = Some w → alive w = true →
  pending (mach w) ≡ₚ outstanding (sched w) ++ ready_ (sched w) ++ handles (cross_ (sched w)) ++ away w ∧
  NoDup (pending (mach w)) ∧
  ∀ h, h ∈ outstanding (sched w) ++ ready_ (sched w) ++ handles (cross_ (sched w)) ++ away w →
    ∃ op k cont, frames (mach w) !! h = Some (TaskFrame (OnIo op k) no_result cont).
Proof.
  intros Hrun Halive. pose proof (worker_run_inv es _ _ new_worker_inv Hrun) as Hw.
  destruct (w_accounted w Hw Halive) as [_ Hpe _ _]. pose proof Halive as [Hloop _]%alive_spec.
  destruct (w_frames w Hw) as (ts & Hts & _). destruct (task_run_related _ _ Hts) as (c & _ & Hrel).
  destruct (pending_suspended _ _ Hrel Hloop) as [Hnd Hsus].
  assert (Hp : pending (mach w) ≡ₚ
    outstanding (sched w) ++ ready_ (sched w) ++ handles (cross_ (sched w)) ++ away w).
  { rewrite Hpe. unfold tracked, to_resume. by rewrite <-!app_assoc. }
  split_and!; [done..|]. intros h Hh. apply Hsus. by rewrite Hp.
Qed.

(** Nothing leaks on an idle worker: once no operation is in the ring, no
    coroutine is queued and none is awaited from another thread, no coroutine frame is
    left. *)
Theorem idle_worker_has_no_frames (es : list worker_event) w :
  worker_run es new_worker = Some w → alive w = true →
  outstanding (sched w) = [] → ready_ (sched w) = [] → handles (cross_ (sched w)) = [] → away w = [] →
  frames (mach w) = ∅.
Proof.
  intros Hrun Halive Ho Hr Hh Ha. pose proof (worker_run_inv es _ _ new_worker_inv Hrun) as Hw.
  destruct (w_accounted w Hw Halive) as [_ Hpe _ _]. pose proof Halive as [Hloop _]%alive_spec.
  destruct (w_frames w Hw) as (ts & Hts & _). destruct (task_run_related _ _ Hts) as (c & _ & Hrel).
  unfold tracked, to_resume in Hpe. rewrite Ho, Hr, Hh, Ha in Hpe. apply Permutation_nil_r in Hpe.
  by eapply related_idle.
Qed.

(** A coroutine at the head of [ready_] is resumed: it is still there, takes
    control at the point where it awaited and is given the result of its operation. *)
Theorem ready_coroutine_resumes (es : list worker_event) w h rest :
  worker_run es new_worker = Some w → alive w = true → ready_ (sched w) = h :: rest →
  ∃ op k cont, frames (mach w) !! h = Some (TaskFrame (OnIo op k) no_result cont) ∧
    control (resume_frame h (value w h) (mach w)) = Exec h (k (value w h)) ∧
    (h, value w h) ∈ answered w.
Proof.
  intros Hrun Halive Hr. pose proof (worker_run_inv es _ _ new_worker_inv Hrun) as Hw.
  destruct (w_accounted w Hw Halive) as [_ Hpe Han _]. pose proof Halive as [Hloop _]%alive_spec.
  destruct (w_frames w Hw) as (ts & Hts & _).
  assert (Hin : h ∈ to_resume (sched w)) by (unfold to_resume; rewrite Hr; set_solver).
  destruct (resume_frame_ok h (value w h) ts (mach w) Hts Hloop) as (i & op & k & cont & Hfr & _ & Hctl & _).
  { rewrite Hpe. unfold tracked. set_solver. }
  exists op, k, cont. split_and!; [done..|]. rewrite Han. apply elem_of_app. right.
  apply list_elem_of_fmap. by exists h.
Qed.
End worker.

(** ** Witnesses *)

Module Demo.
(** An accept loop that spawns a handler per connection; the handler receives, hands
    its work to a pool thread (operation [true]), and awaits a coroutine that sends. *)
Inductive local :=
  | LAccept | LAccepted (fd : Z) | LHandler (fd : Z) | LReceived (n : Z) | LComputed (n : Z)
  | LSend (n : Z) | LSent (n : Z) | LEnd (r : Z + unit).
Definition body (l : local) : Task.action local Z unit bool :=
  match l with
  | LAccept => AwaitIo false LAccepted
  | LAccepted fd => if fd <? 0 then CoReturn 0 else Spawn (LHandler fd) LAccept
  | LHandler fd => AwaitIo false LReceived
  | LReceived n => AwaitIo true LComputed
  | LComputed n => AwaitTask (LSend n) LEnd
  | LSend n => AwaitIo false LSent
  | LSent n => CoReturn n
  | LEnd (inl n) => CoReturn n
  | LEnd (inr _) => Uncaught tt
  end.
Definition steps (n : nat) : list (Task.event local) := replicate n EvStep.

(** One turn of the loop up to the wait, and the completion of the operation that the
    kernel holds at [k]. *)
Definition wait_for (k : nat) (r : Z) : list (worker_event (L:=local)) :=
  [WSched EvReadyDone; WSched EvSubmit; WSched (EvKernel k r 0); WSched (EvReturn 1);
   WSched EvPeek; WCqe []; WSched EvAdvance; WSched EvTop; WSched EvTasksDone].
Definition es1 : list (worker_event (L:=local)) :=
  [WSched (EvBoot 0); WSched EvRun; WSched EvTop; WTask (EvSpawn LAccept :: steps 1);
   WSched EvTasksDone] ++
  wait_for 2 7 ++ [WResume (steps 3)] ++          (* accepted: a handler waits *)
  wait_for 2 100 ++ [WResume (steps 1)] ++        (* received: away to the pool *)
  [WPost 0 55; WSched EvWrite].
(** ... the handler is back, sends and ends, and accepting fails. *)
Definition es2 : list (worker_event (L:=local)) :=
  es1 ++ [WSched EvReadyDone; WSched EvSubmit; WSched (EvKernel 0 8 0); WSched (EvReturn 1);
    WSched EvPeek; WCqe []; WSched EvAdvance; WSched EvTop; WSched EvTasksDone;
    WResume (steps 2)] ++
  wait_for 3 55 ++ [WResume (steps 2)] ++ wait_for 1 (-9) ++ [WResume (steps 1)].

Definition w1 : worker := default new_worker (worker_run body (λ b : bool, b) 8 false es1 new_worker).
Definition w2 : worker := default new_worker (worker_run body (λ b : bool, b) 8 false es2 new_worker).
Lemma worker_run_es1 : worker_run body (λ b : bool, b) 8 false es1 new_worker = Some w1.
Proof. vm_compute. reflexivity. Qed.
Lemma worker_run_es2 : worker_run body (λ b : bool, b) 8 false es2 new_worker = Some w2.
Proof. vm_compute. reflexivity. Qed.
(** Before the handler is resumed from its first wait. *)
Definition es0 : list (worker_event (L:=local)) := take 24 es1.
Definition w0 : worker := default new_worker (worker_run body (λ b : bool, b) 8 false es0 new_worker).
Lemma worker_run_es0 : worker_run body (λ b : bool, b) 8 false es0 new_worker = Some w0.
Proof. vm_compute. reflexivity. Qed.
Lemma w0_ready : alive w0 = true ∧ ready_ (sched w0) = [2%nat].
Proof. vm_compute. done. Qed.
Lemma w1_alive : alive w1 = true ∧ outstanding (sched w1) = [0%nat] ∧ handles (cross_ (sched w1)) = [2%nat].
Proof. vm_compute. done. Qed.
Lemma w2_idle : alive w2 = true ∧ outstanding (sched w2) = [] ∧ ready_ (sched w2) = [] ∧
  handles (cross_ (sched w2)) = [] ∧ away w2 = [].
Proof. vm_compute. done. Qed.
End Demo.

Lemma worker_runs_calls_witness :
  alive Demo.w1 = true ∧ answered Demo.w1 ≡ₚ delivered Demo.w1 ++ (with_value Demo.w1 <$> to_resume (sched Demo.w1)).
Proof.
  split; [apply Demo.w1_alive|].
  apply (worker_runs_calls Demo.body (λ b : bool, b) 8 false Demo.es1 Demo.w1 Demo.worker_run_es1).
  apply Demo.w1_alive.
Defined.

Lemma every_waiter_is_tracked_witness :
  outstanding (sched Demo.w1) = [0%nat] ∧ handles (cross_ (sched Demo.w1)) = [2%nat] ∧
  NoDup (pending (mach Demo.w1)).
Proof.
  split; [apply Demo.w1_alive|]. split; [apply Demo.w1_alive|].
  apply (every_waiter_is_tracked Demo.body (λ b : bool, b) 8 false Demo.es1 Demo.w1
    Demo.worker_run_es1). apply Demo.w1_alive.
Defined.

Lemma idle_worker_has_no_frames_witness : frames (mach Demo.w2) = ∅.
Proof.
  destruct Demo.w2_idle as (? & ? & ? & ? & ?).
  by apply (idle_worker_has_no_frames Demo.body (λ b : bool, b) 8 false Demo.es2 Demo.w2
    Demo.worker_run_es2).
Defined.

Lemma ready_coroutine_resumes_witness : (2%nat, value Demo.w0 2) ∈ answered Demo.w0.
Proof.
  destruct Demo.w0_ready as (Ha & Hr).
  destruct (ready_coroutine_resumes Demo.body (λ b : bool, b) 8 false Demo.es0 Demo.w0 2 []
    Demo.worker_run_es0 Ha Hr) as (op & k & cont & _ & _ & Hin). exact Hin.
Defined.
