(* ===== verification/Ops.v ===== *)
(** * Ops: what the awaiters ask the kernel, and addresses

    Models the awaiters of [include/coro_net/ops/] with [prepare_common] of
    [src/coroutine/io_operation.cc], and [include/coro_net/inet_address.hpp].

    A [request] is a call of liburing that fills a submission entry.
    [await_suspend] puts it in the scheduler's submission queue, as the action
    [AAwait] of [Scheduler.v].  [inet_pton] and [inet_ntop] are parameters. *)
From Stdlib Require Import Ascii String.
From S2P Require Import Prelude Scheduler LogStream.

(** ** Awaiters *)

Inductive request : Type :=
  | PrepAccept (fd addrlen flags : Z)
  | PrepRecv (fd buf len flags : Z)
  | PrepReadFixed (fd buf nbytes offset buf_index : Z)
  | PrepSend (fd buf len flags : Z)
  | PrepWriteFixed (fd buf nbytes offset buf_index : Z)
  | PrepShutdown (fd how : Z)
  | PrepTimeout (tv_sec tv_nsec count flags : Z).

(** [sizeof(sockaddr_in)], [MSG_NOSIGNAL]. *)
Definition sizeof_sockaddr_in : Z := 16.
Definition MSG_NOSIGNAL : Z := 16384.

(** The awaiters, by their members; pointers are addresses. *)
Inductive awaiter : Type :=
  | AcceptAwaiter (listen_fd_ peer_len_ : Z)
  | RecvAwaiter (fd_ buf_ len_ : Z)
  | RecvFixedAwaiter (fd_ buf_ len_ buf_index_ : Z)
  | SendAwaiter (fd_ buf_ len_ : Z)
  | SendFixedAwaiter (fd_ buf_ len_ buf_index_ : Z)
  | ShutdownAwaiter (fd_ how_ : Z)
  | TimeoutAwaiter (tv_sec tv_nsec : Z).

Definition new_AcceptAwaiter (listen_fd : Z) : awaiter :=
  AcceptAwaiter listen_fd sizeof_sockaddr_in.
(** A count of nanoseconds, split with C++'s division. *)
Definition new_TimeoutAwaiter (ns : Z) : awaiter :=
  TimeoutAwaiter (Z.quot ns 1000000000) (Z.rem ns 1000000000).

(** The call each [await_suspend] makes. *)
Definition prep_accept (listen_fd_ peer_len_ : Z) : request := PrepAccept listen_fd_ peer_len_ 0.
Definition prep_recv (fd_ buf_ len_ : Z) : request := PrepRecv fd_ buf_ len_ 0.
Definition prep_read_fixed (fd_ buf_ len_ buf_index_ : Z) : request :=
  PrepReadFixed fd_ buf_ len_ 0 buf_index_.
Definition prep_send (fd_ buf_ len_ : Z) : request := PrepSend fd_ buf_ len_ MSG_NOSIGNAL.
Definition prep_write_fixed (fd_ buf_ len_ buf_index_ : Z) : request :=
  PrepWriteFixed fd_ buf_ len_ 0 buf_index_.
Definition prep_shutdown (fd_ how_ : Z) : request := PrepShutdown fd_ how_.
Definition prep_timeout (tv_sec tv_nsec : Z) : request := PrepTimeout tv_sec tv_nsec 0 0.

Definition prep (a : awaiter) : request :=
  match a with
  | AcceptAwaiter fd len => prep_accept fd len
  | RecvAwaiter fd buf len => prep_recv fd buf len
  | RecvFixedAwaiter fd buf len idx => prep_read_fixed fd buf len idx
  | SendAwaiter fd buf len => prep_send fd buf len
  | SendFixedAwaiter fd buf len idx => prep_write_fixed fd buf len idx
  | ShutdownAwaiter fd how => prep_shutdown fd how
  | TimeoutAwaiter sec nsec => prep_timeout sec nsec
  end.

(** [get_sqe], [io_uring_prep_*], [prepare_common]: the operation [o] of coroutine
    [h] on scheduler [s].  [None] is the null entry that is not tested for. *)
Definition await_suspend (entries : nat) (sqpoll : bool) (a : awaiter) (o h : nat) (s : Scheduler)
    : option (request * Scheduler) :=
  s ← act entries sqpoll (AAwait o h) s; Some (prep a, s).
(** The result of operation [o]. *)
Definition await_resume (o : nat) (s : Scheduler) : option Z := result_ <$> ops s !! o.

(** ** InetAddress *)

(** [htons] and [ntohs] on a little-endian machine. *)
Definition htons (x : Z) : Z := Z.lor (Z.shiftl (Z.land x 255) 8) (Z.shiftr x 8).
Definition ntohs (x : Z) : Z := htons x.

Definition AF_INET : Z := 2.
Record sockaddr_in := mkSockaddr { sin_family : Z; sin_port : Z; sin_addr : Z }.

Section inet_address.
(** The address a text denotes, if any, and the text of an address. *)
Context (inet_pton : list ascii → option Z) (inet_ntop : Z → list ascii).

(** A failed [inet_pton] leaves the zeroed [sin_addr]. *)
Definition InetAddress (port : Z) (ip : list ascii) : sockaddr_in :=
  mkSockaddr AF_INET (htons port) (default 0 (inet_pton ip)).
Definition port (a : sockaddr_in) : Z := ntohs (sin_port a).
Definition ip (a : sockaddr_in) : list ascii := inet_ntop (sin_addr a).
(** [std::to_string] prints the digits that [LogStream] prints. *)
Definition to_string (a : sockaddr_in) : list ascii :=
  ip a ++ lit ":" ++ default [] (convert (port a)).

(** A port is stored as its two bytes, high one first. *)
Lemma htons_bytes x : 0 ≤ x < 65536 → htons x = 256 * (x mod 256) + x / 256.
Proof.
  intros Hx. unfold htons.
  change 255 with (Z.ones 8). rewrite Z.land_ones, Z.shiftr_div_pow2 by lia.
  rewrite Z.shiftl_mul_pow2 by lia.
  change (2 ^ 8) with 256.
  assert (Hland : Z.land (x mod 256 * 256) (x / 256) = 0).
  { apply Z.bits_inj'. intros n Hn. rewrite Z.land_spec, Z.bits_0.
    change 256 with (2 ^ 8) at 2. rewrite Z.mul_pow2_bits by lia.
    destruct (Z.ltb_spec n 8); [by rewrite Z.testbit_neg_r by lia|].
    rewrite <-(Z.mod_small (x / 256) (2 ^ 8)), Z.mod_pow2_bits_high, andb_false_r; [done|lia|].
    split; [apply Z.div_pos; lia|apply Z.div_lt_upper_bound; lia]. }
  pose proof (Z.add_lor_land (x mod 256 * 256) (x / 256)). lia.
Qed.

Lemma ntohs_htons x : 0 ≤ x < 65536 → ntohs (htons x) = x.
Proof.
  intros Hx. unfold ntohs. pose proof (Z.mod_pos_bound x 256 ltac:(lia)).
  pose proof (Z.div_mod x 256 ltac:(lia)) as Hdm.
  assert (0 ≤ x / 256 < 256)
    by (split; [apply Z.div_pos|apply Z.div_lt_upper_bound]; lia).
  rewrite (htons_bytes x) by lia. set (a := x mod 256) in *. set (b := x / 256) in *.
  rewrite htons_bytes by lia.
  assert ((256 * a + b) mod 256 = b) as ->.
  { symmetry. apply (Z.mod_unique _ _ a); [left|]; lia. }
  assert ((256 * a + b) / 256 = a) as ->.
  { symmetry. apply (Z.div_unique _ _ _ b); [left|]; lia. }
  lia.
Qed.

(** [inet_ntop] inverts [inet_pton] on the texts it prints. *)
Hypothesis pton_ntop : ∀ x, 0 ≤ x < 2 ^ 32 → inet_pton (inet_ntop x) = Some x.

(** ** Properties *)

(** An address keeps its port and address: the port is stored in network order
    (high byte first in memory) and read back, and [to_string] prints the text the
    address was made of, a colon and the decimal digits of the port; a text that
    is no address silently gives the address of all interfaces. *)
Theorem address_roundtrip (p x : Z) (bad : list ascii) :
  0 ≤ p < 65536 → 0 ≤ x < 2 ^ 32 → inet_pton bad = None →
  let a := InetAddress p (inet_ntop x) in
  port a = p ∧ sin_port a = 256 * (p mod 256) + p / 256 ∧ sin_addr a = x ∧
  (∃ d, to_string a = inet_ntop x ++ lit ":" ++ d ∧ read_decimal d = Some p) ∧
  InetAddress p bad = InetAddress p (inet_ntop 0).
Proof.
  intros Hp Hx Hbad a.
  assert (Hport : port a = p) by (apply ntohs_htons; lia).
  assert (Hip : sin_addr a = x) by (unfold a, InetAddress; cbn; by rewrite pton_ntop).
  split_and!; [done|by apply htons_bytes|done| |].
  - destruct (convert_ok p) as (d & Hd & _ & Hr & _); [lia|].
    exists d. split; [|done]. unfold to_string. by rewrite Hport, Hd; unfold ip; rewrite Hip.
  - unfold InetAddress. by rewrite Hbad, pton_ntop.
Qed.
End inet_address.

(** The [timespec] of a timeout denotes exactly the duration asked for, and is
    one the kernel accepts (no negative field, fewer than 10^9 nanoseconds) exactly
    when the duration is not negative. *)
Theorem timeout_timespec (ns : Z) :
  ∃ sec nsec, prep (new_TimeoutAwaiter ns) = PrepTimeout sec nsec 0 0 ∧
    sec * 1000000000 + nsec = ns ∧
    (0 ≤ sec ∧ 0 ≤ nsec < 1000000000 ↔ 0 ≤ ns).
Proof.
  eexists _, _. split; [reflexivity|].
  pose proof (Z.quot_rem' ns 1000000000) as Hqr.
  pose proof (Z.rem_bound_abs ns 1000000000 ltac:(lia)) as Hb.
  split; [lia|]. split; [lia|]. intros Hns.
  pose proof (Z.rem_nonneg ns 1000000000 ltac:(lia) Hns).
  pose proof (Z.quot_pos ns 1000000000 Hns ltac:(lia)). lia.
Qed.

(** An awaited operation comes back to the coroutine that awaits it: suspending
    puts one entry at the end of the submission queue, with the request of the
    awaiter; when the completion of that entry is dispatched, in whatever state the
    scheduler is by then, the coroutine goes to the back of the ready queue and
    [await_resume] returns the completion's result. *)
Theorem await_roundtrip entries sqpoll a o h s r s1 s2 s3 l i n rr f :
  await_suspend entries sqpoll a o h s = Some (r, s1) →
  pc s2 = LCq i n → (i < n)%nat → cq (ring_ s2) !! i = Some (mkCqe (SOp o) rr f) →
  ops s2 !! o = ops s1 !! o → h ∉ final s2 →
  exec entries sqpoll (EvCqe l) s2 = Some s3 →
  r = prep a ∧ sq (ring_ s1) = sq (ring_ s) ++ [SOp o] ∧
  ready_ s3 = ready_ s2 ++ [h] ∧ await_resume o s3 = Some rr.
Proof.
  intros (s' & Hact & [= <- <-])%bind_Some Hpc Hi Hcq Hops Hlive Hex.
  cbn in Hact. apply bind_Some in Hact as (s0 & Hsqe & [= <-]).
  unfold get_sqe in Hsqe. destruct (_ <? _)%nat; [|done]. injection Hsqe as <-.
  cbn [ops set_ops] in Hops. rewrite lookup_insert_eq in Hops.
  revert Hex. cbn [exec]. rewrite Hpc, (proj2 (Nat.ltb_lt i n) Hi), Hcq. cbn.
  unfold complete_op. rewrite Hops. cbn. rewrite decide_False by done.
  intros [= <-]. split_and!; [done..|]. unfold await_resume. cbn.
  by rewrite lookup_insert_eq.
Qed.

(** ** Witnesses *)

Module Demo.
Definition pton (t : list ascii) : option Z :=
  x ← read_decimal t;
  if decide (0 ≤ x < 2 ^ 32 ∧ default [] (convert x) = t) then Some x else None.
Definition ntop (x : Z) : list ascii := default [] (convert x).
Lemma pton_ntop x : 0 ≤ x < 2 ^ 32 → pton (ntop x) = Some x.
Proof.
  intros Hx. destruct (convert_ok x) as (l & Hl & _ & Hr & _); [lia|].
  unfold pton, ntop. rewrite Hl. cbn [default from_option id]. rewrite Hr.
  cbn [mbind option_bind]. rewrite decide_True; [done|]. by rewrite Hl.
Qed.
(** A receive of 100 bytes. *)
Definition recv : awaiter := RecvAwaiter 9 4096 100.
Definition before : Scheduler :=
  default new_scheduler (run 8 false [EvBoot 0; EvRun; EvTop] new_scheduler).
Definition suspended : Scheduler :=
  default new_scheduler (snd <$> await_suspend 8 false recv 3 5 before).
End Demo.

Lemma address_roundtrip_witness :
  let a := InetAddress Demo.pton 8002 (Demo.ntop 77) in
  port a = 8002 ∧
  InetAddress Demo.pton 8002 (lit "localhost") = InetAddress Demo.pton 8002 (Demo.ntop 0).
Proof.
  destruct (address_roundtrip Demo.pton Demo.ntop Demo.pton_ntop 8002 77 (lit "localhost"))
    as (H & _ & _ & _ & H').
  - lia.
  - lia.
  - vm_compute. reflexivity.
  - split; [exact H|exact H'].
Defined.

Lemma await_roundtrip_witness :
  sq (ring_ Demo.suspended) = [SWatch; STimer; SOp 3] ∧
  await_resume 3 Scheduler.Demo.dispatched = Some 42.
Proof.
  destruct (await_roundtrip 8 false Demo.recv 3 5 Demo.before (prep Demo.recv) Demo.suspended
    Scheduler.Demo.dispatching Scheduler.Demo.dispatched [] 0 1 42 0) as (_ & H & _ & H').
  1-4, 7: vm_compute; first [reflexivity|lia].
  - vm_compute. reflexivity.
  - vm_compute. set_solver.
  - split; [exact H|exact H'].
Defined.
