(* ===== verification/Tcp.v ===== *)
(** * Tcp: connections and the server

    Models [src/net/tcp_connection.cc] with the awaiter that receives into a
    [Buffer], and [src/net/tcp_server.cc].

    A coroutine is a function of the results of the operations it awaits, in
    order; it is [Suspended] when they run out.  [send] and [send_fixed] share
    their loop, which differs in the width of the length given to the kernel.  A
    connection is a client of the buffer pool through [Interfaces.SlotPool]; [recv]
    writes into a [Buffer] of [Buffer.v]. *)
From S2P Require Import Prelude Interfaces BufferPool Buffer.

(** ** Sending *)

Inductive awaited : Type :=
  | Returned (n : Z)
  | Suspended.

(** A completed send operation: offset in the data, length asked, result. *)
Record sent := mkSent { off : Z; len : Z; ret : Z }.

(** The loop of [send] and [send_fixed]; [cast] is the conversion of the length. *)
Fixpoint send_loop (cast : Z → Z) (rs : list Z) (p remaining total : Z)
    : list sent * awaited :=
  if remaining =? 0 then ([], Returned total) else
  match rs with
  | [] => ([], Suspended)
  | n :: rs =>
      let op := mkSent p (cast remaining) n in
      if n <? 0 then ([op], Returned n)
      else if n =? 0 then ([op], Returned total)
      else
        let '(tr, out) := send_loop cast rs (p + n) (u64 (remaining - n)) (total + n) in
        (op :: tr, out)
  end.

Definition send (rs : list Z) (data : list byte) : list sent * awaited :=
  send_loop (λ n, n) rs 0 (zlen data) 0.
Definition send_fixed (rs : list Z) (data : list byte) : list sent * awaited :=
  send_loop u32 rs 0 (zlen data) 0.

(** The bytes the kernel accepted. *)
Definition wire (data : list byte) (tr : list sent) : list byte :=
  mjoin ((λ o, slice data (off o) (ret o)) <$> tr).

(** The kernel accepts at most what it is offered. *)
Definition honest (tr : list sent) : Prop := Forall (λ o, ret o ≤ len o) tr.

Section send.
Context (cast : Z → Z).
Hypothesis cast_le : ∀ n, 0 ≤ n → cast n ≤ n.

Lemma send_loop_spec rs data p total tr out :
  zlen data < u64_mod → 0 ≤ p ≤ zlen data → total = p →
  send_loop cast rs p (zlen data - p) total = (tr, out) → honest tr →
  ∃ n, wire data tr = slice data p n ∧ 0 ≤ n ∧ p + n ≤ zlen data ∧
    match out with
    | Returned r =>
        (r < 0 ∧ ∃ o, o ∈ tr ∧ ret o = r) ∨
        (r = p + n ∧ (r = zlen data ∨ ∃ o, o ∈ tr ∧ ret o = 0 ∧ len o = cast (zlen data - r)))
    | Suspended => p + n < zlen data ∧ Z.of_nat (length rs) ≤ n
    end.
Proof.
  intros Hdata. revert p total tr out.
  induction rs as [|r rs IH]; intros p total tr out Hp -> Hrun Hh; cbn in Hrun.
  - destruct (Z.eqb_spec (zlen data - p) 0); injection Hrun as <- <-; exists 0;
      rewrite slice_nil by lia;
      (split; [done|]; split; [lia|]; split; [lia|]).
    + right. split; [lia|left; lia].
    + split; [lia|done].
  - destruct (Z.eqb_spec (zlen data - p) 0).
    { injection Hrun as <- <-. exists 0. rewrite slice_nil by lia.
      split_and!; [done|lia|lia|]. right. split; [lia|left; lia]. }
    destruct (Z.ltb_spec r 0).
    { injection Hrun as <- <-. exists 0. unfold wire. cbn.
      rewrite !slice_nil by lia. split_and!; [done|lia|lia|].
      left. split; [done|]. eexists. by split; [left|]. }
    destruct (Z.eqb_spec r 0) as [->|].
    { injection Hrun as <- <-. exists 0. unfold wire. cbn.
      rewrite !slice_nil by lia. split_and!; [done|lia|lia|].
      right. split; [lia|]. right. eexists. by split_and!; [left| |cbn]. }
    destruct (send_loop cast rs (p + r) (u64 (zlen data - p - r)) (p + r)) as [tr' out'] eqn:Hrec.
    injection Hrun as <- <-. apply Forall_cons in Hh as [Hr Hh]. cbn in Hr.
    pose proof (cast_le (zlen data - p) ltac:(lia)).
    rewrite u64_small in Hrec by lia.
    replace (zlen data - p - r) with (zlen data - (p + r)) in Hrec by lia.
    destruct (IH (p + r) (p + r) tr' out' ltac:(lia) eq_refl Hrec Hh) as (n' & Hw & ? & ? & Hout).
    exists (r + n'). split_and!; [|lia|lia|].
    + change (wire data (_ :: tr')) with (slice data p r ++ wire data tr').
      rewrite Hw, slice_app by lia. done.
    + destruct out' as [r'|].
      * destruct Hout as [(? & o & ? & ?)|(-> & Hend)].
        { left. split; [done|]. exists o. by split; [right|]. }
        right. split; [lia|]. destruct Hend as [?|(o & ? & ? & ?)]; [left; lia|].
        right. exists o. split_and!; [by right|done|done].
      * rewrite length_cons. lia.
Qed.

(** Every request lies in the data. *)
Lemma send_loop_ranges rs (data : list byte) p total tr out :
  zlen data < u64_mod → 0 ≤ p ≤ zlen data → (∀ n, 0 ≤ n → 0 ≤ cast n) →
  send_loop cast rs p (zlen data - p) total = (tr, out) → honest tr →
  Forall (λ o, p ≤ off o ∧ 0 ≤ len o ∧ off o + len o ≤ zlen data) tr.
Proof.
  intros Hdata Hp Hpos. revert p total tr out Hp.
  induction rs as [|r rs IH]; intros p total tr out Hp Hrun Hh; cbn in Hrun.
  { destruct (Z.eqb_spec (zlen data - p) 0); injection Hrun as <- <-; constructor. }
  destruct (Z.eqb_spec (zlen data - p) 0); [injection Hrun as <- <-; constructor|].
  pose proof (cast_le (zlen data - p) ltac:(lia)).
  pose proof (Hpos (zlen data - p) ltac:(lia)).
  destruct (Z.ltb_spec r 0); [injection Hrun as <- <-; repeat constructor; cbn; lia|].
  destruct (Z.eqb_spec r 0) as [->|]; [injection Hrun as <- <-; repeat constructor; cbn; lia|].
  destruct (send_loop cast rs (p + r) (u64 (zlen data - p - r)) (total + r)) as [tr' out'] eqn:Hrec.
  injection Hrun as <- <-. apply Forall_cons in Hh as [Hr Hh]. cbn in Hr.
  rewrite u64_small in Hrec by lia.
  replace (zlen data - p - r) with (zlen data - (p + r)) in Hrec by lia.
  constructor; [cbn; lia|]. eapply Forall_impl; [by eapply (IH (p + r)); [lia| |]|].
  cbn. intros o ?. lia.
Qed.
End send.

(** ** Receiving *)

(** [RecvIntoBufferAwaiter]: [await_suspend] makes room and offers the writable
    bytes; the kernel stores [xs] there; [on_complete] accounts for them. *)
Definition kMinRecvSize : Z := 4096.
Definition recv_suspend (b : Buffer) : res Buffer := ensureWritableBytes kMinRecvSize b.
Definition recv_complete (xs : list byte) (r : Z) (b : Buffer) : res Buffer :=
  b ← kernel_store xs b;
  if 0 <? r then hasWritten r b else Ok b.

(** What a reception awaits: data, or a result that is not positive. *)
Inductive received : Type :=
  | Data (xs : list byte)
  | Stop (r : Z).

(** [if (n > 0 && wheel_) if (auto e = idle_entry_.lock()) wheel_->refresh(e)]:
    [idle] tells whether there is a wheel and the entry is alive. *)
Definition touch (idle : bool) (n : Z) : bool := (0 <? n) && idle.

(** The result, whether the idle entry is refreshed, and the buffer. *)
Definition recv (idle : bool) (e : received) (b : Buffer) : res (Z * bool * Buffer) :=
  b ← recv_suspend b;
  '(n, b) ← match e with
    | Data xs => b ← recv_complete xs (zlen xs) b; Ok (zlen xs, b)
    | Stop r => b ← recv_complete [] r b; Ok (r, b)
    end;
  Ok (n, touch idle n, b).

(** The same into the slot of the connection, from its start. *)
Definition recv_fixed (idle : bool) (e : received) (slot : list byte)
    : res (Z * bool * list byte) :=
  '(n, slot) ← match e with
    | Data xs => slot ← write_at slot 0 xs; Ok (zlen xs, slot)
    | Stop r => Ok (r, slot)
    end;
  Ok (n, touch idle n, slot).

(** ** Connections and their slots *)

Record TcpConnection := mkConn { fd_ : Z; buf_index_ : Z }.

Section connections.
Context {P : Type} `{SlotPool P}.

(** The constructor; the scheduler may have no pool. *)
Definition new_TcpConnection (fd : Z) (pool : option P) : TcpConnection * option P :=
  match pool with
  | None => (mkConn fd (-1), None)
  | Some p =>
      let '(idx, p) := pool_acquire p in
      (mkConn fd (if 0 <=? idx then idx else -1), Some p)
  end.

(** The destructor: the pool afterwards and the descriptors closed. *)
Definition destroy_conn (c : TcpConnection) (pool : option P) : option P * list Z :=
  (if 0 <=? buf_index_ c then pool_release (buf_index_ c) <$> pool else pool,
   if 0 <=? fd_ c then [fd_ c] else []).

(** The connections of a worker, its pool, and the descriptors closed so far. *)
Record worker := mkWorker {
  conns : list TcpConnection;
  pool_ : option P;
  closed_fds : list Z;
}.

Inductive conn_op : Type :=
  | Open (fd : Z)
  | Destroy (i : nat).

Definition conn_step (o : conn_op) (w : worker) : option worker :=
  match o with
  | Open fd =>
      let '(c, p) := new_TcpConnection fd (pool_ w) in
      Some (mkWorker (conns w ++ [c]) p (closed_fds w))
  | Destroy i =>
      c ← conns w !! i;
      let '(p, fds) := destroy_conn c (pool_ w) in
      Some (mkWorker (delete i (conns w)) p (closed_fds w ++ fds))
  end.

Fixpoint conn_run (os : list conn_op) (w : worker) : option worker :=
  match os with
  | [] => Some w
  | o :: os => w ← conn_step o w; conn_run os w
  end.
End connections.
Arguments worker : clear implicits.

(** ** The server *)

(** The results of the system calls of one [make_listen_socket]. *)
Record syscalls := mkSys { s_socket : Z; s_bind : Z; s_listen : Z; s_errno : Z }.

(** The listening socket, or the exception; and the descriptors closed. *)
Definition make_listen_socket (s : syscalls) : res Z * list Z :=
  if s_socket s <? 0 then (Throw (SystemError (s_errno s)), [])
  else if s_bind s <? 0 then (Throw (SystemError (s_errno s)), [s_socket s])
  else if s_listen s <? 0 then (Throw (SystemError (s_errno s)), [s_socket s])
  else (Ok (s_socket s), []).

Record TcpServer := mkServer { running_ : bool; listen_fds_ : list Z }.
Definition new_TcpServer : TcpServer := mkServer false [].

(** The loop of [start] that fills [listen_fds_] from index [i]. *)
Fixpoint open_listeners (i : nat) (ss : list syscalls) (fds : list Z)
    : res unit * list Z * list Z :=
  match ss with
  | [] => (Ok (), fds, [])
  | s :: ss =>
      match make_listen_socket s with
      | (Ok fd, closed) =>
          let '(r, fds, closed') := open_listeners (S i) ss (<[i := fd]> fds) in
          (r, fds, closed ++ closed')
      | (Throw e, closed) => (Throw e, fds, closed)
      | (Abort, closed) => (Abort, fds, closed)
      | (UB, closed) => (UB, fds, closed)
      end
  end.

(** [start], up to the listening sockets, one per worker: [resize] fills the new
    elements with zero.  Also the descriptors closed meanwhile. *)
Definition start (ss : list syscalls) (s : TcpServer) : res unit * TcpServer * list Z :=
  if running_ s then (Ok (), s, []) else
  let fds := resize (length ss) 0 (listen_fds_ s) in
  let '(r, fds, closed) := open_listeners 0 ss fds in
  (r, mkServer true fds, closed).

(** [stop]: the descriptors it shuts down. *)
Definition stop (s : TcpServer) : TcpServer * list Z :=
  if negb (running_ s) then (s, []) else
  (mkServer false (listen_fds_ s), filter (λ fd, 0 ≤ fd) (listen_fds_ s)).

(** [~TcpServer]: the descriptors it shuts down and those it closes. *)
Definition destroy_server (s : TcpServer) : TcpServer * list Z * list Z :=
  let '(s, shut) := if running_ s then stop s else (s, []) in
  (mkServer (running_ s) [], shut, filter (λ fd, 0 ≤ fd) (listen_fds_ s)).

(** What the accept loop of a worker does for one connection. *)
Inductive action : Type :=
  | Connect (fd : Z)
  | Register (fd : Z)
  | Spawn (fd : Z).
#[export] Instance action_eq_dec : EqDecision action.
Proof. solve_decision. Defined.

(** The accept loop: each turn tests [running_] and awaits an [accept].  The
    result tells whether the loop has ended. *)
Fixpoint accept_loop (wheel : bool) (turns : list (bool * Z)) : list action * bool :=
  match turns with
  | [] => ([], false)
  | (running, conn) :: turns =>
      if negb running then ([], true) else
      if conn <? 0 then ([], true) else
      let '(acts, ended) := accept_loop wheel turns in
      ([Connect conn] ++ (if wheel then [Register conn] else []) ++ [Spawn conn] ++ acts, ended)
  end.

(** ** Receiving *)

Section recv.
Implicit Types b : Buffer.

Lemma recv_data idle b xs b1 :
  inv b → fits b kMinRecvSize → recv_suspend b = Ok b1 →
  0 < zlen xs ≤ writableBytes b1 →
  ∃ b', recv idle (Data xs) b = Ok (zlen xs, idle, b') ∧ inv b' ∧ contents b' = contents b ++ xs.
Proof.
  intros Hb Hf Hs [Hpos Hx]. unfold recv. rewrite Hs. cbn [mbind res_bind].
  destruct (ensureWritableBytes_spec b Hb kMinRecvSize) as (b2 & He & Hb2 & Hc & _);
    [done|done|].
  unfold recv_suspend in Hs. rewrite He in Hs. injection Hs as ->.
  destruct (hasWritten_after_store b1 xs Hb2 Hx) as (b3 & Hst & Hb3 & Hc3 & _).
  apply res_bind_ok in Hst as (b4 & Hk & Hw).
  unfold recv_complete, touch. rewrite Hk. cbn [mbind res_bind].
  rewrite !(proj2 (Z.ltb_lt 0 (zlen xs))), Hw by done. cbn [mbind res_bind andb].
  rewrite (proj2 (Z.ltb_lt 0 (zlen xs))) by done. exists b3. by rewrite Hc3, Hc.
Qed.

(** A buffer that has been read to its end. *)
Definition drained b : Prop := inv b ∧ contents b = [] ∧ writerIndex_ b = kCheapPrepend.

Lemma drained_fits b : drained b → fits b kMinRecvSize.
Proof.
  intros (Hb & Hc & Hw). right. rewrite Hw. unfold kCheapPrepend, kMinRecvSize. width_lia.
Qed.

Lemma recv_drained idle b xs :
  drained b → 0 < zlen xs ≤ kMinRecvSize →
  ∃ b', recv idle (Data xs) b = Ok (zlen xs, idle, b') ∧ inv b' ∧ contents b' = xs.
Proof.
  intros Hd Hx. pose proof (drained_fits b Hd) as Hf. destruct Hd as (Hb & Hc & Hw).
  destruct (ensureWritableBytes_spec b Hb kMinRecvSize) as (b1 & Hs & _ & _ & Hwr & _);
    [done|done|].
  destruct (recv_data idle b xs b1 Hb Hf Hs) as (b' & Hr & Hb' & Hc'); [lia|].
  exists b'. by rewrite Hc' , Hc.
Qed.

Lemma recv_stop idle b r :
  drained b → r ≤ 0 → ∃ b', recv idle (Stop r) b = Ok (r, false, b').
Proof.
  intros Hd Hr. pose proof (drained_fits b Hd) as Hf. destruct Hd as (Hb & Hc & Hw).
  unfold recv, recv_suspend.
  destruct (ensureWritableBytes_spec b Hb kMinRecvSize) as (b1 & -> & Hb1 & _ & Hwr & _);
    [done|done|].
  cbn [mbind res_bind]. unfold recv_complete, touch.
  destruct (hasWritten_after_store b1 [] Hb1) as (b2 & Hst & _).
  { rewrite zlen_nil. unfold kMinRecvSize in Hwr. lia. }
  apply res_bind_ok in Hst as (b3 & -> & _). cbn [mbind res_bind].
  rewrite (proj2 (Z.ltb_ge 0 r)) by done. cbn [mbind res_bind].
  rewrite (proj2 (Z.ltb_ge 0 r)) by done. by eexists.
Qed.

Lemma retrieveAllAsString_drained b :
  inv b → ∃ b', retrieveAllAsString b = Ok (contents b, b') ∧ drained b'.
Proof.
  intros Hb. pose proof (zlen_contents b Hb) as Hz. pose proof (readableBytes_eq b Hb) as Hr.
  pose proof (inv_order _ Hb). pose proof (zlen_nonneg (contents b)).
  unfold retrieveAllAsString. rewrite retrieveAsString_spec by (done || lia).
  eexists. split; [do 2 f_equal|].
  - unfold Spec.take_front. rewrite firstn_all2; [done|]. unfold zlen in *. lia.
  - split_and!; [apply retrieve_inv; [done|lia]| |].
    + rewrite retrieve_contents by (done || lia). unfold Spec.drop_front.
      apply skipn_all2. unfold zlen in *. lia.
    + unfold retrieve. by rewrite Z.ltb_irrefl.
Qed.

(** A positive result for every send, adding up to what is to be sent. *)
Definition accepts (rs : list Z) (n : Z) : Prop :=
  Forall (λ r, 0 < r) rs ∧ foldr Z.add 0 rs = n.

Lemma accepts_nonneg rs n : accepts rs n → 0 ≤ n.
Proof.
  intros [Hall <-]. induction Hall; cbn; [lia|]. lia.
Qed.

Lemma send_accepted cast rs data p n total :
  accepts rs n → 0 ≤ p → n < u64_mod →
  ∃ tr, send_loop cast rs p n total = (tr, Returned (total + n)) ∧
    wire data tr = slice data p n.
Proof.
  intros [Hall Hsum]. revert p n total Hsum.
  induction Hall as [|r rs Hr Hall IH]; intros p n total Hsum Hp Hn; cbn in Hsum; subst n.
  - exists []. cbn. split; [by rewrite Z.add_0_r|by rewrite slice_nil].
  - pose proof (accepts_nonneg rs _ (conj Hall eq_refl)). cbn [send_loop].
    rewrite (proj2 (Z.eqb_neq _ 0)), (proj2 (Z.ltb_ge r 0)), (proj2 (Z.eqb_neq r 0)) by lia.
    rewrite u64_small by lia. rewrite Z.add_simpl_l.
    destruct (IH (p + r) _ (total + r) eq_refl ltac:(lia) ltac:(lia)) as (tr & -> & Hw).
    eexists. split; [do 2 f_equal; lia|].
    change (wire data (?o :: tr)) with (slice data (off o) (ret o) ++ wire data tr).
    cbn [off ret]. rewrite Hw. by rewrite slice_app by lia.
Qed.
End recv.

(** ** Connections *)

Section slots.
Context {P : Type} `{SlotPool P}.
Implicit Types w : worker P.

(** The slots of the live connections. *)
Definition slots (l : list TcpConnection) : list Z := filter (λ i, 0 ≤ i) (buf_index_ <$> l).
Definition fds (l : list TcpConnection) : list Z := filter (λ i, 0 ≤ i) (fd_ <$> l).

#[export] Instance slots_proper : Proper ((≡ₚ) ==> (≡ₚ)) slots.
Proof. intros l1 l2 Hl. unfold slots. by rewrite Hl. Qed.
#[export] Instance fds_proper : Proper ((≡ₚ) ==> (≡ₚ)) fds.
Proof. intros l1 l2 Hl. unfold fds. by rewrite Hl. Qed.

Lemma slots_app l1 l2 : slots (l1 ++ l2) = slots l1 ++ slots l2.
Proof. unfold slots. by rewrite fmap_app, filter_app. Qed.
Lemma fds_app l1 l2 : fds (l1 ++ l2) = fds l1 ++ fds l2.
Proof. unfold fds. by rewrite fmap_app, filter_app. Qed.

Lemma slots_cons c l :
  slots (c :: l) = (if 0 <=? buf_index_ c then [buf_index_ c] else []) ++ slots l.
Proof.
  unfold slots. rewrite fmap_cons. destruct (Z.leb_spec 0 (buf_index_ c)).
  - by rewrite filter_cons_True.
  - by rewrite filter_cons_False by lia.
Qed.
Lemma fds_cons c l : fds (c :: l) = (if 0 <=? fd_ c then [fd_ c] else []) ++ fds l.
Proof.
  unfold fds. rewrite fmap_cons. destruct (Z.leb_spec 0 (fd_ c)).
  - by rewrite filter_cons_True.
  - by rewrite filter_cons_False by lia.
Qed.

(** The pool has handed out exactly the slots of the live connections. *)
Definition slots_ok (cap : Z) w : Prop :=
  ∃ p l, pool_ w = Some p ∧ pool_inv l p ∧ l ≡ₚ slots (conns w) ∧ pool_capacity p = cap.

Definition opened (os : list conn_op) : list Z :=
  filter (λ i, 0 ≤ i) (omap (λ o, match o with Open fd => Some fd | _ => None end) os).

Lemma open_ok cap fd w w' :
  slots_ok cap w → conn_step (Open fd) w = Some w' →
  slots_ok cap w' ∧ closed_fds w' = closed_fds w ∧
  fds (conns w') = fds (conns w) ++ filter (λ i, 0 ≤ i) [fd].
Proof.
  intros (p & l & Hp & Hi & Hl & Hcap). cbn. rewrite Hp. cbn.
  pose proof (pool_acquire_ok l p Hi) as Hacq. destruct (pool_acquire p) as [idx p'].
  destruct Hacq as (Hcap' & Hcase). intros [= <-]. cbn. split; [|split; [done|]].
  - unfold slots_ok. cbn. setoid_rewrite slots_app.
    destruct Hcase as [[Hidx Hi']|(-> & Hi' & _)].
    + exists p', (idx :: l). split_and!; [done|done| |congruence].
      rewrite (proj2 (Z.leb_le 0 idx)) by done. unfold slots at 2. cbn.
      rewrite decide_True by done. rewrite Hl. apply Permutation_cons_append.
    + exists p', l. split_and!; [done|done| |congruence]. cbn. by rewrite app_nil_r.
  - apply fds_app.
Qed.

Lemma destroy_ok cap i w w' :
  slots_ok cap w → conn_step (Destroy i) w = Some w' →
  slots_ok cap w' ∧ closed_fds w' ++ fds (conns w') ≡ₚ closed_fds w ++ fds (conns w).
Proof.
  intros (p & l & Hp & Hi & Hl & Hcap) (c & Hc & Hstep)%bind_Some.
  pose proof (delete_Permutation _ _ _ Hc) as Hperm.
  pose proof (slots_proper _ _ Hperm) as Hs. pose proof (fds_proper _ _ Hperm) as Hf.
  rewrite slots_cons in Hs. rewrite fds_cons in Hf.
  unfold destroy_conn in Hstep. rewrite Hp in Hstep. injection Hstep as <-. split.
  - rewrite Hs in Hl. unfold slots_ok. cbn [pool_ conns].
    destruct (Z.leb_spec 0 (buf_index_ c)); [|by exists p, l].
    assert (Hin : buf_index_ c ∈ l) by (rewrite Hl; by left).
    apply list_elem_of_split in Hin as (l1 & l2 & ->).
    destruct (pool_release_ok l1 l2 _ p Hi) as [Hi' Hcap'].
    exists (pool_release (buf_index_ c) p), (l1 ++ l2). split_and!; [done|done| |congruence].
    rewrite <-Permutation_middle in Hl. by apply Permutation_cons_inv in Hl.
  - cbn [closed_fds conns]. rewrite Hf. by rewrite <-app_assoc.
Qed.

Lemma conn_run_ok cap os w w' :
  slots_ok cap w → conn_run os w = Some w' →
  slots_ok cap w' ∧
  closed_fds w' ++ fds (conns w') ≡ₚ closed_fds w ++ fds (conns w) ++ opened os.
Proof.
  revert w. induction os as [|o os IH]; intros w Hw; cbn [conn_run].
  { intros [= <-]. by rewrite app_nil_r. }
  intros (w1 & Hstep & Hrun)%bind_Some. destruct o as [fd|i].
  - destruct (open_ok cap fd w w1 Hw Hstep) as (Hw1 & Hcl & Hfd).
    destruct (IH w1 Hw1 Hrun) as [Hw' Hp]. split; [done|].
    rewrite Hp, Hcl, Hfd, <-!app_assoc. do 2 f_equiv.
    unfold opened. by rewrite <-filter_app.
  - destruct (destroy_ok cap i w w1 Hw Hstep) as (Hw1 & Hfd).
    destruct (IH w1 Hw1 Hrun) as [Hw' Hp]. split; [done|].
    rewrite Hp, app_assoc, Hfd, <-app_assoc. done.
Qed.
End slots.

(** ** The listening sockets *)

Definition listens (s : syscalls) : Prop := 0 ≤ s_socket s ∧ 0 ≤ s_bind s ∧ 0 ≤ s_listen s.

Lemma make_listen_socket_ok s : listens s → make_listen_socket s = (Ok (s_socket s), []).
Proof.
  intros (? & ? & ?). unfold make_listen_socket.
  by rewrite !(proj2 (Z.ltb_ge _ 0)).
Qed.

Lemma open_listeners_fill ss rest : ∀ opened_ fds0,
  Forall listens ss →
  open_listeners (length opened_) (ss ++ rest) (opened_ ++ replicate (length ss) 0 ++ fds0) =
  open_listeners (length opened_ + length ss) rest (opened_ ++ (s_socket <$> ss) ++ fds0).
Proof.
  induction ss as [|s ss IH]; intros opened_ fds0 Hall.
  { by rewrite Nat.add_0_r. }
  apply Forall_cons in Hall as [Hs Hall].
  cbn [app open_listeners]. rewrite make_listen_socket_ok by done.
  rewrite length_cons. cbn [replicate app].
  rewrite insert_app_r_alt, Nat.sub_diag by lia. cbn [insert list_insert].
  specialize (IH (opened_ ++ [s_socket s]) fds0 Hall).
  rewrite length_app, <-!app_assoc in IH. cbn [app length] in IH.
  rewrite Nat.add_1_r in IH. rewrite IH, fmap_cons, Nat.add_succ_r.
  cbn [app]. rewrite Nat.add_succ_l.
  by destruct (open_listeners (S (_ + _)) rest _) as [[??]?].
Qed.

Lemma start_opens ss rest :
  Forall listens ss →
  start (ss ++ rest) new_TcpServer =
  let '(r, fds, closed) :=
    open_listeners (length ss) rest ((s_socket <$> ss) ++ replicate (length rest) 0) in
  (r, mkServer true fds, closed).
Proof.
  intros Hall. unfold start, new_TcpServer. cbn [running_ listen_fds_].
  rewrite resize_nil, length_app, replicate_add.
  pose proof (open_listeners_fill ss rest [] (replicate (length rest) 0) Hall) as Hfill.
  cbn [length app Nat.add] in Hfill. by rewrite Hfill.
Qed.

Lemma listens_sockets ss : Forall listens ss → filter (λ fd, 0 ≤ fd) (s_socket <$> ss) = s_socket <$> ss.
Proof.
  induction 1 as [|s ss [Hs _] _ IH]; [done|].
  rewrite fmap_cons, filter_cons_True by done. by rewrite IH.
Qed.

Lemma filter_zeros n : filter (λ fd, 0 ≤ fd) (replicate n 0) = replicate n 0.
Proof. induction n as [|n IH]; [done|]. cbn [replicate]. by rewrite filter_cons_True, IH. Qed.

(** ** The accept loop *)

Definition accepted_acts (wheel : bool) (conn : Z) : list action :=
  [Connect conn] ++ (if wheel then [Register conn] else []) ++ [Spawn conn].

Lemma accept_loop_app wheel conns rest :
  Forall (λ c, 0 ≤ c) conns →
  accept_loop wheel (((true,.) <$> conns) ++ rest) =
  ((conns ≫= accepted_acts wheel) ++ (accept_loop wheel rest).1, (accept_loop wheel rest).2).
Proof.
  induction 1 as [|c conns Hc _ IH].
  { cbn. by destruct (accept_loop wheel rest). }
  rewrite fmap_cons. cbn [app accept_loop negb].
  rewrite (proj2 (Z.ltb_ge c 0)), IH by done. cbn [mbind list_bind fst snd].
  unfold accepted_acts. by destruct wheel.
Qed.

(** ** Properties *)

(** [send] and [send_fixed] put on the wire exactly a prefix of the data.  A
    negative result is that of a failed operation; a result [r >= 0] is the length
    of that prefix, and then either all the data is sent or the kernel returned 0
    for the remaining bytes; and if every operation makes progress the loop needs
    no more of them than there are bytes.  [send_fixed] asks for the remaining length
    modulo 2^32. *)
Theorem send_delivers (fixed : bool) (rs : list Z) (data : list byte) tr out :
  zlen data < u64_mod →
  (if fixed then send_fixed else send) rs data = (tr, out) →
  honest tr →
  ∃ n, wire data tr = slice data 0 n ∧ 0 ≤ n ≤ zlen data ∧
    match out with
    | Returned r =>
        (r < 0 ∧ ∃ o, o ∈ tr ∧ ret o = r) ∨
        (r = n ∧ (n = zlen data ∨
           ∃ o, o ∈ tr ∧ ret o = 0 ∧
             len o = (if fixed then u32 (zlen data - n) else zlen data - n)))
    | Suspended => Z.of_nat (length rs) ≤ n < zlen data
    end.
Proof.
  intros Hd Hrun Hh. pose proof (zlen_nonneg data).
  assert (∀ n, 0 ≤ n → u32 n ≤ n) as Hcast by (intros; apply Z.mod_le; [done|width_lia]).
  destruct (send_loop_spec (if fixed then u32 else λ n, n)
    ltac:(destruct fixed; [done|lia]) rs data 0 0 tr out) as (n & Hw & ? & ? & Hout);
    [done|lia|done|rewrite Z.sub_0_r; by destruct fixed|done|].
  exists n. split; [done|]. split; [lia|]. destruct out as [r|]; [|lia].
  destruct Hout as [?|(-> & Hend)]; [by left|right].
  split; [lia|]. rewrite Z.add_0_l in Hend. destruct Hend as [?|(o & ? & ? & Hl)]; [by left|].
  right. exists o. split_and!; [done|done|]. rewrite Hl. by destruct fixed.
Qed.

Lemma send_delivers_witness :
  let data := [x01; x02; x03; x04; x05] in
  ∃ tr, send_fixed [2; 3] data = (tr, Returned 5) ∧
    ∃ n, wire data tr = slice data 0 n ∧ 0 ≤ n ≤ 5.
Proof.
  exists [mkSent 0 5 2; mkSent 2 3 3]. split; [by vm_compute|].
  destruct (send_delivers true [2; 3] [x01; x02; x03; x04; x05]
    [mkSent 0 5 2; mkSent 2 3 3] (Returned 5)) as (n & ? & ? & _).
  - vm_compute. congruence.
  - by vm_compute.
  - repeat constructor; vm_compute; congruence.
  - by exists n.
Defined.

(** C28: However connections are opened and destroyed on a worker, no two live
    connections share a slot of its pool and every slot is in range; a new
    connection goes without one only when all are in use; when no connection is
    left the pool has got every slot back; and each descriptor is closed once, with
    its connection. *)
Theorem conn_slots_exclusive {P} `{SlotPool P} (p : P) (os : list conn_op) (w : worker P) :
  pool_inv [] p →
  conn_run os (mkWorker [] (Some p) []) = Some w →
  ∃ p', pool_ w = Some p' ∧
    NoDup (slots (conns w)) ∧ Forall (λ i, 0 ≤ i < pool_capacity p) (slots (conns w)) ∧
    (∀ fd, buf_index_ (new_TcpConnection fd (pool_ w)).1 < 0 →
       zlen (slots (conns w)) = pool_capacity p) ∧
    (conns w = [] → pool_inv [] p') ∧
    closed_fds w ++ fds (conns w) ≡ₚ opened os.
Proof.
  intros Hp Hrun. eapply (conn_run_ok (pool_capacity p)) in Hrun
    as [(p' & l & Hp' & Hi & Hl & Hcap) Hfds]; [|by exists p, []].
  exists p'. destruct (pool_held_ok l p' Hi) as [Hnd Hall].
  rewrite Hl in Hnd. rewrite Hl, Hcap in Hall. split_and!; [done|done|done| | |done].
  - intros fd. rewrite Hp'. cbn [new_TcpConnection].
    pose proof (pool_acquire_ok l p' Hi) as Hacq. destruct (pool_acquire p') as [idx p2].
    destruct Hacq as [_ [[? _]|(_ & _ & Hfull)]]; cbn.
    + rewrite (proj2 (Z.leb_le 0 idx)) by done. lia.
    + intros _. unfold zlen in *. by rewrite <-Hl, Hfull.
  - intros Hnil. rewrite Hnil in Hl. symmetry in Hl. apply Permutation_nil_l in Hl. by subst.
Qed.

Lemma conn_slots_exclusive_witness :
  let p := mkPool true 16 2 [1; 0] true 0 in
  ∃ p', conn_run [Open 7; Open 8; Destroy 0; Open 9; Destroy 0; Destroy 0]
      (mkWorker [] (Some p) []) = Some (mkWorker [] (Some p') [7; 8; 9]) ∧
    pool_inv [] p'.
Proof.
  destruct (conn_slots_exclusive (mkPool true 16 2 [1; 0] true 0)
    [Open 7; Open 8; Destroy 0; Open 9; Destroy 0; Destroy 0]
    (mkWorker [] (Some (mkPool true 16 2 [1; 0] true 0)) [7; 8; 9]))
    as (p' & Hp & _ & _ & _ & Hback & _).
  - split; [done|]. split; [|done]. apply Permutation_swap.
  - by vm_compute.
  - exists p'. injection Hp as <-. split; [by vm_compute|]. by apply Hback.
Defined.

(** [start] leaves one listening socket per worker and none closed; a second
    [start] does nothing; the destructor then shuts each down and closes it, once. *)
Theorem start_destroy (ss again : list syscalls) :
  Forall listens ss →
  let sockets := s_socket <$> ss in
  let s := mkServer true sockets in
  start ss new_TcpServer = (Ok (), s, []) ∧
  start again s = (Ok (), s, []) ∧
  destroy_server s = (new_TcpServer, sockets, sockets).
Proof.
  intros Hall. cbn zeta. split_and!; [|done|].
  - rewrite <-(app_nil_r ss) at 1. rewrite start_opens by done. cbn. by rewrite app_nil_r.
  - unfold destroy_server, stop. cbn [running_ listen_fds_ negb].
    by rewrite listens_sockets.
Qed.

Lemma start_destroy_witness :
  start [mkSys 5 0 0 0; mkSys 6 0 0 0] new_TcpServer = (Ok (), mkServer true [5; 6], []).
Proof.
  apply (start_destroy [mkSys 5 0 0 0; mkSys 6 0 0 0] []).
  repeat constructor; vm_compute; congruence.
Defined.

(** If a listening socket cannot be opened, [start] throws with the list already
    resized, so the destructor shuts down and closes descriptor 0 once for this
    socket and for each that would have followed. *)
Theorem failed_start_closes_stdin (before : list syscalls) (bad : syscalls) after :
  Forall listens before →
  s_socket bad < 0 ∨ s_bind bad < 0 ∨ s_listen bad < 0 →
  ∃ s closed,
    start (before ++ bad :: after) new_TcpServer =
      (Throw (SystemError (s_errno bad)), s, closed) ∧
    (destroy_server s).1.2 = (s_socket <$> before) ++ replicate (S (length after)) 0 ∧
    (destroy_server s).2 = (s_socket <$> before) ++ replicate (S (length after)) 0.
Proof.
  intros Hall Hbad.
  assert (∃ closed, make_listen_socket bad = (Throw (SystemError (s_errno bad)), closed))
    as [closed Hmk].
  { unfold make_listen_socket. destruct (Z.ltb_spec (s_socket bad) 0); [by eexists|].
    destruct (Z.ltb_spec (s_bind bad) 0); [by eexists|].
    destruct (Z.ltb_spec (s_listen bad) 0); [by eexists|]. lia. }
  rewrite start_opens by done. cbn [open_listeners]. rewrite Hmk.
  do 2 eexists. split; [done|]. unfold destroy_server, stop.
  cbn [running_ listen_fds_ negb fst snd].
  by rewrite filter_app, listens_sockets, filter_zeros.
Qed.

Lemma failed_start_closes_stdin_witness :
  ∃ s closed, start [mkSys 5 0 0 0; mkSys 6 (-1) 0 98; mkSys 7 0 0 0] new_TcpServer =
      (Throw (SystemError 98), s, closed) ∧
    (destroy_server s).2 = [5; 0; 0].
Proof.
  destruct (failed_start_closes_stdin [mkSys 5 0 0 0] (mkSys 6 (-1) 0 98) [mkSys 7 0 0 0])
    as (s & closed & ? & _ & ?).
  - repeat constructor; vm_compute; congruence.
  - right. left. by vm_compute.
  - by exists s, closed.
Defined.

(** The accept loop connects, registers with the wheel if there is one, and
    hands to the handler each accepted descriptor, in order; any negative result,
    even of a single aborted handshake, ends it for ever while the server runs. *)
Theorem accept_error_ends_loop (wheel : bool) (conns : list Z) (err : Z) later :
  Forall (λ c, 0 ≤ c) conns → err < 0 →
  accept_loop wheel (((true,.) <$> conns) ++ (true, err) :: later) =
  (conns ≫= λ c, if wheel then [Connect c; Register c; Spawn c] else [Connect c; Spawn c],
   true).
Proof.
  intros Hall Herr. rewrite accept_loop_app by done. cbn [accept_loop negb].
  rewrite (proj2 (Z.ltb_lt err 0)) by done. cbn [fst snd]. rewrite app_nil_r.
  f_equal. apply list_bind_ext; [|done]. intros c. by destruct wheel.
Qed.

Lemma accept_error_ends_loop_witness :
  accept_loop true [(true, 9); (true, -103); (true, 10)] =
  ([Connect 9; Register 9; Spawn 9], true).
Proof. apply (accept_error_ends_loop true [9] (-103) [(true, 10)]); [by repeat constructor|lia]. Defined.
