(* ===== verification/Sockets.v ===== *)
(** * Sockets: the listening sockets of a server, and signals that come while it opens them

    Models [TcpServer::start] of [src/net/tcp_server.cc] from [running_.exchange] to the
    end of the loop that opens the sockets, step by step, with the [stop] of a signal
    handler between any two steps and the destructor at the end.  The functions are
    those of [Tcp.v], which runs [start] without interruption ([opening_is_start]); the
    history keeps the descriptors that [socket] returned and the ones that were shut
    down and closed.

    A server is started once, as the echo server does. *)
From S2P Require Import Prelude Tcp.

Inductive point : Type :=
  | PNew               (* not started *)
  | PMarked            (* [running_] is set; about to construct [pool_] *)
  | POpening (i : nat) (* about to open socket [i] *)
  | POpen              (* the sockets are open *)
  | PThrew (k : nat)   (* [start] has thrown, [k] elements of [listen_fds_] to fill *)
  | PGone.             (* destroyed *)

Record sockets := mkSockets {
  at_ : point;
  server : TcpServer;
  opened : list Z;     (* history: returned by [socket] *)
  shut : list Z;       (* history: shut down *)
  closed : list Z;     (* history: closed *)
}.
Definition new_sockets : sockets := mkSockets PNew new_TcpServer [] [] [].

Inductive event : Type :=
  | SkStart                    (* [running_.exchange] of [start] *)
  | SkPool (made : bool)       (* the constructor of [pool_], and [resize] *)
  | SkOpen (s : syscalls)      (* one turn of the loop *)
  | SkReady                    (* the loop ends *)
  | SkSignal                   (* [stop], in a signal handler *)
  | SkDestroy.                 (* the destructor *)

Section sockets.
Context (n : nat).             (* [worker_threads_] *)

Definition exec (e : event) (k : sockets) : option sockets :=
  let s := server k in
  match e, at_ k with
  | SkStart, PNew =>
      Some (if running_ s then k
            else mkSockets PMarked (mkServer true (listen_fds_ s)) (opened k) (shut k) (closed k))
  | SkStart, POpen => if running_ s then Some k else None
  | SkPool false, PMarked => Some (mkSockets (PThrew 0) s (opened k) (shut k) (closed k))
  | SkPool true, PMarked =>
      Some (mkSockets (POpening 0) (mkServer (running_ s) (resize n 0 (listen_fds_ s)))
              (opened k) (shut k) (closed k))
  | SkOpen c, POpening i =>
      if (i <? n)%nat then
        let opened' := opened k ++ filter (λ fd, 0 ≤ fd) [s_socket c] in
        let '(r, cl) := make_listen_socket c in
        Some (match r with
              | Ok fd => mkSockets (POpening (S i)) (mkServer (running_ s) (<[i := fd]> (listen_fds_ s)))
                           opened' (shut k) (closed k ++ cl)
              | _ => mkSockets (PThrew (n - i)) s opened' (shut k) (closed k ++ cl)
              end)
      else None
  | SkReady, POpening i =>
      if (i <? n)%nat then None else Some (mkSockets POpen s (opened k) (shut k) (closed k))
  | SkSignal, PGone => None
  | SkSignal, _ =>
      let '(s, sh) := stop s in Some (mkSockets (at_ k) s (opened k) (shut k ++ sh) (closed k))
  | SkDestroy, (PNew | POpen | PThrew _) =>
      let '(s, sh, cl) := destroy_server s in
      Some (mkSockets PGone s (opened k) (shut k ++ sh) (closed k ++ cl))
  | _, _ => None
  end.

Fixpoint run (es : list event) (k : sockets) : option sockets :=
  match es with [] => Some k | e :: es => k ← exec e k; run es k end.

Definition step (k k' : sockets) : Prop := ∃ e, exec e k = Some k'.
Definition reachable (k : sockets) : Prop := rtc step new_sockets k.

(** ** The invariant *)

(** The elements of [listen_fds_] that hold no socket: zeros. *)
Definition unfilled (p : point) : nat :=
  match p with POpening i => n - i | PThrew k => k | _ => 0 end.
Definition filled (p : point) : nat :=
  match p with POpening i => i | POpen => n | _ => 0 end.
Definition opening (p : point) : bool :=
  match p with PNew | PMarked | POpening _ | POpen => true | _ => false end.

Record sockets_inv (k : sockets) (live : list Z) : Prop := {
  k_gone : at_ k ≠ PGone;
  k_list : listen_fds_ (server k) = live ++ replicate (unfilled (at_ k)) 0;
  k_live : Forall (λ fd, 0 ≤ fd) live;
  k_owned : opened k ≡ₚ closed k ++ live;
  k_opening : opening (at_ k) = true → length live = filled (at_ k) ∧ opened k = live ∧ closed k = [];
  k_size : ∀ i, at_ k = POpening i → (i ≤ n)%nat;
  k_new : at_ k = PNew → running_ (server k) = false ∧ shut k = [];
  k_shut : running_ (server k) = true → shut k = [];
}.

Lemma filter_live live m :
  Forall (λ fd, 0 ≤ fd) live → filter (λ fd, 0 ≤ fd) (live ++ replicate m 0) = live ++ replicate m 0.
Proof.
  intros Hl. rewrite filter_app, filter_zeros. f_equal.
  induction Hl as [|fd live Hfd _ IH]; [done|]. by rewrite filter_cons_True, IH.
Qed.

Lemma sockets_new_kept : sockets_inv new_sockets [].
Proof. split; cbn; try done; by constructor. Qed.

(** What one call of [make_listen_socket] does to the descriptors. *)
Lemma make_cases c :
  (∃ fd, make_listen_socket c = (Ok fd, []) ∧ 0 ≤ fd ∧ filter (λ fd, 0 ≤ fd) [s_socket c] = [fd]) ∨
  (∃ e, make_listen_socket c = (Throw e, filter (λ fd, 0 ≤ fd) [s_socket c])).
Proof.
  unfold make_listen_socket. destruct (Z.ltb_spec (s_socket c) 0) as [Hs|Hs].
  { right. eexists. by rewrite filter_cons_False by lia. }
  rewrite filter_cons_True by done. destruct (s_bind c <? 0); [right; by eexists|].
  destruct (s_listen c <? 0); [right; by eexists|]. left. by eexists.
Qed.

Lemma sockets_signal_kept k live k' :
  sockets_inv k live → exec SkSignal k = Some k' →
  sockets_inv k' live ∧ running_ (server k') = false ∧
  k' = mkSockets (at_ k) (mkServer false (listen_fds_ (server k))) (opened k)
         (if running_ (server k) then listen_fds_ (server k) else shut k) (closed k).
Proof.
  intros [Hg Hl Hlv Ho Hop Hsz Hnew Hsh] Hex. revert Hex. unfold exec, stop.
  rewrite Hl, filter_live, <-Hl by done.
  destruct k as [p [r fds] op sh cl]. cbn in *.
  destruct p; try done; destruct r; cbn; intros [= <-]; rewrite ?app_nil_r;
    (split; [|split; [done|]]); try (by rewrite (Hsh eq_refl)); try done;
    split; cbn; try done; naive_solver.
Qed.

Lemma sockets_open_kept c k live k' :
  sockets_inv k live → exec (SkOpen c) k = Some k' → ∃ live', sockets_inv k' live'.
Proof.
  intros [Hg Hl Hlv Ho Hop Hsz Hnew Hsh]. destruct k as [p [r fds] op sh cl]. cbn -[Nat.ltb filter] in *.
  destruct p as [| |i| | |]; try done. destruct (Nat.ltb_spec i n) as [Hi|]; [|done].
  destruct (Hop eq_refl) as (Hlen & -> & ->). clear Hop Ho Hnew. subst fds.
  cbn [filled] in Hlen.
  destruct (make_cases c) as [(fd & -> & Hfd & Hof)|(e & ->)]; intros [= <-].
  - exists (live ++ [fd]). rewrite Hof. split; cbn; try done.
    + rewrite insert_app_r_alt by lia. rewrite Hlen, Nat.sub_diag.
      destruct (n - i)%nat as [|m] eqn:Hm; [lia|]. replace (n - S i)%nat with m by lia.
      cbn. by rewrite <-app_assoc.
    + apply Forall_app; by auto.
    + intros _. split; [|done]. rewrite length_app, Hlen. cbn. lia.
    + intros ? [= <-]. lia.
  - exists live. split; cbn; try done. apply Permutation_app_comm.
Qed.

Lemma sockets_exec_kept e k live k' :
  sockets_inv k live → exec e k = Some k' →
  at_ k' = PGone ∨ ∃ live', sockets_inv k' live'.
Proof.
  intros Hk Hex. destruct e as [|made|c| | |].
  4: right; exists live. 3: right; by apply (sockets_open_kept c k live).
  4: right; exists live; by apply (sockets_signal_kept k live k').
  4: { left. destruct k as [p [r fds] op sh cl]. cbn in Hex. destruct p; try done;
    destruct (destroy_server _) as [[??]?]; by injection Hex as <-. }
  all: destruct Hk as [Hg Hl Hlv Ho Hop Hsz Hnew Hsh].
  all: destruct k as [p [r fds] op sh cl]; cbn -[Nat.ltb resize replicate] in *.
  - right. exists live. destruct p; try done.
    + destruct (Hnew eq_refl) as [-> ->]. injection Hex as <-. split; cbn; try done; by auto.
    + destruct r; [|done]. by injection Hex as <-.
  - destruct p; try (by destruct made). destruct (Hop eq_refl) as (Hlen & -> & ->).
    apply nil_length_inv in Hlen as ->. cbn in Hl. subst fds.
    right. exists []. destruct made; injection Hex as <-; split; cbn; try done.
    + by rewrite resize_nil, Nat.sub_0_r.
    + intros ? [= <-]. lia.
  - destruct p; try done. destruct (Nat.ltb_spec i n); [done|]. injection Hex as <-.
    specialize (Hsz i eq_refl). replace i with n in * by lia.
    cbn [unfilled] in Hl. rewrite Nat.sub_diag in Hl. by split.
Qed.

Lemma sockets_step_kept k live k' : sockets_inv k live → step k k' →
  at_ k' = PGone ∨ ∃ live', sockets_inv k' live'.
Proof. intros Hk [e He]. by apply (sockets_exec_kept e k live). Qed.

Lemma gone_stays k k' : at_ k = PGone → rtc step k k' → k' = k.
Proof.
  intros Hg Hs. inversion Hs as [|? k2 ? [e He] _]; subst; [done|]. revert He.
  unfold exec. rewrite Hg. by destruct e as [|[]|c| | |].
Qed.

Lemma sockets_steps_kept k live k' : sockets_inv k live → rtc step k k' →
  at_ k' = PGone ∨ ∃ live', sockets_inv k' live'.
Proof.
  intros Hk Hs. revert live Hk. induction Hs as [k|k k1 k' Hstep Hs IH]; intros live Hk; [by eauto|].
  destruct (sockets_step_kept k live k1 Hk Hstep) as [Hg|[live1 Hk1]]; [|by apply (IH live1)].
  left. by rewrite (gone_stays k1 k' Hg Hs).
Qed.

Lemma sockets_reachable_holds k : reachable k → at_ k = PGone ∨ ∃ live, sockets_inv k live.
Proof. intros Hk. apply (sockets_steps_kept new_sockets [] k); [apply sockets_new_kept|done]. Qed.

(** ** Properties *)

(** C35: Every descriptor that [socket] returned is closed exactly once by the time the
    server is gone, whatever failed on the way and whichever signals were handled; but
    descriptor 0, which is no socket of the server's, is closed as well, once for each
    element of [listen_fds_] that [start] did not come to fill. *)
Theorem sockets_closed_once k k' :
  reachable k → exec SkDestroy k = Some k' →
  closed k' ≡ₚ opened k' ++ replicate (unfilled (at_ k)) 0 ∧ listen_fds_ (server k') = [] ∧
  (unfilled (at_ k) = 0%nat ∨ ∃ m, at_ k = PThrew m ∧ (0 < m)%nat).
Proof.
  intros [Hg|[live [Hg Hl Hlv Ho Hop _ _ _]]]%sockets_reachable_holds; unfold exec; [by rewrite Hg|].
  unfold destroy_server, stop. destruct k as [p [r fds] op sh cl]. cbn -[filter] in *. subst fds.
  intros Hex. assert (p ≠ PGone ∧ closed k' = cl ++ live ++ replicate (unfilled p) 0 ∧
    opened k' = op ∧ listen_fds_ (server k') = []) as (_ & -> & -> & ->).
  { destruct r; cbn -[filter] in Hex; rewrite ?filter_live in Hex by done;
      destruct p; try done; by injection Hex as <-. }
  split; [by rewrite Ho, app_assoc|split; [done|]].
  destruct p as [| | | |[|m]|]; try done; try (by left). right. exists (S m). split; [done|lia].
Qed.

(** The state after the signal that stops the server. *)
Lemma stopped_stays k live k' :
  sockets_inv k live → running_ (server k) = false → at_ k ≠ PNew → rtc step k k' →
  shut k' = shut k ∧ running_ (server k') = false.
Proof.
  intros Hk Hr Hn Hs. revert live Hk Hr Hn.
  induction Hs as [|k k1 k' [e He] Hs IH]; intros live Hk Hr Hn; [done|].
  assert (shut k1 = shut k ∧ running_ (server k1) = false ∧ at_ k1 ≠ PNew) as (Hsh & Hr1 & Hn1).
  { clear IH Hs Hk. revert He. unfold exec, destroy_server, stop. rewrite Hr.
    destruct k as [p [r fds] op sh cl]. cbn -[Nat.ltb] in *. subst r.
    destruct e as [|[]|c| | |], p; try done; try (case_match; [|done]);
      repeat case_match; try done; intros [= <-]; cbn; by rewrite ?app_nil_r. }
  destruct (sockets_exec_kept e k live k1 Hk He) as [Hg|[live1 Hk1]].
  - by rewrite (gone_stays k1 k' Hg Hs).
  - rewrite <-Hsh. by apply (IH live1).
Qed.

(** A signal that [stop] hears while [start] opens the sockets, or after, shuts down
    each socket opened so far once, and descriptor 0 once for each that is yet to open;
    whatever happens from there on, [start] going on to open them included, nothing else
    is ever shut down and the server never runs again. *)
Theorem signal_shuts_sockets k :
  reachable k → opening (at_ k) = true → running_ (server k) = true →
  ∃ k1, exec SkSignal k = Some k1 ∧
    shut k1 = opened k ++ replicate (unfilled (at_ k)) 0 ∧
    length (opened k) = filled (at_ k) ∧
    ∀ k2, rtc step k1 k2 → shut k2 = shut k1 ∧ running_ (server k2) = false.
Proof.
  intros [Hg|[live Hk]]%sockets_reachable_holds Hop Hr; [by rewrite Hg in Hop|].
  assert (∃ k1, exec SkSignal k = Some k1) as [k1 Hex].
  { unfold exec. pose proof (k_gone _ _ Hk). destruct (at_ k) eqn:?; try done;
      destruct (stop (server k)); by eexists. }
  destruct (sockets_signal_kept k live k1 Hk Hex) as (Hk1 & Hr1 & E). exists k1.
  destruct (k_opening _ _ Hk Hop) as (Hlen & Hopen & _).
  split; [done|]. split; [|split; [by rewrite Hopen|]].
  - rewrite E, Hr. cbn [shut]. by rewrite (k_list _ _ Hk), Hopen.
  - intros k2 Hs. apply (stopped_stays k1 live k2); try done.
    rewrite E. cbn [at_]. intros Hn. by destruct (k_new _ _ Hk Hn) as [? _]; congruence.
Qed.

(** The turns of the loop, up to the first that throws. *)
Fixpoint turns (ss : list syscalls) : list event :=
  match ss with
  | [] => [SkReady]
  | s :: ss => SkOpen s :: match make_listen_socket s with (Ok _, _) => turns ss | _ => [] end
  end.

Lemma run_turns ss : ∀ i fds op cl, (i + length ss = n)%nat →
  let '(r, fds', cl') := open_listeners i ss fds in
  ∃ op' p', run (turns ss) (mkSockets (POpening i) (mkServer true fds) op [] cl) =
    Some (mkSockets p' (mkServer true fds') op' [] (cl ++ cl')) ∧
    match r with Ok _ => p' = POpen | _ => ∃ m, p' = PThrew m ∧ (0 < m)%nat end.
Proof.
  induction ss as [|s ss IH]; intros i fds op cl Hn; cbn [length] in Hn; cbn [turns open_listeners run].
  - unfold exec. cbn [at_]. rewrite (proj2 (Nat.ltb_ge i n)) by lia. cbn.
    exists op, POpen. by rewrite app_nil_r.
  - unfold exec at 1. cbn [at_ server running_ listen_fds_ opened shut closed].
    rewrite (proj2 (Nat.ltb_lt i n)) by lia.
    destruct (make_cases s) as [(fd & -> & _)|(e & ->)]; cbn [mbind option_bind].
    + specialize (IH (S i) (<[i := fd]> fds) (op ++ filter (λ fd, 0 ≤ fd) [s_socket s]) (cl ++ []) ltac:(lia)).
      destruct (open_listeners (S i) ss _) as [[r fds'] cl']. by rewrite !app_nil_r in *.
    + do 2 eexists. split; [done|]. exists (n - i)%nat. split; [done|lia].
Qed.

(** Without signals, opening the sockets step by step is [Tcp.start]: the same
    sockets, the same descriptors closed, and it gets through or throws alike. *)
Theorem opening_is_start ss :
  length ss = n →
  let '(r, s, cl) := start ss new_TcpServer in
  ∃ k, run (SkStart :: SkPool true :: turns ss) new_sockets = Some k ∧
    server k = s ∧ closed k = cl ∧ shut k = [] ∧ (at_ k = POpen ↔ r = Ok ()).
Proof.
  intros Hn. unfold start, new_TcpServer. cbn [running_ listen_fds_]. rewrite Hn.
  pose proof (run_turns ss 0 (resize n 0 []) [] [] Hn) as Hr.
  destruct (open_listeners 0 ss (resize n 0 [])) as [[r fds] cl].
  destruct Hr as (op & p & Hrun & Hp). eexists. cbn -[turns resize]. split; [exact Hrun|].
  cbn. split_and!; try done.
  split; [intros ->|by intros ->]. destruct r as [[]| | |]; try done; by destruct Hp as (m & ? & _).
Qed.
End sockets.

(** ** Witnesses *)

Module SocketsDemo.
Abbreviation run_sockets := (run 2).
(** The second of two sockets cannot be bound. *)
Definition failing : list event :=
  [SkStart; SkPool true; SkOpen (mkSys 5 0 0 0); SkOpen (mkSys 6 (-1) 0 98)].
Definition failed : sockets := default new_sockets (run_sockets failing new_sockets).
(** A signal is handled when the first of two sockets is open. *)
Definition half : sockets := default new_sockets (run_sockets (take 3 failing) new_sockets).

Lemma sockets_run_steps es k : run_sockets es new_sockets = Some k → reachable 2 k.
Proof.
  unfold reachable. generalize new_sockets. induction es as [|e es IH]; intros k0; cbn; [by intros [= <-]|].
  destruct (exec 2 e k0) as [k1|] eqn:He; [|done]. intros Hr. eapply rtc_l; [by exists e|by apply IH].
Qed.
Lemma failed_reachable : reachable 2 failed.
Proof. by apply (sockets_run_steps failing). Qed.
Lemma half_reachable : reachable 2 half.
Proof. by apply (sockets_run_steps (take 3 failing)). Qed.
End SocketsDemo.

Lemma sockets_closed_once_witness :
  ∃ k, exec 2 SkDestroy SocketsDemo.failed = Some k ∧ opened k = [5; 6] ∧
    closed k ≡ₚ [5; 6; 0].
Proof.
  destruct (exec 2 SkDestroy SocketsDemo.failed) as [k|] eqn:He; [|by vm_compute in He].
  exists k. split; [done|].
  destruct (sockets_closed_once 2 SocketsDemo.failed k SocketsDemo.failed_reachable He) as (Hc & _ & _).
  vm_compute in He. injection He as <-. split; [done|]. exact Hc.
Defined.

Lemma signal_shuts_sockets_witness :
  ∃ k1, exec 2 SkSignal SocketsDemo.half = Some k1 ∧ shut k1 = [5; 0] ∧
    ∃ k2, run 2 [SkOpen (mkSys 6 0 0 0); SkReady; SkSignal; SkDestroy] k1 = Some k2 ∧
      shut k2 = [5; 0] ∧ closed k2 = [5; 6].
Proof.
  destruct (signal_shuts_sockets 2 SocketsDemo.half SocketsDemo.half_reachable) as (k1 & He & Hs & _);
    [by vm_compute..|].
  exists k1. split; [done|]. split; [done|]. vm_compute in He. injection He as <-.
  eexists. split; [by vm_compute|]. split; by vm_compute.
Defined.

Lemma opening_is_start_witness :
  ∃ k, run 2 (SkStart :: SkPool true :: turns [mkSys 5 0 0 0; mkSys 6 (-1) 0 98]) new_sockets = Some k ∧
    server k = mkServer true [5; 0] ∧ closed k = [6] ∧ at_ k ≠ POpen.
Proof.
  destruct (opening_is_start 2 [mkSys 5 0 0 0; mkSys 6 (-1) 0 98] eq_refl)
    as (k & Hr & Hs & Hc & _ & Ha).
  exists k. split; [done|]. split; [done|]. split; [done|]. intros Hat. by apply Ha in Hat.
Defined.
