(* ===== verification/IdleServer.v ===== *)
(** * IdleServer: the connections of a worker under its idle wheel

    Puts the connections of [Tcp.v] (slots, descriptors) and the wheel of
    [IdleWheel.v] into one worker, as the accept coroutine of
    [src/net/tcp_server.cc] does: it registers each new connection, a reception
    renews its entry ([src/net/tcp_connection.cc]), and an entry that runs out
    starts a coroutine that shuts the connection down
    ([src/net/idle_connection_wheel.cc]).

    A [TcpConnection] is held by its handler and by the coroutine that shuts it
    down, and destroyed when neither holds it.  A handler may receive what it likes, send
    and shut its connection down itself, which the wheel does not see, and end whenever it
    likes ([Handlers.v] has the example's).  An event of a connection that is gone changes
    nothing. *)
From S2P Require Import Prelude Interfaces CircularBuffer BufferPool IdleWheel Tcp.

Section io_worker.
Context {P R : Type} `{!SlotPool P} `{!Window Bucket R ∅}.

(** A connection: its identity, its [idle_entry_], whether its handler holds it. *)
Record peer := mkPeer { peer_id : conn; idle_entry_ : entry; in_handler : bool }.

#[export] Instance peer_eq_dec : EqDecision peer.
Proof. solve_decision. Defined.

Record io_worker := mkIo {
  tcp : Tcp.worker P;
  peers : list peer;                 (* as [conns tcp], in the same order *)
  next_conn : conn;
  idle : IdleWheel.world R;
  shutting : gset conn;              (* held by a coroutine that shuts them down *)
  evicted : gset conn;               (* history: shut down by the wheel *)
}.

Definition io_boot (seconds : Z) (p : P) : res io_worker :=
  d ← IdleWheel.boot seconds;
  Ok (mkIo (Tcp.mkWorker [] (Some p) []) [] 0%nat d ∅ ∅).

Definition find_peer (c : conn) (s : io_worker) : option (nat * peer) :=
  list_find (λ p, peer_id p = c) (peers s).

(** A turn of the accept coroutine; a negative result, which ends it, changes nothing. *)
Definition accept (fd : Z) (s : io_worker) : res io_worker :=
  if fd <? 0 then Ok s else
  match conn_step (Open fd) (tcp s) with
  | Some w =>
      let c := next_conn s in
      let e := next_entry (wheel (idle s)) in
      '(_, d) ← handle (EvRegister c) (idle s);
      Ok (mkIo w (peers s ++ [mkPeer c e true]) (S c) d (shutting s) (evicted s))
  | None => UB
  end.

(** A [shared_ptr] to connection [c] goes away. *)
Definition drop_ref (c : conn) (s : io_worker) : res io_worker :=
  match find_peer c s with
  | Some (i, p) =>
      if in_handler p || bool_decide (c ∈ shutting s) then Ok s else
      match conn_step (Destroy i) (tcp s) with
      | Some w =>
          '(_, d) ← handle (EvClosed c) (idle s);
          Ok (mkIo w (delete i (peers s)) (next_conn s) d (shutting s) (evicted s))
      | None => UB
      end
  | None => Ok s
  end.

(** The handler of [c] gets the result of its reception. *)
Definition recv (c : conn) (n : Z) (s : io_worker) : res io_worker :=
  match find_peer c s with
  | Some (i, p) =>
      if in_handler p && touch true n then
        '(_, d) ← handle (EvData (idle_entry_ p)) (idle s);
        Ok (mkIo (tcp s) (peers s) (next_conn s) d (shutting s) (evicted s))
      else Ok s
  | None => Ok s
  end.

(** It ends, for whatever reason: its frame, which holds [c], is destroyed. *)
Definition handler_ends (c : conn) (s : io_worker) : res io_worker :=
  match find_peer c s with
  | Some (i, p) =>
      if negb (in_handler p) then Ok s else
        drop_ref c (mkIo (tcp s) (<[i := mkPeer c (idle_entry_ p) false]> (peers s))
                      (next_conn s) (idle s) (shutting s) (evicted s))
  | None => Ok s
  end.

(** The wheel turns. *)
Definition tick (s : io_worker) : res io_worker :=
  '(out, d) ← handle EvTick (idle s);
  Ok (mkIo (tcp s) (peers s) (next_conn s) d (out ∪ shutting s) (out ∪ evicted s)).

(** The coroutine that shuts [c] down ends. *)
Definition shut_done (c : conn) (s : io_worker) : res io_worker :=
  drop_ref c (mkIo (tcp s) (peers s) (next_conn s) (idle s) (shutting s ∖ {[c]}) (evicted s)).

Inductive io_event : Type :=
  | IoAccept (fd : Z)
  | IoRecv (c : conn) (n : Z)
  | IoEnd (c : conn)
  | IoTick
  | IoShut (c : conn).

Definition io_exec (e : io_event) (s : io_worker) : res io_worker :=
  match e with
  | IoAccept fd => accept fd s
  | IoRecv c n => recv c n s
  | IoEnd c => handler_ends c s
  | IoTick => tick s
  | IoShut c => shut_done c s
  end.

Fixpoint io_run (es : list io_event) (s : io_worker) : res io_worker :=
  match es with
  | [] => Ok s
  | e :: es => s ← io_exec e s; io_run es s
  end.

(** The descriptors accepted; the ticks; events that bring no data to [c]. *)
Definition accepted (es : list io_event) : list Z :=
  filter (λ fd, 0 ≤ fd) (omap (λ e, match e with IoAccept fd => Some fd | _ => None end) es).
Definition ticks_of (es : list io_event) : nat :=
  sum_list_with (λ e, match e with IoTick => 1%nat | _ => 0%nat end) es.
Definition silent (c : conn) (e : io_event) : Prop :=
  match e with IoRecv c' n => (c' = c) → n ≤ 0 | _ => True end.

(** ** Invariant *)

Implicit Types s : io_worker.

Record io_inv (N : nat) (cap : Z) (acc : list Z) s (t : Spec.t) : Prop := {
  i_rel : related N (idle s) t;
  i_on : Spec.on t = true ∧ Spec.ticking t = TickWaiting;
  i_len : length (conns (tcp s)) = length (peers s);
  i_slots : slots_ok cap (tcp s);
  i_fds : closed_fds (tcp s) ++ fds (conns (tcp s)) ≡ₚ acc;
  i_ids : NoDup (peer_id <$> peers s);
  i_alive c : c ∈ Spec.alive t ↔ c ∈ peer_id <$> peers s;
  i_fresh p : p ∈ peers s → (peer_id p < next_conn s)%nat;
  i_entry p : p ∈ peers s →
    peer_id p ∈ evicted s ∨ ∃ k, Spec.ttl t !! idle_entry_ p = Some (peer_id p, k);
  i_own p : p ∈ peers s →
    (idle_entry_ p < Spec.next_id t)%nat ∧
    ∀ c k, Spec.ttl t !! idle_entry_ p = Some (c, k) → c = peer_id p;
  i_ttl e c k : Spec.ttl t !! e = Some (c, k) →
    (1 ≤ k ≤ N)%nat ∧ (e < Spec.next_id t)%nat;
}.

(** No connection outlives its holders. *)
Definition is_held s (p : peer) : Prop := in_handler p = true ∨ peer_id p ∈ shutting s.
Definition held s : Prop := ∀ p, p ∈ peers s → is_held s p.

(** Connection [c] is shut down, or gone, or has at most [k] ticks left. *)
Definition doomed (c : conn) (k : nat) s (t : Spec.t) : Prop :=
  c ∈ evicted s ∨ ((c ∉ peer_id <$> peers s) ∧ (c < next_conn s)%nat) ∨
  ∃ p k', p ∈ peers s ∧ peer_id p = c ∧ Spec.ttl t !! idle_entry_ p = Some (c, k') ∧ (k' ≤ k)%nat.

Lemma peer_unique s p p' :
  NoDup (peer_id <$> peers s) → p ∈ peers s → p' ∈ peers s → peer_id p = peer_id p' → p = p'.
Proof.
  intros Hnd [i Hi]%list_elem_of_lookup [j Hj]%list_elem_of_lookup Heq.
  assert (i = j) as ->; [|congruence].
  apply (NoDup_lookup _ i j (peer_id p) Hnd); rewrite list_lookup_fmap, ?Hi, ?Hj; cbn; congruence.
Qed.

Lemma find_peer_Some c s i p :
  find_peer c s = Some (i, p) → peers s !! i = Some p ∧ peer_id p = c ∧ p ∈ peers s.
Proof.
  intros (Hi & Hc & _)%list_find_Some. split_and!; [done..|]. by eapply list_elem_of_lookup_2.
Qed.

Lemma find_peer_None c s p : find_peer c s = None → p ∈ peers s → peer_id p ≠ c.
Proof. intros Hf%list_find_None Hp. rewrite Forall_forall in Hf. by apply Hf. Qed.

(** Doom stays while the parts it depends on do. *)
Lemma doomed_mono c k s t s' t' :
  doomed c k s t → (evicted s ⊆ evicted s') → (next_conn s ≤ next_conn s')%nat →
  (∀ x, x ∈ peer_id <$> peers s' → x ∈ peer_id <$> peers s ∨ (next_conn s ≤ x)%nat) →
  (∀ p, p ∈ peers s → peer_id p = c →
     (p ∈ peers s' ∨ ((c ∉ peer_id <$> peers s') ∧ (c < next_conn s')%nat))) →
  (∀ e k', Spec.ttl t !! e = Some (c, k') → Spec.ttl t' !! e = Some (c, k')) →
  doomed c k s' t'.
Proof.
  intros [He|[[Hn Hlt]|(p & k' & Hp & Hc & Ht & Hk)]] Hev Hnext Hids Hpeer Httl.
  - left. set_solver.
  - right. left. split; [|lia]. intros [?|?]%Hids; [done|lia].
  - destruct (Hpeer p Hp Hc) as [Hp'|?]; [|by right; left].
    right. right. exists p, k'. auto.
Qed.

Lemma destroy_some i s :
  is_Some (conns (tcp s) !! i) → ∃ w, conn_step (Destroy i) (tcp s) = Some w ∧
    conns w = delete i (conns (tcp s)).
Proof.
  intros [c Hc]. cbn. rewrite Hc. cbn. destruct (destroy_conn c (pool_ (tcp s))) as [q l].
  eexists. by split.
Qed.

Lemma drop_ref_ok N cap acc c s t :
  io_inv N cap acc s t → (∀ p, p ∈ peers s → peer_id p ≠ c → is_held s p) →
  ∃ s' t', drop_ref c s = Ok s' ∧ io_inv N cap acc s' t' ∧ held s' ∧
    ∀ c' k, doomed c' k s t → doomed c' k s' t'.
Proof.
  intros Hs Hheld. unfold drop_ref. destruct (find_peer c s) as [[i p]|] eqn:Hf.
  2: { exists s, t. split_and!; [done..| |done]. intros p Hp. apply Hheld; [done|].
       by eapply find_peer_None. }
  apply find_peer_Some in Hf as (Hi & Hc & Hp).
  destruct (in_handler p || bool_decide (c ∈ shutting s)) eqn:Hb.
  { exists s, t. split_and!; [done..| |done]. intros p' Hp'.
    destruct (decide (peer_id p' = c)) as [Heq|]; [|by apply Hheld].
    assert (p' = p) as -> by (eapply peer_unique; [apply Hs|done..|congruence]).
    apply orb_true_iff in Hb as [?|Hb%bool_decide_eq_true]; [by left|].
    right. by rewrite Hc. }
  pose proof Hs as [Hrel [Hon Htk] Hlen Hslots Hfds Hids Halive Hfresh Hentry Hown Httl].
  destruct (destroy_some i s) as (w & Hw & Hcw).
  { apply lookup_lt_is_Some. rewrite Hlen. by eapply lookup_lt_Some. }
  destruct (destroy_ok cap i _ w Hslots Hw) as [Hslots' Hfds'].
  destruct (handle_related N (EvClosed c) _ _ Hrel) as (d & Hd & Hrel').
  cbn [Spec.handle fst snd] in Hd, Hrel'. rewrite Hw, Hd. cbn [mbind res_bind].
  eexists _, _. split; [reflexivity|].
  pose proof (delete_Permutation _ _ _ Hi) as Hperm.
  assert (Hfp : peer_id <$> peers s ≡ₚ c :: (peer_id <$> delete i (peers s)))
    by (rewrite <-Hc; by apply (fmap_Permutation peer_id) in Hperm).
  assert (Hmem : ∀ x, x ∈ peer_id <$> peers s ↔ x = c ∨ x ∈ peer_id <$> delete i (peers s))
    by (intros x; by rewrite Hfp, elem_of_cons).
  pose proof Hids as Hids'. rewrite Hfp in Hids'. apply NoDup_cons in Hids' as [Hnotin Hids'].
  assert (Hsub : ∀ q, q ∈ delete i (peers s) → q ∈ peers s)
    by (intros q Hq; rewrite Hperm; by right).
  split_and!.
  - split; cbn; try done; auto.
    + rewrite Hcw, !length_delete by (apply lookup_lt_is_Some; rewrite ?Hlen; by eapply lookup_lt_Some).
      by rewrite Hlen.
    + by rewrite Hfds', Hfds.
    + intros x. unfold Spec.alive at 1.
      rewrite elem_of_difference, not_elem_of_singleton, Halive, Hmem. naive_solver.
  - intros q Hq. cbn in Hq. apply Hheld; [by apply Hsub|]. intros Heq. apply Hnotin.
    rewrite <-Heq. by apply list_elem_of_fmap_2.
  - intros c' k Hdoom. eapply doomed_mono; [exact Hdoom|done|done| | |done]; cbn.
    + intros x Hx. left. apply Hmem. by right.
    + intros q Hq Hqc. rewrite Hperm in Hq. apply elem_of_cons in Hq as [->|Hq]; [|by left].
      right. rewrite <-Hqc, Hc. split; [done|]. rewrite <-Hc. by apply Hfresh.
Qed.

(** What a step owes: it succeeds, keeps the invariant, and dooms go on. *)
Definition good_step (N : nat) (cap : Z) (acc : list Z) (e : io_event) s (t : Spec.t)
    (r : res io_worker) : Prop :=
  ∃ s' t', r = Ok s' ∧ io_inv N cap (acc ++ accepted [e]) s' t' ∧ held s' ∧
    ∀ c k, silent c e → doomed c k s t → doomed c (k - ticks_of [e]) s' t'.

Lemma good_stay N cap acc e s t :
  io_inv N cap acc s t → held s → accepted [e] = [] → ticks_of [e] = 0%nat →
  good_step N cap acc e s t (Ok s).
Proof.
  intros Hs Hh Ha Ht. exists s, t. rewrite Ha, Ht, app_nil_r. split_and!; [done..|].
  intros c k _. by rewrite Nat.sub_0_r.
Qed.

Lemma good_drop N cap acc e c s0 s t t0 :
  io_inv N cap acc s t → (∀ p, p ∈ peers s → peer_id p ≠ c → is_held s p) →
  accepted [e] = [] → ticks_of [e] = 0%nat → (∀ c k, doomed c k s0 t0 → doomed c k s t) →
  good_step N cap acc e s0 t0 (drop_ref c s).
Proof.
  intros Hs Hh Ha Ht Hdoom. destruct (drop_ref_ok N cap acc c s t Hs Hh)
    as (s' & t' & Hd & Hs' & Hh' & Hdoom').
  exists s', t'. rewrite Ha, Ht, app_nil_r. split_and!; [done..|].
  intros c' k _ Hc. rewrite Nat.sub_0_r. auto.
Qed.

Lemma accept_good N cap acc fd s t :
  io_inv N cap acc s t → held s → good_step N cap acc (IoAccept fd) s t (accept fd s).
Proof.
  intros Hs Hh. unfold accept.
  pose proof Hs as [Hrel [Hon Htk] Hlen Hslots Hfds Hids Halive Hfresh Hentry Hown Httl].
  destruct (Z.ltb_spec fd 0) as [Hneg|Hpos].
  { apply good_stay; [done..| |done]. unfold accepted. cbn. by rewrite decide_False by lia. }
  destruct (conn_step (Open fd) (tcp s)) as [w|] eqn:Hw;
    [|cbn in Hw; by destruct (new_TcpConnection fd (pool_ (tcp s)))].
  destruct (open_ok cap fd _ w Hslots Hw) as (Hslots' & Hcl & Hfds').
  assert (Hcw : length (conns w) = S (length (conns (tcp s)))).
  { cbn in Hw. destruct (new_TcpConnection fd (pool_ (tcp s))). injection Hw as <-.
    cbn. rewrite length_app. cbn. lia. }
  destruct (handle_related N (EvRegister (next_conn s)) _ _ Hrel) as (d & Hd & Hrel').
  cbn [Spec.handle fst snd] in Hd, Hrel'. rewrite Hd. cbn [mbind res_bind].
  rewrite (rel_next _ _ _ Hrel).
  assert (Hnew : next_conn s ∉ peer_id <$> peers s).
  { intros (p & Heq & Hp)%list_elem_of_fmap. apply Hfresh in Hp. lia. }
  eexists _, _. split; [reflexivity|]. split_and!.
  - split; cbn -[accepted]; try done; auto.
    + rewrite Hcw, length_app, Hlen. cbn. lia.
    + rewrite Hcl, Hfds', app_assoc, Hfds. by unfold accepted.
    + rewrite fmap_app. apply NoDup_app. split_and!; [done| |apply NoDup_singleton].
      intros x Hx ->%list_elem_of_singleton. done.
    + intros x. unfold Spec.alive at 1.
      rewrite fmap_app, elem_of_app, elem_of_union, Halive, elem_of_singleton. cbn.
      rewrite list_elem_of_singleton. naive_solver.
    + intros p [Hp| ->%list_elem_of_singleton]%elem_of_app; [|cbn; lia].
      apply Hfresh in Hp. lia.
    + intros p [Hp| ->%list_elem_of_singleton]%elem_of_app.
      * destruct (Hentry p Hp) as [?|[k Hk]]; [by left|right]. exists k. cbn.
        rewrite lookup_insert_ne; [done|]. apply Hown in Hp as [? _]. lia.
      * right. exists N. cbn. apply lookup_insert_eq.
    + intros p [Hp| ->%list_elem_of_singleton]%elem_of_app; cbn.
      * destruct (Hown p Hp) as [Hlt Hc]. split; [lia|]. intros c k.
        rewrite lookup_insert_ne by lia. apply Hc.
      * split; [lia|]. intros c k. rewrite lookup_insert_eq. by intros [= <- _].
    + intros e c k. cbn. destruct (decide (e = Spec.next_id t)) as [->|Hne].
      * rewrite lookup_insert_eq. intros [= _ <-]. pose proof (rel_pos _ _ _ Hrel). lia.
      * rewrite lookup_insert_ne by done. intros [? ?]%Httl. lia.
  - intros p [Hp| ->%list_elem_of_singleton]%elem_of_app; [by apply Hh|by left].
  - intros c k _ Hdoom. change (ticks_of [IoAccept fd]) with 0%nat. rewrite Nat.sub_0_r.
    eapply doomed_mono; [exact Hdoom|done|cbn; lia|..]; cbn.
    + intros x. rewrite fmap_app, elem_of_app. cbn. rewrite list_elem_of_singleton.
      intros [?| ->]; [by left|by right].
    + intros p Hp _. left. apply elem_of_app. by left.
    + intros e k' He. rewrite lookup_insert_ne; [done|]. apply Httl in He. lia.
Qed.

Lemma tick_good N cap acc s t :
  io_inv N cap acc s t → held s → good_step N cap acc IoTick s t (tick s).
Proof.
  intros Hs Hh. unfold tick.
  pose proof Hs as [Hrel [Hon Htk] Hlen Hslots Hfds Hids Halive Hfresh Hentry Hown Httl].
  destruct (handle_related N EvTick _ _ Hrel) as (d & Hd & Hrel').
  cbn [Spec.handle] in Hd, Hrel'. rewrite Htk, Hon in Hd, Hrel'. cbn [fst snd] in Hd, Hrel'.
  rewrite Hd. cbn [mbind res_bind].
  assert (Hout : ∀ p k, p ∈ peers s → Spec.ttl t !! idle_entry_ p = Some (peer_id p, k) →
    peer_id p ∈ Spec.expired t ∩ Spec.alive t ∨
    (2 ≤ k)%nat ∧ Spec.countdown t !! idle_entry_ p = Some (peer_id p, Nat.pred k)).
  { intros p k Hp Hk. pose proof (Httl _ _ _ Hk) as [? _]. rewrite countdown_lookup, Hk.
    destruct (decide (k = 1%nat)) as [->|]; [left|right; split; [lia|done]].
    apply elem_of_intersection. split; [apply elem_of_expired; by eexists|].
    apply Halive. by apply list_elem_of_fmap_2. }
  eexists _, _. split; [reflexivity|]. split_and!.
  - split; cbn; try done; auto; rewrite ?app_nil_r; try done.
    + intros p Hp. destruct (Hentry p Hp) as [?|[k Hk]]; [left; set_solver|].
      destruct (Hout p k Hp Hk) as [?|[_ ?]]; [left; set_solver|right; by eexists].
    + intros p Hp. destruct (Hown p Hp) as [? Hc]. split; [done|]. intros c k.
      cbn. rewrite countdown_lookup. destruct (Spec.ttl t !! idle_entry_ p) as [[c' k']|]; [|done].
      case_decide; [done|]. intros [= <- _]. by eapply Hc.
    + intros e c k. cbn. rewrite countdown_lookup.
      destruct (Spec.ttl t !! e) as [[c' k']|] eqn:He; [|done]. apply Httl in He.
      case_decide; [done|]. intros [= _ <-]. lia.
  - intros p Hp. destruct (Hh p Hp) as [?|?]; [by left|right; cbn; set_solver].
  - intros c k _ [He|[?|(p & k' & Hp & Hc & Ht & Hk)]]; [left; cbn; set_solver|by right; left|].
    subst c. destruct (Hout p k' Hp Ht) as [?|[? Hcd]]; [left; cbn; set_solver|].
    right. right. exists p, (Nat.pred k'). split_and!; [done..|]. cbn. lia.
Qed.

(** Data renews the entry of its connection and no other. *)
Lemma data_good N cap acc c n s t i p :
  io_inv N cap acc s t → held s → find_peer c s = Some (i, p) → 0 < n →
  good_step N cap acc (IoRecv c n) s t
    ('(_, d) ← handle (EvData (idle_entry_ p)) (idle s);
     Ok (mkIo (tcp s) (peers s) (next_conn s) d (shutting s) (evicted s))).
Proof.
  intros Hs Hh (Hi & Hc & Hp)%find_peer_Some Hn.
  pose proof Hs as [Hrel [Hon Htk] Hlen Hslots Hfds Hids Halive Hfresh Hentry Hown Httl].
  destruct (handle_related N (EvData (idle_entry_ p)) _ _ Hrel) as (d & Hd & Hrel').
  cbn [Spec.handle fst snd] in Hd, Hrel'. rewrite Hd. cbn [mbind res_bind].
  set (ttl' := alter _ _ (Spec.ttl t)) in Hrel'.
  assert (Halter : ∀ e c' k', ttl' !! e = Some (c', k') →
    ∃ k, Spec.ttl t !! e = Some (c', k) ∧ (k' = k ∨ k' = N)).
  { intros e c' k'. unfold ttl'. rewrite lookup_alter. case_decide as He; [subst e|eauto].
    destruct (Spec.ttl t !! _) as [[c1 k1]|]; [|done]. cbn. intros [= <- <-]. eauto. }
  assert (Hkeep : ∀ e c' k, Spec.ttl t !! e = Some (c', k) → ∃ k', ttl' !! e = Some (c', k')).
  { intros e c' k He. unfold ttl'. rewrite lookup_alter. case_decide; subst; rewrite He; eauto. }
  eexists _, _. split; [reflexivity|]. split_and!.
  - split; cbn; try done; auto; rewrite ?app_nil_r; try done.
    + intros q Hq. destruct (Hentry q Hq) as [?|[k Hk]]; [by left|right]. by eapply Hkeep.
    + intros q Hq. destruct (Hown q Hq) as [? Hcq]. split; [done|].
      intros c' k' (k & Hk & _)%Halter. by eapply Hcq.
    + intros e c' k' (k & [? ?]%Httl & [->| ->])%Halter; [by split|cbn; lia].
  - done.
  - intros c' k Hsil Hdoom. change (ticks_of _) with 0%nat. rewrite Nat.sub_0_r.
    assert (c' ≠ c) by (intros ->; specialize (Hsil eq_refl); lia).
    eapply doomed_mono; [exact Hdoom|done|done|by left|by left|].
    intros e k' He. cbn. unfold ttl'. rewrite lookup_alter_ne; [done|]. intros <-.
    apply (Hown p Hp) in He. congruence.
Qed.

(** The handler lets go of its connection. *)
Lemma released_inv N cap acc c s t i p :
  io_inv N cap acc s t → find_peer c s = Some (i, p) →
  let s' := mkIo (tcp s) (<[i := mkPeer c (idle_entry_ p) false]> (peers s))
              (next_conn s) (idle s) (shutting s) (evicted s) in
  io_inv N cap acc s' t ∧
  (∀ q, q ∈ peers s' → peer_id q ≠ c → q ∈ peers s) ∧
  ∀ c' k, doomed c' k s t → doomed c' k s' t.
Proof.
  intros Hs (Hi & Hc & Hp)%find_peer_Some s'.
  pose proof Hs as [Hrel Hon Hlen Hslots Hfds Hids Halive Hfresh Hentry Hown Httl].
  assert (Hsame : peer_id <$> peers s' = peer_id <$> peers s).
  { cbn. rewrite list_fmap_insert. apply list_insert_id. rewrite list_lookup_fmap, Hi. cbn.
    by rewrite Hc. }
  assert (Hback : ∀ q, q ∈ peers s' → ∃ q', q' ∈ peers s ∧ peer_id q' = peer_id q ∧
    idle_entry_ q' = idle_entry_ q ∧ (peer_id q ≠ c → q = q')).
  { intros q (j & Hj)%list_elem_of_lookup. cbn in Hj.
    apply list_lookup_insert_Some in Hj as [(<- & <- & _)|[_ Hj]].
    - exists p. by split_and!.
    - exists q. split_and!; [|done..]. by eapply list_elem_of_lookup_2. }
  split_and!.
  - split; rewrite ?Hsame; try done.
    + cbn. by rewrite length_insert.
    + intros q (q' & Hq' & <- & _)%Hback. by apply Hfresh.
    + intros q (q' & Hq' & <- & <- & _)%Hback. by apply Hentry.
    + intros q (q' & Hq' & <- & <- & _)%Hback. by apply Hown.
  - intros q (q' & Hq' & _ & _ & Heq)%Hback Hne. by rewrite Heq.
  - intros c' k [?|[[Hn ?]|(q & k' & Hq & Hqc & Ht & Hk)]]; [by left| |].
    + right. left. by rewrite Hsame.
    + right. right. destruct (decide (q = p)) as [->|Hne].
      * exists (mkPeer c (idle_entry_ p) false), k'. split_and!; [|by rewrite <-Hqc|done..].
        cbn. apply list_elem_of_insert. by eapply lookup_lt_Some.
      * exists q, k'. split_and!; [|done..]. apply list_elem_of_lookup in Hq as [j Hj].
        apply (list_elem_of_lookup_2 _ j). cbn. rewrite list_lookup_insert_ne; [done|congruence].
Qed.

Lemma io_step_good N cap acc e s t :
  io_inv N cap acc s t → held s → good_step N cap acc e s t (io_exec e s).
Proof.
  intros Hs Hh. destruct e as [fd|c n|c| |c]; cbn [io_exec].
  - by apply accept_good.
  - unfold recv. destruct (find_peer c s) as [[i p]|] eqn:Hf; [|by apply good_stay].
    unfold touch. destruct (in_handler p), (Z.ltb_spec 0 n); cbn [andb];
      [by eapply data_good|by apply good_stay..].
  - unfold handler_ends. destruct (find_peer c s) as [[i p]|] eqn:Hf; [|by apply good_stay].
    destruct (in_handler p); [|by apply good_stay]. cbn [negb].
    destruct (released_inv N cap acc c s t i p Hs Hf) as (Hs' & Hin & Hdoom).
    eapply good_drop; [exact Hs'| |done|done|exact Hdoom]. intros q Hq Hne. by apply (Hh q), Hin.
  - by apply tick_good.
  - unfold shut_done. apply (good_drop _ _ _ _ _ _ _ t); [|intros p Hp Hne|done..].
    + by destruct Hs; split.
    + destruct (Hh p Hp) as [?|?]; [by left|right; cbn; set_solver].
Qed.

Lemma io_run_good N cap es : ∀ acc s t,
  io_inv N cap acc s t → held s →
  ∃ s' t', io_run es s = Ok s' ∧ io_inv N cap (acc ++ accepted es) s' t' ∧ held s' ∧
    ∀ c k, Forall (silent c) es → doomed c k s t → doomed c (k - ticks_of es) s' t'.
Proof.
  induction es as [|e es IH]; intros acc s t Hs Hh.
  { exists s, t. rewrite app_nil_r. split_and!; [done..|]. intros c k _. by rewrite Nat.sub_0_r. }
  destruct (io_step_good N cap acc e s t Hs Hh) as (s1 & t1 & He & Hs1 & Hh1 & Hd1).
  destruct (IH _ s1 t1 Hs1 Hh1) as (s2 & t2 & Hrun & Hs2 & Hh2 & Hd2).
  exists s2, t2. cbn [io_run]. rewrite He. split_and!; [done| |done|].
  - change (e :: es) with ([e] ++ es). unfold accepted in *.
    by rewrite omap_app, filter_app, app_assoc.
  - intros c k [Hc Hcs]%Forall_cons Hdoom.
    replace (k - ticks_of (e :: es))%nat with (k - ticks_of [e] - ticks_of es)%nat
      by (unfold ticks_of; cbn; lia).
    by apply Hd2, Hd1.
Qed.

Lemma io_boot_inv seconds p :
  seconds ≤ max_size → pool_inv [] p →
  ∃ s, io_boot seconds p = Ok s ∧
    io_inv (ticks seconds) (pool_capacity p) [] s Spec.boot ∧ held s.
Proof.
  intros Hmax Hp. destruct (boot_related seconds Hmax) as (d & Hd & Hrel).
  unfold io_boot. rewrite Hd. eexists. split; [reflexivity|]. split.
  - split; cbn; try done.
    + by exists p, [].
    + constructor.
    + intros c. by rewrite elem_of_nil, elem_of_empty.
    + intros q Hq. by apply not_elem_of_nil in Hq.
    + intros q Hq. by apply not_elem_of_nil in Hq.
    + intros q Hq. by apply not_elem_of_nil in Hq.
  - intros q Hq. by apply not_elem_of_nil in Hq.
Qed.

(** ** Properties *)

(** C15: Idle connections are shut down and everything they held comes back.  Whatever
    connections are accepted and receive, and whenever their handlers end, a worker with a wheel never fails; a
    connection that receives nothing during as many ticks as there are seconds in the
    idle timeout has been shut down by then, or is gone; and once the handlers and the
    coroutines that shut connections down have ended, no connection is left, every
    slot is back in the pool and every descriptor accepted has been closed, once. *)
Theorem idle_connections_reclaimed seconds p es es' :
  seconds ≤ max_size → pool_inv [] p →
  ∃ s0 s1 s2, io_boot seconds p = Ok s0 ∧ io_run es s0 = Ok s1 ∧ io_run es' s1 = Ok s2 ∧
    (∀ q, q ∈ peers s1 → Forall (silent (peer_id q)) es' →
       (ticks seconds ≤ ticks_of es')%nat →
       peer_id q ∈ evicted s2 ∨ peer_id q ∉ peer_id <$> peers s2) ∧
    ((∀ q, q ∈ peers s2 → in_handler q = false) → shutting s2 = ∅ →
       conns (tcp s2) = [] ∧ (∃ p', pool_ (tcp s2) = Some p' ∧ pool_inv [] p') ∧
       closed_fds (tcp s2) ≡ₚ accepted es ++ accepted es').
Proof.
  intros Hmax Hp. destruct (io_boot_inv seconds p Hmax Hp) as (s0 & Hb & Hs0 & Hh0).
  destruct (io_run_good _ _ es _ s0 _ Hs0 Hh0) as (s1 & t1 & Hr1 & Hs1 & Hh1 & _).
  destruct (io_run_good _ _ es' _ s1 _ Hs1 Hh1) as (s2 & t2 & Hr2 & Hs2 & Hh2 & Hd).
  exists s0, s1, s2. split_and!; [done..| |].
  - intros q Hq Hsil Hticks.
    assert (Hdoom : doomed (peer_id q) (ticks seconds) s1 t1).
    { destruct (i_entry _ _ _ _ _ Hs1 q Hq) as [?|[k Hk]]; [by left|]. right. right.
      exists q, k. split_and!; [done..|]. by apply (i_ttl _ _ _ _ _ Hs1) in Hk as [[_ ?] _]. }
    destruct (Hd _ _ Hsil Hdoom) as [?|[[? _]|(q' & k & _ & _ & Ht & Hk)]]; [by left|by right|].
    apply (i_ttl _ _ _ _ _ Hs2) in Ht as [[? _] _]. lia.
  - intros Hdone Hnone. destruct (peers s2) as [|q l] eqn:Hpeers.
    2: { destruct (Hh2 q) as [Hq|Hq]; [rewrite Hpeers; by left| |].
         - rewrite Hdone in Hq; [done|by left].
         - rewrite Hnone in Hq. by apply not_elem_of_empty in Hq. }
    pose proof (i_len _ _ _ _ _ Hs2) as Hlen. rewrite Hpeers in Hlen.
    apply length_zero_iff_nil in Hlen. pose proof (i_fds _ _ _ _ _ Hs2) as Hfds.
    destruct (i_slots _ _ _ _ _ Hs2) as (p' & l & Hp' & Hinv & Hl & _).
    rewrite Hlen in Hl, Hfds. symmetry in Hl. apply Permutation_nil in Hl as ->.
    split_and!; [done|by exists p'|]. by rewrite app_nil_r in Hfds.
Qed.
End io_worker.
Arguments io_worker : clear implicits.

(** ** Witnesses: the wheel over [CircularBuffer], the slots of [BufferPool] *)

#[local] Instance entry_ring : Window Bucket (CircularBuffer Bucket) ∅ := circular_window ∅.

Module Demo.
Definition pool : RegisteredBufferPool := mkPool true 16 2 [1; 0] true 0.
(** Two connections; the second receives, the first idles for a second; the second ends
    after a send that failed. *)
Definition arrivals : list io_event := [IoAccept 7; IoAccept 8; IoRecv 1 5].
Definition idling : list io_event :=
  [IoTick; IoRecv 0 0; IoEnd 0; IoShut 0; IoEnd 1; IoShut 1].
Definition or_boot (r : res (io_worker RegisteredBufferPool (CircularBuffer Bucket))) :
    io_worker RegisteredBufferPool (CircularBuffer Bucket) :=
  match r with
  | Ok s => s
  | _ => mkIo (Tcp.mkWorker [] None []) [] 0 (mkWorld (mkWheel (new_CircularBuffer ∅ 1) false ∅ 0)
           ∅ TickDone) ∅ ∅
  end.
Definition booted := or_boot (io_boot 1 pool).
Definition arrived := or_boot (io_run arrivals booted).
Definition idled := or_boot (io_run idling arrived).

Lemma booted_eq : io_boot 1 pool = Ok booted.
Proof. vm_compute. reflexivity. Qed.
Lemma arrived_eq : io_run arrivals booted = Ok arrived.
Proof. vm_compute. reflexivity. Qed.
Lemma idled_eq : io_run idling arrived = Ok idled.
Proof. vm_compute. reflexivity. Qed.
Lemma idled_view : peers idled = [] ∧ shutting idled = ∅ ∧
  accepted arrivals ++ accepted idling = [7; 8].
Proof. vm_compute. done. Qed.
Lemma ok_trans {A} (r : res A) a b : r = Ok a → r = Ok b → a = b.
Proof. congruence. Qed.
Lemma full_pool : pool_inv [] pool.
Proof. split; [done|]. split; [|done]. apply Permutation_swap. Qed.
End Demo.

Lemma idle_connections_reclaimed_witness : closed_fds (tcp Demo.idled) ≡ₚ [7; 8].
Proof.
  destruct (idle_connections_reclaimed (R:=CircularBuffer Bucket) 1 Demo.pool Demo.arrivals
    Demo.idling ltac:(vm_compute; congruence) Demo.full_pool)
    as (s0 & s1 & s2 & H0 & H1 & H2 & _ & Hback).
  apply (Demo.ok_trans _ _ _ Demo.booted_eq) in H0 as <-.
  apply (Demo.ok_trans _ _ _ Demo.arrived_eq) in H1 as <-.
  apply (Demo.ok_trans _ _ _ Demo.idled_eq) in H2 as <-.
  destruct Demo.idled_view as (Hp & Hs & Ha). rewrite Ha in Hback.
  apply Hback; [|exact Hs]. intros q Hq.
  destruct (not_elem_of_nil q (eq_ind _ (λ l, q ∈ l) Hq _ Hp)).
Defined.
