(* ===== verification/Server.v ===== *)
(** * Server: the settings of a server and its workers' rings and buffers

    Models the setters of [include/coro_net/tcp_server.hpp], the configuration that
    [TcpServer::start] passes to the pool ([src/net/tcp_server.cc]), and what the
    constructor of [Scheduler] ([src/scheduler/scheduler.cc]) makes of its share of
    it: the parameters of the ring and the registered buffer pool, which may be
    refused.  [posix_memalign] and [io_uring_register_buffers] are parameters as in
    [BufferPool.v]. *)
From S2P Require Import Prelude Interfaces BufferPool Ring Buffer Tcp.

Definition kDefaultBufCapacity : Z := 4096.

(** ** TcpServer *)

Record settings := mkSettings {
  worker_threads_ : Z;
  sqpoll_threads_ : Z;
  sqpoll_cpus_ : list Z;
  use_fixed_buffers_ : bool;
  buf_slot_size_ : Z;
  buf_pool_capacity_ : Z;
}.
(** The constructor with the member initialisers. *)
Definition new_settings (worker_threads : Z) : settings :=
  mkSettings (if worker_threads =? 0 then 1 else worker_threads) 4 [] true (16 * 1024) 0.

Definition set_sqpoll_threads (m : Z) (s : settings) : settings :=
  mkSettings (worker_threads_ s) m (sqpoll_cpus_ s) (use_fixed_buffers_ s) (buf_slot_size_ s)
    (buf_pool_capacity_ s).
Definition set_sqpoll_cpus (cpus : list Z) (s : settings) : settings :=
  mkSettings (worker_threads_ s) (sqpoll_threads_ s) cpus (use_fixed_buffers_ s)
    (buf_slot_size_ s) (buf_pool_capacity_ s).
Definition set_fixed_buffers (on : bool) (slot_size capacity_per_worker : Z) (s : settings)
    : settings :=
  mkSettings (worker_threads_ s) (sqpoll_threads_ s) (sqpoll_cpus_ s) on slot_size
    capacity_per_worker.

(** [SchedulerConfig] in full: the part the pool varies from ring to ring is
    [Ring.SchedulerConfig]. *)
Record config := mkConfiguration {
  ring_entries : Z;
  idle_ms : Z;
  ring_part : SchedulerConfig;
  use_fixed_buffers : bool;
  buf_slot_size : Z;
  buf_pool_capacity : Z;
}.

(** The configuration made by [start]. *)
Definition start_config (s : settings) : config :=
  mkConfiguration 8192 1000 (mkConfig (0 <? sqpoll_threads_ s) (-1) (-1))
    (use_fixed_buffers_ s) (buf_slot_size_ s)
    (if use_fixed_buffers_ s
     then if buf_pool_capacity_ s =? 0 then kDefaultBufCapacity else buf_pool_capacity_ s
     else 0).

(** The workers' configurations: [SchedulerPool] changes the ring part only. *)
Definition with_ring (cfg : config) (r : SchedulerConfig) : config :=
  mkConfiguration (ring_entries cfg) (idle_ms cfg) r (use_fixed_buffers cfg)
    (buf_slot_size cfg) (buf_pool_capacity cfg).
Definition with_rings (cfg : config) (rings : list SchedulerConfig) : list config :=
  with_ring cfg <$> rings.
Definition start_pool (ring_fd : Z → Z) (s : settings) : res (list config) :=
  let cfg := start_config s in
  rings ← new_SchedulerPool ring_fd (worker_threads_ s) (ring_part cfg) (sqpoll_threads_ s)
            (sqpoll_cpus_ s);
  Ok (with_rings cfg rings).

(** ** The constructor of Scheduler *)

Definition ring_params (c : config) : IoUringParams :=
  mkParams (ring_entries c) (cfg_sqpoll (ring_part c)) (idle_ms c) (cfg_wq_fd (ring_part c))
    (cfg_cpu (ring_part c)).

(** [buf_pool_]: reset when the registration failed. *)
Definition buffer_pool (memalign : Z → bool) (register : list iovec → Z) (c : config)
    : option RegisteredBufferPool :=
  if use_fixed_buffers c && (0 <? buf_pool_capacity c) then
    let p := new_pool memalign register (buf_pool_capacity c) (buf_slot_size c) in
    if enabled_ p then Some p else None
  else None.

(** [TcpConnection::has_fixed_slot]. *)
Definition has_fixed_slot (c : TcpConnection) : bool := 0 <=? buf_index_ c.

(** ** Lemmas *)

Lemma new_pool_enabled_iff memalign register capacity slot_size :
  0 < capacity → 0 ≤ slot_size →
  enabled_ (new_pool memalign register capacity slot_size) =
  negb (slot_size =? 0) && memalign (u64 (clamped capacity * slot_size)) &&
  (0 <=? register (iovs (clamped capacity) slot_size)).
Proof.
  intros Hc Hs. unfold new_pool.
  assert ((if kMaxRegBuffers <? capacity then kMaxRegBuffers else capacity)
          = clamped capacity) as ->
    by (unfold clamped; destruct (Z.ltb_spec kMaxRegBuffers capacity); lia).
  rewrite (proj2 (Z.eqb_neq capacity 0)) by lia. cbn [orb].
  destruct (slot_size =? 0); [done|]. cbn [negb andb].
  destruct (memalign _); [|done]. cbn [negb andb].
  destruct (Z.ltb_spec (register (iovs (clamped capacity) slot_size)) 0).
  - by rewrite (proj2 (Z.leb_gt 0 _)).
  - by rewrite (proj2 (Z.leb_le 0 _)).
Qed.

Lemma build_length ring_fd grouping gsz cpus base k : ∀ built l,
  build ring_fd grouping gsz cpus base k built = Ok l → length l = (length built + k)%nat.
Proof.
  induction k as [|k IH]; intros built l; cbn [build].
  { intros [= <-]. lia. }
  intros (c & _ & Hb)%res_bind_ok. rewrite (IH _ _ Hb), length_app. cbn. lia.
Qed.

(** ** Properties *)

(** Every worker of a started server gets the same share of buffers, and its
    first connection takes the path with a registered slot exactly when fixed
    buffers are on, their size is not zero and the kernel let the memory be
    allocated and registered, for the capacity that was set (by default 4096),
    clamped to 16384; otherwise it takes the path with a [Buffer]. *)
Theorem handler_path ring_fd s cs memalign register fd c :
  0 ≤ buf_slot_size_ s → 0 ≤ buf_pool_capacity_ s → 0 ≤ worker_threads_ s →
  start_pool ring_fd s = Ok cs → c ∈ cs →
  let capacity := clamped (if buf_pool_capacity_ s =? 0 then kDefaultBufCapacity
                           else buf_pool_capacity_ s) in
  zlen cs = worker_threads_ s ∧
  has_fixed_slot (new_TcpConnection fd (buffer_pool memalign register c)).1 =
  use_fixed_buffers_ s && negb (buf_slot_size_ s =? 0) &&
  memalign (u64 (capacity * buf_slot_size_ s)) &&
  (0 <=? register (iovs capacity (buf_slot_size_ s))).
Proof.
  intros Hslot Hcap Hw Hstart Hc capacity.
  apply res_bind_ok in Hstart as (rings & Hpool & [= <-]).
  unfold new_SchedulerPool in Hpool. apply build_length in Hpool.
  split; [unfold zlen, with_rings; rewrite length_fmap, Hpool; cbn; lia|].
  apply list_elem_of_fmap in Hc as (r & -> & _). unfold with_ring, buffer_pool, start_config.
  cbn [use_fixed_buffers buf_pool_capacity buf_slot_size].
  destruct (use_fixed_buffers_ s); [|done]. cbn [andb].
  set (cap := if buf_pool_capacity_ s =? 0 then _ else _) in *.
  assert (Hpos : 0 < cap).
  { unfold cap, kDefaultBufCapacity. destruct (Z.eqb_spec (buf_pool_capacity_ s) 0); lia. }
  rewrite (proj2 (Z.ltb_lt 0 cap)) by done.
  pose proof (new_pool_enabled_iff memalign register cap (buf_slot_size_ s) Hpos Hslot) as Hen.
  fold capacity in Hen. rewrite <-Hen.
  destruct (enabled_ (new_pool memalign register cap (buf_slot_size_ s))) eqn:He; [|done].
  symmetry in Hen. apply andb_true_iff in Hen as [[H1%negb_true_iff%Z.eqb_neq H2]%andb_true_iff H3%Z.leb_le].
  destruct (new_pool_enabled memalign register cap (buf_slot_size_ s)) as (Hinv & Hpc & _);
    [done|lia|done|done|].
  unfold new_TcpConnection, has_fixed_slot.
  pose proof (pool_acquire_ok [] _ Hinv) as Hacq. cbn [pool_acquire buffer_pool_slots] in Hacq.
  cbn [pool_acquire buffer_pool_slots]. destruct (acquire _) as [idx p'].
  destruct Hacq as [_ [[Hidx _]|(_ & _ & Hfull)]].
  - cbn. by rewrite (proj2 (Z.leb_le 0 idx)), (proj2 (Z.leb_le 0 idx)).
  - exfalso. cbn in Hfull. rewrite Hpc in Hfull.
    pose proof (clamped_bounds cap Hpos). unfold zlen in Hfull. cbn in Hfull. lia.
Qed.

Module Demo.
(** Five workers in four groups, two slots of 16 bytes each. *)
Definition s : settings := set_fixed_buffers true 16 2 (new_settings 5).
Definition cs : list config :=
  match start_pool (λ i, 100 + i) s with Ok cs => cs | _ => [] end.
Lemma start_s : start_pool (λ i, 100 + i) s = Ok cs.
Proof. vm_compute. reflexivity. Qed.
Definition c : config := default (start_config s) (cs !! 3%nat).
Lemma c_in : c ∈ cs.
Proof. apply (list_elem_of_lookup_2 cs 3). vm_compute. reflexivity. Qed.
End Demo.

Lemma handler_path_witness :
  zlen Demo.cs = 5 ∧
  has_fixed_slot (new_TcpConnection 9 (buffer_pool (λ _, true) (λ v, if (List.length v =? 2)%nat then 0 else -12) Demo.c)).1
    = true.
Proof.
  apply (handler_path (λ i, 100 + i) Demo.s Demo.cs (λ _, true)
    (λ v, if (List.length v =? 2)%nat then 0 else -12) 9 Demo.c).
  - vm_compute. congruence.
  - vm_compute. congruence.
  - vm_compute. congruence.
  - exact Demo.start_s.
  - exact Demo.c_in.
Defined.
