(* ===== verification/Resources.v ===== *)
(** * Resources: what a worker takes from the system and gives back

    Models the construction and the destruction of a worker: the constructor and the
    destructor of [Scheduler] ([src/scheduler/scheduler.cc]), of [IoUring]
    ([include/coro_net/io/io_uring.h]), of [TimerQueue] ([src/timer/timer_queue.cc])
    and of [RegisteredBufferPool] ([include/coro_net/registered_buffer_pool.hpp]), and
    the vector of workers of [SchedulerPool] ([src/scheduler/scheduler_pool.cc]).

    The state is what the process holds: rings, descriptors, arenas and buffer
    registrations; releasing what is not held, or unregistering from a ring that is
    gone, is recorded as misuse.  A constructor that throws destroys the members
    constructed before, in reverse order, without the destructor's body.  The kernel's
    answers are parameters, one [outcome] per worker; a ring is named by the number of
    its worker. *)
From S2P Require Import Prelude Interfaces BufferPool Ring Buffer Tcp Server.

(** What the process holds. *)
Record held := mkHeld {
  rings : gset nat;
  fds : gset Z;
  arenas : gset nat;
  registrations : gset nat;   (* the rings with registered buffers *)
  misused : bool;
}.

Definition misuse (o : held) : held :=
  mkHeld (rings o) (fds o) (arenas o) (registrations o) true.

(** *** System calls *)

Definition queue_init (i : nat) (o : held) : held :=
  mkHeld ({[i]} ∪ rings o) (fds o) (arenas o) (registrations o) (misused o).
(** [io_uring_queue_exit]: of a live ring; the kernel drops its registrations. *)
Definition queue_exit (i : nat) (o : held) : held :=
  if decide (i ∈ rings o)
  then mkHeld (rings o ∖ {[i]}) (fds o) (arenas o) (registrations o ∖ {[i]}) (misused o)
  else misuse o.

(** A call that returns a descriptor or a negative value. *)
Definition open_fd (fd : Z) (o : held) : held :=
  if fd <? 0 then o else
  mkHeld (rings o) ({[fd]} ∪ fds o) (arenas o) (registrations o) (misused o).
Definition close_fd (fd : Z) (o : held) : held :=
  if decide (fd ∈ fds o)
  then mkHeld (rings o) (fds o ∖ {[fd]}) (arenas o) (registrations o) (misused o)
  else misuse o.

Definition alloc_arena (i : nat) (o : held) : held :=
  mkHeld (rings o) (fds o) ({[i]} ∪ arenas o) (registrations o) (misused o).
Definition free_arena (i : nat) (o : held) : held :=
  if decide (i ∈ arenas o)
  then mkHeld (rings o) (fds o) (arenas o ∖ {[i]}) (registrations o) (misused o)
  else misuse o.

(** [io_uring_register_buffers] that succeeds, and [io_uring_unregister_buffers]. *)
Definition register_buffers (i : nat) (o : held) : held :=
  if decide (i ∈ rings o)
  then mkHeld (rings o) (fds o) (arenas o) ({[i]} ∪ registrations o) (misused o)
  else misuse o.
Definition unregister_buffers (i : nat) (o : held) : held :=
  if decide (i ∈ rings o ∧ i ∈ registrations o)
  then mkHeld (rings o) (fds o) (arenas o) (registrations o ∖ {[i]}) (misused o)
  else misuse o.

(** ** The parts of a worker *)

Section worker.
Context (bSQPOLL bSQ_AFF bATTACH_WQ bCOOP_TASKRUN : Z).

(** The kernel's and the allocator's answers to one worker. *)
Record outcome := mkOutcome {
  init : Z → io_uring_params → Z;
  features : Z → io_uring_params → Z;
  eventfd : Z;
  timerfd_create : Z;
  errno : Z;
  memalign : Z → bool;
  register : list iovec → Z;
}.

(** [IoUring::IoUring] and its destructor. *)
Definition make_ring (i : nat) (a : outcome) (c : config) (o : held) : res IoUring * held :=
  match new_IoUring bSQPOLL bSQ_AFF bATTACH_WQ bCOOP_TASKRUN (init a) (features a)
          (ring_params c) with
  | Ok r => (Ok r, queue_init i o)
  | e => (e, o)
  end.
Definition destroy_ring (i : nat) (o : held) : held := queue_exit i o.

(** [TimerQueue::TimerQueue]: the descriptor, or [std::system_error]. *)
Definition make_timer_queue (a : outcome) (o : held) : res Z * held :=
  let timerfd_ := timerfd_create a in
  let o := open_fd timerfd_ o in
  if timerfd_ <? 0 then (Throw (SystemError (errno a)), o) else (Ok timerfd_, o).
(** [~TimerQueue]; the timers are those of [TimerQueue.v]. *)
Definition destroy_timer_queue (timerfd_ : Z) (o : held) : held :=
  if 0 <=? timerfd_ then close_fd timerfd_ o else o.

(** [RegisteredBufferPool::RegisteredBufferPool], call by call. *)
Definition make_pool (i : nat) (a : outcome) (capacity slot_size : Z) (o : held)
    : RegisteredBufferPool * held :=
  if (capacity =? 0) || (slot_size =? 0) then (mkPool false slot_size capacity [] false 0, o) else
  let cap := if kMaxRegBuffers <? capacity then kMaxRegBuffers else capacity in
  if negb (memalign a (u64 (cap * slot_size))) then (mkPool false slot_size cap [] false 0, o) else
  let o := alloc_arena i o in
  let ret := register a (iovs cap slot_size) in
  if ret <? 0 then (mkPool false slot_size cap [] false (- ret), free_arena i o) else
  (mkPool true slot_size cap (fill_free_list (Z.to_nat cap) []) true 0, register_buffers i o).
(** [~RegisteredBufferPool]. *)
Definition destroy_pool (i : nat) (p : RegisteredBufferPool) (o : held) : held :=
  let o := if enabled_ p then unregister_buffers i o else o in
  if arena_ p then free_arena i o else o.

(** ** Scheduler *)

(** The members that hold resources; [unique_ptr]s may be null. *)
Record scheduler := mkScheduler {
  ring_ : option IoUring;
  timer_queue_ : option Z;          (* its [timerfd_] *)
  buf_pool_ : option RegisteredBufferPool;
  wake_fd_ : Z;
}.

(** The destruction of the members, in reverse order of declaration. *)
Definition destroy_members (i : nat) (s : scheduler) (o : held) : held :=
  let o := from_option (λ p, destroy_pool i p o) o (buf_pool_ s) in
  let o := from_option (λ fd, destroy_timer_queue fd o) o (timer_queue_ s) in
  if ring_ s is Some _ then destroy_ring i o else o.

(** [buf_pool_]: a pool that could not be registered is destroyed again. *)
Definition make_buffer_pool (i : nat) (a : outcome) (c : config) (o : held)
    : option RegisteredBufferPool * held :=
  if use_fixed_buffers c && (0 <? buf_pool_capacity c) then
    let '(p, o) := make_pool i a (buf_pool_capacity c) (buf_slot_size c) o in
    if enabled_ p then (Some p, o) else (None, destroy_pool i p o)
  else (None, o).

(** [Scheduler::Scheduler]. *)
Definition make_scheduler (i : nat) (a : outcome) (c : config) (o : held) : res scheduler * held :=
  match make_ring i a c o with
  | (Ok r, o) =>
      let wake_fd := eventfd a in
      let o := open_fd wake_fd o in
      match make_timer_queue a o with
      | (Ok tfd, o) =>
          let '(p, o) := make_buffer_pool i a c o in
          (Ok (mkScheduler (Some r) (Some tfd) p wake_fd), o)
      | (Throw e, o) => (Throw e, destroy_members i (mkScheduler (Some r) None None wake_fd) o)
      | (Abort, o) => (Abort, o)
      | (UB, o) => (UB, o)
      end
  | (Throw e, o) => (Throw e, o)
  | (Abort, o) => (Abort, o)
  | (UB, o) => (UB, o)
  end.

(** [Scheduler::~Scheduler]: its body, then the members, now null but the ring. *)
Definition destroy_scheduler (i : nat) (s : scheduler) (o : held) : held :=
  let o := from_option (λ p, destroy_pool i p o) o (buf_pool_ s) in
  let o := from_option (λ fd, destroy_timer_queue fd o) o (timer_queue_ s) in
  let o := if 0 <=? wake_fd_ s then close_fd (wake_fd_ s) o else o in
  destroy_members i (mkScheduler (ring_ s) None None (wake_fd_ s)) o.

(** ** SchedulerPool *)

(** [schedulers_], from the number [i] of its first element. *)
Fixpoint destroy_schedulers (i : nat) (ss : list scheduler) (o : held) : held :=
  match ss with
  | [] => o
  | s :: ss => destroy_schedulers (S i) ss (destroy_scheduler i s o)
  end.

(** The loop of the constructor over the configurations still to do; when one throws,
    [schedulers_] is destroyed. *)
Fixpoint make_schedulers (work : list (outcome * config)) (built : list scheduler) (o : held)
    : res (list scheduler) * held :=
  match work with
  | [] => (Ok built, o)
  | (a, c) :: work =>
      match make_scheduler (length built) a c o with
      | (Ok s, o) => make_schedulers work (built ++ [s]) o
      | (Throw e, o) => (Throw e, destroy_schedulers 0 built o)
      | (Abort, o) => (Abort, o)
      | (UB, o) => (UB, o)
      end
  end.
End worker.

(** ** What a worker holds *)

#[export] Instance held_eq_dec : EqDecision held.
Proof. solve_decision. Defined.

Definition plus (p o : held) : held :=
  mkHeld (rings p ∪ rings o) (fds p ∪ fds o) (arenas p ∪ arenas o)
    (registrations p ∪ registrations o) (misused p || misused o).
Definition apart (p o : held) : Prop :=
  (rings p ∪ registrations p) ## (rings o ∪ registrations o) ∧ fds p ## fds o ∧ arenas p ## arenas o.
Definition nothing : held := mkHeld ∅ ∅ ∅ ∅ false.

Lemma held_eq o o' :
  rings o = rings o' → fds o = fds o' → arenas o = arenas o' →
  registrations o = registrations o' → misused o = misused o' → o = o'.
Proof. destruct o, o'. cbn. congruence. Qed.

Ltac held_solver :=
  apply held_eq; cbn; try (apply set_eq; intros ?); try set_solver; try done.

(** The same, between sums: no hypothesis is needed. *)
Ltac sum_solver := apply held_eq; cbn; [clear; set_solver..|done].

Lemma plus_assoc p q o : plus (plus p q) o = plus p (plus q o).
Proof. held_solver. by rewrite orb_assoc. Qed.
Lemma plus_nothing o : plus nothing o = o.
Proof. held_solver. Qed.
Lemma plus_comm p o : plus p o = plus o p.
Proof. held_solver. by rewrite orb_comm. Qed.
Lemma apart_plus p q o : apart p (plus q o) ↔ apart p q ∧ apart p o.
Proof. unfold apart. cbn. set_solver. Qed.
Lemma apart_sym p q : apart p q ↔ apart q p.
Proof. unfold apart. set_solver. Qed.

(** The descriptors a constructor got. *)
Definition got (fd : Z) : gset Z := if fd <? 0 then ∅ else {[fd]}.
Definition part_of (i : nat) (s : scheduler) : held :=
  mkHeld {[i]} (got (wake_fd_ s) ∪ from_option got ∅ (timer_queue_ s))
    (if buf_pool_ s is Some _ then {[i]} else ∅) (if buf_pool_ s is Some _ then {[i]} else ∅) false.

(** A worker as the constructor leaves it. *)
Definition built_ok (s : scheduler) : Prop :=
  (∃ r, ring_ s = Some r) ∧
  (∃ t, timer_queue_ s = Some t ∧ 0 ≤ t ∧ t ≠ wake_fd_ s) ∧
  (∀ p, buf_pool_ s = Some p → enabled_ p = true ∧ arena_ p = true).

Section facts.
Context (bSQPOLL bSQ_AFF bATTACH_WQ bCOOP_TASKRUN : Z).
Implicit Types (a : outcome) (c : config) (o : held).

Abbreviation make := (make_scheduler bSQPOLL bSQ_AFF bATTACH_WQ bCOOP_TASKRUN).
Abbreviation make_all := (make_schedulers bSQPOLL bSQ_AFF bATTACH_WQ bCOOP_TASKRUN).

(** The call-by-call constructor of the pool makes the pool of [BufferPool.v]. *)
Lemma make_pool_new i a capacity slot_size o :
  i ∉ arenas o → i ∈ rings o →
  make_pool i a capacity slot_size o =
  let p := new_pool (memalign a) (register a) capacity slot_size in
  (p, if enabled_ p then plus (mkHeld ∅ ∅ {[i]} {[i]} false) o else o).
Proof.
  intros Ha Hr. unfold make_pool, new_pool.
  destruct ((capacity =? 0) || (slot_size =? 0)); [done|].
  set (cap := if kMaxRegBuffers <? capacity then _ else _).
  destruct (memalign a _); [|done]. cbn [negb].
  destruct (_ <? 0); cbn [enabled_]; f_equal.
  - unfold free_arena. rewrite decide_True by (cbn; set_solver). held_solver.
  - unfold register_buffers. rewrite decide_True by done. held_solver.
Qed.

Lemma pool_arena (f : Z → bool) (g : list iovec → Z) capacity slot_size :
  arena_ (new_pool f g capacity slot_size) = enabled_ (new_pool f g capacity slot_size).
Proof.
  unfold new_pool. destruct (_ || _); [done|]. destruct (negb _); [done|]. by destruct (_ <? 0).
Qed.

Lemma make_buffer_pool_ok i a c o p o' :
  i ∉ arenas o → i ∈ rings o → make_buffer_pool i a c o = (p, o') →
  p = buffer_pool (memalign a) (register a) c ∧
  o' = (if p is Some _ then plus (mkHeld ∅ ∅ {[i]} {[i]} false) o else o) ∧
  (∀ q, p = Some q → enabled_ q = true ∧ arena_ q = true).
Proof.
  intros Ha Hr. unfold make_buffer_pool, buffer_pool.
  destruct (_ && _); [|by intros [= <- <-]].
  rewrite make_pool_new by done. set (q := new_pool _ _ _ _).
  pose proof (pool_arena (memalign a) (register a) (buf_pool_capacity c) (buf_slot_size c)) as Har.
  fold q in Har. cbn beta iota zeta. destruct (enabled_ q) eqn:Hq.
  - intros [= <- <-]. split_and!; [done..|]. intros ? [= <-]. by rewrite Hq.
  - unfold destroy_pool. rewrite Hq, Har. intros [= <- <-]. done.
Qed.

(** The kernel gives descriptors that are not open. *)
Definition fresh_fds a o : Prop :=
  got (eventfd a) ## fds o ∧ got (timerfd_create a) ## fds o ∧
  got (eventfd a) ## got (timerfd_create a).
Definition unused (i : nat) o : Prop := (i ∉ rings o) ∧ (i ∉ arenas o) ∧ i ∉ registrations o.

Lemma open_fd_plus fd o : open_fd fd o = plus (mkHeld ∅ (got fd) ∅ ∅ false) o.
Proof. unfold open_fd, got. destruct (fd <? 0); held_solver. Qed.

Lemma new_IoUring_outcome a c :
  (∃ r, new_IoUring bSQPOLL bSQ_AFF bATTACH_WQ bCOOP_TASKRUN (init a) (features a) (ring_params c) = Ok r) ∨
  (∃ e, new_IoUring bSQPOLL bSQ_AFF bATTACH_WQ bCOOP_TASKRUN (init a) (features a) (ring_params c) = Throw e).
Proof.
  unfold new_IoUring. generalize (- EINVAL). generalize (candidates bSQPOLL bSQ_AFF bATTACH_WQ bCOOP_TASKRUN (ring_params c)).
  intros fs. induction fs as [|f fs IH]; intros ret; cbn [try_candidates]; [right; by eexists|].
  destruct (_ =? 0); [left; by eexists|apply IH].
Qed.

(** The constructor: what it acquires, or what it leaves behind when it throws. *)
Lemma make_scheduler_ok i a c o :
  unused i o → fresh_fds a o →
  match make i a c o with
  | (Ok s, o') => o' = plus (part_of i s) o ∧ apart (part_of i s) o ∧ built_ok s
  | (Throw e, o') => o' = o ∨ (timerfd_create a < 0 ∧ e = SystemError (errno a) ∧ o' = open_fd (eventfd a) o)
  | _ => False
  end.
Proof.
  intros (Hi1 & Hi2 & Hi3) (Hf1 & Hf2 & Hf3). unfold make_scheduler, make_ring.
  destruct (new_IoUring_outcome a c) as [[r ->]|[e ->]]; [|by left].
  unfold make_timer_queue. destruct (Z.ltb_spec (timerfd_create a) 0) as [Hneg|Hpos].
  - right. split_and!; [done..|]. unfold destroy_members. cbn.
    rewrite (open_fd_plus (timerfd_create a)). unfold destroy_ring, queue_exit.
    rewrite decide_True by (rewrite open_fd_plus; cbn; set_solver).
    assert (Hgt : got (timerfd_create a) = ∅) by (unfold got; by rewrite (proj2 (Z.ltb_lt _ 0))).
    rewrite !open_fd_plus, Hgt. clear Hf1 Hf2 Hf3 Hgt. held_solver.
  - destruct (make_buffer_pool i a c _) as [p o'] eqn:Hp.
    destruct (make_buffer_pool_ok i a c
      (open_fd (timerfd_create a) (open_fd (eventfd a) (queue_init i o))) p o') as (_ & -> & Hen);
      [rewrite !open_fd_plus; cbn; clear -Hi2; set_solver|
       rewrite !open_fd_plus; cbn; clear; set_solver|done|].
    assert (Ht : got (timerfd_create a) = {[timerfd_create a]}).
    { unfold got. by rewrite (proj2 (Z.ltb_ge _ 0)). }
    split_and!.
    + rewrite !open_fd_plus. unfold part_of. cbn. rewrite Ht. destruct p; sum_solver.
    + unfold apart, part_of. cbn. rewrite Ht in *. clear -Hi1 Hi2 Hi3 Hf1 Hf2 Hf3.
      destruct p; split_and!; set_solver.
    + split_and!; [by eexists| |done]. exists (timerfd_create a). cbn. split_and!; [done..|].
      intros Heq. rewrite <-Heq, Ht in Hf3. set_solver.
Qed.

(** *** Giving back what was taken last *)

Lemma destroy_pool_ok i p o :
  enabled_ p = true → arena_ p = true → i ∈ rings o → i ∉ arenas o → i ∉ registrations o →
  destroy_pool i p (plus (mkHeld ∅ ∅ {[i]} {[i]} false) o) = o.
Proof.
  intros He Ha Hr H1 H2. unfold destroy_pool. rewrite He, Ha.
  unfold unregister_buffers. rewrite decide_True by (cbn; clear -Hr; set_solver).
  unfold free_arena. rewrite decide_True by (cbn; clear; set_solver).
  clear He Ha Hr. held_solver.
Qed.

Lemma close_fd_ok fd o : fd ∉ fds o → close_fd fd (plus (mkHeld ∅ {[fd]} ∅ ∅ false) o) = o.
Proof.
  intros Hfd. unfold close_fd. rewrite decide_True by (cbn; clear; set_solver). held_solver.
Qed.

Lemma destroy_ring_ok i o :
  i ∉ rings o → i ∉ registrations o → destroy_ring i (plus (mkHeld {[i]} ∅ ∅ ∅ false) o) = o.
Proof.
  intros H1 H2. unfold destroy_ring, queue_exit.
  rewrite decide_True by (cbn; clear; set_solver). held_solver.
Qed.

(** The destructor gives back exactly the worker's part. *)
Lemma destroy_scheduler_ok i s o :
  built_ok s → apart (part_of i s) o → destroy_scheduler i s (plus (part_of i s) o) = o.
Proof.
  intros ([r Hr] & (t & Ht & Hpos & Hne) & Hp) (H1 & H2 & H3).
  unfold destroy_scheduler.
  rewrite Hr, Ht. cbn [from_option destroy_members ring_ timer_queue_ buf_pool_].
  unfold destroy_timer_queue. rewrite (proj2 (Z.leb_le 0 t)) by done.
  unfold part_of in *. rewrite Ht in *. cbn in H1, H2, H3.
  assert (Hgt : got t = {[t]}) by (unfold got; by rewrite (proj2 (Z.ltb_ge t 0))).
  cbn [from_option]. rewrite Hgt in *.
  set (R := plus (mkHeld {[i]} ∅ ∅ ∅ false) o).
  set (W := plus (mkHeld ∅ (got (wake_fd_ s)) ∅ ∅ false) R).
  set (T := plus (mkHeld ∅ {[t]} ∅ ∅ false) W).
  assert (Hpool : from_option (λ p, destroy_pool i p
      (plus (mkHeld {[i]} (got (wake_fd_ s) ∪ {[t]}) (if buf_pool_ s is Some _ then {[i]} else ∅)
         (if buf_pool_ s is Some _ then {[i]} else ∅) false) o))
      (plus (mkHeld {[i]} (got (wake_fd_ s) ∪ {[t]}) (if buf_pool_ s is Some _ then {[i]} else ∅)
         (if buf_pool_ s is Some _ then {[i]} else ∅) false) o) (buf_pool_ s) = T).
  { destruct (buf_pool_ s) as [p|] eqn:Hb; cbn [from_option]; [|unfold T, W, R; sum_solver].
    destruct (Hp p eq_refl) as [He Ha].
    etrans; [|apply (destroy_pool_ok i p T He Ha); unfold T, W, R; cbn; [clear; set_solver|..]].
    - f_equal. unfold T, W, R. sum_solver.
    - clear -H3. set_solver.
    - clear -H1. set_solver. }
  rewrite Hpool. clear Hpool. unfold T. rewrite close_fd_ok.
  2:{ unfold W, R, got. cbn. destruct (wake_fd_ s <? 0); clear -H2 Hne; set_solver. }
  assert (HR : destroy_ring i R = o).
  { apply destroy_ring_ok; clear -H1; set_solver. }
  destruct (Z.leb_spec 0 (wake_fd_ s)) as [Hw|Hw].
  - unfold W. assert (got (wake_fd_ s) = {[wake_fd_ s]}) as Hgw
      by (unfold got; by rewrite (proj2 (Z.ltb_ge (wake_fd_ s) 0))).
    rewrite Hgw in *. rewrite close_fd_ok; [done|]. unfold R. cbn. clear -H2. set_solver.
  - assert (W = R) as ->; [|done]. unfold W.
    assert (got (wake_fd_ s) = ∅) as -> by (unfold got; by rewrite (proj2 (Z.ltb_lt (wake_fd_ s) 0))).
    apply plus_nothing.
Qed.

(** *** All the workers *)

Fixpoint parts (i : nat) (ss : list scheduler) : held :=
  match ss with [] => nothing | s :: ss => plus (part_of i s) (parts (S i) ss) end.
Fixpoint all_apart (i : nat) (ss : list scheduler) (o : held) : Prop :=
  match ss with
  | [] => True
  | s :: ss => apart (part_of i s) (plus (parts (S i) ss) o) ∧ all_apart (S i) ss o
  end.

Lemma destroy_schedulers_ok i ss o :
  Forall built_ok ss → all_apart i ss o → destroy_schedulers i ss (plus (parts i ss) o) = o.
Proof.
  revert i. induction ss as [|s ss IH]; intros i Hok Hap; cbn; [apply plus_nothing|].
  apply Forall_cons in Hok as [Hs Hok]. destruct Hap as [Hap1 Hap2].
  rewrite plus_assoc, destroy_scheduler_ok by done. by apply IH.
Qed.

Lemma parts_snoc i ss s : parts i (ss ++ [s]) = plus (part_of (i + length ss) s) (parts i ss).
Proof.
  revert i. induction ss as [|s' ss IH]; intros i; cbn.
  - by rewrite Nat.add_0_r.
  - rewrite IH. rewrite Nat.add_succ_r. cbn. by rewrite <-!plus_assoc, (plus_comm (part_of i s')).
Qed.

Lemma all_apart_add i ss o q :
  all_apart i ss o → apart q (parts i ss) → all_apart i ss (plus q o).
Proof.
  revert i. induction ss as [|s ss IH]; intros i; cbn; [done|].
  rewrite !apart_plus. intros [[H1 H2] H3] [H4 H5]. split; [|by apply IH].
  split_and!; [done| |done]. by apply apart_sym.
Qed.

Lemma all_apart_snoc i ss s o :
  all_apart i ss o → apart (part_of (i + length ss) s) (plus (parts i ss) o) →
  all_apart i (ss ++ [s]) o.
Proof.
  revert i. induction ss as [|s' ss IH]; intros i; cbn.
  { rewrite plus_nothing, Nat.add_0_r. done. }
  rewrite Nat.add_succ_r, parts_snoc, !apart_plus. cbn.
  intros [[H1 H2] H3] [[H4 H5] H6]. split; [|by apply IH; [|rewrite apart_plus]].
  split_and!; [|done..]. by apply apart_sym.
Qed.

(** The kernel's answers to a list of workers: no descriptor twice, none open. *)
Definition work_fds (work : list (outcome * config)) : list Z :=
  work ≫= λ w, filter (λ x, 0 ≤ x) [eventfd w.1; timerfd_create w.1].
Definition fresh_work (i : nat) (work : list (outcome * config)) o : Prop :=
  NoDup (work_fds work) ∧ (∀ fd, fd ∈ work_fds work → fd ∉ fds o) ∧
  ∀ j, (i ≤ j)%nat → unused j o.

Lemma got_spec fd x : x ∈ got fd ↔ x = fd ∧ 0 ≤ fd.
Proof. unfold got. destruct (Z.ltb_spec fd 0); set_solver by lia. Qed.

Lemma fresh_work_head i a c work o : fresh_work i ((a, c) :: work) o → fresh_fds a o ∧ unused i o.
Proof.
  intros (Hnd & Hfr & Hun). split; [|by apply Hun].
  assert (Hin : ∀ x, x ∈ got (eventfd a) ∨ x ∈ got (timerfd_create a) → x ∈ work_fds ((a, c) :: work)).
  { intros x [[-> ?]%got_spec|[-> ?]%got_spec]; unfold work_fds; rewrite bind_cons; apply elem_of_app;
      left; apply list_elem_of_filter; (split; [done|]); cbn; set_solver. }
  split_and!; intros x Hx.
  - apply Hfr, Hin. by left.
  - apply Hfr, Hin. by right.
  - apply got_spec in Hx as [-> ?]. intros [Heq ?]%got_spec.
    unfold work_fds in Hnd. rewrite bind_cons in Hnd. apply NoDup_app in Hnd as [Hnd _]. cbn [fst] in Hnd.
    rewrite !filter_cons_True in Hnd by lia. apply NoDup_cons in Hnd as [Hne _].
    apply Hne. rewrite Heq. by left.
Qed.

(** The rest of the work is fresh once the first worker is built. *)
Lemma fresh_work_tail i a c work o s :
  fresh_work i ((a, c) :: work) o →
  wake_fd_ s = eventfd a → timer_queue_ s = Some (timerfd_create a) →
  fresh_work (S i) work (plus (part_of i s) o).
Proof.
  intros (Hnd & Hfr & Hun) Hw Ht. unfold work_fds in *. rewrite bind_cons in Hnd, Hfr.
  cbn [fst] in *. apply NoDup_app in Hnd as (_ & Hdis & Hnd). split_and!; [done|..].
  - intros fd Hfd. cbn [fds plus part_of]. rewrite Hw, Ht. cbn [from_option].
    assert (Hn : fd ∉ filter (λ x, 0 ≤ x) [eventfd a; timerfd_create a]).
    { intros Hin. by apply (Hdis fd). }
    rewrite list_elem_of_filter in Hn. rewrite !elem_of_union, !got_spec.
    intros [[[-> ?]|[-> ?]]|Hin]; [apply Hn; set_solver..|].
    apply (Hfr fd); [|done]. apply elem_of_app. by right.
  - intros j Hj. destruct (Hun j ltac:(lia)) as (? & ? & ?).
    unfold unused. cbn. destruct (buf_pool_ s); cbn; set_solver by lia.
Qed.

Lemma make_scheduler_fds i a c o s o' :
  make i a c o = (Ok s, o') → wake_fd_ s = eventfd a ∧ timer_queue_ s = Some (timerfd_create a).
Proof.
  unfold make_scheduler. destruct (make_ring _ _ _ _ _ _ _ _) as [[r| | |] o1]; try done.
  unfold make_timer_queue. destruct (timerfd_create a <? 0); [done|].
  destruct (make_buffer_pool _ _ _ _) as [p o2]. by intros [= <- _].
Qed.

Lemma make_schedulers_ok work : ∀ built o,
  Forall built_ok built → all_apart 0 built o →
  fresh_work (length built) work (plus (parts 0 built) o) →
  match make_all work built (plus (parts 0 built) o) with
  | (Ok ss, o') =>
      o' = plus (parts 0 ss) o ∧ Forall built_ok ss ∧ all_apart 0 ss o ∧
      length ss = (length built + length work)%nat
  | (Throw e, o') =>
      o' = o ∨ ∃ a c, (a, c) ∈ work ∧ timerfd_create a < 0 ∧ e = SystemError (errno a) ∧
        o' = open_fd (eventfd a) o
  | _ => False
  end.
Proof.
  induction work as [|[a c] work IH]; intros built o Hok Hap Hfr; cbn [make_schedulers].
  { split_and!; [done..|]. cbn. lia. }
  destruct (fresh_work_head _ _ _ _ _ Hfr) as [Hfd Hun].
  pose proof (make_scheduler_ok (length built) a c _ Hun Hfd) as Hmk.
  destruct (make (length built) a c _) as [[s|e| |] o1] eqn:He; try done.
  - destruct Hmk as (-> & Hs & Hbs). destruct (make_scheduler_fds _ _ _ _ _ _ He) as [Hw Ht].
    pose proof (fresh_work_tail _ _ _ _ _ s Hfr Hw Ht) as Htail.
    assert (Hparts : plus (part_of (length built) s) (plus (parts 0 built) o) =
      plus (parts 0 (built ++ [s])) o) by by rewrite parts_snoc, plus_assoc.
    rewrite Hparts in Htail |- *.
    assert (Hlen : length (built ++ [s]) = S (length built)) by (rewrite length_app; cbn; lia).
    rewrite <-Hlen in Htail.
    specialize (IH (built ++ [s]) o ltac:(by apply Forall_app_2; [|apply Forall_singleton])
      (all_apart_snoc 0 built s o Hap Hs) Htail). rewrite Hlen in IH.
    destruct (make_all work (built ++ [s]) _) as [[ss|e| |] o2]; try done.
    + destruct IH as (? & ? & ? & ?). split_and!; [done..|]. cbn. lia.
    + destruct IH as [?|(a' & c' & ? & ?)]; [by left|]. right. exists a', c'. split; [by right|done].
  - destruct Hmk as [->|(Hneg & -> & ->)].
    + left. by apply destroy_schedulers_ok.
    + right. exists a, c. split_and!; [by left|done..|].
      rewrite open_fd_plus, <-plus_assoc, (plus_comm _ (parts 0 built)), plus_assoc, <-open_fd_plus.
      apply destroy_schedulers_ok; [done|]. rewrite open_fd_plus. apply all_apart_add; [done|].
      destruct Hfd as (Hd & _). cbn in Hd. unfold apart. cbn. clear -Hd. set_solver.
Qed.

(** ** Properties *)

(** C23: The workers of a server give back what they took.  Whatever the kernel and the
    allocator answer, if all the workers can be constructed then destroying them
    restores what the process held: every ring is exited, every descriptor closed and
    every arena freed once, buffers being unregistered while their ring is alive.  If
    one of the constructors throws, the workers before it are destroyed and everything
    is given back, but for the eventfd of a worker whose [timerfd_create] failed. *)
Theorem workers_give_back (work : list (outcome * config)) o :
  fresh_work 0 work o →
  match make_all work [] o with
  | (Ok ss, o') => length ss = length work ∧ destroy_schedulers 0 ss o' = o
  | (Throw e, o') =>
      o' = o ∨ ∃ a c, (a, c) ∈ work ∧ timerfd_create a < 0 ∧ e = SystemError (errno a) ∧
        o' = open_fd (eventfd a) o
  | _ => False
  end.
Proof.
  intros Hfr. pose proof (make_schedulers_ok work [] o) as Hmk. cbn in Hmk.
  rewrite plus_nothing in Hmk. specialize (Hmk (Forall_nil_2 _) I Hfr).
  destruct (make_all work [] o) as [[ss|e| |] o']; try done.
  destruct Hmk as (-> & Hok & Hap & Hlen). split; [done|]. by apply destroy_schedulers_ok.
Qed.

(** The eventfd that is left open. *)
Theorem eventfd_is_leaked a c o :
  unused 0 o → fresh_fds a o → (∃ r, (make_ring bSQPOLL bSQ_AFF bATTACH_WQ bCOOP_TASKRUN 0 a c o).1 = Ok r) →
  0 ≤ eventfd a → timerfd_create a < 0 →
  ∃ o', make_all [(a, c)] [] o = (Throw (SystemError (errno a)), o') ∧ o' ≠ o ∧ eventfd a ∈ fds o'.
Proof.
  intros Hun Hfr [r Hr] He Ht. pose proof (make_scheduler_ok 0 a c o Hun Hfr) as Hmk.
  cbn [make_schedulers length]. unfold make_scheduler in *.
  destruct (make_ring _ _ _ _ 0 a c o) as [r0 o1] eqn:Hring. cbn in Hr. subst r0.
  unfold make_timer_queue in *. rewrite (proj2 (Z.ltb_lt _ 0)) in * by done.
  eexists. split; [done|]. cbn [destroy_schedulers].
  assert (Hin : eventfd a ∈ got (eventfd a)) by (by apply got_spec).
  destruct Hmk as [Heq|(_ & _ & ->)].
  - exfalso. unfold destroy_members in Heq. cbn in Heq.
    apply (f_equal fds) in Heq. unfold destroy_ring, queue_exit in Heq.
    destruct Hfr as (Hd & _). apply (Hd (eventfd a)); [done|]. rewrite <-Heq.
    case_decide; rewrite !open_fd_plus; cbn; set_solver.
  - rewrite open_fd_plus. cbn. split; [|set_solver]. intros Heq. destruct Hfr as (Hd & _).
    apply (Hd (eventfd a)); [done|]. rewrite <-Heq. cbn. set_solver.
Qed.
End facts.

(** ** Witnesses *)

Module Demo.
(** Two workers on descriptors 5 to 8; the third gets no timerfd. *)
Definition answers (fd tfd : Z) : outcome :=
  mkOutcome (λ _ _, 0) (λ _ _, 0) fd tfd 24 (λ _, true) (λ _, 0).
Definition cfg : config := mkConfiguration 8 1000 (mkConfig false (-1) (-1)) true 16 2.
Definition work : list (outcome * config) := [(answers 5 6, cfg); (answers 7 8, cfg)].
Definition failing : list (outcome * config) := work ++ [(answers 9 (-1), cfg)].
Definition start : held := mkHeld ∅ {[0; 1; 2]} ∅ ∅ false.
Lemma fresh_by_list work l :
  work_fds work = l → bool_decide (NoDup l) = true → bool_decide (Forall (λ fd, 2 < fd) l) = true →
  fresh_work 0 work start.
Proof.
  intros Hl Hnd%bool_decide_eq_true Hgt%bool_decide_eq_true. rewrite Forall_forall in Hgt.
  split_and!; [by rewrite Hl|..].
  - intros fd Hfd. rewrite Hl in Hfd. specialize (Hgt fd Hfd). cbn. set_solver by lia.
  - intros j _. unfold unused. cbn. set_solver.
Qed.
Lemma fresh_work_two : fresh_work 0 work start.
Proof. by apply (fresh_by_list work [5; 6; 7; 8]). Qed.
Lemma fresh_failing : fresh_work 0 failing start.
Proof. by apply (fresh_by_list failing [5; 6; 7; 8; 9]). Qed.
Definition built : res (list scheduler) * held := make_schedulers 1 2 5 8 work [] start.
Lemma built_two : ∃ ss o, built = (Ok ss, o) ∧ length ss = 2%nat ∧ fds o = {[0; 1; 2; 5; 6; 7; 8]} ∧
  registrations o = {[0%nat; 1%nat]}.
Proof.
  assert (Hv : match built with
    | (Ok ss, o) => bool_decide (length ss = 2%nat ∧ fds o = {[0; 1; 2; 5; 6; 7; 8]} ∧
        registrations o = {[0%nat; 1%nat]})
    | _ => false end = true) by (vm_compute; reflexivity).
  destruct built as [[ss| | |] o]; try done. apply bool_decide_eq_true in Hv.
  by exists ss, o.
Qed.
End Demo.

Lemma workers_give_back_witness :
  (∃ ss o, make_schedulers 1 2 5 8 Demo.work [] Demo.start = (Ok ss, o) ∧
    fds o = {[0; 1; 2; 5; 6; 7; 8]} ∧ destroy_schedulers 0 ss o = Demo.start) ∧
  (make_schedulers 1 2 5 8 Demo.failing [] Demo.start).2 ≠ Demo.start.
Proof.
  split.
  - destruct Demo.built_two as (ss & o & Hb & _ & Hfds & _).
    pose proof (workers_give_back 1 2 5 8 Demo.work Demo.start Demo.fresh_work_two) as Hw.
    unfold Demo.built in Hb. rewrite Hb in Hw. exists ss, o. split; [exact Hb|]. split; [exact Hfds|].
    apply Hw.
  - intros Heq. apply (f_equal fds) in Heq.
    assert (Hb : bool_decide (fds (make_schedulers 1 2 5 8 Demo.failing [] Demo.start).2 = fds Demo.start) = false)
      by (vm_compute; reflexivity).
    apply bool_decide_eq_false in Hb. done.
Defined.

Lemma eventfd_is_leaked_witness :
  ∃ o', make_schedulers 1 2 5 8 [(Demo.answers 9 (-1), Demo.cfg)] [] Demo.start
    = (Throw (SystemError 24), o') ∧ o' ≠ Demo.start ∧ 9 ∈ fds o'.
Proof.
  apply (eventfd_is_leaked 1 2 5 8 (Demo.answers 9 (-1)) Demo.cfg Demo.start).
  - unfold unused. cbn. set_solver.
  - split_and!; cbn; set_solver.
  - cbn. by eexists.
  - done.
  - done.
Defined.
