(* ===== verification/EchoServer.v ===== *)
(** * EchoServer: the example server

    Models [example/echo_server.cc]: the connection handler on its two paths, with
    a [Buffer] and with a registered slot, and the settings read from the
    environment.  The C library's [strtol] and [strtoul] are modelled as the C
    standard describes them, for base 10. *)
From Stdlib Require Import Ascii String.
From S2P Require Import Prelude Interfaces BufferPool Buffer LogStream Ops Tcp.

(** ** The handler *)

(** Each reception comes with the results of the sends that answer it.  The
    outcome: what reached the peer, how often the idle entry was refreshed, and
    whether the handler got to [shutdown]. *)
Definition outcome : Type := list byte * nat * bool.

(** The path without registered buffers; a failed send does not end the loop. *)
Fixpoint echo (idle : bool) (input : list (received * list Z)) (b : Buffer) : res outcome :=
  match input with
  | [] => Ok ([], 0%nat, false)
  | (e, rs) :: input =>
      '(n, touched, b) ← recv idle e b;
      if n <=? 0 then Ok ([], 0%nat, true) else
      '(s, b) ← retrieveAllAsString b;
      let '(tr, out) := send rs s in
      match out with
      | Suspended => Ok (wire s tr, Nat.b2n touched, false)
      | Returned _ =>
          '(w, k, closed) ← echo idle input b;
          Ok (wire s tr ++ w, (Nat.b2n touched + k)%nat, closed)
      end
  end.

(** The path with a slot, which is received into and sent from. *)
Fixpoint echo_fixed (idle : bool) (input : list (received * list Z)) (slot : list byte)
    : res outcome :=
  match input with
  | [] => Ok ([], 0%nat, false)
  | (e, rs) :: input =>
      '(n, touched, slot) ← recv_fixed idle e slot;
      if n <=? 0 then Ok ([], 0%nat, true) else
      let data := slice slot 0 n in
      let '(tr, out) := send_fixed rs data in
      match out with
      | Suspended => Ok (wire data tr, Nat.b2n touched, false)
      | Returned s =>
          if s <? 0 then Ok (wire data tr, Nat.b2n touched, true) else
          '(w, k, closed) ← echo_fixed idle input slot;
          Ok (wire data tr ++ w, (Nat.b2n touched + k)%nat, closed)
      end
  end.

(** The requests that [recv_fixed] and the loop of [send_fixed] make for a
    connection of a worker with pool [p]; the [int] casts are exact. *)
Definition recv_request (p : RegisteredBufferPool) (c : TcpConnection) : request :=
  prep (RecvFixedAwaiter (fd_ c) (slot_ptr p (buf_index_ c)) (u32 (slot_size_ p)) (buf_index_ c)).
Definition send_requests (p : RegisteredBufferPool) (c : TcpConnection) (tr : list sent)
    : list request :=
  (λ o, prep (SendFixedAwaiter (fd_ c) (slot_ptr p (buf_index_ c) + off o) (len o)
                (buf_index_ c))) <$> tr.

(** ** The environment *)

Definition is_digit (c : ascii) : bool :=
  (48 <=? nat_of_ascii c)%nat && (nat_of_ascii c <=? 57)%nat.
Definition is_space (c : ascii) : bool :=
  (nat_of_ascii c =? 32)%nat || ((9 <=? nat_of_ascii c)%nat && (nat_of_ascii c <=? 13)%nat).

Fixpoint skip_space (s : list ascii) : list ascii :=
  match s with c :: s' => if is_space c then skip_space s' else s | [] => [] end.
Fixpoint span_digits (s : list ascii) : list ascii * list ascii :=
  match s with
  | c :: s' =>
      if is_digit c then let '(ds, rest) := span_digits s' in (c :: ds, rest) else ([], s)
  | [] => ([], [])
  end.

(** The number read, without limits, and where it ends; [None] if there is none. *)
Definition scan (p : list ascii) : option (Z * list ascii) :=
  let s := skip_space p in
  let '(neg, s) := match s with
    | c :: s' => if decide (c = ch "-") then (true, s')
                 else if decide (c = ch "+") then (false, s') else (false, s)
    | [] => (false, [])
    end in
  let '(ds, rest) := span_digits s in
  n ← read_digits 10 ds;
  Some (if neg : bool then - n else n, rest).

Definition LONG_MAX : Z := 2 ^ 63 - 1.
Definition LONG_MIN : Z := - 2 ^ 63.
Definition ULONG_MAX : Z := 2 ^ 64 - 1.
Definition strtol (p : list ascii) : Z * list ascii :=
  match scan p with
  | Some (n, rest) => (Z.max LONG_MIN (Z.min LONG_MAX n), rest)
  | None => (0, p)
  end.
(** A negative number is negated in [unsigned long]. *)
Definition strtoul (p : list ascii) : Z * list ascii :=
  match scan p with
  | Some (n, rest) => (if ULONG_MAX <? Z.abs n then ULONG_MAX else u64 n, rest)
  | None => (0, p)
  end.

(** [static_cast<int>] of a [long]. *)
Definition int_cast (z : Z) : Z := (z + 2 ^ 31) mod 2 ^ 32 - 2 ^ 31.

Definition env_u (v : option (list ascii)) (dflt : Z) : Z :=
  match v with
  | None | Some [] => dflt
  | Some v =>
      let '(r, end_) := strtoul v in
      match end_ with [] => u32 r | _ => dflt end
  end.

(** The loop of [sqpoll_cpus]; [None] is fuel running out. *)
Fixpoint cpus_loop (fuel : nat) (p : list ascii) (cpus : list Z) : option (list Z) :=
  match fuel, p with
  | _, [] => Some cpus
  | O, _ => None
  | S fuel, _ =>
      let '(c, end_) := strtol p in
      if (List.length end_ =? List.length p)%nat then Some cpus else
      let cpus := if 0 <=? c then cpus ++ [int_cast c] else cpus in
      let p := match end_ with
               | x :: rest => if decide (x = ch ",") then rest else end_
               | [] => [] end in
      cpus_loop fuel p cpus
  end.
Definition sqpoll_cpus (v : option (list ascii)) : option (list Z) :=
  match v with
  | None | Some [] => Some []
  | Some v =>
      if decide (v = lit "off" ∨ v = lit "none") then Some [] else
      cpus_loop (List.length v) v []
  end.

(** ** Echoing *)

Section echoing.
Implicit Types b : Buffer.

(** A script: chunks of data with the results of their sends, then the end. *)
Definition script (input : list (list byte * list Z)) (r : Z) (rest : list (received * list Z))
    : list (received * list Z) :=
  ((λ '(xs, rs), (Data xs, rs)) <$> input) ++ (Stop r, []) :: rest.
(** Chunks no longer than [max], all sent back. *)
Definition chunks (max : Z) (input : list (list byte * list Z)) : Prop :=
  Forall (λ '(xs, rs), 0 < zlen xs ≤ max ∧ accepts rs (zlen xs)) input.
(** Everything comes back, and every chunk refreshes the idle entry. *)
Definition echoed (idle : bool) (input : list (list byte * list Z)) : outcome :=
  (mjoin input.*1, if idle then length input else 0%nat, true).

Lemma echoed_cons idle xs rs input :
  Ok (echoed idle ((xs, rs) :: input)) =
  '(w, k, closed) ← Ok (echoed idle input); Ok (xs ++ w, (Nat.b2n idle + k)%nat, closed).
Proof. by destruct idle. Qed.

Lemma echo_chunks idle input r rest b :
  chunks kMinRecvSize input → r ≤ 0 → drained b →
  echo idle (script input r rest) b = Ok (echoed idle input).
Proof.
  intros Hall Hr. revert b.
  induction Hall as [|[xs rs] input [Hx Ha] _ IH]; intros b Hb; unfold script.
  - cbn [fmap list_fmap app echo]. destruct (recv_stop idle b r Hb Hr) as (b' & ->).
    cbn [mbind res_bind]. rewrite (proj2 (Z.leb_le r 0)) by done. by destruct idle.
  - rewrite fmap_cons. cbn [app echo].
    destruct (recv_drained idle b xs Hb Hx) as (b1 & -> & Hb1 & Hc1). cbn [mbind res_bind].
    rewrite (proj2 (Z.leb_gt (zlen xs) 0)) by lia.
    destruct (retrieveAllAsString_drained b1 Hb1) as (b2 & -> & Hb2).
    cbn [mbind res_bind]. rewrite Hc1. unfold send.
    destruct (send_accepted (λ n, n) rs xs 0 (zlen xs) 0 Ha) as (tr & -> & Hwire);
      [lia|unfold kMinRecvSize in Hx; width_lia|].
    fold (script input r rest). rewrite (IH b2 Hb2), echoed_cons.
    by rewrite Hwire, slice_all.
Qed.

Lemma fixed_chunks idle input r rest slot :
  zlen slot < u32_mod → chunks (zlen slot) input → r ≤ 0 →
  echo_fixed idle (script input r rest) slot = Ok (echoed idle input).
Proof.
  intros Hslot Hall Hr. remember (zlen slot) as size eqn:Hsize. symmetry in Hsize.
  revert slot Hsize.
  induction Hall as [|[xs rs] input [Hx Ha] _ IH]; intros slot Hsize; unfold script.
  - cbn [fmap list_fmap app echo_fixed]. unfold recv_fixed. cbn [mbind res_bind].
    rewrite (proj2 (Z.leb_le r 0)) by done. by destruct idle.
  - rewrite fmap_cons. cbn [app echo_fixed]. unfold recv_fixed.
    destruct (write_at_ok slot 0 xs) as (slot' & -> & Hlen & Hsl & _); [lia|lia|].
    cbn [mbind res_bind]. rewrite (proj2 (Z.leb_gt (zlen xs) 0)) by lia. rewrite Hsl.
    unfold send_fixed, touch. rewrite (proj2 (Z.ltb_lt 0 (zlen xs))) by lia. cbn [andb].
    destruct (send_accepted u32 rs xs 0 (zlen xs) 0 Ha) as (tr & -> & Hwire);
      [lia|width_lia|].
    rewrite (proj2 (Z.ltb_ge _ 0)) by lia.
    fold (script input r rest). rewrite (IH slot') by congruence. rewrite echoed_cons.
    by rewrite Hwire, slice_all.
Qed.
End echoing.

(** ** Requests and slots *)

Lemma filter_lookup_ne (l : list Z) i j x y :
  NoDup (filter (λ z, 0 ≤ z) l) → l !! i = Some x → l !! j = Some y → i ≠ j →
  0 ≤ x → 0 ≤ y → x ≠ y.
Proof.
  revert i j. induction l as [|z l IH]; intros i j Hnd Hi Hj Hij Hx Hy; [done|].
  assert (Hin : ∀ k w, 0 ≤ w → l !! k = Some w → w ∈ filter (λ z, 0 ≤ z) l).
  { intros k w ? Hk. apply list_elem_of_filter. split; [done|]. by eapply list_elem_of_lookup_2. }
  destruct i as [|i], j as [|j]; cbn in Hi, Hj; [done| | |].
  - injection Hi as ->. rewrite filter_cons_True in Hnd by done.
    apply NoDup_cons in Hnd as [Hn _]. intros ->. by eapply Hn, Hin.
  - injection Hj as ->. rewrite filter_cons_True in Hnd by done.
    apply NoDup_cons in Hnd as [Hn _]. intros ->. by eapply Hn, Hin.
  - apply (IH i j); [|done|done|congruence|done|done].
    destruct (decide (0 ≤ z)); [|by rewrite filter_cons_False in Hnd].
    rewrite filter_cons_True in Hnd by done. by apply NoDup_cons in Hnd as [].
Qed.

Lemma conn_run_slot_size os (w w' : worker RegisteredBufferPool) p :
  conn_run os w = Some w' → pool_ w = Some p →
  ∃ p', pool_ w' = Some p' ∧ slot_size_ p' = slot_size_ p.
Proof.
  revert w p. induction os as [|o os IH]; intros w p; cbn [conn_run].
  { intros [= <-]. by exists p. }
  intros (w1 & Hstep & Hrun)%bind_Some Hp.
  assert (∃ p1, pool_ w1 = Some p1 ∧ slot_size_ p1 = slot_size_ p) as (p1 & Hp1 & Hs1).
  { destruct o as [fd|i]; cbn in Hstep; rewrite Hp in Hstep.
    - cbn in Hstep. pose proof (acquire_slot_size p) as Hs.
      destruct (acquire p) as [idx p1]. injection Hstep as <-. by exists p1.
    - apply bind_Some in Hstep as (c & _ & Hstep). unfold destroy_conn in Hstep.
      injection Hstep as <-. cbn. destruct (0 <=? buf_index_ c); cbn; eexists;
        (split; [done|]); [apply release_slot_size|done]. }
  destruct (IH w1 p1 Hrun Hp1) as (p' & ? & ?). exists p'. split; [done|congruence].
Qed.

(** The range a fixed request names lies in the vector registered under its index. *)
Definition in_vector (iovs : list iovec) (r : request) : Prop :=
  match r with
  | PrepReadFixed _ buf n 0 idx | PrepWriteFixed _ buf n 0 idx =>
      ∃ base size, iovs !! Z.to_nat idx = Some (base, size) ∧ 0 ≤ idx ∧
        base ≤ buf ∧ 0 ≤ n ∧ buf + n ≤ base + size
  | _ => False
  end.

Lemma requests_in_vector cap p c (data : list byte) rs tr out :
  0 ≤ cap ≤ 16384 → 0 < slot_size_ p < u32_mod → 0 ≤ buf_index_ c < cap →
  zlen data ≤ slot_size_ p → send_fixed rs data = (tr, out) → honest tr →
  Forall (in_vector (iovs cap (slot_size_ p))) (recv_request p c :: send_requests p c tr).
Proof.
  intros Hcap Hs Hi Hd Hsend Hh. pose proof (zlen_nonneg data).
  pose proof (iovs_lookup cap (slot_size_ p) (buf_index_ c) Hi) as Hl.
  unfold send_fixed in Hsend. rewrite <-(Z.sub_0_r (zlen data)) in Hsend.
  apply send_loop_ranges in Hsend; [|intros; by apply Z.mod_le; [|width_lia]|width_lia|lia| |done].
  2: { intros n _. by apply Z.mod_pos_bound; width_lia. }
  constructor.
  - unfold recv_request. cbn. rewrite u32_small by lia.
    eexists _, _. split; [exact Hl|]. unfold slot_ptr. lia.
  - unfold send_requests. apply Forall_fmap. eapply Forall_impl; [exact Hsend|].
    cbn. intros o Ho. eexists _, _. split; [exact Hl|]. unfold slot_ptr. lia.
Qed.

(** ** Numbers *)

Lemma digits_are_digits : Forall (λ c, is_digit c = true) digits.
Proof. repeat constructor. Qed.

Lemma convert_loop_digits fuel i l :
  convert_loop fuel i = Some l → Forall (λ c, is_digit c = true) l.
Proof.
  revert i l. induction fuel as [|fuel IH]; intros i l; cbn [convert_loop]; [done|].
  intros (c & Hc & Hl)%bind_Some.
  assert (is_digit c = true).
  { unfold zero_at in Hc. case_decide; [|done].
    exact (proj1 (Forall_lookup _ _) digits_are_digits _ _ Hc). }
  destruct (Z.quot i 10 =? 0); [injection Hl as <-; by repeat constructor|].
  apply bind_Some in Hl as (l' & Hl' & [= <-]). constructor; [done|by eapply IH].
Qed.

(** What [convert] prints for a number that is not negative. *)
Lemma convert_decimal v :
  0 ≤ v < 2 ^ 64 →
  ∃ l, convert v = Some l ∧ l ≠ [] ∧ Forall (λ c, is_digit c = true) l ∧
    read_digits 10 l = Some v.
Proof.
  intros Hv. destruct (convert_loop_ok 20 v) as (l & Hl & Hne & _ & _ & _ & Hread).
  { change (10 ^ Z.of_nat 20) with 100000000000000000000. lia. }
  { lia. }
  unfold convert. rewrite Hl. cbn [mbind option_bind].
  rewrite (proj2 (Z.ltb_ge v 0)) by lia. exists (reverse l).
  pose proof (reverse_nonempty l Hne). split_and!; [done|done| |].
  - apply Forall_reverse. by eapply convert_loop_digits.
  - rewrite Z.abs_eq in Hread by lia. unfold read_digits. by destruct (reverse l).
Qed.

Lemma span_digits_app l rest :
  Forall (λ c, is_digit c = true) l → (∀ c, head rest = Some c → is_digit c = false) →
  span_digits (l ++ rest) = (l, rest).
Proof.
  intros Hl Hrest. induction Hl as [|c l Hc _ IH]; cbn [app span_digits].
  - destruct rest as [|c rest]; [done|]. cbn. by rewrite (Hrest c).
  - by rewrite Hc, IH.
Qed.

Lemma digit_not_sign c : is_digit c = true → is_space c = false ∧ c ≠ ch "-" ∧ c ≠ ch "+".
Proof.
  unfold is_digit, is_space. intros [H1%Nat.leb_le H2%Nat.leb_le]%andb_true_iff. split_and!.
  - destruct (Nat.eqb_spec (nat_of_ascii c) 32); [lia|].
    destruct (Nat.leb_spec (nat_of_ascii c) 13); [lia|]. by rewrite andb_false_r.
  - intros ->. vm_compute in H1. lia.
  - intros ->. vm_compute in H1. lia.
Qed.

Lemma scan_decimal l rest v :
  l ≠ [] → Forall (λ c, is_digit c = true) l → read_digits 10 l = Some v →
  (∀ c, head rest = Some c → is_digit c = false) → scan (l ++ rest) = Some (v, rest).
Proof.
  intros Hne Hl Hv Hrest. pose proof (span_digits_app l rest Hl Hrest) as Hspan.
  destruct l as [|c l]; [done|]. apply Forall_cons in Hl as [Hc _].
  destruct (digit_not_sign c Hc) as (Hsp & ? & ?).
  unfold scan. cbn [app skip_space] in *. rewrite Hsp, !decide_False by done.
  rewrite Hspan. by rewrite Hv.
Qed.

Lemma scan_negative l v :
  l ≠ [] → Forall (λ c, is_digit c = true) l → read_digits 10 l = Some v →
  scan (ch "-" :: l) = Some (- v, []).
Proof.
  intros Hne Hl Hv. pose proof (span_digits_app l [] Hl ltac:(done)) as Hspan.
  rewrite app_nil_r in Hspan. unfold scan. cbn [skip_space].
  replace (is_space (ch "-")) with false by reflexivity.
  rewrite decide_True by done. by rewrite Hspan, Hv.
Qed.

(** A conversion consumes something. *)
Lemma scan_length p n rest : scan p = Some (n, rest) → (length rest < length p)%nat.
Proof.
  assert (Hspace : ∀ s, (length (skip_space s) ≤ length s)%nat).
  { induction s as [|c s IH]; cbn; [done|]. destruct (is_space c); cbn; lia. }
  assert (Hspan : ∀ s, (length (span_digits s).1 + length (span_digits s).2 = length s)%nat).
  { induction s as [|c s IH]; cbn; [done|]. destruct (is_digit c); [|done].
    destruct (span_digits s). cbn in *. lia. }
  unfold scan. specialize (Hspace p). set (s := skip_space p) in *.
  match goal with |- context [let '(_, _) := ?e in _] => destruct e as [neg s'] eqn:Hs' end.
  assert (length s' ≤ length s)%nat.
  { destruct s as [|c s0]; [injection Hs' as <- <-; done|].
    repeat case_decide; injection Hs' as <- <-; cbn; lia. }
  specialize (Hspan s'). destruct (span_digits s') as [ds rest'].
  intros (v & Hv & [= <- <-])%bind_Some. cbn in Hspan.
  destruct ds; [done|]. cbn in Hspan. lia.
Qed.

(** ** Lists of processors *)

Fixpoint join (l : list (list ascii)) : list ascii :=
  match l with
  | [] => []
  | [x] => x
  | x :: l => x ++ lit "," ++ join l
  end.
(** As a user writes them. *)
Definition show_cpus (cpus : list Z) : list ascii :=
  join ((λ c, default [] (convert c)) <$> cpus).

Lemma int_cast_small z : 0 ≤ z < 2 ^ 31 → int_cast z = z.
Proof. intros Hz. unfold int_cast. rewrite Z.mod_small by lia. lia. Qed.

Lemma cpus_loop_total fuel p cpus :
  (length p ≤ fuel)%nat → ∃ l, cpus_loop fuel p cpus = Some l.
Proof.
  revert p cpus. induction fuel as [|fuel IH]; intros p cpus Hp.
  { destruct p; [by eexists|cbn in Hp; lia]. }
  destruct p as [|x p]; [by eexists|]. cbn [cpus_loop]. unfold strtol.
  destruct (scan (x :: p)) as [[n rest]|] eqn:Hs; [|rewrite Nat.eqb_refl; by eexists].
  apply scan_length in Hs. rewrite (proj2 (Nat.eqb_neq _ _)) by lia.
  apply IH. cbn [length] in Hs, Hp. destruct rest as [|y rest]; [cbn; lia|].
  case_decide; cbn in *; lia.
Qed.

(** One turn on a list that begins with the number [c]. *)
Lemma cpus_loop_step fuel l rest c acc :
  l ≠ [] → Forall (λ x, is_digit x = true) l → read_digits 10 l = Some c → 0 ≤ c < 2 ^ 31 →
  (∀ x, head rest = Some x → x = ch ",") →
  cpus_loop (S fuel) (l ++ rest) acc = cpus_loop fuel (tail rest) (acc ++ [c]).
Proof.
  intros Hne Hdig Hread Hc Hrest.
  assert (Hscan : scan (l ++ rest) = Some (c, rest)).
  { apply scan_decimal; [done..|]. intros x ->%Hrest. reflexivity. }
  pose proof (scan_length _ _ _ Hscan) as Hlen.
  destruct (l ++ rest) as [|y p] eqn:Hp; [cbn in Hlen; lia|].
  cbn [cpus_loop]. unfold strtol. rewrite Hscan, (proj2 (Nat.eqb_neq _ _)) by lia.
  rewrite Z.min_r, Z.max_r by (unfold LONG_MAX, LONG_MIN; lia).
  rewrite (proj2 (Z.leb_le 0 c)), int_cast_small by lia.
  destruct rest as [|x rest]; [done|]. by rewrite decide_True by by apply Hrest.
Qed.

Lemma cpus_loop_show cs : ∀ c fuel acc,
  Forall (λ c, 0 ≤ c < 2 ^ 31) (c :: cs) → (length (show_cpus (c :: cs)) ≤ fuel)%nat →
  cpus_loop fuel (show_cpus (c :: cs)) acc = Some (acc ++ c :: cs).
Proof.
  induction cs as [|c2 cs IH]; intros c fuel acc [Hc Hall]%Forall_cons Hf;
    (destruct (convert_decimal c) as (l & Hl & Hne & Hdig & Hread); [lia|]).
  - assert (Hs : show_cpus [c] = l ++ []) by 
      (unfold show_cpus; cbn [fmap list_fmap join]; by rewrite Hl, app_nil_r).
    rewrite Hs in *. rewrite length_app in Hf.
    destruct fuel as [|fuel]; [destruct l; [done|cbn in Hf; lia]|].
    rewrite (cpus_loop_step fuel l [] c) by done. by destruct fuel.
  - assert (Hs : show_cpus (c :: c2 :: cs) = l ++ ch "," :: show_cpus (c2 :: cs)).
    { unfold show_cpus. cbn [fmap list_fmap join]. by rewrite Hl. }
    rewrite Hs in *. rewrite length_app in Hf. cbn [length] in Hf.
    destruct fuel as [|fuel]; [lia|].
    rewrite (cpus_loop_step fuel l (ch "," :: _) c) by (done || by intros x [= ->]).
    cbn [tail]. rewrite IH by (done || lia). by rewrite <-app_assoc.
Qed.

Lemma sqpoll_cpus_total v : ∃ l, sqpoll_cpus v = Some l.
Proof.
  unfold sqpoll_cpus. destruct v as [[|x v]|]; [by eexists| |by eexists].
  case_decide; [by eexists|]. by apply cpus_loop_total.
Qed.

Lemma sqpoll_cpus_show cpus :
  Forall (λ c, 0 ≤ c < 2 ^ 31) cpus → sqpoll_cpus (Some (show_cpus cpus)) = Some cpus.
Proof.
  intros Hall. destruct cpus as [|c cs]; [done|].
  assert (∃ x p, show_cpus (c :: cs) = x :: p ∧ is_digit x = true) as (x & p & Hs & Hx).
  { apply Forall_cons in Hall as [Hc _].
    destruct (convert_decimal c) as (l & Hl & Hne & Hdig & _); [lia|].
    unfold show_cpus. cbn [fmap list_fmap]. rewrite Hl. destruct l as [|x l]; [done|].
    exists x. apply Forall_cons in Hdig as [Hx _]. by destruct cs; eexists. }
  unfold sqpoll_cpus. rewrite Hs. rewrite decide_False.
  - rewrite <-Hs. by apply cpus_loop_show.
  - intros [[= -> _]|[= -> _]]; by vm_compute in Hx.
Qed.

(** ** Properties *)

(** C27: The echo handler returns to the peer exactly the bytes it received, in
    order, whatever the sizes in which they arrive and are accepted back, renews the
    idle timeout once per chunk, and reaches [shutdown] when the peer closes or a
    reception fails. *)
Theorem echo_roundtrip (idle : bool) (input : list (list byte * list Z)) (r : Z) rest :
  chunks kMinRecvSize input → r ≤ 0 →
  ∃ b, new_Buffer kInitialSize = Ok b ∧
    echo idle (script input r rest) b =
    Ok (mjoin input.*1, if idle then length input else 0%nat, true).
Proof.
  intros Hin Hr. destruct (new_Buffer_spec kInitialSize) as (b & Hnew & Hb & Hc & Hw & _);
    [by vm_compute|by vm_compute|].
  exists b. split; [done|]. by apply echo_chunks.
Qed.

(** The path with a registered slot and the path with a [Buffer] are
    equivalent: on the same receptions and sends, if all are sent back, they give
    the same outcome, whatever was in the slot before. *)
Theorem fixed_path_equivalent (idle : bool) input (r : Z) rest (slot : list byte) :
  zlen slot < u32_mod → chunks (Z.min kMinRecvSize (zlen slot)) input → r ≤ 0 →
  ∃ b, new_Buffer kInitialSize = Ok b ∧
    echo_fixed idle (script input r rest) slot = echo idle (script input r rest) b.
Proof.
  intros Hslot Hin Hr.
  destruct (new_Buffer_spec kInitialSize) as (b & Hnew & Hb & Hc & Hw & _);
    [by vm_compute|by vm_compute|].
  exists b. split; [done|]. rewrite fixed_chunks, echo_chunks; try done.
  all: eapply Forall_impl; [exact Hin|]; intros [xs rs] [? ?]; split; [lia|done].
Qed.

(** C25: On a worker whose pool was registered, every reception into a slot and
    every send from it names memory inside the vector registered under the slot's
    index, whatever connections have come and gone and however the kernel splits
    the sends; and the slots of two live connections share no byte. *)
Theorem fixed_io_in_slot memalign register capacity slot_size os
    (w : worker RegisteredBufferPool) i c :
  0 < capacity → 0 < slot_size < u32_mod →
  let cap := clamped capacity in
  memalign (u64 (cap * slot_size)) = true → 0 ≤ register (iovs cap slot_size) →
  conn_run os (mkWorker [] (Some (new_pool memalign register capacity slot_size)) []) = Some w →
  conns w !! i = Some c → 0 ≤ buf_index_ c →
  ∃ p, pool_ w = Some p ∧
    (∀ (data : list byte) rs tr out,
       zlen data ≤ slot_size → send_fixed rs data = (tr, out) → honest tr →
       Forall (in_vector (iovs cap slot_size)) (recv_request p c :: send_requests p c tr)) ∧
    (∀ j c', conns w !! j = Some c' → i ≠ j → 0 ≤ buf_index_ c' →
       slot_ptr p (buf_index_ c) + slot_size ≤ slot_ptr p (buf_index_ c') ∨
       slot_ptr p (buf_index_ c') + slot_size ≤ slot_ptr p (buf_index_ c)).
Proof.
  intros Hc Hs cap Hm Hr Hrun Hi Hidx. pose proof (clamped_bounds capacity Hc) as Hcap.
  destruct (new_pool_enabled memalign register capacity slot_size)
    as (Hinv & Hpc & Hps); [lia|lia|done..|].
  destruct (conn_run_slot_size _ _ _ _ Hrun eq_refl) as (p & Hp & Hsize).
  rewrite Hps in Hsize.
  eapply (conn_run_ok cap) in Hrun as [(p' & l & Hp' & Hl & Hperm & Hcp) _];
    [|by exists (new_pool memalign register capacity slot_size), []].
  destruct (pool_held_ok l p' Hl) as [Hnd Hall].
  rewrite Hperm in Hnd. rewrite Hperm, Hcp in Hall.
  assert (Hin : ∀ k c0, conns w !! k = Some c0 → 0 ≤ buf_index_ c0 → 0 ≤ buf_index_ c0 < cap).
  { intros k c0 Hk ?. rewrite Forall_forall in Hall. apply Hall.
    apply list_elem_of_filter. split; [done|]. apply list_elem_of_fmap.
    exists c0. split; [done|]. by eapply list_elem_of_lookup_2. }
  exists p. split; [done|]. split.
  - intros data rs tr out Hd Hsend Hh. rewrite <-Hsize in *.
    eapply requests_in_vector; try done; [lia|by eapply Hin].
  - intros j c' Hj Hij Hidx'.
    assert (buf_index_ c ≠ buf_index_ c').
    { apply (filter_lookup_ne (buf_index_ <$> conns w) i j); [done| | |done..];
        rewrite list_lookup_fmap; [by rewrite Hi|by rewrite Hj]. }
    pose proof (Hin i c Hi Hidx). pose proof (Hin j c' Hj Hidx').
    unfold slot_ptr. rewrite Hsize, !(slot_off_exact cap) by lia. nia.
Qed.

(** The list of processors in [CORO_SQPOLL_CPUS] is parsed in at most as many
    turns as it has characters, whatever it holds; and a list written with commas
    gives the same processors back. *)
Theorem sqpoll_cpus_roundtrip (v : list ascii) (cpus : list Z) :
  Forall (λ c, 0 ≤ c < 2 ^ 31) cpus →
  (∃ l, sqpoll_cpus (Some v) = Some l) ∧ sqpoll_cpus (Some (show_cpus cpus)) = Some cpus.
Proof. intros Hall. split; [apply sqpoll_cpus_total|by apply sqpoll_cpus_show]. Qed.

(** [env_u] reads back any decimal number of 32 bits, and gives the default for
    a variable that is unset, empty, no number, or a number followed by anything;
    but a number out of range is accepted modulo 2^32, and a negative one as the
    corresponding unsigned value. *)
Theorem env_u_values (n dflt : Z) (junk : ascii) (rest : list ascii) :
  0 ≤ n < 2 ^ 64 → is_digit junk = false →
  ∃ l, convert n = Some l ∧
    env_u (Some l) dflt = n mod 2 ^ 32 ∧
    env_u (Some (ch "-" :: l)) dflt = (- n) mod 2 ^ 32 ∧
    env_u (Some (l ++ junk :: rest)) dflt = dflt ∧
    env_u None dflt = dflt ∧ env_u (Some []) dflt = dflt ∧
    (∀ v, scan v = None → env_u (Some v) dflt = dflt).
Proof.
  intros Hn Hjunk. destruct (convert_decimal n Hn) as (l & Hl & Hne & Hdig & Hread).
  exists l. pose proof (scan_decimal l [] n Hne Hdig Hread ltac:(done)) as Hscan.
  rewrite app_nil_r in Hscan. pose proof (scan_negative l n Hne Hdig Hread) as Hneg.
  assert (Hjk : scan (l ++ junk :: rest) = Some (n, junk :: rest)).
  { apply scan_decimal; [done..|]. by intros c [= ->]. }
  assert (Hval : ∀ v m, v ≠ [] → scan v = Some (m, []) → Z.abs m < 2 ^ 64 →
    env_u (Some v) dflt = m mod 2 ^ 32).
  { intros v m Hv Hs Hm. destruct v; [done|]. unfold env_u, strtoul. rewrite Hs.
    rewrite (proj2 (Z.ltb_ge _ _)) by (unfold ULONG_MAX; lia). unfold u32, u64.
    rewrite u32_mod_val, u64_mod_val. apply Z.mod_mod_divide. by exists (2 ^ 32). }
  split_and!; [done|by apply Hval; [| |lia]|by apply Hval; [| |lia]| |done|done|].
  - destruct l as [|x l]; [done|]. cbn [app env_u] in *. unfold strtoul. by rewrite Hjk.
  - intros v Hv. destruct v as [|x v]; [done|]. unfold env_u, strtoul. by rewrite Hv.
Qed.

(** ** Witnesses *)

Module Demo.
Definition input : list (list byte * list Z) := [([x68; x69], [1; 1]); ([x21], [1])].
Lemma input_chunks : chunks 4096 input.
Proof. repeat constructor; vm_compute; congruence. Qed.
Lemma input_short : chunks 2 input.
Proof. repeat constructor; vm_compute; congruence. Qed.

(** Three connections have come, one has gone, the last has taken its slot. *)
Definition pool : RegisteredBufferPool := new_pool (λ _, true) (λ _, 0) 3 4096.
Definition os : list conn_op := [Open 7; Open 8; Destroy 0; Open 9].
Definition w : worker RegisteredBufferPool :=
  default (mkWorker [] None []) (conn_run os (mkWorker [] (Some pool) [])).
Lemma run_os : conn_run os (mkWorker [] (Some pool) []) = Some w.
Proof. vm_compute. reflexivity. Qed.
End Demo.

Lemma echo_roundtrip_witness :
  ∃ b, new_Buffer kInitialSize = Ok b ∧
    echo true [(Data [x68; x69], [1; 1]); (Data [x21], [1]); (Stop 0, [])] b =
    Ok ([x68; x69; x21], 2%nat, true).
Proof. apply (echo_roundtrip true Demo.input 0 []); [exact Demo.input_chunks|lia]. Defined.

Lemma fixed_path_equivalent_witness :
  ∃ b, new_Buffer kInitialSize = Ok b ∧
    echo_fixed true (script Demo.input (-104) []) [x00; x01] =
    echo true (script Demo.input (-104) []) b.
Proof.
  apply (fixed_path_equivalent true Demo.input (-104) [] [x00; x01]).
  - vm_compute. reflexivity.
  - exact Demo.input_short.
  - lia.
Defined.

Lemma fixed_io_in_slot_witness :
  ∃ p, pool_ Demo.w = Some p ∧
    Forall (in_vector (iovs 3 4096))
      [recv_request p (mkConn 9 0); PrepWriteFixed 9 0 5 0 0; PrepWriteFixed 9 2 3 0 0].
Proof.
  destruct (fixed_io_in_slot (λ _, true) (λ _, 0) 3 4096 Demo.os Demo.w 1 (mkConn 9 0))
    as (p & Hp & Hreq & _).
  - lia.
  - rewrite u32_mod_val. lia.
  - reflexivity.
  - vm_compute. congruence.
  - exact Demo.run_os.
  - vm_compute. reflexivity.
  - vm_compute. congruence.
  - exists p. split; [exact Hp|].
    apply (Hreq [x01; x02; x03; x04; x05] [2; 3] [mkSent 0 5 2; mkSent 2 3 3] (Returned 5)).
    + vm_compute. congruence.
    + vm_compute. reflexivity.
    + repeat constructor; vm_compute; congruence.
Defined.

Lemma sqpoll_cpus_roundtrip_witness :
  sqpoll_cpus (Some (lit "13,14,15")) = Some [13; 14; 15].
Proof.
  apply (sqpoll_cpus_roundtrip (lit "") [13; 14; 15]). repeat constructor; lia.
Defined.

Lemma env_u_values_witness :
  env_u (Some (lit "16384")) 7 = 16384 ∧ env_u (Some (lit "-16384")) 7 = 2 ^ 32 - 16384 ∧
  env_u (Some (lit "16384k")) 7 = 7.
Proof.
  destruct (env_u_values 16384 7 (ch "k") []) as (l & Hl & H1 & H2 & H3 & _);
    [lia|reflexivity|].
  injection Hl as <-. split; [exact H1|]. split; [exact H2|exact H3].
Defined.
