(* ===== verification/Connection.v ===== *)
(** * Connection: the whole object of a TcpConnection

    [Tcp.v] keeps of a [TcpConnection] what moves slots and descriptors.  Here are all its
    members ([include/coro_net/tcp_connection.hpp]): the address of the peer, the context
    of the user, the pointer to the idle wheel with the [weak_ptr] to the entry, and the
    pointer to the registered slot with its size, set once by the constructor
    ([src/net/tcp_connection.cc]).  The object refines the one of [Tcp.v], and what
    [EchoServer.v] asks the kernel for with the pool at hand is what the members say. *)
From S2P Require Import Prelude Interfaces IdleWheel Ops BufferPool Tcp EchoServer.

Section connection.
Context {A : Type}.     (* what a [std::any] of the user holds *)
Implicit Types (pool : option RegisteredBufferPool).

(** [sched_] is the worker, whose pool and wheel the connection uses; [wheel_] is null
    or points to that wheel. *)
Record tcp_connection := mkTcp {
  conn_fd : Z;
  peer_ : sockaddr_in;
  sched_ : nat;
  ctx_ : option A;
  wheel_ : bool;
  idle_entry_ : option entry;
  conn_index : Z;
  slot_ : option Z;
  conn_slot_size : Z;
}.

(** The constructor, with the default values of the members. *)
Definition construct (fd : Z) (peer : sockaddr_in) (sched : nat) pool
    : tcp_connection * option RegisteredBufferPool :=
  let bare := mkTcp fd peer sched None false None (-1) None 0 in
  match pool with
  | None => (bare, None)
  | Some p =>
      let '(idx, p) := acquire p in
      (if 0 <=? idx
       then mkTcp fd peer sched None false None idx (Some (slot_ptr p idx)) (slot_size_ p)
       else bare, Some p)
  end.

(** The destructor: the pool afterwards and the descriptors closed. *)
Definition destruct_conn (c : tcp_connection) pool : option RegisteredBufferPool * list Z :=
  (if 0 <=? conn_index c then release (conn_index c) <$> pool else pool,
   if 0 <=? conn_fd c then [conn_fd c] else []).

Definition set_context (a : A) (c : tcp_connection) : tcp_connection :=
  mkTcp (conn_fd c) (peer_ c) (sched_ c) (Some a) (wheel_ c) (idle_entry_ c)
    (conn_index c) (slot_ c) (conn_slot_size c).
Definition context (c : tcp_connection) : option A := ctx_ c.
Definition fd (c : tcp_connection) : Z := conn_fd c.
Definition peer (c : tcp_connection) : sockaddr_in := peer_ c.
Definition scheduler (c : tcp_connection) : nat := sched_ c.
Definition has_fixed_slot (c : tcp_connection) : bool := 0 <=? conn_index c.

(** [install_idle]: the [shared_ptr] given is kept as a [weak_ptr]. *)
Definition install_idle (w : bool) (e : option entry) (c : tcp_connection) : tcp_connection :=
  mkTcp (conn_fd c) (peer_ c) (sched_ c) (ctx_ c) w e (conn_index c) (slot_ c) (conn_slot_size c).

(** [if (n > 0 && wheel_) if (auto e = idle_entry_.lock()) wheel_->refresh(e);] of [recv]
    and [recv_fixed], on the wheel of the worker. *)
Definition renew {R} `{!Window Bucket R ∅} (n : Z) (c : tcp_connection) (w : IdleConnectionWheel R)
    : res (IdleConnectionWheel R) :=
  if (0 <? n) && wheel_ c then
    match idle_entry_ c ≫= λ e, lock e w with
    | Some e => refresh (Some e) w
    | None => Ok w
    end
  else Ok w.

(** The awaiter of [recv_fixed], from the members. *)
Definition fixed_read (c : tcp_connection) : option request :=
  s ← slot_ c; Some (prep (RecvFixedAwaiter (conn_fd c) s (u32 (conn_slot_size c)) (conn_index c))).

(** The calls on a connection that change it. *)
Inductive conn_call : Type :=
  | SetContext (a : A)
  | InstallIdle (w : bool) (e : option entry).
Definition call (o : conn_call) (c : tcp_connection) : tcp_connection :=
  match o with SetContext a => set_context a c | InstallIdle w e => install_idle w e c end.
Definition calls (os : list conn_call) (c : tcp_connection) : tcp_connection :=
  foldl (λ c o, call o c) c os.

(** ** Lemmas *)

(** What [Tcp.v] keeps. *)
Definition view (c : tcp_connection) : TcpConnection := mkConn (conn_fd c) (conn_index c).

(** The members the constructor has set for ever. *)
Definition fixed_part (c : tcp_connection) := (conn_fd c, peer_ c, sched_ c, conn_index c, slot_ c, conn_slot_size c).

Lemma calls_fixed os c : fixed_part (calls os c) = fixed_part c.
Proof.
  revert c. induction os as [|o os IH]; intros c; [done|]. cbn. unfold calls in IH. rewrite IH. by destruct o.
Qed.

Lemma calls_context os c :
  ctx_ (calls os c) = from_option Some (ctx_ c) (last (omap (λ o, match o with SetContext a => Some a | _ => None end) os)).
Proof.
  induction os as [|o os IH] using rev_ind; [done|]. unfold calls in *. rewrite foldl_app, omap_app, last_app.
  destruct o as [a|w e]; cbn; [done|by rewrite IH].
Qed.

Lemma construct_view fd peer sched pool :
  (view (construct fd peer sched pool).1, (construct fd peer sched pool).2) = new_TcpConnection fd pool.
Proof.
  unfold construct, new_TcpConnection. cbn [pool_acquire buffer_pool_slots]. destruct pool as [p|]; [|done].
  destruct (acquire p) as [idx p'] eqn:Ha. by destruct (0 <=? idx).
Qed.

Lemma acquire_release p idx p' : acquire p = (idx, p') → 0 ≤ idx →
  release idx p' = p ∧ slot_size_ p' = slot_size_ p.
Proof.
  unfold acquire. destruct (negb (enabled_ p)) eqn:He; [intros [= <- <-]; lia|].
  destruct (last (free_list_ p)) as [x|] eqn:Hl; [|intros [= <- <-]; lia].
  apply last_Some in Hl as [l Hl]. intros [= -> <-] Hi. unfold release.
  rewrite (proj2 (Z.ltb_ge _ _) Hi). cbn. rewrite Hl, removelast_last, <-Hl. split; [by destruct p|done].
Qed.

(** ** Properties *)

(** The life of a connection: whatever is called on it, it is to the pool and the kernel
    what [Tcp.v] and [EchoServer.v] say, its context is the last one set, its reads go to
    the slot it was given, and its destruction gives back the slot and the descriptor. *)
Theorem connection_lifetime fd0 peer0 sched pool os :
  0 ≤ fd0 →
  let '(c0, pool') := construct fd0 peer0 sched pool in
  let c := calls os c0 in
  (view c, pool') = new_TcpConnection fd0 pool ∧
  (fd c, peer c, scheduler c) = (fd0, peer0, sched) ∧
  context c = last (omap (λ o, match o with SetContext a => Some a | _ => None end) os) ∧
  match pool' with
  | Some p => if has_fixed_slot c then fixed_read c = Some (recv_request p (view c)) else fixed_read c = None
  | None => fixed_read c = None
  end ∧
  (has_fixed_slot c = true → destruct_conn c pool' = (pool, [fd0])) ∧
  (has_fixed_slot c = false → destruct_conn c pool' = (pool', [fd0])).
Proof.
  intros Hfd. pose proof (construct_view fd0 peer0 sched pool) as Hv.
  destruct (construct fd0 peer0 sched pool) as [c0 pool'] eqn:Hc. cbn [fst snd] in Hv.
  pose proof (calls_fixed os c0) as Hf. unfold fixed_part in Hf. cbv zeta. injection Hf as H1 H2 H3 H4 H5 H6.
  assert (Hview : view (calls os c0) = view c0) by (unfold view; congruence).
  unfold fd, peer, scheduler, context, has_fixed_slot, fixed_read, destruct_conn.
  rewrite Hview, H1, H2, H3, H4, H5, H6, calls_context. split; [done|].
  unfold construct in Hc. destruct pool as [p|].
  - destruct (acquire p) as [idx p'] eqn:Ha. destruct (Z.leb_spec 0 idx) as [Hi|Hi]; injection Hc as <- <-;
      cbn [conn_fd peer_ sched_ ctx_ conn_index slot_ conn_slot_size mbind option_bind];
      rewrite ?(proj2 (Z.leb_le _ _) Hfd).
    + destruct (acquire_release _ _ _ Ha Hi) as [Hre Hss]. rewrite (proj2 (Z.leb_le _ _) Hi).
      split_and!; [done| |done| |done].
      * by destruct (last _).
      * intros _. cbn. by rewrite Hre.
    + split_and!; try done. by destruct (last _).
  - injection Hc as <- <-. cbn [conn_fd peer_ sched_ ctx_ conn_index slot_ conn_slot_size mbind option_bind].
    rewrite ?(proj2 (Z.leb_le _ _) Hfd). split_and!; try done. by destruct (last _).
Qed.

(** Data renew the entry the connection was installed with, and nothing else does
    anything to the wheel. *)
Theorem data_renews {R} `{!Window Bucket R ∅} c e n (s : world R) :
  renew n (install_idle true (Some e) c) (wheel s) =
    (if 0 <? n then '(_, s) ← IdleWheel.handle (EvData e) s; Ok (wheel s) else Ok (wheel s)) ∧
  renew n (install_idle false None c) (wheel s) = Ok (wheel s).
Proof.
  unfold renew. cbn [install_idle wheel_ idle_entry_ mbind option_bind]. rewrite andb_true_r, andb_false_r.
  split; [|done]. destruct (0 <? n); [|done]. cbn [IdleWheel.handle]. unfold lock, IdleWheel.refresh.
  destruct (entries (wheel s) !! e); [|done]. by destruct (win_update_back _ _).
Qed.
End connection.

(** ** Witness *)

Module Demo.
Definition pool : option RegisteredBufferPool := Some (new_pool (λ _, true) (λ _, 0) 2 4096).
Definition os : list (@conn_call nat) := [InstallIdle true (Some 0%nat); SetContext 7%nat].
End Demo.

Lemma connection_lifetime_witness :
  let c := calls Demo.os (construct 5 (mkSockaddr AF_INET 0 0) 0 Demo.pool).1 in
  context c = Some 7%nat ∧ has_fixed_slot c = true ∧
  destruct_conn c (construct (A:=nat) 5 (mkSockaddr AF_INET 0 0) 0 Demo.pool).2 = (Demo.pool, [5]).
Proof.
  pose proof (connection_lifetime 5 (mkSockaddr AF_INET 0 0) 0%nat Demo.pool Demo.os ltac:(done)) as Hl.
  destruct (construct 5 (mkSockaddr AF_INET 0 0) 0 Demo.pool) as [c0 pool'] eqn:Hc.
  destruct Hl as (_ & _ & Hctx & _ & Hd & _). cbn [fst snd].
  assert (Hs : has_fixed_slot (calls Demo.os c0) = true)
    by (vm_compute in Hc; injection Hc as <- _; reflexivity).
  split; [exact Hctx|]. split; [exact Hs|]. exact (Hd Hs).
Defined.
