(* ===== verification/Handlers.v ===== *)
(** * Handlers: the coroutines of the echo server on the event loop

    The bodies of the coroutines of a worker, written as [Task.v] wants them: the accept
    coroutine of [TcpServer::start] ([src/net/tcp_server.cc]), [tick_coro] and the
    coroutine of [~IdleEntry] ([src/net/idle_connection_wheel.cc]), [recv], [send],
    [recv_fixed], [send_fixed] and [shutdown] of [TcpConnection]
    ([src/net/tcp_connection.cc]) and the handler of [example/echo_server.cc].  A local
    state is a point of a body with the variables alive there; a variable passed by
    reference to an awaited coroutine comes back with its result.

    They run on the machine of frames of [Task.v], driven by the event loop of
    [Coroutines.v], as many connections at a time as the kernel and the peers like.
    What a peer will ever send is a parameter, read by the operations of its
    connection in order; so are the flags other threads write, the slots that
    connections find when they are constructed and the entries that die at each tick. *)
From S2P Require Import Scheduler Completion Coroutines Prelude Task Strands BufferPool Buffer Tcp.

(** A connection: how many its worker accepted before it, and [fd_]. *)
Record connection := mkConnection { number : nat; socket : Z }.

(** What the bodies await, and the calls they make outside the coroutines.  The
    position of a reception in the stream of the peer is not part of the request. *)
Inductive operation : Type :=
  | OpAccept
  | OpTimeout
  | OpRecv (fixed : bool) (c : connection) (pos len : Z)
  | OpSend (fixed : bool) (c : connection) (data : list byte)
  | OpShutdown (c : connection)
  | OpConstruct (c : connection)   (* [make_shared<TcpConnection>] *)
  | OpRegister (c : connection)    (* [register_conn], [install_idle] *)
  | OpRefresh (c : connection)     (* [idle_entry_.lock()], [refresh] *)
  | OpPushBucket.                  (* [buckets_.push_back] *)

(** What the coroutines return; [Task<void>] returns [VVoid]. *)
Inductive value : Type :=
  | VVoid
  | VSize (n : Z)
  | VRecv (n : Z) (b : Buffer)           (* [ssize_t], and the buffer given by reference *)
  | VView (n : Z) (slot : list byte).    (* [RecvView], and the slot it points to *)

(** Why a body does not get on. *)
Inductive fault : Type :=
  | Threw (e : exn)
  | Aborts
  | Undefined.

Inductive local : Type :=
  (* the accept coroutine *)
  | AcceptTurn (k : nat)
  | Accepted (k : nat) (conn : Z)
  | InstallIdle (c : connection)
  | SpawnHandler (c : connection)
  (* [tick_coro] and [~IdleEntry] *)
  | Tick (j : nat)
  | Ticked (j : nat)
  | Evict (j : nat) (cs : list connection)
  | CloseIdle (c : connection)
  (* the handler *)
  | Handler (c : connection)
  | Turn (c : connection) (pos : Z) (buf : Buffer)
  | Got (c : connection) (pos : Z) (buf : Buffer)
  | FixedTurn (c : connection) (pos : Z) (slot : list byte)
  | FixedGot (c : connection) (pos : Z) (slot : list byte) (n : Z)
  | Finish (c : connection)
  (* [TcpConnection] *)
  | Recv (c : connection) (pos : Z) (buf : Buffer)
  | RecvDone (c : connection) (pos : Z) (buf : Buffer) (r : Z)
  | RecvFixed (c : connection) (pos : Z) (slot : list byte)
  | RecvFixedDone (c : connection) (pos : Z) (slot : list byte) (r : Z)
  | Send (fixed : bool) (c : connection) (data : list byte) (p remaining total : Z)
  | Shutdown (c : connection)
  | Return (v : value)
  | Rethrow (x : fault).

Section bodies.
Context (wheel : bool).                          (* [wheels_[idx]] is not null *)
Context (slots : nat → option (list byte)).      (* the slot of a connection, if it got one *)
Context (incoming : nat → list byte).            (* all its peer will send *)
Context (running : nat → bool).                  (* [server->running_] before each accept *)
Context (ticking : nat → bool).                  (* [running_] of the wheel, at each load *)
Context (expired : nat → list connection).       (* whose entries die at each tick *)

Abbreviation action := (Task.action local value fault operation).

(** What a body does with the outcome of a call. *)
Definition within {A} (m : res A) (k : A → action) : action :=
  match m with
  | Ok a => k a
  | Throw e => Uncaught (Threw e)
  | Abort => Uncaught Aborts
  | UB => Uncaught Undefined
  end.

(** *** Continuations *)

Definition after_recv (c : connection) (pos : Z) (r : value + fault) : local :=
  match r with
  | inl (VRecv n buf) => if n <=? 0 then Finish c else Got c (pos + n) buf
  | inl _ => Rethrow Undefined
  | inr x => Rethrow x
  end.
Definition after_send (c : connection) (pos : Z) (buf : Buffer) (r : value + fault) : local :=
  match r with inl _ => Turn c pos buf | inr x => Rethrow x end.
Definition after_recv_fixed (c : connection) (pos : Z) (r : value + fault) : local :=
  match r with
  | inl (VView n slot) => if n <=? 0 then Finish c else FixedGot c (pos + n) slot n
  | inl _ => Rethrow Undefined
  | inr x => Rethrow x
  end.
Definition after_send_fixed (c : connection) (pos : Z) (slot : list byte) (r : value + fault) : local :=
  match r with
  | inl (VSize s) => if s <? 0 then Finish c else FixedTurn c pos slot
  | inl _ => Rethrow Undefined
  | inr x => Rethrow x
  end.
Definition after_shutdown (r : value + fault) : local :=
  match r with inl _ => Return VVoid | inr x => Rethrow x end.

(** A completed send operation, in the loop of [send] and [send_fixed]. *)
Definition after_op (fixed : bool) (c : connection) (data : list byte) (p remaining total n : Z) : local :=
  if n <? 0 then Return (VSize n)
  else if n =? 0 then Return (VSize total)
  else Send fixed c data (p + n) (u64 (remaining - n)) (total + n).

(** *** Bodies *)

(** The accept coroutine. *)
Definition accept_turn (k : nat) : action :=
  if running k then AwaitIo OpAccept (Accepted k) else CoReturn VVoid.
Definition accept_done (k : nat) (conn : Z) : action :=
  if conn <? 0 then CoReturn VVoid else
  let c := mkConnection k conn in
  CallOut (OpConstruct c) (if wheel then InstallIdle c else SpawnHandler c).

(** [tick_coro], and [~IdleEntry] for each entry of the bucket. *)
Definition tick_turn (j : nat) : action :=
  if ticking (2 * j)%nat then AwaitIo OpTimeout (λ _, Ticked j) else CoReturn VVoid.
Definition tick_done (j : nat) : action :=
  if ticking (2 * j + 1)%nat then CallOut OpPushBucket (Evict j (expired j)) else CoReturn VVoid.
Definition evict (j : nat) (cs : list connection) : action :=
  match cs with
  | [] => tick_turn (S j)
  | c :: cs => Task.Spawn (CloseIdle c) (Evict j cs)
  end.
(** [co_await conn->shutdown(); co_return;] *)
Definition close (c : connection) : action := AwaitTask (Shutdown c) after_shutdown.

(** The handler of the echo server. *)
Definition recv_turn (c : connection) (pos : Z) (buf : Buffer) : action :=
  AwaitTask (Recv c pos buf) (after_recv c pos).
Definition fixed_turn (c : connection) (pos : Z) (slot : list byte) : action :=
  AwaitTask (RecvFixed c pos slot) (after_recv_fixed c pos).
Definition handler (c : connection) : action :=
  match slots (number c) with
  | Some slot => fixed_turn c 0 slot
  | None => within (new_Buffer kInitialSize) (recv_turn c 0)
  end.
Definition send_back (c : connection) (pos : Z) (buf : Buffer) : action :=
  within (retrieveAllAsString buf) (λ '(s, buf),
    AwaitTask (Send false c s 0 (zlen s) 0) (after_send c pos buf)).
Definition send_back_fixed (c : connection) (pos : Z) (slot : list byte) (n : Z) : action :=
  AwaitTask (Send true c (slice slot 0 n) 0 n 0) (after_send_fixed c pos slot).

(** [TcpConnection::recv] and [recv_fixed]; [if (n > 0 && wheel_) ...], and the return. *)
Definition received (c : connection) (r : Z) (v : value) : action :=
  if touch wheel r then CallOut (OpRefresh c) (Return v) else CoReturn v.
Definition recv_start (c : connection) (pos : Z) (buf : Buffer) : action :=
  within (recv_suspend buf) (λ buf,
    AwaitIo (OpRecv false c pos (writableBytes buf)) (RecvDone c pos buf)).
Definition recv_done (c : connection) (pos : Z) (buf : Buffer) (r : Z) : action :=
  within (recv_complete (slice (incoming (number c)) pos r) r buf) (λ buf,
    received c r (VRecv r buf)).
Definition recv_fixed_start (c : connection) (pos : Z) (slot : list byte) : action :=
  AwaitIo (OpRecv true c pos (u32 (zlen slot))) (RecvFixedDone c pos slot).
Definition recv_fixed_done (c : connection) (pos : Z) (slot : list byte) (r : Z) : action :=
  within (write_at slot 0 (slice (incoming (number c)) pos r)) (λ slot,
    received c r (VView r slot)).

(** [send] and [send_fixed], whose awaiter takes an [unsigned]; [shutdown]. *)
Definition send_turn (fixed : bool) (c : connection) (data : list byte) (p remaining total : Z) : action :=
  if remaining =? 0 then CoReturn (VSize total) else
  AwaitIo (OpSend fixed c (slice data p (if fixed then u32 remaining else remaining)))
    (after_op fixed c data p remaining total).
Definition shutdown (c : connection) : action :=
  if socket c <? 0 then CoReturn VVoid else AwaitIo (OpShutdown c) (λ _, Return VVoid).

Definition next (l : local) : action :=
  match l with
  | AcceptTurn k => accept_turn k
  | Accepted k conn => accept_done k conn
  | InstallIdle c => CallOut (OpRegister c) (SpawnHandler c)
  | SpawnHandler c => Task.Spawn (Handler c) (AcceptTurn (S (number c)))
  | Tick j => tick_turn j
  | Ticked j => tick_done j
  | Evict j cs => evict j cs
  | CloseIdle c | Finish c => close c
  | Handler c => handler c
  | Turn c pos buf => recv_turn c pos buf
  | Got c pos buf => send_back c pos buf
  | FixedTurn c pos slot => fixed_turn c pos slot
  | FixedGot c pos slot n => send_back_fixed c pos slot n
  | Recv c pos buf => recv_start c pos buf
  | RecvDone c pos buf r => recv_done c pos buf r
  | RecvFixed c pos slot => recv_fixed_start c pos slot
  | RecvFixedDone c pos slot r => recv_fixed_done c pos slot r
  | Send fixed c data p remaining total => send_turn fixed c data p remaining total
  | Shutdown c => shutdown c
  | Return v => CoReturn v
  | Rethrow x => Uncaught x
  end.

(** ** What the kernel has done for a connection *)

Abbreviation history := (list (operation * Z)) (only parsing).

(** The bytes received on the [n]-th connection, and those accepted for sending. *)
Definition bytes_in (n : nat) (d : history) : list byte :=
  d ≫= λ '(op, r), match op with
    | OpRecv _ c pos _ => if decide (number c = n) then slice (incoming n) pos r else []
    | _ => [] end.
Definition bytes_out (n : nat) (d : history) : list byte :=
  d ≫= λ '(op, r), match op with
    | OpSend _ c data => if decide (number c = n) then slice data 0 r else []
    | _ => [] end.

(** No send on the [n]-th connection failed. *)
Definition clean (n : nat) (d : history) : Prop :=
  Forall (λ '(op, r), match op with OpSend _ c _ => number c = n → 0 < r | _ => True end) d.
(** A reception on it reported the end of the stream, or an error. *)
Definition ended (n : nat) (d : history) : Prop :=
  Exists (λ '(op, r), match op with OpRecv _ c _ _ => number c = n ∧ r ≤ 0 | _ => False end) d.

(** The kernel stores and takes no more than it was offered, and what it stores is the
    stream of the peer. *)
Definition honest_op (o : operation * Z) : Prop :=
  match o.1 with
  | OpRecv _ c pos len => o.2 ≤ len ∧ o.2 ≤ zlen (incoming (number c)) - pos
  | OpSend _ _ data => o.2 ≤ zlen data
  | _ => True
  end.
Definition honest (d : history) : Prop := Forall honest_op d.

(** What is spawned from outside: the accept coroutine, once, and [tick_coro]. *)
Definition accept_of (l : local) : option nat := match l with AcceptTurn k => Some k | _ => None end.
Definition boot (sp : list local) : Prop :=
  Forall (λ l, match l with AcceptTurn 0 | Tick _ => True | _ => False end) sp ∧
  (length (omap accept_of sp) ≤ 1)%nat.

(** ** Phases of a connection *)

Implicit Types d : list (operation * Z).

(** A handler waits for data, or sends [s], of which [p] bytes are gone. *)
Inductive phase : Type :=
  | PTurn (pos : Z)
  | PSend (pos : Z) (s : list byte) (p : Z).

(** What went out, as against what came in. *)
Definition echoes (n : nat) d (out inp : list byte) : Prop :=
  out `sublist_of` inp ∧ (clean n d → out = inp).
Definition settled (n : nat) d : Prop :=
  bytes_in n d `prefix_of` incoming n ∧ echoes n d (bytes_out n d) (bytes_in n d).

Definition phase_ok (n : nat) d (ph : phase) : Prop :=
  match ph with
  | PTurn pos =>
      0 ≤ pos ≤ zlen (incoming n) ∧ bytes_in n d = slice (incoming n) 0 pos ∧
      echoes n d (bytes_out n d) (bytes_in n d)
  | PSend pos s p =>
      0 ≤ pos ≤ zlen (incoming n) ∧ 0 ≤ p ≤ zlen s ∧ bytes_in n d = slice (incoming n) 0 pos ∧
      ∃ inp out, bytes_in n d = inp ++ s ∧ bytes_out n d = out ++ slice s 0 p ∧ echoes n d out inp
  end.

(** The connection an operation moves bytes of. *)
Definition moves_of (op : operation) : option nat :=
  match op with OpRecv _ c _ _ | OpSend _ c _ => Some (number c) | _ => None end.
Definition untouched (n : nat) d : Prop := Forall (λ o, moves_of o.1 ≠ Some n) d.

Lemma bytes_in_snoc n d op r : bytes_in n (d ++ [(op, r)]) = bytes_in n d ++ bytes_in n [(op, r)].
Proof. apply bind_app. Qed.
Lemma bytes_out_snoc n d op r : bytes_out n (d ++ [(op, r)]) = bytes_out n d ++ bytes_out n [(op, r)].
Proof. apply bind_app. Qed.
Lemma clean_snoc n d o : clean n (d ++ [o]) → clean n d.
Proof. by intros [? _]%Forall_app. Qed.

(** An operation of another connection, or one that moves no bytes. *)
Lemma other_op n d op r : moves_of op ≠ Some n →
  bytes_in n (d ++ [(op, r)]) = bytes_in n d ∧ bytes_out n (d ++ [(op, r)]) = bytes_out n d ∧
  (clean n (d ++ [(op, r)]) ↔ clean n d) ∧ (ended n (d ++ [(op, r)]) ↔ ended n d).
Proof.
  intros Hne. rewrite bytes_in_snoc, bytes_out_snoc.
  assert (bytes_in n [(op, r)] = [] ∧ bytes_out n [(op, r)] = []) as [-> ->].
  { unfold bytes_in, bytes_out. cbn. destruct op; cbn in *; try done;
      rewrite decide_False by congruence; done. }
  rewrite !app_nil_r. split_and!; [done..| |].
  - unfold clean. rewrite Forall_app, Forall_singleton. destruct op; naive_solver.
  - unfold ended. rewrite Exists_app, Exists_cons, Exists_nil. destruct op; naive_solver.
Qed.

Lemma echoes_iff n d d' out inp : (clean n d' → clean n d) → echoes n d out inp → echoes n d' out inp.
Proof. intros Hc [? He]. split; [done|]. auto. Qed.

(** ... and histories of such operations. *)
Lemma others n d d' : untouched n d' →
  bytes_in n (d ++ d') = bytes_in n d ∧ bytes_out n (d ++ d') = bytes_out n d ∧
  (clean n (d ++ d') ↔ clean n d) ∧ (ended n (d ++ d') ↔ ended n d).
Proof.
  induction d' as [|[op r] d' IH] using rev_ind; [by rewrite app_nil_r|].
  intros [Hu Hop]%Forall_app. apply Forall_cons in Hop as [Hop _].
  destruct (IH Hu) as (? & ? & ? & ?). rewrite app_assoc.
  destruct (other_op n (d ++ d') op r Hop) as (-> & -> & -> & ->). done.
Qed.

Lemma phase_others n d ph d' : untouched n d' → phase_ok n d ph → phase_ok n (d ++ d') ph.
Proof.
  intros Hne Hph. destruct (others n d d' Hne) as (Hi & Ho & Hc & _).
  destruct ph as [pos|pos s p]; cbn in *; rewrite Hi, Ho.
  - destruct Hph as (? & ? & He). do 2 (split; [done|]). eapply echoes_iff; [|done]. apply Hc.
  - destruct Hph as (? & ? & ? & inp & out & ? & ? & He). do 3 (split; [done|]).
    exists inp, out. do 2 (split; [done|]). eapply echoes_iff; [|done]. apply Hc.
Qed.

Lemma settled_others n d d' : untouched n d' → settled n d → settled n (d ++ d').
Proof.
  intros Hne [Hp He]. destruct (others n d d' Hne) as (Hi & Ho & Hc & _).
  unfold settled. rewrite Hi, Ho. split; [done|]. eapply echoes_iff; [|done]. apply Hc.
Qed.

Lemma slice_prefix {A} (l : list A) n : slice l 0 n `prefix_of` l.
Proof. unfold slice. rewrite drop_0. apply prefix_take. Qed.

Lemma echoes_app n d out inp s p :
  echoes n d out inp → (clean n d → p = zlen s) → echoes n d (out ++ slice s 0 p) (inp ++ s).
Proof.
  intros [Hs Hc] Hp. split.
  - apply sublist_app; [done|]. unfold slice. rewrite drop_0. apply sublist_take.
  - intros Hcl. rewrite (Hc Hcl), (Hp Hcl). by rewrite slice_all.
Qed.

(** Reached its end, or given up. *)
Lemma phase_settled n d ph :
  phase_ok n d ph → match ph with PTurn _ => True | PSend _ s p => clean n d → p = zlen s end →
  settled n d.
Proof.
  destruct ph as [pos|pos s p]; cbn.
  - intros (? & Hi & He) _. split; [|done]. rewrite Hi. apply slice_prefix.
  - intros (? & ? & Hi & inp & out & Hi' & Ho & He) Hp. split; [rewrite Hi; apply slice_prefix|].
    rewrite Hi', Ho. by apply echoes_app.
Qed.

Lemma phase_sent n d pos s p : phase_ok n d (PSend pos s p) → (clean n d → p = zlen s) → phase_ok n d (PTurn pos).
Proof.
  intros Hph Hp. pose proof (phase_settled n d _ Hph Hp) as [_ He].
  destruct Hph as (? & ? & ? & _). done.
Qed.

Lemma phase_start n d : untouched n d → phase_ok n d (PTurn 0) ∧ ¬ ended n d.
Proof.
  intros Hu. destruct (others n [] d Hu) as (Hi & Ho & _ & He). cbn [app] in *.
  split; [|by intros ?%He%Exists_nil]. cbn [phase_ok]. rewrite Hi, Ho, slice_nil by lia. pose proof (zlen_nonneg (incoming n)).
  split; [lia|]. split; [done|]. by split.
Qed.

Lemma recv_views n d fixed c pos len r :
  number c = n → let d' := d ++ [(OpRecv fixed c pos len, r)] in
  bytes_in n d' = bytes_in n d ++ slice (incoming n) pos r ∧ bytes_out n d' = bytes_out n d.
Proof.
  intros Hn d'. unfold d'. rewrite bytes_in_snoc, bytes_out_snoc.
  unfold bytes_in at 2, bytes_out at 2. cbn. by rewrite decide_True, !app_nil_r.
Qed.
Lemma send_views n d fixed c data r :
  number c = n → let d' := d ++ [(OpSend fixed c data, r)] in
  bytes_in n d' = bytes_in n d ∧ bytes_out n d' = bytes_out n d ++ slice data 0 r.
Proof.
  intros Hn d'. unfold d'. rewrite bytes_in_snoc, bytes_out_snoc.
  unfold bytes_in at 2, bytes_out at 2. cbn. by rewrite decide_True, !app_nil_r.
Qed.

(** A reception of [r] bytes, and a send of [r] bytes. *)
Lemma phase_recv n d fixed c pos len r :
  number c = n → 0 < r → honest_op (OpRecv fixed c pos len, r) → phase_ok n d (PTurn pos) →
  phase_ok n (d ++ [(OpRecv fixed c pos len, r)]) (PSend (pos + r) (slice (incoming n) pos r) 0).
Proof.
  intros Hn Hr [_ Hmax] (Hpos & Hi & He). cbn [fst snd] in Hmax. rewrite Hn in Hmax.
  destruct (recv_views n d fixed c pos len r Hn) as [Hin Hout]. cbn [phase_ok].
  rewrite Hin, Hout, zlen_slice by lia. do 2 (split; [lia|]). split.
  - rewrite Hi, slice_app by lia. by rewrite Z.add_0_l.
  - exists (bytes_in n d), (bytes_out n d). rewrite (slice_nil _ 0 0), app_nil_r by lia.
    do 2 (split; [done|]). eapply echoes_iff; [|done]. apply clean_snoc.
Qed.

Lemma phase_send n d fixed c pos s p len r :
  number c = n → 0 < r ≤ len → p + len ≤ zlen s → phase_ok n d (PSend pos s p) →
  phase_ok n (d ++ [(OpSend fixed c (slice s p len), r)]) (PSend pos s (p + r)).
Proof.
  intros Hn Hr Hlen (Hpos & Hp & Hi & inp & out & Hi' & Ho & He).
  destruct (send_views n d fixed c (slice s p len) r Hn) as [Hin Hout]. cbn [phase_ok].
  rewrite Hin, Hout. do 2 (split; [lia|]). split; [done|]. exists inp, out. split; [done|]. split.
  - rewrite Ho, <-app_assoc. f_equal. rewrite slice_slice, (slice_app s 0 p r) by lia.
    by rewrite Z.add_0_r.
  - eapply echoes_iff; [|done]. apply clean_snoc.
Qed.

(** A send that failed; a reception that was the last. *)
Lemma failed_send n d fixed c pos s p data r :
  number c = n → r ≤ 0 → phase_ok n d (PSend pos s p) →
  let d' := d ++ [(OpSend fixed c data, r)] in phase_ok n d' (PTurn pos) ∧ ¬ clean n d'.
Proof.
  intros Hn Hr (Hpos & Hp & Hi & inp & out & Hi' & Ho & He) d'.
  assert (Hcl : ¬ clean n d').
  { intros [_ Hc]%Forall_app. apply Forall_cons in Hc as [Hc _]. cbn in Hc. specialize (Hc Hn). lia. }
  split; [|done]. destruct (send_views n d fixed c data r Hn) as [Hin Hout]. fold d' in Hin, Hout.
  cbn [phase_ok]. rewrite Hin, Hout, (slice_nil _ 0 r), app_nil_r by lia. split; [lia|]. split; [done|].
  rewrite Hi', Ho. apply echoes_app; [|done]. eapply echoes_iff; [|done]. apply clean_snoc.
Qed.

Lemma last_recv n d fixed c pos len r :
  number c = n → r ≤ 0 → phase_ok n d (PTurn pos) → settled n (d ++ [(OpRecv fixed c pos len, r)]).
Proof.
  intros Hn Hr Hph. destruct (phase_settled _ _ _ Hph I) as [Hp He].
  destruct (recv_views n d fixed c pos len r Hn) as [Hin Hout]. unfold settled.
  rewrite Hin, Hout, slice_nil, app_nil_r by lia. split; [done|]. eapply echoes_iff; [|done]. apply clean_snoc.
Qed.

(** ** The books of a worker *)

(** The accept coroutine with the number of the next connection, which may have been
    constructed already; the handler of a
    connection in a phase; any other coroutine, or a handler whose connection has
    ended. *)
Inductive class : Type :=
  | CAccept (k : nat) (built : bool)
  | CHandler (n : nat) (ph : phase)
  | CFree.

Definition accepts (cls : list class) : list nat :=
  omap (λ cl, match cl with CAccept k _ => Some k | _ => None end) cls.
Definition building (cls : list class) : nat :=
  length (omap (λ cl, match cl with CAccept _ true => Some tt | _ => None end) cls).
(** The connections constructed. *)
Definition constructs (d : list (operation * Z)) : list connection :=
  omap (λ o, match o.1 with OpConstruct c => Some c | _ => None end) d.
Definition handlers (cls : list class) : list (nat * phase) :=
  omap (λ cl, match cl with CHandler n ph => Some (n, ph) | _ => None end) cls.

Record book_at (bound : nat) (sp : list local) (cls : list class) d : Prop := {
  b_boot : omap accept_of sp = [] → accepts cls = [] ∧ bound = 0%nat;
  b_one : (length (accepts cls) ≤ 1)%nat;
  b_next : Forall (bound =.) (accepts cls);
  b_nodup : NoDup (handlers cls).*1;
  b_handler n ph : (n, ph) ∈ handlers cls → (n < bound)%nat ∧ phase_ok n d ph ∧ ¬ ended n d;
  b_settled n : (n < bound)%nat → n ∉ (handlers cls).*1 → settled n d ∧ (ended n d ∨ ¬ clean n d);
  b_unused n : (bound ≤ n)%nat → untouched n d;
  b_built : number <$> constructs d = seq 0 (bound + building cls);
}.
Definition book sp cls d : Prop := ∃ bound, book_at bound sp cls d.

Lemma book_perm sp cls cls' d : cls ≡ₚ cls' → book sp cls d → book sp cls' d.
Proof.
  intros Hp [bound [H1 H2 H3 H4 H5 H6 H7 H8]]. exists bound.
  assert (Ha : accepts cls ≡ₚ accepts cls') by (by apply omap_Permutation).
  assert (Hh : handlers cls ≡ₚ handlers cls') by (by apply omap_Permutation).
  split.
  - intros Hsp. destruct (H1 Hsp) as [Hn ?]. split; [|done]. rewrite Hn in Ha.
    by apply Permutation_nil_l in Ha.
  - by rewrite <-Ha.
  - by rewrite <-Ha.
  - by rewrite <-Hh.
  - intros n ph. rewrite <-Hh. apply H5.
  - intros n. rewrite <-Hh. apply H6.
  - done.
  - rewrite H8. unfold building. by rewrite Hp.
Qed.

(** Operations that move no bytes, or only those of the [n]-th connection, and
    construct nothing. *)
Definition quiet d' : Prop := (∀ n, untouched n d') ∧ constructs d' = [].
Definition own (n : nat) d' : Prop := (∀ m, m ≠ n → untouched m d') ∧ constructs d' = [].

Lemma quiet_nil : quiet [].
Proof. split; [|done]. intros n. constructor. Qed.

Lemma constructs_app d d' : constructs d' = [] → constructs (d ++ d') = constructs d.
Proof. intros Hd. unfold constructs in *. by rewrite omap_app, Hd, app_nil_r. Qed.

(** Settled for ever. *)
Lemma left_others n d d' : untouched n d' →
  settled n d ∧ (ended n d ∨ ¬ clean n d) → settled n (d ++ d') ∧ (ended n (d ++ d') ∨ ¬ clean n (d ++ d')).
Proof.
  intros Hu [Hs He]. destruct (others n d d' Hu) as (_ & _ & -> & ->).
  split; [by apply settled_others|done].
Qed.

Lemma book_quiet sp cls d d' : quiet d' → book sp cls d → book sp cls (d ++ d').
Proof.
  intros [Hq Hcon] [bound [H1 H2 H3 H4 H5 H6 H7 H8]]. exists bound. split; try done.
  - intros n ph (? & ? & He)%H5. destruct (others n d d' (Hq n)) as (_ & _ & _ & Hen).
    split; [done|]. split; [by apply phase_others|by rewrite Hen].
  - intros n ? ?. apply left_others; [apply Hq|by apply H6].
  - intros n ?. apply Forall_app. split; [by apply H7|apply Hq].
  - by rewrite constructs_app.
Qed.

(** A handler goes on, with operations of its connection only. *)
Lemma book_handler sp cls d d' n ph ph' :
  own n d' →
  (phase_ok n d ph → ¬ ended n d → phase_ok n (d ++ d') ph' ∧ ¬ ended n (d ++ d')) →
  book sp (CHandler n ph :: cls) d → book sp (CHandler n ph' :: cls) (d ++ d').
Proof.
  intros [Hq Hcon] Hph [bound [H1 H2 H3 H4 H5 H6 H7 H8]]. exists bound. cbn in *.
  destruct (H5 n ph ltac:(by left)) as (Hn & Hp & He). apply NoDup_cons in H4 as [Hni Hnd].
  split; try done; cbn.
  - by apply NoDup_cons.
  - intros m q [[= -> ->]|Hin]%elem_of_cons; [split; [done|by apply Hph]|].
    assert (Hne : m ≠ n) by (intros ->; apply Hni; apply list_elem_of_fmap; by exists (n, q)).
    destruct (H5 m q ltac:(by right)) as (? & ? & ?).
    destruct (others m d d' (Hq m Hne)) as (_ & _ & _ & Hen).
    split; [done|]. split; [by apply phase_others; [apply Hq|]|by rewrite Hen].
  - intros m Hm [Hne Hmi]%not_elem_of_cons. apply left_others; [by apply Hq|]. apply H6; [done|].
    by apply not_elem_of_cons.
  - intros m Hm. apply Forall_app. split; [by apply H7|]. apply Hq. lia.
  - by rewrite constructs_app.
Qed.

(** A handler whose connection has ended is no longer followed. *)
Lemma book_leave sp cls d d' n ph :
  own n d' → (phase_ok n d ph → settled n (d ++ d') ∧ (ended n (d ++ d') ∨ ¬ clean n (d ++ d'))) →
  book sp (CHandler n ph :: cls) d → book sp (CFree :: cls) (d ++ d').
Proof.
  intros [Hq Hcon] Hph [bound [H1 H2 H3 H4 H5 H6 H7 H8]]. exists bound. cbn in *.
  destruct (H5 n ph ltac:(by left)) as (Hn & Hp & He). apply NoDup_cons in H4 as [Hni Hnd].
  split; try done; cbn.
  - intros m q Hin.
    assert (Hne : m ≠ n) by (intros ->; apply Hni; apply list_elem_of_fmap; by exists (n, q)).
    destruct (H5 m q ltac:(by right)) as (? & ? & ?).
    destruct (others m d d' (Hq m Hne)) as (_ & _ & _ & Hen).
    split; [done|]. split; [by apply phase_others; [apply Hq|]|by rewrite Hen].
  - intros m Hm Hmi. destruct (decide (m = n)) as [->|Hne]; [by apply Hph|].
    apply left_others; [by apply Hq|]. apply H6; [done|]. by apply not_elem_of_cons.
  - intros m Hm. apply Forall_app. split; [by apply H7|]. apply Hq. lia.
  - by rewrite constructs_app.
Qed.

Lemma book_accept_ends sp cls d k : book sp (CAccept k false :: cls) d → book sp (CFree :: cls) d.
Proof.
  intros [bound [H1 H2 H3 H4 H5 H6 H7 H8]]. exists bound. cbn in *. split; try done; cbn.
  - by intros [? _]%H1.
  - lia.
  - by apply Forall_cons in H3 as [_ ?].
Qed.

Lemma book_free sp cls d : book sp (CFree :: cls) d ↔ book sp cls d.
Proof. split; intros [bound [H1 H2 H3 H4 H5 H6 H7 H8]]; by exists bound. Qed.

(** The accept coroutine constructs a connection, and spawns its handler. *)
Lemma book_builds sp cls d c :
  book sp (CAccept (number c) false :: cls) d →
  book sp (CAccept (number c) true :: cls) (d ++ [(OpConstruct c, 0)]).
Proof.
  intros [bound [H1 H2 H3 H4 H5 H6 H7 H8]]. exists bound.
  assert (Hq : ∀ n, untouched n [(OpConstruct c, 0)]) by (intros n; by repeat constructor).
  split; try done.
  - intros n ph (? & ? & He)%H5. destruct (others n d _ (Hq n)) as (_ & _ & _ & Hen).
    split; [done|]. split; [by apply phase_others|by rewrite Hen].
  - intros n ? ?. apply left_others; [apply Hq|by apply H6].
  - intros n ?. apply Forall_app. split; [by apply H7|apply Hq].
  - cbn in H2, H3. apply Forall_cons in H3 as [Hk _]. unfold constructs in *.
    rewrite omap_app, fmap_app, H8. unfold building. cbn.
    assert (Hz : omap (λ cl, match cl with CAccept _ true => Some tt | _ => None end) cls = []).
    { assert (Hnil : accepts cls = []) by (apply length_zero_iff_nil; unfold accepts; lia).
      clear -Hnil. unfold accepts in Hnil. induction cls as [|[] cls IH]; cbn in *; auto. done. }
    rewrite Hz. cbn. rewrite Nat.add_0_r, Nat.add_1_r, seq_S. by rewrite <-Hk.
Qed.

Lemma book_spawns sp cls d k :
  book sp (CAccept k true :: cls) d → book sp (CHandler k (PTurn 0) :: CAccept (S k) false :: cls) d.
Proof.
  intros [bound [H1 H2 H3 H4 H5 H6 H7 H8]]. cbn in *. apply Forall_cons in H3 as [-> H3].
  assert (Hnil : accepts cls = []) by (apply length_zero_iff_nil; unfold accepts; lia).
  unfold accepts in Hnil.
  exists (S k). split; cbn; try done.
  - by intros [? _]%H1.
  - rewrite Hnil. by repeat constructor.
  - apply NoDup_cons. split; [|done]. intros ([n ph] & Heq & Hin)%list_elem_of_fmap. cbn in Heq. subst n.
    destruct (H5 k ph Hin). lia.
  - intros n ph [[= -> ->]|Hin]%elem_of_cons.
    + split; [lia|]. apply phase_start, H7. lia.
    + destruct (H5 n ph Hin) as (? & ? & ?). split; [lia|done].
  - intros n Hn [Hne Hni]%not_elem_of_cons. apply H6; [lia|done].
  - intros n Hn. apply H7. lia.
  - rewrite H8. change (building (CAccept k true :: cls)) with (S (building cls)).
    change (building _) with (building cls). by rewrite Nat.add_succ_r.
Qed.

(** The accept coroutine is started. *)
Lemma book_boots sp cls d l :
  boot (sp ++ [l]) → book sp cls d →
  book (sp ++ [l]) (match l with AcceptTurn k => CAccept k false | _ => CFree end :: cls) d.
Proof.
  intros [Hall Hone] [bound [H1 H2 H3 H4 H5 H6 H7 H8]]. exists bound.
  apply Forall_app in Hall as [_ Hl]. apply Forall_cons in Hl as [Hl _].
  rewrite omap_app, length_app in Hone. destruct l as [[|k]| | | |j| | | | | | | | | | | | | | | | |]; try done.
  - assert (Hnil : omap accept_of sp = []) by (destruct (omap accept_of sp); [done|cbn in Hone; lia]).
    destruct (H1 Hnil) as [Hac ->]. unfold accepts in Hac. split; try done; cbn in *.
    + rewrite omap_app, Hnil. done.
    + rewrite Hac. cbn. lia.
    + rewrite Hac. by repeat constructor.
  - split; try done. rewrite omap_app. cbn. by rewrite app_nil_r.
Qed.

(** ** Strands of the program *)

Create HintDb strands.

Abbreviation strand := (Strands.strand (L:=local) (V:=value) (X:=fault) (Op:=operation)).

(** The coroutine below [send] and [send_fixed]. *)
Inductive sender : bool → connection → Z → list (value + fault → local) → Prop :=
  | SBuffer c pos b : drained b → sender false c pos [after_send c pos b]
  | SFixed c pos slot : zlen slot < u32_mod → sender true c pos [after_send_fixed c pos slot].

Definition send_limit (fixed : bool) : Z := if fixed then u32_mod else u64_mod.
Definition send_len (fixed : bool) (remaining : Z) : Z := if fixed then u32 remaining else remaining.

(** A chunk of [r] bytes at [pos] of the stream of connection [c]. *)
Definition chunk (c : connection) (pos r : Z) : Prop :=
  0 < r ∧ 0 ≤ pos ∧ pos + r ≤ zlen (incoming (number c)).

Inductive accept_strand (k : nat) : strand → bool → Prop :=
  | AcTurn : accept_strand k (Active (AcceptTurn k) []) false
  | AcWait : accept_strand k (Waiting OpAccept (Accepted k) []) false
  | AcAccepted fd : accept_strand k (Active (Accepted k fd) []) false
  | AcInstall c : number c = k → accept_strand k (Active (InstallIdle c) []) true
  | AcSpawn c : number c = k → accept_strand k (Active (SpawnHandler c) []) true.

(** The wheel, and what comes after the last reception. *)
Inductive free_strand : strand → Prop :=
  | FrTick j : free_strand (Active (Tick j) [])
  | FrTimeout j : free_strand (Waiting OpTimeout (λ _, Ticked j) [])
  | FrTicked j : free_strand (Active (Ticked j) [])
  | FrEvict j cs : free_strand (Active (Evict j cs) [])
  | FrClose c : free_strand (Active (CloseIdle c) [])
  | FrFinish c : free_strand (Active (Finish c) [])
  | FrShutdown c : free_strand (Active (Shutdown c) [after_shutdown])
  | FrShutting c : free_strand (Waiting (OpShutdown c) (λ _, Return VVoid) [after_shutdown])
  | FrShut : free_strand (Active (Return VVoid) [after_shutdown])
  | FrEnd : free_strand (Active (Return VVoid) [])
  | FrRecvEnd c pos b r : inv b → r ≤ 0 → free_strand (Active (RecvDone c pos b r) [after_recv c pos])
  | FrRecvStop c pos b r : r ≤ 0 → free_strand (Active (Return (VRecv r b)) [after_recv c pos])
  | FrFixedEnd c pos slot r : r ≤ 0 → free_strand (Active (RecvFixedDone c pos slot r) [after_recv_fixed c pos])
  | FrFixedStop c pos slot r : r ≤ 0 → free_strand (Active (Return (VView r slot)) [after_recv_fixed c pos])
  | FrSendFailed c pos slot n : n < 0 → free_strand (Active (Return (VSize n)) [after_send_fixed c pos slot]).

(** A handler, with a buffer. *)
Inductive buffer_strand (c : connection) : strand → phase → Prop :=
  | BuStart : buffer_strand c (Active (Handler c) []) (PTurn 0)
  | BuTurn pos b : drained b → buffer_strand c (Active (Turn c pos b) []) (PTurn pos)
  | BuRecv pos b : drained b → buffer_strand c (Active (Recv c pos b) [after_recv c pos]) (PTurn pos)
  | BuWait pos b : inv b → contents b = [] →
      buffer_strand c (Waiting (OpRecv false c pos (writableBytes b)) (RecvDone c pos b) [after_recv c pos])
        (PTurn pos)
  | BuDone pos b r : inv b → contents b = [] → r ≤ writableBytes b → chunk c pos r →
      buffer_strand c (Active (RecvDone c pos b r) [after_recv c pos])
        (PSend (pos + r) (slice (incoming (number c)) pos r) 0)
  | BuReturn pos b r : inv b → 0 < r →
      buffer_strand c (Active (Return (VRecv r b)) [after_recv c pos]) (PSend (pos + r) (contents b) 0)
  | BuGot pos b : inv b → buffer_strand c (Active (Got c pos b) []) (PSend pos (contents b) 0).

(** ... with a slot. *)
Inductive slot_strand (c : connection) : strand → phase → Prop :=
  | SlTurn pos slot : zlen slot < u32_mod → slot_strand c (Active (FixedTurn c pos slot) []) (PTurn pos)
  | SlRecv pos slot : zlen slot < u32_mod →
      slot_strand c (Active (RecvFixed c pos slot) [after_recv_fixed c pos]) (PTurn pos)
  | SlWait pos slot : zlen slot < u32_mod →
      slot_strand c (Waiting (OpRecv true c pos (u32 (zlen slot))) (RecvFixedDone c pos slot)
        [after_recv_fixed c pos]) (PTurn pos)
  | SlDone pos slot r : zlen slot < u32_mod → r ≤ zlen slot → chunk c pos r →
      slot_strand c (Active (RecvFixedDone c pos slot r) [after_recv_fixed c pos])
        (PSend (pos + r) (slice (incoming (number c)) pos r) 0)
  | SlReturn pos slot r : zlen slot < u32_mod → 0 < r ≤ zlen slot →
      slot_strand c (Active (Return (VView r slot)) [after_recv_fixed c pos])
        (PSend (pos + r) (slice slot 0 r) 0)
  | SlGot pos slot n : zlen slot < u32_mod → 0 < n ≤ zlen slot →
      slot_strand c (Active (FixedGot c pos slot n) []) (PSend pos (slice slot 0 n) 0).

(** ... inside [send] or [send_fixed]. *)
Inductive send_strand (c : connection) : strand → phase → Prop :=
  | SeTurn fixed pos st s p total : sender fixed c pos st → 0 ≤ p ≤ zlen s → zlen s < send_limit fixed →
      0 ≤ total → send_strand c (Active (Send fixed c s p (zlen s - p) total) st) (PSend pos s p)
  | SeWait fixed pos st s p total : sender fixed c pos st → 0 ≤ p < zlen s → zlen s < send_limit fixed →
      0 ≤ total →
      send_strand c (Waiting (OpSend fixed c (slice s p (send_len fixed (zlen s - p))))
        (after_op fixed c s p (zlen s - p) total) st) (PSend pos s p)
  | SeReturn fixed pos st n : sender fixed c pos st → (fixed = true → 0 ≤ n) →
      send_strand c (Active (Return (VSize n)) st) (PTurn pos).

Inductive classified : strand → class → Prop :=
  | KAccept k x built : accept_strand k x built → classified x (CAccept k built)
  | KFree x : free_strand x → classified x CFree
  | KBuffer c x ph : buffer_strand c x ph → classified x (CHandler (number c) ph)
  | KSlot c x ph : slot_strand c x ph → classified x (CHandler (number c) ph)
  | KSend c x ph : send_strand c x ph → classified x (CHandler (number c) ph).
#[local] Hint Constructors accept_strand free_strand buffer_strand slot_strand send_strand classified sender : strands.

(** What a strand of a class may become. *)
Definition becomes (cl : class) (new : list strand) (d' : list (operation * Z)) : Prop :=
  ∀ sp cls d, book sp (cl :: cls) d →
    ∃ ncl, Forall2 classified new ncl ∧ book sp (ncl ++ cls) (d ++ d').

Lemma becomes_quiet cl x d' : classified x cl → quiet d' → becomes cl [x] d'.
Proof.
  intros Hx Hq sp cls d Hb. exists [cl]. split; [by apply Forall2_cons|]. by apply book_quiet.
Qed.
Lemma becomes_same cl x : classified x cl → becomes cl [x] [].
Proof. intros Hx. apply becomes_quiet; [done|apply quiet_nil]. Qed.
Lemma becomes_gone : becomes CFree [] [].
Proof.
  intros sp cls d Hb. exists []. split; [done|]. rewrite app_nil_r. by apply book_free.
Qed.
Lemma becomes_ended k : becomes (CAccept k false) [] [].
Proof.
  intros sp cls d Hb. exists []. split; [done|]. rewrite app_nil_r.
  by apply book_free, (book_accept_ends _ _ _ k).
Qed.
Lemma becomes_free_fork x y : classified x CFree → classified y CFree → becomes CFree [x; y] [].
Proof.
  intros Hx Hy sp cls d Hb. exists [CFree; CFree].
  split; [by do 2 (apply Forall2_cons; split; [done|])|]. rewrite app_nil_r. by apply book_free.
Qed.

Lemma becomes_phase n ph ph' x d' :
  classified x (CHandler n ph') → own n d' →
  (∀ d, phase_ok n d ph → ¬ ended n d → phase_ok n (d ++ d') ph' ∧ ¬ ended n (d ++ d')) →
  becomes (CHandler n ph) [x] d'.
Proof.
  intros Hx Hq Hph sp cls d Hb. exists [CHandler n ph']. split; [by apply Forall2_cons|].
  by apply (book_handler _ _ _ _ n ph); [|apply Hph|].
Qed.
Lemma becomes_free n ph x d' :
  classified x CFree → own n d' →
  (∀ d, phase_ok n d ph → settled n (d ++ d') ∧ (ended n (d ++ d') ∨ ¬ clean n (d ++ d'))) → becomes (CHandler n ph) [x] d'.
Proof.
  intros Hx Hq Hph sp cls d Hb. exists [CFree]. split; [by apply Forall2_cons|].
  by apply (book_leave _ _ _ _ n ph); [|apply Hph|].
Qed.
(** A handler goes on without doing anything to its connection. *)
Lemma becomes_turn n ph ph' x d' :
  classified x (CHandler n ph') → quiet d' → (∀ d, phase_ok n d ph → phase_ok n d ph') →
  becomes (CHandler n ph) [x] d'.
Proof.
  intros Hx [Hq Hcon] Hph. apply (becomes_phase n ph ph'); [done|by split|]. intros d Hp He.
  destruct (others n d d' (Hq n)) as (_ & _ & _ & Hen). rewrite Hen. split; [|done].
  by apply phase_others, Hph.
Qed.

(** What the phase says may be used. *)
Lemma becomes_known n ph new d' :
  ((∃ d, phase_ok n d ph) → becomes (CHandler n ph) new d') → becomes (CHandler n ph) new d'.
Proof.
  intros Hb sp cls d Hbook. apply Hb; [|done]. destruct Hbook as [bound Hbook]. exists d.
  apply (b_handler _ _ _ _ Hbook n ph). by left.
Qed.

Lemma of_one n op r : moves_of op = Some n → own n [(op, r)].
Proof. intros Hop. split; [|by destruct op]. intros m Hm. repeat constructor. cbn. congruence. Qed.
Lemma of_none op r : moves_of op = None → constructs [(op, r)] = [] → quiet [(op, r)].
Proof. intros Hop Hcon. split; [|done]. intros m. repeat constructor. cbn. congruence. Qed.

(** *** One step of a strand *)

(** What the body at the point of [H] does. *)
Ltac body H :=
  cbv beta iota zeta delta [next goes_on accept_turn accept_done tick_done evict close recv_turn fixed_turn handler send_back
    send_back_fixed recv_start recv_done recv_fixed_start recv_fixed_done send_turn shutdown] in H.

Lemma accept_becomes k x built new d' :
  accept_strand k x built → strand_step next x new d' → becomes (CAccept k built) new d'.
Proof.
  intros Hx Hst. destruct Hx as [| |fd|c Hc|c Hc].
  - apply step_active in Hst. body Hst. destruct (running k); injection Hst as <- <-.
    + apply becomes_same. auto with strands.
    + apply becomes_ended.
  - apply step_waiting in Hst as (r & -> & ->). apply becomes_quiet; [auto with strands|by apply of_none].
  - apply step_active in Hst. body Hst. destruct (fd <? 0); injection Hst as <- <-.
    + apply becomes_ended.
    + intros sp cls d Hb. exists [CAccept k true].
      split; [destruct wheel; apply Forall2_cons; by auto with strands|].
      by apply (book_builds sp cls d (mkConnection k fd)).
  - apply step_active in Hst. injection Hst as <- <-. apply becomes_quiet; [auto with strands|by apply of_none].
  - apply step_active in Hst. injection Hst as <- <-. subst k.
    intros sp cls d Hb. exists [CHandler (number c) (PTurn 0); CAccept (S (number c)) false]. split.
    + do 2 (apply Forall2_cons; split; [auto with strands|]). done.
    + rewrite app_nil_r. by apply book_spawns.
Qed.


Lemma fault_free {A} (m : res A) (k : A → action) a : m = Ok a → within m k = k a.
Proof. by intros ->. Qed.

(** The kernel stored nothing: [recv_complete] has nothing to do. *)
Lemma recv_complete_end b r : inv b → r ≤ 0 → ∃ b', recv_complete [] r b = Ok b'.
Proof.
  intros Hb Hr. destruct (hasWritten_after_store b [] Hb) as (b2 & Hst & _).
  { rewrite zlen_nil, writableBytes_eq by done. pose proof (inv_writer b Hb). lia. }
  apply res_bind_ok in Hst as (b3 & Hk & _). exists b3. unfold recv_complete. rewrite Hk. cbn.
  by rewrite (proj2 (Z.ltb_ge 0 r)).
Qed.

Lemma tick_turn_becomes j new d' :
  goes_on (tick_turn j) [] = Some (new, d') → becomes CFree new d'.
Proof.
  unfold tick_turn. destruct (ticking _); intros [= <- <-]; [|apply becomes_gone].
  apply becomes_same. auto with strands.
Qed.

Lemma free_becomes x new d' : free_strand x → strand_step next x new d' → becomes CFree new d'.
Proof.
  intros Hx Hst. destruct Hx.
  all: try (apply step_waiting in Hst as (? & -> & ->); cbv beta).
  all: try (apply step_active in Hst; body Hst).
  all: try (injection Hst as <- <-; apply becomes_same; by auto with strands).
  all: try (apply becomes_quiet; [by auto with strands|by apply of_none]).
  - by apply tick_turn_becomes in Hst.
  - destruct (ticking _); injection Hst as <- <-; [|apply becomes_gone].
    apply becomes_quiet; [by auto with strands|by apply of_none].
  - destruct cs as [|c cs]; [by apply tick_turn_becomes in Hst|].
    injection Hst as <- <-. apply becomes_free_fork; auto with strands.
  - destruct (socket c <? 0); injection Hst as <- <-; apply becomes_same; auto with strands.
  - injection Hst as <- <-. apply becomes_gone.
  - rewrite slice_nil in Hst by done. destruct (recv_complete_end b r) as (b' & Heq); [done..|].
    rewrite (fault_free _ _ _ Heq) in Hst. unfold received, touch in Hst.
    rewrite (proj2 (Z.ltb_ge 0 r)) in Hst by done. injection Hst as <- <-.
    apply becomes_same. cbn. rewrite (proj2 (Z.leb_le r 0)) by done. auto with strands.
  - injection Hst as <- <-.
    apply becomes_same. cbn. rewrite (proj2 (Z.leb_le r 0)) by done. auto with strands.
  - rewrite slice_nil in Hst by done. pose proof (zlen_nonneg slot).
    destruct (write_at_ok slot 0 []) as (slot' & Heq & _); [done|by rewrite (zlen_nil (A:=byte))|].
    rewrite (fault_free _ _ _ Heq) in Hst. unfold received, touch in Hst.
    rewrite (proj2 (Z.ltb_ge 0 r)) in Hst by done. injection Hst as <- <-.
    apply becomes_same. cbn. rewrite (proj2 (Z.leb_le r 0)) by done. auto with strands.
  - injection Hst as <- <-.
    apply becomes_same. cbn. rewrite (proj2 (Z.leb_le r 0)) by done. auto with strands.
  - injection Hst as <- <-.
    apply becomes_same. cbn. rewrite (proj2 (Z.ltb_lt n 0)) by done. auto with strands.
Qed.

Hypothesis slots_small : ∀ n slot, slots n = Some slot → zlen slot < u32_mod.

(** An ending reception is the last one. *)
Lemma not_ended_recv n d fixed c pos len r : 0 < r → ¬ ended n d → ¬ ended n (d ++ [(OpRecv fixed c pos len, r)]).
Proof.
  intros Hr He [?|Hx]%Exists_app; [done|]. apply Exists_cons in Hx as [[_ ?]|?%Exists_nil]; [lia|done].
Qed.
Lemma not_ended_send n d fixed c data r : ¬ ended n d → ¬ ended n (d ++ [(OpSend fixed c data, r)]).
Proof. intros He [?|Hx]%Exists_app; [done|]. by apply Exists_cons in Hx as [?|?%Exists_nil]. Qed.

(** The kernel answers a reception. *)
Lemma recv_answered c fixed pos len r x :
  honest_op (OpRecv fixed c pos len, r) →
  (chunk c pos r → r ≤ len →
    classified x (CHandler (number c) (PSend (pos + r) (slice (incoming (number c)) pos r) 0))) →
  (r ≤ 0 → classified x CFree) →
  becomes (CHandler (number c) (PTurn pos)) [x] [(OpRecv fixed c pos len, r)].
Proof.
  intros Hh Hgo Hend. destruct (decide (r ≤ 0)) as [Hr|Hr].
  - apply becomes_free; [by apply Hend|by apply of_one|]. intros d Hp. split; [by apply last_recv|].
    left. apply Exists_app. right. by apply Exists_cons_hd.
  - apply becomes_known. intros (d0 & Hpos & _). destruct Hh as [Hlen Hmax]. cbn [fst snd] in *.
    apply (becomes_phase _ _ (PSend (pos + r) (slice (incoming (number c)) pos r) 0)).
    + apply Hgo; [|done]. unfold chunk. lia.
    + by apply of_one.
    + intros d Hp He. split; [apply phase_recv; [done|lia|done|done]|]. apply not_ended_recv; [lia|done].
Qed.

(** The kernel answers a send. *)
Lemma send_answered c fixed pos st s p total r :
  sender fixed c pos st → 0 ≤ p < zlen s → zlen s < send_limit fixed → 0 ≤ total →
  honest_op (OpSend fixed c (slice s p (send_len fixed (zlen s - p))), r) →
  becomes (CHandler (number c) (PSend pos s p))
    [Active (after_op fixed c s p (zlen s - p) total r) st]
    [(OpSend fixed c (slice s p (send_len fixed (zlen s - p))), r)].
Proof.
  intros Hse Hp Hs Htot Hh.
  assert (Hlen : send_len fixed (zlen s - p) = zlen s - p).
  { unfold send_len, send_limit in *. destruct fixed; [|done]. apply u32_small. lia. }
  rewrite Hlen in *. unfold honest_op in Hh. cbn [fst snd] in Hh. rewrite zlen_slice in Hh by lia.
  unfold after_op. destruct (Z.ltb_spec r 0) as [Hneg|Hpos]; [|destruct (Z.eqb_spec r 0) as [->|Hne]].
  - destruct Hse as [c pos b Hb|c pos slot Hsl].
    + apply (becomes_phase _ _ (PTurn pos)); [|by apply of_one|].
      { apply (KSend c), (SeReturn c false); [by constructor|done]. }
      intros d Hph He.
      split; [by eapply failed_send; [|lia|]|by apply not_ended_send].
    + apply becomes_free; [by auto with strands|by apply of_one|]. intros d Hph.
      destruct (failed_send (number c) d true c pos s p (slice s p (zlen s - p)) r eq_refl ltac:(lia) Hph)
        as [Hph' Hcl]. split; [by apply (phase_settled _ _ _ Hph')|by right].
  - apply (becomes_phase _ _ (PTurn pos)); [|by apply of_one|].
    { by apply (KSend c), (SeReturn c fixed pos st). }
    intros d Hph He. split; [by eapply failed_send; [|lia|]|by apply not_ended_send].
  - assert (Hlim : zlen s < u64_mod) by (unfold send_limit in Hs; destruct fixed; width_lia).
    rewrite u64_small by lia. replace (zlen s - p - r) with (zlen s - (p + r)) by lia.
    apply (becomes_phase _ _ (PSend pos s (p + r))).
    + apply (KSend c), (SeTurn _ _ _ st); [done|lia|done|lia].
    + by apply of_one.
    + intros d Hph He. split; [|by apply not_ended_send].
      apply (phase_send _ _ _ _ _ _ _ (zlen s - p)); [done|lia|lia|done].
Qed.

(** [send] returns to the handler, which receives again. *)
Lemma sender_resumes fixed c pos st m :
  sender fixed c pos st → (fixed = true → 0 ≤ m) →
  ∃ k, st = [k] ∧ classified (Active (k (inl (VSize m))) []) (CHandler (number c) (PTurn pos)).
Proof.
  intros [c0 pos0 b Hb|c0 pos0 slot Hs] Hm; eexists; (split; [done|]); cbn.
  - auto with strands.
  - rewrite (proj2 (Z.ltb_ge m 0)) by auto. auto with strands.
Qed.

Lemma send_becomes c x ph new d' :
  send_strand c x ph → strand_step next x new d' → honest d' → becomes (CHandler (number c) ph) new d'.
Proof.
  intros Hx Hst Hh. destruct Hx as [fixed pos st s p total Hse Hp Hs Ht|fixed pos st s p total Hse Hp Hs Ht|fixed pos st n Hse Hn].
  - apply step_active in Hst. body Hst. destruct (Z.eqb_spec (zlen s - p) 0).
    + destruct (sender_resumes fixed c pos st total Hse ltac:(done)) as (k & -> & Hk).
      injection Hst as <- <-. apply (becomes_turn _ _ (PTurn pos)); [done|apply quiet_nil|].
      intros d Hph. apply (phase_sent _ _ _ s p); [done|lia].
    + injection Hst as <- <-. apply becomes_same, (KSend c), SeWait; [done|lia|done|done].
  - apply step_waiting in Hst as (r & -> & ->). apply Forall_cons in Hh as [Hh _].
    by apply send_answered.
  - apply step_active in Hst. destruct (sender_resumes fixed c pos st n Hse Hn) as (k & -> & Hk).
    injection Hst as <- <-. by apply becomes_same.
Qed.

(** A chunk arrived: it is in the buffer. *)
Lemma recv_complete_chunk b xs r :
  inv b → contents b = [] → zlen xs = r → 0 < r ≤ writableBytes b →
  ∃ b', recv_complete xs r b = Ok b' ∧ inv b' ∧ contents b' = xs.
Proof.
  intros Hb Hc Hx Hr. destruct (hasWritten_after_store b xs Hb) as (b2 & Hst & Hb2 & Hc2 & _); [lia|].
  apply res_bind_ok in Hst as (b3 & Hk & Hw). exists b2. unfold recv_complete. rewrite Hk. cbn.
  rewrite (proj2 (Z.ltb_lt 0 r)) by lia. rewrite Hx in Hw. by rewrite Hw, Hc2, Hc.
Qed.

(** [recv] and [recv_fixed] renew the idle entry, or not, and return. *)
Lemma received_becomes c r v st k n ph new d' :
  goes_on (received c r v) (k :: st) = Some (new, d') →
  classified (Active (Return v) (k :: st)) (CHandler n ph) →
  classified (Active (k (inl v)) st) (CHandler n ph) → becomes (CHandler n ph) new d'.
Proof.
  unfold received. destruct (touch wheel r); intros [= <- <-] H1 H2.
  - apply becomes_quiet; [done|by apply of_none].
  - by apply becomes_same.
Qed.

Lemma after_recv_chunk c pos b r : 0 < r → after_recv c pos (inl (VRecv r b)) = Got c (pos + r) b.
Proof. intros Hr. cbn. by rewrite (proj2 (Z.leb_gt r 0)). Qed.
Lemma after_recv_fixed_chunk c pos slot r :
  0 < r → after_recv_fixed c pos (inl (VView r slot)) = FixedGot c (pos + r) slot r.
Proof. intros Hr. cbn. by rewrite (proj2 (Z.leb_gt r 0)). Qed.

Lemma buffer_becomes c x ph new d' :
  buffer_strand c x ph → strand_step next x new d' → honest d' → becomes (CHandler (number c) ph) new d'.
Proof.
  intros Hx Hst Hh. destruct Hx as [|pos b Hb|pos b Hb|pos b Hb Hc|pos b r Hb Hc Hr Hch|pos b r Hb Hr|pos b Hb];
    try (apply step_active in Hst; body Hst).
  - destruct (slots (number c)) as [slot|] eqn:Hs.
    + injection Hst as <- <-. apply becomes_same. eauto with strands.
    + destruct (new_Buffer_spec kInitialSize) as (b & Hnew & Hb & Hc & Hw & _); [by vm_compute..|].
      rewrite (fault_free _ _ _ Hnew) in Hst. injection Hst as <- <-. apply becomes_same.
      apply KBuffer. by constructor.
  - injection Hst as <- <-. apply becomes_same. auto with strands.
  - pose proof (drained_fits b Hb) as Hf. destruct Hb as (Hb & Hc & Hw).
    destruct (ensureWritableBytes_spec b Hb kMinRecvSize) as (b1 & Hs & Hb1 & Hc1 & _); [done|done|].
    rewrite (fault_free _ _ _ Hs) in Hst. injection Hst as <- <-. apply becomes_same, KBuffer, BuWait; [done|congruence].
  - apply step_waiting in Hst as (r & -> & ->). apply Forall_cons in Hh as [Hh _].
    apply recv_answered; [done|..]; intros; auto with strands.
  - pose proof Hch as (Hr0 & Hpos & Hmax).
    destruct (recv_complete_chunk b (slice (incoming (number c)) pos r) r Hb Hc) as (b' & Heq & Hb' & Hc');
      [rewrite zlen_slice; lia|lia|].
    rewrite (fault_free _ _ _ Heq) in Hst. rewrite <-Hc'. eapply received_becomes; [exact Hst|auto with strands|].
    rewrite after_recv_chunk by done. auto with strands.
  - injection Hst as <- <-. apply becomes_same. rewrite (proj2 (Z.leb_gt r 0)) by done. auto with strands.
  - destruct (retrieveAllAsString_drained b Hb) as (b' & Heq & Hd).
    rewrite (fault_free _ _ _ Heq) in Hst. injection Hst as <- <-. apply becomes_same, (KSend c).
    pose proof (zlen_nonneg (contents b)). pose proof (zlen_contents b Hb).
    pose proof (inv_writer b Hb). pose proof (inv_size b Hb). pose proof (inv_reader b Hb).
    rewrite <-(Z.sub_0_r (zlen (contents b))) at 1.
    apply SeTurn; [by constructor|lia|unfold kCheapPrepend, send_limit in *; width_lia|done].
Qed.

Lemma slot_becomes c x ph new d' :
  slot_strand c x ph → strand_step next x new d' → honest d' → becomes (CHandler (number c) ph) new d'.
Proof.
  intros Hx Hst Hh. destruct Hx as [pos slot Hs|pos slot Hs|pos slot Hs|pos slot r Hs Hr Hch|pos slot r Hs Hr|pos slot n Hs Hn];
    try (apply step_active in Hst; body Hst).
  - injection Hst as <- <-. apply becomes_same. auto with strands.
  - injection Hst as <- <-. apply becomes_same. auto with strands.
  - apply step_waiting in Hst as (r & -> & ->). apply Forall_cons in Hh as [Hh _].
    pose proof (zlen_nonneg slot). rewrite u32_small in Hh |- * by lia.
    apply recv_answered; [done|..]; intros; auto with strands.
  - pose proof Hch as (Hr0 & Hpos & Hmax).
    assert (Hx : zlen (slice (incoming (number c)) pos r) = r) by (rewrite zlen_slice; lia).
    destruct (write_at_ok slot 0 (slice (incoming (number c)) pos r)) as (slot' & Heq & Hlen & Hsl & _);
      [done|lia|].
    rewrite (fault_free _ _ _ Heq) in Hst. rewrite Hx in Hsl. rewrite <-Hsl.
    eapply received_becomes; [exact Hst|apply (KSlot c), SlReturn; lia|].
    rewrite after_recv_fixed_chunk by done. apply (KSlot c), SlGot; lia.
  - injection Hst as <- <-. apply becomes_same. rewrite (proj2 (Z.leb_gt r 0)) by lia.
    apply (KSlot c), SlGot; [done|lia].
  - injection Hst as <- <-. apply becomes_same, (KSend c).
    assert (Hx : zlen (slice slot 0 n) = n) by (rewrite zlen_slice; lia).
    rewrite <-Hx at 2. rewrite <-(Z.sub_0_r (zlen (slice slot 0 n))) at 1.
    apply SeTurn; [by constructor|lia|unfold send_limit; lia|done].
Qed.

Lemma strand_becomes x cl new d' :
  classified x cl → strand_step next x new d' → honest d' → becomes cl new d'.
Proof.
  intros [k y built Hy|y Hy|c y ph Hy|c y ph Hy|c y ph Hy] Hst Hh.
  - by eapply accept_becomes.
  - by eapply free_becomes.
  - by eapply buffer_becomes.
  - by eapply slot_becomes.
  - by eapply send_becomes.
Qed.

(** No strand at the bottom of its stack lets an exception out. *)
Lemma no_fault l x cl : classified (Active l []) cl → next l ≠ Uncaught x.
Proof.
  intros Hx Hn. inversion Hx as [k y built Hy|y Hy|c y ph Hy|c y ph Hy|c y ph Hy]; subst; inversion Hy; subst; body Hn.
  all: repeat match type of Hn with
    | (if ?b then _ else _) = _ => destruct b; try done
    | tick_turn _ = _ => unfold tick_turn in Hn
    end; try done.
  - destruct cs; [unfold tick_turn in Hn; by destruct (ticking _)|done].
  - destruct (slots (number c)); [done|].
    destruct (new_Buffer_spec kInitialSize) as (b & Hnew & _); [by vm_compute..|].
    by rewrite (fault_free _ _ _ Hnew) in Hn.
  - match goal with H : inv ?b |- _ => destruct (retrieveAllAsString_drained b H) as (b' & Heq & _) end.
    by rewrite (fault_free _ _ _ Heq) in Hn.
Qed.

(** ** The whole program *)

Definition kept (sp : list local) (xs : list strand) d : Prop :=
  ∃ l : list (strand * class),
    l.*1 ≡ₚ xs ∧ Forall (λ p, classified p.1 p.2) l ∧ book sp l.*2 d.

(** The entry of a strand among those kept. *)
Lemma kept_split sp x xs d :
  kept sp (x :: xs) d →
  ∃ cl l, classified x cl ∧ l.*1 ≡ₚ xs ∧ Forall (λ p, classified p.1 p.2) l ∧ book sp (cl :: l.*2) d.
Proof.
  intros (l & Hp & Hall & Hb).
  assert (Hin : x ∈ l.*1) by (rewrite Hp; by left).
  apply list_elem_of_fmap in Hin as ([y cl] & Heq & Hin). cbn in Heq. subst y.
  apply elem_of_Permutation in Hin as (l' & Hl'). exists cl, l'.
  rewrite Hl' in Hall, Hp. apply Forall_cons in Hall as [Hx Hall]. cbn in Hp.
  split; [done|]. split; [by apply Permutation_cons_inv in Hp|]. split; [done|].
  eapply book_perm; [|done]. by rewrite Hl'.
Qed.

Lemma kept_join sp x xs cl l d :
  classified x cl → l.*1 ≡ₚ xs → Forall (λ p, classified p.1 p.2) l → book sp (cl :: l.*2) d →
  kept sp (x :: xs) d.
Proof.
  intros Hx Hp Hall Hb. exists ((x, cl) :: l). split; [by constructor|].
  split; [by apply Forall_cons|done].
Qed.

Lemma kept_perm sp xs xs' d : xs ≡ₚ xs' → kept sp xs d → kept sp xs' d.
Proof. intros Hp (l & Hl & ?). exists l. by rewrite Hl. Qed.

Lemma kept_step sp old new rest d d' :
  strand_step next old new d' → honest d' → kept sp (old :: rest) d → kept sp (new ++ rest) (d ++ d').
Proof.
  intros Hst Hh (cl & l & Hx & Hp & Hall & Hb)%kept_split.
  destruct (strand_becomes old cl new d' Hx Hst Hh sp l.*2 d Hb) as (ncl & Hnew & Hb').
  exists (zip new ncl ++ l). pose proof (Forall2_length _ _ _ Hnew) as Hlen.
  rewrite !fmap_app, fst_zip, snd_zip by lia. split; [by rewrite Hp|]. split; [|done].
  apply Forall_app. split; [|done]. clear -Hnew. induction Hnew; constructor; done.
Qed.

Lemma new_book sp : omap accept_of sp = [] → book sp [] [].
Proof.
  intros Hsp. exists 0%nat. split; cbn; try done; try lia.
  - constructor.
  - by intros ? ? ?%not_elem_of_nil.
  - intros n _. constructor.
Qed.

Lemma kept_spawn sp l xs d : boot (sp ++ [l]) → kept sp xs d → kept (sp ++ [l]) (Active l [] :: xs) d.
Proof.
  intros Hb (lst & Hp & Hall & Hbk).
  apply (kept_join _ _ _ (match l with AcceptTurn k => CAccept k false | _ => CFree end) lst); [|done|done|].
  - destruct Hb as [Hb _]. apply Forall_app in Hb as [_ Hl]. apply Forall_cons in Hl as [Hl _].
    destruct l as [[|k]| | | |j| | | | | | | | | | | | | | | | |]; try done; auto with strands.
  - by apply book_boots.
Qed.

Lemma kept_caught sp l x rest d : next l = Uncaught x → ¬ kept sp (Active l [] :: rest) d.
Proof. intros Hn (cl & lst & Hx & _)%kept_split. by eapply no_fault. Qed.

Lemma boot_prefix sp sp' : boot (sp ++ sp') → boot sp.
Proof.
  intros [Hb1 Hb2]. apply Forall_app in Hb1 as [Hb1 _]. rewrite omap_app, length_app in Hb2.
  split; [done|lia].
Qed.

Lemma kept_start : kept [] [] [].
Proof. exists []. split; [done|]. split; [done|]. by apply new_book. Qed.

(** Every run keeps the books, and no exception leaves a coroutine. *)
Lemma kept_run es s :
  c_run next es no_calls = Some s → boot (omap spawned_of es) → honest (c_done s) →
  c_control s ≠ CAborted ∧ kept (omap spawned_of es) (strands s) (c_done s).
Proof.
  intros Hrun Hboot Hh.
  apply (strands_invariant next (λ sp d, boot sp ∧ honest d)) with (P := kept) (sp := []) (s := no_calls); try done.
  - intros sp sp' d d' [Hb Hd]. apply Forall_app in Hd as [Hd _].
    split; [by eapply boot_prefix|done].
  - apply kept_perm.
  - intros sp l xs d [Hb _]. by apply kept_spawn.
  - intros sp old new rest d d' Hst [_ Hd]. apply Forall_app in Hd as [_ Hd]. by apply kept_step.
  - intros sp l x rest d _. apply kept_caught.
  - apply kept_start.
Qed.

Definition served (n : nat) d : Prop :=
  bytes_in n d `prefix_of` incoming n ∧ bytes_out n d `sublist_of` bytes_in n d ∧
  (clean n d → bytes_out n d `prefix_of` bytes_in n d ∧ (ended n d → bytes_out n d = bytes_in n d)).

Lemma settled_served n d : settled n d → served n d.
Proof.
  intros (Hp & Hs & Hc). split; [done|]. split; [done|]. intros Hcl. by rewrite (Hc Hcl).
Qed.

Lemma kept_served sp xs d n : kept sp xs d → served n d.
Proof.
  intros (l & _ & _ & bound & Hb). destruct (decide (n < bound)%nat) as [Hn|Hn].
  2: { apply settled_served. apply (phase_settled _ _ (PTurn 0)); [|done]. apply phase_start.
       apply (b_unused _ _ _ _ Hb). lia. }
  destruct (decide (n ∈ (handlers l.*2).*1)) as [Hin|Hin];
    [|by apply settled_served; apply (b_settled _ _ _ _ Hb)].
  apply list_elem_of_fmap in Hin as ([m ph] & Heq & Hin). cbn in Heq. subst m.
  destruct (b_handler _ _ _ _ Hb n ph Hin) as (_ & Hph & Hen). destruct ph as [pos|pos s p].
  - by apply settled_served, (phase_settled _ _ _ Hph).
  - destruct Hph as (Hpos & Hpp & Hi & inp & out & Hi' & Ho & Hs & Hc). split; [rewrite Hi; apply slice_prefix|].
    rewrite Hi', Ho. split.
    + apply sublist_app; [done|]. unfold slice. rewrite drop_0. apply sublist_take.
    + intros Hcl. rewrite (Hc Hcl). split; [|done]. apply prefix_app. apply slice_prefix.
Qed.

(** A strand at rest, of a handler, is an operation of its connection. *)
Lemma rests_on_operation x n ph :
  classified x (CHandler n ph) → (∀ l st, x ≠ Active l st) →
  ∃ op k st, x = Waiting op k st ∧ moves_of op = Some n.
Proof.
  intros Hx Hrest. destruct x as [l st|op k st]; [by destruct (Hrest l st)|]. exists op, k, st. split; [done|].
  inversion Hx as [k' y built Hy|y Hy|c y ph' Hy|c y ph' Hy|c y ph' Hy]; subst; by inversion Hy.
Qed.

Lemma kept_tended sp xs d c :
  kept sp xs d → (∀ l st, Active l st ∉ xs) → c ∈ constructs d →
  ended (number c) d ∨ ¬ clean (number c) d ∨
  ∃ op k st, Waiting op k st ∈ xs ∧ moves_of op = Some (number c).
Proof.
  intros (l & Hp & Hall & bound & Hb) Hrest Hc.
  assert (Hxs : ∀ x cl, (x, cl) ∈ l → classified x cl ∧ x ∈ xs).
  { intros x cl Hin. split; [by apply (proj1 (Forall_forall _ _) Hall (x, cl))|].
    rewrite <-Hp. apply list_elem_of_fmap. by exists (x, cl). }
  assert (Hbuild : building l.*2 = 0%nat).
  { unfold building. apply length_zero_iff_nil, elem_of_nil_inv.
    intros [] ([k built| |] & Hin & Hsome)%list_elem_of_omap; try done. destruct built; [|done].
    apply list_elem_of_fmap in Hin as ([x cl] & Heq & Hin). cbn in Heq. subst cl.
    destruct (Hxs _ _ Hin) as [Hx Hxin]. inversion Hx as [k' y built Hy|y Hy|c' y ph Hy|c' y ph Hy|c' y ph Hy]; subst.
    inversion Hy; subst; by eapply Hrest. }
  assert (Hn : (number c < bound)%nat).
  { pose proof (b_built _ _ _ _ Hb) as Hseq. rewrite Hbuild, Nat.add_0_r in Hseq.
    assert (Hin : number c ∈ number <$> constructs d) by (apply list_elem_of_fmap; by exists c).
    rewrite Hseq in Hin. apply elem_of_seq in Hin. lia. }
  destruct (decide (number c ∈ (handlers l.*2).*1)) as [Hin|Hin].
  2: { destruct (b_settled _ _ _ _ Hb _ Hn Hin) as [_ [?|?]]; auto. }
  right. right. apply list_elem_of_fmap in Hin as ([n ph] & Heq & Hin). cbn in Heq.
  apply list_elem_of_omap in Hin as ([| |] & Hin & Hsome); try done. simplify_eq.
  apply list_elem_of_fmap in Hin as ([x cl] & Heq' & Hin). cbn in Heq'. subst cl.
  destruct (Hxs _ _ Hin) as [Hx Hxin]. destruct (rests_on_operation x _ _ Hx) as (op & k & st & -> & Hop).
  - intros l0 st ->. by eapply Hrest.
  - by exists op, k, st.
Qed.

(** *** On the event loop *)

Context (entries : nat) (sqpoll : bool).
Abbreviation worker_run := (Coroutines.worker_run next (λ _, false) entries sqpoll).

Lemma worker_kept es w :
  worker_run es new_worker = Some w → boot (booted w) → honest (done_ (mach w)) →
  ∃ c, related (mach w) c ∧ c_control c ≠ CAborted ∧ kept (booted w) (strands c) (done_ (mach w)).
Proof.
  intros Hrun Hboot Hh. pose proof (worker_run_inv next _ _ _ es _ _ (new_worker_inv next) Hrun) as Hw.
  destruct (w_frames _ _ Hw) as (ts & Hts & _ & Hsp). destruct (task_run_related next _ _ Hts) as (c & Hc & Hrel).
  exists c. split; [done|].
  assert (Hd : done_ (mach w) = c_done c) by (by destruct Hrel as (? & ? & (_ & ? & _) & _)).
  rewrite Hd, <-Hsp in *. by apply kept_run.
Qed.

(** ** Properties *)

(** C1: The echo server, on its event loop, echoes.  However many connections are open,
    and however the kernel, the peers, the idle wheel and other threads interleave: the
    bytes received on a connection are a prefix of its peer's stream; what is sent back
    on it is made of those bytes in their order, of no other connection's, and of each
    at most once; if no send fails nothing is left out in between, and once the stream
    has ended everything received has been sent back.  No exception leaves a coroutine
    and no dead frame is resumed. *)
Theorem echo_server_serves (es : list worker_event) w :
  worker_run es new_worker = Some w → boot (booted w) → honest (done_ (mach w)) →
  control (mach w) ≠ Aborted ∧ control (mach w) ≠ Stuck ∧ ∀ n, served n (done_ (mach w)).
Proof.
  intros Hrun Hboot Hh. destruct (worker_kept es w Hrun Hboot Hh) as (c & Hrel & Hna & Hk).
  split_and!; [| |intros n; by eapply kept_served];
    destruct (related_control _ _ Hrel) as [[? ?]|[(? & ? & ? & ? & ?)|[? ?]]]; congruence.
Qed.

(** C7: No connection is forgotten.  While its worker is alive, every connection that was
    accepted has a reception or a send under way, whose coroutine the loop keeps track
    of, unless its stream has ended or one of its sends has failed. *)
Theorem no_connection_forgotten (es : list worker_event) w c :
  worker_run es new_worker = Some w → boot (booted w) → honest (done_ (mach w)) →
  alive w = true → (OpConstruct c, 0) ∈ done_ (mach w) →
  ended (number c) (done_ (mach w)) ∨ ¬ clean (number c) (done_ (mach w)) ∨
  ∃ h op k cont, frames (mach w) !! h = Some (TaskFrame (OnIo op k) no_result cont) ∧
    moves_of op = Some (number c) ∧
    h ∈ outstanding (sched w) ++ ready_ (sched w) ++ handles (cross_ (sched w)) ++ away w.
Proof.
  intros Hrun Hboot Hh Halive Hc. destruct (worker_kept es w Hrun Hboot Hh) as (cs & Hrel & _ & Hk).
  pose proof (worker_run_inv next _ _ _ es _ _ (new_worker_inv next) Hrun) as Hw.
  pose proof (proj1 (alive_spec next w) Halive) as [Hloop _].
  destruct (no_spawners _ _ Hrel Hloop) as [Hsp Hctl].
  assert (Hstr : strands cs = (λ p, Waiting p.1.1 p.1.2 p.2) <$> c_waiting cs).
  { unfold strands. by rewrite Hsp, Hctl. }
  destruct (kept_tended _ _ _ c Hk) as [?|[?|(op & k & st & Hin & Hop)]].
  - intros l st Hin. rewrite Hstr in Hin. by apply list_elem_of_fmap in Hin as (? & ? & _).
  - apply list_elem_of_omap. by exists (OpConstruct c, 0).
  - by left.
  - by right; left.
  - right. right. rewrite Hstr in Hin. apply list_elem_of_fmap in Hin as ([[op' k'] st'] & [= -> -> ->] & Hin).
    destruct (waiting_suspended _ _ _ _ _ Hrel Hloop Hin) as (h & cont & Hpe & Hfr).
    exists h, op', k', cont. split_and!; [done..|].
    rewrite (k_pending _ (w_accounted _ _ Hw Halive)) in Hpe. unfold tracked, to_resume in Hpe.
    by rewrite <-!app_assoc in Hpe.
Qed.
End bodies.

(** ** Witnesses *)

Module Demo.
(** Two connections, the second with a slot. *)
Definition slots (n : nat) : option (list byte) := if decide (n = 1%nat) then Some (replicate 8 x00) else None.
Definition incoming (n : nat) : list byte :=
  match n with 0%nat => [x61; x62; x63] | 1%nat => [x77; x78; x79; x7a] | _ => [] end.
Definition yes (n : nat) : bool := true.
Definition nobody (n : nat) : list connection := [].
Definition body := next true slots incoming yes yes nobody.
Definition steps (n : nat) : list (Task.event local) := replicate n EvStep.

(** One turn of the loop up to the wait; the kernel completes its [k]-th operation, whose
    coroutine is resumed and makes [n] steps. *)
Definition turn (k : nat) (r : Z) (n : nat) : list (worker_event (L:=local)) :=
  [WSched EvReadyDone; WSched EvSubmit; WSched (EvKernel k r 0); WSched (EvReturn 1);
   WSched EvPeek; WCqe []; WSched EvAdvance; WSched EvTop; WSched EvTasksDone; WResume (steps n)].
Definition es : list (worker_event (L:=local)) :=
  [WSched (EvBoot 0); WSched (EvBoot 1); WSched EvRun; WSched EvTop;
   WTask (EvSpawn (AcceptTurn 0) :: steps 1); WTask (EvSpawn (Tick 0) :: steps 1); WSched EvTasksDone] ++
  turn 2 5 6 ++ turn 4 6 6 ++       (* both are accepted *)
  turn 4 4 4 ++ turn 3 3 4 ++       (* receptions on the second, then the first *)
  turn 5 2 1 ++ turn 4 4 3 ++       (* a part sent to the first, all to the second *)
  turn 4 1 3 ++                     (* the rest *)
  turn 4 0 3.                       (* the second has no more to say *)
Definition w : Coroutines.worker := default new_worker (worker_run body (λ _, false) 16 false es new_worker).
Lemma handlers_run : worker_run body (λ _, false) 16 false es new_worker = Some w.
Proof. vm_compute. reflexivity. Qed.
Lemma w_honest : honest incoming (done_ (mach w)).
Proof. vm_compute. repeat constructor; intros [=]. Qed.
Lemma w_boot : boot (booted w).
Proof. vm_compute. split; [by repeat constructor|lia]. Qed.
Lemma w_bytes : bytes_out 0 (done_ (mach w)) = [x61; x62; x63] ∧
  bytes_out 1 (done_ (mach w)) = [x77; x78; x79; x7a] ∧ alive w = true ∧
  (OpConstruct (mkConnection 0 5), 0) ∈ done_ (mach w).
Proof. vm_compute. split_and!; try done. set_solver. Qed.
Lemma slots_small n slot : slots n = Some slot → zlen slot < u32_mod.
Proof. unfold slots. case_decide; [|done]. by intros [= <-]. Qed.
End Demo.

Lemma echo_server_serves_witness :
  bytes_out 1 (done_ (mach Demo.w)) = [x77; x78; x79; x7a] ∧
  (∀ n, served Demo.incoming n (done_ (mach Demo.w))).
Proof.
  split; [apply Demo.w_bytes|].
  destruct (echo_server_serves true Demo.slots Demo.incoming Demo.yes Demo.yes Demo.nobody Demo.slots_small
    16 false Demo.es Demo.w Demo.handlers_run Demo.w_boot Demo.w_honest) as (_ & _ & Hn). exact Hn.
Defined.

Lemma no_connection_forgotten_witness :
  let c := mkConnection 0 5 in
  alive Demo.w = true ∧
  (ended (number c) (done_ (mach Demo.w)) ∨ ¬ clean (number c) (done_ (mach Demo.w)) ∨
   ∃ h op k cont, frames (mach Demo.w) !! h = Some (TaskFrame (OnIo op k) no_result cont) ∧
     moves_of op = Some (number c) ∧
     h ∈ outstanding (sched Demo.w) ++ ready_ (sched Demo.w) ++ handles (cross_ (sched Demo.w)) ++ away Demo.w).
Proof.
  destruct Demo.w_bytes as (_ & _ & Ha & Hc). split; [exact Ha|].
  exact (no_connection_forgotten true Demo.slots Demo.incoming Demo.yes Demo.yes Demo.nobody Demo.slots_small
    16 false Demo.es Demo.w (mkConnection 0 5) Demo.handlers_run Demo.w_boot Demo.w_honest Ha Hc).
Defined.
