(* ===== verification/WheelCalls.v ===== *)
(** * WheelCalls: what the coroutines ask of the idle wheel

    The calls of the coroutines of [Handlers.v] - [register_conn] and [install_idle] in the
    accept coroutine, [refresh] in [recv] and [recv_fixed], [push_back] in [tick_coro] -
    played to the wheel of [IdleWheel.v] in the order in which they happen.  [left] counts,
    from the calls alone, the pushes that a connection has left; [counted] relates it to
    the entries of the wheel, through the countdown that the wheel implements. *)
From S2P Require Import Interfaces CircularBuffer IdleWheel.
From S2P Require Import Scheduler Completion Coroutines Prelude Task Strands BufferPool Buffer Tcp Handlers.

(** The buckets pushed. *)
Definition is_push (o : operation * Z) : option unit :=
  match o.1 with OpPushBucket => Some tt | _ => None end.
Definition pushes (d : list (operation * Z)) : nat := length (omap is_push d).

Lemma pushes_app (d d' : list (operation * Z)) : pushes (d ++ d') = (pushes d + pushes d')%nat.
Proof. unfold pushes. by rewrite omap_app, length_app. Qed.
(** The connections registered with the wheel. *)
Definition registers (d : list (operation * Z)) : list connection :=
  omap (λ o, match o.1 with OpRegister c => Some c | _ => None end) d.

Lemma registers_app (d d' : list (operation * Z)) : registers (d ++ d') = registers d ++ registers d'.
Proof. apply omap_app. Qed.

(** ** What the wheel is asked *)

Section replay.
Context {R : Type} `{!Window Bucket R ∅}.
Implicit Types (d : list (operation * Z)) (c : connection).

(** The connections destroyed before each push of a bucket. *)
Context (gone : nat → list conn).

(** The wheel, the entry each connection was installed with, and what the pushes so far
    have shut down. *)
Record seen := mkSeen {
  world_ : world R;
  entry_ : gmap conn entry;
  shed : list (gset conn);
}.

(** The calls of the coroutines; [recv] locks the [weak_ptr] that [install_idle] left in
    the connection. *)
Definition wheel_call (op : operation) (s : seen) : res seen :=
  match op with
  | OpRegister c =>
      let e := next_entry (IdleWheel.wheel (world_ s)) in
      '(_, w) ← IdleWheel.handle (EvRegister (number c)) (world_ s);
      Ok (mkSeen w (<[number c := e]> (entry_ s)) (shed s))
  | OpRefresh c =>
      match entry_ s !! number c with
      | Some e =>
          '(_, w) ← IdleWheel.handle (EvData e) (world_ s);
          Ok (mkSeen w (entry_ s) (shed s))
      | None => Ok s
      end
  | OpPushBucket =>
      '(_, w) ← IdleWheel.run (EvClosed <$> gone (length (shed s))) (world_ s);
      '(out, w) ← IdleWheel.handle EvTick w;
      Ok (mkSeen w (entry_ s) (shed s ++ [out]))
  | _ => Ok s
  end.

Fixpoint wheel_calls d (s : seen) : res seen :=
  match d with
  | [] => Ok s
  | (op, _) :: d => s ← wheel_call op s; wheel_calls d s
  end.

Lemma wheel_calls_snoc d op r s :
  wheel_calls (d ++ [(op, r)]) s = (s ← wheel_calls d s; wheel_call op s).
Proof.
  revert s. induction d as [|[o z] d IH]; intros s; cbn.
  - by destruct (wheel_call op s).
  - destruct (wheel_call o s); cbn; [apply IH|done..].
Qed.

(** The calls since the wheel was constructed with an idle timeout. *)
Definition replay (seconds : Z) d : res seen :=
  w ← IdleWheel.boot seconds; wheel_calls d (mkSeen w ∅ []).

(** *** The countdown of a connection *)

Context (N : nat).

(** The pushes left to the [n]-th connection, once it is registered. *)
Definition renews (n : nat) (op : operation) : bool :=
  match op with OpRegister c | OpRefresh c => bool_decide (number c = n) | _ => false end.
Definition count (n : nat) (left : option nat) (op : operation) : option nat :=
  match op, left with
  | OpRegister c, _ => if decide (number c = n) then Some N else left
  | OpRefresh c, Some (S _) => if decide (number c = n) then Some N else left
  | OpPushBucket, Some (S k) => Some k
  | _, _ => left
  end.
Definition left (n : nat) d : option nat := foldl (count n) None d.*1.

Lemma left_snoc n d op r : left n (d ++ [(op, r)]) = count n (left n d) op.
Proof. unfold left. by rewrite fmap_app, foldl_app. Qed.

(** The [j]-th push is the last that the [n]-th connection had left. *)
Definition drops (n j : nat) d : Prop :=
  ∃ d1 r d2, d = d1 ++ (OpPushBucket, r) :: d2 ∧ pushes d1 = j ∧ left n d1 = Some 1%nat.
Definition unrenewed (n : nat) d : Prop := Forall (λ o, renews n o.1 = false) d.

Lemma drops_app n j d d' : drops n j d → drops n j (d ++ d').
Proof.
  intros (d1 & r & d2 & -> & ? & ?). exists d1, r, (d2 ++ d'). by rewrite <-app_assoc.
Qed.

(** It has had [N] pushes by then, and nothing came in between. *)
Lemma left_since n d k : left n d = Some k → (0 < k)%nat →
  ∃ d1 d2, d = d1 ++ d2 ∧ unrenewed n d2 ∧ (pushes d2 + k)%nat = N.
Proof.
  revert k. induction d as [|[op r] d IH] using rev_ind; intros k; [done|].
  rewrite left_snoc. intros Hl Hk.
  assert (Hre : k = N → ∃ d1 d2, d ++ [(op, r)] = d1 ++ d2 ∧ unrenewed n d2 ∧ (pushes d2 + k)%nat = N).
  { intros ->. exists (d ++ [(op, r)]), []. rewrite app_nil_r. split_and!; [done|constructor|done]. }
  assert (Hgo : ∀ k', left n d = Some k' → renews n op = false → (0 < k')%nat →
    (pushes [(op, r)] + k)%nat = k' →
    ∃ d1 d2, d ++ [(op, r)] = d1 ++ d2 ∧ unrenewed n d2 ∧ (pushes d2 + k)%nat = N).
  { intros k' Hl' Hr Hk' Hp. destruct (IH k' Hl' Hk') as (d1 & d2 & -> & Hun & Hs).
    exists d1, (d2 ++ [(op, r)]). rewrite app_assoc, pushes_app. split; [done|].
    split; [apply Forall_app; split; [done|by apply Forall_cons]|lia]. }
  destruct op; cbn in Hl; try (by eapply Hgo).
  - case_decide; [apply Hre; congruence|]. eapply Hgo; [done| |done|done]. by apply bool_decide_eq_false_2.
  - destruct (left n d) as [[|k']|] eqn:Hn; try done; [by simplify_eq; lia|].
    case_decide; [apply Hre; congruence|]. eapply Hgo; [done| |lia|cbn; congruence].
    by apply bool_decide_eq_false_2.
  - destruct (left n d) as [[|k']|] eqn:Hn; try done; simplify_eq; [lia|].
    apply (Hgo (S k)); [done..|lia|done].
Qed.

Lemma drops_since n j d : drops n j d → (0 < N)%nat →
  ∃ d1 d2 d3, d = d1 ++ d2 ++ d3 ∧ unrenewed n d2 ∧ pushes d2 = N.
Proof.
  intros (d1 & r & d2 & -> & _ & Hl) HN. destruct (left_since n d1 1 Hl) as (a & b & -> & Hun & Hp); [lia|].
  exists a, (b ++ [(OpPushBucket, r)]), d2. rewrite <-!app_assoc. split; [done|].
  split; [apply Forall_app; split; [done|by apply Forall_cons]|]. rewrite pushes_app. cbn. lia.
Qed.

(** ... and after [N] pushes nothing is left. *)
Lemma left_runs_out n d1 d2 k : left n d1 = Some k → unrenewed n d2 → left n (d1 ++ d2) = Some (k - pushes d2)%nat.
Proof.
  intros Hl. induction d2 as [|[op r] d2 IH] using rev_ind; [by rewrite app_nil_r, Nat.sub_0_r|].
  intros [Hun Hop]%Forall_app. apply Forall_cons in Hop as [Hop _]. cbn in Hop.
  rewrite app_assoc, left_snoc, IH, pushes_app by done. destruct op; cbn [count renews] in *; cbn.
  all: try (by rewrite Nat.add_0_r).
  - apply bool_decide_eq_false in Hop. rewrite decide_False by done. by rewrite Nat.add_0_r.
  - apply bool_decide_eq_false in Hop. rewrite decide_False by done. rewrite Nat.add_0_r.
    by destruct (k - pushes d2)%nat.
  - destruct (k - pushes d2)%nat eqn:Hk; f_equal; lia.
Qed.

Lemma left_bound n d k : left n d = Some k → (k ≤ N)%nat.
Proof.
  revert k. induction d as [|[op r] d IH] using rev_ind; intros k; [done|]. rewrite left_snoc.
  destruct op; cbn; try apply IH.
  - case_decide; [intros [= <-]; lia|apply IH].
  - destruct (left n d) as [[|k']|]; try apply IH. case_decide; [intros [= <-]; lia|apply IH].
  - destruct (left n d) as [[|k']|]; [apply IH| |apply IH]. intros [= <-]. specialize (IH _ eq_refl). lia.
Qed.

Lemma left_registered n c d r : number c = n → (OpRegister c, r) ∈ d → is_Some (left n d).
Proof.
  intros Hn. induction d as [|[op z] d IH] using rev_ind; [by intros ?%not_elem_of_nil|].
  rewrite left_snoc. intros [Hin|Hin]%elem_of_app.
  - specialize (IH Hin) as [k Hk]. rewrite Hk. destruct op, k; cbn; try case_decide; by eexists.
  - apply list_elem_of_singleton in Hin. injection Hin as <- <-. cbn. rewrite decide_True by done. by eexists.
Qed.

Lemma left_zero n d : (0 < N)%nat → left n d = Some 0%nat → ∃ j, (j < pushes d)%nat ∧ drops n j d.
Proof.
  intros HN. induction d as [|[op r] d IH] using rev_ind; [done|]. rewrite left_snoc. intros Hl.
  assert (Hgo : left n d = Some 0%nat → ∃ j, (j < pushes (d ++ [(op, r)]))%nat ∧ drops n j (d ++ [(op, r)])).
  { intros (j & ? & ?)%IH. exists j. rewrite pushes_app. split; [lia|by apply drops_app]. }
  destruct op; cbn in Hl; try by apply Hgo.
  - case_decide; [|by apply Hgo]. simplify_eq. lia.
  - destruct (left n d) as [[|k']|] eqn:Hn; try done; [by apply Hgo|]. case_decide; simplify_eq; lia.
  - destruct (left n d) as [[|k']|] eqn:Hn; try done; [by apply Hgo|]. simplify_eq.
    exists (pushes d). rewrite pushes_app. cbn. split; [lia|]. by exists d, r, [].
Qed.

Lemma drops_in_time n c d1 d2 r : (0 < N)%nat → number c = n →
  (OpRegister c, r) ∈ d1 → unrenewed n d2 → (N ≤ pushes d2)%nat →
  ∃ j, (j < pushes (d1 ++ d2))%nat ∧ drops n j (d1 ++ d2).
Proof.
  intros HN Hn Hin Hun Hp. destruct (left_registered n c d1 r Hn Hin) as [k Hk].
  pose proof (left_bound _ _ _ Hk). apply left_zero; [done|].
  rewrite (left_runs_out n d1 d2 k) by done. f_equal. lia.
Qed.
(** *** The wheel keeps the countdown *)

Lemma drops_before n j d : drops n j d → (j < pushes d)%nat.
Proof. intros (d1 & r & d2 & -> & <- & _). rewrite pushes_app. cbn. lia. Qed.

Lemma drops_snoc n j d op r : drops n j (d ++ [(op, r)]) →
  drops n j d ∨ op = OpPushBucket ∧ j = pushes d ∧ left n d = Some 1%nat.
Proof.
  intros (d1 & r' & d2 & Heq & Hj & Hl). destruct d2 as [|[o z] d2 _] using rev_ind.
  - apply app_inj_tail in Heq as [-> [= -> ->]]. by right.
  - left. rewrite app_comm_cons, app_assoc in Heq. apply app_inj_tail in Heq as [-> _].
    by exists d1, r', d2.
Qed.

Lemma drops_now n d r : left n d = Some 1%nat → drops n (pushes d) (d ++ [(OpPushBucket, r)]).
Proof. intros Hl. by exists d, r, []. Qed.

(** The entries of the wheel against the countdowns of the connections. *)
Record counted d (s : seen) (t : IdleWheel.Spec.t) : Prop := {
  f_related : IdleWheel.related N (world_ s) t;
  f_on : IdleWheel.Spec.on t = true ∧ IdleWheel.Spec.ticking t = TickWaiting;
  f_shed : length (shed s) = pushes d;
  f_entry n e : entry_ s !! n = Some e → (e < IdleWheel.Spec.next_id t)%nat ∧ n ∈ number <$> registers d;
  f_inj n m e : entry_ s !! n = Some e → entry_ s !! m = Some e → n = m;
  f_ttl e n k : IdleWheel.Spec.ttl t !! e = Some (n, k) → entry_ s !! n = Some e ∧ left n d = Some k ∧ (0 < k)%nat;
  f_left n k : left n d = Some (S k) → ∃ e, IdleWheel.Spec.ttl t !! e = Some (n, S k);
  f_none n : n ∉ number <$> registers d → left n d = None;
  f_alive n : is_Some (left n d) → n ∈ IdleWheel.Spec.alive t ∨ ∃ i, (i < pushes d)%nat ∧ n ∈ gone i;
  f_out j out n : shed s !! j = Some out →
    (n ∈ out → drops n j d) ∧ (drops n j d → n ∈ out ∨ ∃ i, (i ≤ j)%nat ∧ n ∈ gone i);
}.

(** The entries and connections that an event of the wheel leaves as they are. *)
Lemma out_before d s t op r j out n : counted d s t → shed s !! j = Some out →
  (n ∈ out → drops n j (d ++ [(op, r)])) ∧
  (drops n j (d ++ [(op, r)]) → n ∈ out ∨ ∃ i, (i ≤ j)%nat ∧ n ∈ gone i).
Proof.
  intros Hc Hj. destruct (f_out _ _ _ Hc j out n Hj) as [H1 H2]. split; [intros ?; by apply drops_app, H1|].
  intros [?|(_ & -> & _)]%drops_snoc; [by apply H2|]. apply lookup_lt_Some in Hj.
  rewrite (f_shed _ _ _ Hc) in Hj. lia.
Qed.

Lemma counted_idle d s t op r : counted d s t →
  match op with OpRegister _ | OpRefresh _ | OpPushBucket => False | _ => True end →
  counted (d ++ [(op, r)]) s t.
Proof.
  intros Hc Hop. pose proof Hc as [H1 H2 H3 H4 H5 H6 H7 H8 H9 _].
  assert (Hl : ∀ n, left n (d ++ [(op, r)]) = left n d) by (intros n; rewrite left_snoc; by destruct op).
  assert (Hr : registers (d ++ [(op, r)]) = registers d)
    by (rewrite registers_app; by destruct op; rewrite ?app_nil_r).
  assert (Hp : pushes (d ++ [(op, r)]) = pushes d) by (rewrite pushes_app; by destruct op; rewrite ?Nat.add_0_r).
  split; try done.
  - by rewrite Hp.
  - intros n e. rewrite Hr. apply H4.
  - intros e n k. rewrite Hl. apply H6.
  - intros n k. rewrite Hl. apply H7.
  - intros n. rewrite Hl, Hr. apply H8.
  - intros n. rewrite Hl, Hp. apply H9.
  - intros j out n. by eapply out_before.
Qed.

Lemma counted_register d s t c r : counted d s t → number c ∉ number <$> registers d → (0 < N)%nat →
  ∃ s' t', wheel_call (OpRegister c) s = Ok s' ∧ counted (d ++ [(OpRegister c, r)]) s' t'.
Proof.
  intros Hc Hnew HN. pose proof Hc as [H1 H2 H3 H4 H5 H6 H7 H8 H9 _].
  destruct (handle_related N (EvRegister (number c)) _ _ H1) as (w & Hh & Hrel). cbn [wheel_call].
  rewrite Hh, (rel_next _ _ _ H1). cbn [fst snd mbind res_bind]. eexists _, _. split; [done|].
  assert (Hl : ∀ n, left n (d ++ [(OpRegister c, r)]) = if decide (number c = n) then Some N else left n d)
    by (intros n; by rewrite left_snoc).
  assert (Hr : number <$> registers (d ++ [(OpRegister c, r)]) = (number <$> registers d) ++ [number c])
    by (by rewrite registers_app, fmap_app).
  assert (Hp : pushes (d ++ [(OpRegister c, r)]) = pushes d) by (rewrite pushes_app; cbn; lia).
  assert (Hfresh : IdleWheel.Spec.ttl t !! IdleWheel.Spec.next_id t = None).
  { apply eq_None_not_Some. intros [[n k] (He & _)%H6]. apply H4 in He as [? _]. lia. }
  split; cbn [world_ entry_ shed]; try done; try (by rewrite Hp); cbn [IdleWheel.Spec.handle fst snd IdleWheel.Spec.ttl IdleWheel.Spec.next_id IdleWheel.Spec.alive].
  - intros n e. rewrite Hr, elem_of_app. destruct (decide (n = number c)) as [->|Hne].
    + rewrite lookup_insert_eq. intros [= <-]. split; [lia|right; by left].
    + rewrite lookup_insert_ne by done. intros [? ?]%H4. split; [lia|by left].
  - intros n m e. destruct (decide (n = number c)) as [->|Hn], (decide (m = number c)) as [->|Hm]; try done;
      rewrite ?lookup_insert_eq, ?lookup_insert_ne by done.
    + intros [= <-] [? _]%H4. lia.
    + intros [? _]%H4 [= <-]. lia.
    + apply H5.
  - intros e n k. rewrite Hl. destruct (decide (e = IdleWheel.Spec.next_id t)) as [->|Hne].
    + rewrite lookup_insert_eq. intros [= <- <-]. by rewrite lookup_insert_eq, decide_True.
    + rewrite lookup_insert_ne by done. intros (He & ? & ?)%H6.
      assert (number c ≠ n) by (intros <-; by apply H4 in He as [_ ?]).
      by rewrite lookup_insert_ne, decide_False.
  - intros n k. rewrite Hl. case_decide as Hn.
    + intros [= ->]. exists (IdleWheel.Spec.next_id t). rewrite lookup_insert_eq. by subst n.
    + intros (e & He)%H7. exists e. rewrite lookup_insert_ne; [done|congruence].
  - intros n. rewrite Hr, Hl, not_elem_of_app. intros [? Hn%not_elem_of_cons].
    rewrite decide_False by naive_solver. by apply H8.
  - intros n. rewrite Hl, Hp. case_decide as Hn; [subst n; left; set_solver|].
    intros [?|?]%H9; [left; set_solver|by right].
  - intros j out n. by eapply out_before.
Qed.

Lemma counted_refresh d s t c r : counted d s t → (0 < N)%nat →
  ∃ s' t', wheel_call (OpRefresh c) s = Ok s' ∧ counted (d ++ [(OpRefresh c, r)]) s' t'.
Proof.
  intros Hc HN. pose proof Hc as [H1 H2 H3 H4 H5 H6 H7 H8 H9 _]. cbn [wheel_call].
  assert (Hl : ∀ n, left n (d ++ [(OpRefresh c, r)]) = count n (left n d) (OpRefresh c))
    by (intros n; by rewrite left_snoc).
  assert (Hr : registers (d ++ [(OpRefresh c, r)]) = registers d) by (rewrite registers_app; apply app_nil_r).
  assert (Hp : pushes (d ++ [(OpRefresh c, r)]) = pushes d) by (rewrite pushes_app; cbn; lia).
  assert (Hsome : ∀ n, is_Some (left n (d ++ [(OpRefresh c, r)])) → is_Some (left n d)).
  { intros n. rewrite Hl. cbn. destruct (left n d) as [[|]|]; [done..|by intros [? ?]]. }
  destruct (entry_ s !! number c) as [e|] eqn:He.
  - destruct (handle_related N (EvData e) _ _ H1) as (w & Hh & Hrel).
    rewrite Hh. cbn [fst snd mbind res_bind]. eexists _, _. split; [done|].
    split; cbn [world_ entry_ shed]; rewrite ?Hp, ?Hr; try done;
      cbn [IdleWheel.Spec.handle fst snd IdleWheel.Spec.ttl IdleWheel.Spec.next_id IdleWheel.Spec.alive].
    + intros e' n k. rewrite Hl. destruct (decide (e' = e)) as [->|Hne].
      * rewrite lookup_alter_eq. intros ([m k'] & Hm & [= -> ->])%fmap_Some.
        destruct (H6 _ _ _ Hm) as (Hm' & Hk & ?). rewrite (H5 _ _ _ Hm' He), He in *. cbn. rewrite Hk.
        destruct k'; [lia|]. by rewrite decide_True.
      * rewrite lookup_alter_ne by done. intros (Hn & Hk & ?)%H6. rewrite Hk. cbn.
        destruct k; [lia|]. rewrite decide_False by congruence. done.
    + intros n k. rewrite Hl. cbn. destruct (left n d) as [[|k']|] eqn:Hn; try done.
      destruct (H7 _ _ Hn) as (e' & He'). destruct (H6 _ _ _ He') as (Hn' & _). case_decide as Hcn.
      * intros [= ->]. subst n. assert (e' = e) as -> by congruence. exists e. by rewrite lookup_alter_eq, He'.
      * intros [= ->]. exists e'. rewrite lookup_alter_ne; [done|]. intros ->. apply Hcn. by eapply H5.
    + intros n Hn. rewrite Hl, H8 by done. done.
    + intros n Hn. apply H9. by apply Hsome.
    + intros j out n. by eapply out_before.
  - eexists _, _. split; [done|].
    assert (Hd : ∀ n, left n (d ++ [(OpRefresh c, r)]) = left n d).
    { intros n. rewrite Hl. cbn. destruct (left n d) as [[|k]|] eqn:Hn; try done. case_decide as Hcn; [|done].
      destruct (H7 _ _ Hn) as (e & (Hn' & _)%H6). congruence. }
    split; rewrite ?Hp, ?Hr; try done.
    + intros e n k. rewrite Hd. apply H6.
    + intros n k. rewrite Hd. apply H7.
    + intros n. rewrite Hd. apply H8.
    + intros n. rewrite Hd. apply H9.
    + intros j out n. by eapply out_before.
Qed.

(** Connections that are destroyed leave the entries alone. *)
Lemma closed_spec cs t : ∃ al, (IdleWheel.Spec.run N (EvClosed <$> cs) t).2 =
    IdleWheel.Spec.mk (IdleWheel.Spec.ttl t) (IdleWheel.Spec.next_id t) al (IdleWheel.Spec.on t) (IdleWheel.Spec.ticking t) ∧
  ∀ n, n ∈ al ↔ n ∈ IdleWheel.Spec.alive t ∧ n ∉ cs.
Proof.
  revert t. induction cs as [|c cs IH]; intros t; cbn.
  - exists (IdleWheel.Spec.alive t). split; [by destruct t|]. intros n. split; [|by intros []]. split; [done|apply not_elem_of_nil].
  - destruct (IH (IdleWheel.Spec.mk (IdleWheel.Spec.ttl t) (IdleWheel.Spec.next_id t) (IdleWheel.Spec.alive t ∖ {[c]}) (IdleWheel.Spec.on t) (IdleWheel.Spec.ticking t)))
      as (al & Heq & Hal). destruct (IdleWheel.Spec.run N _ _). cbn in *. exists al. split; [done|].
    intros n. rewrite Hal, not_elem_of_cons. set_solver.
Qed.

Lemma counted_push d s t r : counted d s t →
  ∃ s' t', wheel_call OpPushBucket s = Ok s' ∧ counted (d ++ [(OpPushBucket, r)]) s' t'.
Proof.
  intros Hc. pose proof Hc as [H1 [H2 H2'] H3 H4 H5 H6 H7 H8 H9 _]. cbn [wheel_call].
  destruct (run_related N (EvClosed <$> gone (length (shed s))) _ _ H1) as (w & Hrun & Hrel).
  destruct (closed_spec (gone (length (shed s))) t) as (al & Heq & Hal). rewrite Heq, H2, H2' in Hrel.
  destruct (handle_related N EvTick _ _ Hrel) as (w' & Hh & Hrel').
  cbn [IdleWheel.Spec.handle IdleWheel.Spec.on IdleWheel.Spec.ticking] in Hh, Hrel'. cbn [fst snd] in Hh, Hrel'.
  assert (∃ t1, t1 = IdleWheel.Spec.mk (IdleWheel.Spec.ttl t) (IdleWheel.Spec.next_id t) al true TickWaiting)
    as [t1 Ht]; [by eexists|]. rewrite <-Ht in Hh, Hrel'.
  assert (Ht1 : IdleWheel.Spec.ttl t1 = IdleWheel.Spec.ttl t) by (by rewrite Ht).
  assert (Hn1 : IdleWheel.Spec.next_id t1 = IdleWheel.Spec.next_id t) by (by rewrite Ht).
  assert (Ha1 : IdleWheel.Spec.alive t1 = al) by (by rewrite Ht). clear Ht.
  assert (Hl : ∀ n, left n (d ++ [(OpPushBucket, r)]) = match left n d with Some (S k) => Some k | l => l end).
  { intros n. rewrite left_snoc. by destruct (left n d) as [[|]|]. }
  assert (Hr : registers (d ++ [(OpPushBucket, r)]) = registers d) by (rewrite registers_app; apply app_nil_r).
  assert (Hp : pushes (d ++ [(OpPushBucket, r)]) = S (pushes d)) by (rewrite pushes_app; cbn; lia).
  assert (Hexp : ∀ n, n ∈ IdleWheel.Spec.expired t1 ↔ left n d = Some 1%nat).
  { intros n. rewrite elem_of_expired. setoid_rewrite Ht1. split; [by intros (e & (_ & ? & _)%H6)|by intros ?%H7]. }
  rewrite Hrun. cbn [mbind res_bind]. rewrite Hh. cbn [mbind res_bind]. eexists _, _. split; [done|].
  split; [exact Hrel'|..]; cbn [world_ entry_ shed IdleWheel.Spec.on IdleWheel.Spec.ticking IdleWheel.Spec.next_id
    IdleWheel.Spec.ttl IdleWheel.Spec.alive]; rewrite ?Hp, ?Hr, ?Hn1, ?Ha1; try done.
  - rewrite length_app. cbn. lia.
  - intros e n k. rewrite countdown_lookup, Ht1.
    destruct (IdleWheel.Spec.ttl t !! e) as [[m k']|] eqn:He; [|done]. destruct (H6 _ _ _ He) as (? & Hk & ?).
    case_decide; [done|]. intros [= <- <-]. rewrite Hl, Hk. destruct k'; [lia|]. split_and!; [done..|cbn; lia].
  - intros n k. rewrite Hl. destruct (left n d) as [[|k']|] eqn:Hn; try done. intros [= ->].
    destruct (H7 _ _ Hn) as (e & He). exists e. by rewrite countdown_lookup, Ht1, He.
  - intros n Hn. by rewrite Hl, H8.
  - intros n Hn. assert (Hs : is_Some (left n d)).
    { rewrite Hl in Hn. destruct (left n d) as [[|]|]; by try destruct Hn. }
    destruct (H9 n Hs) as [Ha|(i & ? & ?)]; [|right; exists i; split; [lia|done]].
    destruct (decide (n ∈ gone (length (shed s)))) as [Hg|Hg]; [right|left; by apply Hal].
    exists (length (shed s)). split; [lia|done].
  - intros j out n [Hj|[Hge [Hz <-]%list_lookup_singleton_Some]]%lookup_app_Some; [by eapply out_before|].
    assert (j = pushes d) as -> by lia. split.
    + intros [Hn _]%elem_of_intersection. apply Hexp in Hn. by apply drops_now.
    + intros [Hd|(_ & _ & Hn)]%drops_snoc; [by apply drops_before in Hd; lia|].
      destruct (H9 n) as [Ha|(i & ? & ?)]; [by rewrite Hn|..|right; exists i; split; [lia|done]].
      destruct (decide (n ∈ gone (length (shed s)))) as [Hg|Hg].
      * right. exists (length (shed s)). split; [lia|done].
      * left. apply elem_of_intersection. split; [by apply Hexp|by apply Hal].
Qed.
(** Any calls, as long as no connection is registered twice. *)
Lemma wheel_counted seconds d : seconds ≤ max_size → N = ticks seconds → NoDup (number <$> registers d) →
  ∃ s t, replay seconds d = Ok s ∧ counted d s t.
Proof.
  intros Hmax HN. destruct (boot_related seconds Hmax) as (w & Hboot & Hrel). rewrite <-HN in Hrel.
  pose proof (rel_pos _ _ _ Hrel) as Hpos. unfold replay. rewrite Hboot. cbn [mbind res_bind].
  induction d as [|[op r] d IH] using rev_ind; intros Hnd.
  - eexists _, _. split; [done|]. split; [exact Hrel|..]; try done; cbn.
    by intros n [? ?].
  - rewrite registers_app, fmap_app in Hnd. apply NoDup_app in Hnd as (Hnd & Hdis & _).
    destruct (IH Hnd) as (s & t & Hs & Hc). rewrite wheel_calls_snoc, Hs. cbn [mbind res_bind].
    destruct op; try (by exists s, t; split; [done|apply counted_idle]).
    + apply counted_register with (t := t); [done| |done]. intros Hin. eapply Hdis; [done|by left].
    + by apply counted_refresh with (t := t).
    + by apply counted_push with (t := t).
Qed.
End replay.
