(* ===== verification/Eviction.v ===== *)
(** * Eviction: the idle wheel and the coroutines of the echo server

    [Handlers.v] takes the entries that die at a tick as given; here they are those of
    the wheel: what the wheel drops when it is called as in [WheelCalls.v] is what
    [tick_coro] finds dead.  A connection that is silent for the idle timeout is shut down
    by a coroutine of its worker, and nothing else that is still in use is.

    What a strand owes to the wheel is kept in an invariant beside the books of
    [Handlers.v]. *)
From S2P Require Import Interfaces CircularBuffer IdleWheel.
From S2P Require Import Scheduler Completion Coroutines Prelude Task Strands BufferPool Buffer Tcp Handlers WheelCalls.

Section strands.
Context (wheel : bool) (slots : nat → option (list byte)) (incoming : nat → list byte).
Context (running ticking : nat → bool) (expired : nat → list connection).
Hypothesis slots_small : ∀ n slot, slots n = Some slot → zlen slot < u32_mod.
Abbreviation next := (Handlers.next wheel slots incoming running ticking expired).
Abbreviation strand := (Strands.strand (L:=local) (V:=value) (X:=fault) (Op:=operation)).
Abbreviation classified := (Handlers.classified incoming).
Implicit Types (d : list (operation * Z)) (x : strand) (c : connection).

(** ** What the strands owe to the wheel *)

(** The entry of [c] has died. *)
Definition due c d : Prop := ∃ j, (j < pushes d)%nat ∧ c ∈ expired j.
(** The handler of [c] is done with it: the stream has ended, or a [send_fixed] has
    failed.  A handler without a slot ignores what [send] returns. *)
Definition gives_up c (o : operation * Z) : Prop :=
  match o with
  | (OpRecv _ c' _ _, r) => c' = c ∧ r ≤ 0
  | (OpSend true c' _, r) => c' = c ∧ r < 0
  | _ => False
  end.
Definition lost c d : Prop := Exists (gives_up c) d.
Lemma due_app c d d' : due c d → due c (d ++ d').
Proof. intros (j & ? & ?). exists j. rewrite pushes_app. split; [lia|done]. Qed.
Lemma lost_app c d d' : lost c d → lost c (d ++ d').
Proof. intros He. apply Exists_app. by left. Qed.

(** [tick_coro] runs or waits. *)
Definition ticker x : bool :=
  match x with
  | Active (Tick _ | Ticked _ | Evict _ _) _ | Waiting OpTimeout _ _ => true
  | _ => false
  end.
Definition tickers (xs : list strand) : nat := length (omap (λ x, if ticker x then Some tt else None) xs).

(** Why a strand is where it is. *)
Definition explained d x : Prop :=
  match x with
  | Active (Tick j | Ticked j) _ => j = pushes d
  | Waiting OpTimeout k _ => k 0 = Ticked (pushes d)
  | Active (Evict j cs) _ => S j = pushes d ∧ ∀ c, c ∈ cs → c ∈ expired j
  | Active (CloseIdle c) _ => due c d
  | Active (Finish c) _ => lost c d
  | Active (Shutdown c) _ | Waiting (OpShutdown c) _ _ => due c d ∨ lost c d
  | Active (RecvDone c _ _ r | RecvFixedDone c _ _ r) _ => r ≤ 0 → lost c d
  | Active (Return v) (k :: _) => ∀ c, k (inl v) = Finish c → lost c d
  | _ => True
  end.

Lemma explained_app d d' x : ticker x = false ∨ pushes d' = 0%nat → explained d x → explained (d ++ d') x.
Proof.
  intros Ht. assert (Hp : ticker x = true → pushes (d ++ d') = pushes d).
  { intros Hx. destruct Ht as [|Hd]; [congruence|]. rewrite pushes_app, Hd. lia. }
  intros Hx. destruct x as [l st|op k st]; [destruct l|destruct op]; cbn in *; rewrite ?Hp by done;
    try exact Hx; try (by apply due_app); try (by apply lost_app);
    try (intros ?; by apply lost_app, Hx).
  all: try (destruct Hx; [left; by apply due_app|right; by apply lost_app]).
  destruct st as [|k st]; [done|]. intros c Hk. by apply lost_app, Hx.
Qed.

Lemma recv_lost fixed c pos len r d : r ≤ 0 → lost c (d ++ [(OpRecv fixed c pos len, r)]).
Proof. intros Hr. apply Exists_app. right. by left. Qed.
Lemma send_lost c data r d : r < 0 → lost c (d ++ [(OpSend true c data, r)]).
Proof. intros Hr. apply Exists_app. right. by left. Qed.

(** The continuations of the program. *)
Inductive continues (c : connection) : (value + fault → local) → Prop :=
  | CoRecv pos : continues c (after_recv c pos)
  | CoRecvFixed pos : continues c (after_recv_fixed c pos)
  | CoSend pos b : continues c (after_send c pos b)
  | CoSendFixed pos slot : continues c (after_send_fixed c pos slot)
  | CoShutdown : continues c after_shutdown.

Lemma continues_finish c k v c' : continues c k → k v = Finish c' → c' = c.
Proof.
  intros Hk. destruct Hk, v as [[| | |]|]; cbn; try done; case_match; congruence.
Qed.

Lemma explained_resumes d c k v : continues c k →
  (∀ n b, v = inl (VRecv n b) → n ≤ 0 → lost c d) →
  (∀ n slot, v = inl (VView n slot) → n ≤ 0 → lost c d) →
  (∀ n, v = inl (VSize n) → n < 0 → lost c d) →
  explained d (Active (k v) []).
Proof.
  intros Hk H1 H2 H3. destruct Hk, v as [[| | |]|]; cbn; try done;
    match goal with |- context [if ?b then _ else _] => destruct b eqn:? end; cbn; try done.
  - eapply H1; [done|lia].
  - eapply H2; [done|lia].
  - eapply H3; [done|lia].
Qed.

Lemma explained_return d c k v : continues c k → explained d (Active (Return v) [k]) →
  explained d (Active (k (inl v)) []).
Proof.
  intros Hk Hx. cbn in Hx.
  assert (Hl : k (inl v) = Finish c → lost c d) by apply Hx. clear Hx.
  destruct Hk, v; cbn in *; try done;
    match goal with |- context [if ?b then _ else _] => destruct b end; cbn; auto.
Qed.

Lemma classified_stack l st cl : classified (Active l st) cl → st = [] ∨ ∃ c k, st = [k] ∧ continues c k.
Proof.
  intros Hx. inversion Hx as [k y built Hy|y Hy|c y ph Hy|c y ph Hy|c y ph Hy]; subst; inversion Hy; subst;
    try (by left); right; try match goal with H : sender _ _ _ _ |- _ => destruct H end;
    by do 2 eexists; (split; [done|constructor]).
  Unshelve. all: exact (mkConnection 0 0).
Qed.

(** One step of a strand. *)
Ltac body H :=
  cbv beta iota zeta delta [Handlers.next goes_on accept_turn accept_done tick_turn tick_done evict close recv_turn
    fixed_turn handler send_back send_back_fixed recv_start recv_done recv_fixed_start recv_fixed_done send_turn
    shutdown] in H.
Ltac branches H :=
  unfold within, received in H;
  repeat match type of H with context [match ?x with _ => _ end] =>
    lazymatch x with context [match _ with _ => _ end] => fail | _ => destruct x eqn:? end
  end; try done.
Ltac explain := repeat (apply Forall_cons; split); try apply Forall_nil; try done.

Lemma received_explained d c r v k new d' :
  continues c k → goes_on (received wheel c r v) [k] = Some (new, d') →
  (∀ d2, explained (d ++ d2) (Active (Return v) [k])) →
  Forall (explained (d ++ d')) new.
Proof.
  unfold received. intros Hk Hst Hx. destruct (touch wheel r); injection Hst as <- <-; explain.
  eapply explained_return; [done|apply Hx].
Qed.

Lemma within_explained {A} d (m : res A) f c k new d' :
  continues c k → goes_on (within m f) [k] = Some (new, d') →
  (∀ a, m = Ok a → goes_on (f a) [k] = Some (new, d') → Forall (explained (d ++ d')) new) →
  Forall (explained (d ++ d')) new.
Proof.
  intros Hk Hst Hok. destruct m as [a| | |]; [by apply (Hok a)|..]; cbn in Hst; injection Hst as <- <-;
    explain; by eapply explained_resumes.
Qed.

Ltac goes Hst :=
  lazymatch type of Hst with
  | strand_step _ (Waiting _ _ _) _ _ => apply step_waiting in Hst as (? & -> & ->); cbv beta
  | _ => apply step_active in Hst; body Hst; try (injection Hst as <- <-; explain)
  end; rewrite ?app_nil_r.

(** A reception that comes back to the handler. *)
Lemma recv_explained c pos b r new d d' :
  goes_on (recv_done wheel incoming c pos b r) [after_recv c pos] = Some (new, d') → (r ≤ 0 → lost c d) →
  Forall (explained (d ++ d')) new.
Proof.
  intros Hst Hr. eapply within_explained; [constructor|exact Hst|]. intros b' _ Hgo.
  eapply received_explained; [constructor|exact Hgo|]. intros d2 c' Hc'. apply lost_app.
  pose proof (continues_finish _ _ _ _ (CoRecv c pos) Hc') as ->. apply Hr.
  cbn in Hc'. destruct (Z.leb_spec r 0); [done|congruence].
Qed.
Lemma recv_fixed_explained c pos slot r new d d' :
  goes_on (recv_fixed_done wheel incoming c pos slot r) [after_recv_fixed c pos] = Some (new, d') →
  (r ≤ 0 → lost c d) → Forall (explained (d ++ d')) new.
Proof.
  intros Hst Hr. eapply within_explained; [constructor|exact Hst|]. intros b' _ Hgo.
  eapply received_explained; [constructor|exact Hgo|]. intros d2 c' Hc'. apply lost_app.
  pose proof (continues_finish _ _ _ _ (CoRecvFixed c pos) Hc') as ->. apply Hr.
  cbn in Hc'. destruct (Z.leb_spec r 0); [done|congruence].
Qed.

Lemma explained_accept k x built new d d' :
  accept_strand k x built → strand_step next x new d' → explained d x → Forall (explained (d ++ d')) new.
Proof.
  intros Hx Hst _. destruct Hx; goes Hst.
  - destruct (running k); injection Hst as <- <-; explain.
  - explain.
  - destruct (fd <? 0); [by injection Hst as <- <-|]. destruct wheel; injection Hst as <- <-; explain.
Qed.

Lemma explained_free x new d d' :
  free_strand x → strand_step next x new d' → explained d x → Forall (explained (d ++ d')) new.
Proof.
  intros Hy Hst Hx. destruct Hy; goes Hst; cbn in Hx.
  - destruct (ticking _); injection Hst as <- <-; explain. cbn. rewrite app_nil_r. by f_equal.
  - explain. cbn. rewrite pushes_app. cbn. rewrite Nat.add_0_r. congruence.
  - destruct (ticking _); injection Hst as <- <-; explain. cbn. split; [|done]. rewrite pushes_app. cbn. lia.
  - destruct Hx as [Hj Hcs]. destruct cs as [|c cs].
    + destruct (ticking _); injection Hst as <- <-; explain. cbn. rewrite app_nil_r. by f_equal.
    + injection Hst as <- <-. rewrite app_nil_r. explain; cbn.
      * exists j. split; [lia|]. apply Hcs. by left.
      * split; [done|]. intros c' ?. apply Hcs. by right.
  - by left.
  - by right.
  - destruct (socket c <? 0); injection Hst as <- <-; rewrite app_nil_r; explain.
  - explain.
  - by apply (recv_explained c pos b r).
  - by apply (explained_return d c (after_recv c pos) (VRecv r b)); [constructor|].
  - by apply (recv_fixed_explained c pos slot r).
  - by apply (explained_return d c (after_recv_fixed c pos) (VView r slot)); [constructor|].
  - by apply (explained_return d c (after_send_fixed c pos slot) (VSize n)); [constructor|].
Qed.

Lemma explained_buffer c x ph new d d' :
  buffer_strand incoming c x ph → strand_step next x new d' → explained d x → Forall (explained (d ++ d')) new.
Proof.
  intros Hy Hst Hx. destruct Hy; goes Hst.
  - destruct (slots (number c)); [injection Hst as <- <-; explain|].
    destruct (new_Buffer kInitialSize); try done. injection Hst as <- <-. explain.
  - eapply within_explained; [constructor|exact Hst|]. intros b' _ [= <- <-]. explain.
  - explain. cbn. intros Hr. by apply recv_lost.
  - by apply (recv_explained c pos b r).
  - by apply (explained_return d c (after_recv c pos) (VRecv r b)); [constructor|].
  - destruct (retrieveAllAsString b) as [[s b']| | |]; try done. injection Hst as <- <-. explain.
Qed.

Lemma explained_slot c x ph new d d' :
  slot_strand incoming c x ph → strand_step next x new d' → explained d x → Forall (explained (d ++ d')) new.
Proof.
  intros Hy Hst Hx. destruct Hy; goes Hst.
  - explain. cbn. intros Hr. by apply recv_lost.
  - by apply (recv_fixed_explained c pos slot r).
  - by apply (explained_return d c (after_recv_fixed c pos) (VView r slot)); [constructor|].
Qed.

Lemma sender_continues fixed c pos st : sender fixed c pos st →
  ∃ k, st = [k] ∧ continues c k ∧ ∀ v c', k (inl v) = Finish c' → fixed = true.
Proof. intros []; eexists; (split; [done|]); (split; [constructor|]); done. Qed.

Lemma explained_send c x ph new d d' :
  send_strand c x ph → strand_step next x new d' → explained d x → Forall (explained (d ++ d')) new.
Proof.
  intros Hy Hst Hx. destruct Hy as [? ? ? ? ? ? Hs|? ? ? ? ? total Hs|? ? ? ? Hs]; goes Hst;
    apply sender_continues in Hs as (k & -> & Hk & Hfx).
  - destruct (_ =? 0); injection Hst as <- <-; explain.
    eapply explained_resumes; [exact Hk|done|done|]. intros n [= <-]. lia.
  - unfold after_op. destruct (Z.ltb_spec x 0); [|destruct (x =? 0)]; explain; intros c' Hc'.
    + rewrite (Hfx _ _ Hc'). pose proof (continues_finish _ _ _ _ Hk Hc') as ->. by apply send_lost.
    + exfalso. destruct Hk; cbn in Hc'; try done. destruct (Z.ltb_spec total 0); [lia|done].
  - injection Hst as <- <-. rewrite app_nil_r. explain. by eapply explained_return.
Qed.

Lemma explained_step x cl new d d' :
  classified x cl → strand_step next x new d' → explained d x → Forall (explained (d ++ d')) new.
Proof.
  intros Hcl. destruct Hcl as [k y built Hy|y Hy|c y ph Hy|c y ph Hy|c y ph Hy].
  - by apply (explained_accept k y built).
  - by apply explained_free.
  - by apply (explained_buffer c y ph).
  - by apply (explained_slot c y ph).
  - by apply (explained_send c y ph).
Qed.

(** What the bodies call outside the coroutines. *)
Lemma calls_out l op l' : next l = CallOut op l' →
  match op with
  | OpConstruct c => 0 ≤ socket c
  | OpPushBucket => ∃ j, l = Ticked j ∧ l' = Evict j (expired j)
  | OpRegister _ | OpRefresh _ => True
  | _ => False
  end.
Proof.
  destruct l; intros Hn; body Hn; branches Hn; injection Hn as <- <-; try done.
  1, 2: cbn; lia.
  by eexists.
Qed.

Lemma waits_for op k st cl : classified (Waiting op k st) cl →
  match op with OpConstruct _ | OpRegister _ | OpRefresh _ | OpPushBucket => False | _ => True end.
Proof.
  intros Hx. inversion Hx as [n y built Hy|y Hy|c y ph Hy|c y ph Hy|c y ph Hy]; subst; by inversion Hy.
Qed.

(** What a step does to the world. *)
Lemma step_effects x cl new d' : classified x cl → strand_step next x new d' →
  match d' with
  | [] => True
  | [(OpPushBucket, _)] => ∃ j st, x = Active (Ticked j) st ∧ new = [Active (Evict j (expired j)) st]
  | [(OpShutdown c, _)] => ∃ k st, x = Waiting (OpShutdown c) k st
  | [(OpConstruct c, _)] => 0 ≤ socket c
  | [_] => True
  | _ => False
  end.
Proof.
  intros Hcl Hst. inversion Hst; subst; try done.
  - match goal with H : next _ = CallOut _ _ |- _ => apply calls_out in H end.
    destruct op; try done. match goal with H : ∃ _, _ |- _ => destruct H as (j & -> & ->) end. by do 2 eexists.
  - apply waits_for in Hcl. destruct op; try done. by do 2 eexists.
Qed.

Lemma tickers_cons x xs : tickers (x :: xs) = (tickers [x] + tickers xs)%nat.
Proof. unfold tickers. cbn. by destruct (ticker x). Qed.
Lemma tickers_app xs ys : tickers (xs ++ ys) = (tickers xs + tickers ys)%nat.
Proof. unfold tickers. by rewrite omap_app, length_app. Qed.
Lemma tickers_perm xs ys : xs ≡ₚ ys → tickers xs = tickers ys.
Proof. intros Hp. unfold tickers. by rewrite Hp. Qed.
Lemma tickers_none xs x : tickers xs = 0%nat → x ∈ xs → ticker x = false.
Proof.
  intros Ht Hx. apply elem_of_Permutation in Hx as (ys & Hp). rewrite (tickers_perm _ _ Hp) in Ht.
  rewrite tickers_cons in Ht. unfold tickers in Ht. cbn in Ht. by destruct (ticker x).
Qed.

(** All the steps of all the strands. *)
Ltac all_steps Hcl Hst :=
  destruct Hcl as [? ? ? Hy|? Hy|? ? ? Hy|? ? ? Hy|? ? ? Hy]; destruct Hy;
  lazymatch type of Hst with
  | strand_step _ (Waiting _ _ _) _ _ => apply step_waiting in Hst as (? & -> & ->); cbv beta
  | _ => apply step_active in Hst; body Hst; branches Hst; try (injection Hst as <- <-)
  end;
  try match goal with H : sender _ _ _ _ |- _ => inversion H; subst end;
  unfold after_op; cbn [after_send after_send_fixed];
  repeat match goal with |- context [if ?b then _ else _] => destruct b end.

(** The strand of a body is a ticker by the body; [tick_coro] does not call. *)
Lemma ticker_step x cl new d' : classified x cl → strand_step next x new d' → (tickers new ≤ tickers [x])%nat.
Proof.
  intros Hcl Hst. all_steps Hcl Hst; try (cbn; lia); done.
Qed.

(** The timeouts that have fired; [tick_coro] is between one of them and its push. *)
Definition timeouts d : nat := length (omap (λ o, match o.1 with OpTimeout => Some tt | _ => None end) d).
Definition fired (xs : list strand) : nat :=
  length (omap (λ x, match x with Active (Ticked _) _ => Some tt | _ => None end) xs).

Lemma timeouts_app d d' : timeouts (d ++ d') = (timeouts d + timeouts d')%nat.
Proof. unfold timeouts. by rewrite omap_app, length_app. Qed.
Lemma fired_count_app xs ys : fired (xs ++ ys) = (fired xs + fired ys)%nat.
Proof. unfold fired. by rewrite omap_app, length_app. Qed.

(** While the wheel is not stopped, [tick_coro] goes on: each timeout leads to a push and
    to the next timeout. *)
Lemma turning_step x cl new d' : (∀ j, ticking j = true) → classified x cl → strand_step next x new d' →
  tickers new = tickers [x] ∧ (timeouts d' + fired [x])%nat = (pushes d' + fired new)%nat.
Proof.
  intros Hon Hcl Hst. all_steps Hcl Hst; try done;
    match goal with Hb : ticking _ = false |- _ => by rewrite Hon in Hb end.
Qed.

(** [c] is about to be shut down, by [tick_coro] or by its handler. *)
Definition closing c x : Prop :=
  match x with
  | Active (CloseIdle c' | Finish c' | Shutdown c') _ | Waiting (OpShutdown c') _ _ => c' = c
  | Active (Evict _ cs) _ => c ∈ cs
  | Active (RecvDone c' _ _ r | RecvFixedDone c' _ _ r) _ => c' = c ∧ r ≤ 0
  | Active (Return v) (k :: _) => k (inl v) = Finish c
  | _ => False
  end.

(** The last reception is over. *)
Lemma recv_ends c pos b r new d' : inv b → r ≤ 0 →
  goes_on (recv_done wheel incoming c pos b r) [after_recv c pos] = Some (new, d') →
  new = [Active (Finish c) []].
Proof.
  intros Hb Hr. unfold recv_done. rewrite slice_nil by done.
  destruct (recv_complete_end b r Hb Hr) as (b' & ->). cbn [within]. unfold received, touch.
  rewrite (proj2 (Z.ltb_ge 0 r)) by done. intros [= <- <-]. cbn. by rewrite (proj2 (Z.leb_le r 0)).
Qed.
Lemma recv_fixed_ends c pos slot r new d' : r ≤ 0 →
  goes_on (recv_fixed_done wheel incoming c pos slot r) [after_recv_fixed c pos] = Some (new, d') →
  new = [Active (Finish c) []].
Proof.
  intros Hr. unfold recv_fixed_done. rewrite slice_nil by done. pose proof (zlen_nonneg slot).
  destruct (write_at_ok slot 0 []) as (slot' & -> & _); [done|by rewrite (zlen_nil (A:=byte))|].
  cbn [within]. unfold received, touch.
  rewrite (proj2 (Z.ltb_ge 0 r)) by done. intros [= <- <-]. cbn. by rewrite (proj2 (Z.leb_le r 0)).
Qed.

Lemma ends_buffer c pos b r st cl : classified (Active (RecvDone c pos b r) st) cl → r ≤ 0 →
  inv b ∧ st = [after_recv c pos].
Proof.
  intros Hx Hr. inversion Hx as [k y built Hy|y Hy|c' y ph Hy|c' y ph Hy|c' y ph Hy]; subst; inversion Hy; subst; try done.
  all: match goal with H : chunk _ _ _ _ |- _ => destruct H; lia end.
Qed.
Lemma ends_slot c pos slot r st cl : classified (Active (RecvFixedDone c pos slot r) st) cl → r ≤ 0 →
  st = [after_recv_fixed c pos].
Proof.
  intros Hx Hr. inversion Hx as [k y built Hy|y Hy|c' y ph Hy|c' y ph Hy|c' y ph Hy]; subst; inversion Hy; subst; try done.
  all: match goal with H : chunk _ _ _ _ |- _ => destruct H; lia end.
Qed.

Lemma closing_step x cl new d' c : classified x cl → strand_step next x new d' → closing c x → 0 ≤ socket c →
  (∃ r, (OpShutdown c, r) ∈ d') ∨ ∃ y, y ∈ new ∧ closing c y.
Proof.
  intros Hcl Hst Hx Hc. destruct x as [l st|op k st].
  - apply step_active in Hst. right. destruct l; try done; cbn in Hx.
    + body Hst. destruct cs as [|c' cs]; [by apply not_elem_of_nil in Hx|]. injection Hst as <- <-.
      apply elem_of_cons in Hx as [->|Hx]; eexists; [split; [by left|done]|].
      split; [by right; left|done].
    + body Hst. subst c0. injection Hst as <- <-. eexists. split; [by left|done].
    + body Hst. subst c0. injection Hst as <- <-. eexists. split; [by left|done].
    + destruct Hx as [-> Hr]. destruct (ends_buffer _ _ _ _ _ _ Hcl Hr) as [Hb ->].
      apply recv_ends in Hst as ->; [|done..]. eexists. split; [by left|done].
    + destruct Hx as [-> Hr]. rewrite (ends_slot _ _ _ _ _ _ Hcl Hr) in Hst.
      apply recv_fixed_ends in Hst as ->; [|done]. eexists. split; [by left|done].
    + body Hst. subst c0. rewrite (proj2 (Z.ltb_ge _ _) Hc) in Hst. injection Hst as <- <-.
      eexists. split; [by left|done].
    + destruct st as [|k st]; [done|]. injection Hst as <- <-. rewrite Hx.
      eexists. split; [by left|done].
  - apply step_waiting in Hst as (r & -> & ->). destruct op; try done. cbn in Hx. subst c0.
    left. exists r. by left.
Qed.

(** ** Registration *)

(** The connections about to be registered. *)
Definition installing (xs : list strand) : list connection :=
  omap (λ x, match x with Active (InstallIdle c) _ => Some c | _ => None end) xs.

Lemma installing_app xs ys : installing (xs ++ ys) = installing xs ++ installing ys.
Proof. apply omap_app. Qed.

(** A connection is registered once, after its construction. *)
Lemma install_step x cl new d' : classified x cl → strand_step next x new d' →
  registers d' ++ installing new ⊆+ installing [x] ++ constructs d'.
Proof.
  intros Hcl Hst. all_steps Hcl Hst; cbn; done || by apply submseteq_nil_l.
Qed.

(** ** The invariant *)

Definition tick_of (l : local) : option nat := match l with Tick j => Some j | _ => None end.
(** [tick_coro] is spawned at most once, and from its beginning. *)
Definition one_tick (sp : list local) : Prop :=
  (length (omap tick_of sp) ≤ 1)%nat ∧ Forall (λ j, j = 0%nat) (omap tick_of sp).

Record watched sp (xs : list strand) d : Prop := {
  t_none : omap tick_of sp = [] → tickers xs = 0%nat ∧ pushes d = 0%nat;
  t_one : (tickers xs ≤ 1)%nat;
  t_explained : Forall (explained d) xs;
  t_shut c r : (OpShutdown c, r) ∈ d → due c d ∨ lost c d;
  t_due c : due c d ∨ lost c d → 0 ≤ socket c → (∃ r, (OpShutdown c, r) ∈ d) ∨ ∃ x, x ∈ xs ∧ closing c x;
  t_socket c r : (OpConstruct c, r) ∈ d → 0 ≤ socket c;
  t_install : registers d ++ installing xs ⊆+ constructs d;
}.

Lemma watched_perm sp xs xs' d : xs ≡ₚ xs' → watched sp xs d → watched sp xs' d.
Proof.
  intros Hp [H1 H2 H3 H4 H5 H6 H7]. split; rewrite <-?(tickers_perm _ _ Hp), <-?Hp; try done.
  2: { by unfold installing in *; rewrite <-Hp. }
  intros c Hd Hc. destruct (H5 c Hd Hc) as [?|(x & Hx & ?)]; [by left|right]. exists x. by rewrite <-Hp.
Qed.

Lemma one_tick_prefix sp sp' : one_tick (sp ++ sp') → one_tick sp.
Proof.
  intros [H1 H2]. unfold one_tick. rewrite omap_app in *. rewrite length_app in H1.
  apply Forall_app in H2 as [H2 _]. split; [lia|done].
Qed.

Lemma watched_spawn sp l xs d : boot (sp ++ [l]) → one_tick (sp ++ [l]) → watched sp xs d →
  watched (sp ++ [l]) (Active l [] :: xs) d.
Proof.
  intros [Hb _] [Hone Hz] [H1 H2 H3 H4 H5 H6 H7]. rewrite omap_app in *. rewrite length_app in Hone.
  apply Forall_app in Hb as [_ Hl]. apply Forall_cons in Hl as [Hl _].
  assert (Hdue : ∀ c, due c d ∨ lost c d → 0 ≤ socket c →
    (∃ r, (OpShutdown c, r) ∈ d) ∨ ∃ x, x ∈ Active l [] :: xs ∧ closing c x).
  { intros c Hd Hc. destruct (H5 c Hd Hc) as [?|(x & ? & ?)]; [by left|right]. exists x. by split; [right|]. }
  destruct l as [[|k]| | | |j| | | | | | | | | | | | | | | | |]; try done.
  - cbn in *. split; try done; [by rewrite omap_app, app_nil_r|by apply Forall_cons].
  - cbn in Hone, Hz. apply Forall_app in Hz as [_ Hz]. apply Forall_cons in Hz as [-> _].
    assert (Hn : omap tick_of sp = []) by (destruct (omap tick_of sp); [done|cbn in Hone; lia]).
    destruct (H1 Hn) as [Ht Hp]. split; try done.
    + rewrite omap_app, Hn. done.
    + rewrite tickers_cons, Ht. done.
    + apply Forall_cons. split; [|done]. cbn. congruence.
Qed.

(** Only [tick_coro] pushes. *)
Lemma push_ticks x cl new d' : classified x cl → strand_step next x new d' → ticker x = false → pushes d' = 0%nat.
Proof.
  intros Hcl Hst Ht. pose proof (step_effects _ _ _ _ Hcl Hst) as Heff.
  destruct d' as [|[op r] [|]]; [done| |by destruct op]. destruct op; try done.
  by destruct Heff as (? & ? & -> & _).
Qed.

Lemma due_step x cl new d d' c : classified x cl → strand_step next x new d' → explained d x →
  due c (d ++ d') → due c d ∨ ∃ y, y ∈ new ∧ closing c y.
Proof.
  intros Hcl Hst Hx (j & Hj & Hin). rewrite pushes_app in Hj.
  destruct (decide (j < pushes d)%nat) as [|Hge]; [left; by exists j|]. right.
  apply (step_effects _ _ _ _ Hcl) in Hst.
  destruct d' as [|[op r] [|]]; cbn in Hj; try lia; [|by destruct op].
  destruct op; cbn in Hj; try lia. destruct Hst as (i & st & -> & ->). cbn in Hx. subst i.
  assert (j = pushes d) as -> by lia. eexists. split; [by left|done].
Qed.

(** The clauses of the invariant, one by one. *)
Lemma explained_others old cl new rest d d' :
  classified old cl → strand_step next old new d' → (tickers (old :: rest) ≤ 1)%nat →
  Forall (explained d) (old :: rest) → Forall (explained (d ++ d')) (new ++ rest).
Proof.
  intros Hcl Hst Hone [Hx Hrest]%Forall_cons. apply Forall_app. split; [by eapply explained_step|].
  apply Forall_forall. intros x Hin. rewrite Forall_forall in Hrest. apply explained_app; [|by apply Hrest].
  destruct (ticker old) eqn:Ht; [left|right; by eapply push_ticks].
  apply (tickers_none rest); [|done]. rewrite tickers_cons in Hone. unfold tickers in Hone at 1. cbn in Hone.
  rewrite Ht in Hone. cbn in Hone. lia.
Qed.

Lemma shut_explained old cl new d d' c r :
  classified old cl → strand_step next old new d' → explained d old → (OpShutdown c, r) ∈ d' →
  due c (d ++ d') ∨ lost c (d ++ d').
Proof.
  intros Hcl Hst Hx Hin. pose proof (step_effects _ _ _ _ Hcl Hst) as Heff.
  destruct d' as [|o [|]]; [by apply not_elem_of_nil in Hin| |by destruct o as [[] ?]].
  apply list_elem_of_singleton in Hin. subst o. destruct Heff as (k & st & ->). cbn in Hx.
  destruct Hx; [left; by apply due_app|right; by apply lost_app].
Qed.

Lemma lost_step x cl new d d' c : classified x cl → strand_step next x new d' →
  lost c (d ++ d') → lost c d ∨ ∃ y, y ∈ new ∧ closing c y.
Proof.
  intros Hcl Hst [Hl|Hl]%Exists_app; [by left|right]. inversion Hst; subst; try by apply Exists_nil in Hl.
  - match goal with H : next _ = CallOut _ _ |- _ => apply calls_out in H end.
    apply Exists_cons in Hl as [Hl|?%Exists_nil]; [|done]. by destruct op as [| | |[]| | | | |].
  - apply Exists_cons in Hl as [Hl|?%Exists_nil]; [|done]. eexists. split; [by left|].
    inversion Hcl as [n y built Hy|y Hy|c' y ph Hy|c' y ph Hy|c' y ph Hy]; subst; inversion Hy; subst; try done.
    destruct fixed; [|done]. destruct Hl as [-> Hr].
    match goal with H : sender true _ _ _ |- _ => inversion H; subst end.
    unfold after_op. rewrite (proj2 (Z.ltb_lt r 0)) by done. cbn. by rewrite (proj2 (Z.ltb_lt r 0)).
Qed.

Lemma due_closing old cl new rest d d' c :
  classified old cl → strand_step next old new d' → explained d old → 0 ≤ socket c →
  (due c d ∨ lost c d → (∃ r, (OpShutdown c, r) ∈ d) ∨ ∃ x, x ∈ old :: rest ∧ closing c x) →
  due c (d ++ d') ∨ lost c (d ++ d') →
  (∃ r, (OpShutdown c, r) ∈ d ++ d') ∨ ∃ x, x ∈ new ++ rest ∧ closing c x.
Proof.
  intros Hcl Hst Hx Hc Hbefore Hd. setoid_rewrite elem_of_app.
  assert ((due c d ∨ lost c d) ∨ ∃ y, y ∈ new ∧ closing c y) as [Howed|(y & Hy & Hcy)];
    [|by destruct (Hbefore Howed) as [(r & Hr)|(x & [->|Hin]%elem_of_cons & Hcx)];
      [left; exists r; auto|destruct (closing_step _ _ _ _ _ Hcl Hst Hcx Hc) as [(r & Hr)|(y & Hy & Hcy)];
        [left; exists r; auto|right; exists y; auto]|right; exists x; auto]|right; exists y; auto].
  destruct Hd as [Hd|Hd].
  - destruct (due_step _ _ _ _ _ _ Hcl Hst Hx Hd); [left; by left|by right].
  - destruct (lost_step _ _ _ _ _ _ Hcl Hst Hd); [left; by right|by right].
Qed.

Lemma construct_socket old cl new d' c r :
  classified old cl → strand_step next old new d' → (OpConstruct c, r) ∈ d' → 0 ≤ socket c.
Proof.
  intros Hcl Hst Hin. pose proof (step_effects _ _ _ _ Hcl Hst) as Heff.
  destruct d' as [|o [|]]; [by apply not_elem_of_nil in Hin| |by destruct o as [[] ?]].
  apply list_elem_of_singleton in Hin. by subst o.
Qed.

Lemma install_moves old cl new rest d d' :
  classified old cl → strand_step next old new d' →
  registers d ++ installing (old :: rest) ⊆+ constructs d →
  registers (d ++ d') ++ installing (new ++ rest) ⊆+ constructs (d ++ d').
Proof.
  intros Hcl Hst Hsub. pose proof (install_step _ _ _ _ Hcl Hst) as Hin.
  assert (constructs (d ++ d') = constructs d ++ constructs d') as -> by apply omap_app.
  rewrite registers_app, installing_app. change (old :: rest) with ([old] ++ rest) in Hsub.
  rewrite installing_app in Hsub.
  transitivity ((registers d ++ installing rest) ++ registers d' ++ installing new);
    [apply Permutation_submseteq; solve_Permutation|].
  transitivity ((registers d ++ installing rest) ++ installing [old] ++ constructs d'); [by apply submseteq_app|].
  transitivity ((registers d ++ installing [old] ++ installing rest) ++ constructs d');
    [apply Permutation_submseteq; solve_Permutation|by apply submseteq_app].
Qed.

Lemma watched_step sp old cl new rest d d' :
  classified old cl → strand_step next old new d' → watched sp (old :: rest) d → watched sp (new ++ rest) (d ++ d').
Proof.
  intros Hcl Hst [H1 H2 H3 H4 H5 H6 H7]. pose proof (Forall_inv H3) as Hx.
  pose proof (ticker_step _ _ _ _ Hcl Hst) as Htick. split.
  - intros Hsp. destruct (H1 Hsp) as [Ht Hp]. rewrite tickers_cons in Ht.
    rewrite tickers_app, pushes_app, (push_ticks old cl new d'); [lia|done..|].
    apply (tickers_none [old]); [lia|by left].
  - rewrite tickers_cons in H2. rewrite tickers_app. lia.
  - by eapply explained_others.
  - intros c r [Hin|Hin]%elem_of_app; [|by eapply shut_explained].
    destruct (H4 c r Hin); [left; by apply due_app|right; by apply lost_app].
  - intros c Hd Hc. eapply due_closing; eauto.
  - intros c r [Hin|Hin]%elem_of_app; [by eapply H6|by eapply construct_socket].
  - by eapply install_moves.
Qed.

Lemma watched_start : watched [] [] [].
Proof.
  split; try done; try (intros ? ? []%not_elem_of_nil); [cbn; lia|].
  intros c [(j & Hj & _)|Hl%Exists_nil]; [cbn in Hj; lia|done].
Qed.

(** The program keeps it, beside the books. *)
Lemma watched_run es s :
  c_run next es no_calls = Some s → boot (omap spawned_of es) → one_tick (omap spawned_of es) →
  honest incoming (c_done s) →
  c_control s ≠ CAborted ∧ kept incoming (omap spawned_of es) (strands s) (c_done s) ∧
  watched (omap spawned_of es) (strands s) (c_done s).
Proof.
  intros Hrun Hboot Hone Hh.
  apply (strands_invariant next (λ sp d, boot sp ∧ one_tick sp ∧ honest incoming d))
    with (P := λ sp xs d, kept incoming sp xs d ∧ watched sp xs d) (sp := []) (s := no_calls); try done.
  - intros sp sp' d d' (Hb & Ho & Hd). apply Forall_app in Hd as [Hd _].
    split; [by eapply boot_prefix|]. split; [by eapply one_tick_prefix|done].
  - intros sp xs xs' d Hp [? ?]. split; [by eapply kept_perm|by eapply watched_perm].
  - intros sp l xs d (Hb & Ho & _) [? ?]. split; [by apply kept_spawn|by apply watched_spawn].
  - intros sp old new rest d d' Hst (_ & _ & Hd) [Hk Hw]. apply Forall_app in Hd as [_ Hd].
    pose proof Hk as (cl & l & Hx & _)%kept_split.
    split; [by eapply kept_step|by eapply watched_step].
  - intros sp l x rest d _ Hn [Hk _]. by eapply kept_caught.
  - split; [apply kept_start|apply watched_start].
Qed.
(** [tick_coro] neither ends nor misses a timeout while the wheel is not stopped. *)
Definition turning sp (xs : list strand) d : Prop :=
  (∀ j, ticking j = true) → tickers xs = length (omap tick_of sp) ∧ timeouts d = (pushes d + fired xs)%nat.

Lemma turning_run es s :
  c_run next es no_calls = Some s → boot (omap spawned_of es) → honest incoming (c_done s) →
  c_control s ≠ CAborted ∧ kept incoming (omap spawned_of es) (strands s) (c_done s) ∧
  turning (omap spawned_of es) (strands s) (c_done s).
Proof.
  intros Hrun Hboot Hh.
  apply (strands_invariant next (λ sp d, boot sp ∧ honest incoming d))
    with (P := λ sp xs d, kept incoming sp xs d ∧ turning sp xs d) (sp := []) (s := no_calls); try done.
  - intros sp sp' d d' [Hb Hd]. apply Forall_app in Hd as [Hd _]. split; [by eapply boot_prefix|done].
  - intros sp xs xs' d Hp [? Ht]. split; [by eapply kept_perm|]. intros Hon. destruct (Ht Hon) as [H1 H2].
    unfold fired. by rewrite <-(tickers_perm _ _ Hp), <-Hp.
  - intros sp l xs d [Hb _] [? Ht]. split; [by apply kept_spawn|]. intros Hon. destruct (Ht Hon) as [H1 H2].
    destruct Hb as [Hb _]. apply Forall_app in Hb as [_ Hl]. apply Forall_cons in Hl as [Hl _].
    rewrite omap_app, length_app, tickers_cons, H1.
    destruct l as [[|k]| | | |j| | | | | | | | | | | | | | | | |]; try done; cbn; (split; [lia|done]).
  - intros sp old new rest d d' Hst [_ Hd] [Hk Ht]. apply Forall_app in Hd as [_ Hd].
    pose proof Hk as (cl & l & Hx & _)%kept_split. split; [by eapply kept_step|]. intros Hon.
    destruct (Ht Hon) as [H1 H2]. destruct (turning_step _ _ _ _ Hon Hx Hst) as [H3 H4].
    rewrite tickers_cons in H1. change (old :: rest) with ([old] ++ rest) in H2. rewrite fired_count_app in H2.
    rewrite tickers_app, fired_count_app, timeouts_app, pushes_app. lia.
  - intros sp l x rest d _ Hn [Hk _]. by eapply kept_caught.
  - split; [apply kept_start|]. by intros _.
Qed.

(** ** The wheel under the coroutines *)

Context {R : Type} `{!Window Bucket R ∅} (gone : nat → list conn) (seconds : Z).
Hypothesis seconds_small : seconds ≤ max_size.
Abbreviation N := (ticks seconds).

(** The entries that die are those the wheel drops.  A connection is destroyed only when
    its handler, whose frame holds a [shared_ptr] to it, is done. *)
Record tied d : Prop := {
  d_expired : ∃ s, replay (R:=R) gone seconds d = Ok s ∧
    ∀ j out, shed s !! j = Some out → list_to_set (number <$> expired j) = out ∧ expired j ⊆ constructs d;
  d_gone j c : c ∈ constructs d → number c ∈ gone j → (j < pushes d)%nat → lost c d;
}.

Lemma numbers_unique sp xs d c c' : kept incoming sp xs d →
  c ∈ constructs d → c' ∈ constructs d → number c = number c' → c = c'.
Proof.
  intros (l & _ & _ & bound & Hb) Hc Hc' Heq. pose proof (b_built _ _ _ _ _ Hb) as Hseq.
  apply list_elem_of_lookup in Hc as [i Hi]. apply list_elem_of_lookup in Hc' as [j Hj].
  assert (Hnum : ∀ (k : nat) (y : connection), constructs d !! k = Some y → number y = k).
  { intros k y Hk. assert (Hl : (number <$> constructs d) !! k = Some (number y)) by (by rewrite list_lookup_fmap, Hk).
    rewrite Hseq in Hl. by apply lookup_seq in Hl as [? _]. }
  rewrite (Hnum _ _ Hi), (Hnum _ _ Hj) in Heq. congruence.
Qed.

Lemma registered_once sp xs d : kept incoming sp xs d → watched sp xs d →
  NoDup (number <$> registers d) ∧ ∀ c, c ∈ registers d → c ∈ constructs d.
Proof.
  intros (l & _ & _ & bound & Hb) Hw. pose proof (t_install _ _ _ Hw) as Hsub. split.
  - pose proof (NoDup_seq 0 (bound + building l.*2)) as Hnd. rewrite <-(b_built _ _ _ _ _ Hb) in Hnd.
    apply submseteq_Permutation in Hsub as (k & Hk). rewrite Hk, !fmap_app in Hnd.
    by apply NoDup_app in Hnd as [[? _]%NoDup_app _].
  - intros c Hc. eapply elem_of_submseteq; [|done]. apply elem_of_app. by left.
Qed.

(** An entry died at a push, or it is as good as lost. *)
Lemma drops_due sp xs d c : kept incoming sp xs d → watched sp xs d → tied d → c ∈ registers d →
  ∀ j, drops N (number c) j d → due c d ∨ lost c d.
Proof.
  intros Hk Hw [(s & Hs & Hexp) Hgone] Hc j Hd. destruct (registered_once _ _ _ Hk Hw) as [Hnd Hcon].
  destruct (wheel_counted (R:=R) gone N seconds d seconds_small eq_refl Hnd) as (s' & t & Hs' & Hct).
  assert (s' = s) as -> by congruence. pose proof (drops_before _ _ _ _ Hd) as Hj.
  rewrite <-(f_shed _ _ _ _ _ Hct) in Hj. apply lookup_lt_is_Some in Hj as [out Hout].
  destruct (Hexp _ _ Hout) as [Hset Hsub]. pose proof (drops_before _ _ _ _ Hd) as Hj.
  destruct (proj2 (f_out _ _ _ _ _ Hct j out (number c) Hout) Hd) as [Hin|(i & Hi & Hin)].
  - left. exists j. split; [done|]. rewrite <-Hset in Hin.
    apply elem_of_list_to_set, list_elem_of_fmap in Hin as (c' & Heq & Hc').
    by rewrite (numbers_unique _ _ _ c c' Hk (Hcon _ Hc) (Hsub _ Hc') Heq).
  - right. apply (Hgone i); [by apply Hcon|done|lia].
Qed.

Lemma due_drops sp xs d c : kept incoming sp xs d → watched sp xs d → tied d →
  due c d → ∃ j, drops N (number c) j d.
Proof.
  intros Hk Hw [(s & Hs & Hexp) _] (j & Hj & Hin). destruct (registered_once _ _ _ Hk Hw) as [Hnd _].
  destruct (wheel_counted (R:=R) gone N seconds d seconds_small eq_refl Hnd) as (s' & t & Hs' & Hct).
  assert (s' = s) as -> by congruence. rewrite <-(f_shed _ _ _ _ _ Hct) in Hj.
  apply lookup_lt_is_Some in Hj as [out Hout]. destruct (Hexp _ _ Hout) as [Hset _]. exists j.
  apply (f_out _ _ _ _ _ Hct j out (number c) Hout). rewrite <-Hset.
  apply elem_of_list_to_set, list_elem_of_fmap. by exists c.
Qed.

(** *** On the event loop *)

Context (entries : nat) (sqpoll : bool).
Abbreviation worker_run := (Coroutines.worker_run next (λ _, false) entries sqpoll).

Lemma worker_watched es w :
  worker_run es new_worker = Some w → boot (booted w) → one_tick (booted w) →
  honest incoming (done_ (mach w)) →
  ∃ s, related (mach w) s ∧ kept incoming (booted w) (strands s) (done_ (mach w)) ∧
    watched (booted w) (strands s) (done_ (mach w)).
Proof.
  intros Hrun Hboot Hone Hh. pose proof (worker_run_inv next _ _ _ es _ _ (new_worker_inv next) Hrun) as Hw.
  destruct (w_frames _ _ Hw) as (ts & Hts & _ & Hsp). destruct (task_run_related next _ _ Hts) as (c & Hc & Hrel).
  exists c. split; [done|].
  assert (Hd : done_ (mach w) = c_done c) by (by destruct Hrel as (? & ? & (_ & ? & _) & _)).
  rewrite Hd, <-Hsp in *. by apply watched_run.
Qed.

(** A strand at rest waits for an operation that the loop keeps track of. *)
Lemma resting_waits (w : Coroutines.worker) (cs : calls local value fault operation) x :
  Coroutines.worker_inv next w → related (mach w) cs → alive w = true → x ∈ strands cs →
  ∃ op k st h cont, x = Waiting op k st ∧ frames (mach w) !! h = Some (TaskFrame (OnIo op k) no_result cont) ∧
    h ∈ outstanding (sched w) ++ ready_ (sched w) ++ handles (cross_ (sched w)) ++ away w.
Proof.
  intros Hw Hrel Halive Hin. pose proof (proj1 (alive_spec next w) Halive) as [Hloop _].
  destruct (no_spawners _ _ Hrel Hloop) as [Hsp Hctl]. unfold strands in Hin. rewrite Hsp, Hctl in Hin.
  apply list_elem_of_fmap in Hin as ([[op k] st] & -> & Hin).
  destruct (waiting_suspended _ _ _ _ _ Hrel Hloop Hin) as (h & cont & Hpe & Hfr).
  exists op, k, st, h, cont. split_and!; [done..|].
  rewrite (k_pending _ (w_accounted _ _ Hw Halive)) in Hpe. unfold tracked, to_resume in Hpe.
  by rewrite <-!app_assoc in Hpe.
Qed.

Lemma resting_shutdown (w : Coroutines.worker) (cs : calls local value fault operation) c x :
  Coroutines.worker_inv next w → related (mach w) cs → alive w = true → x ∈ strands cs → closing c x →
  ∃ h k cont, frames (mach w) !! h = Some (TaskFrame (OnIo (OpShutdown c) k) no_result cont) ∧
    h ∈ outstanding (sched w) ++ ready_ (sched w) ++ handles (cross_ (sched w)) ++ away w.
Proof.
  intros Hw Hrel Halive Hin Hcl.
  destruct (resting_waits w cs x Hw Hrel Halive Hin) as (op & k & st & h & cont & -> & Hfr & Htr).
  destruct op; try done. cbn in Hcl. subst. by exists h, k, cont.
Qed.

(** ** Properties *)

(** C8: An idle connection is shut down.  A connection registered with the wheel, on
    which nothing has come in while the wheel turned N times, N being the idle timeout in
    seconds, has been shut down - by the coroutine that [tick_coro] spawned, or by its own
    handler if that had given up before - or its worker is waiting for the shutdown and
    keeps track of the coroutine. *)
Theorem idle_connection_is_shut_down (es : list worker_event) w c r d1 d2 :
  worker_run es new_worker = Some w → boot (booted w) → one_tick (booted w) →
  honest incoming (done_ (mach w)) → tied (done_ (mach w)) → alive w = true →
  done_ (mach w) = d1 ++ d2 → (OpRegister c, r) ∈ d1 → unrenewed (number c) d2 → (N ≤ pushes d2)%nat →
  (∃ r, (OpShutdown c, r) ∈ done_ (mach w)) ∨
  ∃ h k cont, frames (mach w) !! h = Some (TaskFrame (OnIo (OpShutdown c) k) no_result cont) ∧
    h ∈ outstanding (sched w) ++ ready_ (sched w) ++ handles (cross_ (sched w)) ++ away w.
Proof.
  intros Hrun Hboot Hone Hh Htied Halive Hd Hc Hun Hp.
  destruct (worker_watched es w Hrun Hboot Hone Hh) as (cs & Hrel & Hk & Hw).
  assert (HN : (0 < N)%nat) by (unfold ticks; pose proof (slots_pos seconds); lia).
  destruct (drops_in_time N (number c) c d1 d2 r HN eq_refl Hc Hun Hp) as (j & _ & Hdr). rewrite <-Hd in Hdr.
  assert (Hreg : c ∈ registers (done_ (mach w))).
  { apply list_elem_of_omap. exists (OpRegister c, r). split; [rewrite Hd; apply elem_of_app; by left|done]. }
  pose proof (drops_due _ _ _ c Hk Hw Htied Hreg j Hdr) as Howed.
  destruct (t_due _ _ _ Hw c Howed) as [?|(x & Hx & Hcl)]; [|by left|right].
  { destruct (registered_once _ _ _ Hk Hw) as [_ Hcon]. apply Hcon, list_elem_of_omap in Hreg as ([op z] & Hin & Hop).
    destruct op; try done. cbn in Hop. injection Hop as ->. by apply (t_socket _ _ _ Hw c z). }
  apply (resting_shutdown w cs c x); [|done..].
  exact (worker_run_inv next _ _ _ es _ _ (new_worker_inv next) Hrun).
Qed.


(** The coroutines drive the wheel.  Whatever connections come, go and send: no call of
    [register_conn], [refresh] or [push_back] fails, the entry of a connection is alive
    exactly while the countdown of its connection lasts, which starts at N when it is
    registered, starts again with data that come in time, and goes down with each push. *)
Theorem coroutines_drive_wheel (es : list worker_event) w :
  worker_run es new_worker = Some w → boot (booted w) → one_tick (booted w) →
  honest incoming (done_ (mach w)) →
  ∃ s, replay (R:=R) gone seconds (done_ (mach w)) = Ok s ∧
    length (shed s) = pushes (done_ (mach w)) ∧
    ∀ e n, IdleWheel.entries (IdleWheel.wheel (world_ s)) !! e = Some n ↔
      entry_ s !! n = Some e ∧ ∃ k, left N n (done_ (mach w)) = Some (S k).
Proof.
  intros Hrun Hboot Hone Hh.
  destruct (worker_watched es w Hrun Hboot Hone Hh) as (cs & Hrel & Hk & Hw).
  destruct (registered_once _ _ _ Hk Hw) as [Hnd _].
  destruct (wheel_counted (R:=R) gone N seconds _ seconds_small eq_refl Hnd) as (s & t & Hs & Hct).
  exists s. split; [done|]. split; [apply Hct|]. intros e n. rewrite (rel_entries _ _ _ (f_related _ _ _ _ _ Hct)).
  split.
  - intros ([m k] & Hm & ->)%fmap_Some. destruct (f_ttl _ _ _ _ _ Hct _ _ _ Hm) as (? & ? & ?).
    split; [done|]. exists (pred k). by rewrite Nat.succ_pred by lia.
  - intros [He (k & Hl)]. destruct (f_left _ _ _ _ _ Hct _ _ Hl) as (e' & He').
    destruct (f_ttl _ _ _ _ _ Hct _ _ _ He') as (He'' & _). assert (e' = e) as -> by congruence.
    by rewrite He'.
Qed.

(** The wheel keeps turning.  Until it is stopped, every timeout of [tick_coro] has led to
    a push - the wheel has turned once for each second that the kernel has counted - and
    the next timeout is under way, whose coroutine the loop keeps track of. *)
Theorem wheel_keeps_turning (es : list worker_event) w :
  worker_run es new_worker = Some w → boot (booted w) → (∃ j, Tick j ∈ booted w) →
  honest incoming (done_ (mach w)) → alive w = true → (∀ j, ticking j = true) →
  pushes (done_ (mach w)) = timeouts (done_ (mach w)) ∧
  ∃ h k cont, frames (mach w) !! h = Some (TaskFrame (OnIo OpTimeout k) no_result cont) ∧
    h ∈ outstanding (sched w) ++ ready_ (sched w) ++ handles (cross_ (sched w)) ++ away w.
Proof.
  intros Hrun Hboot (j & Hj) Hh Halive Hon.
  pose proof (worker_run_inv next _ _ _ es _ _ (new_worker_inv next) Hrun) as Hw.
  destruct (w_frames _ _ Hw) as (ts & Hts & _ & Hsp). destruct (task_run_related next _ _ Hts) as (c & Hc & Hrel).
  assert (Hd : done_ (mach w) = c_done c) by (by destruct Hrel as (? & ? & (_ & ? & _) & _)).
  rewrite Hd, <-Hsp in *. destruct (turning_run ts c Hc Hboot Hh) as (_ & _ & Hturn).
  destruct (Hturn Hon) as [Ht Hf].
  pose proof (λ x, resting_waits w c x Hw Hrel Halive) as Hrest. split.
  - assert (Hz : fired (strands c) = 0%nat); [|lia]. apply length_zero_iff_nil, elem_of_nil_inv.
    intros [] (x & Hx & Hsome)%list_elem_of_omap. by destruct (Hrest x Hx) as (op & k & st & h & cont & -> & _).
  - assert (Hin : j ∈ omap tick_of (omap spawned_of ts)) by (apply list_elem_of_omap; by exists (Tick j)).
    assert (Hpos : tickers (strands c) ≠ 0%nat).
    { rewrite Ht. destruct (omap tick_of _); [by apply not_elem_of_nil in Hin|done]. }
    destruct (omap (λ x, if ticker x then Some tt else None) (strands c)) as [|[] l] eqn:Hom;
      [unfold tickers in Hpos; by rewrite Hom in Hpos|].
    assert (Htt : tt ∈ omap (λ x, if ticker x then Some tt else None) (strands c)) by (rewrite Hom; by left).
    apply list_elem_of_omap in Htt as (x & Hx & Hsome).
    destruct (Hrest x Hx) as (op & k & st & h & cont & -> & Hfr & Htr).
    destruct op; try done. by exists h, k, cont.
Qed.
End strands.

(** ** Witnesses *)

#[local] Instance eviction_ring : Window Bucket (CircularBuffer Bucket) ∅ := circular_window ∅.

Module EvictionDemo.
(** An idle timeout of one second, and a connection whose peer never says a word. *)
Definition slots (n : nat) : option (list byte) := None.
Definition incoming (n : nat) : list byte := [].
Definition conn0 : connection := mkConnection 0 5.
Definition expired (j : nat) : list connection := match j with O => [conn0] | _ => [] end.
Definition body := next true slots incoming Demo.yes Demo.yes expired.
Definition idle : list (worker_event (L:=local)) :=
  [WSched (EvBoot 0); WSched (EvBoot 1); WSched EvRun; WSched EvTop;
   WTask (EvSpawn (AcceptTurn 0) :: Demo.steps 1); WTask (EvSpawn (Tick 0) :: Demo.steps 1); WSched EvTasksDone] ++
  Demo.turn 2 5 6 ++          (* accepted *)
  Demo.turn 2 (-62) 5.        (* the timeout: its bucket is dropped *)
Definition es : list (worker_event (L:=local)) := idle ++ Demo.turn 4 0 2.   (* shut down *)
Definition play evs : Coroutines.worker := default new_worker (worker_run body (λ _, false) 16 false evs new_worker).
Definition before : list (operation * Z) := [(OpAccept, 5); (OpConstruct conn0, 0); (OpRegister conn0, 0)].
Definition after : list (operation * Z) := [(OpTimeout, -62); (OpPushBucket, 0)].

Lemma idle_run : worker_run body (λ _, false) 16 false idle new_worker = Some (play idle).
Proof. vm_compute. reflexivity. Qed.
Lemma es_run : worker_run body (λ _, false) 16 false es new_worker = Some (play es).
Proof. vm_compute. reflexivity. Qed.
Lemma idle_facts : booted (play idle) = [AcceptTurn 0; Tick 0] ∧ alive (play idle) = true ∧
  done_ (mach (play idle)) = before ++ after.
Proof. vm_compute. done. Qed.
Lemma es_facts : booted (play es) = [AcceptTurn 0; Tick 0] ∧
  done_ (mach (play es)) = before ++ after ++ [(OpShutdown conn0, 0)].
Proof. vm_compute. done. Qed.
Lemma boots : boot [AcceptTurn 0; Tick 0] ∧ one_tick [AcceptTurn 0; Tick 0].
Proof. split; (split; [|cbn; lia || by repeat constructor]); [by repeat constructor|cbn; lia]. Qed.
Lemma no_bytes d : Forall (λ o, match o.1 with OpRecv _ _ _ _ | OpSend _ _ _ => False | _ => True end) d →
  honest incoming d.
Proof. intros Hd. eapply Forall_impl; [exact Hd|]. by intros [[] r]. Qed.
Lemma ends_tied d : replay (R:=CircularBuffer Bucket) (λ _, []) 1 (before ++ after ++ d) =
    replay (R:=CircularBuffer Bucket) (λ _, []) 1 (before ++ after) →
  tied (R:=CircularBuffer Bucket) expired (λ _, []) 1 (before ++ after ++ d).
Proof.
  intros Hd. split; [|by intros j c _ ?%not_elem_of_nil]. rewrite Hd.
  eexists. split; [vm_compute; reflexivity|]. intros [|j] out; [|done]. intros [= <-]. split; [set_solver|].
  intros c ->%list_elem_of_singleton. cbn. by left.
Qed.
End EvictionDemo.

Lemma idle_connection_is_shut_down_witness :
  let w := EvictionDemo.play EvictionDemo.idle in
  pushes EvictionDemo.after = ticks 1 ∧
  ((∃ r, (OpShutdown EvictionDemo.conn0, r) ∈ done_ (mach w)) ∨
   ∃ h k cont, frames (mach w) !! h = Some (TaskFrame (OnIo (OpShutdown EvictionDemo.conn0) k) no_result cont) ∧
     h ∈ outstanding (sched w) ++ ready_ (sched w) ++ handles (cross_ (sched w)) ++ away w).
Proof.
  destruct EvictionDemo.idle_facts as (Hb & Ha & Hd). destruct EvictionDemo.boots as [Hboot Hone].
  split; [reflexivity|].
  apply (idle_connection_is_shut_down true EvictionDemo.slots EvictionDemo.incoming Demo.yes Demo.yes
    EvictionDemo.expired ltac:(done) (R:=CircularBuffer Bucket) (λ _, []) 1 ltac:(by vm_compute) 16 false
    EvictionDemo.idle _ EvictionDemo.conn0 0 EvictionDemo.before EvictionDemo.after EvictionDemo.idle_run).
  - rewrite Hb. exact Hboot.
  - rewrite Hb. exact Hone.
  - rewrite Hd. apply EvictionDemo.no_bytes. repeat constructor.
  - rewrite Hd. apply (EvictionDemo.ends_tied []). reflexivity.
  - exact Ha.
  - exact Hd.
  - right. right. left.
  - repeat constructor.
  - apply Nat.le_refl.
Defined.


Lemma coroutines_drive_wheel_witness :
  let w := EvictionDemo.play EvictionDemo.es in
  ∃ s, replay (R:=CircularBuffer Bucket) (λ _, []) 1 (done_ (mach w)) = Ok s ∧
    length (shed s) = pushes (done_ (mach w)) ∧
    ∀ e n, IdleWheel.entries (IdleWheel.wheel (world_ s)) !! e = Some n ↔
      entry_ s !! n = Some e ∧ ∃ k, left (ticks 1) n (done_ (mach w)) = Some (S k).
Proof.
  destruct EvictionDemo.es_facts as (Hb & Hd). destruct EvictionDemo.boots as [Hboot Hone].
  apply (coroutines_drive_wheel true EvictionDemo.slots EvictionDemo.incoming Demo.yes Demo.yes
    EvictionDemo.expired ltac:(done) (R:=CircularBuffer Bucket) (λ _, []) 1 ltac:(by vm_compute) 16 false
    EvictionDemo.es _ EvictionDemo.es_run).
  - rewrite Hb. exact Hboot.
  - rewrite Hb. exact Hone.
  - rewrite Hd. apply EvictionDemo.no_bytes. repeat constructor.
Defined.

Lemma wheel_keeps_turning_witness :
  let w := EvictionDemo.play EvictionDemo.idle in
  pushes (done_ (mach w)) = timeouts (done_ (mach w)) ∧
  ∃ h k cont, frames (mach w) !! h = Some (TaskFrame (OnIo OpTimeout k) no_result cont) ∧
    h ∈ outstanding (sched w) ++ ready_ (sched w) ++ handles (cross_ (sched w)) ++ away w.
Proof.
  destruct EvictionDemo.idle_facts as (Hb & Ha & Hd). destruct EvictionDemo.boots as [Hboot Hone].
  apply (wheel_keeps_turning true EvictionDemo.slots EvictionDemo.incoming Demo.yes Demo.yes
    EvictionDemo.expired ltac:(done) 16 false EvictionDemo.idle _ EvictionDemo.idle_run).
  - rewrite Hb. exact Hboot.
  - exists 0%nat. rewrite Hb. right. by left.
  - rewrite Hd. apply EvictionDemo.no_bytes. repeat constructor.
  - exact Ha.
  - done.
Defined.
