(* ===== verification/Conversation.v ===== *)
(** * Conversation: the coroutine bodies and the functional models

    [Tcp.v] and [EchoServer.v] describe a coroutine that awaits in a loop as a function
    of the results of its operations; [Handlers.v] has the bodies themselves.  Here a
    strand is run by itself on a list of results, and the two are shown to agree: the
    handler does what [echo] and [echo_fixed] say, the accept coroutine what
    [accept_loop] says. *)
From S2P Require Import Task Strands BufferPool Buffer Tcp EchoServer Handlers Prelude.

Section runs.
Context {L V X Op : Type} (next : L → Task.action L V X Op).
Abbreviation strand := (Strands.strand (L:=L) (V:=V) (X:=X) (Op:=Op)).

(** A strand by itself: the results its operations get, what it is then (nothing, once
    its coroutine has returned), what is done, and what it spawns. *)
Inductive runs : strand → list Z → option strand → list (Op * Z) → list strand → Prop :=
  | RunsStop x : runs x [] (Some x) [] []
  | RunsEnd l st : goes_on (next l) st = Some ([], []) → runs (Active l st) [] None [] []
  | RunsStep l st sp x rs y d d' sp' :
      goes_on (next l) st = Some (sp ++ [x], d) → runs x rs y d' sp' →
      runs (Active l st) rs y (d ++ d') (sp ++ sp')
  | RunsWait op k st r rs y d' sp' :
      runs (Active (k r) st) rs y d' sp' →
      runs (Waiting op k st) (r :: rs) y ((op, r) :: d') sp'.

(** Its steps are those of the program. *)
Lemma goes_on_step l st new d :
  goes_on (next l) st = Some (new, d) → strand_step next (Active l st) new d.
Proof.
  intros Hgo. destruct (next l) eqn:Hn, st; cbn in Hgo; simplify_eq; by econstructor.
Qed.

Lemma runs_to l st x rs y d sp :
  goes_on (next l) st = Some ([x], []) → runs x rs y d sp → runs (Active l st) rs y d sp.
Proof. apply (RunsStep l st [] x rs y []). Qed.
Lemma runs_out l st x rs y o d sp :
  goes_on (next l) st = Some ([x], [o]) → runs x rs y d sp → runs (Active l st) rs y (o :: d) sp.
Proof. apply (RunsStep l st [] x rs y [o]). Qed.

(** Where a strand stops by itself. *)
Definition at_rest (y : option strand) : Prop :=
  match y with Some (Active _ _) => False | _ => True end.

(** Bodies that go on alike. *)
Lemma runs_alike l st l' st' rs y d sp :
  goes_on (next l) st = goes_on (next l') st' → at_rest y →
  runs (Active l' st') rs y d sp → runs (Active l st) rs y d sp.
Proof.
  intros Heq Hy Hr. inversion Hr; subst; [done|..].
  - apply RunsEnd. by rewrite Heq.
  - eapply RunsStep; [by rewrite Heq|done].
Qed.

(** The results decide what a strand does. *)
Lemma runs_deterministic x rs y d sp y' d' sp' :
  runs x rs y d sp → runs x rs y' d' sp' → at_rest y → at_rest y' →
  y = y' ∧ d = d' ∧ sp = sp'.
Proof.
  intros Hr Hr' Hy Hy'. revert y' d' sp' Hr' Hy'.
  induction Hr as [x|l st Hgo|l st sp x rs y d d1 sp1 Hgo Hr IH|op k st r rs y d1 sp1 Hr IH];
    intros y' d' sp' Hr' Hy'.
  - destruct x; [done|]. by inversion Hr'; subst.
  - inversion Hr' as [|? ? Hgo'|? ? sp2 ? ? ? ? ? ? Hgo'|]; subst; [done|done|].
    rewrite Hgo in Hgo'. by destruct sp2.
  - inversion Hr' as [|? ? Hgo'|? ? sp2 x2 ? ? d2 d3 sp3 Hgo' Hr2|]; subst; [done| |];
      rewrite Hgo in Hgo'; injection Hgo' as Heq.
    + by destruct sp.
    + apply app_inj_tail in Heq as [-> ->]. subst d2.
      by destruct (IH Hy _ _ _ Hr2 Hy') as (-> & -> & ->).
  - inversion Hr' as [| | |? ? ? ? ? ? d2 ? Hr2]; subst.
    by destruct (IH Hy _ _ _ Hr2 Hy') as (-> & -> & ->).
Qed.
End runs.

Section conversation.
Context (wheel : bool) (slots : nat → option (list byte)) (incoming : nat → list byte).
Context (running ticking : nat → bool) (expired : nat → list connection).
Abbreviation next := (Handlers.next wheel slots incoming running ticking expired).
Abbreviation strand := (Strands.strand (L:=local) (V:=value) (X:=fault) (Op:=operation)).
Implicit Types (d : list (operation * Z)) (x : strand) (c : connection).

(** A strand gets from one state to another on some results. *)
Definition leads x rs d x' : Prop :=
  ∀ rs' y d' sp, runs next x' rs' y d' sp → runs next x (rs ++ rs') y (d ++ d') sp.

Lemma leads_refl x : leads x [] [] x.
Proof. by intros rs y d sp. Qed.
Lemma leads_trans x1 x2 x3 rs d rs' d' : leads x1 rs d x2 → leads x2 rs' d' x3 → leads x1 (rs ++ rs') (d ++ d') x3.
Proof. intros H1 H2 rs2 y d2 sp Hr. rewrite <-!app_assoc. by apply H1, H2. Qed.
Lemma leads_step l st x' rs d x :
  goes_on (next l) st = Some ([x'], []) → leads x' rs d x → leads (Active l st) rs d x.
Proof. intros Hgo Hl rs2 y d2 sp Hr. eapply runs_to; [done|]. by apply Hl. Qed.
Lemma leads_out l st x' rs d x o :
  goes_on (next l) st = Some ([x'], [o]) → leads x' rs d x → leads (Active l st) rs (o :: d) x.
Proof. intros Hgo Hl rs2 y d2 sp Hr. eapply runs_out; [done|]. by apply Hl. Qed.
Lemma leads_then x rs d l st x' :
  leads x rs d (Active l st) → goes_on (next l) st = Some ([x'], []) → leads x rs d x'.
Proof. intros Hl Hgo rs2 y d2 sp Hr. apply Hl. by eapply runs_to. Qed.
Lemma leads_wait op k st r rs d x :
  leads (Active (k r) st) rs d x → leads (Waiting op k st) (r :: rs) ((op, r) :: d) x.
Proof. intros Hl rs2 y d2 sp Hr. cbn. constructor. by apply Hl. Qed.
Lemma leads_runs x rs d x' : leads x rs d x' → runs next x rs (Some x') d [].
Proof.
  intros Hl. rewrite <-(app_nil_r rs), <-(app_nil_r d). apply Hl. constructor.
Qed.

(** What a connection shows of a history: the bytes sent on it, and how often its entry
    was refreshed. *)
Definition refreshed_of (o : operation * Z) : option connection :=
  match o.1 with OpRefresh c => Some c | _ => None end.
Definition refreshes (n : nat) d : nat :=
  length (filter (λ c, number c = n) (omap refreshed_of d)).
Definition shows (n : nat) d (w : list byte) (k : nat) : Prop :=
  bytes_out n d = w ∧ refreshes n d = k.

Lemma shows_app n d d' w w' k k' : shows n d w k → shows n d' w' k' → shows n (d ++ d') (w ++ w') (k + k')%nat.
Proof.
  intros [<- <-] [<- <-]. split; [apply bind_app|].
  unfold refreshes. by rewrite omap_app, filter_app, length_app.
Qed.
Lemma shows_nil n : shows n [] [] 0.
Proof. done. Qed.
Lemma shows_recv c fixed pos len r : shows (number c) [(OpRecv fixed c pos len, r)] [] 0.
Proof. done. Qed.
Lemma shows_send c fixed data r : shows (number c) [(OpSend fixed c data, r)] (slice data 0 r) 0.
Proof. split; [|done]. unfold bytes_out. cbn. by rewrite decide_True, app_nil_r. Qed.
Lemma shows_refresh c : shows (number c) [(OpRefresh c, 0)] [] 1.
Proof. split; [done|]. unfold refreshes. cbn. by rewrite decide_True. Qed.

(** The loop of [send] and [send_fixed]: waiting for its next operation, or returned. *)
Definition cast_of (fixed : bool) : Z → Z := if fixed then u32 else λ n, n.
Definition sends (fixed : bool) rs (data : list byte) : list sent * awaited :=
  if fixed then send_fixed rs data else send rs data.

Definition sent_to (out : awaited) (k : value + fault → local) st x : Prop :=
  match out with
  | Returned v => x = Active (k (inl (VSize v))) st
  | Suspended => ∃ fixed c data k', x = Waiting (OpSend fixed c data) k' (k :: st)
  end.

Lemma send_leads fixed c (data : list byte) k st rs : ∀ p remaining total tr out,
  0 ≤ p → 0 ≤ remaining < u64_mod →
  send_loop (cast_of fixed) rs p remaining total = (tr, out) → Tcp.honest tr →
  ∃ d x, leads (Active (Send fixed c data p remaining total) (k :: st)) (ret <$> tr) d x ∧
    sent_to out k st x ∧ shows (number c) d (wire data tr) 0.
Proof.
  assert (Hend : ∀ p total, 
    leads (Active (Send fixed c data p 0 total) (k :: st)) [] []
      (Active (k (inl (VSize total))) st)).
  { intros p total. eapply leads_step; [done|]. apply leads_refl. }
  induction rs as [|r rs IH]; intros p remaining total tr out Hp Hrem Hloop Hh; cbn in Hloop.
  - destruct (Z.eqb_spec remaining 0) as [->|Hr]; injection Hloop as <- <-.
    { do 2 eexists. split; [apply Hend|]. by split. }
    exists []. eexists. split; [|split; [by do 4 eexists|done]].
    eapply leads_step; [|apply leads_refl]. cbn. unfold send_turn.
    by rewrite (proj2 (Z.eqb_neq _ _) Hr).
  - destruct (Z.eqb_spec remaining 0) as [->|Hr].
    { injection Hloop as <- <-. do 2 eexists. split; [apply Hend|]. by split. }
    assert (Hgo : ∀ rs' d x,
      leads (Active (after_op fixed c data p remaining total r) (k :: st)) rs' d x →
      leads (Active (Send fixed c data p remaining total) (k :: st)) (r :: rs')
        ((OpSend fixed c (slice data p (cast_of fixed remaining)), r) :: d) x).
    { intros rs' d x Hl. eapply leads_step; [|apply leads_wait, Hl].
      cbn. unfold send_turn. rewrite (proj2 (Z.eqb_neq _ _) Hr). by destruct fixed. }
    assert (Hshow : ∀ tr, Tcp.honest (mkSent p (cast_of fixed remaining) r :: tr) →
      shows (number c) [(OpSend fixed c (slice data p (cast_of fixed remaining)), r)]
        (slice data p r) 0).
    { intros tr' [Hle _]%Forall_cons. cbn in Hle.
      replace (slice data p r) with (slice (slice data p (cast_of fixed remaining)) 0 r).
      - apply shows_send.
      - destruct (Z.le_gt_cases r 0); [by rewrite !slice_nil|].
        rewrite slice_slice by lia. by rewrite Z.add_0_r. }
    assert (Hret : ∀ v x, x = Active (k (inl (VSize v))) st →
      leads (Active (Return (VSize v)) (k :: st)) [] [] x).
    { intros v x ->. eapply leads_step; [done|]. apply leads_refl. }
    unfold after_op in Hgo. destruct (r <? 0) eqn:Hneg; [|destruct (Z.eqb_spec r 0) as [->|Hz];
      apply Z.ltb_ge in Hneg].
    + injection Hloop as <- <-. do 2 eexists. split; [by apply Hgo, Hret|]. split; [done|].
      unfold wire. cbn. rewrite app_nil_r. by eapply Hshow.
    + injection Hloop as <- <-. do 2 eexists. split; [by apply Hgo, Hret|]. split; [done|].
      unfold wire. cbn. rewrite app_nil_r. by eapply Hshow.
    + destruct (send_loop (cast_of fixed) rs (p + r) (u64 (remaining - r)) (total + r)) as [tr' out'] eqn:Hrec.
      injection Hloop as <- <-.
      apply Forall_cons in Hh as Hh'. destruct Hh' as [_ Hh'].
      destruct (IH (p + r) _ _ _ _ ltac:(lia) (u64_range _) Hrec Hh') as (d & x & Hl & Hx & Hs).
      do 2 eexists. split; [by apply Hgo, Hl|]. split; [done|].
      eapply (shows_app _ [_] d _ _ 0 0); [by eapply Hshow|done].
Qed.
(** What a reception brings is the stream of the peer. *)
Definition from_stream c (pos : Z) (e : Tcp.received) : Prop :=
  match e with
  | Data xs => 0 < zlen xs ∧ slice (incoming (number c)) pos (zlen xs) = xs
  | Stop r => r ≤ 0
  end.
Definition result (e : Tcp.received) : Z := match e with Data xs => zlen xs | Stop r => r end.

(** [if (n > 0 && wheel_) ...] and the return, in a body that has come to it. *)
Lemma received_leads c r v k st l :
  next l = Handlers.received wheel c r v →
  ∃ d, leads (Active l (k :: st)) [] d (Active (k (inl v)) st) ∧
    shows (number c) d [] (Nat.b2n (touch wheel r)).
Proof.
  unfold Handlers.received. intros Hl. destruct (touch wheel r); eexists; split.
  - eapply leads_out; [by rewrite Hl|]. eapply leads_step; [done|apply leads_refl].
  - apply shows_refresh.
  - eapply leads_step; [by rewrite Hl|apply leads_refl].
  - apply shows_nil.
Qed.

(** A reception into the buffer, and one into the slot. *)
Lemma recv_leads c pos b e n touched b' st :
  Tcp.recv wheel e b = Ok (n, touched, b') → from_stream c pos e →
  ∃ d, leads (Active (Turn c pos b) st) [n] d (Active (after_recv c pos (inl (VRecv n b'))) st) ∧
    shows (number c) d [] (Nat.b2n touched).
Proof.
  unfold Tcp.recv. intros (b1 & Hs & ((n1 & b2) & He & [= <- <- <-])%res_bind_ok)%res_bind_ok Hstr.
  assert (recv_complete (slice (incoming (number c)) pos n1) n1 b1 = Ok b2) as Hc.
  { destruct e as [xs|r]; apply res_bind_ok in He as (b3 & Hc & [= <- <-]); cbn in Hstr.
    - by destruct Hstr as [_ ->].
    - by rewrite slice_nil. }
  destruct (received_leads c n1 (VRecv n1 b2) (after_recv c pos) st (RecvDone c pos b1 n1))
    as (d & Hl & Hd).
  { cbn. unfold recv_done. by rewrite Hc. }
  eexists. split;
    [|exact (shows_app _ [_] d [] _ 0 _ (shows_recv c false pos (writableBytes b1) n1) Hd)].
  eapply leads_step; [done|]. eapply leads_step; [|by apply leads_wait].
  cbn. unfold recv_start. by rewrite Hs.
Qed.

Lemma write_at_nil (l : list byte) : write_at l 0 [] = Ok l.
Proof.
  unfold write_at. change (zlen (@nil byte)) with 0.
  rewrite decide_True by (pose proof (zlen_nonneg l); lia).
  rewrite slice_nil, !Z.add_0_r, Z.sub_0_r by done. by rewrite slice_all.
Qed.

Lemma recv_fixed_leads c pos slot e n touched slot' st :
  Tcp.recv_fixed wheel e slot = Ok (n, touched, slot') → from_stream c pos e →
  ∃ d, leads (Active (FixedTurn c pos slot) st) [n] d
      (Active (after_recv_fixed c pos (inl (VView n slot'))) st) ∧
    shows (number c) d [] (Nat.b2n touched).
Proof.
  unfold Tcp.recv_fixed. intros ((n1 & b2) & He & [= <- <- <-])%res_bind_ok Hstr.
  assert (write_at slot 0 (slice (incoming (number c)) pos n1) = Ok b2) as Hc.
  { destruct e as [xs|r]; cbn in Hstr.
    - apply res_bind_ok in He as (b3 & Hc & [= <- <-]). by destruct Hstr as [_ ->].
    - injection He as <- <-. rewrite slice_nil by done. apply write_at_nil. }
  destruct (received_leads c n1 (VView n1 b2) (after_recv_fixed c pos) st (RecvFixedDone c pos slot n1))
    as (d & Hl & Hd).
  { cbn. unfold recv_fixed_done. by rewrite Hc. }
  eexists. split;
    [|exact (shows_app _ [_] d [] _ 0 _ (shows_recv c true pos (u32 (zlen slot)) n1) Hd)].
  eapply leads_step; [done|]. eapply leads_step; [|by apply leads_wait]. done.
Qed.

(** The answers of the kernel to a handler that gets this input, as far as it asks. *)
Fixpoint answers (fixed : bool) (input : list (Tcp.received * list Z)) : list Z :=
  match input with
  | [] => []
  | (Stop r, _) :: _ => [r]
  | (Data xs, rs) :: input =>
      let '(tr, out) := sends fixed rs xs in
      zlen xs :: (ret <$> tr) ++
        match out with
        | Suspended => []
        | Returned s => if fixed && (s <? 0) then [] else answers fixed input
        end
  end.

(** The input is the stream of the peer, in pieces that fit, and a send takes no more
    than it is offered. *)
Fixpoint plausible (fixed : bool) (limit : Z) c (pos : Z) (input : list (Tcp.received * list Z)) : Prop :=
  match input with
  | [] => True
  | (e, rs) :: input =>
      from_stream c pos e ∧
      match e with
      | Data xs => zlen xs ≤ limit ∧ Tcp.honest (sends fixed rs xs).1 ∧
          plausible fixed limit c (pos + zlen xs) input
      | Stop _ => True
      end
  end.

(** Where the handler comes to rest: at [shutdown], if the model says it is closed, else
    at another operation. *)
Definition rests c (closed : bool) x : Prop :=
  ∃ op k st, x = Waiting op k st ∧ (op = OpShutdown c ↔ closed = true).

Definition conversation c x rs (m : res outcome) : Prop :=
  ∃ d y w k closed, m = Ok (w, k, closed) ∧ leads x rs d y ∧ shows (number c) d w k ∧
    rests c closed y.

(** A conversation goes on after a part of it. *)
Lemma conversation_after c x rs d x' rs' w k m m' :
  leads x rs d x' → shows (number c) d w k → conversation c x' rs' m →
  m' = ('(w', k', closed) ← m; Ok (w ++ w', (k + k')%nat, closed)) →
  conversation c x (rs ++ rs') m'.
Proof.
  intros Hl Hd (d' & y & w' & k' & closed & -> & Hl' & Hd' & Hr) ->.
  exists (d ++ d'), y, (w ++ w'), (k + k')%nat, closed.
  split; [done|]. split; [by eapply leads_trans|]. split; [by apply shows_app|done].
Qed.

Lemma conversation_finish c : 0 ≤ socket c →
  conversation c (Active (Finish c) []) [] (Ok ([], 0%nat, true)).
Proof.
  intros Hc. exists [], (Waiting (OpShutdown c) (λ _, Return VVoid) [after_shutdown]), [], 0%nat, true.
  split; [done|]. split; [|split; [done|by do 4 eexists]].
  eapply leads_step; [done|]. eapply leads_step; [|apply leads_refl]. cbn. unfold shutdown.
  by rewrite (proj2 (Z.ltb_ge _ _) Hc).
Qed.

Lemma conversation_waits c x rs y :
  leads x rs [] y → rests c false y → conversation c x rs (Ok ([], 0%nat, false)).
Proof. intros Hl Hr. by exists [], y, [], 0%nat, false. Qed.

(** A send, and what is said after it. *)
Lemma conversation_send c fixed data k rs tr out rs' m m' :
  zlen data < u64_mod → sends fixed rs data = (tr, out) → Tcp.honest tr →
  match out with
  | Suspended => rs' = [] ∧ m' = Ok (wire data tr, 0%nat, false)
  | Returned v =>
      conversation c (Active (k (inl (VSize v))) []) rs' m ∧
      m' = ('(w, n, closed) ← m; Ok (wire data tr ++ w, n, closed))
  end →
  conversation c (Active (Send fixed c data 0 (zlen data) 0) [k]) ((ret <$> tr) ++ rs') m'.
Proof.
  intros Hdata Hsend Hh Hout.
  destruct (send_leads fixed c data k [] rs 0 (zlen data) 0 tr out) as (d & x & Hl & Hx & Hd);
    [done|auto with coro|by destruct fixed|done|].
  destruct out as [v|]; cbn in Hx.
  - subst x. destruct Hout as [Hc ->]. apply (conversation_after _ _ _ _ _ _ _ _ _ _ Hl Hd Hc).
    by destruct m as [[[]]| | |].
  - destruct Hout as [-> ->], Hx as (f & c' & s & k' & ->).
    exists d, (Waiting (OpSend f c' s) k' [k]), (wire data tr), 0%nat, false.
    rewrite app_nil_r. split; [done|]. split; [done|]. split; [done|]. by do 4 eexists.
Qed.

Lemma conversation_turn c x d n k rs m m' y :
  leads x [n] d y → shows (number c) d [] k → conversation c y rs m →
  m' = ('(w, k', closed) ← m; Ok (w, (k + k')%nat, closed)) →
  conversation c x (n :: rs) m'.
Proof. intros Hl Hd Hm ->. by apply (conversation_after _ _ [n] _ _ _ _ _ _ _ Hl Hd Hm). Qed.

Lemma echo_conversation c input : 0 ≤ socket c → ∀ pos b,
  plausible false kMinRecvSize c pos input → drained b →
  conversation c (Active (Turn c pos b) []) (answers false input) (echo wheel input b).
Proof.
  intros Hc. induction input as [|[e rs] input IH]; intros pos b Hin Hb.
  { destruct (ensureWritableBytes_spec b (proj1 Hb) kMinRecvSize) as (b' & He & _);
      [done|by apply drained_fits|].
    eapply conversation_waits.
    - eapply leads_step; [done|]. eapply leads_step; [|apply leads_refl]. cbn.
      unfold recv_start, recv_suspend. by rewrite He.
    - by do 4 eexists. }
  destruct Hin as [Hstr Hin]. cbn [echo]. destruct e as [xs|r].
  - destruct Hin as (Hlim & Hh & Hin), Hstr as [Hx Hstr].
    destruct (recv_drained wheel b xs Hb ltac:(lia)) as (b1 & Hrecv & Hb1 & Hc1).
    destruct (recv_leads c pos b (Data xs) _ _ _ [] Hrecv) as (d & Hl & Hd); [done|].
    destruct (retrieveAllAsString_drained b1 Hb1) as (b2 & Hs & Hb2). rewrite Hc1 in Hs.
    rewrite after_recv_chunk in Hl by done.
    eapply leads_then in Hl; [|cbn; unfold send_back; by rewrite Hs].
    cbn [answers sends] in *. destruct (Tcp.send rs xs) as [tr out] eqn:Hsend.
    pose proof (conversation_send c false xs (after_send c (pos + zlen xs) b2) rs tr out) as Hgo.
    rewrite Hrecv. cbn [mbind res_bind]. rewrite (proj2 (Z.leb_gt (zlen xs) 0)) by done.
    rewrite Hs. cbn [mbind res_bind]. rewrite Hsend. destruct out as [v|].
    + eapply conversation_turn; [exact Hl|exact Hd| |].
      { eapply Hgo; [unfold kMinRecvSize in *; width_lia|done|done|].
        split; [by apply IH|done]. }
      by destruct (echo wheel input b2) as [[[]]| | |].
    + eapply conversation_turn; [exact Hl|exact Hd| |].
      { eapply (Hgo _ (Ok ([], 0%nat, true))); [unfold kMinRecvSize in *; width_lia|done|done|done]. }
      cbn. by rewrite Nat.add_0_r.
  - cbn in Hstr. destruct (recv_stop wheel b r Hb Hstr) as (b' & Hrecv).
    destruct (recv_leads c pos b (Stop r) _ _ _ [] Hrecv) as (d & Hl & Hd); [done|].
    cbn [after_recv] in Hl. rewrite (proj2 (Z.leb_le r 0) Hstr) in Hl.
    eapply conversation_turn; [exact Hl|exact Hd|by apply conversation_finish|].
    rewrite Hrecv. cbn. by rewrite (proj2 (Z.leb_le r 0) Hstr).
Qed.

Lemma fixed_conversation c input : 0 ≤ socket c → ∀ pos slot,
  zlen slot < u32_mod → plausible true (zlen slot) c pos input →
  conversation c (Active (FixedTurn c pos slot) []) (answers true input)
    (echo_fixed wheel input slot).
Proof.
  intros Hc. induction input as [|[e rs] input IH]; intros pos slot Hslot Hin.
  { eapply conversation_waits.
    - eapply leads_step; [done|]. eapply leads_step; [done|apply leads_refl].
    - by do 4 eexists. }
  destruct Hin as [Hstr Hin]. cbn [echo_fixed]. destruct e as [xs|r].
  - destruct Hin as (Hlim & Hh & Hin), Hstr as [Hx Hstr].
    destruct (write_at_ok slot 0 xs) as (slot' & Hw & Hlen & Hsl & _); [lia|lia|].
    assert (Hrecv : Tcp.recv_fixed wheel (Data xs) slot = Ok (zlen xs, touch wheel (zlen xs), slot')).
    { unfold Tcp.recv_fixed. by rewrite Hw. }
    destruct (recv_fixed_leads c pos slot (Data xs) _ _ _ [] Hrecv) as (d & Hl & Hd); [done|].
    rewrite after_recv_fixed_chunk in Hl by done.
    eapply leads_then in Hl; [|cbn; unfold send_back_fixed; rewrite Hsl; done].
    cbn [answers sends] in *. destruct (Tcp.send_fixed rs xs) as [tr out] eqn:Hsend.
    pose proof (conversation_send c true xs (after_send_fixed c (pos + zlen xs) slot') rs tr out) as Hgo.
    rewrite Hrecv. cbn [mbind res_bind]. rewrite (proj2 (Z.leb_gt (zlen xs) 0)) by done.
    rewrite Hsl, Hsend. cbn [andb] in *. destruct out as [v|].
    + cbn [after_send_fixed] in Hgo. destruct (v <? 0).
      * eapply conversation_turn; [exact Hl|exact Hd| |].
        { eapply Hgo; [width_lia|done|done|]. split; [by apply conversation_finish|done]. }
        cbn. by rewrite app_nil_r, Nat.add_0_r.
      * eapply conversation_turn; [exact Hl|exact Hd| |].
        { eapply Hgo; [width_lia|done|done|].
          split; [apply (IH (pos + zlen xs) slot'); by rewrite ?Hlen|done]. }
        by destruct (echo_fixed wheel input slot') as [[[]]| | |].
    + eapply conversation_turn; [exact Hl|exact Hd| |].
      { eapply (Hgo _ (Ok ([], 0%nat, true))); [width_lia|done|done|done]. }
      cbn. by rewrite Nat.add_0_r.
  - cbn in Hstr. assert (Hrecv : Tcp.recv_fixed wheel (Stop r) slot = Ok (r, touch wheel r, slot)) by done.
    destruct (recv_fixed_leads c pos slot (Stop r) _ _ _ [] Hrecv) as (d & Hl & Hd); [done|].
    cbn [after_recv_fixed] in Hl. rewrite (proj2 (Z.leb_le r 0) Hstr) in Hl.
    eapply conversation_turn; [exact Hl|exact Hd|by apply conversation_finish|].
    rewrite Hrecv. cbn. rewrite (proj2 (Z.leb_le r 0) Hstr). unfold touch.
    by rewrite (proj2 (Z.ltb_ge 0 r) Hstr).
Qed.
(** *** The accept coroutine *)

(** The results of the accepts that are made. *)
Fixpoint asked (turns : list (bool * Z)) : list Z :=
  match turns with
  | [] => []
  | (running, conn) :: turns =>
      if negb running then [] else conn :: if conn <? 0 then [] else asked turns
  end.

(** The calls of the accept coroutine, and the connections it spawns handlers for. *)
Definition calls_of d : list Tcp.action :=
  omap (λ o, match o.1 with
    | OpConstruct c => Some (Connect (socket c)) | OpRegister c => Some (Register (socket c))
    | _ => None end) d.
Definition is_call (a : Tcp.action) : Prop := match a with Tcp.Spawn _ => False | _ => True end.
#[local] Instance is_call_dec a : Decision (is_call a).
Proof. destruct a; cbn; apply _. Defined.
Definition spawned_fds (acts : list Tcp.action) : list Z :=
  omap (λ a, match a with Tcp.Spawn fd => Some fd | _ => None end) acts.
Definition handler_from (k : nat) (i : nat) (fd : Z) : strand :=
  Active (Handler (mkConnection (k + i) fd)) [].

Lemma handlers_from_cons k fd fds :
  imap (handler_from k) (fd :: fds) = Active (Handler (mkConnection k fd)) [] :: imap (handler_from (S k)) fds.
Proof.
  rewrite imap_cons. unfold handler_from. rewrite Nat.add_0_r. f_equal.
  apply imap_ext. intros i x _. cbn. by rewrite Nat.add_succ_r.
Qed.

Lemma accept_runs turns : ∀ k,
  (∀ i t, turns !! i = Some t → t.1 = running (k + i)) →
  ∃ d, runs next (Active (AcceptTurn k) []) (asked turns)
      (if (accept_loop wheel turns).2 then None else Some (Active (AcceptTurn (k + length turns)) []))
      d (imap (handler_from k) (spawned_fds (accept_loop wheel turns).1)) ∧
    calls_of d = filter is_call (accept_loop wheel turns).1.
Proof.
  induction turns as [|[go conn] turns IH]; intros k Hgo.
  { exists []. split; [|done]. cbn. rewrite Nat.add_0_r. constructor. }
  assert (go = running k) as ->. { specialize (Hgo 0%nat _ eq_refl). by rewrite Nat.add_0_r in Hgo. }
  destruct (IH (S k)) as (d & Hr & Hd).
  { intros i t Hi. rewrite Nat.add_succ_comm. by apply (Hgo (S i)). }
  cbn [accept_loop asked]. destruct (running k) eqn:Hk; cbn [negb].
  2: { exists []. split; [|done]. constructor. cbn. unfold accept_turn. by rewrite Hk. }
  assert (Hwait : ∀ rs y d sp, runs next (Active (Accepted k conn) []) rs y d sp →
    runs next (Active (AcceptTurn k) []) (conn :: rs) y ((OpAccept, conn) :: d) sp).
  { intros rs y d0 sp H. eapply runs_to; [cbn; unfold accept_turn; by rewrite Hk|]. by constructor. }
  destruct (conn <? 0) eqn:Hneg.
  { exists [(OpAccept, conn)]. split; [|done]. apply Hwait. constructor. cbn. unfold accept_done.
    by rewrite Hneg. }
  destruct (accept_loop wheel turns) as [acts ended]. cbn [fst snd length] in *.
  rewrite Nat.add_succ_r. change (S (k + length turns)) with (S k + length turns)%nat.
  assert (Hspawn : runs next (Active (SpawnHandler (mkConnection k conn)) []) (asked turns)
    (if ended then None else Some (Active (AcceptTurn (S k + length turns)) [])) d
    (imap (handler_from k) (conn :: spawned_fds acts))).
  { rewrite handlers_from_cons.
    by apply (RunsStep next (SpawnHandler (mkConnection k conn)) []
      [Active (Handler (mkConnection k conn)) []] (Active (AcceptTurn (S k)) []) _ _ []). }
  destruct wheel eqn:Hw; (eexists; split; [apply Hwait|]).
  - eapply runs_out; [cbn; unfold accept_done; by rewrite Hneg, Hw|].
    eapply runs_out; [done|]. exact Hspawn.
  - exact (f_equal (λ l, Connect conn :: Register conn :: l) Hd).
  - eapply runs_out; [cbn; unfold accept_done; by rewrite Hneg, Hw|]. exact Hspawn.
  - exact (f_equal (λ l, Connect conn :: l) Hd).
Qed.
(** ** Theorems *)

(** The functional model of the handler, on the path of its connection; the pieces its
    peer's data may come in. *)
Definition has_slot c : bool := bool_decide (is_Some (slots (number c))).
Definition model c (input : list (Tcp.received * list Z)) : res outcome :=
  match slots (number c) with
  | Some slot => echo_fixed wheel input slot
  | None => b ← new_Buffer kInitialSize; echo wheel input b
  end.
Definition piece c : Z := match slots (number c) with Some slot => zlen slot | None => kMinRecvSize end.

Lemma handler_conversation c input :
  0 ≤ socket c → (∀ slot, slots (number c) = Some slot → zlen slot < u32_mod) →
  plausible (has_slot c) (piece c) c 0 input →
  ∃ d x w n closed, model c input = Ok (w, n, closed) ∧ shows (number c) d w n ∧ rests c closed x ∧
    runs next (Active (Handler c) []) (answers (has_slot c) input) (Some x) d [].
Proof.
  intros Hc Hs. unfold has_slot, model, piece.
  assert (Hstart : ∀ fixed l m,
    Handlers.handler slots c = next l → conversation c (Active l []) (answers fixed input) m →
    ∃ d x w n closed, m = Ok (w, n, closed) ∧ shows (number c) d w n ∧ rests c closed x ∧
      runs next (Active (Handler c) []) (answers fixed input) (Some x) d []).
  { intros fixed l m Heq (d & x & w & n & closed & -> & Hl & Hd & op & k & st & -> & Hop).
    exists d, (Waiting op k st), w, n, closed. do 2 (split; [done|]). split; [by do 4 eexists|].
    eapply runs_alike; [|done|by apply leads_runs]. cbn. by rewrite Heq. }
  destruct (slots (number c)) as [slot|] eqn:Hslot; cbn; intros Hin.
  - eapply Hstart; [|apply fixed_conversation; eauto]. unfold handler. by rewrite Hslot.
  - destruct (new_Buffer_spec kInitialSize) as (b & Hnew & Hb & Hcont & Hw & _);
      [by vm_compute|by vm_compute|].
    rewrite Hnew. eapply Hstart; [|by apply echo_conversation]. unfold handler. by rewrite Hslot, Hnew.
Qed.

(** C11: The handler, run as a coroutine with the coroutines of its connection that it
    awaits, is the functional model of it: given what its peer sends in any pieces that
    fit, and any results of its sends, it makes the operations the model expects, puts
    the same bytes on the wire, refreshes its idle entry as often, and it waits for
    [shutdown] exactly when the model says that it has closed.  Nor can it do anything
    else on these results. *)
Theorem handler_is_echo (c : connection) (input : list (Tcp.received * list Z)) :
  0 ≤ socket c → (∀ slot, slots (number c) = Some slot → zlen slot < u32_mod) →
  plausible (has_slot c) (piece c) c 0 input →
  ∃ d op k st w n closed,
    model c input = Ok (w, n, closed) ∧
    bytes_out (number c) d = w ∧ refreshes (number c) d = n ∧
    (op = OpShutdown c ↔ closed = true) ∧
    ∀ y d' sp, at_rest y →
      runs next (Active (Handler c) []) (answers (has_slot c) input) y d' sp ↔
      y = Some (Waiting op k st) ∧ d' = d ∧ sp = [].
Proof.
  intros Hc Hs Hin. destruct (handler_conversation c input Hc Hs Hin)
    as (d & x & w & n & closed & Hm & [Hw Hn] & (op & k & st & -> & Hop) & Hruns).
  exists d, op, k, st, w, n, closed. do 4 (split; [done|]). intros y d' sp Hy.
  split; [|by intros (-> & -> & ->)].
  intros Hr. by destruct (runs_deterministic next _ _ _ _ _ _ _ _ Hr Hruns Hy) as (-> & -> & ->).
Qed.

(** The accept coroutine is the accept loop: on the same values of [running_] and
    the same results of the accepts, it constructs and registers the connections and
    spawns the handlers the loop says, in that order, and it has returned exactly when
    the loop has ended. *)
Theorem accept_is_loop (turns : list (bool * Z)) (k : nat) acts ended :
  (∀ i t, turns !! i = Some t → t.1 = running (k + i)) →
  accept_loop wheel turns = (acts, ended) →
  ∃ d, calls_of d = filter is_call acts ∧
    runs next (Active (AcceptTurn k) []) (asked turns)
      (if ended then None else Some (Active (AcceptTurn (k + length turns)) [])) d
      (imap (λ i fd, Active (Handler (mkConnection (k + i) fd)) []) (spawned_fds acts)).
Proof.
  intros Hgo Hloop. destruct (accept_runs turns k Hgo) as (d & Hr & Hd).
  rewrite Hloop in Hr, Hd. by exists d.
Qed.
End conversation.

(** ** Examples *)

Module ConversationDemo.
(** The second connection has a slot of 8 bytes. *)
Definition slots (n : nat) : option (list byte) :=
  if decide (n = 1%nat) then Some (replicate 8 x00) else None.
Definition incoming (n : nat) : list byte := [x61; x62; x63; x64].
(** The flag is cleared after two connections. *)
Definition running (k : nat) : bool := (k <? 2)%nat.
(** Two pieces; the answer to the first takes two sends; then the end. *)
Definition input : list (Tcp.received * list Z) :=
  [(Data [x61; x62; x63], [2; 1]); (Data [x64], [1]); (Stop 0, [])].

Lemma input_plausible : plausible incoming true 8 (mkConnection 1 5) 0 input.
Proof.
  assert (Tcp.honest (sends true [2; 1] [x61; x62; x63]).1) by (vm_compute; repeat constructor; intros [=]).
  assert (Tcp.honest (sends true [1] [x64]).1) by (vm_compute; repeat constructor; intros [=]).
  by split_and!.
Qed.

(** The model on it: everything comes back, two refreshes, and the handler has closed. *)
Example model_input : model true slots (mkConnection 1 5) input = Ok (incoming 1, 2%nat, true).
Proof. vm_compute. reflexivity. Qed.
Definition body := Handlers.next true slots incoming running running (λ _, []).
End ConversationDemo.

Lemma handler_is_echo_witness :
  ∃ d op k st w n closed,
    model true ConversationDemo.slots (mkConnection 1 5) ConversationDemo.input = Ok (w, n, closed) ∧
    bytes_out 1 d = w ∧ refreshes 1 d = n ∧ (op = OpShutdown (mkConnection 1 5) ↔ closed = true) ∧
    ∀ y d' sp, at_rest y →
      runs ConversationDemo.body
        (Active (Handler (mkConnection 1 5)) []) (answers true ConversationDemo.input) y d' sp ↔
      y = Some (Waiting op k st) ∧ d' = d ∧ sp = [].
Proof.
  apply (handler_is_echo true ConversationDemo.slots ConversationDemo.incoming ConversationDemo.running
    ConversationDemo.running (λ _, []) (mkConnection 1 5) ConversationDemo.input).
  - done.
  - intros slot [= <-]. by vm_compute.
  - exact ConversationDemo.input_plausible.
Defined.

Lemma accept_is_loop_witness :
  ∃ d, calls_of d = [Connect 9; Register 9; Connect 12; Register 12] ∧
    runs ConversationDemo.body
      (Active (AcceptTurn 0) []) [9; 12] None d
      [Active (Handler (mkConnection 0 9)) []; Active (Handler (mkConnection 1 12)) []].
Proof.
  apply (accept_is_loop true ConversationDemo.slots ConversationDemo.incoming ConversationDemo.running
    ConversationDemo.running (λ _, [])
    [(true, 9); (true, 12); (false, 0)] 0
    [Connect 9; Register 9; Tcp.Spawn 9; Connect 12; Register 12; Tcp.Spawn 12] true).
  - intros [|[|[|i]]] t [= <-]; reflexivity.
  - reflexivity.
Defined.
