(* ===== verification/EchoMain.v ===== *)
(** * EchoMain: from the command line to the settings of the server

    Models the beginning of [main] in [example/echo_server.cc]: the two arguments, the
    five environment variables, and the setters of [TcpServer] called with them.
    [std::stoi] is modelled as the C++ standard describes it, for base 10; an
    exception leaves [main] and ends the process. *)
From Stdlib Require Import Ascii String.
From S2P Require Import Prelude LogStream Ring Server EchoServer.

Definition INT_MAX : Z := 2 ^ 31 - 1.
Definition INT_MIN : Z := - 2 ^ 31.

(** The exceptions of [std::stoi]. *)
Inductive stoi_error : Type := InvalidArgument | OutOfRange.

Definition stoi (s : list ascii) : Z + stoi_error :=
  match scan s with
  | None => inr InvalidArgument
  | Some (n, _) =>
      if (INT_MIN <=? n) && (n <=? INT_MAX) then inl n else inr OutOfRange
  end.

(** [argv[1]], [argv[2]] and the results of [getenv]. *)
Record command := mkCommand {
  arg_port : option (list ascii);
  arg_threads : option (list ascii);
  CORO_SQPOLL_THREADS : option (list ascii);
  CORO_FIXED_BUFFERS : option (list ascii);
  CORO_BUF_CAPACITY : option (list ascii);
  CORO_BUF_SLOT_SIZE : option (list ascii);
  CORO_SQPOLL_CPUS : option (list ascii);
}.

(** [argc > k ? std::stoi(argv[k]) : dflt]. *)
Definition argument (a : option (list ascii)) (dflt : Z) : Z + stoi_error :=
  match a with Some s => stoi s | None => inl dflt end.

(** What [main] gets for the port and for the settings; [cpus] is the result of
    [sqpoll_cpus]. *)
Definition main_server (c : command) (port nthr : Z) (cpus : list Z) : Z * settings :=
  let sqpoll_m := env_u (CORO_SQPOLL_THREADS c) 4 in
  let fixed := negb (env_u (CORO_FIXED_BUFFERS c) 1 =? 0) in
  let buf_cap := env_u (CORO_BUF_CAPACITY c) 0 in
  let slot_sz := env_u (CORO_BUF_SLOT_SIZE c) (16 * 1024) in
  (port mod 2 ^ 16,
   set_fixed_buffers fixed slot_sz buf_cap
     (set_sqpoll_cpus cpus
        (set_sqpoll_threads sqpoll_m (new_settings (u64 nthr))))).

Definition main_settings (c : command) : option ((Z * settings) + stoi_error) :=
  match argument (arg_port c) 8002 with
  | inr e => Some (inr e)
  | inl port =>
      match argument (arg_threads c) 4 with
      | inr e => Some (inr e)
      | inl nthr =>
          cpus ← sqpoll_cpus (CORO_SQPOLL_CPUS c);
          Some (inl (main_server c port nthr cpus))
      end
  end.

(** ** Lemmas *)

Lemma stoi_show n l :
  0 ≤ n < 2 ^ 64 → convert n = Some l →
  stoi l = if n <=? INT_MAX then inl n else inr OutOfRange.
Proof.
  intros Hn Hl. destruct (convert_decimal n Hn) as (l' & Hl' & Hne & Hdig & Hread).
  assert (l' = l) as -> by congruence.
  pose proof (scan_decimal l [] n Hne Hdig Hread ltac:(done)) as Hs. rewrite app_nil_r in Hs.
  unfold stoi. rewrite Hs, (proj2 (Z.leb_le INT_MIN n)) by (unfold INT_MIN; lia). done.
Qed.

Lemma stoi_show_negative n l :
  0 ≤ n < 2 ^ 64 → convert n = Some l →
  stoi (ch "-" :: l) = if INT_MIN <=? - n then inl (- n) else inr OutOfRange.
Proof.
  intros Hn Hl. destruct (convert_decimal n Hn) as (l' & Hl' & Hne & Hdig & Hread).
  assert (l' = l) as -> by congruence.
  unfold stoi. rewrite (scan_negative l n Hne Hdig Hread).
  by rewrite (proj2 (Z.leb_le (- n) INT_MAX)), andb_true_r by (unfold INT_MAX; lia).
Qed.

Lemma env_u_show n dflt : 0 ≤ n < 2 ^ 32 → env_u (convert n) dflt = n.
Proof.
  intros Hn. destruct (convert_decimal n) as (l & Hl & Hne & Hdig & Hread); [lia|].
  pose proof (scan_decimal l [] n Hne Hdig Hread ltac:(done)) as Hs. rewrite app_nil_r in Hs.
  rewrite Hl. destruct l as [|x l]; [done|]. unfold env_u, strtoul. rewrite Hs.
  rewrite (proj2 (Z.ltb_ge _ _)) by (unfold ULONG_MAX; lia). unfold u32, u64.
  rewrite u32_mod_val, u64_mod_val, !Z.mod_small by (rewrite ?Z.mod_small; lia). done.
Qed.

(** ** Properties *)

(** C37: Every configuration can be given on the command line: numbers written in
    decimal and processors separated by commas reach the settings of the server
    unchanged, and what is not given has its default.  Whatever the text of the
    variables, [main] gets to the server unless an argument is no number or does not
    fit an [int]. *)
Theorem main_settings_roundtrip port nthr m cap slot (fixed : bool) cpus :
  0 ≤ port < 2 ^ 16 → 0 < nthr < 2 ^ 31 → 0 ≤ m < 2 ^ 32 → 0 ≤ cap < 2 ^ 32 →
  0 ≤ slot < 2 ^ 32 → Forall (λ c, 0 ≤ c < 2 ^ 31) cpus →
  main_settings (mkCommand (convert port) (convert nthr) (convert m) (convert (Z.b2z fixed)) (convert cap)
    (convert slot) (Some (show_cpus cpus))) =
    Some (inl (port, mkSettings nthr m cpus fixed slot cap)) ∧
  main_settings (mkCommand None None None None None None None) =
    Some (inl (8002, mkSettings 4 4 [] true (16 * 1024) 0)) ∧
  (∀ c, ∃ r, main_settings c = Some r).
Proof.
  intros Hp Hn Hm Hcap Hslot Hcpus.
  assert (Hstoi : ∀ n dflt, 0 ≤ n < 2 ^ 31 → argument (convert n) dflt = inl n).
  { intros n dflt ?. destruct (convert_decimal n) as (l & Hl & _); [lia|].
    unfold argument.  rewrite Hl.
    rewrite (stoi_show n l) by (done || lia).
    by rewrite (proj2 (Z.leb_le n INT_MAX)) by (unfold INT_MAX; lia). }
  split_and!.
  - unfold main_settings. cbn [arg_port arg_threads CORO_SQPOLL_CPUS].
    rewrite !Hstoi, sqpoll_cpus_show by (done || lia). cbn [mbind option_bind].
    unfold main_server.
    cbn [CORO_SQPOLL_THREADS CORO_FIXED_BUFFERS CORO_BUF_CAPACITY CORO_BUF_SLOT_SIZE].
    rewrite !env_u_show by (destruct fixed; cbn; lia).
    unfold new_settings, u64. rewrite u64_mod_val, !Z.mod_small by lia.
    rewrite (proj2 (Z.eqb_neq nthr 0)) by lia. by destruct fixed.
  - reflexivity.
  - intros c. unfold main_settings. destruct (argument _ _); [|by eexists].
    destruct (argument _ _); [|by eexists].
    destruct (sqpoll_cpus_total (CORO_SQPOLL_CPUS c)) as [l ->]. by eexists.
Qed.

(** An argument out of range is not refused as long as it fits an [int]: the port is
    taken modulo 2^16, and a negative number of threads becomes a huge one. *)
Theorem main_accepts_out_of_range port nthr lp ln c :
  0 ≤ port ≤ INT_MAX → 0 < nthr ≤ 2 ^ 31 → convert port = Some lp → convert nthr = Some ln →
  arg_port c = Some lp → arg_threads c = Some (ch "-" :: ln) →
  ∃ s, main_settings c = Some (inl (port mod 2 ^ 16, s)) ∧
    worker_threads_ s = 2 ^ 64 - nthr.
Proof.
  intros Hp Hn Hlp Hln Hcp Hcn. unfold main_settings, argument, INT_MAX in *.
  rewrite Hcp, Hcn, (stoi_show port lp), (stoi_show_negative nthr ln) by (done || lia).
  rewrite (proj2 (Z.leb_le port INT_MAX)), (proj2 (Z.leb_le INT_MIN (- nthr)))
    by (unfold INT_MAX, INT_MIN; lia).
  destruct (sqpoll_cpus_total (CORO_SQPOLL_CPUS c)) as [l ->]. cbn [mbind option_bind].
  eexists. split; [reflexivity|]. cbn. unfold u64. rewrite u64_mod_val.
  rewrite <-(Z_mod_plus_full (- nthr) 1), Z.mod_small by lia.
  rewrite (proj2 (Z.eqb_neq _ 0)); lia.
Qed.

(** ** Witnesses *)

Module Demo.
Definition given : command :=
  mkCommand (convert 9000) (convert 2) (convert 1) (convert 1) (convert 512) (convert 8192)
    (Some (show_cpus [13; 14])).
End Demo.

Lemma main_settings_roundtrip_witness :
  main_settings Demo.given = Some (inl (9000, mkSettings 2 1 [13; 14] true 8192 512)).
Proof.
  destruct (main_settings_roundtrip 9000 2 1 512 8192 true [13; 14]) as [H _];
    [lia..|repeat constructor; lia|exact H].
Defined.
