(* ===== verification/MainLog.v ===== *)
(** * MainLog: what the main thread of the echo server logs

    Composes [EchoMain], [LogStream] and [AsyncLogger] along the life of [main] in
    [example/echo_server.cc]: [init_logger], the line with the settings, whatever the
    server logs on this thread, the line "exited", [shutdown_logger]
    ([include/coro_net/log.hpp]).  The thread goes through the calls of the logger step
    by step while the workers log on and the back end runs.  Before "exited" it is in
    [server.wait()], which returns once every worker has left [run]: that is an event
    here ([Signals.v] says when it happens).  The level is the default one, at which
    [LOG_INFO] logs. *)
From Stdlib Require Import Ascii String.
From S2P Require Import Prelude Interfaces EchoServer EchoMain LogStream LogFile AsyncLogger Fatal.

(** ** The lines *)

(** [cpus_str]; [std::to_string] prints the digits that [LogStream] prints. *)
Definition cpus_str (cpus : list Z) : text :=
  foldl (λ s c, s ++ default [] (convert c) ++ lit " ") [] cpus.

Definition listen_message {F} (c : command) (port nthr : Z) (cpus : list Z) : list (@item F) :=
  let sqpoll_m := env_u (CORO_SQPOLL_THREADS c) 4 in
  let fixed := negb (env_u (CORO_FIXED_BUFFERS c) 1 =? 0) in
  let buf_cap := env_u (CORO_BUF_CAPACITY c) 0 in
  let slot_sz := env_u (CORO_BUF_SLOT_SIZE c) (16 * 1024) in
  [ICString (Some (lit "listen :")); IInteger (port mod 2 ^ 16); ICString (Some (lit " workers="));
   IInteger nthr; ICString (Some (lit " sqpoll_threads=")); IInteger sqpoll_m;
   ICString (Some (lit " sqpoll_cpus=[")); IString (cpus_str cpus); ICString (Some (lit "]"));
   ICString (Some (lit " fixed_buffers=")); IInteger (if fixed then 1 else 0);
   ICString (Some (lit " buf_capacity=")); IInteger buf_cap; ICString (Some (lit " slot_size="));
   IInteger slot_sz].

(** [main] up to this line; an exception of [std::stoi] leaves it. *)
Definition main_message {F} (c : command) : option (list (@item F) + stoi_error) :=
  match argument (arg_port c) 8002, argument (arg_threads c) 4 with
  | inr e, _ | _, inr e => Some (inr e)
  | inl port, inl nthr =>
      cpus ← sqpoll_cpus (CORO_SQPOLL_CPUS c); Some (inl (listen_message c port nthr cpus))
  end.

Definition exited_message {F} : list (@item F) := [ICString (Some (lit "exited"))].

(** ** The thread *)

Section main_thread.
Context {S : Type} `{LogSink S} (new_sink : S).

Definition init_logger (s : @logger S) : option logger := exec new_sink EvInit s.
(** Its first step; the notification and the join follow. *)
Definition shutdown_logger (s : @logger S) : option logger := exec new_sink EvShutdown s.

(** What [main] has still to do before [shutdown_logger]: log a line, or [server.wait()]. *)
Inductive job : Type :=
  | JLog (line : text)
  | JWait.
Definition line_of (j : job) : list text := match j with JLog line => [line] | JWait => [] end.

Inductive main_at : Type :=
  | MInit        (* about to call [init_logger] *)
  | MCall        (* about to call [append] for the next line, in [wait], or about to call
                    [shutdown_logger] *)
  | MCheck       (* in [append], about to load [started_] *)
  | MAppend      (* about to lock [mutex_] *)
  | MNotify
  | MJoin
  | MReturned.

(** [place]: the place of the thread among those in [append]. *)
Record main_thread := mkMainThread {
  doing : main_at;
  place : nat;
  todo : list job;
  ended : bool;        (* the threads of the workers have ended *)
  log_ : @logger S;
}.

Definition go (p : main_thread) (d : main_at) (k : nat) (js : list job) (s : logger) : main_thread :=
  mkMainThread d k js (ended p) s.

Definition main_own (p : main_thread) : option main_thread :=
  let s := log_ p in
  match doing p, todo p with
  | MInit, js => s' ← init_logger s; Some (go p MCall 0 js s')
  | MCall, JLog line :: js =>
      s' ← exec new_sink (EvCall line) s;
      Some (if terminating_ s then go p MCall 0 js s'
            else go p MCheck (List.length (checking s)) (JLog line :: js) s')
  | MCall, JWait :: js => if ended p then Some (go p MCall 0 js s) else None
  | MCall, [] =>
      s' ← shutdown_logger s; Some (go p (if running_ s then MNotify else MReturned) 0 [] s')
  | MCheck, js =>
      s' ← exec new_sink (EvCheck (place p)) s;
      Some (if started_ s then go p MAppend (List.length (pending s)) js s'
            else go p MCall 0 (tail js) s')
  | MAppend, js => s' ← exec new_sink (EvAppend (place p)) s; Some (go p MCall 0 (tail js) s')
  | MNotify, js => s' ← exec new_sink EvNotifyAll s; Some (go p MJoin 0 js s')
  | MJoin, js => s' ← exec new_sink EvJoined s; Some (go p MReturned 0 js s')
  | MReturned, _ => None
  end.

(** A step of a worker or of the back end; there are none before [init_logger]. *)
Definition main_other (e : event) (p : main_thread) : option main_thread :=
  s' ← exec new_sink e (log_ p);
  match e, doing p with
  | _, MInit | _, MReturned => None
  | EvCheck i, MCheck => k ← shift i (place p); Some (mkMainThread MCheck k (todo p) (ended p) s')
  | EvAppend i, MAppend => k ← shift i (place p); Some (mkMainThread MAppend k (todo p) (ended p) s')
  | (EvCall _ | EvCheck _ | EvAppend _ | EvBackend), f =>
      Some (mkMainThread f (place p) (todo p) (ended p) s')
  | _, _ => None
  end.

Inductive main_event : Type :=
  | MnOwn
  | MnOther (e : event)
  | MnEnd.             (* the last worker leaves [run] *)

Definition main_exec (e : main_event) (p : main_thread) : option main_thread :=
  match e with
  | MnOwn => main_own p
  | MnOther e => main_other e p
  | MnEnd => Some (mkMainThread (doing p) (place p) (todo p) true (log_ p))
  end.

Fixpoint main_run (es : list main_event) (p : main_thread) : option main_thread :=
  match es with
  | [] => Some p
  | e :: es => p ← main_exec e p; main_run es p
  end.

Definition main_starts (js : list job) : main_thread := mkMainThread MInit 0 js false new_logger.
(** [main]: the line with the settings, the lines of [server.start()], [server.wait()],
    the line "exited". *)
Definition main_jobs (listen : text) (during : list text) (exited : text) : list job :=
  JLog listen :: (JLog <$> during) ++ [JWait; JLog exited].
End main_thread.

(** ** The lines are complete *)

Section texts.
Context {F : Type} (format_g : F → text).
Hypothesis format_g_short : ∀ v, zlen (format_g v) < kMaxNumericSize.
Abbreviation int_range := (λ c, - 2 ^ 31 ≤ c < 2 ^ 31).

Lemma numeral_short v : - 2 ^ 63 ≤ v < 2 ^ 64 → zlen (default [] (convert v)) ≤ 21.
Proof. intros Hv. by destruct (convert_ok v Hv) as (l & -> & ? & _). Qed.

Lemma cpus_str_short cpus : Forall int_range cpus → zlen (cpus_str cpus) ≤ 22 * zlen cpus.
Proof.
  unfold cpus_str. induction cpus as [|c cpus IH] using rev_ind; [done|].
  intros [Hall Hc]%Forall_app. apply Forall_cons in Hc as [Hc _].
  rewrite foldl_app. cbn [foldl]. rewrite !zlen_app.
  pose proof (numeral_short c ltac:(lia)). specialize (IH Hall).
  change (zlen (lit " ")) with 1. change (zlen [c]) with 1. lia.
Qed.

Lemma cpus_loop_ints fuel : ∀ q acc l, Forall int_range acc → cpus_loop fuel q acc = Some l → Forall int_range l.
Proof.
  induction fuel as [|fuel IH]; intros q acc l Hacc; destruct q as [|x q]; cbn [cpus_loop];
    try done; try (by intros [= <-]).
  destruct (strtol (x :: q)) as [c rest]. destruct (_ =? _)%nat; [by intros [= <-]|]. apply IH.
  destruct (0 <=? c); [|done]. apply Forall_app. split; [done|]. apply Forall_cons. split; [|done].
  unfold int_cast. pose proof (Z.mod_pos_bound (c + 2 ^ 31) (2 ^ 32)). lia.
Qed.

Lemma sqpoll_cpus_ints v l : sqpoll_cpus v = Some l → Forall int_range l.
Proof.
  unfold sqpoll_cpus. destruct v as [[|x v]|]; [by intros [= <-]| |by intros [= <-]].
  case_decide; [by intros [= <-]|]. by apply cpus_loop_ints.
Qed.

Lemma env_u_range v d : 0 ≤ d < 2 ^ 32 → 0 ≤ env_u v d < 2 ^ 32.
Proof.
  intros Hd. unfold env_u. destruct v as [[|x v]|]; [done| |done].
  destruct (strtoul (x :: v)) as [r [|y e]]; [|done]. unfold u32. rewrite u32_mod_val.
  pose proof (Z.mod_pos_bound r 4294967296). lia.
Qed.

Lemma argument_range a d n : int_range d → argument a d = inl n → int_range n.
Proof.
  intros Hd. unfold argument, stoi. destruct a as [a|]; [|by intros [= <-]].
  destruct (scan a) as [[m r]|]; [|done]. destruct (_ && _) eqn:Hb; [|done]. intros [= <-].
  apply andb_true_iff in Hb as [Hlo Hhi]. unfold INT_MIN, INT_MAX in *. lia.
Qed.

Lemma main_message_ok c msg cpus :
  main_message (F:=F) c = Some (inl msg) → sqpoll_cpus (CORO_SQPOLL_CPUS c) = Some cpus →
  Forall valid_item msg ∧ zlen (mjoin (rendered format_g <$> msg)) ≤ 240 + 22 * zlen cpus.
Proof.
  unfold main_message. destruct (argument (arg_port c) 8002) as [port|] eqn:Hp; [|done].
  destruct (argument (arg_threads c) 4) as [nthr|] eqn:Hn; [|done].
  intros Hmsg Hcpus. rewrite Hcpus in Hmsg. injection Hmsg as <-.
  apply argument_range in Hp; [|lia]. apply argument_range in Hn; [|lia].
  pose proof (cpus_str_short _ (sqpoll_cpus_ints _ _ Hcpus)) as Hc.
  pose proof (Z.mod_pos_bound port (2 ^ 16) ltac:(lia)) as Hpm.
  pose proof (env_u_range (CORO_SQPOLL_THREADS c) 4 ltac:(lia)) as H1.
  pose proof (env_u_range (CORO_BUF_CAPACITY c) 0 ltac:(lia)) as H2.
  pose proof (env_u_range (CORO_BUF_SLOT_SIZE c) (16 * 1024) ltac:(lia)) as H3.
  set (fx := if negb (env_u (CORO_FIXED_BUFFERS c) 1 =? 0) then 1 else 0).
  assert (Hfx : 0 ≤ fx ≤ 1) by (unfold fx; destruct (negb _); lia).
  assert (Hlen : ∀ v, - 2 ^ 63 ≤ v < 2 ^ 64 → zlen (default [] (convert v)) ≤ 21) by apply numeral_short.
  unfold listen_message. fold fx. split.
  - repeat constructor; cbn; lia.
  - cbn [fmap list_fmap rendered mjoin list_join]. rewrite !zlen_app.
    pose proof (Hlen (port mod 2 ^ 16) ltac:(lia)). pose proof (Hlen nthr ltac:(lia)).
    pose proof (Hlen (env_u (CORO_SQPOLL_THREADS c) 4) ltac:(lia)).
    pose proof (Hlen (env_u (CORO_BUF_CAPACITY c) 0) ltac:(lia)).
    pose proof (Hlen (env_u (CORO_BUF_SLOT_SIZE c) (16 * 1024)) ltac:(lia)).
    pose proof (Hlen fx ltac:(lia)).
    change (zlen (lit "listen :")) with 8. change (zlen (lit " workers=")) with 9.
    change (zlen (lit " sqpoll_threads=")) with 16. change (zlen (lit " sqpoll_cpus=[")) with 14.
    change (zlen (lit "]")) with 1. change (zlen (lit " fixed_buffers=")) with 15.
    change (zlen (lit " buf_capacity=")) with 14. change (zlen (lit " slot_size=")) with 11.
    change (zlen (@nil Ascii.ascii)) with 0. lia.
Qed.

(** A line of [main] with a short time stamp and thread. *)
Lemma main_line_exact ts tid file n msg : zlen ts ≤ 32 → zlen tid ≤ 16 → 0 ≤ n < 1000 →
  SourceFile file = lit "echo_server.cc" → Forall valid_item msg →
  ∃ l, log format_g (Plain 2) file n ts tid msg = Ok (l, false) ∧ zlen l ≤ 4000 ∧
    (zlen (mjoin (rendered format_g <$> msg)) ≤ 3700 → l = full_line format_g ts tid (Plain 2) msg file n).
Proof.
  intros Hts Htid Hn Hfile Hmsg.
  destruct (log_exact format_g format_g_short ts tid (Plain 2) msg file n Hmsg I ltac:(lia)) as (l & Hl & Hle & Hfull).
  exists l. split; [done|]. split; [done|]. intros Hlen. apply Hfull. unfold full_line, prefix, suffix.
  rewrite Hfile, !zlen_app, log_level_name_length. pose proof (numeral_short n ltac:(lia)).
  change (zlen (lit " ")) with 1. change (zlen (mjoin (rendered format_g <$> ctor_items (Plain 2)))) with 0.
  change (zlen (lit " - ")) with 3. change (zlen (lit "echo_server.cc")) with 14. change (zlen (lit ":")) with 1.
  change (zlen [newline]) with 1. lia.
Qed.
End texts.

(** ** Lemmas *)

Section kept_lines.
Context {S : Type} `{LogSink S} (new_sink : S).
Hypothesis new_sink_ok : sink_ok new_sink.
Hypothesis new_sink_text : sink_text new_sink = [].
Implicit Types s : @logger S.
Implicit Types p : @main_thread S.

(** No step of another thread overwrites buffers. *)
Lemma lost_append line s : lost (AsyncLogger.append line s) = lost s.
Proof.
  unfold AsyncLogger.append. destruct (current_ s) as [c|]; [|done].
  by destruct (zlen line <? avail c), (next_ s).
Qed.

Lemma lost_backend s s' : backend_step s = Some s' → lost s' = lost s.
Proof.
  unfold backend_step. destruct (thread_ s) as [t|]; [|done]. cbn [mbind option_bind].
  assert (Hfill : lost (fill t s) = lost s) by (unfold fill; by destruct (next_ s)).
  destruct (pt t); try done; try by intros [= <-].
  - destruct (buffers_ s); by intros [= <-].
  - unfold write_out. intros (out & _ & Hw)%bind_Some. apply bind_Some in Hw as (o & _ & Hw).
    set (s1 := if (25 <? _)%nat then _ else s) in Hw.
    assert (Hs1 : lost s1 = lost s) by (unfold s1; by destruct (_ <? _)%nat).
    clearbody s1. repeat case_match; simplify_eq; done.
  - intros [= <-]. unfold final. destruct (current_ s) as [c|]; [destruct (0 <? length_ c)|]; done.
  - unfold drain. intros (o & _ & Hw)%bind_Some. destruct o; by injection Hw as <-.
Qed.

Definition of_worker (e : event) : bool :=
  match e with EvCall _ | EvCheck _ | EvAppend _ | EvBackend => true | _ => false end.

Lemma lost_exec e s s' : of_worker e = true → exec new_sink e s = Some s' → lost s' = lost s.
Proof.
  unfold exec. destruct (crashed s); [done|]. destruct e; try done; intros _ Hex.
  - destruct (_ <=? _); [|done]. injection Hex as <-. unfold call. by destruct (terminating_ s).
  - apply bind_Some in Hex as (line & _ & [= <-]). unfold check_started. by destruct (negb (started_ s)).
  - apply bind_Some in Hex as (line & _ & [= <-]). unfold append_at. by rewrite lost_append.
  - by apply lost_backend.
Qed.

(** A logger that has been started once and that nobody stops. *)
Record serving s : Prop := {
  v_owner : owner s = OIdle;
  v_term : terminating_ s = false;
  v_started : started_ s = true;
  v_running : running_ s = true;
}.

(** What has become of the lines so far. *)
Definition logged (js : list job) p : Prop :=
  let s := log_ p in
  ∃ written, (js ≫= line_of) = written ++ (todo p ≫= line_of) ∧ (JWait ∈ js → ended p = true ∨ JWait ∈ todo p) ∧
  match doing p with
  | MInit => s = new_logger ∧ written = []
  | MCall => serving s ∧ written `sublist_of` appended s
  | MCheck => serving s ∧ written `sublist_of` appended s ∧
      ∃ line, head (todo p) = Some (JLog line) ∧ checking s !! place p = Some line
  | MAppend => serving s ∧ written `sublist_of` appended s ∧
      ∃ line, head (todo p) = Some (JLog line) ∧ pending s !! place p = Some line
  | MNotify => todo p = [] ∧ owner s = ONotify true ∧ started_ s = true ∧ running_ s = false ∧ is_Some (thread_ s) ∧
      written `sublist_of` at_stop s
  | MJoin => todo p = [] ∧ owner s = OJoin true ∧ started_ s = true ∧ running_ s = false ∧ is_Some (thread_ s) ∧
      written `sublist_of` at_stop s
  | MReturned => todo p = [] ∧
      (dropped s = 0%nat → ∃ ls, written `sublist_of` ls ∧ mjoin ls `prefix_of` mjoin (sink_disk <$> past s))
  end.
Definition main_inv (js : list job) p : Prop :=
  reachable new_sink (log_ p) ∧ mjoin (lost (log_ p)) = [] ∧ logged js p.

Lemma sublist_prefix {A} (l k k' : list A) : l `sublist_of` k → k `prefix_of` k' → l `sublist_of` k'.
Proof. intros Hl [m ->]. by apply sublist_inserts_r. Qed.

Lemma main_other_shape e p p' :
  main_other new_sink e p = Some p' →
  of_worker e = true ∧ exec new_sink e (log_ p) = Some (log_ p') ∧ doing p' = doing p ∧
  todo p' = todo p ∧ ended p' = ended p ∧ doing p ≠ MInit ∧ doing p ≠ MReturned ∧
  match e, doing p with
  | EvCheck i, MCheck | EvAppend i, MAppend => shift i (place p) = Some (place p')
  | _, _ => place p' = place p
  end.
Proof.
  unfold main_other. intros (s' & Hex & Hstep)%bind_Some.
  destruct e, (doing p); try done; try (by injection Hstep as <-);
    apply bind_Some in Hstep as (k & ? & [= <-]); done.
Qed.

Lemma serving_kept s s' : kept s s' → serving s → serving s'.
Proof.
  intros [Ho Hte _ _ _ Hst _ _] [H1 H2 H3 H4]. destruct (Hst H3). split; congruence.
Qed.

Lemma main_other_inv js e p p' : main_inv js p → main_other new_sink e p = Some p' → main_inv js p'.
Proof.
  intros (Hr & Hlo & w & Hw & Hwt & Hp) Hstep.
  destruct (main_other_shape e p p' Hstep) as (Hof & Hex & Hat & Htodo & Hend & Hni & Hnr & Hmine).
  assert (Hh : harmless e = true) by by destruct e.
  split; [by eapply logger_reachable_exec|]. rewrite (lost_exec _ _ _ Hof Hex). split; [done|].
  exists w. rewrite Htodo, Hat, Hend. do 2 (split; [done|]).
  pose proof (kept_exec _ _ _ _ Hh Hex) as Hk. pose proof Hk as [Ho Hte Has _ Hap Hst _ Hth].
  pose proof (queues_exec _ _ _ _ Hh Hex) as Hq.
  destruct (doing p) eqn:Hf; try done.
  - destruct Hp as (? & ?). split; [by eapply serving_kept|by eapply sublist_prefix].
  - destruct Hp as (? & ? & line & ? & Hl). split; [by eapply serving_kept|]. split; [by eapply sublist_prefix|].
    exists line. split; [done|]. destruct e; try done; rewrite ?Hmine;
      try (destruct Hq as [Hq _]); rewrite ?Hq; try done; try (by eapply prefix_lookup_Some).
    by eapply shift_lookup.
  - destruct Hp as (? & ? & line & ? & Hl). split; [by eapply serving_kept|]. split; [by eapply sublist_prefix|].
    exists line. split; [done|]. destruct e; try done; rewrite ?Hmine; destruct Hq as [Hq1 Hq2]; rewrite ?Hq2; try done;
      [by eapply prefix_lookup_Some|by eapply shift_lookup].
  - destruct Hp as (? & ? & Hs & ? & ? & ?). destruct (Hst Hs) as [? ->]. rewrite Ho, Has. split_and!; auto.
  - destruct Hp as (? & ? & Hs & ? & ? & ?). destruct (Hst Hs) as [? ->]. rewrite Ho, Has. split_and!; auto.
Qed.

Lemma append_at_adds i line s : is_Some (current_ s) → appended (append_at i line s) = appended s ++ [line].
Proof.
  intros [c Hc]. unfold append_at, AsyncLogger.append. cbn [current_ set_calls]. rewrite Hc. cbn [next_ set_calls].
  by destruct (zlen line <? avail c); [|destruct (next_ s)].
Qed.

(** What a call of [append] leaves, whose lines so far are [w]. *)
Lemma logs_on e s s' w :
  of_worker e = true → exec new_sink e s = Some s' → serving s → w `sublist_of` appended s →
  serving s' ∧ w `sublist_of` appended s'.
Proof.
  intros Hof Hex Hv Hsub. assert (Hh : harmless e = true) by by destruct e.
  pose proof (kept_exec new_sink e _ _ Hh Hex) as Hk.
  split; [by eapply serving_kept|eapply sublist_prefix; [done|apply Hk]].
Qed.

Lemma call_waits line s s' : serving s → exec new_sink (EvCall line) s = Some s' →
  checking s' !! List.length (checking s) = Some line.
Proof.
  intros Hv. unfold exec. destruct (crashed s); [done|]. destruct (_ <=? _); [|done]. intros [= <-].
  unfold call. rewrite (v_term _ Hv). cbn. rewrite lookup_app_r by done. by rewrite Nat.sub_diag.
Qed.
Lemma check_waits i line s s' : serving s → checking s !! i = Some line →
  exec new_sink (EvCheck i) s = Some s' → pending s' !! List.length (pending s) = Some line.
Proof.
  intros Hv Hl. unfold exec. destruct (crashed s); [done|]. rewrite Hl. intros [= <-].
  unfold check_started. rewrite (v_started _ Hv). cbn. rewrite lookup_app_r by done. by rewrite Nat.sub_diag.
Qed.
Lemma append_lands i line s s' w : reachable new_sink s → serving s → pending s !! i = Some line →
  exec new_sink (EvAppend i) s = Some s' → w `sublist_of` appended s → w ++ [line] `sublist_of` appended s'.
Proof.
  intros Hr [Ho Hte Hst Hru] Hl Hex Hsub. pose proof (exec_alive _ _ _ _ Hex) as Hcr.
  destruct (current_there new_sink new_sink_ok new_sink_text _ Hr Hcr Hst Hte Ho) as [Hcu _].
  unfold exec in Hex. rewrite Hcr, Hl in Hex. injection Hex as <-.
  rewrite append_at_adds by done. by apply sublist_app.
Qed.

(** [shutdown_logger], and the join. *)
Lemma shutdown_begins s s' : reachable new_sink s → serving s → exec new_sink EvShutdown s = Some s' →
  owner s' = ONotify true ∧ started_ s' = true ∧ running_ s' = false ∧ is_Some (thread_ s') ∧
  at_stop s' = appended s ∧ lost s' = lost s.
Proof.
  intros Hr [Ho Hte Hst Hru] Hex. pose proof (exec_alive _ _ _ _ Hex) as Hcr.
  destruct (current_there new_sink new_sink_ok new_sink_text _ Hr Hcr Hst Hte Ho) as [_ Hth].
  unfold exec in Hex. rewrite Hcr, Ho in Hex. injection Hex as <-. unfold shutdown. rewrite Hru. by split_and!.
Qed.
Lemma join_ends s s' : owner s = OJoin true → exec new_sink EvJoined s = Some s' → s' = joined true s.
Proof.
  intros Ho. unfold exec. destruct (crashed _); [done|]. rewrite Ho.
  destruct (thread_ s) as [t|]; [destruct (pt t)|]; congruence.
Qed.

Lemma main_own_inv js p p' : main_inv js p → main_own new_sink p = Some p' → main_inv js p'.
Proof.
  intros (Hr & Hlo & w & Hw & Hwt & Hp) Hstep. unfold main_own, go, init_logger, shutdown_logger in Hstep.
  destruct (doing p) eqn:Hf; [..|done].
  - destruct Hp as [Hs ->]. rewrite Hs in Hstep. apply bind_Some in Hstep as (s' & Hex & [= <-]).
    split; [eapply logger_reachable_exec; [done|rewrite Hs; exact Hex]|].
    injection Hex as <-. split; [done|]. exists []. do 2 (split; [done|]). split; [done|]. apply sublist_nil_l.
  - destruct Hp as [Hv Hsub]. destruct (todo p) as [|[line|] ls] eqn:Htodo;
      [apply bind_Some in Hstep as (s' & Hex & [= <-])..|].
    + destruct (shutdown_begins _ _ Hr Hv Hex) as (? & ? & ? & ? & Hat & Hlost).
      split; [by eapply logger_reachable_exec|]. rewrite (v_running _ Hv). cbn [log_]. rewrite Hlost.
      split; [done|]. exists w. cbn. rewrite Hat. by split_and!.
    + rewrite (v_term _ Hv). split; [by eapply logger_reachable_exec|]. cbn [log_].
      rewrite (lost_exec (EvCall line) _ _ eq_refl Hex). split; [done|].
      exists w. do 2 (split; [done|]). destruct (logs_on (EvCall line) _ _ w eq_refl Hex Hv Hsub). split_and!; [done..|].
      exists line. split; [done|]. by apply call_waits.
    + destruct (ended p) eqn:He; [|done]. injection Hstep as <-. split; [done|]. split; [done|].
      exists w. split; [done|]. split; [by left|done].
  - destruct Hp as (Hv & Hsub & line & Hhd & Hl). apply bind_Some in Hstep as (s' & Hex & [= <-]).
    rewrite (v_started _ Hv). split; [by eapply logger_reachable_exec|]. cbn [log_].
    rewrite (lost_exec (EvCheck (place p)) _ _ eq_refl Hex). split; [done|]. exists w. do 2 (split; [done|]).
    destruct (logs_on (EvCheck (place p)) _ _ w eq_refl Hex Hv Hsub). split_and!; [done..|].
    exists line. split; [done|]. by eapply check_waits.
  - destruct Hp as (Hv & Hsub & line & Hhd & Hl). apply bind_Some in Hstep as (s' & Hex & [= <-]).
    split; [by eapply logger_reachable_exec|]. cbn [log_].
    rewrite (lost_exec (EvAppend (place p)) _ _ eq_refl Hex). split; [done|].
    destruct (todo p) as [|j ls]; [done|]. injection Hhd as ->. exists (w ++ [line]).
    split; [by rewrite <-app_assoc|]. split.
    { intros Hjs. destruct (Hwt Hjs) as [?|[?|?]%elem_of_cons]; [by left|done|by right]. }
    destruct (logs_on (EvAppend (place p)) _ _ w eq_refl Hex Hv Hsub). split; [done|].
    by eapply append_lands.
  - destruct Hp as (Ht & Ho & Hst & Hru & Hth & Hsub). apply bind_Some in Hstep as (s' & Hex & [= <-]).
    split; [by eapply logger_reachable_exec|]. unfold exec in Hex. destruct (crashed _); [done|].
    rewrite Ho in Hex. injection Hex as <-. split; [done|]. exists w. rewrite Ht in *. by split_and!.
  - destruct Hp as (Ht & Ho & Hst & Hru & Hth & Hsub). apply bind_Some in Hstep as (s' & Hex & [= <-]).
    split; [by eapply logger_reachable_exec|]. cbn [log_]. pose proof (join_ends _ _ Ho Hex) as Hj.
    assert (Hlo' : mjoin (lost s') = []) by by rewrite Hj.
    split; [done|]. exists w. do 2 (split; [done|]). split; [done|]. cbn [log_]. intros Hd. exists (at_stop s').
    split; [by rewrite Hj|]. exact (stop_flushes new_sink new_sink_ok new_sink_text _ _ Hr Hth Hex Hd Hlo').
Qed.

Lemma main_end_inv js p : main_inv js p → main_inv js (mkMainThread (doing p) (place p) (todo p) true (log_ p)).
Proof. intros (Hr & Hlo & w & Hw & _ & Hp). do 2 (split; [done|]). exists w. split; [done|]. split; [by left|done]. Qed.

Lemma main_run_inv js es p p' : main_inv js p → main_run new_sink es p = Some p' → main_inv js p'.
Proof.
  revert p. induction es as [|e es IH]; intros p Hp; cbn; [by intros [= <-]|].
  intros (p1 & He & Hrun)%bind_Some. eapply IH; [|done].
  destruct e; [by eapply main_own_inv|by eapply main_other_inv|]. injection He as <-. by apply main_end_inv.
Qed.

Lemma main_starts_inv js : main_inv js (main_starts js).
Proof. split; [constructor|]. split; [done|]. exists []. by split_and!; [|right|..]. Qed.

(** *** The thread does return, or gets to [wait] *)

Definition main_left p : nat :=
  let n := (4 * List.length (todo p))%nat in
  match doing p with
  | MInit => n + 4 | MCall => n + 3 | MCheck => n + 2 | MAppend => n + 1
  | MNotify => 1 | MJoin | MReturned => 0
  end.
Definition short p : Prop := Forall (λ l : text, zlen l ≤ 4000) (todo p ≫= line_of).
(** In [server.wait()]. *)
Definition waiting p : Prop := doing p = MCall ∧ head (todo p) = Some JWait.

Lemma main_own_enabled js p :
  main_inv js p → crashed (log_ p) = false → short p → doing p ≠ MJoin → doing p ≠ MReturned →
  ended p = true ∨ ¬ waiting p →
  ∃ p', main_own new_sink p = Some p' ∧ crashed (log_ p') = false ∧ short p' ∧ ended p' = ended p ∧
    (main_left p' < main_left p)%nat.
Proof.
  intros (Hr & _ & w & _ & _ & Hp) Hcr Hsh HJ HR Hnw.
  unfold main_own, go, init_logger, shutdown_logger, main_left, short, waiting in *.
  destruct (doing p) eqn:Hf; try done.
  - destruct Hp as [-> _]. eexists. split; [done|]. cbn. split_and!; [done..|lia].
  - destruct Hp as [[Ho Hte Hst Hru] _]. destruct (todo p) as [|[line|] ls].
    + unfold exec. rewrite Hcr, Ho, Hru. cbn [mbind option_bind]. eexists. split; [done|]. cbn. unfold shutdown.
      rewrite Hru. split_and!; [done..|lia].
    + rewrite bind_cons in Hsh. apply Forall_app in Hsh as [Hl1 Hsh]. apply Forall_cons in Hl1 as [Hlen _].
      unfold exec. rewrite Hcr, (proj2 (Z.leb_le _ _) Hlen). eexists. split; [done|].
      rewrite Hte. cbn. unfold call. rewrite Hte. split_and!; [done|by apply Forall_cons|done|lia].
    + destruct (ended p) eqn:He; [|by destruct Hnw as [?|[]]]. eexists. split; [done|]. cbn.
      split_and!; [done..|lia].
  - destruct Hp as (Hv & _ & line & Hhd & Hl). unfold exec. rewrite Hcr, Hl, (v_started _ Hv). eexists.
    split; [done|]. cbn. unfold check_started. rewrite (v_started _ Hv). split_and!; [done..|lia].
  - destruct Hp as (Hv & _ & line & Hhd & Hl). unfold exec. rewrite Hcr, Hl. eexists. split; [done|].
    destruct (todo p) as [|x ls]; [done|]. rewrite bind_cons in Hsh. apply Forall_app in Hsh as [_ Hsh]. cbn.
    destruct Hv as [Ho Hte Hst Hru].
    destruct (append_at_lands (place p) line (log_ p)) as (_ & -> & _).
    { by apply (current_there new_sink new_sink_ok new_sink_text _ Hr Hcr Hst Hte Ho). }
    split_and!; [done..|lia].
  - destruct Hp as (_ & Ho & _). unfold exec. rewrite Hcr, Ho. eexists. split; [done|]. cbn. split_and!; [done..|lia].
Qed.

Lemma main_run_app es1 es2 p p1 :
  main_run new_sink es1 p = Some p1 → main_run new_sink (es1 ++ es2) p = main_run new_sink es2 p1.
Proof.
  revert p. induction es1 as [|e es IH]; intros p; cbn; [by intros [= <-]|].
  intros (p2 & -> & Hrun)%bind_Some. cbn. by apply IH.
Qed.

Lemma backend_of_main n p s' :
  run new_sink (replicate n EvBackend) (log_ p) = Some s' → doing p = MJoin →
  main_run new_sink (replicate n (MnOther EvBackend)) p =
    Some (mkMainThread MJoin (place p) (todo p) (ended p) s').
Proof.
  revert p. induction n as [|n IH]; intros p; cbn.
  { intros [= <-] Hf. destruct p. cbn in *. by rewrite Hf. }
  intros (s1 & Hex & Hrun)%bind_Some Hf. unfold main_other. rewrite Hex, Hf. cbn.
  by rewrite (IH (mkMainThread MJoin (place p) (todo p) (ended p) s1) Hrun).
Qed.

Lemma main_join_returns js p :
  main_inv js p → crashed (log_ p) = false → doing p = MJoin →
  ∃ es p', main_run new_sink es p = Some p' ∧ (MnEnd ∉ es) ∧ doing p' = MReturned.
Proof.
  intros Hpi Hcr Hf. pose proof Hpi as (Hr & _ & w & _ & _ & Hp). rewrite Hf in Hp.
  destruct Hp as (Ht & Ho & Hst & Hru & [t Hth] & _).
  destruct (logger_reachable_inv new_sink new_sink_ok new_sink_text _ Hr) as [[Hinv _]|[? _]]; [|congruence].
  destruct (backend_ends new_sink new_sink_ok 6 t (log_ p)) as (n & t' & s' & _ & Hback & Ht' & Hd);
    [done..|destruct (pt t); cbn; lia|].
  pose proof (backend_of_main n p s' Hback Hf) as Hpr.
  destruct (main_run_inv _ _ _ _ Hpi Hpr) as (_ & _ & w' & _ & _ & _ & Ho' & _). cbn [log_] in Ho'.
  pose proof (i_crashed _ (backend_keeps_inv new_sink new_sink_ok n _ _ Hinv Hback)) as Hcr'.
  exists (replicate n (MnOther EvBackend) ++ [MnOwn]), (mkMainThread MReturned 0 (todo p) (ended p) (joined true s')).
  split_and!; [|intros [[[=] _]%elem_of_replicate|[=]%list_elem_of_singleton]%elem_of_app|done].
  rewrite (main_run_app _ _ _ _ Hpr). cbn. unfold exec. by rewrite Hcr', Ho', Ht', Hd.
Qed.

Lemma main_goes_on n : ∀ js p,
  (main_left p ≤ n)%nat → main_inv js p → crashed (log_ p) = false → short p →
  ∃ es p', main_run new_sink es p = Some p' ∧ (MnEnd ∉ es) ∧
    (doing p' = MReturned ∨ (ended p = false ∧ waiting p')).
Proof.
  induction n as [|n IH]; intros js p Hn Hp Hcr Hsh;
    (assert (doing p = MReturned ∨ doing p = MJoin ∨ (doing p ≠ MReturned ∧ doing p ≠ MJoin))
       as [Hf|[Hf|[HR HJ]]] by (destruct (doing p); auto);
     [exists [], p; split_and!; [done|apply not_elem_of_nil|by left]
     |destruct (main_join_returns js p Hp Hcr Hf) as (es & p' & ? & ? & ?); exists es, p'; auto|]).
  - unfold main_left in Hn. destruct (doing p); done || lia.
  - assert (ended p = true ∨ ¬ waiting p ∨ (ended p = false ∧ waiting p)) as Hcase.
    { unfold waiting. destruct (ended p); [by left|right]. destruct (doing p); try (left; by intros [? _]).
      destruct (head (todo p)) as [[]|]; try (left; by intros [_ ?]). by right. }
    assert ((ended p = false ∧ waiting p) ∨ (ended p = true ∨ ¬ waiting p)) as [Hw|Hgo] by tauto.
    { exists [], p. split_and!; [done|apply not_elem_of_nil|by right]. }
    destruct (main_own_enabled js p Hp Hcr Hsh HJ HR Hgo) as (p1 & Hstep & Hcr1 & Hsh1 & He & Hlt).
    destruct (IH js p1) as (es & p' & Hrun & Hes & Hend); [lia|by eapply main_own_inv|done|done|].
    rewrite He in Hend. exists (MnOwn :: es), p'. split_and!; [|by intros [?|?]%elem_of_cons|done].
    cbn. by rewrite Hstep.
Qed.

Lemma main_short js p : main_inv js p → Forall (λ l : text, zlen l ≤ 4000) (js ≫= line_of) → short p.
Proof. intros (_ & _ & w & -> & _) Hall. by apply Forall_app in Hall as [_ ?]. Qed.

Lemma main_jobs_lines l1 ls l2 : main_jobs l1 ls l2 ≫= line_of = [l1] ++ ls ++ [l2].
Proof.
  unfold main_jobs. rewrite bind_cons, bind_app.
  assert ((JLog <$> ls) ≫= line_of = ls) as ->; [|done].
  induction ls as [|l ls IH]; [done|]. by rewrite fmap_cons, bind_cons, IH.
Qed.

(** When it has returned. *)
Lemma main_kept l1 ls l2 p : main_inv (main_jobs l1 ls l2) p → doing p = MReturned →
  ended p = true ∧
  (dropped (log_ p) = 0%nat → ∃ ls', ([l1] ++ ls ++ [l2]) `sublist_of` ls' ∧
     mjoin ls' `prefix_of` mjoin (sink_disk <$> past (log_ p))).
Proof.
  intros (_ & _ & w & Hw & Hwt & Hp) Hret. rewrite Hret in Hp. destruct Hp as [Ht Hp].
  rewrite Ht in Hw, Hwt. rewrite main_jobs_lines, app_nil_r in Hw. rewrite Hw. split; [|exact Hp].
  destruct Hwt as [?|[]%not_elem_of_nil]; [|done]. unfold main_jobs.
  apply elem_of_cons. right. apply elem_of_app. right. by left.
Qed.

Lemma main_ended es : ∀ p p', main_run new_sink es p = Some p' → MnEnd ∉ es → ended p' = ended p.
Proof.
  induction es as [|e es IH]; intros p p'; cbn; [by intros [= <-]|].
  intros (p1 & He & Hrun)%bind_Some [Hne Hes]%not_elem_of_cons. rewrite (IH p1 p' Hrun Hes).
  destruct e as [|e|]; [|by apply main_other_shape in He as (_ & _ & _ & _ & ? & _)|done].
  unfold main_exec, main_own, go in He. destruct (doing p), (todo p) as [|[|] ?]; try done;
    try (apply bind_Some in He as (? & _ & [= <-]); done); try (apply bind_Some in He as (? & _ & [= <-]);
    by repeat case_match). destruct (ended p) eqn:Hen; [|done]. by injection He as <-.
Qed.

(** ** Properties *)

(** C18: The log of a run of the server is kept.  [main] logs its settings, what the server
    logs on the same thread while it starts, and, once [server.wait()] has returned,
    "exited", and shuts the logger down; however the workers log meanwhile and wherever
    the back end is, when [main] returns these lines are on disk, in order, among those
    of the workers, unless the overload limit threw buffers away.  [main] does not return
    before the workers have ended; from every point on the way at which no late [append]
    of another thread has dereferenced null, it can go on until it waits for them, and
    if they have ended it can go on until it returns.  The line with the settings is
    complete for up to 128 polling processors. *)
Theorem main_log_is_kept {F} (format_g : F → text) c msg cpus ts ts' tid file during :
  (∀ v, zlen (format_g v) < kMaxNumericSize) → zlen ts ≤ 32 → zlen ts' ≤ 32 → zlen tid ≤ 16 →
  SourceFile file = lit "echo_server.cc" → Forall (λ l : text, zlen l ≤ 4000) during →
  main_message c = Some (inl msg) → sqpoll_cpus (CORO_SQPOLL_CPUS c) = Some cpus →
  ∃ listen exited, log format_g (Plain 2) file 77 ts tid msg = Ok (listen, false) ∧
    log format_g (Plain 2) file 129 ts' tid exited_message = Ok (exited, false) ∧
    (zlen cpus ≤ 128 → listen = full_line format_g ts tid (Plain 2) msg file 77) ∧
    exited = full_line format_g ts' tid (Plain 2) exited_message file 129 ∧
    ∀ es p, main_run new_sink es (main_starts (main_jobs listen during exited)) = Some p →
      (doing p = MReturned → ended p = true ∧
       (dropped (log_ p) = 0%nat →
        ∃ ls, ([listen] ++ during ++ [exited]) `sublist_of` ls ∧
          mjoin ls `prefix_of` mjoin (sink_disk <$> past (log_ p)))) ∧
      (crashed (log_ p) = false → ∃ es' p', main_run new_sink es' p = Some p' ∧ (MnEnd ∉ es') ∧
        if ended p then doing p' = MReturned else waiting p').
Proof.
  intros Hg Hts Hts' Htid Hfile Hdur Hmsg Hcpus.
  destruct (main_message_ok format_g c msg cpus Hmsg Hcpus) as [Hok Hlen].
  destruct (main_line_exact format_g Hg ts tid file 77 msg) as (l1 & Hl1 & Hs1 & Hf1); [done|done|lia|done|done|].
  destruct (main_line_exact format_g Hg ts' tid file 129 exited_message) as (l2 & Hl2 & Hs2 & Hf2);
    [done|done|lia|done|by repeat constructor|].
  exists l1, l2. split_and!; [done|done| | |].
  { intros Hc. apply Hf1. lia. }
  { apply Hf2. by vm_compute. }
  intros es p Hrun. pose proof (main_run_inv _ _ _ _ (main_starts_inv _) Hrun) as Hinv. split.
  - intros Hret. by eapply main_kept.
  - intros Hcr. destruct (main_goes_on (main_left p) _ p (Nat.le_refl _) Hinv Hcr) as (es' & p' & Hrun' & Hes & Hend).
    { eapply main_short; [done|]. rewrite main_jobs_lines. apply Forall_cons. split; [done|].
      apply Forall_app. split; [done|]. by apply Forall_cons. }
    exists es', p'. do 2 (split; [done|]). destruct (ended p) eqn:He; [by destruct Hend as [?|[? _]]|].
    destruct Hend as [Hend|[_ ?]]; [|done]. exfalso.
    pose proof (main_run_inv _ _ _ _ Hinv Hrun') as Hinv'. pose proof (main_kept _ _ _ _ Hinv' Hend) as [He' _].
    rewrite (main_ended es' p p' Hrun' Hes) in He'. congruence.
Qed.
End kept_lines.

(** ** Witnesses *)

#[local] Existing Instance AsyncLogger.Demo.sink.

Lemma main_log_is_kept_witness :
  ∃ listen p, log Fatal.Demo.format_g (Plain 2) (lit "src/example/echo_server.cc") 77 (lit "20250101 ") (lit "  123")
      (listen_message EchoMain.Demo.given 9000 2 [13; 14]) = Ok (listen, false) ∧
    doing p = MReturned ∧ ended p = true ∧
    (dropped (log_ p) = 0%nat → ∃ ls, listen ∈ ls ∧
       mjoin ls `prefix_of` mjoin (sink_disk <$> past (log_ p))).
Proof.
  destruct (main_log_is_kept AsyncLogger.Demo.new_sink AsyncLogger.Demo.new_sink_ok AsyncLogger.Demo.new_sink_text
    Fatal.Demo.format_g EchoMain.Demo.given (listen_message EchoMain.Demo.given 9000 2 [13; 14]) [13; 14]
    (lit "20250101 ") (lit "20250102 ") (lit "  123") (lit "src/example/echo_server.cc") [lit "hello"])
    as (l1 & l2 & Hl1 & _ & _ & _ & Hrun).
  - intros v. by vm_compute.
  - by vm_compute.
  - by vm_compute.
  - by vm_compute.
  - by vm_compute.
  - repeat constructor. by vm_compute.
  - vm_compute. reflexivity.
  - vm_compute. reflexivity.
  - destruct (Hrun [MnEnd] _ eq_refl) as [_ Hret].
    destruct Hret as (es & p & Hes & _ & Hp); [vm_compute; reflexivity|].
    destruct (Hrun (MnEnd :: es) p Hes) as [Hkept _]. destruct (Hkept Hp) as [He Hls].
    exists l1, p. split; [exact Hl1|]. split; [exact Hp|]. split; [exact He|]. intros Hd.
    destruct (Hls Hd) as (ls & Hsub & Hpre).
    exists ls. split; [|exact Hpre]. eapply (elem_of_sublist _ _ _); [|exact Hsub]. by left.
Defined.
